(* ===== verification/_CoqProject ===== *)
-Q . S2P
Prelude.v
GoStd.v
Values.v
Model.v
Diagnostics.v
Errors.v
Events.v
State.v
QueuePolicy.v
QueueStart.v
QueueOps.v
Evidence.v
Command.v
Json.v
JournalModel.v
Views.v
Protocol.v
ProtocolProps.v
ProtocolTypes.v
Client.v
ClientSafety.v
ClientProps.v
ClientBounds.v
Reads.v
Catalog.v
CatalogProps.v
Observer.v
ObserverProps.v
Execution.v
Lane.v
Select.v
Submit.v
Hosts.v
SelectProps.v
SubmitSafety.v
SubmitProps.v
SubmitGates.v
SubmitClaims.v
ExecutionSafety.v
ReadBack.v
Envelope.v
Journal.v
JournalSafety.v
JournalProps.v
World.v
Worker.v
WriteOnce.v
Persist.v
Playback.v
Automate.v
Bench.v
WriteSafety.v
WriteProps.v
NoReplay.v
PlaybackSafety.v
PlaybackProps.v
VolumeSafety.v
Broker.v
BrokerProps.v
History.v
HistoryProps.v
Config.v
ConfigProps.v
Unmarshal.v
Project.v
ReadApi.v
Access.v
Handlers.v
AccessProps.v
Cursor.v
CursorProps.v
Watch.v
Migrations.v
MigrationsProps.v
Checks.v
Doctor.v
DoctorProps.v
Telemetry.v
Lifecycle.v
Metrics.v
