(* ===== verification/Prelude.v ===== *)
(** * heos-control: a verification library

    heos-control is a server that lets several API clients control HEOS players
    of one household: it observes each player over one pinned TLS connection,
    admits one operation per player into a durable journal, and runs it with a
    worker that never repeats a command and never claims an effect that it did
    not observe.  This library models the Go packages under [src/internal] and
    proves what makes them correct.  It is written against stdpp; every model is
    executable, and every hypothesis of a property has a witness that evaluates
    the model at a concrete input.

    ** The program and its parts

    - [heos] (wire): [Protocol.v] has the frames, responses, commands and
      partial writes of [protocol.go], [queue_removal.go] and [writes.go] on the
      standard library of [GoStd.v]; [Values.v], [Model.v], [Events.v] and
      [Errors.v] have the closed vocabularies, the observed records, the decoded
      events and the error trees.
    - [heos] (connection): [Client.v] is the goroutine of [client.go] that owns
      the socket: its two mailboxes, the tokens that scope an observation, the
      guards of writes, the deliveries it reports and the events it publishes.
    - [heos] (observation): [Reads.v] decodes and pages;
      [Observer.v] is the projection of [observations.go] with its event,
      playback and scalar refreshes and the loop of [observation_loop.go];
      [Catalog.v] is the store of opaque references of [catalog.go].
    - [control] (views): [Views.v] projects players, revisions and groups
      ([reads.go], [now_playing.go]); [Select.v] resolves what a playback
      command plays ([playback_media.go], [playback_plan.go], [buffered_plan.go]).
    - [control] (admission): [Command.v] has the commands and their bounds;
      [Lane.v] the lane that requests, worker and events of a player share;
      [Submit.v] the whole of [Coordinator.Submit] and of [submitBufferedSkip];
      [Hosts.v] has the concrete environments of the examples.
    - [control] (decisions): [State.v], [QueuePolicy.v], [QueueStart.v],
      [QueueOps.v] and [Evidence.v] are the pure comparisons and decision tables
      of the worker; [Execution.v] is the record [execution] with every critical
      section of its mutex; [Envelope.v] the volume envelope, the refill of a
      buffered queue and the classification of a result.
    - [control] (worker): [World.v] is the monad of a worker and the environment
      it talks to; [Worker.v] its reads, waits and journal transitions;
      [WriteOnce.v] the one place that sends a command; [Persist.v] the
      journal-only finalizers; [Playback.v] and [Automate.v] the start, the
      maintenance, the envelope and [execute].
    - [control] (life): [Lifecycle.v] has the construction of the lanes, the
      goroutines that [Coordinator.Close] waits for and the close itself.
    - [journal]: [Json.v], [Diagnostics.v] and [JournalModel.v] are the documents
      and their canonical form; [Journal.v] the tables, the statements that
      [dbgen/operations.sql.go] embeds and the transactions of [operations.go];
      [History.v] the query and the page of [history.go]; [Migrations.v] the
      policy of the migration files, the ledger with its checksums and floors,
      and the readiness of [journal.go] and [health.go].
    - [api]: [Access.v] is authentication, scopes, the checks of a route and the
      mapping of errors to replies; [Handlers.v] every handler; [ReadApi.v] the
      reads of [reads.go] and [preflight.go]; [Project.v] the public view of an
      operation, on the decoder of [Unmarshal.v]; [Cursor.v] the history endpoint
      with its base64 cursor; [Broker.v] the broker of events, its subscriptions
      and the stream of one client.
    - [config]: [Config.v] checks a decoded configuration and credential file and
      walks JSON for ambiguous members; [Checks.v] reads and decodes the files
      within their bounds and is the offline report of [check.go].
    - [app], [telemetry] and the diagnostic command: [Watch.v] has the loops that
      publish events; [Doctor.v] the probe of [probe.go], the checks of the
      database, the pool of probes and the reports of [diagnostics.go], up to the
      command line; [Telemetry.v] the collector of a player and what is recorded
      in it; [Metrics.v] the scrape of [metrics.go]; [Lifecycle.v] the maintenance
      of the journal and [Run].

    The parts compose as the code composes them: a request passes the checks of
    [Access.v], reaches a handler of [Handlers.v], is admitted by [Submit.v]
    through the transactions of [Journal.v] and is executed by [Automate.v] and
    [WriteOnce.v], whose sends are the requests that [Client.v] queues and whose
    observations are the snapshots that [Observer.v] publishes; what the worker
    leaves in the journal is what [Cursor.v], [Project.v] and [Watch.v] show.

    ** How state and effects are modelled

    A struct is a [Record] with functional update, an enumeration an
    [Inductive], a map a [gmap], a returned Go error the [Err] of a [Result].
    Times and durations are nanoseconds in [Z]; counters that can wrap are
    reduced by [u64] or [i64].  Code under a mutex is a pure function on the
    protected record, so its atomicity is that of the lock.  A goroutine is a
    program of a small state monad that threads its own state, an environment
    and a log of the calls it makes; before each critical section the
    environment may change the shared state as the other goroutines would, so a
    theorem quantified over the environment holds for every interleaving.  Four
    such monads are used, each next to the code that needs it: [Owner] of
    [Client.v], [Task] of [Reads.v], [Handler] of [Lane.v] and [Worker] of
    [World.v].  The hash, the sizes and texts of JSON documents, the random
    texts of references, the clock, the sockets and the fate of a COMMIT are
    parameters; what is assumed of them is stated where it is used.

    ** What the theorems show

    - The wire ([ProtocolProps.v], [ProtocolTypes.v]): a frame is delimited by
      its CRLF alone, an encoded command is one line and decodes to itself, a
      decoded response is well formed, a partial write reports what it wrote.
    - The connection ([ClientProps.v], [ClientBounds.v], over the step logic of
      [ClientSafety.v]): the bytes of a request leave at most once and only
      under its guard; a consumed guard never matches again; mailboxes and maps
      stay in their bounds; every request is answered.
    - Observation ([ObserverProps.v], [CatalogProps.v]): a valid projection is
      complete and of one history; a traversal is gapless; the references are
      bounded and resolve to what was handed out.
    - Selection ([SelectProps.v]): what a playback command resolves to is exactly
      what it declares, and the walk over nested containers ends.
    - Admission ([SubmitClaims.v], over [SubmitSafety.v], [SubmitProps.v] and
      [SubmitGates.v]): nothing reaches the journal unchecked or twice; a worker
      starts exactly when its operation is durably new; the gates are returned
      on every way out; a revoked worker is replaced or finished, with the two
      exceptions that [failed_takeover_abandons_revoked] exhibits; the slot of a
      child Skip is settled.
    - The worker ([WriteProps.v], [NoReplay.v], [PlaybackProps.v],
      [VolumeSafety.v], over [WriteSafety.v] and [PlaybackSafety.v]): every send
      is announced in the journal and guarded by a fresh safe observation, no
      command is replayed, what may have been sent is accounted for, and an
      automated playback never exceeds its ceiling.
    - Decisions ([ExecutionSafety.v], [ReadBack.v] and the files of the tables):
      a Stop after Play revokes ownership, confirmations prove exactly what they
      report, refills fit, envelopes rise and then fall.
    - The journal ([JournalProps.v], over [JournalSafety.v]): the transactions
      refine at-most-once admission, keep the tables consistent, fence stale
      processes and leave results final; recovery terminates.  A page of the
      history is exact ([HistoryProps.v]), a binary starts exactly on the schemas
      it supports, and a migration is recorded with what it was
      ([MigrationsProps.v]).
    - The boundary ([AccessProps.v], [ReadApi.v], [Project.v], [CursorProps.v],
      [BrokerProps.v]): only an authorized principal reaches the coordinator, an
      error reply agrees with its cause up to the exception that
      [error_replies_are_consistent] states, a preflight that answers ready names
      a safe player, following the cursors traverses the history, and a stream of
      events has no unannounced gap.
    - The process ([Checks.v], [DoctorProps.v], [Telemetry.v], [Watch.v],
      [Lifecycle.v]): a configuration that the offline report accepts is one that
      the service starts on, a doctor report says what the probes found and its
      probes are bounded and joined, completion reasons come from their
      vocabulary, a scrape depends on no player that its credential may not see
      ([Metrics.v]), a closed coordinator is quiet, the journal is recovered before
      it is pruned, and [Run] releases what it has opened in reverse order on
      every way out.

    ** Bounds and fuel

    Loops that the code bounds itself use that bound: 100 pages of a traversal,
    10000 items, three attempts of a read or a write, 101 visits of a container
    walk (the code refuses the hundred and first).  Loops that wait for the
    device, the clock or the journal carry a [fuel], and running out of it is an
    error of its own, [out_of_fuel], that no branch of the code returns; safety
    properties quantify over every fuel, and termination is proved where the
    code has it ([recovery_completes], [request_answered], [members_terminate]).

    ** What is not modelled, and why

    Log lines, with the attributes and fingerprints that only they carry
    ([heos/diagnostics.go] and parts of [control/diagnostics.go]), and the
    exposition of Prometheus have no effect on the modelled state.  TLS, sockets,
    PostgreSQL, cryptography, the parsing of flags, the texts of numbers and
    instants, the HTTP router and [encoding/json] are third-party or library code
    below the model: they are parameters, or inputs that quantify over what they
    may answer.  The tool that runs the migrations ([migration_runner.go],
    [migration_lock.go]) is a third party that the program constructs.  The
    priority mark of a context only orders the client's queue, which [Client.v]
    models itself.  [api.gen.go] and the wrappers that sqlc writes around the
    modelled statements are generated.  The construction of clients, reads and
    the HTTP server, the documentation page, the entry
    point and the repository's scripts are wiring without decisions that the
    service depends on. *)

From stdpp Require Export base tactics options decidable list list_numbers numbers strings pretty sorting gmap sets.
From Stdlib Require Export ZArith Lia.

#[export] Set Warnings "-clear-no-such-hyp,-register-all".

(** ** Scopes and notations *)

Declare Scope go_scope.
Delimit Scope go_scope with go.

(** Go's [==] and [!=] on comparable values. *)
Notation "a == b" := (bool_decide (a = b)) (at level 70, no associativity) : go_scope.
Notation "a != b" := (negb (bool_decide (a = b))) (at level 70, no associativity) : go_scope.
(** Membership in a Go [map[K]bool] used as a set. *)
Notation "x 'in?' s" := (bool_decide (x ∈ s)) (at level 70, no associativity) : go_scope.

#[global] Open Scope Z_scope.
#[global] Open Scope bool_scope.
#[global] Open Scope go_scope.

(** ** Functional record update

    A record type declares its eta-expansion as an instance of [Eta]; the
    setter of any of its fields is then found by abstracting that field. *)

Class Eta (R : Type) := eta : R -> R.
Class FieldUpdate {R T : Type} (field : R -> T) := update : (T -> T) -> R -> R.

Ltac field_update :=
  lazymatch goal with
  | |- @FieldUpdate ?R ?T ?field =>
      let f := fresh "f" in
      let r := fresh "r" in
      intros f r;
      let whole := eval hnf in (@eta R _ r) in
      lazymatch eval pattern (field r) in whole with
      | ?k _ => let out := eval cbv beta in (k (f (field r))) in exact out
      end
  end.
#[export] Hint Extern 1 (FieldUpdate _) => field_update : typeclass_instances.

#[warnings="-postfix-notation-not-level-1"]
Notation "r <| f := v |>" := (update (field := f) (fun _ => v) r)
  (at level 12, f at level 9, v at level 200, left associativity) : go_scope.

(** ** First matching rule

    The decision tables of the controller range over an ordered slice of rules
    and stop at the first one whose condition holds. *)

Fixpoint first_match {A} (rules : list (bool * A)) (default : A) : A :=
  match rules with
  | [] => default
  | (true, a) :: _ => a
  | (false, _) :: rest => first_match rest default
  end.

(** ** Durations and times

    A [time.Duration] is a signed count of nanoseconds; a [time.Time] is the
    count of nanoseconds since Go's zero time, so that [IsZero] is [t = 0]. *)

Definition Duration := Z.
Definition Time := Z.
Definition Millisecond : Duration := 1000000.
Definition Second : Duration := 1000000000.
Definition Minute : Duration := 60 * Second.
Definition isZero (t : Time) : bool := t == 0.

(** Go's [len]. *)
Definition len {A} (l : list A) : Z := Z.of_nat (length l).

(** Signed 64-bit and unsigned 64-bit wrap-around. *)
Definition u64 (z : Z) : Z := z mod 2 ^ 64.
Definition i64 (z : Z) : Z := (z + 2 ^ 63) mod 2 ^ 64 - 2 ^ 63.

(** ** Boolean reflection

    [go_bool] turns the boolean conditions of the code into propositions;
    [breflect] applies it everywhere and splits the conjunctions it finds. *)

Lemma bool_decide_eq_true_iff (P : Prop) `{Decision P} : bool_decide P = true <-> P.
Proof. apply bool_decide_eq_true. Qed.

Lemma bool_decide_eq_false_iff (P : Prop) `{Decision P} : bool_decide P = false <-> ~ P.
Proof. apply bool_decide_eq_false. Qed.

Lemma not_true_iff (b : bool) : b <> true <-> b = false.
Proof. destruct b; naive_solver. Qed.

Lemma not_false_iff (b : bool) : b <> false <-> b = true.
Proof. destruct b; naive_solver. Qed.

Create Rewrite HintDb go_bool.
Create Rewrite HintDb len.
Create HintDb heos.
#[export] Hint Rewrite andb_true_iff andb_false_iff orb_true_iff orb_false_iff
  negb_true_iff negb_false_iff bool_decide_eq_true_iff bool_decide_eq_false_iff
  Z.ltb_lt Z.ltb_ge Z.leb_le Z.leb_gt Z.eqb_eq Z.eqb_neq not_true_iff not_false_iff
  : go_bool.

Ltac breflect := autorewrite with go_bool in *; destruct_and?.
Ltac bgoal := autorewrite with go_bool.
Ltac bsolve := breflect; try done; destruct_or?; try done; try congruence; try lia.

(** [x != nil] for a pointer or an error. *)
Definition is_some {A} (o : option A) : bool := match o with Some _ => true | None => false end.
Lemma is_some_true {A} (o : option A) : is_some o = true <-> o <> None.
Proof. by destruct o. Qed.
Lemma is_some_false {A} (o : option A) : is_some o = false <-> o = None.
Proof. by destruct o. Qed.

Lemma isZero_true (t : Time) : isZero t = true <-> t = 0.
Proof. unfold isZero. by rewrite bool_decide_eq_true. Qed.
Lemma isZero_false (t : Time) : isZero t = false <-> t <> 0.
Proof. unfold isZero. by rewrite bool_decide_eq_false. Qed.
#[export] Hint Rewrite @is_some_true @is_some_false isZero_true isZero_false : go_bool.

Lemma first_match_cons {A} (b : bool) (a : A) rest d :
  first_match ((b, a) :: rest) d = if b then a else first_match rest d.
Proof. by destruct b. Qed.

Lemma first_match_nil {A} (d : A) : first_match [] d = d.
Proof. done. Qed.

#[global] Arguments first_match : simpl never.

(** Case analysis on the conditions of a decision table, in their order. *)
Ltac rule_step :=
  match goal with
  | |- context [first_match ((?b, ?a) :: ?rest) ?d] =>
      rewrite (first_match_cons b a rest d); destruct b eqn:?
  | |- context [first_match [] ?d] => rewrite (first_match_nil d)
  end.
Ltac rule_cases := repeat rule_step.

Ltac case_if :=
  match goal with
  | |- context [if ?b then _ else _] => destruct b eqn:?
  | H : context [if ?b then _ else _] |- _ => destruct b eqn:?
  end.

Lemma first_match_spec {A} (rules : list (bool * A)) (d : A) :
  (exists pre post a, rules = pre ++ (true, a) :: post /\ Forall (fun r => r.1 = false) pre
     /\ first_match rules d = a)
  \/ (Forall (fun r => r.1 = false) rules /\ first_match rules d = d).
Proof.
  induction rules as [|[[] a] rest IH]; rewrite ?first_match_cons, ?first_match_nil.
  - right. by split; [constructor|].
  - left. exists [], rest, a. by repeat split.
  - destruct IH as [(pre & post & x & -> & Hpre & Hx)|[Hall Hx]].
    + left. exists ((false, a) :: pre), post, x. repeat split; [|done]. by constructor.
    + right. split; [by constructor|done].
Qed.

(** ** Lists *)

Lemma first_match_all {A} (P : A -> Prop) (rules : list (bool * A)) (d : A) :
  Forall (fun rule => P rule.2) rules -> P d -> P (first_match rules d).
Proof. intros Hrules Hd. induction Hrules as [|[[] a] rules Ha _ IH]; done. Qed.

Lemma len_app {A} (l k : list A) : len (l ++ k) = len l + len k.
Proof. unfold len. rewrite length_app. lia. Qed.

Lemma len_cons {A} (x : A) (l : list A) : len (x :: l) = 1 + len l.
Proof. unfold len. cbn. lia. Qed.

Lemma len_snoc {A} (l : list A) (x : A) : len (l ++ [x]) = len l + 1.
Proof. unfold len. rewrite length_app. cbn. lia. Qed.

Lemma filter_snoc {A} (P : A -> Prop) `{forall x, Decision (P x)} (l : list A) (x : A) :
  filter P (l ++ [x]) = filter P l ++ (if bool_decide (P x) then [x] else []).
Proof. rewrite filter_app. cbn. case_decide; by case_bool_decide. Qed.

Lemma drop_snoc {A} (n : nat) (l : list A) (x : A) : (n <= length l)%nat -> drop n (l ++ [x]) = drop n l ++ [x].
Proof. intros Hn. by rewrite drop_app_le. Qed.

Lemma len_nonneg {A} (l : list A) : 0 <= len l.
Proof. unfold len. lia. Qed.

Lemma len_map {A B} (f : A -> B) (l : list A) : len (map f l) = len l.
Proof. unfold len. by rewrite length_map. Qed.

Lemma len_drop {A} (n : nat) (l : list A) : len (drop n l) = Z.max 0 (len l - Z.of_nat n).
Proof. unfold len. rewrite length_drop. lia. Qed.

#[export] Hint Rewrite @len_app @len_cons @len_map @len_drop : len.

Lemma existsb_false {A} (f : A -> bool) (l : list A) : existsb f l = false <-> Forall (fun x => f x = false) l.
Proof. induction l as [|x l IH]; cbn; [done|]. by rewrite orb_false_iff, Forall_cons, IH. Qed.

Lemma existsb_decide {A} (P : A -> Prop) `{forall x, Decision (P x)} (l : list A) :
  existsb (fun x => bool_decide (P x)) l = true <-> exists x, x ∈ l /\ P x.
Proof.
  rewrite existsb_exists. split; intros (x & Hin & Hx); exists x.
  - split; [by apply list_elem_of_In|by apply bool_decide_eq_true in Hx].
  - split; [by apply list_elem_of_In|by apply bool_decide_eq_true].
Qed.

(** A loop that visits the items with their index, rejects one that fails [ok]
    or whose key is empty or repeated, and otherwise succeeds. *)
Fixpoint distinct_scan {A} (key : A -> string) (ok : nat -> A -> bool)
    (seen : gset string) (i : nat) (items : list A) : bool :=
  match items with
  | [] => true
  | m :: rest =>
      if negb (ok i m) || (key m == "") || (key m in? seen) then false
      else distinct_scan key ok ({[key m]} ∪ seen) (S i) rest
  end.

Lemma distinct_scan_spec {A} (key : A -> string) ok (items : list A) : forall seen i,
  distinct_scan key ok seen i items = true <->
  (forall k m, items !! k = Some m -> ok (i + k)%nat m = true /\ key m <> "" /\ (key m ∉ seen))
  /\ NoDup (key <$> items).
Proof.
  induction items as [|m rest IH]; intros seen i; cbn [distinct_scan]; rewrite ?fmap_cons.
  { split; [|done]. intros _. split; [|constructor]. intros k m. by rewrite lookup_nil. }
  case_if; [split; [done|]|rewrite IH; split].
  - intros [Hall _]. specialize (Hall 0%nat m eq_refl). rewrite Nat.add_0_r in Hall.
    breflect. destruct_or?; naive_solver congruence.
  - intros [Hall Hnd]. breflect. split.
    + intros [|k] x; cbn; [intros [= ->]; rewrite Nat.add_0_r; auto|].
      intros Hx. destruct (Hall k x Hx) as (Hok & Hne & Hs).
      replace (i + S k)%nat with (S i + k)%nat by lia. repeat split; [done..|set_solver].
    + apply NoDup_cons. split; [|done]. intros (x & Hkx & Hx)%list_elem_of_fmap.
      apply list_elem_of_lookup in Hx as [k Hk]. destruct (Hall k x Hk) as (_ & _ & Hs). set_solver.
  - intros [Hall [Hnin Hnd]%NoDup_cons]. split; [|done]. intros k x Hx.
    destruct (Hall (S k) x Hx) as (Hok & Hne & Hs).
    replace (i + S k)%nat with (S i + k)%nat in Hok by lia. repeat split; [done..|].
    intros [Heq%elem_of_singleton|]%elem_of_union; [|done]. apply Hnin.
    rewrite <- Heq. apply list_elem_of_fmap. exists x. split; [done|].
    apply list_elem_of_lookup. by exists k.
Qed.

Lemma distinct_scan_empty {A} (key : A -> string) ok (items : list A) :
  distinct_scan key ok ∅ 0 items = true <->
  (forall k m, items !! k = Some m -> ok k m = true /\ key m <> "") /\ NoDup (key <$> items).
Proof.
  rewrite distinct_scan_spec. split; intros [H ?]; (split; [|done]); intros k m Hk;
    destruct (H k m Hk) as (? & ?); destruct_and?; split_and?; (done || set_solver).
Qed.
