(* ===== verification/GoStd.v ===== *)
(** * The parts of Go's standard library the protocol code uses

    [strconv] (Atoi, ParseInt, ParseUint, Itoa), [strings] (Cut, Split, Join,
    HasPrefix, TrimSpace), [unicode/utf8] and [net/url] (escaping and [Values]).
    A Go string is its sequence of bytes. *)

From S2P Require Import Prelude.
From Stdlib Require Import Ascii.

Definition byte_of (c : ascii) : Z := Z.of_nat (nat_of_ascii c).
Definition of_byte (z : Z) : ascii := ascii_of_nat (Z.to_nat z).
Definition slen (s : string) : Z := Z.of_nat (String.length s).

Fixpoint all_bytes (p : Z -> bool) (s : string) : bool :=
  match s with EmptyString => true | String c rest => p (byte_of c) && all_bytes p rest end.
Definition any_byte (p : Z -> bool) (s : string) : bool := negb (all_bytes (fun b => negb (p b)) s).
Definition contains_byte (b : Z) (s : string) : bool := any_byte (Z.eqb b) s.

Definition str1 (c : ascii) : string := String c EmptyString.
Fixpoint concat_map (f : ascii -> string) (s : string) : string :=
  match s with EmptyString => "" | String c rest => f c +:+ concat_map f rest end.

(** ** strings *)

(** [strings.Cut(s, sep)] for a one-byte separator. *)
Fixpoint cut (sep : ascii) (s : string) : string * string * bool :=
  match s with
  | EmptyString => ("", "", false)
  | String c rest =>
      if c == sep then ("", rest, true)
      else let '(a, b, ok) := cut sep rest in (String c a, b, ok)
  end.

(** [strings.Split(s, sep)] for a one-byte separator. *)
Fixpoint split (sep : ascii) (s : string) : list string :=
  match s with
  | EmptyString => [""]
  | String c rest =>
      if c == sep then "" :: split sep rest
      else match split sep rest with
           | first :: more => String c first :: more
           | [] => [str1 c]
           end
  end.

(** [strings.Join(parts, sep)]. *)
Fixpoint join (sep : string) (parts : list string) : string :=
  match parts with
  | [] => ""
  | [p] => p
  | p :: rest => p +:+ sep +:+ join sep rest
  end.

Definition hasPrefix (s prefix : string) : bool := String.prefix prefix s.
Definition replace_byte (c : ascii) (by_ : string) (s : string) : string :=
  concat_map (fun x => if x == c then by_ else str1 x) s.

Lemma byte_of_range (c : ascii) : 0 <= byte_of c < 256.
Proof. unfold byte_of. pose proof (nat_ascii_bounded c). lia. Qed.

(** Encodings of the runes [unicode.IsSpace] accepts. *)
Definition bytes_string (l : list Z) : string := String.string_of_list_ascii (map of_byte l).
Definition space_encodings : list string := map bytes_string
  ([[9]; [10]; [11]; [12]; [13]; [32]; [194; 133]; [194; 160]; [225; 154; 128];
    [226; 128; 168]; [226; 128; 169]; [226; 128; 175]; [226; 129; 159]; [227; 128; 128]]
   ++ map (fun i : Z => [226; 128; i]) (seqZ 128 11)).

Definition strip_prefix (p s : string) : option string :=
  if String.prefix p s then Some (String.substring (String.length p) (String.length s) s) else None.
Definition srev (s : string) : string :=
  String.string_of_list_ascii (rev (String.list_ascii_of_string s)).
Definition strip_any (encodings : list string) (s : string) : option string :=
  foldr (fun p acc => match strip_prefix p s with Some r => Some r | None => acc end) None encodings.
Fixpoint trim_left (encodings : list string) (fuel : nat) (s : string) : string :=
  match fuel with
  | O => s
  | S fuel => match strip_any encodings s with Some r => trim_left encodings fuel r | None => s end
  end.
(** [strings.TrimSpace]: one step per byte is enough fuel. *)
Definition trimSpace (s : string) : string :=
  let s := trim_left space_encodings (String.length s) s in
  srev (trim_left (map srev space_encodings) (String.length s) (srev s)).

(** ** strconv *)

Definition is_digit (b : Z) : bool := (48 <=? b) && (b <=? 57).

Fixpoint digits_value (acc : Z) (s : string) : option Z :=
  match s with
  | EmptyString => Some acc
  | String c rest =>
      if is_digit (byte_of c) then digits_value (10 * acc + (byte_of c - 48)) rest else None
  end.

(** [strconv.ParseUint(s, 10, 64)]; a syntax or range error is [None]. *)
Definition parseUint (s : string) : option Z :=
  if s == "" then None
  else match digits_value 0 s with
       | Some n => if n <? 2 ^ 64 then Some n else None
       | None => None
       end.

(** [strconv.ParseInt(s, 10, bits)]: one optional sign, then digits. *)
Definition parseInt (bits : Z) (s : string) : option Z :=
  let '(neg, body) :=
    match s with
    | String "+" rest => (false, rest)
    | String "-" rest => (true, rest)
    | _ => (false, s)
    end in
  match parseUint body with
  | None => None
  | Some n =>
      if negb neg && (2 ^ (bits - 1) <=? n) then None
      else if neg && (2 ^ (bits - 1) <? n) then None
      else Some (if neg then - n else n)
  end.

(** [strconv.Atoi] on a 64-bit platform, and [strconv.Itoa]. *)
Definition atoi : string -> option Z := parseInt 64.
Definition itoa (n : Z) : string := pretty n.

Lemma digits_of_pretty (x : N) : forall s,
  digits_value 0 (pretty_N_go x s) = digits_value (Z.of_N x) s.
Proof.
  induction (N.lt_wf_0 x) as [x _ IH]; intros s. destruct (decide (x = 0)%N) as [->|Hx]; [done|].
  rewrite pretty_N_go_step by lia. rewrite IH by (apply N.div_lt; lia).
  assert (Hd : is_digit (byte_of (pretty_N_char (x mod 10))) = true
               /\ byte_of (pretty_N_char (x mod 10)) - 48 = Z.of_N (x mod 10)).
  { assert (Hm : (x mod 10 < 10)%N) by (apply N.mod_lt; lia).
    set (m := (x mod 10)%N) in *. clearbody m. clear -Hm.
    assert (Hcase : (m = 0 \/ m = 1 \/ m = 2 \/ m = 3 \/ m = 4 \/ m = 5 \/ m = 6 \/ m = 7 \/ m = 8 \/ m = 9)%N) by lia.
    by destruct Hcase as [->|[->|[->|[->|[->|[->|[->|[->|[->| ->]]]]]]]]]. }
  destruct Hd as [Hd Hv]. cbn [digits_value]. rewrite Hd, Hv. f_equal.
  rewrite (N.div_mod x 10) at 3 by lia. rewrite N2Z.inj_add, N2Z.inj_mul. lia.
Qed.

Lemma parse_itoa (n : Z) : 0 <= n < 2 ^ 64 -> parseUint (itoa n) = Some n.
Proof.
  intros Hn. unfold parseUint, itoa, pretty, pretty_Z.
  destruct n as [|n|n]; [done| |lia].
  unfold pretty, pretty_Z, pretty, pretty_positive, pretty, pretty_N. case_decide; [done|].
  pose proof (digits_of_pretty (N.pos n) "") as Hd. case_if.
  - breflect. rewrite Heqb in Hd. by injection Hd.
  - rewrite Hd. cbn [digits_value]. case_if; [done|]. breflect. lia.
Qed.

(** [Atoi] of a 64-bit [Itoa]. *)
Lemma atoi_itoa (n : Z) : - 2 ^ 63 <= n < 2 ^ 63 -> atoi (itoa n) = Some n.
Proof.
  intros Hn. unfold atoi, parseInt. destruct n as [|p|p].
  - done.
  - pose proof (parse_itoa (Zpos p)) as Hp. unfold itoa, pretty, pretty_Z in *.
    assert (Hc : forall c rest, pretty p = String c rest -> is_digit (byte_of c) = true).
    { intros c rest Hs. assert (Hpar : parseUint (pretty p) <> None) by (rewrite Hp by lia; done). unfold parseUint in Hpar.
      rewrite Hs in Hpar. cbn in Hpar. by destruct (is_digit (byte_of c)). }
    destruct (pretty p) as [|c rest] eqn:Hs; [by specialize (Hp ltac:(lia))|]. specialize (Hc c rest eq_refl).
    assert (Hsel : (match String c rest with String "+" rest => (false, rest) | String "-" rest => (true, rest) | _ => (false, String c rest) end)
                   = (false, String c rest)).
    { destruct c as [[] [] [] [] [] [] [] []]; done. }
    rewrite Hsel, Hp by lia. cbn [negb andb]. case_if; [breflect; lia|]. done.
  - change (itoa (Zneg p)) with (String "-" (itoa (Zpos p))). cbn [parseUint]. rewrite parse_itoa by lia.
    cbn [negb andb]. case_if; [breflect; lia|]. done.
Qed.

(** ** unicode/utf8 *)

Definition continuation (b : Z) : bool := (128 <=? b) && (b <=? 191).

(** Decode the next rune: [None] stands for an encoding error (one byte). *)
Definition next_rune (s : string) : option Z * string :=
  match s with
  | EmptyString => (None, "")
  | String c0 r0 =>
      let b0 := byte_of c0 in
      if b0 <? 128 then (Some b0, r0)
      else if (194 <=? b0) && (b0 <=? 223) then
        match r0 with
        | String c1 r1 =>
            if continuation (byte_of c1) then (Some ((b0 - 192) * 64 + (byte_of c1 - 128)), r1) else (None, r0)
        | _ => (None, r0)
        end
      else if (224 <=? b0) && (b0 <=? 239) then
        match r0 with
        | String c1 (String c2 r2) =>
            let b1 := byte_of c1 in
            if (if b0 =? 224 then (160 <=? b1) && (b1 <=? 191)
                else if b0 =? 237 then (128 <=? b1) && (b1 <=? 159) else continuation b1)
               && continuation (byte_of c2)
            then (Some ((b0 - 224) * 4096 + (b1 - 128) * 64 + (byte_of c2 - 128)), r2) else (None, r0)
        | _ => (None, r0)
        end
      else if (240 <=? b0) && (b0 <=? 244) then
        match r0 with
        | String c1 (String c2 (String c3 r3)) =>
            let b1 := byte_of c1 in
            if (if b0 =? 240 then (144 <=? b1) && (b1 <=? 191)
                else if b0 =? 244 then (128 <=? b1) && (b1 <=? 143) else continuation b1)
               && continuation (byte_of c2) && continuation (byte_of c3)
            then (Some ((b0 - 240) * 262144 + (b1 - 128) * 4096 + (byte_of c2 - 128) * 64 + (byte_of c3 - 128)), r3)
            else (None, r0)
        | _ => (None, r0)
        end
      else (None, r0)
  end.

Fixpoint runes_fuel (fuel : nat) (s : string) : list (option Z) :=
  match fuel, s with
  | O, _ | _, EmptyString => []
  | S fuel, _ => let '(r, rest) := next_rune s in r :: runes_fuel fuel rest
  end.
(** The runes of a string; each rune consumes at least one byte. *)
Definition runes (s : string) : list (option Z) := runes_fuel (String.length s) s.

Definition validUTF8 (s : string) : bool := forallb (fun r => r != None) (runes s).
(** [unicode.IsControl]: category Cc. *)
Definition isControl (r : Z) : bool := ((0 <=? r) && (r <=? 31)) || ((127 <=? r) && (r <=? 159)).
Definition containsControl (s : string) : bool :=
  existsb (fun r => match r with Some r => isControl r | None => false end) (runes s).

(** ** net/url *)

Definition hex_digit (n : Z) : ascii := of_byte (if n <? 10 then 48 + n else 55 + n).
Definition hex_value (b : Z) : option Z :=
  if is_digit b then Some (b - 48)
  else if (97 <=? b) && (b <=? 102) then Some (b - 87)
  else if (65 <=? b) && (b <=? 70) then Some (b - 55)
  else None.

(** [shouldEscape(c, encodeQueryComponent)] is false on letters, digits and [-_.~]. *)
Definition unreserved (b : Z) : bool :=
  ((97 <=? b) && (b <=? 122)) || ((65 <=? b) && (b <=? 90)) || is_digit b
  || (b =? 45) || (b =? 95) || (b =? 46) || (b =? 126).

Definition escape_byte (c : ascii) : string :=
  let b := byte_of c in
  if b =? 32 then "+"
  else if unreserved b then str1 c
  else String "%" (String (hex_digit (b / 16)) (str1 (hex_digit (b mod 16)))).

Definition queryEscape (s : string) : string := concat_map escape_byte s.

(** [url.PathUnescape]: every [%] needs two hexadecimal digits. *)
Fixpoint pathUnescape (s : string) : option string :=
  match s with
  | EmptyString => Some ""
  | String "%" rest =>
      match rest with
      | String h (String l rest) =>
          match hex_value (byte_of h), hex_value (byte_of l), pathUnescape rest with
          | Some h, Some l, Some r => Some (String (of_byte (16 * h + l)) r)
          | _, _, _ => None
          end
      | _ => None
      end
  | String c rest => match pathUnescape rest with Some r => Some (String c r) | None => None end
  end.

(** [url.Values]; a missing key and an empty slice both read as nil. *)
Abbreviation Values := (gmap string (list string)).
Definition Values_values (v : Values) (key : string) : list string := default [] (v !! key).
Definition Values_Get (v : Values) (key : string) : string :=
  match Values_values v key with x :: _ => x | [] => "" end.
Definition Values_Has (v : Values) (key : string) : bool := v !! key != None.
Definition Values_Set (v : Values) (key value : string) : Values := <[key := [value]]> v.

Definition string_le (a b : string) : Prop := String.leb a b = true.
#[export] Instance string_le_dec a b : Decision (string_le a b).
Proof. unfold string_le. apply _. Defined.
Definition sorted_keys (v : Values) : list string := merge_sort string_le (elements (dom v)).
(** [Values.Encode]: keys in sorted order, each value as [key=value]. *)
Definition Values_Encode (v : Values) : string :=
  join "&" (flat_map (fun k => map (fun x => queryEscape k +:+ "=" +:+ queryEscape x) (Values_values v k))
              (sorted_keys v)).
