(* ===== verification/Values.v ===== *)
(** * Closed protocol vocabularies ([internal/heos/values.go])

    [PlayState], [Repeat] and [MutationKind] are Go string types: the named
    constants are constructors here and any other string is kept verbatim, so
    that a parsed value can be rejected where the code rejects it. *)

From S2P Require Import Prelude.

Inductive PlayState :=
  | PlayStateAbsent
  | PlayStatePlay
  | PlayStatePause
  | PlayStateStop
  | PlayStateUnknown
  | PlayStateOther (s : string).

#[export] Instance PlayState_eq_dec : EqDecision PlayState.
Proof. solve_decision. Defined.

(** The conversions [string(s)] and [PlayState(s)]. *)
Definition PlayState_string (s : PlayState) : string :=
  match s with
  | PlayStateAbsent => ""
  | PlayStatePlay => "play"
  | PlayStatePause => "pause"
  | PlayStateStop => "stop"
  | PlayStateUnknown => "unknown"
  | PlayStateOther s => s
  end.

Definition PlayState_of_string (s : string) : PlayState :=
  if s == "" then PlayStateAbsent
  else if s == "play" then PlayStatePlay
  else if s == "pause" then PlayStatePause
  else if s == "stop" then PlayStateStop
  else if s == "unknown" then PlayStateUnknown
  else PlayStateOther s.

Definition PlayState_Active (s : PlayState) : bool :=
  (s == PlayStatePlay) || (s == PlayStatePause).

Definition PlayState_Known (s : PlayState) : bool :=
  match s with
  | PlayStatePlay | PlayStatePause | PlayStateStop | PlayStateUnknown => true
  | _ => false
  end.

Definition PlayState_Writable (s : PlayState) : bool :=
  match s with
  | PlayStatePlay | PlayStatePause | PlayStateStop => true
  | _ => false
  end.

Inductive Repeat :=
  | RepeatAbsent
  | RepeatOff
  | RepeatOnAll
  | RepeatOnOne
  | RepeatOther (s : string).

#[export] Instance Repeat_eq_dec : EqDecision Repeat.
Proof. solve_decision. Defined.

Definition Repeat_string (r : Repeat) : string :=
  match r with
  | RepeatAbsent => ""
  | RepeatOff => "off"
  | RepeatOnAll => "on_all"
  | RepeatOnOne => "on_one"
  | RepeatOther s => s
  end.

Definition Repeat_of_string (s : string) : Repeat :=
  if s == "" then RepeatAbsent
  else if s == "off" then RepeatOff
  else if s == "on_all" then RepeatOnAll
  else if s == "on_one" then RepeatOnOne
  else RepeatOther s.

Definition Repeat_Known (r : Repeat) : bool :=
  match r with
  | RepeatOff | RepeatOnAll | RepeatOnOne => true
  | _ => false
  end.

Inductive MutationKind :=
  | MutationKindAbsent
  | MutationKindVolume
  | MutationKindMute
  | MutationKindTransport
  | MutationKindSkip
  | MutationKindMode
  | MutationKindQueue
  | MutationKindRemove.

#[export] Instance MutationKind_eq_dec : EqDecision MutationKind.
Proof. solve_decision. Defined.

Definition MutationKind_string (k : MutationKind) : string :=
  match k with
  | MutationKindAbsent => ""
  | MutationKindVolume => "volume"
  | MutationKindMute => "mute"
  | MutationKindTransport => "transport"
  | MutationKindSkip => "skip"
  | MutationKindMode => "mode"
  | MutationKindQueue => "queue"
  | MutationKindRemove => "remove"
  end.

(** ** Parsing and printing *)

Lemma PlayState_string_of_string (s : string) :
  PlayState_string (PlayState_of_string s) = s.
Proof. unfold PlayState_of_string. repeat case_if; breflect; by subst. Qed.

Lemma Repeat_string_of_string (s : string) : Repeat_string (Repeat_of_string s) = s.
Proof. unfold Repeat_of_string. repeat case_if; breflect; by subst. Qed.

Lemma PlayState_known_string (s : PlayState) :
  PlayState_Known s = true -> PlayState_of_string (PlayState_string s) = s.
Proof. by destruct s. Qed.

Lemma Repeat_known_string (r : Repeat) :
  Repeat_Known r = true -> Repeat_of_string (Repeat_string r) = r.
Proof. by destruct r. Qed.

Lemma writable_known (s : PlayState) : PlayState_Writable s = true -> PlayState_Known s = true.
Proof. by destruct s. Qed.

Lemma active_writable (s : PlayState) : PlayState_Active s = true -> PlayState_Writable s = true.
Proof. by destruct s. Qed.

Lemma known_not_writable (s : PlayState) :
  PlayState_Known s = true -> PlayState_Writable s = false -> s = PlayStateUnknown.
Proof. by destruct s. Qed.

#[export] Hint Resolve writable_known active_writable : heos.
