(* ===== verification/Model.v ===== *)
(** * Observed device data

    The records of [internal/heos/observations.go], [protocol.go] (tokens),
    [client.go] (views) and [catalog.go] (items) that the other components
    exchange.  A Go [ID] or [Text] is its decoded string; a pointer to a value
    that is only read and copied is an [option]. *)

From S2P Require Import Prelude Values.

Definition ID := string.

(** [Token] scopes observations to a connection and its event history; its
    counters are unsigned 64-bit integers. *)
Record Token := {
  Token_Generation : Z;
  Token_Revision : Z;
  Token_Catalog : Z;
  Token_Player : Z;
  Token_Write : Z
}.
#[export] Instance Token_eta : Eta Token := fun t =>
  {| Token_Generation := Token_Generation t; Token_Revision := Token_Revision t;
     Token_Catalog := Token_Catalog t; Token_Player := Token_Player t;
     Token_Write := Token_Write t |}.
#[export] Instance Token_eq_dec : EqDecision Token.
Proof. solve_decision. Defined.

Definition Token_zero : Token := Build_Token 0 0 0 0 0.

Definition sameGlobal (a b : Token) : bool :=
  let a := a <| Token_Player := 0 |> <| Token_Write := 0 |> in
  let b := b <| Token_Player := 0 |> <| Token_Write := 0 |> in
  a == b.

Record View := { View_Token : Token; View_Connected : bool }.
#[export] Instance View_eta : Eta View := fun v =>
  {| View_Token := View_Token v; View_Connected := View_Connected v |}.

(** [heos.Player]: every field is compared by the controller's identity check. *)
Record Player := {
  Player_ID : ID;
  Player_Name : string;
  Player_Model : string;
  Player_Serial : string;
  Player_IP : string;
  Player_GroupID : ID
}.
#[export] Instance Player_eq_dec : EqDecision Player.
Proof. solve_decision. Defined.
Definition Player_zero : Player := Build_Player "" "" "" "" "" "".

Record GroupMember := { GroupMember_ID : ID; GroupMember_Role : string }.
#[export] Instance GroupMember_eq_dec : EqDecision GroupMember.
Proof. solve_decision. Defined.

Record Group := { Group_ID : ID; Group_Name : string; Group_Players : list GroupMember }.
#[export] Instance Group_eq_dec : EqDecision Group.
Proof. solve_decision. Defined.

Record Media := {
  Media_Source : ID;
  Media_ID : ID;
  Media_QueueID : ID;
  Media_Song : string;
  Media_Album : string;
  Media_Artist : string
}.
#[export] Instance Media_eq_dec : EqDecision Media.
Proof. solve_decision. Defined.

Record QueuePage := {
  Queue_Items : list Media;
  Queue_Total : option Z;
  Queue_Next : option Z;
  Queue_Token : Token
}.
#[export] Instance QueuePage_eta : Eta QueuePage := fun q =>
  {| Queue_Items := Queue_Items q; Queue_Total := Queue_Total q;
     Queue_Next := Queue_Next q; Queue_Token := Queue_Token q |}.
#[export] Instance QueuePage_eq_dec : EqDecision QueuePage.
Proof. solve_decision. Defined.
Definition QueuePage_zero : QueuePage := Build_QueuePage [] None None Token_zero.

Record Playhead := {
  Playhead_PositionMS : Z;
  Playhead_DurationMS : Z;
  Playhead_At : Time;
  Playhead_Source : ID;
  Playhead_Media : ID;
  Playhead_Queue : ID
}.
#[export] Instance Playhead_eq_dec : EqDecision Playhead.
Proof. solve_decision. Defined.

Record Snapshot := {
  Snap_Repeat : Repeat;
  Snap_Shuffle : bool;
  Snap_Key : string;
  Snap_Player : Player;
  Snap_Groups : list Group;
  Snap_Grouped : bool;
  Snap_State : PlayState;
  Snap_Volume : option Z;
  Snap_Muted : option bool;
  Snap_Media : option Media;
  Snap_Queue : QueuePage;
  Snap_ObservedAt : Time;
  Snap_Token : Token;
  Snap_Stale : bool;
  Snap_Connected : bool;
  Snap_Verified : bool;
  Snap_MediaStale : bool;
  Snap_MediaUnavailable : bool;
  Snap_EventUpdated : bool;
  Snap_Playhead : option Playhead
}.
#[export] Instance Snapshot_eta : Eta Snapshot := fun s =>
  {| Snap_Repeat := Snap_Repeat s; Snap_Shuffle := Snap_Shuffle s; Snap_Key := Snap_Key s;
     Snap_Player := Snap_Player s; Snap_Groups := Snap_Groups s; Snap_Grouped := Snap_Grouped s;
     Snap_State := Snap_State s; Snap_Volume := Snap_Volume s; Snap_Muted := Snap_Muted s;
     Snap_Media := Snap_Media s; Snap_Queue := Snap_Queue s; Snap_ObservedAt := Snap_ObservedAt s;
     Snap_Token := Snap_Token s; Snap_Stale := Snap_Stale s; Snap_Connected := Snap_Connected s;
     Snap_Verified := Snap_Verified s; Snap_MediaStale := Snap_MediaStale s;
     Snap_MediaUnavailable := Snap_MediaUnavailable s; Snap_EventUpdated := Snap_EventUpdated s;
     Snap_Playhead := Snap_Playhead s |}.
#[export] Instance Snapshot_eq_dec : EqDecision Snapshot.
Proof. solve_decision. Defined.

Definition Snapshot_zero : Snapshot := {|
  Snap_Repeat := RepeatAbsent; Snap_Shuffle := false; Snap_Key := ""; Snap_Player := Player_zero;
  Snap_Groups := []; Snap_Grouped := false; Snap_State := PlayStateAbsent; Snap_Volume := None;
  Snap_Muted := None; Snap_Media := None; Snap_Queue := QueuePage_zero; Snap_ObservedAt := 0;
  Snap_Token := Token_zero; Snap_Stale := false; Snap_Connected := false; Snap_Verified := false;
  Snap_MediaStale := false; Snap_MediaUnavailable := false; Snap_EventUpdated := false;
  Snap_Playhead := None |}.

(** [catalog.go]: a browse entry. *)
Record Item := {
  Item_Name : string;
  Item_Source : ID;
  Item_ContainerID : ID;
  Item_MediaID : ID;
  Item_Container : string;
  Item_Playable : string;
  Item_Type : string
}.
#[export] Instance Item_eta : Eta Item := fun i =>
  {| Item_Name := Item_Name i; Item_Source := Item_Source i; Item_ContainerID := Item_ContainerID i;
     Item_MediaID := Item_MediaID i; Item_Container := Item_Container i;
     Item_Playable := Item_Playable i; Item_Type := Item_Type i |}.
#[export] Instance Item_eq_dec : EqDecision Item.
Proof. solve_decision. Defined.
Definition Item_zero : Item := Build_Item "" "" "" "" "" "" "".

(** [writes.go]: one explicit HEOS write. *)
Record Mutation := {
  Mut_Kind : MutationKind;
  Mut_Player : ID;
  Mut_Level : Z;
  Mut_Muted : bool;
  Mut_State : PlayState;
  Mut_Direction : string;
  Mut_Repeat : Repeat;
  Mut_Shuffle : bool;
  Mut_Item : Item;
  Mut_Append : bool;
  Mut_QueueIDs : list ID
}.
#[export] Instance Mutation_eta : Eta Mutation := fun m =>
  {| Mut_Kind := Mut_Kind m; Mut_Player := Mut_Player m; Mut_Level := Mut_Level m;
     Mut_Muted := Mut_Muted m; Mut_State := Mut_State m; Mut_Direction := Mut_Direction m;
     Mut_Repeat := Mut_Repeat m; Mut_Shuffle := Mut_Shuffle m; Mut_Item := Mut_Item m;
     Mut_Append := Mut_Append m; Mut_QueueIDs := Mut_QueueIDs m |}.
#[export] Instance Mutation_eq_dec : EqDecision Mutation.
Proof. solve_decision. Defined.
Definition Mutation_zero : Mutation := {|
  Mut_Kind := MutationKindAbsent; Mut_Player := ""; Mut_Level := 0; Mut_Muted := false;
  Mut_State := PlayStateAbsent; Mut_Direction := ""; Mut_Repeat := RepeatAbsent;
  Mut_Shuffle := false; Mut_Item := Item_zero; Mut_Append := false; Mut_QueueIDs := [] |}.

(** [writes.go]: the wire guard of a write. *)
Record Guard := { Guard_Token : Token; Guard_ExpiresAt : Time }.

(** ** Token comparisons *)

Lemma sameGlobal_spec (a b : Token) :
  sameGlobal a b = true <->
  Token_Generation a = Token_Generation b /\ Token_Revision a = Token_Revision b
  /\ Token_Catalog a = Token_Catalog b.
Proof.
  unfold sameGlobal. rewrite bool_decide_eq_true. destruct a, b. cbn.
  split; [intros [= -> -> ->]; auto|intros (-> & -> & ->); auto].
Qed.

Lemma Token_ext (a b : Token) :
  a = b <-> sameGlobal a b = true /\ Token_Player a = Token_Player b /\ Token_Write a = Token_Write b.
Proof. rewrite sameGlobal_spec. destruct a, b. cbn. naive_solver. Qed.

#[export] Hint Rewrite sameGlobal_spec : go_bool.

(** ** Configured players ([config.Player] of [internal/config/readonly.go]) *)

Record PlayerConfig := {
  Cfg_WritesEnabled : bool;
  Cfg_Key : string;
  Cfg_Address : string;
  Cfg_FingerprintSHA256 : string;
  Cfg_Serial : string;
  Cfg_Model : string;
  Cfg_VolumeCeiling : option Z
}.
