(* ===== verification/Diagnostics.v ===== *)
(** * Completion diagnostics ([internal/journal/diagnostics.go])

    The bounded evidence persisted with an operation's outcome and the closed
    vocabulary it must satisfy before it may be written. *)

From S2P Require Import Prelude GoStd Values.

(** [DiagnosticScalars]: a nil pointer means absent evidence. *)
Record DiagnosticScalars := {
  DS_State : option string;
  DS_Volume : option Z;
  DS_Muted : option bool;
  DS_Repeat : option string;
  DS_Shuffle : option bool;
  DS_Grouped : option bool
}.
#[export] Instance DiagnosticScalars_eta : Eta DiagnosticScalars := fun d =>
  {| DS_State := DS_State d; DS_Volume := DS_Volume d; DS_Muted := DS_Muted d;
     DS_Repeat := DS_Repeat d; DS_Shuffle := DS_Shuffle d; DS_Grouped := DS_Grouped d |}.
#[export] Instance DiagnosticScalars_eq_dec : EqDecision DiagnosticScalars.
Proof. solve_decision. Defined.
Definition DiagnosticScalars_zero : DiagnosticScalars := Build_DiagnosticScalars None None None None None None.

(** A nil and an empty [ChangedFields] slice are written alike. *)
Record Diagnostics := {
  Diag_Reason : string;
  Diag_Rule : option string;
  Diag_Phase : string;
  Diag_DetectedAt : option Time;
  Diag_Source : string;
  Diag_ChangedFields : list string;
  Diag_Expected : option DiagnosticScalars;
  Diag_Observed : option DiagnosticScalars
}.
#[export] Instance Diagnostics_eta : Eta Diagnostics := fun d =>
  {| Diag_Reason := Diag_Reason d; Diag_Rule := Diag_Rule d; Diag_Phase := Diag_Phase d;
     Diag_DetectedAt := Diag_DetectedAt d; Diag_Source := Diag_Source d;
     Diag_ChangedFields := Diag_ChangedFields d; Diag_Expected := Diag_Expected d;
     Diag_Observed := Diag_Observed d |}.
#[export] Instance Diagnostics_eq_dec : EqDecision Diagnostics.
Proof. solve_decision. Defined.
Definition Diagnostics_zero : Diagnostics := Build_Diagnostics "" None "" None "" [] None None.

(** Policy identifiers: at most 128 bytes of [a-z0-9_]. *)
Definition identifier_char (c : Ascii.ascii) : bool :=
  let n := Z.of_nat (Ascii.nat_of_ascii c) in
  ((97 <=? n) && (n <=? 122)) || ((48 <=? n) && (n <=? 57)) || (n =? 95).

Fixpoint all_chars (p : Ascii.ascii -> bool) (s : string) : bool :=
  match s with
  | EmptyString => true
  | String c rest => p c && all_chars p rest
  end.

Definition diagnosticIdentifier (s : string) (empty : bool) : bool :=
  if (slen s >? 128) || ((s == "") && negb empty) then false
  else all_chars identifier_char s.

Definition diagnosticFields : list string :=
  ["repeat"; "shuffle"; "player_identity"; "grouped"; "state"; "volume"; "mute";
   "queue_items"; "queue_total"; "queue_next"; "media_presence"; "media_source"; "media_id";
   "media_queue_id"; "media_metadata"; "queue_membership"; "media"; "connection_generation"].

(** The loop over [ChangedFields], with its [seen] set. *)
Fixpoint validate_fields (seen : gset string) (fields : list string) : bool :=
  match fields with
  | [] => true
  | f :: rest =>
      if f in? seen then false
      else if negb (f in? diagnosticFields) then false
      else validate_fields ({[f]} ∪ seen) rest
  end.

Definition validate_scalars (s : option DiagnosticScalars) : bool :=
  match s with
  | None => true
  | Some s =>
      match DS_Volume s with Some v => (0 <=? v) && (v <=? 100) | None => true end
      && match DS_State s with Some st => (st in? ["unknown"; "play"; "pause"; "stop"]) | None => true end
      && match DS_Repeat s with Some r => (r in? ["off"; "on_all"; "on_one"]) | None => true end
  end.

(** [Diagnostics.validate]: [true] is a nil error, [false] is [ErrInvalid]. *)
Definition Diagnostics_validate (d : Diagnostics) : bool :=
  if negb (diagnosticIdentifier (Diag_Reason d) false)
     || negb (diagnosticIdentifier (Diag_Phase d) true)
     || match Diag_Rule d with Some r => negb (diagnosticIdentifier r false) | None => false end
     || (len (Diag_ChangedFields d) >? 16)
  then false
  else if negb (Diag_Source d in? ["event"; "observation"; "controller"; "recovery"]) then false
  else validate_fields ∅ (Diag_ChangedFields d)
       && validate_scalars (Diag_Expected d) && validate_scalars (Diag_Observed d).

(** ** Validation facts *)

Lemma validate_fields_spec (fields : list string) : forall seen,
  validate_fields seen fields = true <->
  NoDup fields /\ (forall f, f ∈ fields -> (f ∉ seen) /\ f ∈ diagnosticFields).
Proof.
  induction fields as [|f rest IH]; intros seen; cbn [validate_fields].
  { split; [|done]. intros _. split; [constructor|]. intros f []%not_elem_of_nil. }
  repeat case_if; breflect.
  - split; [done|]. intros [_ H]. destruct (H f) as [? _]; [left|]; done.
  - split; [done|]. intros [_ H]. destruct (H f) as [_ ?]; [left|]; done.
  - rewrite IH, NoDup_cons. split.
    + intros [Hnd Hall]. split_and!; [|done|].
      * intros Hin. destruct (Hall f Hin) as [Hf _]. apply Hf. by apply elem_of_union_l, elem_of_singleton.
      * intros g [->|Hg]%elem_of_cons; [done|]. destruct (Hall g Hg) as [Hs ?]. split; [|done]. intros Hin. apply Hs. by apply elem_of_union_r.
    + intros [[Hnin Hnd] Hall]. split; [done|]. intros g Hg.
      destruct (Hall g) as [Hs ?]; [by right|]. split; [|done].
      intros [->%elem_of_singleton|?]%elem_of_union; done.
Qed.
