(* ===== verification/Errors.v ===== *)
(** * Error values

    Go errors are a tree: sentinels compared by identity, wrappers built with
    [%w], and the repository's own error types with their [Unwrap] and [Is]
    methods ([heos/client.go], [heos/errors.go], [control/diagnostics.go],
    [control/completion_diagnostics.go], [api/readonly.go]).  [errors_is] and
    the [as_*] functions are the standard library's traversals of that tree. *)

From S2P Require Import Prelude Values Diagnostics.

Inductive Sentinel :=
  (* heos *)
  | ErrProtocol | ErrReadOnly | ErrQueueFull | ErrInterrupted | ErrClosed | ErrOffline
  | ErrRejected | ErrConnect | ErrTLS | ErrPinMismatch | ErrIdentity | ErrStale
  | ErrBounds | ErrStaleReference | ErrCatalogFull | ErrIncompleteSource
  (* control *)
  | ErrPrecondition | ErrPreconditionRequired | ErrGrouped | ErrOwnership
  | errSuperseded | errJournalUnavailable | ErrNotFound | ErrAmbiguous | ErrUnavailable
  | errPlaybackTimelineChanged | errQueueLoadingIncomplete | ErrNotSkippable
  | errBufferedSessionExpired | errBufferedCapacity
  (* journal *)
  | JErrInvalid | JErrNotFound | JErrConflict | JErrBusy | JErrCapacity | JErrExpired
  | JErrFuture | JErrRevision | JErrStaleEpoch | JErrNotInitialized | JErrCommitUncertain
  (* api *)
  | errEventCapacity
  (* context, io *)
  | DeadlineExceeded | Canceled | EOF | ErrUnexpectedEOF.

#[export] Instance Sentinel_eq_dec : EqDecision Sentinel.
Proof. solve_decision. Defined.

Inductive Delivery := NotSent | Uncertain | Rejected.
#[export] Instance Delivery_eq_dec : EqDecision Delivery.
Proof. solve_decision. Defined.

Definition Delivery_string (d : Delivery) : string :=
  match d with NotSent => "not_sent" | Uncertain => "uncertain" | Rejected => "rejected" end.

Record DeviceError := {
  Dev_Command : string;
  Dev_Code : Z;
  Dev_Text : string;
  Dev_SystemCode : option Z
}.

(** [ownershipError]: its log attributes have no behaviour and are left out. *)
Record OwnershipError := { Own_reason : string; Own_evidence : Diagnostics }.

Record ApiFailure := { Api_status : Z; Api_code : string; Api_retry : bool }.

Inductive error :=
  | ESentinel (s : Sentinel)
  | EText (msg : string)                                (* an anonymous errors.New *)
  | EWrap (causes : list error)                         (* fmt.Errorf with %w *)
  | ECommand (delivery : Delivery) (cause : error)      (* *heos.CommandError *)
  | EDevice (e : DeviceError)                           (* *heos.DeviceError *)
  | EConnection (phase : Sentinel) (cause : error)      (* *heos.connectionError *)
  | EOwnership (e : OwnershipError)                     (* *control.ownershipError *)
  | EQueueTransitionTimeout                             (* the shared errQueueTransitionTimeout *)
  | EDiagnostic (cause : error) (evidence : Diagnostics) (* *control.diagnosticError *)
  | EApi (f : ApiFailure).                              (* *api.apiFailure *)

Coercion ESentinel : Sentinel >-> error.

(** [errors.Is(err, target)] for a sentinel target. *)
Fixpoint errors_is (target : Sentinel) (err : error) : bool :=
  match err with
  | ESentinel s => s == target
  | EText _ => false
  | EWrap causes => existsb (errors_is target) causes
  | ECommand _ cause => errors_is target cause
  | EDevice _ => ErrRejected == target
  | EConnection phase cause => (phase == target) || errors_is target cause
  | EOwnership _ => ErrOwnership == target
  | EQueueTransitionTimeout => ErrOwnership == target
  | EDiagnostic cause _ => errors_is target cause
  | EApi _ => false
  end.

(** [errors.Is(err, errQueueTransitionTimeout)]: identity of one shared pointer. *)
Fixpoint is_transition_timeout (err : error) : bool :=
  match err with
  | EWrap causes => existsb is_transition_timeout causes
  | ECommand _ cause | EConnection _ cause | EDiagnostic cause _ => is_transition_timeout cause
  | EQueueTransitionTimeout => true
  | _ => false
  end.

Definition errQueueTransitionTimeout_value : OwnershipError :=
  {| Own_reason := "queue_transition_timeout"; Own_evidence := Diagnostics_zero |}.

(** [errors.As] for a target type: the first node, in preorder, that [pick] accepts. *)
Section As.
Context {A : Type} (pick : error -> option A).
Fixpoint first_some (l : list (option A)) : option A :=
  match l with
  | [] => None
  | Some a :: _ => Some a
  | None :: rest => first_some rest
  end.
Fixpoint errors_as (err : error) : option A :=
  match pick err with
  | Some a => Some a
  | None =>
      match err with
      | EWrap causes => first_some (map errors_as causes)
      | ECommand _ cause | EConnection _ cause | EDiagnostic cause _ => errors_as cause
      | _ => None
      end
  end.
End As.

Definition as_command : error -> option Delivery :=
  errors_as (fun e => match e with ECommand d _ => Some d | _ => None end).
Definition as_device : error -> option DeviceError :=
  errors_as (fun e => match e with EDevice d => Some d | _ => None end).
Definition as_ownership : error -> option OwnershipError :=
  errors_as (fun e => match e with
                      | EOwnership o => Some o
                      | EQueueTransitionTimeout => Some errQueueTransitionTimeout_value
                      | _ => None end).
Definition as_diagnostic : error -> option Diagnostics :=
  errors_as (fun e => match e with EDiagnostic _ d => Some d | _ => None end).
Definition as_api : error -> option ApiFailure :=
  errors_as (fun e => match e with EApi f => Some f | _ => None end).

(** [DeviceError.Reason]: the Denon 6.2 error codes. *)
Definition DeviceError_Reason (e : DeviceError) : string :=
  match Dev_Code e with
  | 1 => "unrecognized_command" | 2 => "invalid_id" | 3 => "invalid_arguments"
  | 4 => "data_unavailable" | 5 => "resource_unavailable" | 6 => "invalid_credentials"
  | 7 => "command_not_executed" | 8 => "user_not_logged_in" | 9 => "parameter_out_of_range"
  | 10 => "user_not_found" | 11 => "internal_error" | 12 => "system_error"
  | 13 => "device_busy" | 14 => "cannot_play" | 15 => "option_not_supported"
  | 16 => "device_queue_full" | 17 => "skip_limit_reached"
  | _ => "unknown"
  end.

(** A computation that may fail, as Go's [(A, error)] pair where the value is
    only read when the error is nil. *)
Inductive Result (A : Type) := Ok (a : A) | Err (e : error).
Arguments Ok {A}. Arguments Err {A}.

Definition Result_bind {A B} (r : Result A) (k : A -> Result B) : Result B :=
  match r with Ok a => k a | Err e => Err e end.
Notation "'let?' p ':=' r 'in' k" := (Result_bind r (fun x => match x with p => k end))
  (at level 10, p pattern, r at level 200, k at level 200, only parsing) : go_scope.

Definition is_ok {A} (r : Result A) : bool := match r with Ok _ => true | Err _ => false end.

(** ** Traversal facts *)

Lemma errors_is_wrap target causes :
  errors_is target (EWrap causes) = true <-> exists e, e ∈ causes /\ errors_is target e = true.
Proof.
  cbn. rewrite existsb_exists. split; intros (e & Hin & He); exists e; (split; [|done]);
    by apply list_elem_of_In.
Qed.

Lemma errors_is_diagnostic target cause d :
  errors_is target (EDiagnostic cause d) = errors_is target cause.
Proof. done. Qed.

Lemma transition_timeout_is_ownership (e : error) :
  is_transition_timeout e = true -> errors_is ErrOwnership e = true.
Proof.
  revert e. fix IH 1. intros [s|msg|causes|d c|dev|p c|o| |c d|f]; cbn; try done.
  - induction causes as [|x xs IHx]; cbn; [done|].
    intros [H|H]%orb_true_iff; apply orb_true_iff; [left; by apply IH|right; by apply IHx].
  - apply IH.
  - intros H. apply orb_true_iff. right. by apply IH.
  - apply IH.
Qed.

Lemma Result_bind_ok {A B} (r : Result A) (k : A -> Result B) b :
  Result_bind r k = Ok b <-> exists a, r = Ok a /\ k a = Ok b.
Proof. destruct r; cbn; naive_solver. Qed.
