(* ===== verification/Events.v ===== *)
(** * Event decoding ([internal/heos/events.go])

    A notification is decoded once into validated values.  The [decoded] cache
    of [Event.Decode] is a memo of a function of immutable fields, so [Data]
    recomputes it here. *)

From S2P Require Import Prelude GoStd Values Model.

Inductive EventKind :=
  | EventUnknown
  | EventSources | EventPlayers | EventGroups
  | EventState | EventNowPlaying | EventProgress | EventPlaybackError
  | EventQueue | EventVolume | EventRepeat | EventShuffle
  | EventGroupVolume | EventUser.
#[export] Instance EventKind_eq_dec : EqDecision EventKind.
Proof. solve_decision. Defined.

Definition EventKind_string (k : EventKind) : string :=
  match k with
  | EventUnknown => ""
  | EventSources => "event/sources_changed"
  | EventPlayers => "event/players_changed"
  | EventGroups => "event/groups_changed"
  | EventState => "event/player_state_changed"
  | EventNowPlaying => "event/player_now_playing_changed"
  | EventProgress => "event/player_now_playing_progress"
  | EventPlaybackError => "event/player_playback_error"
  | EventQueue => "event/player_queue_changed"
  | EventVolume => "event/player_volume_changed"
  | EventRepeat => "event/repeat_mode_changed"
  | EventShuffle => "event/shuffle_mode_changed"
  | EventGroupVolume => "event/group_volume_changed"
  | EventUser => "event/user_changed"
  end.

Definition all_event_kinds : list EventKind :=
  [EventSources; EventPlayers; EventGroups; EventState; EventNowPlaying; EventProgress;
   EventPlaybackError; EventQueue; EventVolume; EventRepeat; EventShuffle; EventGroupVolume; EventUser].

(** [EventKind(command)] with the [default] case of the switch. *)
Definition EventKind_of_string (command : string) : EventKind :=
  default EventUnknown (find (fun k => EventKind_string k == command) all_event_kinds).

Record EventData := {
  ED_Kind : EventKind;
  ED_Player : ID;
  ED_State : PlayState;
  ED_Volume : Z;
  ED_Muted : bool;
  ED_Repeat : Repeat;
  ED_Shuffle : bool;
  ED_HasVolume : bool;
  ED_HasMute : bool;
  ED_HasShuffle : bool;
  ED_HasProgress : bool;
  ED_Position : Z;
  ED_Duration : Z;
  ED_Valid : bool
}.
#[export] Instance EventData_eta : Eta EventData := fun d =>
  {| ED_Kind := ED_Kind d; ED_Player := ED_Player d; ED_State := ED_State d; ED_Volume := ED_Volume d;
     ED_Muted := ED_Muted d; ED_Repeat := ED_Repeat d; ED_Shuffle := ED_Shuffle d;
     ED_HasVolume := ED_HasVolume d; ED_HasMute := ED_HasMute d; ED_HasShuffle := ED_HasShuffle d;
     ED_HasProgress := ED_HasProgress d; ED_Position := ED_Position d; ED_Duration := ED_Duration d;
     ED_Valid := ED_Valid d |}.

Record Event := {
  Ev_Command : string;
  Ev_Params : Values;
  Ev_Token : Token;
  Ev_Gap : bool;
  Ev_GapReason : string;
  Ev_progressSequence : Z
}.
#[export] Instance Event_eta : Eta Event := fun e =>
  {| Ev_Command := Ev_Command e; Ev_Params := Ev_Params e; Ev_Token := Ev_Token e; Ev_Gap := Ev_Gap e;
     Ev_GapReason := Ev_GapReason e; Ev_progressSequence := Ev_progressSequence e |}.

(** The closures [one] and [choice] of [decodeEventData]. *)
Definition one (params : Values) (key : string) : string :=
  match Values_values params key with [x] => x | _ => "" end.
Definition choice (params : Values) (key : string) (allowed : list string) : string :=
  let value := one params key in if value in? allowed then value else "".

Definition MaxInt64 : Z := 9223372036854775807.

Definition decodeEventData (command : string) (params : Values) : EventData :=
  let kind := EventKind_of_string command in
  let player := one params "pid" in
  let has_player := player != "" in
  let d := {| ED_Kind := kind; ED_Player := player; ED_State := PlayStateAbsent; ED_Volume := 0;
              ED_Muted := false; ED_Repeat := RepeatAbsent; ED_Shuffle := false; ED_HasVolume := false;
              ED_HasMute := false; ED_HasShuffle := false; ED_HasProgress := false; ED_Position := 0;
              ED_Duration := 0; ED_Valid := false |} in
  match kind with
  | EventSources | EventPlayers | EventGroups => d <| ED_Valid := true |>
  | EventState =>
      let state := PlayState_of_string (choice params "state" ["play"; "pause"; "stop"; "unknown"]) in
      d <| ED_State := state |> <| ED_Valid := has_player && (state != PlayStateAbsent) |>
  | EventNowPlaying | EventQueue => d <| ED_Valid := has_player |>
  | EventProgress =>
      match parseUint (one params "cur_pos"), parseUint (one params "duration") with
      | Some position, Some duration =>
          let valid := has_player && ((duration =? 0) || (position <=? duration)) in
          let d := d <| ED_Valid := valid |> in
          if valid && (position <=? MaxInt64) && (duration <=? MaxInt64)
          then d <| ED_Position := position |> <| ED_Duration := duration |> <| ED_HasProgress := true |>
          else d
      | _, _ => d
      end
  | EventPlaybackError => d <| ED_Valid := has_player && (one params "error" != "") |>
  | EventVolume | EventGroupVolume =>
      let d := match atoi (one params "level") with
               | Some level =>
                   if (0 <=? level) && (level <=? 100)
                   then d <| ED_Volume := level |> <| ED_HasVolume := true |> else d
               | None => d
               end in
      let mute := choice params "mute" ["on"; "off"] in
      let d := if mute != "" then d <| ED_Muted := mute == "on" |> <| ED_HasMute := true |> else d in
      let identity := if kind == EventGroupVolume then one params "gid" != "" else has_player in
      d <| ED_Valid := identity && ED_HasVolume d && ED_HasMute d |>
  | EventRepeat =>
      let repeat := Repeat_of_string (choice params "repeat" ["off"; "on_one"; "on_all"]) in
      d <| ED_Repeat := repeat |> <| ED_Valid := has_player && (repeat != RepeatAbsent) |>
  | EventShuffle =>
      let shuffle := choice params "shuffle" ["on"; "off"] in
      let d := if shuffle != "" then d <| ED_Shuffle := shuffle == "on" |> <| ED_HasShuffle := true |> else d in
      d <| ED_Valid := has_player && ED_HasShuffle d |>
  | EventUser =>
      let signedIn := len (Values_values params "signed_in") =? 1 in
      let signedOut := len (Values_values params "signed_out") =? 1 in
      d <| ED_Valid := xorb signedIn signedOut && (negb signedIn || (one params "un" != "")) |>
  | EventUnknown => d
  end.

Definition Event_Data (e : Event) : EventData :=
  let d := decodeEventData (Ev_Command e) (Ev_Params e) in
  if Ev_Gap e then d <| ED_Valid := false |> else d.

#[global] Arguments EventKind_of_string : simpl never.

(** ** Decoding facts *)

Lemma EventKind_of_string_spec (k : EventKind) :
  k <> EventUnknown -> EventKind_of_string (EventKind_string k) = k.
Proof. by destruct k. Qed.

Lemma decode_kind (command : string) (params : Values) :
  ED_Kind (decodeEventData command params) = EventKind_of_string command.
Proof.
  unfold decodeEventData. destruct (EventKind_of_string command) eqn:E; cbn; try done.
  - repeat case_match; done.
  - repeat case_match; done.
  - repeat case_match; done.
  - repeat case_match; done.
Qed.

Lemma decode_player (command : string) (params : Values) :
  ED_Player (decodeEventData command params) = one params "pid".
Proof. unfold decodeEventData. by repeat case_match. Qed.

Lemma choice_elem (params : Values) (key : string) (allowed : list string) :
  choice params key allowed = "" \/ choice params key allowed ∈ allowed.
Proof. unfold choice. case_if; breflect; auto. Qed.

Lemma Event_Data_gap (e : Event) : Ev_Gap e = true -> ED_Valid (Event_Data e) = false.
Proof. unfold Event_Data. by intros ->. Qed.

(** What a valid state event carries. *)
Lemma valid_state_event (e : Event) :
  ED_Valid (Event_Data e) = true -> ED_Kind (Event_Data e) = EventState ->
  ED_Player (Event_Data e) <> "" /\ PlayState_Known (ED_State (Event_Data e)) = true.
Proof.
  unfold Event_Data. destruct (Ev_Gap e); [done|]. rewrite decode_kind. intros Hv Hk.
  unfold decodeEventData in *. rewrite Hk in *. cbn in *. breflect. split; [done|].
  destruct (choice_elem (Ev_Params e) "state" ["play"; "pause"; "stop"; "unknown"]) as [Hc|Hin].
  { by rewrite Hc in *. }
  rewrite !elem_of_cons in Hin. destruct Hin as [->|[->|[->|[->|[]%not_elem_of_nil]]]]; done.
Qed.

(** A valid volume event carries both the level and the mute flag, in range. *)
Lemma valid_volume_event (e : Event) :
  ED_Valid (Event_Data e) = true -> ED_Kind (Event_Data e) = EventVolume ->
  ED_Player (Event_Data e) <> "" /\ ED_HasVolume (Event_Data e) = true
  /\ ED_HasMute (Event_Data e) = true /\ 0 <= ED_Volume (Event_Data e) <= 100.
Proof.
  unfold Event_Data. destruct (Ev_Gap e); [done|]. rewrite decode_kind. intros Hv Hk.
  unfold decodeEventData in *. rewrite Hk in *.
  change (EventVolume == EventGroupVolume) with false in *.
  destruct (choice _ _ _ != ""), (atoi _) as [n|];
    try destruct ((0 <=? n) && (n <=? 100)) eqn:Hr; cbn in *; breflect; done.
Qed.
