(* ===== verification/State.v ===== *)
(** * Comparing observations with owned state

    The comparisons of [internal/control]: [diagnostics.go] ([stateChanges]),
    [ownership.go], the read-back helpers of [confirmation.go], the transition
    allowance of [queue_policy.go] and the device safety checks of
    [coordinator.go].  Everything here is a pure function of snapshots. *)

From S2P Require Import Prelude GoStd Values Model Diagnostics Errors Events.

(** ** Field-by-field differences *)

Definition changed_names (fields : list (string * bool)) : list string :=
  fst <$> filter (fun f => f.2 = true) fields.

Definition stateChanges (a b : Snapshot) : list string :=
  changed_names [
    ("repeat", Snap_Repeat a != Snap_Repeat b);
    ("shuffle", Snap_Shuffle a != Snap_Shuffle b);
    ("player_identity", Snap_Player a != Snap_Player b);
    ("grouped", Snap_Grouped a != Snap_Grouped b);
    ("state", Snap_State a != Snap_State b);
    ("volume", Snap_Volume a != Snap_Volume b);
    ("mute", Snap_Muted a != Snap_Muted b);
    ("queue_items", Queue_Items (Snap_Queue a) != Queue_Items (Snap_Queue b));
    ("queue_total", Queue_Total (Snap_Queue a) != Queue_Total (Snap_Queue b))]
  ++ match Snap_Media a, Snap_Media b with
     | None, None => []
     | Some _, None | None, Some _ => ["media_presence"]
     | Some ma, Some mb => changed_names [
         ("media_source", Media_Source ma != Media_Source mb);
         ("media_id", Media_ID ma != Media_ID mb);
         ("media_queue_id", Media_QueueID ma != Media_QueueID mb);
         ("media_metadata", (Media_Song ma != Media_Song mb) || (Media_Album ma != Media_Album mb)
                            || (Media_Artist ma != Media_Artist mb))]
     end.

Definition sameState (a b : Snapshot) : bool := len (stateChanges a b) =? 0.

(** The safe, partial projection that may be persisted as evidence. *)
Definition snapshotScalars (s : Snapshot) : DiagnosticScalars := {|
  DS_State := if PlayState_Known (Snap_State s) then Some (PlayState_string (Snap_State s)) else None;
  DS_Volume := match Snap_Volume s with
               | Some v => if (0 <=? v) && (v <=? 100) then Some v else None
               | None => None end;
  DS_Muted := Snap_Muted s;
  DS_Repeat := if Repeat_Known (Snap_Repeat s) then Some (Repeat_string (Snap_Repeat s)) else None;
  DS_Shuffle := Some (Snap_Shuffle s);
  DS_Grouped := Some (Snap_Grouped s) |}.

Definition ownershipMismatch (reason : string) (fields : list string) (a b : Snapshot) : error :=
  EOwnership {| Own_reason := reason;
    Own_evidence := Diagnostics_zero <| Diag_Source := "observation" |>
      <| Diag_ChangedFields := fields |> <| Diag_Expected := Some (snapshotScalars a) |>
      <| Diag_Observed := Some (snapshotScalars b) |> |}.

(** ** Media and queue membership *)

Definition LocalMusic : ID := "1024".

Definition emptyMedia (m : option Media) : bool :=
  match m with
  | None => true
  | Some m => (Media_Source m == "") && (Media_ID m == "") && (Media_QueueID m == "")
  end.

Definition queuedMedia (q : QueuePage) (m : option Media) : bool :=
  match m with
  | None => false
  | Some m =>
      if (Media_Source m != LocalMusic) || (Media_ID m == "") || (Media_QueueID m == "") then false
      else existsb (fun item => (Media_QueueID item == Media_QueueID m) && (Media_ID item == Media_ID m))
             (Queue_Items q)
  end.

Definition queuedIdentity (queue : QueuePage) (m : option Media) : bool :=
  match m with
  | None => false
  | Some m =>
      if (Media_Source m != LocalMusic) || (Media_ID m == "") then false
      else existsb (fun item => Media_ID item == Media_ID m) (Queue_Items queue)
  end.

(** Both identifiers belong to the queue, but to different entries: the first
    entry with the media's queue ID carries another media ID. *)
Definition transitionalQueueMedia (queue : QueuePage) (m : option Media) : bool :=
  match m with
  | None => false
  | Some x =>
      if negb (queuedIdentity queue m) || (Media_QueueID x == "") then false
      else match find (fun item => Media_QueueID item == Media_QueueID x) (Queue_Items queue) with
           | Some item => Media_ID item != Media_ID x
           | None => false
           end
  end.

Definition completeOwnedQueue (q : QueuePage) (members : gset ID) : bool :=
  if (Queue_Total q != Some (len (Queue_Items q))) || (len (Queue_Items q) =? 0)
     || (Queue_Next q != None) then false
  else distinct_scan Media_QueueID (fun _ m => Media_ID m in? members) ∅ 0 (Queue_Items q).

(** [ownedChanges] compares the whole owned queue, not the current track. *)
Definition ownedChanges (queueOwned : bool) (a b : Snapshot) : list string :=
  if Token_Generation (Snap_Token a) != Token_Generation (Snap_Token b) then ["connection_generation"]
  else
    let a :=
      if queueOwned && (Snap_State a == Snap_State b) &&
         (((Snap_State b == PlayStatePlay) && queuedMedia (Snap_Queue a) (Snap_Media b))
          || ((Snap_State b == PlayStateStop)
              && (emptyMedia (Snap_Media b) || queuedMedia (Snap_Queue a) (Snap_Media b))))
      then a <| Snap_Media := Snap_Media b |> else a in
    stateChanges a b.

Definition ownedState (queueOwned : bool) (a b : Snapshot) : bool :=
  len (ownedChanges queueOwned a b) =? 0.

(** ** Pending read-back allowances *)

Definition stoppedReadback (before after : Snapshot) : Snapshot :=
  if (Snap_State after == PlayStateUnknown) || (Snap_State after == PlayStateStop) then
    let stopped := before <| Snap_State := Snap_State after |> in
    if emptyMedia (Snap_Media after) || queuedMedia (Snap_Queue before) (Snap_Media after)
    then stopped <| Snap_Media := Snap_Media after |> else stopped
  else before.

Definition transportMediaReadback (before after : Snapshot) (target : PlayState) (pending : bool) : Snapshot :=
  match target with
  | PlayStateStop => stoppedReadback before after
  | PlayStatePlay =>
      if queuedMedia (Snap_Queue before) (Snap_Media after)
      then before <| Snap_Media := Snap_Media after |>
      else if pending && (Snap_State after != PlayStatePlay)
              && (emptyMedia (Snap_Media after) || queuedIdentity (Snap_Queue before) (Snap_Media after))
      then before <| Snap_Media := Snap_Media after |>
      else before
  | _ => before
  end.

Definition pendingChanges (before after : Snapshot) (m : Mutation) : list string :=
  if Token_Generation (Snap_Token before) != Token_Generation (Snap_Token after)
  then ["connection_generation"]
  else
    let expected :=
      match Mut_Kind m with
      | MutationKindMode =>
          let b := if Snap_Repeat after == Mut_Repeat m
                   then before <| Snap_Repeat := Snap_Repeat after |> else before in
          if Snap_Shuffle after == Mut_Shuffle m
          then b <| Snap_Shuffle := Snap_Shuffle after |> else b
      | MutationKindTransport =>
          let b := if Snap_State after == PlayStateUnknown
                   then before <| Snap_State := Snap_State after |> else before in
          transportMediaReadback b after (Mut_State m) true
      | MutationKindSkip =>
          let b := if PlayState_Known (Snap_State after)
                   then before <| Snap_State := Snap_State after |> else before in
          if emptyMedia (Snap_Media after) || queuedMedia (Snap_Queue b) (Snap_Media after)
             || transitionalQueueMedia (Snap_Queue b) (Snap_Media after)
          then b <| Snap_Media := Snap_Media after |> else b
      | _ => before
      end in
    stateChanges expected after.

Definition queueStatePending (before after : PlayState) (started : bool) : bool :=
  match after with
  | PlayStatePlay | PlayStateUnknown => true
  | PlayStateStop => negb started && ((before == PlayStateStop) || (before == PlayStatePause))
  | PlayStatePause => negb started && (before == PlayStatePause)
  | _ => false
  end.

Definition transitionChanges (before after : Snapshot) : list string :=
  if Token_Generation (Snap_Token before) != Token_Generation (Snap_Token after)
  then ["connection_generation"]
  else
    match Snap_State after with
    | PlayStateStop | PlayStateUnknown | PlayStatePlay =>
        let b := before <| Snap_State := Snap_State after |> in
        let pendingIdentity := (Snap_State after != PlayStatePlay)
                               && queuedIdentity (Snap_Queue b) (Snap_Media after) in
        let b := if emptyMedia (Snap_Media after) || queuedMedia (Snap_Queue b) (Snap_Media after)
                    || pendingIdentity || transitionalQueueMedia (Snap_Queue b) (Snap_Media after)
                 then b <| Snap_Media := Snap_Media after |> else b in
        stateChanges b after
    | _ => ["state"]
    end.

(** ** Device safety *)

Definition deviceObservationSafety (p : PlayerConfig) (s : Snapshot) : option error :=
  if negb (Cfg_WritesEnabled p) then Some (ESentinel ErrReadOnly)
  else if negb (Snap_Verified s) || Snap_Stale s || negb (Snap_Connected s)
          || (Player_ID (Snap_Player s) == "") || (Player_Serial (Snap_Player s) != Cfg_Serial p)
          || (Snap_Volume s == None) || (Snap_Muted s == None)
  then Some (ESentinel ErrUnavailable)
  else if Snap_Grouped s then Some (ESentinel ErrGrouped)
  else if Cfg_VolumeCeiling p == None then Some (ESentinel ErrReadOnly)
  else None.

Definition deviceSafety (p : PlayerConfig) (s : Snapshot) : option error :=
  match deviceObservationSafety p s with
  | Some e => Some e
  | None => if negb (PlayState_Writable (Snap_State s)) then Some (ESentinel ErrUnavailable) else None
  end.

Definition mutationSafety (p : PlayerConfig) (s : Snapshot) (skip : bool) : option error :=
  if negb skip || (Snap_State s != PlayStateUnknown) then deviceSafety p s
  else match deviceObservationSafety p s with
       | Some e => Some e
       | None => Some (ESentinel ErrNotSkippable)
       end.

#[global] Arguments stateChanges : simpl never.
#[global] Arguments changed_names : simpl never.
#[global] Arguments queuedMedia : simpl never.
#[global] Arguments queuedIdentity : simpl never.
#[global] Arguments transitionalQueueMedia : simpl never.
#[global] Arguments ownershipMismatch : simpl never.

(** ** Facts about comparisons *)

Lemma changed_names_nil (fields : list (string * bool)) :
  changed_names fields = [] <-> Forall (fun f => f.2 = false) fields.
Proof.
  unfold changed_names. induction fields as [|[n b] rest IH]; cbn; [done|].
  rewrite Forall_cons. cbn. destruct b; rewrite ?decide_True, ?decide_False by done; cbn; naive_solver.
Qed.

Lemma changed_names_elem (fields : list (string * bool)) n :
  n ∈ changed_names fields <-> (n, true) ∈ fields.
Proof.
  unfold changed_names. rewrite list_elem_of_fmap. split.
  - intros ([x b] & -> & [Hb Hin]%list_elem_of_filter). cbn in *. by subst.
  - intros Hin. exists (n, true). split; [done|]. by apply list_elem_of_filter.
Qed.

(** The controls an observation must preserve: every field that [stateChanges]
    compares, and nothing else (not the token, freshness or display fields). *)
Record same_controls (a b : Snapshot) : Prop := {
  same_repeat : Snap_Repeat a = Snap_Repeat b;
  same_shuffle : Snap_Shuffle a = Snap_Shuffle b;
  same_player : Snap_Player a = Snap_Player b;
  same_grouped : Snap_Grouped a = Snap_Grouped b;
  same_state : Snap_State a = Snap_State b;
  same_volume : Snap_Volume a = Snap_Volume b;
  same_muted : Snap_Muted a = Snap_Muted b;
  same_items : Queue_Items (Snap_Queue a) = Queue_Items (Snap_Queue b);
  same_total : Queue_Total (Snap_Queue a) = Queue_Total (Snap_Queue b);
  same_media : Snap_Media a = Snap_Media b
}.

#[export] Instance same_controls_equiv : Equivalence same_controls.
Proof.
  split.
  - intros a. by constructor.
  - intros a b []. by constructor.
  - intros a b c [] []. constructor; congruence.
Qed.

Lemma Media_ext (a b : Media) :
  Media_Source a = Media_Source b -> Media_ID a = Media_ID b -> Media_QueueID a = Media_QueueID b ->
  Media_Song a = Media_Song b -> Media_Album a = Media_Album b -> Media_Artist a = Media_Artist b -> a = b.
Proof. destruct a, b; cbn; congruence. Qed.

Lemma stateChanges_nil (a b : Snapshot) : stateChanges a b = [] <-> same_controls a b.
Proof.
  unfold stateChanges. rewrite app_nil, changed_names_nil. split.
  - intros [Hall Hmedia]. rewrite !Forall_cons in Hall. cbn in Hall. breflect.
    constructor; try done. destruct (Snap_Media a) as [x|], (Snap_Media b) as [y|]; try done.
    apply changed_names_nil in Hmedia. rewrite !Forall_cons in Hmedia. cbn in Hmedia. breflect.
    f_equal. by apply Media_ext.
  - intros []. split.
    + rewrite !Forall_cons. cbn. bgoal. by split_and!.
    + rewrite same_media0. destruct (Snap_Media b); [|done]. apply changed_names_nil.
      rewrite !Forall_cons. cbn. bgoal. by split_and!.
Qed.

Lemma sameState_spec (a b : Snapshot) : sameState a b = true <-> same_controls a b.
Proof.
  unfold sameState, len. rewrite Z.eqb_eq, <- stateChanges_nil.
  destruct (stateChanges a b); cbn; naive_solver lia.
Qed.

#[export] Instance stateChanges_proper :
  Proper (same_controls ==> same_controls ==> eq) stateChanges.
Proof.
  intros a a' [] b b' []. unfold stateChanges.
  by repeat match goal with H : _ = _ |- _ => rewrite H; clear H end.
Qed.

#[export] Instance sameState_proper : Proper (same_controls ==> same_controls ==> eq) sameState.
Proof. intros a a' Ha b b' Hb. unfold sameState. by rewrite Ha, Hb. Qed.

(** ** Facts about queue membership *)

Lemma queuedMedia_spec (q : QueuePage) (m : option Media) :
  queuedMedia q m = true <->
  exists x item, m = Some x /\ Media_Source x = LocalMusic /\ Media_ID x <> "" /\ Media_QueueID x <> ""
    /\ item ∈ Queue_Items q /\ Media_QueueID item = Media_QueueID x /\ Media_ID item = Media_ID x.
Proof.
  unfold queuedMedia. destruct m as [x|]; [|naive_solver]. case_if; breflect.
  - split; [done|]. intros (y & i & [= <-] & ?). destruct_and?. naive_solver.
  - rewrite existsb_exists. split.
    + intros (item & Hin%list_elem_of_In & Hitem). breflect. exists x, item. naive_solver.
    + intros (y & item & [= <-] & ?). destruct_and?. exists item.
      split; [by apply list_elem_of_In|]. bgoal. done.
Qed.

Lemma queuedIdentity_spec (q : QueuePage) (m : option Media) :
  queuedIdentity q m = true <->
  exists x item, m = Some x /\ Media_Source x = LocalMusic /\ Media_ID x <> ""
    /\ item ∈ Queue_Items q /\ Media_ID item = Media_ID x.
Proof.
  unfold queuedIdentity. destruct m as [x|]; [|naive_solver]. case_if; breflect.
  - split; [done|]. intros (y & i & [= <-] & ?). destruct_and?. naive_solver.
  - rewrite existsb_exists. split.
    + intros (item & Hin%list_elem_of_In & Hitem). breflect. exists x, item. naive_solver.
    + intros (y & item & [= <-] & ?). destruct_and?. exists item.
      split; [by apply list_elem_of_In|]. bgoal. done.
Qed.

Lemma queuedMedia_identity (q : QueuePage) (m : option Media) :
  queuedMedia q m = true -> queuedIdentity q m = true.
Proof. rewrite queuedMedia_spec, queuedIdentity_spec. naive_solver. Qed.

Lemma queuedMedia_not_empty (q : QueuePage) (m : option Media) :
  queuedMedia q m = true -> emptyMedia m = false.
Proof.
  intros (x & item & -> & _ & Hid & _)%queuedMedia_spec. cbn.
  apply andb_false_iff. left. apply andb_false_iff. right. by apply bool_decide_eq_false.
Qed.

(** A hybrid pair never is an exact member of a queue with distinct queue IDs:
    the transitional allowance cannot confirm ownership. *)
Lemma transitional_not_queued (q : QueuePage) (m : option Media) :
  NoDup (Media_QueueID <$> Queue_Items q) ->
  transitionalQueueMedia q m = true -> queuedMedia q m = false.
Proof.
  intros Hnd Ht. apply not_true_iff. intros (x & item & -> & _ & _ & _ & Hin & Hq & Hid)%queuedMedia_spec.
  unfold transitionalQueueMedia in Ht. case_if; [done|].
  destruct (find _ _) as [y|] eqn:Hf; [|done]. apply find_some in Hf as [Hy%list_elem_of_In Hyq].
  breflect. apply Ht. enough (y = item) as -> by done.
  apply list_elem_of_lookup in Hin as [i Hi]. apply list_elem_of_lookup in Hy as [j Hj].
  assert (i = j) as ->; [|congruence].
  apply (NoDup_lookup _ i j (Media_QueueID x) Hnd); rewrite list_lookup_fmap, ?Hi, ?Hj; cbn; congruence.
Qed.

Lemma completeOwnedQueue_spec (q : QueuePage) (members : gset ID) :
  completeOwnedQueue q members = true <->
  Queue_Total q = Some (len (Queue_Items q)) /\ Queue_Items q <> [] /\ Queue_Next q = None
  /\ (forall m, m ∈ Queue_Items q -> Media_QueueID m <> "" /\ Media_ID m ∈ members)
  /\ NoDup (Media_QueueID <$> Queue_Items q).
Proof.
  unfold completeOwnedQueue, len. case_if; breflect.
  - split; [done|]. destruct (Queue_Items q); cbn in *; destruct_or?; naive_solver lia.
  - rewrite distinct_scan_empty. split.
    + intros [Hall Hnd]. split_and!; try done; [by destruct (Queue_Items q)|].
      intros m [k Hk]%list_elem_of_lookup. destruct (Hall k m Hk). breflect. done.
    + intros (_ & _ & _ & Hall & Hnd). split; [|done]. intros k m Hk.
      destruct (Hall m); [by apply list_elem_of_lookup; exists k|]. bgoal. done.
Qed.

(** ** Facts about safety *)

Lemma deviceObservationSafety_none (p : PlayerConfig) (s : Snapshot) :
  deviceObservationSafety p s = None <->
  Cfg_WritesEnabled p = true /\ Snap_Verified s = true /\ Snap_Stale s = false
  /\ Snap_Connected s = true /\ Player_ID (Snap_Player s) <> ""
  /\ Player_Serial (Snap_Player s) = Cfg_Serial p /\ is_Some (Snap_Volume s) /\ is_Some (Snap_Muted s)
  /\ Snap_Grouped s = false /\ is_Some (Cfg_VolumeCeiling p).
Proof.
  unfold deviceObservationSafety. rewrite <- !not_eq_None_Some.
  repeat case_if; breflect; naive_solver congruence.
Qed.

Lemma deviceSafety_none (p : PlayerConfig) (s : Snapshot) :
  deviceSafety p s = None <->
  deviceObservationSafety p s = None /\ PlayState_Writable (Snap_State s) = true.
Proof.
  unfold deviceSafety. destruct (deviceObservationSafety p s); [naive_solver|].
  case_if; breflect; naive_solver congruence.
Qed.

(** A skip is judged unskippable only from a verified, safe observation. *)
Lemma mutationSafety_none (p : PlayerConfig) (s : Snapshot) (skip : bool) :
  mutationSafety p s skip = None <-> deviceSafety p s = None.
Proof.
  unfold mutationSafety. case_if; [done|]. breflect.
  split; [by destruct (deviceObservationSafety p s)|].
  intros [_ Hw]%deviceSafety_none. rewrite H0 in Hw. done.
Qed.

(** ** Concrete observations

    A small device, used by the witnesses that evaluate the model: a local
    queue of three tracks (the third repeats the first) on a playing player. *)

Definition sample_track (mid qid : ID) : Media := {|
  Media_Source := LocalMusic; Media_ID := mid; Media_QueueID := qid;
  Media_Song := "song"; Media_Album := "album"; Media_Artist := "artist" |}.

Definition sample_items : list Media :=
  [sample_track "a" "1"; sample_track "b" "2"; sample_track "a" "3"].

Definition sample_queue : QueuePage := {|
  Queue_Items := sample_items; Queue_Total := Some 3; Queue_Next := None; Queue_Token := Token_zero |}.

Definition sample_player : Player := Build_Player "42" "Kitchen" "Home 150" "serial" "10.0.0.2" "".

Definition sample_config : PlayerConfig := {|
  Cfg_WritesEnabled := true; Cfg_Key := "kitchen"; Cfg_Address := "10.0.0.2:1265";
  Cfg_FingerprintSHA256 := ""; Cfg_Serial := "serial"; Cfg_Model := ""; Cfg_VolumeCeiling := Some 40 |}.

Definition sample_token : Token := Build_Token 1 1 1 5 2.

Definition sample_snapshot (state : PlayState) (media : option Media) : Snapshot := {|
  Snap_Repeat := RepeatOff; Snap_Shuffle := false; Snap_Key := "kitchen"; Snap_Player := sample_player;
  Snap_Groups := []; Snap_Grouped := false; Snap_State := state; Snap_Volume := Some 20;
  Snap_Muted := Some false; Snap_Media := media; Snap_Queue := sample_queue;
  Snap_ObservedAt := 100 * Second; Snap_Token := sample_token; Snap_Stale := false;
  Snap_Connected := true; Snap_Verified := true; Snap_MediaStale := false;
  Snap_MediaUnavailable := false; Snap_EventUpdated := false; Snap_Playhead := None |}.

Definition sample_first : option Media := Some (sample_track "a" "1").
Definition sample_second : option Media := Some (sample_track "b" "2").

Definition sample_event (kind : EventKind) (params : list (string * string)) (token : Token) : Event := {|
  Ev_Command := EventKind_string kind;
  Ev_Params := list_to_map (map (fun p => (p.1, [p.2])) (("pid", "42") :: params));
  Ev_Token := token; Ev_Gap := false; Ev_GapReason := ""; Ev_progressSequence := 0 |}.
