(* ===== verification/QueuePolicy.v ===== *)
(** * Active queue transitions ([internal/control/queue_policy.go])

    The two ordered decision tables for a confirmed, owned queue: one for an
    event from the callback, one for an observation.  Both are pure functions
    of captured values; the caller applies the decision under its mutex. *)

From S2P Require Import Prelude Values Model Diagnostics Errors Events State.

(** [queue_transition.go]: the one confirmation budget. *)
Definition playbackConfirmationTimeout : Duration := 12 * Second.

Inductive queueAction := queuePass | queueIgnore | queueObserve | queueWait | queueResume | queueRelease.
#[export] Instance queueAction_eq_dec : EqDecision queueAction.
Proof. solve_decision. Defined.

Record queuePolicyState := {
  QP_Owned : bool;
  QP_Automating : bool;
  QP_ExpectedState : PlayState;
  QP_WaitUntil : Time;
  QP_PlaybackUntil : Time
}.
#[export] Instance queuePolicyState_eta : Eta queuePolicyState := fun s =>
  {| QP_Owned := QP_Owned s; QP_Automating := QP_Automating s; QP_ExpectedState := QP_ExpectedState s;
     QP_WaitUntil := QP_WaitUntil s; QP_PlaybackUntil := QP_PlaybackUntil s |}.

Record queueObservationFacts := {
  QF_Now : Time;
  QF_Before : Snapshot;
  QF_Observed : Snapshot;
  QF_Cancellation : option error;
  QF_Unsafe : option error;
  QF_Expired : bool;
  QF_PendingEvents : bool
}.

Record queueDecision := {
  QD_Action : queueAction;
  QD_Rule : string;
  QD_WaitUntil : Time;
  QD_Deadline : Time;
  QD_Notify : bool;
  QD_Err : option error
}.

Definition minTime (a b : Time) : Time := if a <? b then a else b.

(** The [transition] condition of [decideQueueEvent]. *)
Definition transition_event (state : queuePolicyState) (data : EventData) : bool :=
  (ED_Kind data == EventState) && QP_Automating state
  && ((ED_State data == PlayStateStop) || (ED_State data == PlayStateUnknown)).

Definition decideQueueEvent (state : queuePolicyState) (event : Event) (now : Time) : queueDecision :=
  let data := Event_Data event in
  let waiting := negb (isZero (QP_WaitUntil state)) in
  let play := (ED_Kind data == EventState) && (ED_State data == PlayStatePlay) in
  let transition := transition_event state data in
  let '(rule, action, notify) := first_match [
      (negb (QP_Owned state), ("queue_not_owned", queuePass, false));
      (ED_Kind data == EventNowPlaying, ("media_notification", queueObserve, true));
      (play && (QP_ExpectedState state != PlayStatePlay), ("unexpected_play", queuePass, waiting));
      (play && waiting, ("play_requires_observation", queueObserve, true));
      (play, ("play_unchanged", queueIgnore, false));
      (transition && waiting, ("transport_already_pending", queueIgnore, false));
      (transition, ("transport_transition", queueWait, true))]
    ("event_not_attributed", queuePass, false) in
  {| QD_Action := action; QD_Rule := rule;
     QD_WaitUntil := if action == queueWait then now + playbackConfirmationTimeout else QP_WaitUntil state;
     QD_Deadline := 0; QD_Notify := notify; QD_Err := None |}.

(** The [active] and [waitUntil] values of [decideQueueObservation]. *)
Definition transition_active (state : queuePolicyState) : bool :=
  QP_Owned state && QP_Automating state && (QP_ExpectedState state == PlayStatePlay).

Definition transition_pending (before observed : Snapshot) : bool :=
  (Snap_State observed == PlayStateStop) || (Snap_State observed == PlayStateUnknown)
  || ((Snap_State observed == PlayStatePlay)
      && transitionalQueueMedia (Snap_Queue before) (Snap_Media observed)).

Definition observation_wait (state : queuePolicyState) (facts : queueObservationFacts) : Time :=
  if transition_active state && transition_pending (QF_Before facts) (QF_Observed facts)
     && isZero (QP_WaitUntil state)
  then QF_Now facts + playbackConfirmationTimeout else QP_WaitUntil state.

Definition observation_deadline (state : queuePolicyState) (facts : queueObservationFacts) : Time :=
  let waitUntil := observation_wait state facts in
  if isZero (QP_PlaybackUntil state) then waitUntil else minTime waitUntil (QP_PlaybackUntil state).

Definition decideQueueObservation (state : queuePolicyState) (facts : queueObservationFacts) : queueDecision :=
  let active := transition_active state in
  let waitUntil := observation_wait state facts in
  let deadline := observation_deadline state facts in
  let before := QF_Before facts in
  let observed := QF_Observed facts in
  let changed :=
    if active && negb (isZero waitUntil) then
      let fields := transitionChanges before observed in
      if len fields =? 0 then None
      else Some (ownershipMismatch "queue_transition_changed" fields before observed)
    else None in
  let '(rule, action, err) := first_match [
      (negb active, ("outside_active_queue", queuePass, None));
      (isZero waitUntil, ("no_transition", queuePass, None));
      (QF_Expired facts || negb (QF_Now facts <? deadline),
        ("transition_timeout", queueRelease, Some EQueueTransitionTimeout));
      (is_some (QF_Cancellation facts), ("operation_cancelled", queueRelease, QF_Cancellation facts));
      (is_some (QF_Unsafe facts), ("observation_unsafe", queueRelease, QF_Unsafe facts));
      (is_some changed, ("queue_controls_changed", queueRelease, changed));
      ((Snap_State observed == PlayStatePlay) && queuedMedia (Snap_Queue before) (Snap_Media observed)
         && negb (QF_PendingEvents facts), ("play_confirmed", queueResume, None));
      (QF_PendingEvents facts, ("events_pending", queueWait, None));
      (Snap_State observed != PlayStatePlay, ("transport_pending", queueWait, None))]
    ("media_pending", queueWait, None) in
  {| QD_Action := action; QD_Rule := rule;
     QD_WaitUntil := if action == queueResume then 0 else waitUntil;
     QD_Deadline := deadline; QD_Notify := false; QD_Err := err |}.

(** ** Facts about single decisions *)

Lemma minTime_min (a b : Time) : minTime a b = Z.min a b.
Proof. unfold minTime. destruct (Z.ltb_spec a b); lia. Qed.

(** An event never resumes or releases: it can only request observation. *)
Lemma event_action (state : queuePolicyState) (event : Event) (now : Time) :
  QD_Action (decideQueueEvent state event now) ∈ [queuePass; queueIgnore; queueObserve; queueWait].
Proof.
  unfold decideQueueEvent. rule_cases; cbn; rewrite !elem_of_cons; auto 6.
Qed.

(** Only a wait moves the deadline, and only when none was pending. *)
Lemma event_deadline (state : queuePolicyState) (event : Event) (now : Time) :
  let d := decideQueueEvent state event now in
  (QD_Action d = queueWait /\ QP_WaitUntil state = 0 /\ QP_Owned state = true
     /\ transition_event state (Event_Data event) = true
     /\ QD_WaitUntil d = now + playbackConfirmationTimeout)
  \/ (QD_Action d <> queueWait /\ QD_WaitUntil d = QP_WaitUntil state).
Proof.
  unfold decideQueueEvent.
  rule_cases; cbn; rewrite ?bool_decide_true, ?bool_decide_false by done; auto.
  left. split_and!; try done; breflect; destruct_or?; try congruence.
Qed.

(** The resume decision, characterised. *)
Lemma observation_resume (state : queuePolicyState) (facts : queueObservationFacts) :
  QD_Action (decideQueueObservation state facts) = queueResume <->
  transition_active state = true /\ observation_wait state facts <> 0
  /\ QF_Expired facts = false /\ QF_Now facts < observation_deadline state facts
  /\ QF_Cancellation facts = None /\ QF_Unsafe facts = None
  /\ transitionChanges (QF_Before facts) (QF_Observed facts) = []
  /\ Snap_State (QF_Observed facts) = PlayStatePlay
  /\ queuedMedia (Snap_Queue (QF_Before facts)) (Snap_Media (QF_Observed facts)) = true
  /\ QF_PendingEvents facts = false.
Proof.
  unfold decideQueueObservation. destruct (transition_active state); cbn; [|naive_solver].
  destruct (isZero (observation_wait state facts)) eqn:Hz; cbn; breflect; [naive_solver|].
  destruct (transitionChanges (QF_Before facts) (QF_Observed facts)) as [|f fs] eqn:Hc.
  - cbn. rule_cases; cbn; (split; [|intros ?; destruct_and?]); bsolve.
  - rewrite len_cons. destruct (Z.eqb_spec (1 + len fs) 0); [unfold len in *; lia|].
    cbn. rule_cases; cbn; naive_solver.
Qed.

(** At or after the deadline, the decision is to release with the timeout. *)
Lemma observation_timeout (state : queuePolicyState) (facts : queueObservationFacts) :
  transition_active state = true -> observation_wait state facts <> 0 ->
  QF_Expired facts = true \/ observation_deadline state facts <= QF_Now facts ->
  let d := decideQueueObservation state facts in
  QD_Action d = queueRelease /\ QD_Rule d = "transition_timeout" /\ QD_Err d = Some EQueueTransitionTimeout.
Proof.
  intros Ha Hw Ht. unfold decideQueueObservation. rewrite Ha. cbn.
  assert (isZero (observation_wait state facts) = false) as -> by by apply isZero_false.
  assert (QF_Expired facts || negb (QF_Now facts <? observation_deadline state facts) = true) as ->; [|done].
  bgoal. destruct Ht; auto.
Qed.

(** An observation establishes a deadline only when none is pending. *)
Lemma observation_wait_keeps (state : queuePolicyState) (facts : queueObservationFacts) :
  QP_WaitUntil state <> 0 -> observation_wait state facts = QP_WaitUntil state.
Proof. intros Hw. unfold observation_wait. case_if; breflect; done. Qed.

Lemma observation_deadline_le (state : queuePolicyState) (facts : queueObservationFacts) :
  observation_deadline state facts <= observation_wait state facts.
Proof. unfold observation_deadline. case_if; [lia|]. rewrite minTime_min. lia. Qed.

Lemma observation_waituntil (state : queuePolicyState) (facts : queueObservationFacts) :
  let d := decideQueueObservation state facts in
  QD_WaitUntil d = (if QD_Action d == queueResume then 0 else observation_wait state facts).
Proof. unfold decideQueueObservation. by destruct (first_match _ _) as [[??]?]. Qed.

(** ** Runs of the policy

    [acceptQueueEvent] and [queueObservationDecision] both store the decision's
    [WaitUntil] back into the execution ([r.queueWait = d.WaitUntil]). *)

Inductive policy_input :=
  | PolicyEvent (event : Event) (now : Time)
  | PolicyObservation (facts : queueObservationFacts).

Definition policy_decide (state : queuePolicyState) (i : policy_input) : queueDecision :=
  match i with
  | PolicyEvent event now => decideQueueEvent state event now
  | PolicyObservation facts => decideQueueObservation state facts
  end.

Definition policy_apply (state : queuePolicyState) (i : policy_input) : queuePolicyState :=
  state <| QP_WaitUntil := QD_WaitUntil (policy_decide state i) |>.

(** A run in which no decision resumes. *)
Inductive suspended_run : queuePolicyState -> list policy_input -> queuePolicyState -> Prop :=
  | suspended_nil s : suspended_run s [] s
  | suspended_step s i s' ins :
      QD_Action (policy_decide s i) <> queueResume ->
      suspended_run (policy_apply s i) ins s' -> suspended_run s (i :: ins) s'.

Lemma policy_apply_keeps (s : queuePolicyState) (i : policy_input) :
  QP_WaitUntil s <> 0 -> QD_Action (policy_decide s i) <> queueResume ->
  policy_apply s i = s.
Proof.
  intros Hw Hr. unfold policy_apply.
  enough (QD_WaitUntil (policy_decide s i) = QP_WaitUntil s) as -> by by destruct s.
  destruct i as [event now|facts]; cbn in *.
  - destruct (event_deadline s event now) as [(_ & ? & _)|[_ ?]]; congruence.
  - rewrite observation_waituntil. rewrite bool_decide_false by done. by apply observation_wait_keeps.
Qed.

Lemma suspended_run_keeps (s s' : queuePolicyState) (ins : list policy_input) :
  QP_WaitUntil s <> 0 -> suspended_run s ins s' -> s' = s.
Proof.
  intros Hw Hrun. induction Hrun as [|s i s' ins Hr Hrun IH]; [done|].
  rewrite (policy_apply_keeps s i Hw Hr) in *. auto.
Qed.

Lemma transitionChanges_queued (before observed : Snapshot) :
  transitionChanges before observed = [] ->
  queuedMedia (Snap_Queue before) (Snap_Media observed) = true ->
  Token_Generation (Snap_Token before) = Token_Generation (Snap_Token observed)
  /\ same_controls (before <| Snap_State := Snap_State observed |> <| Snap_Media := Snap_Media observed |>) observed.
Proof.
  intros Hc Hq. unfold transitionChanges in Hc. case_if; [done|]. breflect. split; [done|].
  apply stateChanges_nil. cbn in Hc. rewrite Hq in Hc.
  destruct (Snap_State observed) eqn:Hs; try done;
    by rewrite orb_true_r in Hc.
Qed.

(** ** Properties *)

(** A transition wait resumes only on a safe, uncancelled, unexpired Play
    observation whose exact MID/QID pair is in the owned queue, with no
    uncovered event, and whose connection generation and every control except
    the play state and the current entry are those of the expected snapshot. *)
Theorem resume_only_confirmed (state : queuePolicyState) (facts : queueObservationFacts) :
  QD_Action (decideQueueObservation state facts) = queueResume ->
  QP_Owned state = true /\ QP_Automating state = true
  /\ QF_Now facts < observation_deadline state facts
  /\ QF_Cancellation facts = None /\ QF_Unsafe facts = None /\ QF_PendingEvents facts = false
  /\ Snap_State (QF_Observed facts) = PlayStatePlay
  /\ queuedMedia (Snap_Queue (QF_Before facts)) (Snap_Media (QF_Observed facts)) = true
  /\ Token_Generation (Snap_Token (QF_Before facts)) = Token_Generation (Snap_Token (QF_Observed facts))
  /\ same_controls
       (QF_Before facts <| Snap_State := PlayStatePlay |> <| Snap_Media := Snap_Media (QF_Observed facts) |>)
       (QF_Observed facts).
Proof.
  intros (Ha & _ & _ & Hd & Hc & Hu & Ht & Hp & Hq & He)%observation_resume.
  destruct (transitionChanges_queued _ _ Ht Hq) as [Hg Hs]. rewrite Hp in Hs.
  unfold transition_active in Ha. breflect. by split_and!.
Qed.

Definition sample_waiting : queuePolicyState := {|
  QP_Owned := true; QP_Automating := true; QP_ExpectedState := PlayStatePlay;
  QP_WaitUntil := 112 * Second; QP_PlaybackUntil := 700 * Second |}.
Definition sample_facts (now : Time) (observed : Snapshot) : queueObservationFacts := {|
  QF_Now := now; QF_Before := sample_snapshot PlayStatePlay sample_first; QF_Observed := observed;
  QF_Cancellation := None; QF_Unsafe := None; QF_Expired := false; QF_PendingEvents := false |}.

Lemma resume_only_confirmed_witness :
  QF_Unsafe (sample_facts (105 * Second) (sample_snapshot PlayStatePlay sample_second)) = None.
Proof.
  destruct (resume_only_confirmed sample_waiting
    (sample_facts (105 * Second) (sample_snapshot PlayStatePlay sample_second)))
    as (_ & _ & _ & _ & H & _); [vm_compute; reflexivity|exact H].
Defined.

(** The first transition deadline is never renewed: whatever notifications
    and observations follow, as long as none of them confirms playback the
    pending deadline stays the one the first transition established, and any
    observation made at or after it (or after the playback window's end)
    releases the operation with the transition timeout. *)
Theorem transition_wait_bounded (s s' : queuePolicyState) (event : Event) (t0 : Time)
    (ins : list policy_input) (facts : queueObservationFacts) :
  0 <= t0 ->
  QP_ExpectedState s = PlayStatePlay ->
  QD_Action (decideQueueEvent s event t0) = queueWait ->
  suspended_run (policy_apply s (PolicyEvent event t0)) ins s' ->
  QP_WaitUntil s' = t0 + playbackConfirmationTimeout
  /\ (t0 + playbackConfirmationTimeout <= QF_Now facts
      \/ (QP_PlaybackUntil s <> 0 /\ QP_PlaybackUntil s <= QF_Now facts) ->
      QD_Action (decideQueueObservation s' facts) = queueRelease
      /\ QD_Err (decideQueueObservation s' facts) = Some EQueueTransitionTimeout).
Proof.
  intros Ht0 He Ha Hrun.
  destruct (event_deadline s event t0) as [(_ & Hz & Ho & Htr & Hw)|[? _]]; [|done].
  apply suspended_run_keeps in Hrun as ->; cbn; rewrite Hw; [|unfold playbackConfirmationTimeout, Second; lia].
  split; [done|]. intros Hlate.
  set (s1 := policy_apply s (PolicyEvent event t0)).
  assert (QP_WaitUntil s1 = t0 + playbackConfirmationTimeout) as Hs1 by exact Hw.
  assert (QP_WaitUntil s1 <> 0) as Hnz by (rewrite Hs1; unfold playbackConfirmationTimeout, Second; lia).
  destruct (observation_timeout s1 facts) as (? & _ & ?); [| |right|done].
  - unfold transition_event in Htr. breflect. unfold transition_active. cbn. bgoal. done.
  - by rewrite observation_wait_keeps.
  - unfold observation_deadline. rewrite observation_wait_keeps by done.
    change (QP_PlaybackUntil s1) with (QP_PlaybackUntil s).
    case_if; rewrite ?minTime_min; breflect; destruct Hlate as [?|[? ?]]; try lia; congruence.
Qed.

Lemma transition_wait_bounded_witness :
  let idle := sample_waiting <| QP_WaitUntil := 0 |> in
  let stop := sample_event EventState [("state", "stop")] sample_token in
  let facts := sample_facts (112 * Second) (sample_snapshot PlayStatePlay sample_second) in
  QD_Action (decideQueueObservation
    (policy_apply idle (PolicyEvent stop (100 * Second))) facts) = queueRelease.
Proof.
  intros idle stop facts.
  destruct (transition_wait_bounded idle (policy_apply idle (PolicyEvent stop (100 * Second))) stop
    (100 * Second) [PolicyEvent stop (105 * Second)] facts) as [_ H].
  - vm_compute. discriminate.
  - reflexivity.
  - vm_compute. reflexivity.
  - apply suspended_step; [vm_compute; discriminate|].
    assert (policy_apply (policy_apply idle (PolicyEvent stop (100 * Second)))
              (PolicyEvent stop (105 * Second))
            = policy_apply idle (PolicyEvent stop (100 * Second))) as -> by (vm_compute; reflexivity).
    apply suspended_nil.
  - apply H. left. vm_compute. discriminate.
Defined.
