(* ===== verification/QueueStart.v ===== *)
(** * Initial queue confirmation ([internal/control/queue_start_policy.go])

    The decision table that establishes ownership of a requested queue, with
    the one-way phase of [confirmation.go]. *)

From S2P Require Import Prelude Values Model Diagnostics Errors Events State.

Inductive queueStartAction := queueStartWait | queueStartConfirm | queueStartAbort.
#[export] Instance queueStartAction_eq_dec : EqDecision queueStartAction.
Proof. solve_decision. Defined.

Inductive queueStartPhase := queueNotStarting | queueAwaitingPlay | queuePlayObserved.
#[export] Instance queueStartPhase_eq_dec : EqDecision queueStartPhase.
Proof. solve_decision. Defined.

Record queueStartFacts := {
  QS_Now : Time;
  QS_Deadline : Time;
  QS_Phase : queueStartPhase;
  QS_Bounded : bool;
  QS_Members : gset ID;
  QS_Before : Snapshot;
  QS_Observed : Snapshot;
  QS_Cancellation : option error;
  QS_Unsafe : option error;
  QS_PendingEvents : bool
}.

#[export] Instance queueStartFacts_eta : Eta queueStartFacts := fun f =>
  {| QS_Now := QS_Now f; QS_Deadline := QS_Deadline f; QS_Phase := QS_Phase f;
     QS_Bounded := QS_Bounded f; QS_Members := QS_Members f; QS_Before := QS_Before f;
     QS_Observed := QS_Observed f; QS_Cancellation := QS_Cancellation f; QS_Unsafe := QS_Unsafe f;
     QS_PendingEvents := QS_PendingEvents f |}.

Record queueStartDecision := {
  QSD_Action : queueStartAction;
  QSD_Rule : string;
  QSD_Err : option error
}.

Definition queueLoadingControls (before after : Snapshot) : list string :=
  if Token_Generation (Snap_Token before) != Token_Generation (Snap_Token after)
  then ["connection_generation"]
  else stateChanges (before <| Snap_State := Snap_State after |> <| Snap_Media := Snap_Media after |>
                            <| Snap_Queue := Snap_Queue after |>) after.

Definition queueLoadingMedia (before after : Snapshot) (members : gset ID) : bool :=
  if emptyMedia (Snap_Media after) then true
  else match Snap_Media after with
       | None => true
       | Some media =>
           let previous := match Snap_Media before with
                           | Some b => (Media_Source b == Media_Source media) && (Media_ID b == Media_ID media)
                           | None => false end in
           let selected := (Media_Source media == LocalMusic) && (Media_ID media in? members) in
           previous || selected
       end.

Definition queueLoadingItems (before after : QueuePage) (members : gset ID) : bool :=
  let old : gset ID := list_to_set (map Media_ID (Queue_Items before)) in
  forallb (fun item => (Media_ID item in? old) || (Media_ID item in? members)) (Queue_Items after).

(** The reason the queue is not the requested one; empty when it is. *)
Definition queueResultProblem (s : Snapshot) (members : gset ID) (bounded : bool) : string :=
  let selected :=
    match Snap_Media s with
    | None => false
    | Some m => (Media_Source m == LocalMusic) && (Media_ID m != "") && (Media_QueueID m != "")
                && (Media_ID m in? members)
    end in
  if negb selected then "queue_media_not_selected"
  else if negb (forallb (fun track => Media_ID track in? members) (Queue_Items (Snap_Queue s)))
  then "queue_contains_unselected_media"
  else if bounded then
    if negb (completeOwnedQueue (Snap_Queue s) members) then "queue_incomplete_or_invalid"
    else if negb (queuedMedia (Snap_Queue s) (Snap_Media s)) then "queue_media_not_found"
    else ""
  else "".

(** The unresolved-MID allowance, before the first Play only. *)
Definition queue_unresolved (f : queueStartFacts) : bool :=
  (QS_Phase f == queueAwaitingPlay) && (Snap_State (QS_Observed f) == PlayStateUnknown)
  && match Snap_Media (QS_Observed f) with
     | Some m => (Media_Source m == LocalMusic) && (Media_ID m != "")
     | None => false end
  && negb (queueLoadingMedia (QS_Before f) (QS_Observed f) (QS_Members f))
  && completeOwnedQueue (Snap_Queue (QS_Observed f)) (QS_Members f).

Definition decideQueueStart (f : queueStartFacts) : queueStartDecision :=
  let before := QS_Before f in
  let observed := QS_Observed f in
  let controls := queueLoadingControls before observed in
  let mediaAllowed := queueLoadingMedia before observed (QS_Members f) in
  let unresolved := queue_unresolved f in
  let '(rule, action, err, fields) := first_match [
      (QS_Phase f == queueNotStarting, ("queue_start_inactive", queueStartAbort, Some (ESentinel ErrOwnership), []));
      (negb (QS_Now f <? QS_Deadline f), ("queue_start_timeout", queueStartAbort, Some (ESentinel DeadlineExceeded), []));
      (is_some (QS_Cancellation f), ("operation_cancelled", queueStartAbort, QS_Cancellation f, []));
      (is_some (QS_Unsafe f), ("observation_unsafe", queueStartAbort, QS_Unsafe f, []));
      (len controls != 0, ("queue_controls_changed", queueStartAbort, None, controls));
      (negb (queueStatePending (Snap_State before) (Snap_State observed) (QS_Phase f == queuePlayObserved)),
        ("queue_state_changed", queueStartAbort, None, ["state"]));
      (negb (queueLoadingItems (Snap_Queue before) (Snap_Queue observed) (QS_Members f)),
        ("queue_items_changed", queueStartAbort, None, ["queue_items"]));
      (negb mediaAllowed && negb unresolved, ("queue_media_changed", queueStartAbort, None, ["media"]));
      ((Snap_State observed == PlayStatePlay)
         && (queueResultProblem observed (QS_Members f) (QS_Bounded f) == "")
         && negb (QS_PendingEvents f), ("queue_start_confirmed", queueStartConfirm, None, []));
      (QS_PendingEvents f, ("events_pending", queueStartWait, None, []));
      (unresolved, ("loading_media_pending", queueStartWait, None, []))]
    ("queue_loading", queueStartWait, None, []) in
  {| QSD_Action := action; QSD_Rule := rule;
     QSD_Err := if len fields != 0
                then Some (ownershipMismatch "pending_readback_changed" fields before observed) else err |}.

(** ** Facts *)

Lemma len_zero {A} (l : list A) : len l = 0 <-> l = [].
Proof. unfold len. destruct l; cbn; naive_solver lia. Qed.

Lemma queueLoadingControls_nil (before after : Snapshot) :
  queueLoadingControls before after = [] <->
  Token_Generation (Snap_Token before) = Token_Generation (Snap_Token after)
  /\ same_controls (before <| Snap_State := Snap_State after |> <| Snap_Media := Snap_Media after |>
                           <| Snap_Queue := Snap_Queue after |>) after.
Proof.
  unfold queueLoadingControls. case_if; breflect; [naive_solver congruence|].
  rewrite stateChanges_nil. naive_solver.
Qed.

Lemma queueLoadingItems_spec (before after : QueuePage) (members : gset ID) :
  queueLoadingItems before after members = true <->
  forall item, item ∈ Queue_Items after ->
    Media_ID item ∈ Media_ID <$> Queue_Items before \/ Media_ID item ∈ members.
Proof.
  unfold queueLoadingItems. rewrite forallb_forall. split; intros H item Hin.
  - apply list_elem_of_In in Hin. specialize (H item Hin). breflect.
    destruct H as [H|H]; [left|by right]. by apply elem_of_list_to_set in H.
  - apply list_elem_of_In in Hin. bgoal. destruct (H item Hin) as [?|?]; [left|by right].
    by apply elem_of_list_to_set.
Qed.

(** In the bounded case, the requested result is a complete queue of selected
    tracks with distinct queue IDs and an exact current pair. *)
Lemma queueResultProblem_bounded (s : Snapshot) (members : gset ID) :
  queueResultProblem s members true = "" <->
  completeOwnedQueue (Snap_Queue s) members = true
  /\ queuedMedia (Snap_Queue s) (Snap_Media s) = true.
Proof.
  unfold queueResultProblem. split.
  - destruct (Snap_Media s); repeat (case_if; [done|]); breflect; done.
  - intros [Hc Hq]. rewrite Hc, Hq. apply completeOwnedQueue_spec in Hc as (_ & _ & _ & Hall & _).
    apply queuedMedia_spec in Hq as (x & item & -> & Hsrc & Hid & Hqid & Hin & _ & Heq).
    destruct (Hall item Hin) as [_ Hm]. rewrite Heq in Hm.
    assert ((Media_Source x == LocalMusic) && (Media_ID x != "") && (Media_QueueID x != "")
            && (Media_ID x in? members) = true) as Hsel by (bgoal; by split_and!).
    cbv zeta. rewrite Hsel. cbn [negb].
    enough (forallb (fun track => Media_ID track in? members) (Queue_Items (Snap_Queue s)) = true) as -> by done.
    apply forallb_forall. intros t Ht%list_elem_of_In. apply bool_decide_eq_true. by apply Hall.
Qed.

Lemma queue_start_confirm_spec (f : queueStartFacts) :
  QSD_Action (decideQueueStart f) = queueStartConfirm ->
  QS_Phase f <> queueNotStarting /\ QS_Now f < QS_Deadline f /\ QS_Cancellation f = None
  /\ QS_Unsafe f = None /\ queueLoadingControls (QS_Before f) (QS_Observed f) = []
  /\ queueLoadingItems (Snap_Queue (QS_Before f)) (Snap_Queue (QS_Observed f)) (QS_Members f) = true
  /\ Snap_State (QS_Observed f) = PlayStatePlay
  /\ queueResultProblem (QS_Observed f) (QS_Members f) (QS_Bounded f) = ""
  /\ QS_PendingEvents f = false.
Proof.
  unfold decideQueueStart. rule_cases; cbn; try done. intros _. breflect.
  rewrite len_zero in *. by split_and!.
Qed.

(** ** Properties *)

(** Initial confirmation of a bounded playback establishes ownership only
    of the requested result: the command is pending, the deadline not reached,
    the operation not cancelled and the device safe; the observation is Play,
    with a complete queue of selected tracks with distinct queue IDs and an
    exact current pair, covers every event, and differs from the pre-command
    snapshot of the same connection only in state, media and queue. *)
Theorem queue_start_confirms_requested (f : queueStartFacts) :
  QS_Bounded f = true -> QSD_Action (decideQueueStart f) = queueStartConfirm ->
  QS_Phase f <> queueNotStarting /\ QS_Now f < QS_Deadline f
  /\ QS_Cancellation f = None /\ QS_Unsafe f = None /\ QS_PendingEvents f = false
  /\ Snap_State (QS_Observed f) = PlayStatePlay
  /\ (forall m, m ∈ Queue_Items (Snap_Queue (QS_Observed f)) ->
        Media_QueueID m <> "" /\ Media_ID m ∈ QS_Members f)
  /\ NoDup (Media_QueueID <$> Queue_Items (Snap_Queue (QS_Observed f)))
  /\ Queue_Total (Snap_Queue (QS_Observed f)) = Some (len (Queue_Items (Snap_Queue (QS_Observed f))))
  /\ queuedMedia (Snap_Queue (QS_Observed f)) (Snap_Media (QS_Observed f)) = true
  /\ Token_Generation (Snap_Token (QS_Before f)) = Token_Generation (Snap_Token (QS_Observed f))
  /\ same_controls
       (QS_Before f <| Snap_State := PlayStatePlay |> <| Snap_Media := Snap_Media (QS_Observed f) |>
                    <| Snap_Queue := Snap_Queue (QS_Observed f) |>) (QS_Observed f).
Proof.
  intros Hb (Hph & Hd & Hc & Hu & Hctl & _ & Hp & Hr & He)%queue_start_confirm_spec.
  rewrite Hb in Hr. apply queueResultProblem_bounded in Hr as [Hq Hm].
  apply completeOwnedQueue_spec in Hq as (? & _ & _ & ? & ?).
  apply queueLoadingControls_nil in Hctl as [? Hs]. rewrite Hp in Hs. by split_and!.
Qed.

Definition sample_start (phase : queueStartPhase) (observed : Snapshot) : queueStartFacts := {|
  QS_Now := 101 * Second; QS_Deadline := 112 * Second; QS_Phase := phase; QS_Bounded := true;
  QS_Members := {["a"; "b"]}; QS_Before := sample_snapshot PlayStateStop None; QS_Observed := observed;
  QS_Cancellation := None; QS_Unsafe := None; QS_PendingEvents := false |}.

Lemma queue_start_confirms_requested_witness :
  let f := sample_start queueAwaitingPlay (sample_snapshot PlayStatePlay sample_first) in
  queuedMedia (Snap_Queue (QS_Observed f)) (Snap_Media (QS_Observed f)) = true.
Proof.
  intros f. destruct (queue_start_confirms_requested f) as (_ & _ & _ & _ & _ & _ & _ & _ & _ & H & _);
    [reflexivity|vm_compute; reflexivity|exact H].
Defined.

(** Every initial decision is final at the deadline and classified: a
    decision made at or after the original deadline aborts, and a decision
    carries an error exactly when it aborts, so a wait or a confirmation never
    hides one. *)
Theorem queue_start_classified (f : queueStartFacts) :
  (QS_Deadline f <= QS_Now f -> QSD_Action (decideQueueStart f) = queueStartAbort)
  /\ (QSD_Action (decideQueueStart f) = queueStartAbort <-> QSD_Err (decideQueueStart f) <> None).
Proof.
  unfold decideQueueStart. split.
  - intros Hlate. rule_cases; cbn; try done; breflect; lia.
  - rule_cases; cbn; try case_if; breflect; try done; naive_solver.
Qed.

Lemma queue_start_classified_witness :
  QSD_Action (decideQueueStart
    (sample_start queueAwaitingPlay (sample_snapshot PlayStatePlay sample_first)
      <| QS_Now := 112 * Second |>)) = queueStartAbort.
Proof. apply queue_start_classified. vm_compute. discriminate. Defined.

(** The loading allowance is one-way: once Play was observed or reported,
    an observed Stop or Pause aborts the confirmation, whatever else holds, and
    an unresolved current media identifier no longer waits. *)
Theorem queue_start_one_way (f : queueStartFacts) :
  QS_Phase f = queuePlayObserved ->
  (Snap_State (QS_Observed f) = PlayStateStop \/ Snap_State (QS_Observed f) = PlayStatePause
   \/ queueLoadingMedia (QS_Before f) (QS_Observed f) (QS_Members f) = false) ->
  QSD_Action (decideQueueStart f) = queueStartAbort.
Proof.
  intros Hph Hst. unfold decideQueueStart, queue_unresolved. rewrite Hph.
  rule_cases; cbn; try done; breflect; destruct_or!; simplify_eq;
    repeat match goal with H : Snap_State _ = _ |- _ => rewrite H in * end; bsolve.
Qed.

Lemma queue_start_one_way_witness :
  QSD_Action (decideQueueStart (sample_start queuePlayObserved (sample_snapshot PlayStateStop None)))
  = queueStartAbort.
Proof. apply queue_start_one_way; [reflexivity|left; reflexivity]. Defined.
