(* ===== verification/QueueOps.v ===== *)
(** * Queue evidence ([internal/control/queue_append.go], [queue_remove.go],
    [skip.go] and the position search of [buffered_plan.go])

    The comparisons that decide what an observed native queue proves about an
    append, a removal or a skip that this program sent.  A loop over queue
    entries that tracks the queue IDs it has seen is a [distinct_scan]. *)

From S2P Require Import Prelude GoStd Values Model Diagnostics Errors Events State.

(** ** Definitions *)

(** A queue whose pages have all been read, as [Total] and [Next] report it. *)
Definition whole_queue (q : QueuePage) : bool :=
  (Queue_Total q == Some (len (Queue_Items q))) && (Queue_Next q == None).

(** Exact ordered identity includes multiplicity; queue IDs must be unique. *)
Definition orderedQueue (q : QueuePage) (ids : list ID) : bool :=
  if (len (Queue_Items q) != len ids) || (Queue_Total q != Some (len ids)) || (Queue_Next q != None)
  then false
  else distinct_scan Media_QueueID (fun i m => ids !! i == Some (Media_ID m)) ∅ 0 (Queue_Items q).

(** Entry [i] of an append's read-back is the [i]th requested track and, within
    the old queue, still the old occurrence. *)
Definition append_entry (before : list Media) (ids : list ID) (i : nat) (m : Media) : bool :=
  (ids !! i == Some (Media_ID m))
  && match before !! i with
     | Some old => (Media_QueueID m == Media_QueueID old) && (Media_ID m == Media_ID old)
     | None => true
     end.

(** [true] is a problem: a pending append may only show the unchanged queue or
    a growing exact suffix. *)
Definition appendQueueProblem (before after : QueuePage) (ids : list ID) : bool :=
  if negb (whole_queue after) || (len (Queue_Items after) <? len (Queue_Items before))
     || (len ids <? len (Queue_Items after)) then true
  else negb (distinct_scan Media_QueueID (append_entry (Queue_Items before) ids) ∅ 0 (Queue_Items after)).

(** [Some removed] is the Go pair [(removed, true)]. *)
Definition removedQueuePrefix (before after : QueuePage) (maximum : Z) : option Z :=
  let removed := len (Queue_Items before) - len (Queue_Items after) in
  if (removed <? 0) || (maximum <? removed) || negb (whole_queue after) then None
  else if distinct_scan Media_QueueID (fun i m =>
            match Queue_Items before !! (i + Z.to_nat removed)%nat with
            | Some original =>
                (Media_ID m == Media_ID original)
                && negb ((removed =? 0) && (Media_QueueID m != Media_QueueID original))
            | None => false
            end) ∅ 0 (Queue_Items after)
       then Some removed else None.

(** The first entry with the media's queue and media IDs. *)
Definition same_entry (m item : Media) : bool :=
  (Media_QueueID item == Media_QueueID m) && (Media_ID item == Media_ID m).

Fixpoint entry_index (m : Media) (i : Z) (items : list Media) : option Z :=
  match items with
  | [] => None
  | item :: rest => if same_entry m item then Some i else entry_index m (i + 1) rest
  end.

Definition queueIndex (s : Snapshot) : Z :=
  match Snap_Media s with
  | None => -1
  | Some m => default (-1) (entry_index m 0 (Queue_Items (Snap_Queue s)))
  end.

Definition completeQueuePage (q : QueuePage) : bool :=
  (Queue_Total q == Some (len (Queue_Items q))) && (0 <? len (Queue_Items q)) && (Queue_Next q == None).

Definition queueExtension (prefix full : QueuePage) : bool :=
  if negb (completeQueuePage full) || (len (Queue_Items prefix) =? 0)
     || (len (Queue_Items full) <? len (Queue_Items prefix)) then false
  else if (Queue_Total prefix != None) && (Queue_Total prefix != Queue_Total full) then false
  else Queue_Items prefix == take (length (Queue_Items prefix)) (Queue_Items full).

Definition atSkipBoundary (direction : string) (s : Snapshot) : bool :=
  if (Snap_Repeat s != RepeatOff) || ((direction != "next") && (direction != "previous")) then false
  else if len (Queue_Items (Snap_Queue s)) =? 1 then true
  else if Snap_Shuffle s then false
  else
    let index := queueIndex s in
    if index <? 0 then false
    else ((direction == "next") && (index =? len (Queue_Items (Snap_Queue s)) - 1))
         || ((direction == "previous") && (index =? 0)).

Definition skipAdmissible (ceiling : option Z) (direction : string) (s : Snapshot) : option error :=
  match ceiling, Snap_Volume s with
  | Some c, Some v =>
      if c <? v then Some (ESentinel ErrBounds)
      else if negb (PlayState_Active (Snap_State s)) || negb (completeQueuePage (Snap_Queue s))
              || negb (queuedMedia (Snap_Queue s) (Snap_Media s))
      then Some (ESentinel ErrNotSkippable)
      else if atSkipBoundary direction s then Some (ESentinel ErrNotSkippable)
      else None
  | _, _ => Some (ESentinel ErrBounds)
  end.

Definition skipConfirmed (before after : Snapshot) : bool :=
  match Snap_Media before, Snap_Media after with
  | Some mb, Some ma =>
      if negb (PlayState_Active (Snap_State after)) then false
      else if (Media_QueueID ma == "") || (Media_QueueID ma == Media_QueueID mb)
              || negb (queuedMedia (Snap_Queue before) (Snap_Media after)) then false
      else
        let expected := before <| Snap_State := Snap_State after |> <| Snap_Media := Snap_Media after |> in
        len (stateChanges expected after) =? 0
  | _, _ => false
  end.

(** The occurrence being played, by confirmed queue and media ID. *)
Definition bufferedPosition (s : Snapshot) (ids : list ID) : Result Z :=
  if (Snap_State s != PlayStatePlay) || negb (orderedQueue (Snap_Queue s) ids)
     || negb (queuedMedia (Snap_Queue s) (Snap_Media s)) then Err (ESentinel ErrOwnership)
  else match Snap_Media s with
       | None => Err (ESentinel ErrOwnership)
       | Some m => match entry_index m 0 (Queue_Items (Snap_Queue s)) with
                   | Some i => Ok i
                   | None => Err (ESentinel ErrOwnership)
                   end
       end.

(** ** Specifications *)

Lemma whole_queue_spec (q : QueuePage) :
  whole_queue q = true <-> Queue_Total q = Some (len (Queue_Items q)) /\ Queue_Next q = None.
Proof. unfold whole_queue. bgoal. done. Qed.

Lemma completeQueuePage_spec (q : QueuePage) :
  completeQueuePage q = true <-> whole_queue q = true /\ Queue_Items q <> [].
Proof.
  rewrite whole_queue_spec. unfold completeQueuePage, len. bgoal.
  destruct (Queue_Items q); cbn; naive_solver lia.
Qed.
#[export] Hint Rewrite whole_queue_spec : go_bool.

(** The queue IDs of a page tell its occurrences apart. *)
Definition distinct_queue (items : list Media) : Prop :=
  NoDup (Media_QueueID <$> items) /\ forall m, m ∈ items -> Media_QueueID m <> "".

Lemma distinct_scan_queue (ok : nat -> Media -> bool) (items : list Media) :
  distinct_scan Media_QueueID ok ∅ 0 items = true <->
  (forall k m, items !! k = Some m -> ok k m = true) /\ distinct_queue items.
Proof.
  rewrite distinct_scan_empty. unfold distinct_queue. split.
  - intros [Hall Hnd]. split_and!; [naive_solver..|].
    intros m [k Hk]%list_elem_of_lookup. naive_solver.
  - intros (Hok & Hnd & Hne). split; [|done]. intros k m Hk. split; [by eauto|].
    apply Hne. by eapply list_elem_of_lookup_2.
Qed.

Lemma len_eq {A B} (l : list A) (k : list B) : len l = len k <-> length l = length k.
Proof. unfold len. lia. Qed.

(** Pointwise agreement of two lists of the same length is equality of images. *)
Lemma fmap_pointwise {A B} (f : A -> B) (items : list A) (ids : list B) :
  (forall k m, items !! k = Some m -> ids !! k = Some (f m)) ->
  f <$> items = take (length items) ids.
Proof.
  intros H. apply list_eq. intros i. rewrite list_lookup_fmap.
  destruct (items !! i) as [m|] eqn:Hm; cbn.
  - rewrite lookup_take_lt by (by eapply lookup_lt_Some). symmetry. auto.
  - rewrite lookup_take_ge; [done|]. by apply lookup_ge_None.
Qed.

Lemma fmap_take_lookup {A B} (f : A -> B) (items : list A) (ids : list B) k m :
  f <$> items = take (length items) ids -> items !! k = Some m -> ids !! k = Some (f m).
Proof.
  intros H Hk. pose proof (f_equal (lookup k) H) as Hl.
  rewrite list_lookup_fmap, Hk, lookup_take_lt in Hl by (by eapply lookup_lt_Some). cbn in Hl. done.
Qed.

Lemma orderedQueue_spec (q : QueuePage) (ids : list ID) :
  orderedQueue q ids = true <->
  whole_queue q = true /\ Media_ID <$> Queue_Items q = ids /\ distinct_queue (Queue_Items q).
Proof.
  rewrite whole_queue_spec. unfold orderedQueue. split.
  - case_if; [done|]. breflect. intros [Hids Hd]%distinct_scan_queue.
    assert (length ids = length (Queue_Items q)) as Hl by (symmetry; by apply len_eq).
    split_and!; [congruence|done| |done]. rewrite <- (take_ge ids (length (Queue_Items q))) by lia.
    apply fmap_pointwise. intros k m Hk. apply Hids in Hk. by breflect.
  - intros ([Ht Hn] & <- & Hd). unfold len. rewrite length_fmap. fold (len (Queue_Items q)).
    case_if; bsolve. apply distinct_scan_queue. split; [|done].
    intros k m Hk. bgoal. by rewrite list_lookup_fmap, Hk.
Qed.

(** The identity of an occurrence. *)
Definition occurrence (m : Media) : ID * ID := (Media_ID m, Media_QueueID m).

Lemma appendQueueProblem_spec (before after : QueuePage) (ids : list ID) :
  appendQueueProblem before after ids = false <->
  whole_queue after = true
  /\ Media_ID <$> Queue_Items after = take (length (Queue_Items after)) ids
  /\ (length (Queue_Items after) <= length ids)%nat
  /\ distinct_queue (Queue_Items after)
  /\ (occurrence <$> Queue_Items before) `prefix_of` (occurrence <$> Queue_Items after).
Proof.
  unfold appendQueueProblem, append_entry. split.
  - case_if; [done|]. rewrite negb_false_iff, distinct_scan_queue. intros [Hok Hd]. breflect.
    unfold len in *. split_and!; [done|done| |lia|done|].
    + apply fmap_pointwise. intros k m Hk. apply Hok in Hk. by breflect.
    + exists (drop (length (Queue_Items before)) (occurrence <$> Queue_Items after)).
      rewrite <- (take_drop (length (Queue_Items before)) (occurrence <$> Queue_Items after)) at 1.
      f_equal. rewrite <- fmap_take. apply list_eq. intros i. rewrite !list_lookup_fmap.
      destruct (Queue_Items before !! i) as [b|] eqn:Hb.
      * assert (i < length (Queue_Items before))%nat by (by eapply lookup_lt_Some).
        rewrite lookup_take_lt by done.
        destruct (Queue_Items after !! i) as [m|] eqn:Hm;
          [|apply lookup_ge_None in Hm; lia].
        apply Hok in Hm. rewrite Hb in Hm. breflect. cbn. unfold occurrence. congruence.
      * apply lookup_ge_None in Hb. rewrite lookup_take_ge by done. done.
  - intros (Hw & Hids & Hl & Hd & Hpre).
    pose proof (prefix_length _ _ Hpre) as Hlen. rewrite !length_fmap in Hlen.
    rewrite Hw. unfold len. case_if; [bsolve|]. apply negb_false_iff, distinct_scan_queue.
    split; [|done]. intros k m Hk. bgoal. split; [by eapply fmap_take_lookup|].
    destruct (Queue_Items before !! k) as [b|] eqn:Hb; [|done].
    assert ((occurrence <$> Queue_Items after) !! k = Some (occurrence b)) as Hp.
    { eapply prefix_lookup_Some; [|done]. by rewrite list_lookup_fmap, Hb. }
    rewrite list_lookup_fmap, Hk in Hp. cbn in Hp. unfold occurrence in Hp. bgoal. naive_solver.
Qed.

Lemma removedQueuePrefix_spec (before after : QueuePage) (maximum n : Z) :
  removedQueuePrefix before after maximum = Some n <->
  0 <= n <= maximum /\ n = len (Queue_Items before) - len (Queue_Items after)
  /\ whole_queue after = true
  /\ Media_ID <$> Queue_Items after = Media_ID <$> drop (Z.to_nat n) (Queue_Items before)
  /\ distinct_queue (Queue_Items after)
  /\ (n = 0 -> Media_QueueID <$> Queue_Items after = Media_QueueID <$> Queue_Items before).
Proof.
  set (A := Queue_Items after). set (B := Queue_Items before).
  unfold removedQueuePrefix. fold A B. cbv zeta. split.
  - case_if; [done|]. case_if; [|done]. intros [= <-].
    match goal with H : distinct_scan _ _ _ _ _ = true |- _ => apply distinct_scan_queue in H as [Hok Hd] end.
    breflect. unfold len in *. set (r := Z.to_nat (Z.of_nat (length B) - Z.of_nat (length A))) in *.
    assert (length B - r = length A)%nat as Hl by lia.
    split_and!; [lia..|done|done| |done|].
    + rewrite fmap_drop. rewrite <- (take_ge (drop r _) (length A)) by (rewrite length_drop, length_fmap; lia).
      apply fmap_pointwise. intros k m Hk. rewrite lookup_drop, list_lookup_fmap.
      apply Hok in Hk. rewrite Nat.add_comm. destruct (B !! (k + r)%nat); [|done]. breflect. cbn. congruence.
    + intros Hz. rewrite <- (take_ge (Media_QueueID <$> B) (length A)) by (rewrite length_fmap; lia).
      apply fmap_pointwise. intros k m Hk. rewrite list_lookup_fmap. apply Hok in Hk.
      replace (k + r)%nat with k in Hk by lia. destruct (B !! k); [|done]. breflect. cbn. f_equal.
      destruct_or?; [lia|congruence].
  - intros (Hr & Hn & Hw & Hids & Hd & Hq). rewrite <- Hn, Hw.
    case_if; [bsolve|]. rewrite (proj2 (distinct_scan_queue _ _)); [done|]. split; [|done].
    intros k m Hk. pose proof (f_equal (lookup k) Hids) as Hki.
    rewrite !list_lookup_fmap, lookup_drop, Hk in Hki. cbn in Hki. rewrite Nat.add_comm in Hki.
    destruct (B !! (k + Z.to_nat n)%nat) as [b|] eqn:Hb; [|done]. cbn in Hki.
    bgoal. split; [congruence|]. destruct (decide (n = 0)) as [->|]; [right|by left].
    specialize (Hq eq_refl). apply (f_equal (lookup k)) in Hq. rewrite Nat.add_0_r in Hb.
    rewrite !list_lookup_fmap, Hk, Hb in Hq. cbn in Hq. congruence.
Qed.

Lemma same_entry_spec (m item : Media) : same_entry m item = true <-> occurrence item = occurrence m.
Proof. unfold same_entry, occurrence. bgoal. split; [intros [-> ->]|intros [= -> ->]]; done. Qed.
#[export] Hint Rewrite same_entry_spec : go_bool.

Lemma entry_index_some (m : Media) (items : list Media) : forall i k,
  entry_index m i items = Some k <->
  exists j item, k = i + Z.of_nat j /\ items !! j = Some item /\ occurrence item = occurrence m
    /\ forall j' y, (j' < j)%nat -> items !! j' = Some y -> occurrence y <> occurrence m.
Proof.
  induction items as [|x rest IH]; intros i k; cbn [entry_index].
  { split; [done|]. intros (j & item & _ & Hj & _). by rewrite lookup_nil in Hj. }
  case_if; breflect.
  - split.
    + intros [= <-]. exists 0%nat, x. split_and!; [lia|done|done|lia].
    + intros ([|j] & item & -> & Hj & _ & Hfirst); [by rewrite Z.add_0_r|].
      destruct (Hfirst 0%nat x); [lia|done..].
  - assert (occurrence x <> occurrence m) as Hne by (by rewrite <- same_entry_spec, not_true_iff).
    rewrite IH. split; intros (j & item & -> & Hj & Ho & Hfirst).
    + exists (S j), item. split_and!; [lia|done|done|]. intros [|j'] y Hlt; cbn; [by intros [= <-]|].
      apply Hfirst. lia.
    + destruct j as [|j]; [cbn in Hj; congruence|]. exists j, item. split_and!; [lia|done|done|].
      intros j' y Hlt. apply (Hfirst (S j') y). lia.
Qed.

Lemma distinct_queue_index (items : list Media) j j' x y :
  distinct_queue items -> items !! j = Some x -> items !! j' = Some y ->
  Media_QueueID x = Media_QueueID y -> j = j'.
Proof.
  intros [Hnd _] Hx Hy Hq. eapply NoDup_lookup; [done|by rewrite list_lookup_fmap, Hx|].
  rewrite list_lookup_fmap, Hy. cbn. by rewrite Hq.
Qed.

(** In a queue with distinct queue IDs the search finds the only match. *)
Lemma entry_index_unique (m item : Media) (items : list Media) j :
  distinct_queue items -> items !! j = Some item -> occurrence item = occurrence m ->
  entry_index m 0 items = Some (Z.of_nat j).
Proof.
  intros Hd Hj Ho. apply entry_index_some. exists j, item. split_and!; [lia|done|done|].
  intros j' y Hlt Hy Hoy. assert (j' = j); [|lia].
  eapply distinct_queue_index; [done..|]. unfold occurrence in *. congruence.
Qed.

Lemma queuedMedia_index (q : QueuePage) (m : Media) :
  queuedMedia q (Some m) = true -> exists i, entry_index m 0 (Queue_Items q) = Some i.
Proof.
  intros (x & item & [= <-] & _ & _ & _ & Hin & Hq & Hid)%queuedMedia_spec.
  destruct (entry_index m 0 (Queue_Items q)) as [i|] eqn:He; [by exists i|exfalso].
  apply list_elem_of_lookup in Hin as [j Hj]. revert He. generalize 0 as i. revert j Hj.
  induction (Queue_Items q) as [|y rest IH]; intros j Hj i; [by rewrite lookup_nil in Hj|].
  cbn [entry_index]. case_if; [done|]. destruct j as [|j]; [|by apply (IH j)].
  cbn in Hj. simplify_eq. intros _.
  match goal with H : same_entry _ _ = false |- _ => apply not_true_iff in H; apply H end.
  apply same_entry_spec. unfold occurrence. congruence.
Qed.

(** [bufferedPosition] answers exactly the index of the confirmed occurrence. *)
Lemma bufferedPosition_ok (s : Snapshot) (ids : list ID) (i : Z) :
  bufferedPosition s ids = Ok i <->
  Snap_State s = PlayStatePlay /\ orderedQueue (Snap_Queue s) ids = true
  /\ exists j m item, i = Z.of_nat j /\ Snap_Media s = Some m /\ queuedMedia (Snap_Queue s) (Some m) = true
      /\ Queue_Items (Snap_Queue s) !! j = Some item /\ occurrence item = occurrence m.
Proof.
  unfold bufferedPosition. split.
  - case_if; [done|]. breflect. destruct (Snap_Media s) as [m|] eqn:Hm; [|done].
    destruct (entry_index m 0 _) as [k|] eqn:Hk; [|done]. intros [= <-].
    apply entry_index_some in Hk as (j & item & -> & Hj & Ho & _).
    split_and!; [done..|]. by exists j, m, item.
  - intros (Hs & Ho & j & m & item & -> & Hm & Hq & Hj & Heq). rewrite Hs, Hm, Ho, Hq. cbn.
    apply orderedQueue_spec in Ho as (_ & _ & Hd). by rewrite (entry_index_unique m item _ j).
Qed.

Lemma bufferedPosition_bounds (s : Snapshot) (ids : list ID) (i : Z) :
  bufferedPosition s ids = Ok i -> 0 <= i < len ids /\ len (Queue_Items (Snap_Queue s)) = len ids.
Proof.
  intros (_ & (_ & <- & _)%orderedQueue_spec & j & m & item & -> & _ & _ & Hj%lookup_lt_Some & _)%bufferedPosition_ok.
  unfold len. rewrite length_fmap. lia.
Qed.

Lemma skipAdmissible_none (ceiling : option Z) (direction : string) (s : Snapshot) :
  skipAdmissible ceiling direction s = None <->
  (exists c v, ceiling = Some c /\ Snap_Volume s = Some v /\ v <= c)
  /\ PlayState_Active (Snap_State s) = true /\ completeQueuePage (Snap_Queue s) = true
  /\ queuedMedia (Snap_Queue s) (Snap_Media s) = true /\ atSkipBoundary direction s = false.
Proof.
  unfold skipAdmissible. destruct ceiling as [c|], (Snap_Volume s) as [v|];
    try (split; [done|]; naive_solver).
  repeat case_if; breflect; (split; [try done|]); try (intros _; split_and!; [by exists c, v|done..]);
    intros [(c' & v' & [= <-] & [= <-] & Hle) Hrest]; destruct_and?; bsolve.
Qed.

(** ** Properties *)

(** Append evidence is exact: when a queue confirmed to hold [ids] is
    followed by a pending append read-back without a problem that also holds
    the whole requested sequence [ids ++ new], every old occurrence (media and
    queue ID) is still in its place, the new entries are exactly the tracks of
    the appended part in order, and none of them reuses a queue ID of an old
    entry. *)
Theorem append_exact_suffix (before after : QueuePage) (ids new : list ID) :
  orderedQueue before ids = true ->
  appendQueueProblem before after (ids ++ new) = false ->
  orderedQueue after (ids ++ new) = true ->
  exists added,
    occurrence <$> Queue_Items after = (occurrence <$> Queue_Items before) ++ (occurrence <$> added)
    /\ Media_ID <$> added = new
    /\ (forall m, m ∈ added -> Media_QueueID m ∉ Media_QueueID <$> Queue_Items before).
Proof.
  intros (_ & <- & _)%orderedQueue_spec (_ & _ & _ & _ & [k Hk])%appendQueueProblem_spec
    (_ & Hids & [Hnd _])%orderedQueue_spec.
  apply fmap_app_inv in Hk as (old & added & Hold & Hadd & Hitems).
  exists added. rewrite Hitems in Hids, Hnd |- *. rewrite !fmap_app in *. rewrite Hold, <- Hadd.
  assert (Media_ID <$> old = Media_ID <$> Queue_Items before) as Hmid.
  { apply (f_equal (fmap fst)) in Hold. by rewrite <- !list_fmap_compose in Hold. }
  assert (Media_QueueID <$> old = Media_QueueID <$> Queue_Items before) as Hqid.
  { apply (f_equal (fmap snd)) in Hold. by rewrite <- !list_fmap_compose in Hold. }
  split_and!; [done|by rewrite Hmid in Hids; apply app_inv_head in Hids|].
  intros m Hm Hin. rewrite <- Hqid in Hin. apply NoDup_app in Hnd as (_ & Hdisj & _).
  apply (Hdisj _ Hin). by apply list_elem_of_fmap_2.
Qed.

Definition sample_longer : QueuePage :=
  sample_queue <| Queue_Items := sample_items ++ [sample_track "c" "4"] |> <| Queue_Total := Some 4 |>.

Lemma append_exact_suffix_witness :
  exists added, occurrence <$> Queue_Items sample_longer
    = (occurrence <$> sample_items) ++ (occurrence <$> added) /\ Media_ID <$> added = ["c"].
Proof.
  destruct (append_exact_suffix sample_queue sample_longer ["a"; "b"; "a"] ["c"])
    as (added & H & Hn & _); [vm_compute; reflexivity..|]. exists added. split; [exact H|exact Hn].
Defined.

(** Pruning keeps the listener's place: when a queue confirmed to hold
    [ids] loses a prefix of [n] entries and the occurrence being played lies
    behind that prefix, the rest is confirmed as [drop n ids] in its original
    order, and a player reporting the entry at the shifted index is located
    [n] positions earlier on the same track. *)
Theorem prune_keeps_position (before after : Snapshot) (ids : list ID) (maximum n i : Z) (item : Media) :
  bufferedPosition before ids = Ok i ->
  removedQueuePrefix (Snap_Queue before) (Snap_Queue after) maximum = Some n ->
  Queue_Items (Snap_Queue after) !! Z.to_nat (i - n) = Some item -> n <= i ->
  Snap_State after = PlayStatePlay -> Media_Source item = LocalMusic -> Media_ID item <> "" ->
  Snap_Media after = Some item ->
  orderedQueue (Snap_Queue after) (drop (Z.to_nat n) ids) = true
  /\ bufferedPosition after (drop (Z.to_nat n) ids) = Ok (i - n)
  /\ (Media_ID <$> Snap_Media after = Media_ID <$> Snap_Media before).
Proof.
  intros (_ & Hids & j & m & b & -> & Hm & _ & Hb & Ho)%bufferedPosition_ok
    (Hn & _ & Hw & Hmids & Hd & _)%removedQueuePrefix_spec Hitem Hle Hplay Hsrc Hid Hmedia.
  apply orderedQueue_spec in Hids as (_ & <- & _).
  assert (orderedQueue (Snap_Queue after) (drop (Z.to_nat n) (Media_ID <$> Queue_Items (Snap_Queue before))) = true)
    as Hord by (apply orderedQueue_spec; by rewrite <- fmap_drop).
  split_and!; [done| |].
  - apply bufferedPosition_ok. split_and!; [done..|]. exists (Z.to_nat (Z.of_nat j - n)), item, item.
    split_and!; [lia|done| |done|done]. apply queuedMedia_spec. exists item, item.
    split_and!; [done..| |by eapply list_elem_of_lookup_2|done|done].
    apply Hd. by eapply list_elem_of_lookup_2.
  - apply (f_equal (lookup (Z.to_nat (Z.of_nat j - n)))) in Hmids.
    rewrite !list_lookup_fmap, lookup_drop, Hitem in Hmids.
    replace (Z.to_nat n + Z.to_nat (Z.of_nat j - n))%nat with j in Hmids by lia.
    rewrite Hb in Hmids. rewrite Hm, Hmedia. unfold occurrence in Ho. cbn in *. congruence.
Qed.

Definition sample_pruned : QueuePage := {|
  Queue_Items := [sample_track "b" "1"; sample_track "a" "2"]; Queue_Total := Some 2;
  Queue_Next := None; Queue_Token := Token_zero |}.

Lemma prune_keeps_position_witness :
  bufferedPosition (sample_snapshot PlayStatePlay sample_second) ["a"; "b"; "a"] = Ok 1
  /\ bufferedPosition (sample_snapshot PlayStatePlay (Some (sample_track "b" "1"))
       <| Snap_Queue := sample_pruned |>) ["b"; "a"] = Ok 0.
Proof.
  split; [vm_compute; reflexivity|].
  apply (prune_keeps_position (sample_snapshot PlayStatePlay sample_second)
    (sample_snapshot PlayStatePlay (Some (sample_track "b" "1")) <| Snap_Queue := sample_pruned |>)
    ["a"; "b"; "a"] 2 1 1 (sample_track "b" "1")); (vm_compute; (reflexivity || discriminate)).
Defined.

(** A confirmed skip really moved inside the owned queue: an admissible
    skip that is confirmed leaves every control and the queue unchanged, keeps
    the player playing or paused, and ends on a different index of that same
    complete queue. *)
Theorem skip_confirms_move (ceiling : option Z) (direction : string) (before after : Snapshot) :
  skipAdmissible ceiling direction before = None ->
  skipConfirmed before after = true ->
  same_controls (before <| Snap_State := Snap_State after |> <| Snap_Media := Snap_Media after |>) after
  /\ PlayState_Active (Snap_State before) = true /\ PlayState_Active (Snap_State after) = true
  /\ 0 <= queueIndex before < len (Queue_Items (Snap_Queue before))
  /\ 0 <= queueIndex after < len (Queue_Items (Snap_Queue after))
  /\ queueIndex after <> queueIndex before.
Proof.
  intros (_ & Hact & _ & Hq & _)%skipAdmissible_none Hc. unfold skipConfirmed in Hc.
  destruct (Snap_Media before) as [mb|] eqn:Hmb; [|done].
  destruct (Snap_Media after) as [ma|] eqn:Hma; [|done].
  case_if; [done|]. case_if; [done|]. breflect.
  match goal with H : len (stateChanges ?x ?y) = 0 |- _ =>
    assert (same_controls x y) as Hsame by (apply sameState_spec; unfold sameState; bgoal; exact H) end.
  assert (Queue_Items (Snap_Queue after) = Queue_Items (Snap_Queue before)) as Hitems
    by (symmetry; apply (same_items _ _ Hsame)).
  destruct (queuedMedia_index (Snap_Queue before) mb) as [i Hi]; [done|].
  destruct (queuedMedia_index (Snap_Queue before) ma) as [k Hk]; [done|].
  unfold queueIndex. rewrite Hmb, Hma, Hitems, Hi, Hk. cbn [default from_option id].
  apply entry_index_some in Hi as (j & b & -> & Hj & Ho & _).
  apply entry_index_some in Hk as (j' & b' & -> & Hj' & Ho' & _).
  pose proof (lookup_lt_Some _ _ _ Hj). pose proof (lookup_lt_Some _ _ _ Hj').
  unfold len. split_and!; [done..|lia|lia|lia|lia|].
  intros Heq. assert (j' = j) as -> by lia. unfold occurrence in *. congruence.
Qed.

Lemma skip_confirms_move_witness :
  queueIndex (sample_snapshot PlayStatePlay sample_second)
    <> queueIndex (sample_snapshot PlayStatePlay sample_first).
Proof.
  apply (skip_confirms_move (Some 40) "next" (sample_snapshot PlayStatePlay sample_first)
    (sample_snapshot PlayStatePlay sample_second)); vm_compute; reflexivity.
Defined.
