(* ===== verification/Evidence.v ===== *)
(** * Evidence of a decision ([internal/control/completion_diagnostics.go])

    Which cause of an ended operation is reported, and the bounded evidence
    that is captured when a decision is made, before later cleanup I/O. *)

From S2P Require Import Prelude GoStd Values Model Diagnostics Errors Events State.

(** [context.Cause(ctx)] is an argument: [None] while the context is live. *)
Definition completionCause (cause err : option error) : option error :=
  match err with
  | None => None
  | Some e =>
      if is_transition_timeout e then err
      else match cause with
           | Some c => if is_some (as_ownership c) then cause else err
           | None => err
           end
  end.

Definition scalarChanged {T} `{EqDecision T} (expected observed : option T) : bool :=
  match expected, observed with
  | Some a, Some b => a != b
  | _, _ => false
  end.

Definition scalarChanges (expected observed : DiagnosticScalars) : list string :=
  changed_names [
    ("state", scalarChanged (DS_State expected) (DS_State observed));
    ("volume", scalarChanged (DS_Volume expected) (DS_Volume observed));
    ("mute", scalarChanged (DS_Muted expected) (DS_Muted observed));
    ("repeat", scalarChanged (DS_Repeat expected) (DS_Repeat observed));
    ("shuffle", scalarChanged (DS_Shuffle expected) (DS_Shuffle observed))].

(** Events contain partial evidence: absent fields stay absent. *)
Definition eventScalars (e : Event) : option DiagnosticScalars * list string :=
  let data := Event_Data e in
  let '(v, fields) :=
    match ED_Kind data with
    | EventState =>
        if ED_State data != PlayStateAbsent
        then (DiagnosticScalars_zero <| DS_State := Some (PlayState_string (ED_State data)) |>, ["state"])
        else (DiagnosticScalars_zero, [])
    | EventVolume =>
        (DiagnosticScalars_zero <| DS_Volume := if ED_HasVolume data then Some (ED_Volume data) else None |>
                                <| DS_Muted := if ED_HasMute data then Some (ED_Muted data) else None |>,
         (if ED_HasVolume data then ["volume"] else []) ++ (if ED_HasMute data then ["mute"] else []))
    | EventRepeat =>
        if ED_Repeat data != RepeatAbsent
        then (DiagnosticScalars_zero <| DS_Repeat := Some (Repeat_string (ED_Repeat data)) |>, ["repeat"])
        else (DiagnosticScalars_zero, [])
    | EventShuffle =>
        if ED_HasShuffle data
        then (DiagnosticScalars_zero <| DS_Shuffle := Some (ED_Shuffle data) |>, ["shuffle"])
        else (DiagnosticScalars_zero, [])
    | EventQueue => (DiagnosticScalars_zero, ["queue_items"])
    | EventGroups => (DiagnosticScalars_zero, ["grouped"])
    | _ => (DiagnosticScalars_zero, [])
    end in
  if (DS_State v == None) && (DS_Volume v == None) && (DS_Muted v == None) && (DS_Repeat v == None)
     && (DS_Shuffle v == None)
  then (None, fields) else (Some v, fields).

Definition evidenceFor (err : option error) : Diagnostics :=
  let controller := Diagnostics_zero <| Diag_Source := "controller" |> in
  match err with
  | None => controller
  | Some e =>
      match as_diagnostic e with
      | Some evidence => evidence
      | None =>
          match as_ownership e with
          | Some ownership =>
              let d := Own_evidence ownership <| Diag_Reason := Own_reason ownership |> in
              if Diag_Source d == "" then d <| Diag_Source := "observation" |> else d
          | None => controller
          end
      end
  end.

(** [captureDecision], with the execution's [phase]. *)
Definition captureDecision (phase : string) (err : option error) (rule : string) (at_ : Time) : option error :=
  match err with
  | None => None
  | Some e =>
      let d := evidenceFor err in
      if is_some (Diag_DetectedAt d) then err
      else Some (EDiagnostic e (d <| Diag_Phase := phase |> <| Diag_DetectedAt := Some at_ |>
                                  <| Diag_Rule := Some rule |>))
  end.

(** [completionDiagnostics]: [phase] is the journalled phase of [r.op]. *)
Definition completionDiagnostics (cause err : option error) (code : string) (unconfirmed : bool)
    (phase : string) (now : Time) : Diagnostics :=
  let selected := completionCause cause err in
  let d := evidenceFor selected in
  let d :=
    if Diag_Reason d == "" then
      d <| Diag_Reason :=
        match err with
        | None => "completed"
        | Some e =>
            match (match selected with Some s => as_device s | None => None end) with
            | Some device => DeviceError_Reason device
            | None =>
                if (code == "device_unavailable") && errors_is DeadlineExceeded e
                then if unconfirmed then "confirmation_timeout" else "command_timeout"
                else if code != "" then code else "device_unavailable"
            end
        end |>
    else d in
  if is_some (Diag_DetectedAt d) then d
  else d <| Diag_DetectedAt := Some now |> <| Diag_Phase := phase |>.

(** ** Facts *)

Lemma captureDecision_is (phase : string) (err : error) (rule : string) (at_ : Time) (target : Sentinel) :
  match captureDecision phase (Some err) rule at_ with
  | Some e => errors_is target e = errors_is target err
  | None => False
  end.
Proof. unfold captureDecision. by case_if. Qed.

(** Capturing twice keeps the evidence of the first decision. *)
Lemma captureDecision_idempotent (phase phase' : string) (err : option error) (rule rule' : string) (t t' : Time) :
  captureDecision phase' (captureDecision phase err rule t) rule' t' = captureDecision phase err rule t.
Proof.
  destruct err as [e|]; [|done]. cbn [captureDecision]. case_if.
  - cbn [captureDecision]. by rewrite Heqb.
  - done.
Qed.
