(* ===== verification/Command.v ===== *)
(** * Commands and their validation ([internal/control/coordinator.go],
    [automation.go], [buffered_plan.go], [playback_plan.go], [expected_owner.go])

    The validated policy input of the coordinator: the command, the bounded
    envelope and the buffered manifest, and every check that admission applies
    to them before anything is resolved.  A returned Go error is [Some e]. *)

From S2P Require Import Prelude GoStd Values Model Diagnostics Errors.

Inductive CommandKind :=
  | CommandKindAbsent | CommandKindVolume | CommandKindMute | CommandKindTransport
  | CommandKindSkip | CommandKindPlayback | CommandKindStop | CommandKindCancel.
#[export] Instance CommandKind_eq_dec : EqDecision CommandKind.
Proof. solve_decision. Defined.

Definition CommandKind_string (k : CommandKind) : string :=
  match k with
  | CommandKindAbsent => "" | CommandKindVolume => "volume" | CommandKindMute => "mute"
  | CommandKindTransport => "transport" | CommandKindSkip => "skip"
  | CommandKindPlayback => "playback" | CommandKindStop => "stop" | CommandKindCancel => "cancel"
  end.

Record Automation := {
  Auto_TargetLevel : Z;
  Auto_RampSeconds : Z;
  Auto_DurationSeconds : Z;
  Auto_FadeSeconds : Z
}.

Record BufferedPlayback := {
  Buf_PartTracks : list Z;
  Buf_RefillThreshold : Z;
  Buf_MaxQueueTracks : Z;
  Buf_RetainPrevious : Z;
  Buf_MaxSessionSeconds : Z
}.

(** A nil [ItemRefs] is [None]; an empty JSON array is [Some []]. *)
Record Command := {
  Cmd_Kind : CommandKind;
  Cmd_Level : Z;
  Cmd_Muted : bool;
  Cmd_State : PlayState;
  Cmd_Direction : string;
  Cmd_Takeover : bool;
  Cmd_ExpectedOwner : string;
  Cmd_ItemRef : string;
  Cmd_ItemRefs : option (list string);
  Cmd_Shuffle : bool;
  Cmd_Repeat : Repeat;
  Cmd_Mode : string;
  Cmd_FadeSeconds : Z;
  Cmd_Target : string;
  Cmd_Automation : option Automation;
  Cmd_Buffered : option BufferedPlayback
}.
#[export] Instance Command_eta : Eta Command := fun c =>
  {| Cmd_Kind := Cmd_Kind c; Cmd_Level := Cmd_Level c; Cmd_Muted := Cmd_Muted c; Cmd_State := Cmd_State c;
     Cmd_Direction := Cmd_Direction c; Cmd_Takeover := Cmd_Takeover c;
     Cmd_ExpectedOwner := Cmd_ExpectedOwner c; Cmd_ItemRef := Cmd_ItemRef c;
     Cmd_ItemRefs := Cmd_ItemRefs c; Cmd_Shuffle := Cmd_Shuffle c; Cmd_Repeat := Cmd_Repeat c;
     Cmd_Mode := Cmd_Mode c; Cmd_FadeSeconds := Cmd_FadeSeconds c; Cmd_Target := Cmd_Target c;
     Cmd_Automation := Cmd_Automation c; Cmd_Buffered := Cmd_Buffered c |}.
Definition Command_zero : Command := {|
  Cmd_Kind := CommandKindAbsent; Cmd_Level := 0; Cmd_Muted := false; Cmd_State := PlayStateAbsent;
  Cmd_Direction := ""; Cmd_Takeover := false; Cmd_ExpectedOwner := ""; Cmd_ItemRef := "";
  Cmd_ItemRefs := None; Cmd_Shuffle := false; Cmd_Repeat := RepeatAbsent; Cmd_Mode := "";
  Cmd_FadeSeconds := 0; Cmd_Target := ""; Cmd_Automation := None; Cmd_Buffered := None |}.

Definition MaxBrowsePages : Z := 100.
Definition MaxBrowseItems : Z := 10000.
Definition maxPlaybackParts : Z := 32.
Definition maxBufferedParts : Z := 256.

(** The plain shape of most checks: an error when the condition holds. *)
Definition reject_if (bad : bool) (e : Sentinel) : option error :=
  if bad then Some (ESentinel e) else None.

Lemma reject_if_none (bad : bool) (e : Sentinel) : reject_if bad e = None <-> bad = false.
Proof. by destruct bad. Qed.
#[export] Hint Rewrite reject_if_none : go_bool.

Definition Automation_validate (a : Automation) (cmd : Command) (ceiling : option Z) : option error :=
  reject_if
    ((Cmd_Kind cmd != CommandKindPlayback) || (Cmd_Repeat cmd != RepeatOff)
     || match ceiling with
        | None => true
        | Some c => (Auto_TargetLevel a <? Cmd_Level cmd) || (c <? Auto_TargetLevel a)
        end
     || (100 <? Auto_TargetLevel a)
     || (Auto_DurationSeconds a <? 1) || (7200 <? Auto_DurationSeconds a)
     || (Auto_FadeSeconds a <? 0) || (60 <? Auto_FadeSeconds a)
     || (Auto_DurationSeconds a <=? Auto_FadeSeconds a)
     || (Auto_RampSeconds a <? 0)
     || (Auto_DurationSeconds a - Auto_FadeSeconds a <? Auto_RampSeconds a))
    ErrBounds.

(** The loop over [PartTracks] with its running total. *)
Fixpoint validate_parts (limit total : Z) (tracks : list Z) : bool :=
  match tracks with
  | [] => true
  | n :: rest =>
      if (n <? 1) || (limit <? n) then false
      else if MaxBrowseItems <? total + n then false
      else validate_parts limit (total + n) rest
  end.

Definition BufferedPlayback_validate (b : BufferedPlayback) (cmd : Command) : option error :=
  if (Cmd_Kind cmd != CommandKindPlayback) || (Cmd_ItemRefs cmd == None)
     || (Cmd_Repeat cmd != RepeatOff) || Cmd_Shuffle cmd
     || (len (Buf_PartTracks b) != len (default [] (Cmd_ItemRefs cmd)))
     || (Buf_RefillThreshold b <? 1) || (100 <? Buf_RefillThreshold b)
     || (Buf_MaxQueueTracks b <? 2) || (1000 <? Buf_MaxQueueTracks b)
     || (Buf_RetainPrevious b <? 0) || (100 <? Buf_RetainPrevious b)
     || (Buf_MaxSessionSeconds b <? 1) || (86400 <? Buf_MaxSessionSeconds b)
  then Some (ESentinel ErrBounds)
  else if match Cmd_Automation cmd with
          | Some a => Buf_MaxSessionSeconds b <? Auto_DurationSeconds a
          | None => false
          end then Some (ESentinel ErrBounds)
  else reject_if (negb (validate_parts
         (Buf_MaxQueueTracks b - Buf_RefillThreshold b - Buf_RetainPrevious b - 1) 0 (Buf_PartTracks b)))
         ErrBounds.

Definition validateExpectedOwner (cmd : Command) : option error :=
  if Cmd_ExpectedOwner cmd == "" then None
  else if negb (Cmd_Takeover cmd) || (128 <? slen (Cmd_ExpectedOwner cmd)) then Some (ESentinel ErrBounds)
  else match Cmd_Kind cmd with
       | CommandKindPlayback | CommandKindVolume | CommandKindMute | CommandKindTransport => None
       | _ => Some (ESentinel ErrBounds)
       end.

Definition validatePlaybackSelection (cmd : Command) : option error :=
  if negb (Repeat_Known (Cmd_Repeat cmd))
     || Bool.eqb (Cmd_ItemRef cmd != "") (is_some (Cmd_ItemRefs cmd))
     || (256 <? slen (Cmd_ItemRef cmd))
  then Some (ESentinel ErrBounds)
  else match Cmd_ItemRefs cmd with
       | None => reject_if (is_some (Cmd_Buffered cmd)) ErrBounds
       | Some refs =>
           let invalid := match Cmd_Buffered cmd with
                          | Some b => BufferedPlayback_validate b cmd
                          | None => None
                          end in
           match invalid with
           | Some e => Some e
           | None =>
               let limit := if is_some (Cmd_Buffered cmd) then maxBufferedParts else maxPlaybackParts in
               if (len refs =? 0) || (limit <? len refs) || Cmd_Shuffle cmd then Some (ESentinel ErrBounds)
               else reject_if (existsb (fun ref => (slen ref =? 0) || (256 <? slen ref)) refs) ErrBounds
           end
       end.

(** The command checks of [Submit] that need neither the device nor the journal. *)
Definition submit_bounds (cmd : Command) (ceiling : option Z) : option error :=
  if (Cmd_FadeSeconds cmd <? 0) || (60 <? Cmd_FadeSeconds cmd)
     || (Cmd_Level cmd <? 0) || (100 <? Cmd_Level cmd)
     || ((Cmd_Kind cmd == CommandKindSkip) && (Cmd_Direction cmd != "next") && (Cmd_Direction cmd != "previous"))
     || (is_some (Cmd_Buffered cmd) && (Cmd_Kind cmd != CommandKindPlayback))
     || is_some (validateExpectedOwner cmd)
  then Some (ESentinel ErrBounds)
  else match Cmd_Automation cmd with
       | Some a => Automation_validate a cmd ceiling
       | None => None
       end.

(** ** Playback plans *)

(** [Part_IDs = None] is a nil slice: content that has not been prepared yet. *)
Record playbackPart := {
  Part_Item : Item;
  Part_IDs : option (list ID);
  Part_Count : Z;
  Part_CatalogToken : Token
}.
#[export] Instance playbackPart_eta : Eta playbackPart := fun p =>
  {| Part_Item := Part_Item p; Part_IDs := Part_IDs p; Part_Count := Part_Count p;
     Part_CatalogToken := Part_CatalogToken p |}.

Definition part_ids (p : playbackPart) : list ID := default [] (Part_IDs p).

Definition trackCount (p : playbackPart) : Z :=
  if 0 <? Part_Count p then Part_Count p else len (part_ids p).

Definition sameCatalog (a b : Token) : bool :=
  (Token_Generation a == Token_Generation b) && (Token_Catalog a == Token_Catalog b).

Definition idMembership (ids : list ID) : gset ID := list_to_set ids.


(** ** What the checks establish *)

Lemma Automation_validate_none (a : Automation) (cmd : Command) (ceiling : option Z) :
  Automation_validate a cmd ceiling = None ->
  Cmd_Kind cmd = CommandKindPlayback /\ Cmd_Repeat cmd = RepeatOff
  /\ (exists c, ceiling = Some c /\ Cmd_Level cmd <= Auto_TargetLevel a <= c)
  /\ Auto_TargetLevel a <= 100 /\ 1 <= Auto_DurationSeconds a <= 7200
  /\ 0 <= Auto_FadeSeconds a <= 60 /\ Auto_FadeSeconds a < Auto_DurationSeconds a
  /\ 0 <= Auto_RampSeconds a <= Auto_DurationSeconds a - Auto_FadeSeconds a.
Proof.
  unfold Automation_validate. intros H. breflect. destruct ceiling as [c|]; [|done]. breflect.
  split_and!; try done; try lia. exists c. split; [done|lia].
Qed.

Lemma validate_parts_spec (limit : Z) (tracks : list Z) : forall total,
  validate_parts limit total tracks = true ->
  Forall (fun n => 1 <= n <= limit) tracks /\ total + foldr Z.add 0 tracks <= Z.max total MaxBrowseItems.
Proof.
  induction tracks as [|n rest IH]; intros total; cbn.
  { intros _. split; [constructor|lia]. }
  case_if; [done|]. case_if; [done|]. intros [Hf Ht]%IH. breflect. split; [by constructor; [lia|]|lia].
Qed.

Lemma BufferedPlayback_validate_none (b : BufferedPlayback) (cmd : Command) :
  BufferedPlayback_validate b cmd = None ->
  1 <= Buf_RefillThreshold b <= 100 /\ 2 <= Buf_MaxQueueTracks b <= 1000
  /\ 0 <= Buf_RetainPrevious b <= 100 /\ 1 <= Buf_MaxSessionSeconds b <= 86400
  /\ (exists refs, Cmd_ItemRefs cmd = Some refs /\ length (Buf_PartTracks b) = length refs)
  /\ Forall (fun n => 1 <= n <= Buf_MaxQueueTracks b - Buf_RefillThreshold b - Buf_RetainPrevious b - 1)
       (Buf_PartTracks b)
  /\ foldr Z.add 0 (Buf_PartTracks b) <= MaxBrowseItems.
Proof.
  unfold BufferedPlayback_validate. case_if; [done|]. case_if; [done|]. breflect.
  destruct (Cmd_ItemRefs cmd) as [refs|]; [|done]. cbn in *.
  intros [Hf Ht]%validate_parts_spec. unfold len, MaxBrowseItems in *.
  split_and!; try lia; [|done]. exists refs. split; [done|lia].
Qed.
