(* ===== verification/Json.v ===== *)
(** * JSON objects ([internal/journal/operation.go])

    The decoder of the standard library yields a stream of tokens; [readJSON]
    builds a value from it, refusing duplicate keys, NUL bytes and more than 32
    levels.  Marshalling a Go map sorts its keys, so the canonical form of a
    value has every object sorted. *)

From S2P Require Import Prelude GoStd.

(** ** Values and tokens *)

Inductive json :=
  | JNull
  | JBool (b : bool)
  | JNumber (lexeme : string)
  | JString (s : string)
  | JArray (items : list json)
  | JObject (fields : list (string * json)).

Inductive token :=
  | TOpenObject | TCloseObject | TOpenArray | TCloseArray
  | TNull
  | TBool (b : bool)
  | TNumber (lexeme : string)
  | TString (s : string).

Definition has_nul (s : string) : bool := contains_byte 0 s.

(** [d.More()]: the next token does not close the current value. *)
Definition more (tokens : list token) : bool :=
  match tokens with
  | [] | TCloseObject :: _ | TCloseArray :: _ => false
  | _ => true
  end.

(** One step of each loop; [fuel] bounds the number of calls. *)
Fixpoint readJSON (fuel : nat) (depth : Z) (tokens : list token) : option (json * list token) :=
  match fuel with
  | O => None
  | S fuel =>
      if 32 <? depth then None
      else match tokens with
           | [] => None
           | TOpenObject :: rest =>
               match readFields fuel depth [] rest with
               | Some (fields, TCloseObject :: rest) => Some (JObject fields, rest)
               | _ => None
               end
           | TOpenArray :: rest =>
               match readValues fuel depth rest with
               | Some (values, TCloseArray :: rest) => Some (JArray values, rest)
               | _ => None
               end
           | TCloseObject :: _ | TCloseArray :: _ => None
           | TNull :: rest => Some (JNull, rest)
           | TBool b :: rest => Some (JBool b, rest)
           | TNumber n :: rest => Some (JNumber n, rest)
           | TString s :: rest => if has_nul s then None else Some (JString s, rest)
           end
  end
with readFields (fuel : nat) (depth : Z) (seen : list string) (tokens : list token) :
    option (list (string * json) * list token) :=
  match fuel with
  | O => None
  | S fuel =>
      if negb (more tokens) then Some ([], tokens)
      else match tokens with
           | TString name :: rest =>
               if has_nul name || (name in? seen) then None
               else match readJSON fuel (depth + 1) rest with
                    | Some (v, rest) =>
                        match readFields fuel depth (name :: seen) rest with
                        | Some (fields, rest) => Some ((name, v) :: fields, rest)
                        | None => None
                        end
                    | None => None
                    end
           | _ => None
           end
  end
with readValues (fuel : nat) (depth : Z) (tokens : list token) : option (list json * list token) :=
  match fuel with
  | O => None
  | S fuel =>
      if negb (more tokens) then Some ([], tokens)
      else match readJSON fuel (depth + 1) tokens with
           | Some (v, rest) =>
               match readValues fuel depth rest with
               | Some (values, rest) => Some (v :: values, rest)
               | None => None
               end
           | None => None
           end
  end.

(** ** Canonical form *)

Definition field_le (a b : string * json) : Prop := String.le a.1 b.1.
#[export] Instance field_le_dec a b : Decision (field_le a b).
Proof. unfold field_le. apply _. Defined.

Fixpoint sorted_json (v : json) : json :=
  match v with
  | JArray items => JArray (map sorted_json items)
  | JObject fields => JObject (merge_sort field_le (map (fun kv => (kv.1, sorted_json kv.2)) fields))
  | _ => v
  end.

(** [canonicalObject] on the decoder's tokens, after the length and UTF-8 checks
    on the text: the whole input is one object. *)
Definition canonicalObject (tokens : list token) : option json :=
  match readJSON (S (2 * length tokens)) 0 tokens with
  | Some (JObject fields, []) => Some (sorted_json (JObject fields))
  | _ => None
  end.

(** ** Serialization *)

Fixpoint tokens_of (v : json) : list token :=
  match v with
  | JNull => [TNull]
  | JBool b => [TBool b]
  | JNumber n => [TNumber n]
  | JString s => [TString s]
  | JArray items => TOpenArray :: concat (map tokens_of items) ++ [TCloseArray]
  | JObject fields =>
      TOpenObject :: concat (map (fun kv => TString kv.1 :: tokens_of kv.2) fields) ++ [TCloseObject]
  end.

(** ** Well-formed values *)

Section json_ind.
Context (P : json -> Prop).
Context (Hnull : P JNull) (Hbool : forall b, P (JBool b)) (Hnumber : forall n, P (JNumber n))
  (Hstring : forall s, P (JString s)) (Harray : forall items, Forall P items -> P (JArray items))
  (Hobject : forall fields, Forall (fun kv => P kv.2) fields -> P (JObject fields)).
Fixpoint json_nested_ind (v : json) : P v :=
  match v with
  | JNull => Hnull
  | JBool b => Hbool b
  | JNumber n => Hnumber n
  | JString s => Hstring s
  | JArray items =>
      Harray items ((fix go l : Forall P l :=
        match l with [] => Forall_nil_2 _ | v :: l => Forall_cons_2 _ v l (json_nested_ind v) (go l) end) items)
  | JObject fields =>
      Hobject fields ((fix go l : Forall (fun kv => P kv.2) l :=
        match l with [] => Forall_nil_2 _ | kv :: l => Forall_cons_2 _ kv l (json_nested_ind kv.2) (go l) end) fields)
  end.
End json_ind.

(** What the reader accepts: at most 32 levels, no NUL, no duplicate key. *)
Fixpoint wf_json (depth : Z) (v : json) : Prop :=
  depth <= 32 /\
  match v with
  | JString s => has_nul s = false
  | JArray items => (fix go l := match l with [] => True | x :: l => wf_json (depth + 1) x /\ go l end) items
  | JObject fields =>
      NoDup (fields.*1)
      /\ (fix go l := match l with
            | [] => True
            | (k, x) :: l => has_nul k = false /\ wf_json (depth + 1) x /\ go l end) fields
  | _ => True
  end.

Lemma wf_array (depth : Z) (items : list json) :
  wf_json depth (JArray items) <-> depth <= 32 /\ Forall (wf_json (depth + 1)) items.
Proof.
  cbn. apply and_iff_compat_l. induction items as [|v items IH]; [by rewrite Forall_nil|].
  by rewrite Forall_cons, IH.
Qed.

Lemma wf_object (depth : Z) (fields : list (string * json)) :
  wf_json depth (JObject fields) <->
  depth <= 32 /\ NoDup (fields.*1) /\ Forall (fun kv => has_nul kv.1 = false /\ wf_json (depth + 1) kv.2) fields.
Proof.
  cbn. do 2 apply and_iff_compat_l. induction fields as [|[k v] fields IH]; [by rewrite Forall_nil|].
  rewrite Forall_cons, <- IH. tauto.
Qed.

Lemma tokens_start (v : json) : exists t rest, tokens_of v = t :: rest /\ more (t :: rest) = true.
Proof. destruct v; by repeat eexists. Qed.

(** The reader inverts the serialization of a value, whatever follows it. *)
Definition reads_back (v : json) : Prop :=
  forall depth rest fuel, wf_json depth v -> (2 * length (tokens_of v) <= fuel)%nat ->
  readJSON fuel depth (tokens_of v ++ rest) = Some (v, rest).

Lemma more_start (v : json) (rest : list token) : more (tokens_of v ++ rest) = true.
Proof. destruct (tokens_start v) as (t & r & -> & H). by destruct t. Qed.

Lemma readValues_back (items : list json) : Forall reads_back items ->
  forall depth rest fuel, Forall (wf_json (depth + 1)) items -> more rest = false ->
  (2 * length (concat (map tokens_of items)) < fuel)%nat ->
  readValues fuel depth (concat (map tokens_of items) ++ rest) = Some (items, rest).
Proof.
  induction 1 as [|v items Hv _ IH]; intros depth rest [|fuel] Hwf Hrest Hf; try (cbn in *; lia).
  { cbn [readValues map concat app]. by rewrite Hrest. }
  apply Forall_cons in Hwf as [Hwv Hwf]. cbn [readValues map concat] in *.
  rewrite length_app in Hf. rewrite <- app_assoc, more_start. cbn [negb].
  destruct (tokens_start v) as (t & r & Ht & _). rewrite Ht in Hf. cbn [length] in Hf.
  rewrite Hv; [|done|rewrite Ht; cbn [length]; lia]. rewrite IH; [done..|lia].
Qed.

Lemma readFields_back (fields : list (string * json)) : Forall (fun kv => reads_back kv.2) fields ->
  forall depth seen rest fuel,
  Forall (fun kv => has_nul kv.1 = false /\ wf_json (depth + 1) kv.2) fields ->
  NoDup (fields.*1) -> (forall k, k ∈ fields.*1 -> k ∉ seen) -> more rest = false ->
  (2 * length (concat (map (fun kv => TString kv.1 :: tokens_of kv.2) fields)) < fuel)%nat ->
  readFields fuel depth seen (concat (map (fun kv => TString kv.1 :: tokens_of kv.2) fields) ++ rest)
  = Some (fields, rest).
Proof.
  induction 1 as [|[k v] fields Hv _ IH]; intros depth seen rest [|fuel] Hwf Hnd Hseen Hrest Hf;
    try (cbn in *; lia).
  { cbn [readFields map concat app]. by rewrite Hrest. }
  apply Forall_cons in Hwf as [[Hk Hwv] Hwf]. apply NoDup_cons in Hnd as [Hnew Hnd].
  cbn in Hk, Hwv, Hnew, Hseen, Hv. cbn [readFields map concat app fst snd length more negb] in *.
  rewrite length_app in Hf. rewrite Hk, <- app_assoc.
  rewrite bool_decide_false by (apply Hseen, list_elem_of_here). cbn [orb].
  rewrite Hv; [|done|lia]. rewrite IH; [done..| |done|lia].
  intros k' Hk'. rewrite not_elem_of_cons. split; [by intros ->|]. apply Hseen. by apply list_elem_of_further.
Qed.

Lemma readJSON_back (v : json) : reads_back v.
Proof.
  induction v using json_nested_ind; intros depth rest [|fuel] Hwf Hf;
    try (cbn in Hf; lia); cbn [readJSON tokens_of app] in *;
    pose proof (proj1 Hwf) as Hd; rewrite (proj2 (Z.ltb_ge 32 depth)) by (cbn in Hd; lia).
  1-3: done.
  - by rewrite (proj2 Hwf).
  - apply wf_array in Hwf as [_ Hwf]. rewrite <- app_assoc. cbn [length] in Hf. rewrite length_app in Hf.
    by rewrite readValues_back; [..|cbn in *; lia].
  - apply wf_object in Hwf as (_ & Hnd & Hwf). rewrite <- app_assoc. cbn [length] in Hf. rewrite length_app in Hf.
    rewrite readFields_back; [done..|set_solver|done|cbn in *; lia].
Qed.

(** ** Canonical forms of objects *)

#[export] Instance field_le_total : Total field_le.
Proof. intros a b. unfold field_le. apply (total String.le). Qed.
#[export] Instance field_le_trans : Transitive field_le.
Proof. intros a b c. unfold field_le. apply transitivity. Qed.

(** Sorting by key forgets the order of the fields. *)
Lemma merge_sort_fields (fields fields' : list (string * json)) :
  NoDup (fields.*1) -> fields ≡ₚ fields' -> merge_sort field_le fields = merge_sort field_le fields'.
Proof.
  intros Hnd Hp. eapply (StronglySorted_unique_strong field_le);
    [|by apply (StronglySorted_merge_sort _)..|by rewrite !merge_sort_Permutation].
  intros [k v] [k' v'] Hin Hin' Hle Hle'. rewrite merge_sort_Permutation in Hin, Hin'.
  assert (k = k') as <- by (by apply (anti_symm String.le)).
  rewrite <- Hp in Hin'. apply list_elem_of_lookup in Hin as [i Hi], Hin' as [j Hj].
  assert (i = j) as <-.
  { eapply NoDup_lookup; [exact Hnd|by rewrite list_lookup_fmap, Hi|by rewrite list_lookup_fmap, Hj]. }
  congruence.
Qed.

(** Request bodies round-trip: reading the serialization of any object the
    journal accepts (at most 32 levels, distinct keys, no NUL) yields exactly
    that object in canonical form, with the whole input consumed. *)
Theorem canonical_roundtrip (fields : list (string * json)) :
  wf_json 0 (JObject fields) ->
  canonicalObject (tokens_of (JObject fields)) = Some (sorted_json (JObject fields)).
Proof.
  intros Hwf. unfold canonicalObject.
  pose proof (readJSON_back (JObject fields) 0 [] (S (2 * length (tokens_of (JObject fields)))) Hwf) as H.
  rewrite app_nil_r in H. by rewrite H by lia.
Qed.

Lemma canonical_roundtrip_witness :
  canonicalObject (tokens_of (JObject [("mode", JString "stop"); ("level", JNumber "10")]))
  = Some (JObject [("level", JNumber "10"); ("mode", JString "stop")]).
Proof.
  rewrite (canonical_roundtrip [("mode", JString "stop"); ("level", JNumber "10")]);
    [vm_compute; reflexivity|].
  apply wf_object. split_and!; [lia|apply (bool_decide_unpack _); vm_compute; exact I|].
  repeat constructor; cbn; lia.
Defined.

(** The order of keys does not identify a request: two objects whose
    fields are permutations of each other have the same canonical form, so the
    same idempotency fingerprint. *)
Theorem canonical_key_order (fields fields' : list (string * json)) :
  NoDup (fields.*1) -> fields ≡ₚ fields' ->
  sorted_json (JObject fields) = sorted_json (JObject fields').
Proof.
  intros Hnd Hp. cbn [sorted_json]. f_equal. apply merge_sort_fields.
  - rewrite <- list_fmap_compose. exact Hnd.
  - by apply fmap_Permutation.
Qed.

Lemma canonical_key_order_witness :
  sorted_json (JObject [("mode", JNull); ("level", JNumber "1")])
  = sorted_json (JObject [("level", JNumber "1"); ("mode", JNull)]).
Proof.
  apply canonical_key_order; [apply (bool_decide_unpack _); vm_compute; exact I|].
  apply Permutation_swap.
Defined.
