(* ===== verification/JournalModel.v ===== *)
(** * Journal data ([internal/journal/operation.go], [diagnostics.go],
    [history.go])

    Requests, proposals, operations and updates, with the input validation
    and the outcome rewriting that precede any SQL.  A raw JSON message is
    known by its length, its UTF-8 validity and the standard library's token
    stream; [json_size] (the length of a marshalled value), [sha256] of the
    request identity and the RFC 3339 text of a time are parameters. *)

From S2P Require Import Prelude GoStd Values Model Diagnostics Errors Json.

Inductive State :=
  | Accepted | Running | Succeeded | Failed | Cancelled | Released | Interrupted | Uncertain.
#[export] Instance State_eq_dec : EqDecision State.
Proof. solve_decision. Defined.

Definition State_string (s : State) : string :=
  match s with
  | Accepted => "accepted" | Running => "running" | Succeeded => "succeeded" | Failed => "failed"
  | Cancelled => "cancelled" | Released => "released" | Interrupted => "interrupted"
  | Uncertain => "uncertain"
  end.

Definition State_terminal (s : State) : bool :=
  match s with Accepted | Running => false | _ => true end.

Definition Retention : Duration := 7 * 24 * 60 * Minute.
Definition MaxJSONBytes : Z := 16 * 1024.
Definition maxDiagnosticBytes : Z := 4 * 1024.
Definition MaxBatch : Z := 100.

Record RawMessage := { Raw_size : Z; Raw_utf8 : bool; Raw_tokens : list token }.

Record Request := {
  Req_Principal : string;
  Req_Method : string;
  Req_Endpoint : string;
  Req_Key : string;
  Req_Player : string;
  Req_IfMatch : string;
  Req_Body : RawMessage
}.

Record Proposal := {
  Prop_OwnerID : string;
  Prop_ReplaceUncertain : bool;
  Prop_ReplaceID : string;
  Prop_ReplaceRevision : Z;
  Prop_Kind : string;
  Prop_DeviceKey : string;
  Prop_ConfigRevision : string;
  Prop_EffectiveArguments : RawMessage;
  Prop_NotBefore : Time;
  Prop_NotAfter : Time
}.

(** JSON columns hold canonical objects. *)
Record Operation := {
  Op_ID : string;
  Op_Kind : string;
  Op_Player : string;
  Op_DeviceKey : string;
  Op_Principal : string;
  Op_Epoch : string;
  Op_State : State;
  Op_Revision : Z;
  Op_Phase : string;
  Op_ConfigRevision : string;
  Op_EffectiveArguments : json;
  Op_SelectedAlbum : option string;
  Op_Progress : json;
  Op_Outcome : json;
  Op_ErrorCode : string;
  Op_ScheduledFor : Time;
  Op_NotAfter : Time;
  Op_CreatedAt : Time;
  Op_UpdatedAt : Time;
  Op_StartedAt : option Time;
  Op_FinishedAt : option Time
}.
#[export] Instance Operation_eta : Eta Operation := fun o =>
  {| Op_ID := Op_ID o; Op_Kind := Op_Kind o; Op_Player := Op_Player o; Op_DeviceKey := Op_DeviceKey o;
     Op_Principal := Op_Principal o; Op_Epoch := Op_Epoch o; Op_State := Op_State o;
     Op_Revision := Op_Revision o; Op_Phase := Op_Phase o; Op_ConfigRevision := Op_ConfigRevision o;
     Op_EffectiveArguments := Op_EffectiveArguments o; Op_SelectedAlbum := Op_SelectedAlbum o;
     Op_Progress := Op_Progress o; Op_Outcome := Op_Outcome o; Op_ErrorCode := Op_ErrorCode o;
     Op_ScheduledFor := Op_ScheduledFor o; Op_NotAfter := Op_NotAfter o; Op_CreatedAt := Op_CreatedAt o;
     Op_UpdatedAt := Op_UpdatedAt o; Op_StartedAt := Op_StartedAt o; Op_FinishedAt := Op_FinishedAt o |}.

(** Go's zero value. *)
Definition Operation_zero : Operation := {|
  Op_ID := ""; Op_Kind := ""; Op_Player := ""; Op_DeviceKey := ""; Op_Principal := ""; Op_Epoch := "";
  Op_State := Accepted; Op_Revision := 0; Op_Phase := ""; Op_ConfigRevision := ""; Op_EffectiveArguments := JNull;
  Op_SelectedAlbum := None; Op_Progress := JNull; Op_Outcome := JNull; Op_ErrorCode := ""; Op_ScheduledFor := 0;
  Op_NotAfter := 0; Op_CreatedAt := 0; Op_UpdatedAt := 0; Op_StartedAt := None; Op_FinishedAt := None |}.

Record Admission := {
  Adm_Operation : Operation;
  Adm_Created : bool;
  Adm_RecoveredCommit : bool
}.

(** A nil [Progress] or [Outcome] is [None]. *)
Record Update := {
  Upd_State : State;
  Upd_Phase : string;
  Upd_Progress : option RawMessage;
  Upd_Outcome : option RawMessage;
  Upd_ErrorCode : string
}.
#[export] Instance Update_eta : Eta Update := fun u =>
  {| Upd_State := Upd_State u; Upd_Phase := Upd_Phase u; Upd_Progress := Upd_Progress u;
     Upd_Outcome := Upd_Outcome u; Upd_ErrorCode := Upd_ErrorCode u |}.

Definition empty_object : json := JObject [].

Definition textWithin (s : string) (max : Z) : bool :=
  (s != "") && (slen s <=? max) && negb (has_nul s).

(** [fields[name] = v] on the decoded map. *)
Fixpoint set_field (name : string) (v : json) (fields : list (string * json)) : list (string * json) :=
  match fields with
  | [] => [(name, v)]
  | (k, w) :: rest => if k == name then (k, v) :: rest else (k, w) :: set_field name v rest
  end.

Fixpoint get_field (name : string) (fields : list (string * json)) : option json :=
  match fields with
  | [] => None
  | (k, w) :: rest => if k == name then Some w else get_field name rest
  end.

Section Encoding.
Context (json_size : json -> Z) (sha256 : string -> string -> json -> string) (time_text : Time -> string).

(** [json.Marshal] of a decoded value. *)
Definition marshal (v : json) : RawMessage :=
  {| Raw_size := json_size v; Raw_utf8 := true; Raw_tokens := tokens_of v |}.

Definition canonical (raw : RawMessage) : Result json :=
  if (Raw_size raw =? 0) || (MaxJSONBytes <? Raw_size raw) || negb (Raw_utf8 raw)
  then Err (ESentinel JErrInvalid)
  else match canonicalObject (Raw_tokens raw) with
       | None => Err (ESentinel JErrInvalid)
       | Some v => if MaxJSONBytes <? json_size v then Err (ESentinel JErrInvalid) else Ok v
       end.

Definition fingerprint (r : Request) : Result string :=
  if negb (textWithin (Req_Principal r) 256) || negb (textWithin (Req_Key r) 256)
     || negb (textWithin (Req_Player r) 256) || negb (textWithin (Req_Endpoint r) 1024)
     || negb (hasPrefix (Req_Endpoint r) "/")
     || any_byte (fun b => (b =? 63) || (b =? 35)) (Req_Endpoint r)
     || (256 <? slen (Req_IfMatch r))
     || negb (Req_Method r in? ["POST"; "PUT"; "DELETE"; "PATCH"])
  then Err (ESentinel JErrInvalid)
  else let? body := canonical (Req_Body r) in Ok (sha256 (Req_Player r) (Req_IfMatch r) body).

(** A struct field marked [omitempty]. *)
Definition optional (name : string) (v : option json) : list (string * json) :=
  match v with Some v => [(name, v)] | None => [] end.

Definition scalars_json (s : DiagnosticScalars) : json := JObject (
  optional "state" (JString <$> DS_State s)
  ++ optional "volume" ((fun v => JNumber (itoa v)) <$> DS_Volume s)
  ++ optional "muted" (JBool <$> DS_Muted s)
  ++ optional "repeat" (JString <$> DS_Repeat s)
  ++ optional "shuffle" (JBool <$> DS_Shuffle s)
  ++ optional "grouped" (JBool <$> DS_Grouped s)).

Definition diagnostics_json (d : Diagnostics) : json := JObject (
  [("reason", JString (Diag_Reason d));
   ("rule", default JNull (JString <$> Diag_Rule d));
   ("phase", JString (Diag_Phase d));
   ("detected_at", default JNull ((fun t => JString (time_text t)) <$> Diag_DetectedAt d));
   ("source", JString (Diag_Source d));
   ("changed_fields", JArray (map JString (Diag_ChangedFields d)))]
  ++ optional "expected" (scalars_json <$> Diag_Expected d)
  ++ optional "observed" (scalars_json <$> Diag_Observed d)).

Definition WithDiagnostics (outcome : option RawMessage) (d : Diagnostics) : Result json :=
  if negb (Diagnostics_validate d) then Err (ESentinel JErrInvalid)
  else
    let diagnostic := diagnostics_json d in
    if maxDiagnosticBytes <? json_size diagnostic then Err (ESentinel JErrInvalid)
    else
      let? v := canonical (default (marshal empty_object) outcome) in
      match v with
      | JObject fields =>
          let result := JObject (set_field "diagnostics" diagnostic fields) in
          if MaxJSONBytes <? json_size result then Err (ESentinel JErrInvalid) else Ok result
      | _ => Err (ESentinel JErrInvalid)
      end.

(** The outcome that a handoff writes over the replaced operation. *)
Definition handoffUpdate (old : Operation) (p : Proposal) (now : Time) : Result (State * string * json * json * string) :=
  let? start :=
    if Prop_ReplaceUncertain p then
      match Op_Outcome old with
      | JObject fields =>
          Ok (Uncertain, "command_interrupted",
              JObject (set_field "playback_may_continue" (JBool true)
                         (set_field "delivery" (JString "unknown") fields)))
      | _ => Err (ESentinel JErrInvalid)
      end
    else Ok (Released, "", Op_Outcome old) in
  let '(state, code, outcome) := start in
  let '(state, phase, reason) :=
    if Prop_Kind p == "cancel" then (Running, "cancelling", "cancellation_requested")
    else (state, "superseded", "superseded") in
  let? result := WithDiagnostics (Some (marshal outcome))
    (Diagnostics_zero <| Diag_Reason := reason |> <| Diag_Phase := Op_Phase old |>
       <| Diag_Source := "controller" |> <| Diag_DetectedAt := Some now |>) in
  Ok (state, phase, Op_Progress old, result, code).
End Encoding.

(** ** Facts *)

Lemma get_set_field (name name' : string) (v : json) (fields : list (string * json)) :
  get_field name' (set_field name v fields) = if name == name' then Some v else get_field name' fields.
Proof.
  induction fields as [|[k w] rest IH]; cbn.
  - by case_if.
  - destruct (k == name) eqn:Hk; cbn; breflect.
    + subst k. by repeat case_if.
    + rewrite IH. repeat case_if; try done. breflect. congruence.
Qed.
