(* ===== verification/Views.v ===== *)
(** * Read-only views of the players ([internal/control/reads.go],
    [now_playing.go])

    What the API shows of a player: its availability, its media with a sampled
    playhead, and the revision that an If-Match precondition names.  [digest v]
    is the hexadecimal SHA-256 of the JSON text of [v], [time_text] the RFC 3339
    text of a time; the tables of devices and sources are lists, and
    [snapshots] is what the observer of each player shows now. *)

From S2P Require Import Prelude GoStd Values Model Diagnostics Errors State Json JournalModel.

(** ** Media *)

Record NowPlayingProgress := {
  NPP_PositionMS : Z;
  NPP_DurationMS : option Z;
  NPP_SampledAt : Time
}.

Record NowPlaying := {
  NP_Song : string;
  NP_Album : string;
  NP_Artist : string;
  NP_QueueID : string;
  NP_MediaID : string;
  NP_Stale : bool;
  NP_Progress : option NowPlayingProgress
}.
#[export] Instance NowPlaying_eta : Eta NowPlaying := fun n =>
  {| NP_Song := NP_Song n; NP_Album := NP_Album n; NP_Artist := NP_Artist n; NP_QueueID := NP_QueueID n;
     NP_MediaID := NP_MediaID n; NP_Stale := NP_Stale n; NP_Progress := NP_Progress n |}.

(** [config.Source]; the operator's UDN is not used. *)
Record SourceConfig := { SrcCfg_Key : string; SrcCfg_Player : string; SrcCfg_Name : string }.

Definition playheadProgress (v : Snapshot) : option NowPlayingProgress :=
  match Snap_Playhead v, Snap_Media v with
  | Some sample, Some media =>
      if (Playhead_Source sample != Media_Source media) || (Playhead_Media sample != Media_ID media)
         || (Playhead_Queue sample != Media_QueueID media) then None
      else Some {| NPP_PositionMS := Playhead_PositionMS sample;
                   NPP_DurationMS := if 0 <? Playhead_DurationMS sample then Some (Playhead_DurationMS sample) else None;
                   NPP_SampledAt := Playhead_At sample |}
  | _, _ => None
  end.

(** The playhead moves without a new revision. *)
Definition revisionNowPlaying (n : option NowPlaying) : option NowPlaying :=
  (fun n => n <| NP_Progress := None |>) <$> n.

(** ** Players *)

Record Volume := { Vol_Unit : string; Vol_Level : option Z }.
Record Capabilities := { Cap_Read : string; Cap_Playback : string; Cap_Volume : string }.
Record Player := {
  CP_Key : string;
  CP_Availability : string;
  CP_ObservedAt : option Time;
  CP_Stale : bool;
  CP_Revision : string;
  CP_PlaybackState : string;
  CP_NowPlaying : option NowPlaying;
  CP_Volume : Volume;
  CP_VolumeCeiling : option Z;
  CP_Muted : option bool;
  CP_Grouped : option bool;
  CP_Capabilities : Capabilities
}.

(** ** JSON of the values that are hashed *)

Section encodings.
Context (time_text : Time -> string).

Definition number (n : Z) : json := JNumber (itoa n).
Definition token_json (t : Token) : json := JObject [
  ("Generation", number (Token_Generation t)); ("Revision", number (Token_Revision t));
  ("Catalog", number (Token_Catalog t)); ("Player", number (Token_Player t)); ("Write", number (Token_Write t))].
Definition progress_json (p : NowPlayingProgress) : json := JObject (
  [("position_ms", number (NPP_PositionMS p))]
  ++ optional "duration_ms" (number <$> NPP_DurationMS p)
  ++ [("sampled_at", JString (time_text (NPP_SampledAt p)))]).
Definition nonempty (s : string) : option json := if s == "" then None else Some (JString s).
Definition now_playing_json (n : NowPlaying) : json := JObject (
  [("song", JString (NP_Song n)); ("album", JString (NP_Album n)); ("artist", JString (NP_Artist n))]
  ++ optional "queue_id" (nonempty (NP_QueueID n)) ++ optional "media_id" (nonempty (NP_MediaID n))
  ++ [("stale", JBool (NP_Stale n))] ++ optional "progress" (progress_json <$> NP_Progress n)).
Definition revision_json (epoch : string) (v : Snapshot) (n : option NowPlaying) : json := JObject [
  ("Epoch", JString epoch); ("Token", token_json (Snap_Token v)); ("At", JString (time_text (Snap_ObservedAt v)));
  ("Stale", JBool (Snap_Stale v)); ("Connected", JBool (Snap_Connected v)); ("Verified", JBool (Snap_Verified v));
  ("NowPlaying", default JNull (now_playing_json <$> n))].
End encodings.

Section reads.
Context (digest : json -> string) (time_text : Time -> string) (epoch : string).

Definition nowPlaying (player : PlayerConfig) (v : Snapshot) : option NowPlaying :=
  match Snap_Media v with
  | None => None
  | Some media =>
      if negb (Snap_Connected v) || Snap_MediaUnavailable v || isZero (Snap_ObservedAt v)
         || negb (PlayState_Active (Snap_State v)) || (Player_ID (Snap_Player v) == "") || (Cfg_Serial player == "")
         || (Player_Serial (Snap_Player v) != Cfg_Serial player)
         || ((Cfg_Model player != "") && (Player_Model (Snap_Player v) != Cfg_Model player))
      then None
      else
        let stale := Snap_Stale v || Snap_MediaStale v in
        Some {| NP_Song := Media_Song media; NP_Album := Media_Album media; NP_Artist := Media_Artist media;
                NP_QueueID := Media_QueueID media;
                NP_MediaID := if Media_ID media == "" then ""
                              else digest (JArray [JString epoch; JString (Cfg_Key player);
                                                   JString (Media_Source media); JString (Media_ID media)]);
                NP_Stale := stale;
                NP_Progress := if stale then None else playheadProgress v |}
  end.

Definition revision_of (player : PlayerConfig) (v : Snapshot) : string :=
  epoch +:+ "-" +:+ digest (revision_json time_text epoch v (revisionNowPlaying (nowPlaying player v))).

(** [Reads.Player] of a configured device and the snapshot it shows. *)
Definition project_player (d : PlayerConfig) (v : Snapshot) : Player :=
  let online := Snap_Verified v && negb (Snap_Stale v) in
  let writable := online && Cfg_WritesEnabled d && is_some (Cfg_VolumeCeiling d) && negb (Snap_Grouped v) in
  let observed := negb (isZero (Snap_ObservedAt v)) in
  {| CP_Key := Cfg_Key d;
     CP_Availability := if online then "online" else if Snap_Connected v then "unknown" else "offline";
     CP_ObservedAt := if observed then Some (Snap_ObservedAt v) else None;
     CP_Stale := Snap_Stale v;
     CP_Revision := revision_of d v;
     CP_PlaybackState := PlayState_string (if observed then Snap_State v else PlayStateUnknown);
     CP_NowPlaying := nowPlaying d v;
     CP_Volume := {| Vol_Unit := "heos"; Vol_Level := Snap_Volume v |};
     CP_VolumeCeiling := Cfg_VolumeCeiling d;
     CP_Muted := Snap_Muted v;
     CP_Grouped := if observed then Some (Snap_Grouped v) else None;
     CP_Capabilities := {| Cap_Read := if online then "supported" else "unverified";
                           Cap_Playback := if writable then "supported" else "unverified";
                           Cap_Volume := if writable then "supported" else "unverified" |} |}.

Definition find_device (devices : list PlayerConfig) (key : string) : Result PlayerConfig :=
  match list_find (fun d => Cfg_Key d = key) devices with
  | Some (_, d) => Ok d
  | None => Err (ESentinel ErrNotFound)
  end.

Definition SourcePlayer (sources : list SourceConfig) (key : string) : Result string :=
  match list_find (fun v => SrcCfg_Key v = key) sources with
  | Some (_, v) => Ok (SrcCfg_Player v)
  | None => Err (ESentinel ErrNotFound)
  end.

(** ** Groups: one entry per allowed player, its own membership only *)

Record PlayerGroup := {
  PG_ID : string;
  PG_Player : string;
  PG_Name : string;
  PG_Members : list string;
  PG_Stale : bool
}.

Definition group_step (key : string) (v : Snapshot) (acc : list PlayerGroup) (g : Group) : list PlayerGroup :=
  let member := existsb (fun m => GroupMember_ID m == Player_ID (Snap_Player v)) (Group_Players g) in
  let id := key +:+ ":" +:+ Group_ID g in
  if negb member || existsb (fun o => PG_ID o == id) acc then acc
  else acc ++ [{| PG_ID := id; PG_Player := key; PG_Name := Group_Name g; PG_Members := [key]; PG_Stale := Snap_Stale v |}].

Definition Groups (devices : list PlayerConfig) (snapshots : string -> Snapshot) (allowed : string -> bool) : list PlayerGroup :=
  foldl (fun acc d =>
    if negb (allowed (Cfg_Key d)) then acc
    else let v := snapshots (Cfg_Key d) in foldl (group_step (Cfg_Key d) v) acc (Snap_Groups v)) [] devices.
End reads.
