(* ===== verification/Protocol.v ===== *)
(** * The wire protocol ([internal/heos/protocol.go], [queue_removal.go],
    [writes.go])

    Frames, responses and commands.  A JSON document arrives as its value; a
    byte stream is a string of bytes. *)

From S2P Require Import Prelude GoStd Values Model Errors Json.
From Stdlib Require Import Ascii.

(** ** Text and identifiers *)

(** Percent escaping, not form encoding: a plus stays a plus. *)
Definition decodeText (s : string) : Result string :=
  match pathUnescape s with
  | Some v => if negb (validUTF8 v) || contains_byte 0 v then Err (ESentinel ErrProtocol) else Ok v
  | None => Err (ESentinel ErrProtocol)
  end.

(** [null] leaves the wire string empty. *)
Definition Text_UnmarshalJSON (data : json) : Result string :=
  match data with
  | JString wire => decodeText wire
  | JNull => decodeText ""
  | _ => Err (ESentinel ErrProtocol)
  end.

(** [strings.TrimPrefix(value, "-")] *)
Definition trim_minus (s : string) : string := match s with String "-" rest => rest | _ => s end.

Definition ID_UnmarshalJSON (data : json) : Result ID :=
  let? value :=
    match data with
    | JString wire => decodeText wire
    | JNumber value =>
        let number := trim_minus value in
        if (number == "") || negb (all_bytes is_digit number) then Err (ESentinel ErrProtocol) else Ok value
    | _ => Err (ESentinel ErrProtocol)
    end in
  if (value == "") || (4096 <? slen value) || contains_byte 0 value then Err (ESentinel ErrProtocol) else Ok value.

Record Response := {
  Resp_Command : string;
  Resp_Result : string;
  Resp_Params : Values;
  Resp_Payload : option json;
  Resp_Options : option json;
  Resp_Event : bool;
  Resp_Pending : bool;
  Resp_Token : Token
}.
#[export] Instance Response_eta : Eta Response := fun r =>
  {| Resp_Command := Resp_Command r; Resp_Result := Resp_Result r; Resp_Params := Resp_Params r;
     Resp_Payload := Resp_Payload r; Resp_Options := Resp_Options r; Resp_Event := Resp_Event r;
     Resp_Pending := Resp_Pending r; Resp_Token := Resp_Token r |}.
Definition Response_zero : Response := Build_Response "" "" ∅ None None false false Token_zero.

(** ** Commands *)

Definition parseRange (value : string) : Result (Z * Z) :=
  let '(first, last, ok) := cut "," value in
  match atoi (trimSpace first), atoi (trimSpace last) with
  | Some start, Some end_ =>
      if negb ok || (start <? 0) || (end_ <? start) then Err (ESentinel ErrProtocol) else Ok (start, end_)
  | _, _ => Err (ESentinel ErrProtocol)
  end.

Definition echoed_keys : list string := ["pid"; "gid"; "sid"; "cid"; "qid"; "SEQUENCE"].

(** The parameters that a reply repeats must be those of the request. *)
Definition validateEcho (args params : Values) : option error :=
  if existsb (fun key => Values_Has args key && Values_Has params key && (Values_Get args key != Values_Get params key))
       echoed_keys
  then Some (ESentinel ErrProtocol)
  else if Values_Has args "range" && Values_Has params "range" then
    match parseRange (Values_Get args "range"), parseRange (Values_Get params "range") with
    | Ok (start, end_), Ok (gotStart, gotEnd) =>
        if (gotStart != start) || (end_ <? gotEnd) then Some (ESentinel ErrProtocol) else None
    | _, _ => Some (ESentinel ErrProtocol)
    end
  else None.

Definition validateQueueRemoval (ids : list string) : option error :=
  if (len ids =? 0) || (1000 <? len ids) then Some (ESentinel ErrBounds)
  else if distinct_scan (fun id => id)
            (fun _ id => (slen id <=? 4096) && validUTF8 id && negb (contains_byte 44 id) && negb (containsControl id))
            ∅ 0 ids
  then None else Some (ESentinel ErrBounds).

(** [strings.ReplaceAll(url.QueryEscape(s), "+", "%20")] *)
Definition pct_escape (s : string) : string := replace_byte "+" "%20" (queryEscape s).

(** [strings.Replace(s, old, new, 1)] for a non-empty [old]. *)
Fixpoint replace_first (old new s : string) : string :=
  match strip_prefix old s with
  | Some rest => new +:+ rest
  | None => match s with EmptyString => "" | String c rest => String c (replace_first old new rest) end
  end.

Definition command_name_ok (name : string) : bool :=
  negb (name == "") && (slen name <=? 128)
  && all_bytes (fun c => ((97 <=? c) && (c <=? 122)) || (c =? 95) || (c =? 47)) name.
Definition command_key_ok (k : string) : bool :=
  negb (k == "") && all_bytes (fun c => ((97 <=? c) && (c <=? 122)) || ((65 <=? c) && (c <=? 90)) || (c =? 95)) k.

Definition removal_query (args : Values) (query : string) : Result string :=
  let ids := split "," (Values_Get args "qid") in
  match validateQueueRemoval ids with
  | Some e => Err e
  | None =>
      Ok (replace_first ("qid=" +:+ pct_escape (Values_Get args "qid")) ("qid=" +:+ join "," (map pct_escape ids)) query)
  end.

Definition range_query (args : Values) (query : string) : Result string :=
  let? (start, end_) := parseRange (Values_Get args "range") in
  let encoded := "range=" +:+ pct_escape (Values_Get args "range") in
  Ok (join "&" (map (fun part => if part == encoded then "range=" +:+ itoa start +:+ "," +:+ itoa end_ else part)
                  (split "&" query))).

Definition crlf : string := String (of_byte 13) (str1 (of_byte 10)).

Definition encodeCommand (name : string) (args : Values) : Result string :=
  if negb (command_name_ok name) then Err (ESentinel ErrProtocol)
  else if negb (forallb (fun kv => command_key_ok kv.1 && (len kv.2 =? 1)) (map_to_list args)) then Err (ESentinel ErrProtocol)
  else
    let query := replace_byte "+" "%20" (Values_Encode args) in
    let? query := if name == "player/remove_from_queue" then removal_query args query else Ok query in
    let? query := if Values_Has args "range" then range_query args query else Ok query in
    let wire := "heos://" +:+ name +:+ "?" +:+ query +:+ crlf in
    if 16 * 1024 <? slen wire then Err (ESentinel ErrProtocol) else Ok wire.

(** ** Frames *)

(** [frame] holds the bytes read so far, last first; [failure] is the error of
    the stream's end. *)
Fixpoint readFrame (limit : Z) (failure : error) (frame : list ascii) (stream : string) : Result string * string :=
  match stream with
  | EmptyString => (Err (match frame with [] => failure | _ => EWrap [ESentinel ErrUnexpectedEOF] end), "")
  | String b rest =>
      let after_cr := match frame with last :: _ => byte_of last =? 13 | [] => false end in
      if byte_of b =? 10 then
        if (len frame <? 2) || negb after_cr then (Err (ESentinel ErrProtocol), rest)
        else (Ok (String.string_of_list_ascii (rev (tail frame))), rest)
      else if after_cr then (Err (ESentinel ErrProtocol), rest)
      else if ((limit <=? len frame) && negb (byte_of b =? 13)) || (limit <? len frame)
      then (Err (EWrap [ESentinel ErrProtocol]), rest)
      else readFrame limit failure (b :: frame) rest
  end.

(** ** Responses *)

Definition params_step (acc : Result Values) (pair : string) : Result Values :=
  let? params := acc in
  if pair == "" then Ok params
  else
    let '(key, value, _) := cut "=" pair in
    match decodeText key, decodeText value with
    | Ok key, Ok value =>
        if (key == "") || Values_Has params key then Err (ESentinel ErrProtocol) else Ok (Values_Set params key value)
    | _, _ => Err (ESentinel ErrProtocol)
    end.
Definition decode_params (message : string) : Result Values := foldl params_step (Ok ∅) (split "&" message).

(** [strings.ToUpper] on one ASCII byte. *)
Definition upper (c : ascii) : ascii :=
  if (97 <=? byte_of c) && (byte_of c <=? 122) then of_byte (byte_of c - 32) else c.

(** [encoding/json] matches the names of struct fields up to case: ASCII
    letters, the long s (U+017F) and the Kelvin sign (U+212A). *)
Fixpoint fold_name (s : string) : string :=
  match s with
  | EmptyString => ""
  | String a rest =>
      match rest with
      | String b rest' =>
          if (byte_of a =? 197) && (byte_of b =? 191) then String "S" (fold_name rest')
          else match rest' with
               | String c rest'' =>
                   if (byte_of a =? 226) && (byte_of b =? 132) && (byte_of c =? 170) then String "K" (fold_name rest'')
                   else String (upper a) (fold_name rest)
               | EmptyString => String (upper a) (fold_name rest)
               end
      | EmptyString => str1 (upper a)
      end
  end.

(** The values of a field, in their order; a later one is decoded over an earlier one. *)
Definition fields_named (name : string) (fields : list (string * json)) : list json :=
  map snd (filter (fun kv : string * json => fold_name kv.1 = fold_name name) fields).

Definition string_step (acc : Result string) (v : json) : Result string :=
  let? s := acc in
  match v with JString s => Ok s | JNull => Ok s | _ => Err (EWrap [ESentinel ErrProtocol]) end.
Definition string_field (name : string) (fields : list (string * json)) : Result string :=
  foldl string_step (Ok "") (fields_named name fields).
Definition raw_field (name : string) (fields : list (string * json)) : option json := last (fields_named name fields).
Definition object_step (acc : Result (list (string * json))) (v : json) : Result (list (string * json)) :=
  let? fields := acc in
  match v with JObject more => Ok (fields ++ more) | JNull => Ok fields | _ => Err (EWrap [ESentinel ErrProtocol]) end.
Definition object_field (name : string) (fields : list (string * json)) : Result (list (string * json)) :=
  foldl object_step (Ok []) (fields_named name fields).

(** A frame's bytes: whether they are UTF-8, and the JSON value they spell. *)
Record frame := { Frame_utf8 : bool; Frame_json : option json }.

Definition decodeResponse (f : frame) : Result Response :=
  if negb (Frame_utf8 f) then Err (ESentinel ErrProtocol)
  else
    match Frame_json f with
    | Some (JObject fields) =>
        let? heos := object_field "heos" fields in
        let? command := string_field "command" heos in
        let? result := string_field "result" heos in
        let? message := string_field "message" heos in
        let command := trimSpace command in
        let event := hasPrefix command "event/" in
        if (command == "") || (negb event && (result != "success") && (result != "fail"))
        then Err (ESentinel ErrProtocol)
        else
          let? params := decode_params message in
          Ok {| Resp_Command := command; Resp_Result := result; Resp_Params := params;
                Resp_Payload := raw_field "payload" fields; Resp_Options := raw_field "options" fields;
                Resp_Event := event; Resp_Pending := hasPrefix message "command under process";
                Resp_Token := Token_zero |}
    | _ => Err (EWrap [ESentinel ErrProtocol])
    end.

(** [io.ErrNoProgress] *)
Definition ErrNoProgress : error := EText "multiple Read calls return no data or error".

(** [w] answers the successive calls of the socket's [Write]; every turn
    consumes at least one byte, so the length of [p] is enough fuel. *)
Section writeAll.
Context (w : nat -> string -> nat * option error).
Fixpoint write_loop (fuel turn total : nat) (p : string) : nat * option error :=
  match fuel, p with
  | O, _ | _, EmptyString => (total, None)
  | S fuel, _ =>
      let '(n, err) := w turn p in
      let total := (total + n)%nat in
      match err with
      | Some e => (total, Some e)
      | None => if (n =? 0)%nat then (total, Some ErrNoProgress)
                else write_loop fuel (S turn) total (String.substring n (String.length p) p)
      end
  end.
Definition writeAll (p : string) : nat * option error := write_loop (String.length p) 0 0 p.
End writeAll.

(** ** Mutations *)

Definition on_off (b : bool) : string := if b then "on" else "off".

Definition Mutation_command (m : Mutation) : Result (string * Values) :=
  let a : Values := {["pid" := [Mut_Player m]]} in
  if Mut_Player m == "" then Err (ESentinel ErrBounds)
  else match Mut_Kind m with
  | MutationKindVolume =>
      if (Mut_Level m <? 0) || (100 <? Mut_Level m) then Err (ESentinel ErrBounds)
      else Ok ("player/set_volume", Values_Set a "level" (itoa (Mut_Level m)))
  | MutationKindMute => Ok ("player/set_mute", Values_Set a "state" (on_off (Mut_Muted m)))
  | MutationKindTransport =>
      if negb (PlayState_Writable (Mut_State m)) then Err (ESentinel ErrBounds)
      else Ok ("player/set_play_state", Values_Set a "state" (PlayState_string (Mut_State m)))
  | MutationKindSkip =>
      if Mut_Direction m == "next" then Ok ("player/play_next", a)
      else if Mut_Direction m == "previous" then Ok ("player/play_previous", a)
      else Err (ESentinel ErrBounds)
  | MutationKindMode =>
      if negb (Repeat_Known (Mut_Repeat m)) then Err (ESentinel ErrBounds)
      else Ok ("player/set_play_mode",
               Values_Set (Values_Set a "repeat" (Repeat_string (Mut_Repeat m))) "shuffle" (on_off (Mut_Shuffle m)))
  | MutationKindQueue =>
      let i := Mut_Item m in
      if (Item_Source i == "") || (Item_ContainerID i == "") then Err (ESentinel ErrBounds)
      else if (Item_Container i != "yes")
              && ((Item_Playable i != "yes") || (Item_MediaID i == "")
                  || ((Item_Type i != "song") && (Item_Type i != "track")))
      then Err (ESentinel ErrBounds)
      else
        let a := Values_Set (Values_Set (Values_Set a "sid" (Item_Source i)) "cid" (Item_ContainerID i))
                   "aid" (if Mut_Append m then "3" else "4") in
        Ok ("browse/add_to_queue", if Item_Container i != "yes" then Values_Set a "mid" (Item_MediaID i) else a)
  | MutationKindRemove =>
      if (len (Mut_QueueIDs m) =? 0) || (1000 <? len (Mut_QueueIDs m)) then Err (ESentinel ErrBounds)
      else match validateQueueRemoval (Mut_QueueIDs m) with
           | Some e => Err e
           | None => Ok ("player/remove_from_queue", Values_Set a "qid" (join "," (Mut_QueueIDs m)))
           end
  | _ => Err (ESentinel ErrReadOnly)
  end.
