(* ===== verification/ProtocolProps.v ===== *)
(** * Frames and commands: the wire is unambiguous

    A frame is delimited by its CRLF and by nothing else; an encoded command is
    one line of printable ASCII, and decoding its query gives back the
    arguments. *)

From S2P Require Import Prelude GoStd Values Model Errors Json Protocol.
From Stdlib Require Import Ascii.

(** ** Strings and bytes *)

Lemma string_cons_app (c : ascii) (s t : string) : String c s +:+ t = String c (s +:+ t).
Proof. done. Qed.
Lemma string_empty_app (t : string) : "" +:+ t = t.
Proof. done. Qed.
Ltac str_cbn := cbn; repeat (rewrite ?string_cons_app, ?string_empty_app in *; cbn).

Section bytes.
Context (p q : Z -> bool).

Lemma all_bytes_app (s t : string) : all_bytes p (s +:+ t) = all_bytes p s && all_bytes p t.
Proof. induction s as [|c s IH]; [done|]. str_cbn. by rewrite IH, andb_assoc. Qed.

Lemma all_bytes_concat_map (f : ascii -> string) (s : string) :
  (forall c, all_bytes p (f c) = true) -> all_bytes p (concat_map f s) = true.
Proof. intros Hf. induction s as [|c s IH]; [done|]. cbn. by rewrite all_bytes_app, Hf, IH. Qed.

Lemma all_bytes_impl (s : string) :
  (forall b, p b = true -> q b = true) -> all_bytes p s = true -> all_bytes q s = true.
Proof.
  intros Hpq. induction s as [|c s IH]; [done|]. cbn. intros [Hc Hs]%andb_true_iff.
  by rewrite (Hpq _ Hc), IH.
Qed.

Lemma all_bytes_join (sep : string) (parts : list string) :
  all_bytes p sep = true -> Forall (fun s => all_bytes p s = true) parts -> all_bytes p (join sep parts) = true.
Proof.
  intros Hsep Hparts. induction Hparts as [|s rest Hs Hrest IH]; [done|].
  destruct rest as [|s' rest]; [done|]. change (join sep (s :: s' :: rest)) with (s +:+ sep +:+ join sep (s' :: rest)).
  by rewrite !all_bytes_app, Hs, Hsep, IH.
Qed.
End bytes.

Lemma string_app_assoc (a b c : string) : (a +:+ b) +:+ c = a +:+ (b +:+ c).
Proof. induction a as [|x a IH]; [done|]. str_cbn. by f_equal. Qed.
Lemma string_app_nil (a : string) : a +:+ "" = a.
Proof. induction a as [|x a IH]; [done|]. str_cbn. by f_equal. Qed.

Lemma concat_map_app (f : ascii -> string) (s t : string) : concat_map f (s +:+ t) = concat_map f s +:+ concat_map f t.
Proof. induction s as [|c s IH]; [done|]. str_cbn. by rewrite IH, string_app_assoc. Qed.

Lemma byte_of_eqb (c : ascii) (k : ascii) : (byte_of c =? byte_of k) = (c == k).
Proof.
  unfold byte_of. destruct (decide (c = k)) as [->|Hne]; [by rewrite bool_decide_true, Z.eqb_refl|].
  rewrite bool_decide_false by done. apply Z.eqb_neq. intros H. apply Hne.
  apply Nat2Z.inj in H. by rewrite <- (ascii_nat_embedding c), H, ascii_nat_embedding.
Qed.


(** ** Frames *)

Definition line_byte (b : Z) : bool := negb (b =? 13) && negb (b =? 10).
Definition str (l : list ascii) : string := String.string_of_list_ascii l.

Lemma str_app (l k : list ascii) : str (l ++ k) = str l +:+ str k.
Proof. induction l as [|c l IH]; [done|]. str_cbn. by f_equal. Qed.
Lemma slen_str (l : list ascii) : slen (str l) = len l.
Proof. unfold slen, len. f_equal. induction l as [|c l IH]; [done|]. cbn. by f_equal. Qed.
Lemma slen_app (a b : string) : slen (a +:+ b) = slen a + slen b.
Proof. unfold slen. induction a as [|c a IH]; [done|]. rewrite string_cons_app. cbn [String.length]. lia. Qed.
Lemma all_bytes_str_rev (p : Z -> bool) (l : list ascii) : all_bytes p (str (rev l)) = forallb (fun c => p (byte_of c)) l.
Proof.
  induction l as [|c l IH]; [done|]. cbn. rewrite str_app, all_bytes_app, IH. cbn.
  rewrite andb_true_r. apply andb_comm.
Qed.

Definition CR : ascii := of_byte 13.
Definition LF : ascii := of_byte 10.

Lemma line_head (b : ascii) (stream g rest : string) :
  String b stream = g +:+ crlf +:+ rest -> all_bytes line_byte g = true ->
  (g = "" /\ b = CR /\ stream = String LF rest)
  \/ (exists g', g = String b g' /\ stream = g' +:+ crlf +:+ rest /\ line_byte (byte_of b) = true
        /\ all_bytes line_byte g' = true).
Proof.
  destruct g as [|c g].
  - intros [= -> ->]. by left.
  - rewrite string_cons_app. intros [= -> ->] [Hc Hg]%andb_true_iff. right. by exists g.
Qed.
Lemma line_empty (g rest : string) : "" <> g +:+ crlf +:+ rest.
Proof. by destruct g. Qed.

Section readFrame.
Context (limit : Z) (failure : error).

(** The reader holds [acc], which has no CR, and the next byte is CR. *)
Lemma readFrame_cr (stream rest f : string) (acc : list ascii) :
  len acc <= limit ->
  readFrame limit failure (CR :: acc) stream = (Ok f, rest)
  <-> stream = String LF rest /\ f = str (rev acc) /\ f <> "".
Proof.
  intros Hlen. destruct stream as [|b stream]; cbn [readFrame]; [naive_solver|].
  change (byte_of CR =? 13) with true. cbn [negb]. rewrite orb_false_r.
  change 10 with (byte_of LF). rewrite byte_of_eqb. case_bool_decide as Hb; [subst b|naive_solver].
  destruct acc as [|c acc]; [naive_solver|]. rewrite !len_cons, (proj2 (Z.ltb_ge _ _)) by (pose proof (len_nonneg acc); lia).
  cbn [tail]. fold (str (rev (c :: acc))). split; [|naive_solver].
  intros [= <- <-]. split_and!; [done..|]. cbn [rev]. rewrite str_app. by destruct (str (rev acc)).
Qed.

(** The reader holds [acc], which has no CR: the frame ends at the next CRLF. *)
Lemma readFrame_line (stream rest f : string) (acc : list ascii) :
  forallb (fun c => line_byte (byte_of c)) acc = true -> len acc <= limit ->
  readFrame limit failure acc stream = (Ok f, rest)
  <-> exists g, stream = g +:+ crlf +:+ rest /\ f = str (rev acc) +:+ g /\ all_bytes line_byte g = true
                /\ f <> "" /\ slen f <= limit.
Proof.
  revert acc. induction stream as [|b stream IH]; intros acc Hacc Hlen.
  { split; [done|]. intros (g & Hg & _). by apply line_empty in Hg. }
  assert (Hcr : match acc with last :: _ => byte_of last =? 13 | [] => false end = false).
  { destruct acc as [|c acc]; [done|]. cbn in Hacc. apply andb_true_iff in Hacc as [Hc _].
    unfold line_byte in Hc. apply andb_true_iff in Hc as [Hc _]. by apply negb_true_iff in Hc. }
  cbn [readFrame]. rewrite Hcr. cbn [negb]. rewrite orb_true_r.
  destruct (byte_of b =? 10) eqn:H10.
  { split; [done|]. intros (g & Hg & _ & Hline & _). apply line_head in Hg as [(_ & -> & _)|(g' & _ & _ & Hb & _)]; [done| |done].
    unfold line_byte in Hb. rewrite H10 in Hb. by rewrite andb_false_r in Hb. }
  destruct (byte_of b =? 13) eqn:H13.
  { cbn [negb]. rewrite andb_false_r. cbn [orb]. rewrite (proj2 (Z.ltb_ge _ _)) by done.
    change 13 with (byte_of CR) in H13. rewrite byte_of_eqb in H13. breflect. subst b.
    rewrite readFrame_cr by done. split.
    - intros (-> & -> & Hne). exists "". rewrite string_app_nil, slen_str. split_and!; try done.
      unfold len in *. by rewrite length_rev.
    - intros (g & Hg & -> & Hline & Hne & _).
      apply line_head in Hg as [(-> & _ & ->)|(g' & _ & _ & Hb & _)]; [by rewrite string_app_nil in Hne |- *|done|done]. }
  cbn [negb]. rewrite andb_true_r, (proj2 (Z.ltb_ge limit _)) by done. rewrite orb_false_r.
  assert (Hb : line_byte (byte_of b) = true) by (unfold line_byte; by rewrite H10, H13).
  assert (Hne : b <> CR) by (intros ->; done).
  destruct (limit <=? len acc) eqn:Hlim.
  { split; [done|]. breflect. intros (g & Hg & -> & Hline & _ & Hf).
    apply line_head in Hg as [(_ & -> & _)|(g' & -> & _)]; [done| |done].
    rewrite slen_app, slen_str in Hf. unfold len in *. rewrite length_rev in Hf.
    unfold slen in Hf. cbn [String.length] in Hf. lia. }
  breflect. rewrite IH; [|cbn; by rewrite Hb|rewrite len_cons; lia].
  cbn [rev]. rewrite str_app. split.
  - intros (g & -> & -> & Hline & Hf). exists (String b g). rewrite string_app_assoc in Hf |- *. cbn [all_bytes].
    by rewrite Hb.
  - intros (g & Hg & -> & Hline & Hf). apply line_head in Hg as [(_ & -> & _)|(g' & -> & -> & _ & Hg')]; [done| |done].
    exists g'. by rewrite string_app_assoc.
Qed.
End readFrame.

(** The reader returns exactly the frames of the wire format: a frame is
    read from a stream if and only if the stream starts with the frame's bytes
    and CRLF, the frame is not empty, has neither CR nor LF and is no longer
    than the limit; the rest of the stream is left untouched, whatever the
    error at its end. *)
Theorem readFrame_exact (limit : Z) (failure : error) (stream f rest : string) :
  0 <= limit ->
  readFrame limit failure [] stream = (Ok f, rest)
  <-> stream = f +:+ crlf +:+ rest /\ all_bytes line_byte f = true /\ f <> "" /\ slen f <= limit.
Proof.
  intros Hlimit. rewrite readFrame_line by done. cbn. split.
  - intros (g & -> & -> & Hg). done.
  - intros (-> & Hf). by exists f.
Qed.

Lemma readFrame_exact_witness :
  readFrame 3 EOF [] ("abc" +:+ crlf +:+ "de") = (Ok "abc", "de")
  /\ readFrame 2 EOF [] ("abc" +:+ crlf) <> (Ok "abc", "").
Proof.
  split.
  - apply (readFrame_exact 3 EOF); [lia|]. by split_and!.
  - intros H. apply (readFrame_exact 2 EOF) in H; [|lia]. destruct H as (_ & _ & _ & H). by vm_compute in H.
Defined.

(** ** Escaping *)

Lemma pathUnescape_cons (c : ascii) (r : string) :
  c <> "%"%char -> pathUnescape (String c r) = (fun y => String c y) <$> pathUnescape r.
Proof.
  intros Hc. destruct c as [[] [] [] [] [] [] [] []]; try done; cbn; by destruct (pathUnescape r).
Qed.

Lemma pathUnescape_app (a b x : string) :
  pathUnescape a = Some x -> pathUnescape (a +:+ b) = (fun y => x +:+ y) <$> pathUnescape b.
Proof.
  remember (String.length a) as n eqn:Hn. revert a x Hn.
  induction n as [n IH] using lt_wf_ind. intros a x -> Ha.
  destruct a as [|c a].
  { injection Ha as <-. rewrite string_empty_app. by destruct (pathUnescape b). }
  destruct (decide (c = "%"%char)) as [->|Hc].
  - destruct a as [|h [|l a]]; try done. rewrite !string_cons_app. cbn in Ha |- *.
    destruct (hex_value (byte_of h)) as [vh|]; [|done]. destruct (hex_value (byte_of l)) as [vl|]; [|done].
    destruct (pathUnescape a) as [y|] eqn:Hy; [|done]. injection Ha as <-.
    rewrite (IH (String.length a)) with (x := y); [|cbn; lia|done..]. by destruct (pathUnescape b).
  - rewrite pathUnescape_cons in Ha by done. rewrite string_cons_app, pathUnescape_cons by done.
    destruct (pathUnescape a) as [y|] eqn:Hy; [|done]. injection Ha as <-.
    rewrite (IH (String.length a)) with (x := y); [|cbn; lia|done..]. by destruct (pathUnescape b).
Qed.

(** One escaped byte. *)
Definition pct_byte (c : ascii) : string := replace_byte "+" "%20" (escape_byte c).

Lemma pct_escape_bytes (s : string) : pct_escape s = concat_map pct_byte s.
Proof.
  unfold pct_escape, queryEscape, replace_byte. induction s as [|c s IH]; [done|].
  cbn [concat_map]. by rewrite concat_map_app, IH.
Qed.

(** What an escaped string is made of. *)
Definition escaped_byte (b : Z) : bool := unreserved b || (b =? 37).

Lemma pct_byte_spec (c : ascii) :
  pathUnescape (pct_byte c) = Some (str1 c) /\ all_bytes escaped_byte (pct_byte c) = true.
Proof. by destruct c as [[] [] [] [] [] [] [] []]. Qed.

Lemma pct_escape_escaped (s : string) : all_bytes escaped_byte (pct_escape s) = true.
Proof. rewrite pct_escape_bytes. apply all_bytes_concat_map. intros c. apply pct_byte_spec. Qed.

Lemma pct_escape_back (s : string) : pathUnescape (pct_escape s) = Some s.
Proof.
  rewrite pct_escape_bytes. induction s as [|c s IH]; [done|]. cbn [concat_map].
  rewrite (pathUnescape_app _ _ (str1 c)) by apply pct_byte_spec. by rewrite IH.
Qed.

(** Text without a percent sign is its own escape. *)
Lemma pathUnescape_plain (s : string) : all_bytes (fun b => negb (b =? 37)) s = true -> pathUnescape s = Some s.
Proof.
  induction s as [|c s IH]; [done|]. cbn [all_bytes]. intros [Hc Hs]%andb_true_iff.
  rewrite pathUnescape_cons by (by intros ->). by rewrite IH.
Qed.

(** A key of a command needs no escaping. *)
Lemma plain_key (k : string) : command_key_ok k = true -> pct_escape k = k.
Proof.
  unfold command_key_ok. intros [_ Hk]%andb_true_iff. rewrite pct_escape_bytes.
  induction k as [|c k IH]; [done|]. cbn in Hk |- *. apply andb_true_iff in Hk as [Hc Hk]. rewrite IH by done.
  replace (pct_byte c) with (str1 c); [done|]. clear -Hc.
  destruct c as [[] [] [] [] [] [] [] []]; cbn in Hc; done.
Qed.

(** ** Splitting what was joined *)

Section split.
Context (sep : ascii).
Definition no_sep (s : string) : bool := all_bytes (fun b => negb (b =? byte_of sep)) s.

Lemma split_nonempty (s : string) : split sep s <> [].
Proof. destruct s as [|c s]; [done|]. cbn. case_bool_decide; [done|]. by destruct (split sep s). Qed.

Lemma split_no_sep (s : string) : no_sep s = true -> split sep s = [s].
Proof.
  unfold no_sep. induction s as [|c s IH]; [done|]. cbn. rewrite byte_of_eqb. intros [Hc Hs]%andb_true_iff.
  apply negb_true_iff in Hc. by rewrite Hc, IH.
Qed.

Lemma split_app (s t : string) : no_sep s = true -> split sep (s +:+ String sep t) = s :: split sep t.
Proof.
  unfold no_sep. induction s as [|c s IH]; rewrite ?string_empty_app, ?string_cons_app; cbn.
  - by rewrite bool_decide_true.
  - rewrite byte_of_eqb. intros [Hc Hs]%andb_true_iff. apply negb_true_iff in Hc. by rewrite Hc, IH.
Qed.

Lemma split_join (parts : list string) :
  parts <> [] -> Forall (fun s => no_sep s = true) parts -> split sep (join (str1 sep) parts) = parts.
Proof.
  intros Hne Hparts. induction Hparts as [|s rest Hs Hrest IH]; [done|].
  destruct rest as [|s' rest]; [by apply split_no_sep|].
  change (join _ (s :: s' :: rest)) with (s +:+ String sep (join (str1 sep) (s' :: rest))).
  rewrite split_app by done. by rewrite IH.
Qed.

(** Any string is the join of its parts. *)
Lemma split_last (s : string) : exists parts last, split sep s = parts ++ [last] /\ no_sep last = true
  /\ forall t, split sep (s +:+ t) = parts ++ match split sep t with
                                              | first :: rest => (last +:+ first) :: rest
                                              | [] => [] end.
Proof.
  induction s as [|c s (parts & l & IH & Hl & Happ)].
  - exists [], "". split_and!; try done. intros t. rewrite string_empty_app.
    destruct (split sep t) as [|first rest]; done.
  - cbn. case_bool_decide as Hc.
    + exists ("" :: parts), l. rewrite IH. split_and!; try done. intros t. rewrite string_cons_app. cbn.
      rewrite bool_decide_true by done. by rewrite Happ.
    + rewrite IH. destruct parts as [|p parts].
      * exists [], (String c l). split_and!; try done.
        -- unfold no_sep in *. cbn. by rewrite byte_of_eqb, bool_decide_false, Hl.
        -- intros t. rewrite !string_cons_app. cbn. rewrite bool_decide_false by done. rewrite Happ.
           pose proof (split_nonempty t). by destruct (split sep t).
      * exists (String c p :: parts), l. split_and!; try done. intros t. rewrite string_cons_app. cbn.
        by rewrite bool_decide_false, Happ.
Qed.
End split.

Lemma cut_app (sep : ascii) (k v : string) : no_sep sep k = true -> cut sep (k +:+ String sep v) = (k, v, true).
Proof.
  unfold no_sep. induction k as [|c k IH]; rewrite ?string_empty_app, ?string_cons_app; cbn.
  - by rewrite bool_decide_true.
  - rewrite byte_of_eqb. intros [Hc Hs]%andb_true_iff. apply negb_true_iff in Hc. by rewrite Hc, IH.
Qed.

(** ** Decimal numbers *)

Lemma pretty_N_digits (x : N) (s : string) :
  all_bytes is_digit s = true -> all_bytes is_digit (pretty_N_go x s) = true.
Proof.
  revert s. induction (N.lt_wf_0 x) as [x _ IH]; intros s Hs.
  destruct (decide (0 < x)%N) as [Hx|Hx].
  - rewrite pretty_N_go_step by done. apply IH; [apply N.div_lt; lia|]. cbn [all_bytes]. rewrite Hs, andb_true_r.
    assert (Hd : (x `mod` 10 < 10)%N) by (apply N.mod_lt; lia).
    destruct (x `mod` 10)%N as [|[[[[]|[]|]|[[]|[]|]|]|[[[]|[]|]|[[]|[]|]|]|]]; cbn in Hd |- *; try done; lia.
  - assert (x = 0%N) as -> by lia. by rewrite pretty_N_go_0.
Qed.

Lemma itoa_digits (n : Z) : 0 <= n -> all_bytes is_digit (itoa n) = true.
Proof.
  intros Hn. unfold itoa. destruct n as [|p|p]; [done| |lia].
  unfold pretty, pretty_Z, pretty, pretty_positive, pretty, pretty_N. case_decide; [done|]. by apply pretty_N_digits.
Qed.

Definition range_text (start end_ : Z) : string := itoa start +:+ "," +:+ itoa end_.

Lemma range_text_bytes (p : Z -> bool) (start end_ : Z) :
  (forall b, is_digit b = true -> p b = true) -> p 44 = true -> 0 <= start -> 0 <= end_ ->
  all_bytes p (range_text start end_) = true.
Proof.
  intros Hp Hc Hs He. unfold range_text. rewrite !all_bytes_app.
  rewrite (all_bytes_impl is_digit p (itoa start)), (all_bytes_impl is_digit p (itoa end_)) by (done || by apply itoa_digits).
  cbn [all_bytes]. change (byte_of ",") with 44. by rewrite Hc.
Qed.

Lemma parseRange_bounds (value : string) (start end_ : Z) : parseRange value = Ok (start, end_) -> 0 <= start <= end_.
Proof.
  unfold parseRange. destruct (cut "," value) as [[first last] ok].
  destruct (atoi _) as [s|]; [|done]. destruct (atoi _) as [e|]; [|done].
  destruct (negb ok || (s <? 0) || (e <? s)) eqn:H; [done|]. intros [= <- <-].
  breflect. lia.
Qed.

(** ** Replacing a substring *)

Lemma prefix_split (p s : string) : String.prefix p s = true -> exists r, s = p +:+ r.
Proof.
  revert s. induction p as [|c p IH]; intros s; [by exists s|].
  destruct s as [|c' s]; [done|]. cbn. destruct (ascii_dec c c') as [<-|]; [|done].
  intros (r & ->)%IH. exists r. by rewrite string_cons_app.
Qed.

Lemma substring_all (s : string) (n : nat) : (String.length s <= n)%nat -> String.substring 0 n s = s.
Proof.
  revert n. induction s as [|c s IH]; intros [|n] Hn; cbn in *; try done; [lia|]. by rewrite IH by lia.
Qed.

Lemma substring_app (p r : string) (n : nat) :
  (String.length r <= n)%nat -> String.substring (String.length p) n (p +:+ r) = r.
Proof.
  intros Hn. induction p as [|c p IH]; [by apply substring_all|]. rewrite string_cons_app. cbn. apply IH.
Qed.

Lemma strip_prefix_spec (p s r : string) : strip_prefix p s = Some r -> s = p +:+ r.
Proof.
  unfold strip_prefix. destruct (String.prefix p s) eqn:Hp; [|done]. apply prefix_split in Hp as (r' & ->).
  rewrite substring_app; [by intros [= ->]|]. induction p as [|c p IH]; [done|]. rewrite string_cons_app. cbn. lia.
Qed.

Lemma replace_first_spec (old new s : string) :
  replace_first old new s = s \/ exists a b, s = a +:+ old +:+ b /\ replace_first old new s = a +:+ new +:+ b.
Proof.
  induction s as [|c s IH]; cbn [replace_first].
  - destruct (strip_prefix old "") as [r|] eqn:Hr; [|by left]. right. exists "", r.
    apply strip_prefix_spec in Hr. done.
  - destruct (strip_prefix old (String c s)) as [r|] eqn:Hr.
    + right. exists "", r. by apply strip_prefix_spec in Hr.
    + destruct IH as [->|(a & b & -> & ->)]; [by left|]. right. by exists (String c a), b.
Qed.

(** ** The query of a command *)

Definition query_part (k v : string) : string := k +:+ String "=" v.
Definition query_parts (args : Values) : list string :=
  map (fun k => query_part k (pct_escape (Values_Get args k))) (sorted_keys args).

Lemma replace_byte_app (c : ascii) (r s t : string) :
  replace_byte c r (s +:+ t) = replace_byte c r s +:+ replace_byte c r t.
Proof. apply concat_map_app. Qed.

Lemma replace_byte_join (c : ascii) (r sep : string) (parts : list string) :
  replace_byte c r (join sep parts) = join (replace_byte c r sep) (map (replace_byte c r) parts).
Proof.
  induction parts as [|s [|s' rest] IH]; [done|done|].
  change (join sep (s :: s' :: rest)) with (s +:+ sep +:+ join sep (s' :: rest)).
  rewrite !replace_byte_app, IH. done.
Qed.

Definition args_ok (args : Values) : Prop :=
  forall k l, args !! k = Some l -> command_key_ok k = true /\ exists v, l = [v].

Lemma args_ok_spec (args : Values) :
  forallb (fun kv => command_key_ok kv.1 && (len kv.2 =? 1)) (map_to_list args) = true -> args_ok args.
Proof.
  intros H k l Hk. apply elem_of_map_to_list, list_elem_of_In in Hk.
  eapply forallb_forall in H; [|exact Hk]. cbn in H. apply andb_true_iff in H as [Hkey Hlen].
  split; [done|]. apply Z.eqb_eq in Hlen. destruct l as [|v [|v' l]]; [done|by exists v|]. rewrite !len_cons in Hlen.
  pose proof (len_nonneg l). lia.
Qed.

Section query.
Context (args : Values) (Hargs : args_ok args).
#[local] Set Default Proof Using "All".

Lemma sorted_keys_elem (k : string) : k ∈ sorted_keys args <-> is_Some (args !! k).
Proof using Type. unfold sorted_keys. by rewrite merge_sort_Permutation, elem_of_elements, elem_of_dom. Qed.
Lemma sorted_keys_NoDup : NoDup (sorted_keys args).
Proof using Type. unfold sorted_keys. rewrite merge_sort_Permutation. apply NoDup_elements. Qed.

Lemma args_get (k : string) : is_Some (args !! k) -> args !! k = Some [Values_Get args k] /\ command_key_ok k = true.
Proof.
  intros [l Hl]. destruct (Hargs k l Hl) as [Hk [v ->]]. split; [|done].
  by unfold Values_Get, Values_values; rewrite Hl.
Qed.

Lemma query_encode : replace_byte "+" "%20" (Values_Encode args) = join "&" (query_parts args).
Proof.
  unfold Values_Encode. rewrite replace_byte_join. f_equal. unfold query_parts.
  assert (H : Forall (fun k => is_Some (args !! k)) (sorted_keys args)).
  { apply Forall_forall. intros k. by rewrite sorted_keys_elem. }
  induction H as [|k ks Hk _ IH]; [done|]. apply args_get in Hk as [Hk Hok]. cbn [flat_map].
  unfold Values_values at 1. rewrite Hk. cbn [default from_option id map app]. f_equal; [|exact IH].
  rewrite !replace_byte_app. fold (pct_escape k) (pct_escape (Values_Get args k)). by rewrite plain_key.
Qed.

Lemma parts_bytes (p : Z -> bool) :
  (forall b, escaped_byte b = true -> p b = true) -> p 61 = true -> Forall (fun s => all_bytes p s = true) (query_parts args).
Proof.
  intros Hp Heq. unfold query_parts. apply Forall_map, Forall_forall. intros k Hk.
  apply sorted_keys_elem, args_get in Hk as [_ Hk]. cbn. unfold query_part. rewrite all_bytes_app. cbn [all_bytes].
  change (byte_of "=") with 61. rewrite Heq, !(all_bytes_impl escaped_byte p); [done|done|apply pct_escape_escaped|done|].
  rewrite <- (plain_key k) by done. apply pct_escape_escaped.
Qed.
End query.

(** ** A command is one line *)

Definition printable (b : Z) : bool := (33 <=? b) && (b <=? 126).

Lemma escaped_printable (b : Z) : escaped_byte b = true -> printable b = true.
Proof. unfold escaped_byte, unreserved, is_digit, printable. intros H. bsolve. Qed.

Lemma split_bytes (p : Z -> bool) (sep : ascii) (s : string) :
  all_bytes p s = true -> Forall (fun part => all_bytes p part = true) (split sep s).
Proof.
  induction s as [|c s IH]; [by repeat constructor|]. cbn. intros [Hc Hs]%andb_true_iff.
  specialize (IH Hs). case_bool_decide; [by constructor|].
  destruct IH as [|first rest Hf Hr]; constructor; cbn; rewrite ?Hc; done.
Qed.

Section one_line.
Abbreviation printed s := (all_bytes printable s = true).

Lemma removal_query_printed (args : Values) (query query' : string) :
  printed query -> removal_query args query = Ok query' -> printed query'.
Proof.
  unfold removal_query. destruct (validateQueueRemoval _); [done|]. intros Hq [= <-].
  match goal with |- context [replace_first ?old ?new _] => destruct (replace_first_spec old new query) as [->|(a & b & Hab & ->)] end;
    [done|]. rewrite Hab in Hq. rewrite !all_bytes_app in Hq |- *. apply andb_true_iff in Hq as [Ha [_ Hb]%andb_true_iff].
  rewrite Ha, Hb, andb_true_r. cbn [andb]. apply andb_true_iff. split; [done|]. apply all_bytes_join; [done|].
  apply Forall_map, Forall_forall. intros id _. apply (all_bytes_impl escaped_byte); [apply escaped_printable|].
  apply pct_escape_escaped.
Qed.

Lemma range_query_printed (args : Values) (query query' : string) :
  printed query -> range_query args query = Ok query' -> printed query'.
Proof.
  unfold range_query. destruct (parseRange _) as [[start end_]|] eqn:Hr; [|done]. cbn. intros Hq [= <-].
  apply parseRange_bounds in Hr. apply all_bytes_join; [done|].
  pose proof (split_bytes printable "&" query Hq) as Hs. apply Forall_map, (Forall_impl _ _ _ Hs). intros part Hpart.
  case_bool_decide; [|done]. fold (range_text start end_). change ("range=" +:+ ?x) with ("range=" +:+ x).
  rewrite all_bytes_app, (range_text_bytes printable); try done; [|lia..].
  unfold is_digit, printable. intros b Hb. bsolve.
Qed.

(** Whatever the arguments, an encoded command is one line of at most 16 KiB:
    a scheme, the command's name and printable ASCII, ended by its only CRLF;
    no argument can smuggle a second command onto the wire. *)
Theorem command_is_one_line (name : string) (args : Values) (wire : string) :
  encodeCommand name args = Ok wire ->
  exists query, wire = ("heos://" +:+ name +:+ "?" +:+ query) +:+ crlf
    /\ all_bytes printable ("heos://" +:+ name +:+ "?" +:+ query) = true /\ slen wire <= 16384.
Proof.
  unfold encodeCommand. destruct (command_name_ok name) eqn:Hname; [|done]. cbn [negb].
  destruct (forallb _ (map_to_list args)) eqn:Hok; [|done]. cbn [negb]. apply args_ok_spec in Hok.
  rewrite query_encode by done.
  assert (Hq : printed (join "&" (query_parts args))).
  { apply all_bytes_join; [done|]. by apply parts_bytes; [| apply escaped_printable|]. }
  assert (Hn : printed name).
  { unfold command_name_ok in Hname. apply andb_true_iff in Hname as [_ Hname].
    revert Hname. apply all_bytes_impl. intros b Hb. unfold printable. bsolve. }
  destruct (if name == "player/remove_from_queue" then _ else _) as [query|] eqn:Hremove; [|done]. cbn.
  assert (Hq' : printed query). { revert Hremove. case_bool_decide; [by apply removal_query_printed|by intros [= <-]]. }
  destruct (if Values_Has args "range" then _ else _) as [query'|] eqn:Hrange; [|done]. cbn.
  assert (Hq'' : printed query'). { revert Hrange. destruct (Values_Has _ _); [by apply range_query_printed|by intros [= <-]]. }
  case_if; [done|]. intros [= <-]. exists query'. rewrite !string_app_assoc. split_and!; [done| |].
  - by rewrite !all_bytes_app, Hn, Hq''.
  - by apply Z.ltb_ge.
Qed.
End one_line.

Lemma command_is_one_line_witness :
  exists query, "heos://player/set_mute?pid=1%0D%0A&state=on" +:+ crlf = ("heos://player/set_mute?" +:+ query) +:+ crlf
    /\ all_bytes printable ("heos://player/set_mute?" +:+ query) = true.
Proof.
  destruct (command_is_one_line "player/set_mute" (Values_Set {["pid" := [String "1" crlf]]} "state" "on")
              ("heos://player/set_mute?pid=1%0D%0A&state=on" +:+ crlf)) as (query & Hq & Hp & _);
    [vm_compute; reflexivity|]. exists query. split; [exact Hq|exact Hp].
Defined.

(** ** Decoding a query *)

(** The text HEOS can carry. *)
Definition text_ok (s : string) : bool := validUTF8 s && negb (contains_byte 0 s).

Lemma decodeText_of (wire s : string) : pathUnescape wire = Some s -> text_ok s = true -> decodeText wire = Ok s.
Proof.
  unfold decodeText, text_ok. intros -> [H0 Hz]%andb_true_iff. rewrite H0. cbn. by apply negb_true_iff in Hz as ->.
Qed.

Lemma ascii_valid (s : string) : all_bytes (fun b => b <? 128) s = true -> validUTF8 s = true.
Proof.
  unfold validUTF8, runes. induction s as [|c s IH]; [done|]. cbn [all_bytes String.length runes_fuel].
  intros [Hc Hs]%andb_true_iff. cbn [next_rune]. rewrite Hc. cbn [forallb]. by rewrite IH.
Qed.

Lemma key_text_ok (k : string) : command_key_ok k = true -> text_ok k = true.
Proof.
  unfold command_key_ok. intros [_ Hk]%andb_true_iff. unfold text_ok, contains_byte, any_byte.
  rewrite negb_involutive. apply andb_true_iff. split.
  - apply ascii_valid. revert Hk. apply all_bytes_impl. intros b Hb. bsolve.
  - revert Hk. apply all_bytes_impl. intros b Hb. bsolve.
Qed.

(** Adding the pairs of a list of keys. *)
Definition set_all (v : string -> string) (ks : list string) (m : Values) : Values :=
  foldl (fun m k => Values_Set m k (v k)) m ks.

Lemma set_all_lookup (v : string -> string) (ks : list string) (m : Values) (k : string) :
  NoDup ks -> set_all v ks m !! k = if decide (k ∈ ks) then Some [v k] else m !! k.
Proof.
  intros Hnd. revert m. induction Hnd as [|k' ks Hk' _ IH]; intros m; [done|].
  change (set_all v (k' :: ks) m) with (set_all v ks (Values_Set m k' (v k'))). rewrite IH. unfold Values_Set.
  destruct (decide (k ∈ ks)); [by rewrite decide_True by (by right)|].
  destruct (decide (k = k')) as [->|Hne].
  - by rewrite decide_True, lookup_insert_eq by left.
  - rewrite decide_False, lookup_insert_ne by (done || rewrite elem_of_cons; naive_solver). done.
Qed.

Section decode.
Context (v wire : string -> string).
Definition sends (k : string) : Prop :=
  command_key_ok k = true /\ pathUnescape (wire k) = Some (v k) /\ text_ok (v k) = true.
#[local] Set Default Proof Using "Type".

Lemma key_no_eq (k : string) : command_key_ok k = true -> no_sep "=" k = true.
Proof.
  unfold command_key_ok. intros [_ Hk]%andb_true_iff. revert Hk. apply all_bytes_impl.
  change (byte_of "=") with 61. intros b Hb. bsolve.
Qed.

Lemma params_fold (ks : list string) (m : Values) :
  NoDup ks -> Forall sends ks -> Forall (fun k => m !! k = None) ks ->
  foldl params_step (Ok m) (map (fun k => query_part k (wire k)) ks) = Ok (set_all v ks m).
Proof.
  intros Hnd. revert m. induction Hnd as [|k ks Hk _ IH]; intros m Hs Hm; [done|].
  apply Forall_cons in Hs as [(Hok & Hwire & Htext) Hs]. apply Forall_cons in Hm as [Hmk Hm].
  cbn [map foldl]. unfold params_step at 2. cbn.
  rewrite bool_decide_false by (by destruct k). unfold query_part at 1.
  rewrite cut_app by (by apply key_no_eq).
  rewrite (decodeText_of k k), (decodeText_of _ (v k)); [|done..| |by apply key_text_ok].
  2:{ rewrite <- (plain_key k) at 1 by done. apply pct_escape_back. }
  rewrite bool_decide_false; [|intros ->; by unfold command_key_ok in Hok]. unfold Values_Has. rewrite Hmk. cbn.
  rewrite IH; [done|done|]. apply Forall_forall. intros k' Hk'. unfold Values_Set.
  rewrite lookup_insert_ne by (by intros ->). by apply (proj1 (Forall_forall _ _) Hm).
Qed.
End decode.

(** The decoder sees the list of parts. *)
Lemma decode_parts (parts : list string) :
  Forall (fun s => no_sep "&" s = true) parts -> decode_params (join "&" parts) = foldl params_step (Ok ∅) parts.
Proof.
  intros Hparts. unfold decode_params. destruct parts as [|p parts]; [done|].
  change (join "&" ?l) with (join (str1 "&") l). by rewrite split_join.
Qed.

(** The arguments a device sees: a range in its canonical spelling. *)
Definition canonical_args (args : Values) : Values :=
  match parseRange (Values_Get args "range") with
  | Ok (start, end_) => if Values_Has args "range" then Values_Set args "range" (range_text start end_) else args
  | Err _ => args
  end.

Definition texts_ok (args : Values) : Prop := forall k v, args !! k = Some [v] -> text_ok v = true.

Lemma sent_no_amp (wire : string -> string) (ks : list string) :
  Forall (fun k => command_key_ok k = true /\ no_sep "&" (wire k) = true) ks ->
  Forall (fun s => no_sep "&" s = true) (map (fun k => query_part k (wire k)) ks).
Proof.
  intros H. apply Forall_map, (Forall_impl _ _ _ H). intros k [Hk Hw]. unfold no_sep, query_part in *.
  rewrite all_bytes_app. cbn [all_bytes]. rewrite Hw, andb_true_r.
  change (negb (byte_of "=" =? byte_of "&")) with true. rewrite ?andb_true_r.
  unfold command_key_ok in Hk. apply andb_true_iff in Hk as [_ Hk]. revert Hk. apply all_bytes_impl.
  change (byte_of "&") with 38. intros b Hb. bsolve.
Qed.

Lemma escaped_no_sep (sep : ascii) (s : string) : escaped_byte (byte_of sep) = false -> no_sep sep (pct_escape s) = true.
Proof.
  intros Hsep. unfold no_sep. apply (all_bytes_impl escaped_byte); [|apply pct_escape_escaped].
  intros b Hb. apply negb_true_iff, Z.eqb_neq. congruence.
Qed.

(** A query whose parts spell [v k] for every key [k] of the arguments. *)
Lemma decode_keys (args : Values) (v wire : string -> string) :
  args_ok args -> (forall k, is_Some (args !! k) -> sends v wire k /\ no_sep "&" (wire k) = true) ->
  decode_params (join "&" (map (fun k => query_part k (wire k)) (sorted_keys args)))
  = Ok (map_imap (fun k _ => Some [v k]) args).
Proof.
  intros Hargs Hsend.
  assert (Hks : Forall (fun k => sends v wire k /\ no_sep "&" (wire k) = true) (sorted_keys args)).
  { apply Forall_forall. intros k Hk. by apply Hsend, sorted_keys_elem. }
  rewrite decode_parts by (apply sent_no_amp, (Forall_impl _ _ _ Hks); intros k [[] ?]; done).
  rewrite (params_fold v wire); [|apply sorted_keys_NoDup|apply (Forall_impl _ _ _ Hks); by intros k []|].
  2:{ apply Forall_forall. intros k _. apply lookup_empty. }
  f_equal. apply map_eq. intros k. rewrite set_all_lookup by apply sorted_keys_NoDup.
  rewrite map_lookup_imap, lookup_empty. case_decide as Hk; rewrite sorted_keys_elem in Hk.
  - by destruct Hk as [l ->].
  - apply eq_None_not_Some in Hk. by rewrite Hk.
Qed.

Section roundtrip.
Context (args : Values) (Hargs : args_ok args) (Htexts : texts_ok args).
#[local] Set Default Proof Using "All".

Lemma plain_decodes : decode_params (join "&" (query_parts args)) = Ok args.
Proof.
  unfold query_parts. rewrite (decode_keys args (Values_Get args)); [|done|].
  - f_equal. apply map_eq. intros k. rewrite map_lookup_imap. destruct (args !! k) eqn:Hk; [|done].
    cbn. rewrite <- Hk. symmetry. by apply args_get.
  - intros k Hk. apply args_get in Hk as [Hk Hok]; [|done]. unfold sends. split_and!; [done| | |].
    + apply pct_escape_back.
    + by apply (Htexts k).
    + by apply escaped_no_sep.
Qed.

Lemma range_decodes (query : string) :
  range_query args (join "&" (query_parts args)) = Ok query -> Values_Has args "range" = true ->
  decode_params query = Ok (canonical_args args).
Proof.
  unfold range_query, canonical_args. destruct (parseRange _) as [[start end_]|] eqn:Hr; [|done]. cbn.
  intros [= <-] Hhas. rewrite Hhas. apply parseRange_bounds in Hr.
  unfold Values_Has in Hhas. destruct (args !! "range") as [l|] eqn:Hl; [clear Hhas|done].
  change (join "&" (query_parts args)) with (join (str1 "&") (query_parts args)).
  set (v k := if decide (k = "range") then range_text start end_ else Values_Get args k).
  set (wire k := if decide (k = "range") then range_text start end_ else pct_escape (Values_Get args k)).
  assert (Hne : query_parts args <> []).
  { unfold query_parts. assert (Hin : "range" ∈ sorted_keys args) by (apply sorted_keys_elem; by exists l).
    destruct (sorted_keys args); [by apply elem_of_nil in Hin|done]. }
  rewrite split_join; [|done|].
  2:{ unfold query_parts. apply sent_no_amp, Forall_forall. intros k Hk. apply sorted_keys_elem, args_get in Hk as [_ Hk]; [|done].
      split; [done|by apply escaped_no_sep]. }
  unfold query_parts. rewrite map_map.
  rewrite (map_ext_in _ (fun k => query_part k (wire k))).
  2:{ intros k Hk%list_elem_of_In. apply sorted_keys_elem, args_get in Hk as [_ Hk]; [|done]. unfold wire.
      change ("range=" +:+ ?x) with (query_part "range" x). case_bool_decide as Heq.
      - apply (f_equal (cut "=")) in Heq. unfold query_part in Heq. rewrite !cut_app in Heq by (done || by apply key_no_eq).
        injection Heq as -> _. done.
      - case_decide; [by subst k|done]. }
  rewrite (decode_keys args v wire); [|done|].
  - f_equal. apply map_eq. intros k. rewrite map_lookup_imap. unfold Values_Set, v.
    destruct (decide (k = "range")) as [->|Hk]; [by rewrite lookup_insert_eq, Hl|].
    rewrite lookup_insert_ne by done. destruct (args !! k) eqn:Hk'; [|done]. cbn.
    rewrite <- Hk'. symmetry. by apply args_get.
  - intros k Hk. apply args_get in Hk as [Hk Hok]; [|done]. unfold sends, v, wire. case_decide.
    + assert (Hb : forall p : Z -> bool, (forall b, is_digit b = true -> p b = true) -> p 44 = true ->
          all_bytes p (range_text start end_) = true) by (intros; apply range_text_bytes; done || lia).
      split_and!; [done| | |].
      * apply pathUnescape_plain, Hb; [|done]. intros b. unfold is_digit. intros. bsolve.
      * unfold text_ok, contains_byte, any_byte. rewrite negb_involutive. apply andb_true_iff. split; [apply ascii_valid|];
          apply Hb; try done; intros b; unfold is_digit; intros; bsolve.
      * apply Hb; [|done]. change (byte_of "&") with 38. intros b. unfold is_digit. intros. bsolve.
    + split_and!; [done|apply pct_escape_back|by apply (Htexts k)|by apply escaped_no_sep].
Qed.
End roundtrip.

(** ** Respelling a value in place

    An equals sign is not a hexadecimal digit, so what follows one is decoded on
    its own: two spellings of a value are interchangeable there. *)

Lemma pathUnescape_eq_cons (x : string) : pathUnescape (String "=" x) = (fun y => String "=" y) <$> pathUnescape x.
Proof. by apply pathUnescape_cons. Qed.

Lemma pathUnescape_tail (l x y : string) :
  pathUnescape x = pathUnescape y -> pathUnescape (l +:+ String "=" x) = pathUnescape (l +:+ String "=" y).
Proof.
  intros Hxy. remember (String.length l) as n eqn:Hn. revert l Hn.
  induction n as [n IH] using lt_wf_ind. intros l ->.
  destruct l as [|c l]; [by rewrite !string_empty_app, !pathUnescape_eq_cons, Hxy|].
  rewrite !string_cons_app. destruct (decide (c = "%"%char)) as [->|Hc].
  - destruct l as [|h [|d l]]; rewrite ?string_empty_app, ?string_cons_app.
    + cbn. by destruct x, y.
    + cbn. by destruct (hex_value (byte_of h)).
    + cbn. by rewrite (IH (String.length l)) by (cbn; lia).
  - rewrite !pathUnescape_cons by done. by rewrite (IH (String.length l)) by (cbn; lia).
Qed.

(** Either the equals sign is the first one, or an earlier one cuts. *)
Lemma cut_at (l : string) :
  (forall x, cut "=" (l +:+ String "=" x) = (l, x, true))
  \/ exists k v, forall x, cut "=" (l +:+ String "=" x) = (k, v +:+ String "=" x, true).
Proof.
  induction l as [|c l IH]; [by left|]. destruct (decide (c = "="%char)) as [->|Hc].
  - right. exists "", l. done.
  - destruct IH as [IH|(k & v & IH)]; [left|right; exists (String c k), v]; intros x;
      rewrite string_cons_app; cbn; by rewrite bool_decide_false, IH.
Qed.

Lemma params_step_swap (acc : Result Values) (l x y : string) :
  pathUnescape x = pathUnescape y -> params_step acc (l +:+ String "=" x) = params_step acc (l +:+ String "=" y).
Proof.
  intros Hxy. destruct acc as [params|]; [|done]. cbn.
  rewrite !bool_decide_false by (by destruct l).
  destruct (cut_at l) as [Hcut|(k & v & Hcut)]; rewrite !Hcut; unfold decodeText.
  - by rewrite Hxy.
  - by rewrite (pathUnescape_tail v x y).
Qed.

Lemma decode_swap (a b x y : string) (v : string) :
  pathUnescape x = Some v -> pathUnescape y = Some v -> no_sep "&" x = true -> no_sep "&" y = true ->
  decode_params (a +:+ String "=" (x +:+ b)) = decode_params (a +:+ String "=" (y +:+ b)).
Proof.
  intros Hx Hy Hnx Hny. unfold decode_params. destruct (split_last "&" a) as (parts & l & _ & _ & Ha).
  assert (Hsplit : forall z, no_sep "&" z = true -> exists rest first, split "&" b = first :: rest
            /\ split "&" (a +:+ String "=" (z +:+ b)) = parts ++ (l +:+ String "=" (z +:+ first)) :: rest).
  { intros z Hz. rewrite Ha.
    assert (Hz' : no_sep "&" (String "=" z) = true) by (unfold no_sep in *; cbn; by rewrite Hz).
    destruct (split_last "&" (String "=" z)) as (parts' & l' & Hl & _ & Hb). rewrite split_no_sep in Hl by done.
    specialize (Hb b). rewrite string_cons_app in Hb. rewrite Hb.
    destruct parts' as [|? [|]]; try done. injection Hl as <-. pose proof (split_nonempty "&" b).
    destruct (split "&" b) as [|first rest]; [done|]. exists rest, first. cbn. by rewrite string_cons_app. }
  destruct (Hsplit x Hnx) as (rest & first & Hb & ->). destruct (Hsplit y Hny) as (rest' & first' & Hb' & ->).
  rewrite Hb in Hb'. injection Hb' as <- <-. rewrite !foldl_app. cbn. f_equal. apply params_step_swap.
  by rewrite (pathUnescape_app x first v), (pathUnescape_app y first v).
Qed.

Lemma pathUnescape_join (ids : list string) : pathUnescape (join "," (map pct_escape ids)) = Some (join "," ids).
Proof.
  induction ids as [|id [|id' ids] IH]; [done|apply pct_escape_back|].
  change (join "," (map pct_escape (id :: id' :: ids)))
    with (pct_escape id +:+ "," +:+ join "," (map pct_escape (id' :: ids))).
  rewrite (pathUnescape_app _ _ id) by apply pct_escape_back. cbn [String.append].
  change ("," +:+ ?x) with (String "," x). rewrite pathUnescape_cons by done. by rewrite IH.
Qed.

Lemma join_split (sep : ascii) (s : string) : join (str1 sep) (split sep s) = s.
Proof.
  induction s as [|c s IH]; [done|]. cbn. pose proof (split_nonempty sep s). case_bool_decide as Hc.
  - subst c. destruct (split sep s) as [|first rest]; [done|].
    change (join (str1 sep) ("" :: first :: rest)) with (String sep (join (str1 sep) (first :: rest))). by rewrite IH.
  - destruct (split sep s) as [|first [|next rest]]; [done| |].
    + cbn in *. by rewrite IH.
    + change (join (str1 sep) (String c first :: next :: rest))
        with (String c first +:+ str1 sep +:+ join (str1 sep) (next :: rest)).
      rewrite string_cons_app. by rewrite <- IH.
Qed.

Lemma removal_decodes (args : Values) (query query' : string) :
  removal_query args query = Ok query' -> decode_params query' = decode_params query.
Proof.
  unfold removal_query. destruct (validateQueueRemoval _); [done|]. intros [= <-].
  match goal with |- context [replace_first ?old ?new _] => destruct (replace_first_spec old new query) as [->|(a & b & -> & ->)] end;
    [done|].
  assert (Hqid : forall x, a +:+ ("qid=" +:+ x) +:+ b = (a +:+ "qid") +:+ String "=" (x +:+ b))
    by (intros; by rewrite (string_app_assoc a)).
  rewrite !Hqid.
  apply (decode_swap (a +:+ "qid") b _ _ (Values_Get args "qid")).
  - rewrite pathUnescape_join. change "," with (str1 ","%char). by rewrite join_split.
  - apply pct_escape_back.
  - apply all_bytes_join; [done|]. apply Forall_map, Forall_forall. intros id _. by apply escaped_no_sep.
  - by apply escaped_no_sep.
Qed.


