(* ===== verification/ProtocolTypes.v ===== *)
(** * Values that cross the wire are well formed

    What the decoder accepts, what the encoder is asked to encode, and what a
    partial write reports. *)

From S2P Require Import Prelude GoStd Values Model Errors Json Protocol ProtocolProps.
From Stdlib Require Import Ascii.

(** ** Decoding *)

Lemma decodeText_ok (s v : string) : decodeText s = Ok v -> text_ok v = true.
Proof.
  unfold decodeText, text_ok. destruct (pathUnescape s) as [u|]; [|done]. case_if; [done|]. intros [= <-].
  apply orb_false_iff in Heqb as [Hu Hn]. apply negb_false_iff in Hu. by rewrite Hu, Hn.
Qed.

(** Decoded parameters: one value per key, both of them text. *)
Definition params_ok (params : Values) : Prop :=
  map_Forall (fun k l => k <> "" /\ text_ok k = true /\ exists v, l = [v] /\ text_ok v = true) params.

Lemma params_step_ok (acc : Result Values) (pair : string) (params : Values) :
  (forall m, acc = Ok m -> params_ok m) -> params_step acc pair = Ok params -> params_ok params.
Proof.
  intros Hacc. destruct acc as [m|]; [|done]. specialize (Hacc m eq_refl). cbn. case_if; [by intros [= <-]|].
  destruct (cut "=" pair) as [[key value] ok]. destruct (decodeText key) as [k|] eqn:Hk; [|done].
  destruct (decodeText value) as [v|] eqn:Hv; [|done]. case_if; [done|]. intros [= <-]. breflect.
  apply map_Forall_insert_2; [|done]. split_and!; [done|by eapply decodeText_ok|].
  exists v. split; [done|by eapply decodeText_ok].
Qed.

Lemma decode_params_ok (message : string) (params : Values) : decode_params message = Ok params -> params_ok params.
Proof.
  unfold decode_params. assert (H0 : forall m : Values, Ok ∅ = Ok m -> params_ok m)
    by (intros m [= <-]; apply map_Forall_empty).
  revert H0. generalize (Ok ∅ : Result Values). induction (split "&" message) as [|pair pairs IH]; intros acc Hacc; [apply Hacc|].
  cbn [foldl]. apply IH. intros m. by apply params_step_ok.
Qed.

(** C18. A response the decoder accepts is well formed: it has a command, a reply
    succeeds or fails while an event is exactly what an event command says, no
    parameter is repeated or nameless, and every name and value is UTF-8 text
    without NUL. *)
Theorem response_well_formed (f : frame) (r : Response) :
  decodeResponse f = Ok r ->
  Resp_Command r <> "" /\ Resp_Event r = hasPrefix (Resp_Command r) "event/"
  /\ (Resp_Event r = false -> Resp_Result r = "success" \/ Resp_Result r = "fail")
  /\ params_ok (Resp_Params r).
Proof.
  unfold decodeResponse. case_if; [done|]. destruct (Frame_json f) as [[| | | | |fields]|]; try done.
  destruct (object_field "heos" fields) as [heos|e]; [|intros [=]]. cbn.
  destruct (string_field "command" heos) as [command|e]; [|intros [=]]. cbn.
  destruct (string_field "result" heos) as [result|e]; [|intros [=]]. cbn.
  destruct (string_field "message" heos) as [message|e]; [|intros [=]]. cbn.
  destruct (_ || _) eqn:Hbad; [done|]. destruct (decode_params message) as [params|] eqn:Hp; [|done].
  intros [= <-]. cbn. apply orb_false_iff in Hbad as [Hc Hr]. apply bool_decide_eq_false in Hc.
  split_and!; [done..| |by eapply decode_params_ok]. intros Hevent. rewrite Hevent in Hr. cbn in Hr.
  destruct (decide (result = "success")) as [|Hs]; [by left|]. rewrite bool_decide_false in Hr by done.
  right. destruct (decide (result = "fail")) as [|Hf]; [done|]. by rewrite bool_decide_false in Hr.
Qed.

Lemma response_well_formed_witness :
  let r := {| Resp_Command := "event/player_state_changed"; Resp_Result := "";
              Resp_Params := Values_Set {["pid" := ["1"]]} "state" "play"; Resp_Payload := None;
              Resp_Options := None; Resp_Event := true; Resp_Pending := false; Resp_Token := Token_zero |} in
  Resp_Command r <> "" /\ Resp_Event r = hasPrefix (Resp_Command r) "event/"
  /\ (Resp_Event r = false -> Resp_Result r = "success" \/ Resp_Result r = "fail")
  /\ params_ok (Resp_Params r).
Proof.
  apply (response_well_formed {| Frame_utf8 := true; Frame_json := Some (JObject [("heos", JObject
    [("command", JString "event/player_state_changed"); ("message", JString "pid=1&state=play")])]) |}).
  vm_compute. reflexivity.
Defined.

(** ** Partial writes *)

(** What the socket is trusted for: it never reports more than it was given. *)
Definition writer (w : nat -> string -> nat * option error) : Prop :=
  forall turn p n err, w turn p = (n, err) -> (n <= String.length p)%nat.

Lemma substring_length (n : nat) (p : string) :
  (n <= String.length p)%nat -> String.length (String.substring n (String.length p) p) = (String.length p - n)%nat.
Proof.
  assert (H : forall m n p, (n + m >= String.length p)%nat -> String.length (String.substring n m p) = (String.length p - n)%nat).
  { clear. intros m n p. revert m n. induction p as [|c p IH]; intros m n H; [by destruct m, n|].
    destruct n as [|n]; [|cbn in *; apply IH; lia]. destruct m as [|m]; [cbn in H; lia|].
    cbn in *. rewrite IH; lia. }
  intros Hn. apply H. lia.
Qed.

Section writes.
Context (w : nat -> string -> nat * option error) (Hw : writer w).
#[local] Set Default Proof Using "All".

Lemma write_loop_accounts (fuel turn total : nat) (p : string) :
  (String.length p <= fuel)%nat ->
  (total <= (write_loop w fuel turn total p).1 <= total + String.length p)%nat
  /\ ((write_loop w fuel turn total p).2 = None -> (write_loop w fuel turn total p).1 = total + String.length p)%nat.
Proof.
  revert turn total p. induction fuel as [|fuel IH]; intros turn total p Hfuel.
  { destruct p; cbn in *; lia. }
  destruct p as [|c p]; [cbn; lia|]. cbn [write_loop].
  destruct (w turn (String c p)) as [n [e|]] eqn:Hn; pose proof (Hw _ _ _ _ Hn); [cbn [fst snd]; split; [lia|done]|].
  destruct (n =? 0)%nat eqn:H0; [cbn [fst snd]; split; [lia|done]|]. apply Nat.eqb_neq in H0.
  pose proof (substring_length n (String c p) ltac:(done)) as Hl.
  destruct (IH (S turn) (total + n)%nat (String.substring n (String.length (String c p)) (String c p))) as [H1 H2]; [lia|].
  split; [lia|]. intros Hnone. rewrite H2 by done. lia.
Qed.
End writes.

(** A write of a command accounts for its bytes: over any socket that does
    not claim more than it was handed, the count never exceeds the command's
    length, and no error means that every byte was taken. *)
Theorem writeAll_accounts (w : nat -> string -> nat * option error) (p : string) :
  writer w ->
  ((writeAll w p).1 <= String.length p)%nat
  /\ ((writeAll w p).2 = None -> (writeAll w p).1 = String.length p).
Proof.
  intros Hw. unfold writeAll. destruct (write_loop_accounts w Hw (String.length p) 0 0 p) as [H1 H2]; [done|].
  split; [lia|done].
Qed.

Lemma writeAll_accounts_witness :
  let w turn p := (Nat.min 2 (String.length p), None) in writeAll w "abcde" = (5%nat, None).
Proof.
  intros w. destruct (writeAll_accounts w "abcde") as [_ H].
  - intros turn p n err Hp. unfold w in Hp. apply (f_equal fst) in Hp. cbn [fst] in Hp. lia.
  - specialize (H eq_refl). destruct (writeAll w "abcde") as [n e] eqn:Hw. vm_compute in Hw. by injection Hw as <- <-.
Defined.
