(* ===== verification/Client.v ===== *)
(** * The device connection ([internal/heos/client.go], [writes.go])

    One goroutine owns the socket.  It takes requests from two mailboxes, checks
    a write's guard against the tokens, and classifies what became of the bytes.
    Everyone else shares the fields under the client's mutex.  The owner is a
    program in a state monad: between two of its atomic steps other goroutines
    act, and an environment answers for the clock, the sockets and the choices
    of [select].  The log records what leaves the owner. *)

From S2P Require Import Prelude GoStd Values Model Errors Events Protocol.

(** ** State *)

Record playerWrite := { PW_revision : Z; PW_mutation : Mutation }.
Definition playerWrite_zero : playerWrite := Build_playerWrite 0 Mutation_zero.

Record ClientConfig := {
  CC_EnableWrites : bool;
  CC_ConnectTimeout : Duration;
  CC_CommandTimeout : Duration;
  CC_ReconnectDelay : Duration;
  CC_QueueDepth : Z;
  CC_EventBuffer : Z;
  CC_FrameBytes : Z
}.
#[export] Instance ClientConfig_eta : Eta ClientConfig := fun c =>
  {| CC_EnableWrites := CC_EnableWrites c; CC_ConnectTimeout := CC_ConnectTimeout c;
     CC_CommandTimeout := CC_CommandTimeout c; CC_ReconnectDelay := CC_ReconnectDelay c;
     CC_QueueDepth := CC_QueueDepth c; CC_EventBuffer := CC_EventBuffer c; CC_FrameBytes := CC_FrameBytes c |}.

(** [request]: its result channel and its [state] are in the client's stores,
    under the request's identity. *)
Record request := {
  Req_id : nat;
  Req_guard : option Guard;
  Req_mutation : Mutation;
  Req_priority : bool;
  Req_command : string;
  Req_args : Values;
  Req_fence : Z
}.
#[export] Instance request_eta : Eta request := fun r =>
  {| Req_id := Req_id r; Req_guard := Req_guard r; Req_mutation := Req_mutation r; Req_priority := Req_priority r;
     Req_command := Req_command r; Req_args := Req_args r; Req_fence := Req_fence r |}.

(** The reply of an exchange: Go returns the pair. *)
Abbreviation reply := (Response * option error)%type.

(** [C_active] is the context of the current request: absent, running, or
    cancelled with a cause.  [C_requests] and [C_priority] are the mailboxes;
    [C_states] holds [request.state]: 0 queued, 1 owned, 2 withdrawn. *)
Record Client := {
  C_View : View;
  C_fence : Z;
  C_active : option (option error);
  C_connection : option nat;
  C_priorityMode : Z;
  C_sequence : Z;
  C_everReady : bool;
  C_players : gmap ID Z;
  C_writes : gmap ID playerWrite;
  C_progressSequence : Z;
  C_events : list Event;
  C_requests : list request;
  C_priority : list request;
  C_states : gmap nat Z;
  C_results : gmap nat reply;
  C_stopped : bool;
  C_done : bool
}.
#[export] Instance Client_eta : Eta Client := fun c =>
  {| C_View := C_View c; C_fence := C_fence c; C_active := C_active c; C_connection := C_connection c;
     C_priorityMode := C_priorityMode c; C_sequence := C_sequence c; C_everReady := C_everReady c;
     C_players := C_players c; C_writes := C_writes c; C_progressSequence := C_progressSequence c;
     C_events := C_events c; C_requests := C_requests c; C_priority := C_priority c; C_states := C_states c;
     C_results := C_results c; C_stopped := C_stopped c; C_done := C_done c |}.
Definition Client_zero : Client := {|
  C_View := Build_View Token_zero false; C_fence := 0; C_active := None; C_connection := None; C_priorityMode := 0;
  C_sequence := 0; C_everReady := false; C_players := ∅; C_writes := ∅; C_progressSequence := 0; C_events := [];
  C_requests := []; C_priority := []; C_states := ∅; C_results := ∅; C_stopped := false; C_done := false |}.

Record generation := { Gen_id : nat; Gen_subscribed : bool }.

(** A frame of the reader goroutine. *)
Abbreviation incoming := (Result Response).

(** [New]: the defaults and the bounds of the configuration. *)
Definition default_to (z d : Z) : Z := if z =? 0 then d else z.
Definition Config_defaults (cfg : ClientConfig) : ClientConfig :=
  cfg <| CC_ConnectTimeout := default_to (CC_ConnectTimeout cfg) (5 * Second) |>
      <| CC_CommandTimeout := default_to (CC_CommandTimeout cfg) (20 * Second) |>
      <| CC_ReconnectDelay := default_to (CC_ReconnectDelay cfg) Second |>
      <| CC_QueueDepth := default_to (CC_QueueDepth cfg) 16 |>
      <| CC_EventBuffer := default_to (CC_EventBuffer cfg) 32 |>
      <| CC_FrameBytes := default_to (CC_FrameBytes cfg) (256 * 1024) |>.
Definition Config_rejected (cfg : ClientConfig) : bool :=
  (CC_ConnectTimeout cfg <=? 0) || (30 * Second <? CC_ConnectTimeout cfg)
  || (CC_CommandTimeout cfg <=? 0) || (30 * Second <? CC_CommandTimeout cfg)
  || (CC_ReconnectDelay cfg <=? 0) || (Minute <? CC_ReconnectDelay cfg)
  || (CC_QueueDepth cfg <? 1) || (64 <? CC_QueueDepth cfg)
  || (CC_EventBuffer cfg <? 1) || (256 <? CC_EventBuffer cfg)
  || (CC_FrameBytes cfg <? 1024) || (2 ^ 20 <? CC_FrameBytes cfg).
Definition Config_limits (cfg : ClientConfig) : Result ClientConfig :=
  let cfg := Config_defaults cfg in
  if Config_rejected cfg then Err (EText "HEOS limits out of bounds") else Ok cfg.

(** ** Critical sections *)

Definition bump_revision (v : View) : View :=
  v <| View_Token := View_Token v <| Token_Revision := u64 (Token_Revision (View_Token v) + 1) |> |>.
Definition bump_catalog (v : View) : View :=
  v <| View_Token := View_Token v <| Token_Catalog := u64 (Token_Catalog (View_Token v) + 1) |> |>.
Definition bump_generation (v : View) : View :=
  v <| View_Token := View_Token v <| Token_Generation := u64 (Token_Generation (View_Token v) + 1) |> |>.

Definition player_revision (c : Client) (pid : ID) : Z := default 0 (C_players c !! pid).
Definition player_write (c : Client) (pid : ID) : playerWrite := default playerWrite_zero (C_writes c !! pid).
(** The view's token completed with one player's counters. *)
Definition player_token (c : Client) (pid : ID) : Token :=
  View_Token (C_View c) <| Token_Player := player_revision c pid |> <| Token_Write := PW_revision (player_write c pid) |>.

Definition PlayerView (c : Client) (pid : ID) : View := C_View c <| View_Token := player_token c pid |>.

Definition observePlayer (c : Client) (pid : ID) : View * Client :=
  let c := match C_players c !! pid with
           | Some _ => c
           | None =>
               let c := if Z.of_nat (size (C_players c)) =? 64
                        then c <| C_players := ∅ |> <| C_writes := ∅ |> <| C_View := bump_revision (C_View c) |>
                        else c in
               c <| C_players := <[pid := 0]> (C_players c) |>
           end in
  (PlayerView c pid, c).

(** Cancelling a context that is already cancelled keeps the first cause. *)
Definition cancel_active (c : Client) (cause : error) : Client :=
  match C_active c with Some None => c <| C_active := Some (Some cause) |> | _ => c end.

Definition Interrupt (c : Client) : Client :=
  let c := c <| C_fence := u64 (C_fence c + 1) |> in
  let c := cancel_active c (ESentinel ErrInterrupted) in
  c <| C_View := bump_catalog (bump_revision (C_View c <| View_Connected := false |>)) |>.

(** [BeginPriority] raises the mode and then interrupts, in two critical sections. *)
Definition raise_priority (c : Client) : Client := c <| C_priorityMode := C_priorityMode c + 1 |>.
Definition BeginPriority (c : Client) : Client := Interrupt (raise_priority c).
Definition EndPriority (c : Client) : Client := c <| C_priorityMode := C_priorityMode c - 1 |>.

(** A connection is installed, or taken away. *)
Definition connected (c : Client) (id : nat) : Client :=
  c <| C_connection := Some id |>
    <| C_View := bump_catalog (bump_revision (bump_generation (C_View c <| View_Connected := true |>))) |>.
Definition disconnected (c : Client) (id : nat) : Client :=
  if C_connection c == Some id then
    c <| C_connection := None |> <| C_View := bump_catalog (bump_revision (C_View c <| View_Connected := false |>)) |>
  else c.

Definition lost_events (c : Client) : Client := c <| C_View := bump_catalog (bump_revision (C_View c)) |>.

(** A command consumes its guard. *)
Definition stamp (c : Client) (pid : ID) (m : Mutation) : Client :=
  c <| C_writes := <[pid := Build_playerWrite (u64 (PW_revision (player_write c pid) + 1)) m]> (C_writes c) |>.

Definition player_event (d : EventData) : bool :=
  match ED_Kind d with
  | EventState | EventNowPlaying | EventPlaybackError | EventQueue | EventVolume | EventRepeat | EventShuffle =>
      ED_Player d != ""
  | _ => false
  end.
Definition catalog_event (d : EventData) : bool :=
  match ED_Kind d with EventSources | EventPlayers | EventUser => true | _ => false end.
Definition count_event (c : Client) (d : EventData) : Client :=
  let pid := ED_Player d in
  let c := if player_event d then
             match C_players c !! pid with
             | Some n => c <| C_players := <[pid := u64 (n + 1)]> (C_players c) |>
             | None => c
             end
           else c <| C_View := bump_revision (C_View c) |> in
  if catalog_event d then c <| C_View := bump_catalog (C_View c) |> else c.

(** Progress is numbered on its own and leaves the tokens alone. *)
Definition number_progress (c : Client) : Client := c <| C_progressSequence := u64 (C_progressSequence c + 1) |>.

(** ** Submission *)

Definition readCommand (name : string) : bool :=
  name in? ["system/heart_beat"; "player/get_players"; "player/get_player_info"; "player/get_play_state"; "player/get_volume";
            "player/get_mute"; "player/get_play_mode"; "player/get_now_playing_media"; "player/get_queue"; "group/get_groups";
            "group/get_group_info"; "browse/get_music_sources"; "browse/get_source_info"; "browse/browse"].

Definition not_sent (e : error) : option error := Some (ECommand NotSent e).
Definition uncertain (e : error) : option error := Some (ECommand Uncertain e).

(** The first half of [submit]: the request enters a bounded mailbox or is
    refused.  [ctx_err] is the caller's context; the fence is the client's. *)
Definition enqueue (cfg : ClientConfig) (c : Client) (r : request) (ctx_err : option error) : option error * Client :=
  match encodeCommand (Req_command r) (Req_args r) with
  | Err e => (not_sent e, c)
  | Ok _ =>
      match ctx_err with
      | Some e => (not_sent e, c)
      | None =>
          let r := r <| Req_fence := C_fence c |> in
          if (0 <? C_priorityMode c) && negb (Req_priority r) then (not_sent ErrQueueFull, c)
          else if C_done c then (not_sent ErrClosed, c)
          else if Req_priority r then
            if len (C_priority c) <? 4 then (None, c <| C_priority := C_priority c ++ [r] |>) else (not_sent ErrQueueFull, c)
          else
            if len (C_requests c) <? CC_QueueDepth cfg then (None, c <| C_requests := C_requests c ++ [r] |>)
            else (not_sent ErrQueueFull, c)
      end
  end.

Definition request_state (c : Client) (id : nat) : Z := default 0 (C_states c !! id).

(** The second half of [submit]: which case its [select] took, and the result
    when the channel had one. *)
Inductive waited := WaitResult | WaitCancelled (err : error) (then_result : bool) | WaitDone.
Definition await_result (c : Client) (id : nat) (w : waited) : option reply * Client :=
  match w with
  | WaitResult => (C_results c !! id, c)
  | WaitCancelled err then_result =>
      if request_state c id =? 0 then (Some (Response_zero, not_sent err), c <| C_states := <[id := 2]> (C_states c) |>)
      else if then_result then (C_results c !! id, c)
      else if C_done c then (Some (Response_zero, uncertain ErrClosed), c)
      else (None, c)
  | WaitDone =>
      if negb (C_done c) then (None, c)
      else match C_results c !! id with
           | Some out => (Some out, c)
           | None => (Some (Response_zero, if request_state c id =? 1 then uncertain ErrClosed else not_sent ErrClosed), c)
           end
  end.

Definition Read_refused (name : string) : option error := if readCommand name then None else not_sent ErrReadOnly.

(** [Write] up to its submission. *)
Definition Write (cfg : ClientConfig) (c : Client) (now : Time) (id : nat) (priority : bool) (m : Mutation) (guard : Guard) :
    Result request :=
  if negb (CC_EnableWrites cfg) then Err (ECommand NotSent ErrReadOnly)
  else if negb (now <? Guard_ExpiresAt guard) || (now + 5 * Second <? Guard_ExpiresAt guard)
  then Err (ECommand NotSent ErrStale)
  else match Mutation_command m with
       | Err e => Err (ECommand NotSent e)
       | Ok (name, args) =>
           if negb (is_some (C_players c !! Mut_Player m)) then Err (ECommand NotSent ErrStale)
           else Ok {| Req_id := id; Req_guard := Some guard; Req_mutation := m; Req_priority := priority;
                      Req_command := name; Req_args := args; Req_fence := 0 |}
       end.

(** ** What other goroutines do between two steps of the owner *)

Inductive outside :=
  | Observes (pid : ID)
  | Interrupts
  | RaisesPriority
  | LowersPriority
  | Consumes                                  (* the consumer takes the oldest event *)
  | Submits (r : request) (ctx_err : option error)
  | Withdraws (id : nat) (err : error)        (* a submitter whose context ended *)
  | Expires (cause : error)                   (* the deadline or the parent of the active context *)
  | Stops.                                    (* Close, or the end of the parent context *)

Definition outside_step (cfg : ClientConfig) (c : Client) (o : outside) : Client :=
  match o with
  | Observes pid => (observePlayer c pid).2
  | Interrupts => Interrupt c
  | RaisesPriority => raise_priority c
  | LowersPriority => EndPriority c
  | Consumes => c <| C_events := tail (C_events c) |>
  | Submits r ctx_err => (enqueue cfg c r ctx_err).2
  | Withdraws id err => (await_result c id (WaitCancelled err false)).2
  | Expires cause => cancel_active c cause
  | Stops => c <| C_stopped := true |>
  end.

(** ** The owner *)

(** What leaves the owner: bytes, with the client and the time at the last check
    before them; guard checks; stamps; notifications; and answers. *)
Inductive entry :=
  | Wire (id : option nat) (before : Client) (name wire : string) (sent : nat)
  | Checked (seen : Client) (at_ : Time) (guard : Guard)
  | Stamped (id : nat) (pid : ID)
  | Handled (e : Event)
  | Dialled (id : nat)
  | Closed (id : nat)
  | Answered (id : nat) (out : reply).

(** The choice of the owner's [select] in [run]. *)
Inductive pick := PickFrame (f : incoming) | PickRequest | PickPriority | PickStop.

(** One turn's answers: what others did before it, the clock, a frame if
    [select] takes one, the socket, the dialler, and the owner's choice. *)
Record answer := {
  A_outside : list outside;
  A_now : Time;
  A_frame : option incoming;
  A_write : nat -> string -> nat * option error;
  A_deadline : option error;
  A_tcp : option error;
  A_handshake : Result (list string);      (* the peer's certificates *)
  A_pick : pick;
  A_withdrawn : error                      (* the [Err] of a withdrawn request's context *)
}.

Record owner := { O_client : Client; O_turn : nat; O_log : list entry }.
#[export] Instance owner_eta : Eta owner := fun o =>
  {| O_client := O_client o; O_turn := O_turn o; O_log := O_log o |}.

(** [None] is an owner that is still waiting when the fuel runs out. *)
Definition Owner (A : Type) : Type := owner -> option A * owner.
Definition ret {A} (a : A) : Owner A := fun o => (Some a, o).
Definition bind {A B} (m : Owner A) (k : A -> Owner B) : Owner B := fun o =>
  match m o with (Some a, o) => k a o | (None, o) => (None, o) end.
Definition waiting {A} : Owner A := fun o => (None, o).

Declare Scope owner_scope.
Delimit Scope owner_scope with owner.
Notation "'let!' x ':=' m 'in' k" := (bind m (fun x => k))
  (at level 10, x name, m at level 100, k at level 200) : owner_scope.
Notation "m ';;;' k" := (bind m (fun _ : unit => k)) (at level 199, k at level 200, right associativity) : owner_scope.
#[local] Open Scope owner_scope.

Section owner.
Context (cfg : ClientConfig) (env : nat -> answer).
Context (sha256 : string -> string) (pin : string).

(** Others act, then the answers of this turn hold. *)
Definition turn : Owner answer := fun o =>
  let a := env (O_turn o) in
  (Some a, o <| O_client := foldl (outside_step cfg) (O_client o) (A_outside a) |> <| O_turn := S (O_turn o) |>).
Definition client : Owner Client := fun o => (Some (O_client o), o).
(** A critical section of the owner. *)
Definition modify (f : Client -> Client) : Owner unit := fun o => (Some tt, o <| O_client := f (O_client o) |>).
Definition log (e : entry) : Owner unit := fun o => (Some tt, o <| O_log := O_log o ++ [e] |>).
Definition turn_number : Owner nat := fun o => (Some (O_turn o), o).

(** [context.Cause] of the active request, if it has ended. *)
Definition cause (c : Client) : option error := match C_active c with Some e => e | None => None end.

(** *** Events *)

Definition gap (token : Token) (reason : string) : Event := {|
  Ev_Command := ""; Ev_Params := ∅; Ev_Token := token; Ev_Gap := true; Ev_GapReason := reason; Ev_progressSequence := 0 |}.

Definition has_room (c : Client) : bool := len (C_events c) <? CC_EventBuffer cfg.
Definition send_event (e : Event) : Owner unit := modify (fun c => c <| C_events := C_events c ++ [e] |>).

Definition publish (e : Event) : Owner unit :=
  log (Handled e) ;;;
  let! _ := turn in
  let! c := client in
  if has_room c then send_event e
  else
    modify (fun c => lost_events (c <| C_events := [] |>)) ;;;
    let! c := client in
    let gap := gap (View_Token (C_View c)) "event_buffer_overflow" in
    log (Handled gap) ;;;
    let! _ := turn in
    send_event gap.

Definition event (r : Response) : Owner unit :=
  let e := {| Ev_Command := Resp_Command r; Ev_Params := Resp_Params r; Ev_Token := Token_zero; Ev_Gap := false;
              Ev_GapReason := ""; Ev_progressSequence := 0 |} in
  let data := Event_Data e in
  let pid := ED_Player data in
  let! _ := turn in
  if (ED_Kind data == EventProgress) && ED_Valid data then
    modify number_progress ;;;
    let! c := client in
    let e := e <| Ev_progressSequence := C_progressSequence c |> <| Ev_Token := player_token c pid |> in
    let! _ := turn in
    let! c := client in
    if has_room c then send_event e else ret tt
  else
    modify (fun c => count_event c data) ;;;
    let! c := client in
    publish (e <| Ev_Token := player_token c pid |>).

(** *** Connections *)

Definition drop (g : option generation) : Owner unit :=
  match g with
  | None => ret tt
  | Some g =>
      log (Closed (Gen_id g)) ;;;
      let! _ := turn in
      modify (fun c => disconnected c (Gen_id g)) ;;;
      let! c := client in
      publish (gap (View_Token (C_View c)) "connection_closed")
  end.

(** The pin replaces public-CA trust: the leaf must hash to it. *)
Definition verifyConnection (certificates : list string) : option error :=
  match certificates with
  | [] => Some (EText "HEOS certificate missing")
  | leaf :: _ => if sha256 leaf == pin then None else Some (ESentinel ErrPinMismatch)
  end.

Definition dial : Owner (Result generation) :=
  let! a := turn in
  match A_tcp a with
  | Some e => ret (Err (EConnection ErrConnect e))
  | None =>
      let! a := turn in
      match (match A_handshake a with Ok certificates => verifyConnection certificates | Err e => Some e end) with
      | Some e => ret (Err (EConnection ErrTLS e))
      | None =>
          let! id := turn_number in
          log (Dialled id) ;;;
          let! _ := turn in
          modify (fun c => connected c id) ;;;
          ret (Ok (Build_generation id false))
      end
  end.

(** *** Exchanges *)

Definition delivery_of (sent : nat) : Delivery := if (0 <? sent)%nat then Uncertain else NotSent.

(** The deferred function: a context that ended decides the classification. *)
Definition exchange_end (sent : nat) (out : reply) : Owner reply :=
  let! _ := turn in
  let! c := client in
  ret match cause c with
      | Some e => (out.1, Some (ECommand (delivery_of sent) e))
      | None => out
      end.

(** [rejection] ([errors.go]): a refusal without a positive code says nothing. *)
Definition rejection (r : Response) : error :=
  match atoi (Values_Get (Resp_Params r) "eid") with
  | None => ECommand Uncertain ErrProtocol
  | Some code =>
      if code <=? 0 then ECommand Uncertain ErrProtocol
      else
        let device system := EDevice {| Dev_Command := Resp_Command r; Dev_Code := code;
                                        Dev_Text := Values_Get (Resp_Params r) "text"; Dev_SystemCode := system |} in
        if Values_Has (Resp_Params r) "syserrno" then
          match atoi (Values_Get (Resp_Params r) "syserrno") with
          | None => ECommand Uncertain ErrProtocol
          | Some n => ECommand Rejected (device (Some n))
          end
        else ECommand Rejected (device None)
  end.

(** What a reply to the command amounts to; [None] waits for another frame. *)
Definition reply_of (name : string) (args : Values) (token : Token) (r : Response) : option reply :=
  if Resp_Command r != name then Some (Response_zero, uncertain ErrProtocol)
  else match validateEcho args (Resp_Params r) with
       | Some e => Some (Response_zero, uncertain e)
       | None =>
           if Resp_Pending r then None
           else
             let r := r <| Resp_Token := token |> in
             if Resp_Result r != "success" then Some (r, Some (rejection r))
             else if (name == "player/remove_from_queue")
                     && (negb (Values_Has (Resp_Params r) "pid") || negb (Values_Has (Resp_Params r) "qid"))
             then Some (Response_zero, uncertain ErrProtocol)
             else Some (r, None)
       end.

(** The loop that waits for the reply; one turn per round of its [select]. *)
Fixpoint await (fuel : nat) (name : string) (args : Values) : Owner reply :=
  match fuel with
  | O => waiting
  | S fuel =>
      let! a := turn in
      match A_frame a with
      | Some (Err e) => ret (Response_zero, uncertain e)
      | Some (Ok r) =>
          if Resp_Event r then event r ;;; await fuel name args
          else
            let! c := client in
            match reply_of name args (player_token c (Values_Get args "pid")) r with
            | Some out => ret out
            | None => await fuel name args
            end
      | None =>
          let! c := client in
          match cause c with
          | Some e => ret (Response_zero, uncertain e)
          | None => await fuel name args
          end
      end
  end.

Definition sequence_args (name : string) (args : Values) (sequence : Z) : Values :=
  if hasPrefix name "browse/" then Values_Set args "SEQUENCE" (itoa sequence) else args.

(** [id] names the request whose bytes these are. *)
Definition exchange (fuel : nat) (id : option nat) (name : string) (args : Values) : Owner reply :=
  modify (fun c => c <| C_sequence := u64 (C_sequence c + 1) |>) ;;;
  let! c := client in
  let args := sequence_args name args (C_sequence c) in
  match encodeCommand name args with
  | Err e => ret (Response_zero, not_sent e)
  | Ok wire =>
      let! _ := turn in
      let! c := client in
      match cause c with
      | Some e => exchange_end 0 (Response_zero, not_sent e)
      | None =>
          let! a := turn in
          match A_deadline a with
          | Some e => exchange_end 0 (Response_zero, not_sent e)
          | None =>
              let '(sent, err) := writeAll (A_write a) wire in
              log (Wire id c name wire sent) ;;;
              match err with
              | Some e => exchange_end sent (Response_zero, Some (ECommand (delivery_of sent) e))
              | None => let! out := await fuel name args in exchange_end sent out
              end
          end
      end
  end.

(** *** Requests *)

(** The drain of received events before the last guard check: at most 32
    frames, and the 32nd event makes the guard stale. *)
Fixpoint drain (rounds : nat) (g : generation) : Owner (option generation * option error) :=
  match rounds with
  | O => ret (Some g, None)
  | S rounds =>
      let! a := turn in
      match A_frame a with
      | None => ret (Some g, None)
      | Some f =>
          match f with
          | Ok r =>
              if Resp_Event r then
                event r ;;;
                match rounds with O => ret (Some g, not_sent ErrStale) | S _ => drain rounds g end
              else drop (Some g) ;;; ret (None, not_sent ErrStale)
          | Err _ => drop (Some g) ;;; ret (None, not_sent ErrStale)
          end
      end
  end.

Definition guard_holds (c : Client) (pid : ID) (now : Time) (guard : Guard) : bool :=
  let view := PlayerView c pid in
  View_Connected view && (View_Token view == Guard_Token guard) && (now <? Guard_ExpiresAt guard).

Definition check_guard (r : request) : Owner (option error) :=
  match Req_guard r with
  | None => ret None
  | Some guard =>
      let! a := turn in
      let! c := client in
      log (Checked c (A_now a) guard) ;;;
      ret (if guard_holds c (Values_Get (Req_args r) "pid") (A_now a) guard then None else not_sent ErrStale)
  end.

Definition register_args : Values := {["enable" := ["on"]]}.
Definition register_name : string := "system/register_for_change_events".

(** A connection is dialled when there is none and the cooldown has passed. *)
Definition connect (fuel : nat) (nextDial : Time) : Owner (option generation * option error) :=
  let! a := turn in
  if A_now a <? nextDial then ret (None, not_sent ErrOffline)
  else
    let! dialled := dial in
    match dialled with
    | Err e => ret (None, not_sent e)
    | Ok g =>
        let! out := exchange fuel None register_name register_args in
        match out.2 with
        | Some e => ret (Some g, not_sent e)
        | None =>
            modify (fun c => c <| C_everReady := true |>) ;;;
            ret (Some {| Gen_id := Gen_id g; Gen_subscribed := true |}, None)
        end
    end.

(** The request runs under its own context; an interruption since its
    submission cancels it at once. *)
Definition activate (c : Client) (r : request) : Client :=
  c <| C_active := Some (if Req_fence r == C_fence c then None else Some (ESentinel ErrInterrupted)) |>.

Definition claim (c : Client) (id : nat) : Client := c <| C_states := <[id := 1]> (C_states c) |>.
Definition answer_request (r : request) (out : reply) : Owner unit :=
  log (Answered (Req_id r) out) ;;;
  modify (fun c => c <| C_results := <[Req_id r := out]> (C_results c) |>).

(** The guarded part of [process]: from the drain to the exchange. *)
Definition perform (fuel : nat) (r : request) (g : option generation) (nextDial : Time) :
    Owner (option generation * reply) :=
  let! drained := match Req_guard r, g with
                  | Some _, Some g => drain 32 g
                  | _, _ => ret (g, None)
                  end in
  let '(g, err) := drained in
  let! stale := check_guard r in
  let err := if is_some stale then stale else err in
  let! connected := match g, err with
                    | None, None => connect fuel nextDial
                    | _, _ => ret (g, err)
                    end in
  let '(g, err) := connected in
  let! err := if is_some err then ret err else check_guard r in
  match err with
  | Some _ => ret (g, (Response_zero, err))
  | None =>
      (if is_some (Req_guard r) then
         let pid := Values_Get (Req_args r) "pid" in
         log (Stamped (Req_id r) pid) ;;;
         modify (fun c => stamp c pid (Req_mutation r))
       else ret tt) ;;;
      let! out := exchange fuel (Some (Req_id r)) (Req_command r) (Req_args r) in
      ret (g, out)
  end.

(** An error that leaves the connection usable. *)
Definition keeps_connection (g : option generation) (e : error) : bool :=
  errors_is ErrStale e
  || (errors_is ErrRejected e && match g with Some g => Gen_subscribed g | None => true end).

Definition process (fuel : nat) (r : request) (g : option generation) (nextDial : Time) :
    Owner (option generation * Time) :=
  let! a := turn in
  let! c := client in
  if request_state c (Req_id r) != 0 then
    answer_request r (Response_zero, not_sent (A_withdrawn a)) ;;; ret (g, nextDial)
  else
    modify (fun c => claim c (Req_id r)) ;;;
    let! _ := turn in
    let! c := client in
    if (Req_fence r != C_fence c) || ((0 <? C_priorityMode c) && negb (Req_priority r)) then
      answer_request r (Response_zero, not_sent ErrInterrupted) ;;; ret (g, nextDial)
    else
      let! _ := turn in
      modify (fun c => activate c r) ;;;
      let! done := perform fuel r g nextDial in
      let '(g, out) := done in
      let! a := turn in
      modify (fun c => c <| C_active := None |>) ;;;
      match out.2 with
      | Some e =>
          if keeps_connection g e then answer_request r out ;;; ret (g, nextDial)
          else
            drop g ;;;
            let! a := turn in
            answer_request r out ;;;
            ret (None, if errors_is ErrOffline e then nextDial else A_now a + CC_ReconnectDelay cfg)
      | None => answer_request r out ;;; ret (g, nextDial)
      end.

Definition take_priority (c : Client) : Client := c <| C_priority := tail (C_priority c) |>.
Definition take_request (c : Client) : Client := c <| C_requests := tail (C_requests c) |>.

(** An unexpected frame costs the connection. *)
Definition cool_down {A} (g : option generation) (k : Time -> Owner A) : Owner A :=
  drop g ;;;
  let! a := turn in
  k (A_now a + CC_ReconnectDelay cfg).

(** The owner's loop: one round per unit of [rounds]; the priority mailbox goes
    first, and the owner ends when the client is closed. *)
Fixpoint run_loop (rounds fuel : nat) (g : option generation) (nextDial : Time) : Owner (option generation) :=
  match rounds with
  | O => waiting
  | S rounds =>
      let! a := turn in
      let! c := client in
      if C_stopped c then ret g
      else
        match C_priority c with
        | r :: _ =>
            modify take_priority ;;;
            let! next := process fuel r g nextDial in
            run_loop rounds fuel next.1 next.2
        | [] =>
            let! a := turn in
            let! c := client in
            match A_pick a with
            | PickStop => if C_stopped c then ret g else run_loop rounds fuel g nextDial
            | PickFrame f =>
                match g with
                | None => run_loop rounds fuel g nextDial
                | Some _ =>
                    match f with
                    | Ok r =>
                        if Resp_Event r then event r ;;; run_loop rounds fuel g nextDial
                        else cool_down g (run_loop rounds fuel None)
                    | Err _ => cool_down g (run_loop rounds fuel None)
                    end
                end
            | PickRequest =>
                match C_requests c with
                | r :: _ =>
                    modify take_request ;;;
                    let! next := process fuel r g nextDial in
                    run_loop rounds fuel next.1 next.2
                | [] => run_loop rounds fuel g nextDial
                end
            | PickPriority =>
                match C_priority c with
                | r :: _ =>
                    modify take_priority ;;;
                    let! next := process fuel r g nextDial in
                    run_loop rounds fuel next.1 next.2
                | [] => run_loop rounds fuel g nextDial
                end
            end
        end
  end.

Definition run (rounds fuel : nat) : Owner unit :=
  let! g := run_loop rounds fuel None 0 in
  drop g ;;;
  modify (fun c => c <| C_done := true |>).
End owner.
