(* ===== verification/ClientSafety.v ===== *)
(** * The connection's atomic steps

    Every change of the client is one of a few steps; what they preserve holds
    between any two steps of the owner.  A logic for owner programs keeps such
    an invariant together with the entries the program logs. *)

From S2P Require Import Prelude GoStd Values Model Errors Events Protocol Client.
#[local] Open Scope owner_scope.

(** ** Steps *)

Section step.
Context (cfg : ClientConfig).

Inductive step (c : Client) : Client -> Prop :=
  | step_outside o : step c (outside_step cfg c o)
  | step_send e : has_room cfg c = true -> step c (c <| C_events := C_events c ++ [e] |>)
  | step_lost : step c (lost_events (c <| C_events := [] |>))
  | step_progress : step c (number_progress c)
  | step_count d : step c (count_event c d)
  | step_connected id : step c (connected c id)
  | step_disconnected id : step c (disconnected c id)
  | step_sequence n : step c (c <| C_sequence := n |>)
  | step_ready : step c (c <| C_everReady := true |>)
  | step_stamp pid m : step c (stamp c pid m)
  | step_claim id : step c (claim c id)
  | step_result id out : step c (c <| C_results := <[id := out]> (C_results c) |>)
  | step_take_request : step c (take_request c)
  | step_take_priority : step c (take_priority c)
  | step_done : step c (c <| C_done := true |>).

(** A step of the owner that changes the context of the active request. *)
Inductive any_step (c : Client) : Client -> Prop :=
  | any_inner c' : step c c' -> any_step c c'
  | any_activate r : any_step c (activate c r)
  | any_deactivate : any_step c (c <| C_active := None |>).
End step.

Class Stable (cfg : ClientConfig) (I : Client -> Prop) : Prop := {
  stable_step c c' : step cfg c c' -> I c -> I c';
  stable_buffer : 1 <= CC_EventBuffer cfg
}.

(** ** Programs that send no byte of a request *)

Definition quiet (e : entry) : Prop :=
  match e with Wire (Some _) _ _ _ _ => False | Answered _ _ => False | _ => True end.

Section calm.
Context (cfg : ClientConfig) (env : nat -> answer).
Context (I : Client -> Prop) `{!Stable cfg I}.
#[local] Set Default Proof Using "All".

Lemma outside_stable (os : list outside) (c : Client) : I c -> I (foldl (outside_step cfg) c os).
Proof.
  revert c. induction os as [|o os IH]; intros c Hc; [done|]. cbn. apply IH.
  eapply (stable_step c); [constructor|done].
Qed.

(** [m] keeps the invariant, and its result and its entries satisfy [Q]. *)
Definition does {A} (m : Owner A) (Q : option A -> list entry -> Prop) : Prop :=
  forall o, I (O_client o) ->
  exists t, O_log (m o).2 = O_log o ++ t /\ Q (m o).1 t /\ I (O_client (m o).2).

Lemma does_weaken {A} (m : Owner A) (Q Q' : option A -> list entry -> Prop) :
  does m Q -> (forall x t, Q x t -> Q' x t) -> does m Q'.
Proof using Type. intros Hm HQ o Ho. destruct (Hm o Ho) as (t & ? & ? & ?). exists t. auto. Qed.

Lemma does_bind {A B} (m : Owner A) (k : A -> Owner B) (Q : option A -> list entry -> Prop) (Q' : option B -> list entry -> Prop) :
  does m Q -> (forall t, Q None t -> Q' None t) ->
  (forall a t1, Q (Some a) t1 -> does (k a) (fun x t2 => Q' x (t1 ++ t2))) -> does (bind m k) Q'.
Proof using Type.
  intros Hm Hnone Hk o Ho. destruct (Hm o Ho) as (t1 & Hl & HQ & HI). unfold bind.
  destruct (m o) as [[a|] o1]; cbn in *.
  - destruct (Hk a t1 HQ o1 HI) as (t2 & Hl2 & HQ2 & HI2). exists (t1 ++ t2).
    rewrite Hl2, Hl, app_assoc. auto.
  - exists t1. auto.
Qed.

Lemma does_log {B} (e : entry) (k : Owner B) (Q : option B -> list entry -> Prop) :
  does k (fun x t => Q x (e :: t)) -> does (log e ;;; k) Q.
Proof using Type.
  intros Hk o Ho. destruct (Hk (log e o).2 Ho) as (t & Hl & HQ & HI). exists (e :: t).
  split; [|split; [exact HQ|exact HI]]. etransitivity; [exact Hl|]. cbn. by rewrite <- app_assoc.
Qed.

Definition calm {A} (m : Owner A) : Prop := does m (fun _ t => Forall quiet t).

Lemma quiet_ret {A} (a : A) : calm (ret a).
Proof using Type. intros o Ho. exists []. rewrite app_nil_r. auto. Qed.
Lemma quiet_waiting {A} : calm (waiting (A := A)).
Proof using Type. intros o Ho. exists []. rewrite app_nil_r. auto. Qed.
Lemma quiet_turn : calm (turn cfg env).
Proof. intros o Ho. exists []. rewrite app_nil_r. split_and!; [done|constructor|]. by apply outside_stable. Qed.
Lemma quiet_client : calm client.
Proof using Type. intros o Ho. exists []. rewrite app_nil_r. auto. Qed.
Lemma quiet_turn_number : calm turn_number.
Proof using Type. intros o Ho. exists []. rewrite app_nil_r. auto. Qed.
Lemma quiet_log (e : entry) : quiet e -> calm (log e).
Proof using Type. intros He o Ho. exists [e]. split_and!; [done|by repeat constructor|done]. Qed.
Lemma quiet_modify (f : Client -> Client) : (forall c, step cfg c (f c)) -> calm (modify f).
Proof.
  intros Hf o Ho. exists []. rewrite app_nil_r. split_and!; [done|constructor|]. cbn.
  eapply (stable_step _ _ (Hf _)). done.
Qed.
Lemma quiet_bind {A B} (m : Owner A) (k : A -> Owner B) : calm m -> (forall a, calm (k a)) -> calm (bind m k).
Proof using Type.
  intros Hm Hk. eapply does_bind; [exact Hm|done|]. intros a t1 Ht1.
  eapply does_weaken; [apply Hk|]. cbn. intros x t2 Ht2. by apply Forall_app.
Qed.

Lemma quiet_send (e : Event) (k : Owner unit) :
  calm k -> calm (bind client (fun c => if has_room cfg c then send_event e else k)).
Proof.
  intros Hk o Ho. unfold bind. cbn. destruct (has_room cfg (O_client o)) eqn:Hroom; [|by apply Hk].
  exists []. rewrite app_nil_r. split_and!; [done|constructor|]. cbn. eapply stable_step; [by apply step_send|done].
Qed.

(** After an overflow the buffer has room: nobody else puts events there. *)
Lemma enqueue_events (c : Client) (r : request) (err : option error) : C_events (enqueue cfg c r err).2 = C_events c.
Proof using Type. unfold enqueue. repeat case_match; done. Qed.
Lemma outside_empty (os : list outside) (c : Client) : C_events c = [] -> C_events (foldl (outside_step cfg) c os) = [].
Proof using Type.
  revert c. induction os as [|o os IH]; intros c Hc; [done|]. cbn. apply IH. destruct o; cbn; try done.
  - unfold observePlayer. repeat case_match; done.
  - unfold cancel_active, Interrupt. destruct (C_active c) as [[]|] eqn:H; unfold cancel_active; cbn; by rewrite H.
  - by rewrite Hc.
  - by rewrite enqueue_events.
  - unfold await_result. repeat case_match; done.
  - unfold cancel_active. by repeat case_match.
Qed.

Lemma quiet_overflow :
  calm (modify (fun c => lost_events (c <| C_events := [] |>)) ;;;
        let! c := client in
        let gap := gap (View_Token (C_View c)) "event_buffer_overflow" in
        log (Handled gap) ;;;
        let! _ := turn cfg env in
        send_event gap).
Proof.
  intros o Ho. unfold bind. cbn. eexists [_]. split_and!; [done|by repeat constructor|].
  pose proof (stable_step _ _ (step_lost cfg (O_client o)) Ho) as Hl.
  eapply stable_step; [apply step_send|by apply outside_stable].
  unfold has_room. rewrite outside_empty by done. pose proof stable_buffer. cbn. apply Z.ltb_lt.
  unfold len. cbn. lia.
Qed.

Create HintDb calm.

Lemma quiet_publish (e : Event) : calm (publish cfg env e).
Proof.
  unfold publish. apply quiet_bind; [by apply quiet_log|]. intros _. apply quiet_bind; [apply quiet_turn|]. intros _.
  apply quiet_send, quiet_overflow.
Qed.

Lemma quiet_event (r : Response) : calm (event cfg env r).
Proof.
  unfold event. apply quiet_bind; [apply quiet_turn|]. intros _. case_if.
  - apply quiet_bind; [apply quiet_modify; constructor|]. intros _. apply quiet_bind; [apply quiet_client|]. intros c.
    apply quiet_bind; [apply quiet_turn|]. intros _. apply quiet_send, quiet_ret.
  - apply quiet_bind; [apply quiet_modify; constructor|]. intros _. apply quiet_bind; [apply quiet_client|]. intros c.
    apply quiet_publish.
Qed.

Lemma quiet_drop (g : option generation) : calm (drop cfg env g).
Proof.
  unfold drop. destruct g as [g|]; [|apply quiet_ret]. apply quiet_bind; [by apply quiet_log|]. intros _.
  apply quiet_bind; [apply quiet_turn|]. intros _. apply quiet_bind; [apply quiet_modify; constructor|]. intros _.
  apply quiet_bind; [apply quiet_client|]. intros c. apply quiet_publish.
Qed.
#[local] Hint Resolve quiet_publish quiet_event quiet_drop : calm.

(** Calmness of a program follows its syntax. *)
Ltac quiet_atom :=
  lazymatch goal with
  | |- calm (ret _) => apply quiet_ret
  | |- calm waiting => apply quiet_waiting
  | |- calm (turn _ _) => apply quiet_turn
  | |- calm client => apply quiet_client
  | |- calm turn_number => apply quiet_turn_number
  | |- calm (log _) => apply quiet_log; exact Logic.I
  | |- calm (modify _) => apply quiet_modify; intros; constructor
  | |- _ => solve [eauto 1 with calm nocore]
  end.
Ltac calm :=
  repeat lazymatch goal with
  | |- forall _, _ => intros
  | |- calm (bind client (fun c => if has_room _ c then send_event _ else _)) => apply quiet_send
  | |- calm (bind _ _) => apply quiet_bind
  | |- calm (match ?x with _ => _ end) => destruct x
  | |- calm (let _ := _ in _) => cbv zeta
  | |- _ => quiet_atom
  end.

Lemma quiet_drain (n : nat) (g : generation) : calm (drain cfg env n g).
Proof. induction n as [|n IH]; cbn [drain]; calm. Qed.

Lemma quiet_check (r : request) : calm (check_guard cfg env r).
Proof. unfold check_guard. calm. Qed.

Lemma quiet_await (fuel : nat) (name : string) (args : Values) : calm (await cfg env fuel name args).
Proof. induction fuel as [|fuel IH]; cbn [await]; calm. Qed.

Lemma quiet_exchange_end (sent : nat) (out : reply) : calm (exchange_end cfg env sent out).
Proof. unfold exchange_end. calm. Qed.
#[local] Hint Resolve quiet_drain quiet_check quiet_await quiet_exchange_end : calm.

(** The exchange that registers for events belongs to no request. *)
Lemma quiet_register (fuel : nat) (name : string) (args : Values) : calm (exchange cfg env fuel None name args).
Proof. unfold exchange. calm. Qed.
#[local] Hint Resolve quiet_register : calm.

Context (sha256 : string -> string) (pin : string).
Lemma quiet_dial : calm (dial cfg env sha256 pin).
Proof. unfold dial. calm. Qed.

#[local] Hint Resolve quiet_dial : calm.
Lemma quiet_connect (fuel : nat) (nextDial : Time) : calm (connect cfg env sha256 pin fuel nextDial).
Proof. unfold connect. calm. Qed.
End calm.

(** ** Programs that keep an invariant, and end

    With [b] the program also yields a result; turns never go back. *)

Section kept.
Context (b : bool) (cfg : ClientConfig) (env : nat -> answer).
Context (I : Client -> Prop) `{!Stable cfg I}.
#[local] Set Default Proof Using "All".

Definition kept {A} (m : Owner A) : Prop :=
  forall o, I (O_client o) ->
  I (O_client (m o).2) /\ (O_turn o <= O_turn (m o).2)%nat /\ (b = true -> is_Some (m o).1).

Lemma kept_ret {A} (a : A) : kept (ret a).
Proof using Type. by intros o Ho. Qed.
Lemma kept_bind {A B} (m : Owner A) (k : A -> Owner B) : kept m -> (forall a, kept (k a)) -> kept (bind m k).
Proof using Type.
  intros Hm Hk o Ho. destruct (Hm o Ho) as (HI & Ht & Hs). unfold bind. destruct (m o) as [[a|] o1]; cbn in *.
  - destruct (Hk a o1 HI) as (HI2 & Ht2 & Hs2). split_and!; [done|lia|done].
  - split_and!; [done|lia|]. intros Hb. by destruct (Hs Hb).
Qed.
Lemma kept_turn : kept (turn cfg env).
Proof. intros o Ho. cbn. split_and!; [by apply outside_stable|lia|done]. Qed.
Lemma kept_client : kept client.
Proof using Type. by intros o Ho. Qed.
Lemma kept_turn_number : kept turn_number.
Proof using Type. by intros o Ho. Qed.
Lemma kept_log (e : entry) : kept (log e).
Proof using Type. by intros o Ho. Qed.
Lemma kept_modify (f : Client -> Client) : (forall c, step cfg c (f c)) -> kept (modify f).
Proof. intros Hf o Ho. split_and!; [|done|done]. cbn. by eapply (stable_step _ _ (Hf _)). Qed.
Lemma kept_send (e : Event) (k : Owner unit) :
  kept k -> kept (bind client (fun c => if has_room cfg c then send_event e else k)).
Proof.
  intros Hk o Ho. unfold bind. cbn. destruct (has_room cfg (O_client o)) eqn:Hroom; [|by apply Hk].
  split_and!; [|done|done]. cbn. eapply stable_step; [by apply step_send|done].
Qed.

Ltac kept_atom :=
  lazymatch goal with
  | |- kept (ret _) => apply kept_ret
  | |- kept (turn _ _) => apply kept_turn
  | |- kept client => apply kept_client
  | |- kept turn_number => apply kept_turn_number
  | |- kept (log _) => apply kept_log
  | |- kept (modify _) => apply kept_modify; intros; constructor
  | |- _ => solve [eauto 1 with kept nocore]
  end.
Ltac kept :=
  repeat lazymatch goal with
  | |- forall _, _ => intros
  | |- kept (bind client (fun c => if has_room _ c then send_event _ else _)) => apply kept_send
  | |- kept (bind _ _) => apply kept_bind
  | |- kept (match ?x with _ => _ end) => destruct x
  | |- kept (let _ := _ in _) => cbv zeta
  | |- _ => kept_atom
  end.
Create HintDb kept.

Lemma kept_publish (e : Event) : kept (publish cfg env e).
Proof.
  unfold publish. apply kept_bind; [apply kept_log|]. intros _. apply kept_bind; [apply kept_turn|]. intros _.
  apply kept_send. intros o Ho. destruct (quiet_overflow cfg env I o Ho) as (_ & _ & _ & HI).
  split_and!; [exact HI|cbn; lia|done].
Qed.
#[local] Hint Resolve kept_publish : kept.
Lemma kept_event (r : Response) : kept (event cfg env r).
Proof. unfold event. kept. Qed.
Lemma kept_drop (g : option generation) : kept (drop cfg env g).
Proof. unfold drop. kept. Qed.
#[local] Hint Resolve kept_event kept_drop : kept.
Lemma kept_drain (n : nat) (g : generation) : kept (drain cfg env n g).
Proof. induction n as [|n IH]; cbn [drain]; kept. Qed.
Lemma kept_check (r : request) : kept (check_guard cfg env r).
Proof. unfold check_guard. kept. Qed.
Lemma kept_exchange_end (sent : nat) (out : reply) : kept (exchange_end cfg env sent out).
Proof. unfold exchange_end. kept. Qed.
#[local] Hint Resolve kept_drain kept_check kept_exchange_end : kept.

(** The loop that waits for a reply is left to the user of this logic. *)
Context (fuel : nat) (Hawait : forall name args, kept (await cfg env fuel name args)).
Lemma kept_exchange (id : option nat) (name : string) (args : Values) : kept (exchange cfg env fuel id name args).
Proof. unfold exchange. kept. Qed.
#[local] Hint Resolve kept_exchange : kept.

Context (sha256 : string -> string) (pin : string).
Lemma kept_dial : kept (dial cfg env sha256 pin).
Proof. unfold dial. kept. Qed.
#[local] Hint Resolve kept_dial : kept.
Lemma kept_connect (nextDial : Time) : kept (connect cfg env sha256 pin fuel nextDial).
Proof. unfold connect. kept. Qed.
#[local] Hint Resolve kept_connect : kept.
Lemma kept_perform (r : request) (g : option generation) (nextDial : Time) : kept (perform cfg env sha256 pin fuel r g nextDial).
Proof. unfold perform. kept. Qed.
#[local] Hint Resolve kept_perform : kept.

End kept.

(** [I0] holds outside a request, [I] while its context is installed. *)
Section kept_process.
Context (b : bool) (cfg : ClientConfig) (env : nat -> answer) (sha256 : string -> string) (pin : string).
Context (I0 I : Client -> Prop) `{!Stable cfg I0} `{!Stable cfg I}.
Context (Henter : forall c r, I0 c -> I (activate c r)) (Hleave : forall c, I c -> I0 (c <| C_active := None |>)).
Context (Hweaken : forall c, I c -> I0 c).
Context (fuel : nat) (Hawait : forall name args, kept b I (await cfg env fuel name args)).
#[local] Set Default Proof Using "All".

(** From inside the request to outside of it. *)
Definition leaves {A} (m : Owner A) : Prop :=
  forall o, I (O_client o) ->
  I0 (O_client (m o).2) /\ (O_turn o <= O_turn (m o).2)%nat /\ (b = true -> is_Some (m o).1).

Lemma leaves_request {A} (k : Owner A) :
  kept b I0 k -> leaves (let! _ := turn cfg env in modify (fun c => c <| C_active := None |>) ;;; k).
Proof.
  intros Hk o Ho. destruct (Hk (modify (fun c => c <| C_active := None |>) (turn cfg env o).2).2) as (HI & Ht & Hs).
  { cbn. apply Hleave. by apply (outside_stable cfg env I). }
  split_and!; [exact HI| |exact Hs]. etransitivity; [|exact Ht]. cbn. lia.
Qed.

Lemma kept_activated {A B} (r : request) (m : Owner A) (k : A -> Owner B) :
  kept b I m -> (forall a, leaves (k a)) -> kept b I0 (modify (fun c => activate c r) ;;; bind m k).
Proof.
  intros Hm Hk o Ho. destruct (Hm (modify (fun c => activate c r) o).2) as (HI & Ht & Hs); [by apply Henter|].
  unfold bind in *. cbn [modify] in *. destruct (m _) as [[a|] o1]; cbn in *.
  - destruct (Hk a o1 HI) as (HI2 & Ht2 & Hs2). split_and!; [done|lia|done].
  - split_and!; [by apply Hweaken|lia|intros Hb; by destruct (Hs Hb)].
Qed.

Lemma kept_answer {A} (r : request) (out : reply) (a : A) : kept b I0 (answer_request r out ;;; ret a).
Proof.
  unfold answer_request. apply kept_bind; [|intros; apply kept_ret]. apply kept_bind; [apply kept_log|]. intros _.
  apply (kept_modify b cfg env I0). constructor.
Qed.

Lemma kept_process (r : request) (g : option generation) (nextDial : Time) :
  kept b I0 (process cfg env sha256 pin fuel r g nextDial).
Proof.
  unfold process. apply kept_bind; [by apply kept_turn|]. intros a. apply kept_bind; [apply kept_client|]. intros c.
  case_if; [apply kept_answer|].
  apply kept_bind; [apply (kept_modify b cfg env I0); constructor|]. intros _.
  apply kept_bind; [by apply kept_turn|]. intros _. apply kept_bind; [apply kept_client|]. intros c'.
  case_if; [apply kept_answer|]. apply kept_bind; [by apply kept_turn|]. intros _.
  apply kept_activated; [by apply kept_perform|]. intros [g1 out]. apply leaves_request.
  destruct out.2; [|apply kept_answer]. case_if; [apply kept_answer|].
  apply kept_bind; [by apply kept_drop|]. intros _. apply kept_bind; [by apply kept_turn|]. intros a1. apply kept_answer.
Qed.
End kept_process.

(** The owner's loop, for an invariant that the requests' contexts do not touch. *)
Section kept_run.
Context (cfg : ClientConfig) (env : nat -> answer) (sha256 : string -> string) (pin : string).
Context (I : Client -> Prop) `{!Stable cfg I}.
Context (Henter : forall c r, I c -> I (activate c r)) (Hleave : forall c, I c -> I (c <| C_active := None |>)).
#[local] Set Default Proof Using "All".
Abbreviation kept m := (ClientSafety.kept false I m).

Lemma kept_await (fuel : nat) (name : string) (args : Values) : kept (await cfg env fuel name args).
Proof.
  induction fuel as [|fuel IH]; cbn [await]; [by intros o Ho|].
  apply kept_bind; [by apply kept_turn|]. intros a. destruct (A_frame a) as [[r|e]|]; [|apply kept_ret|].
  - case_if; apply kept_bind; [by apply kept_event|intros; exact IH|apply kept_client|].
    intros c. destruct (reply_of _ _ _ _); [apply kept_ret|exact IH].
  - apply kept_bind; [apply kept_client|]. intros c. destruct (cause c); [apply kept_ret|exact IH].
Qed.

Lemma kept_run_loop (rounds fuel : nat) (g : option generation) (nextDial : Time) :
  kept (run_loop cfg env sha256 pin rounds fuel g nextDial).
Proof.
  revert g nextDial. induction rounds as [|rounds IH]; intros g nextDial; cbn [run_loop]; [by intros o Ho|].
  assert (Hnext : forall (f : Client -> Client) r, (forall c, step cfg c (f c)) -> kept (modify f ;;;
            let! next := process cfg env sha256 pin fuel r g nextDial in
            run_loop cfg env sha256 pin rounds fuel next.1 next.2)).
  { intros f r Hf. apply kept_bind; [by apply (kept_modify false cfg env I)|]. intros _.
    apply kept_bind; [|intros next; apply IH]. by apply (kept_process false cfg env sha256 pin I I); [..|apply kept_await]. }
  assert (Hcool : kept (cool_down cfg env g (run_loop cfg env sha256 pin rounds fuel None))).
  { apply kept_bind; [by apply kept_drop|]. intros _. apply kept_bind; [by apply kept_turn|]. intros a. apply IH. }
  apply kept_bind; [by apply kept_turn|]. intros a. apply kept_bind; [apply kept_client|]. intros c.
  case_if; [apply kept_ret|]. destruct (C_priority c); [|apply Hnext; constructor].
  apply kept_bind; [by apply kept_turn|]. intros a1. apply kept_bind; [apply kept_client|]. intros c1.
  destruct (A_pick a1) as [f| | |].
  - destruct g; [|apply IH]. destruct f as [r|e]; [|exact Hcool]. case_if; [|exact Hcool].
    apply kept_bind; [by apply kept_event|]. intros _. apply IH.
  - destruct (C_requests c1); [apply IH|apply Hnext; constructor].
  - destruct (C_priority c1); [apply IH|apply Hnext; constructor].
  - case_if; [apply kept_ret|apply IH].
Qed.

Lemma kept_run (rounds fuel : nat) : kept (run cfg env sha256 pin rounds fuel).
Proof.
  unfold run. apply kept_bind; [apply kept_run_loop|]. intros g. apply kept_bind; [by apply kept_drop|]. intros _.
  apply (kept_modify false cfg env I). constructor.
Qed.
End kept_run.
