(* ===== verification/ClientProps.v ===== *)
(** * What reaches the device

    The bytes of a request leave at most once, only under a guard that held at
    the last check, only while no interruption has come since its submission;
    and the answer says whether any byte left. *)

From S2P Require Import Prelude GoStd Values Model Errors Events Protocol Client ClientSafety.
#[local] Open Scope owner_scope.

(** ** The context of the active request *)

(** While the request runs its context is installed, and it is live only if
    the fence is still the request's. *)
Definition fenced (r : request) (c : Client) : Prop :=
  C_active c <> None /\ (C_active c = Some None -> C_fence c = Req_fence r).

Lemma same_fenced (r : request) (c c' : Client) :
  C_active c' = C_active c -> C_fence c' = C_fence c -> fenced r c -> fenced r c'.
Proof. unfold fenced. by intros -> ->. Qed.

Lemma cancel_fenced (r : request) (c : Client) (e : error) : fenced r c -> fenced r (cancel_active c e).
Proof. unfold fenced, cancel_active. intros [H1 H2]. by destruct (C_active c) as [[]|] eqn:H; cbn; rewrite ?H. Qed.

Lemma outside_fenced (cfg : ClientConfig) (r : request) (c : Client) (o : outside) :
  fenced r c -> fenced r (outside_step cfg c o).
Proof.
  intros Hf. destruct o; cbn.
  - revert Hf. apply same_fenced; unfold observePlayer; by repeat case_match.
  - unfold Interrupt. apply (same_fenced r (cancel_active (c <| C_fence := u64 (C_fence c + 1) |>) ErrInterrupted)); [done..|].
    destruct Hf as [H1 H2]. unfold fenced, cancel_active. cbn. destruct (C_active c) as [[]|] eqn:Ha; cbn; by rewrite ?Ha.
  - done.
  - done.
  - done.
  - revert Hf. apply same_fenced; unfold enqueue; by repeat case_match.
  - revert Hf. apply same_fenced; unfold await_result; by repeat case_match.
  - by apply cancel_fenced.
  - done.
Qed.

#[export] Instance fenced_stable (cfg : ClientConfig) (r : request) :
  TCEq (1 <=? CC_EventBuffer cfg) true -> Stable cfg (fenced r).
Proof.
  intros Hb. split; [|by apply Z.leb_le, TCEq_eq].
  intros c c' Hstep Hf. destruct Hstep; try done; [by apply outside_fenced| |];
    revert Hf; apply same_fenced; unfold count_event, disconnected; by repeat case_if; try case_match.
Qed.

(** ** The classification of an exchange *)

Definition is_not_sent (err : option error) : bool :=
  match err with Some (ECommand NotSent _) => true | _ => false end.
Definition classified (sent : nat) (out : reply) : Prop := is_not_sent out.2 = true <-> sent = 0%nat.

Lemma delivery_classified (sent : nat) (out : Response) (e : error) :
  classified sent (out, Some (ECommand (delivery_of sent) e)).
Proof. unfold classified, delivery_of. by destruct sent. Qed.

Lemma rejection_sent (r : Response) : is_not_sent (Some (rejection r)) = false.
Proof. unfold rejection. by repeat case_match. Qed.

Lemma reply_sent (name : string) (args : Values) (token : Token) (r : Response) (out : reply) :
  reply_of name args token r = Some out -> is_not_sent out.2 = false.
Proof.
  unfold reply_of. repeat case_match; intros [= <-]; try done. apply rejection_sent.
Qed.

Lemma write_loop_progress (w : nat -> string -> nat * option error) (fuel turn total : nat) (p : string) :
  (total <= (write_loop w fuel turn total p).1)%nat.
Proof.
  revert turn total p. induction fuel as [|fuel IH]; intros turn total p; [done|]. cbn. destruct p; [done|].
  destruct (w _ _) as [n [e|]]; [cbn; lia|]. case_if; [cbn; lia|].
  etransitivity; [|apply IH]. lia.
Qed.

Lemma writeAll_sent (w : nat -> string -> nat * option error) (p : string) :
  p <> "" -> (writeAll w p).2 = None -> (writeAll w p).1 <> 0%nat.
Proof.
  unfold writeAll. destruct p as [|c p]; [done|]. intros _. cbn [String.length write_loop].
  destruct (w _ _) as [n [e|]]; [done|]. destruct (n =? 0)%nat eqn:Hn; [done|]. apply Nat.eqb_neq in Hn. intros _.
  match goal with |- (write_loop ?w ?f ?t ?n ?s).1 <> _ => pose proof (write_loop_progress w f t n s) end. lia.
Qed.

Lemma encoded_nonempty (name : string) (args : Values) (wire : string) : encodeCommand name args = Ok wire -> wire <> "".
Proof.
  intros H ->. revert H. unfold encodeCommand, Result_bind. by repeat case_match.
Qed.

Section exchange.
Context (cfg : ClientConfig) (env : nat -> answer).
Context (r : request) `{!TCEq (1 <=? CC_EventBuffer cfg) true}.
#[local] Set Default Proof Using "All".
Abbreviation does m Q := (ClientSafety.does (fenced r) m Q).
Abbreviation calm m := (ClientSafety.calm (fenced r) m).

(** A quiet program whose result satisfies [P]. *)
Definition yields {A} (m : Owner A) (P : A -> Prop) : Prop :=
  does m (fun x t => Forall quiet t /\ forall a, x = Some a -> P a).

Lemma yields_bind {A B} (m : Owner A) (k : A -> Owner B) (P : A -> Prop) (Q : B -> Prop) :
  yields m P -> (forall a, P a -> yields (k a) Q) -> yields (bind m k) Q.
Proof using Type.
  intros Hm Hk. eapply does_bind; [exact Hm|by intros t [Ht _]|]. intros a t1 [Ht1 HP].
  eapply does_weaken; [apply Hk, HP, eq_refl|]. cbn. intros x t2 [Ht2 HQ]. split; [by apply Forall_app|done].
Qed.
Lemma yields_calm {A} (m : Owner A) : calm m -> yields m (fun _ => True).
Proof using Type. intros Hm. eapply does_weaken; [exact Hm|]. cbn. done. Qed.
Lemma yields_ret {A} (a : A) (P : A -> Prop) : P a -> yields (ret a) P.
Proof using Type. intros Ha o Ho. exists []. rewrite app_nil_r. split_and!; [done|done| |done]. by intros a' [= <-]. Qed.
Lemma yields_weaken {A} (m : Owner A) (P Q : A -> Prop) : yields m P -> (forall a, P a -> Q a) -> yields m Q.
Proof using Type. intros Hm HPQ. eapply does_weaken; [exact Hm|]. cbn. intros x t [Ht HP]. split; [done|]. eauto. Qed.
Lemma yields_waiting {A} (P : A -> Prop) : yields waiting P.
Proof using Type. intros o Ho. exists []. rewrite app_nil_r. by split_and!. Qed.
Lemma yields_client (P : Client -> Prop) : (forall c, fenced r c -> P c) -> yields client P.
Proof using Type.
  intros HP o Ho. exists []. rewrite app_nil_r. split_and!; [done|done| |done]. intros c [= <-]. by apply HP.
Qed.

Lemma await_sent (fuel : nat) (name : string) (args : Values) :
  yields (await cfg env fuel name args) (fun out => is_not_sent out.2 = false).
Proof.
  induction fuel as [|fuel IH]; cbn [await]; [apply yields_waiting|].
  eapply yields_bind; [apply yields_calm, quiet_turn; exact _|]. intros a _. destruct (A_frame a) as [[f|e]|].
  - case_if.
    + eapply yields_bind; [apply yields_calm, quiet_event; exact _|]. by intros _ _.
    + eapply yields_bind; [by apply (yields_client (fun _ => True))|]. intros c _.
      destruct (reply_of _ _ _ _) as [out|] eqn:Hout; [|done]. apply yields_ret. by eapply reply_sent.
  - by apply yields_ret.
  - eapply yields_bind; [by apply (yields_client (fun _ => True))|]. intros c _. destruct (cause c); [|done]. by apply yields_ret.
Qed.

Lemma end_classified (sent : nat) (out : reply) :
  classified sent out -> yields (exchange_end cfg env sent out) (classified sent).
Proof.
  intros Hout. unfold exchange_end. eapply yields_bind; [apply yields_calm, quiet_turn; exact _|]. intros _ _.
  eapply yields_bind; [by apply (yields_client (fun _ => True))|]. intros c _. apply yields_ret.
  destruct (cause c); [apply delivery_classified|done].
Qed.

(** The log of a request's exchange: its bytes leave at most once, under the
    request's fence, and the reply is classified by their number. *)
Definition sends_once (name : string) (x : option reply) (t : list entry) : Prop :=
  (Forall quiet t /\ forall out, x = Some out -> is_not_sent out.2 = true)
  \/ exists pre c wire sent post,
       t = pre ++ Wire (Some (Req_id r)) c name wire sent :: post /\ Forall quiet pre /\ Forall quiet post
       /\ C_active c = Some None /\ C_fence c = Req_fence r
       /\ forall out, x = Some out -> classified sent out.

Lemma sends_quiet (name : string) (m : Owner reply) :
  yields m (fun out => is_not_sent out.2 = true) -> does m (sends_once name).
Proof using Type. intros Hm. eapply does_weaken; [exact Hm|]. cbn. intros x t H. by left. Qed.

Lemma sends_after {A} (name : string) (m : Owner A) (k : A -> Owner reply) (P : A -> Prop) :
  yields m P -> (forall a, P a -> does (k a) (sends_once name)) -> does (bind m k) (sends_once name).
Proof using Type.
  intros Hm Hk. eapply does_bind; [exact Hm|intros t [Ht _]; by left|]. intros a t1 [Ht1 HP].
  eapply does_weaken; [apply Hk, HP, eq_refl|]. cbn. intros x t2 [[Ht2 Hx]|(pre & c & w & s & post & -> & Hpre & Hrest)].
  - left. split; [by apply Forall_app|done].
  - right. exists (t1 ++ pre), c, w, s, post. rewrite app_assoc. split_and!; try by destruct_and!. by apply Forall_app.
Qed.

Lemma exchange_once (fuel : nat) (name : string) (args : Values) :
  does (exchange cfg env fuel (Some (Req_id r)) name args) (sends_once name).
Proof.
  unfold exchange. eapply sends_after; [apply yields_calm, (quiet_modify cfg env); [exact _|constructor]|]. intros _ _.
  eapply sends_after; [by apply (yields_client (fun _ => True))|]. intros c0 _. cbv zeta.
  destruct (encodeCommand _ _) as [wire|e] eqn:Hwire; [|by apply sends_quiet, yields_ret].
  eapply sends_after; [apply yields_calm, quiet_turn; exact _|]. intros _ _.
  eapply sends_after; [by apply (yields_client (fenced r))|]. intros c Hc.
  destruct (cause c) as [e|] eqn:Hcause.
  { apply sends_quiet. eapply yields_weaken; [by apply (end_classified 0)|]. intros out Hout. by apply Hout. }
  eapply sends_after; [apply yields_calm, quiet_turn; exact _|]. intros a _. destruct (A_deadline a) as [e|].
  { apply sends_quiet. eapply yields_weaken; [by apply (end_classified 0)|]. intros out Hout. by apply Hout. }
  destruct (writeAll (A_write a) wire) as [sent err] eqn:Hsent.
  assert (Hactive : C_active c = Some None /\ C_fence c = Req_fence r).
  { destruct Hc as [H1 H2]. unfold cause in Hcause. destruct (C_active c) as [[]|]; auto; done. }
  set (k := match err with Some e => exchange_end cfg env sent _ | None => _ end).
  assert (Hk : yields k (classified sent)).
  { unfold k. destruct err as [e|]; [apply end_classified, delivery_classified|].
    eapply yields_bind; [apply await_sent|]. intros out Hout. apply end_classified. unfold classified. rewrite Hout.
    split; [done|]. intros ->. pose proof (writeAll_sent (A_write a) wire (encoded_nonempty _ _ _ Hwire)) as H.
    rewrite Hsent in H. by destruct (H eq_refl). }
  apply does_log. eapply does_weaken; [exact Hk|]. cbn. intros x t [Hq Hout]. right.
  exists [], c, wire, sent, t. destruct Hactive. by split_and!.
Qed.
End exchange.

(** ** The whole request *)

(** The guard of the request, if it has one, held at its last check, and the
    request consumed it. *)
Inductive checks (r : request) : list entry -> Prop :=
  | unguarded : Req_guard r = None -> checks r []
  | guarded guard c now :
      Req_guard r = Some guard ->
      guard_holds c (Values_Get (Req_args r) "pid") now guard = true ->
      checks r [Checked c now guard; Stamped (Req_id r) (Values_Get (Req_args r) "pid")].

(** Nothing of the request on the wire. *)
Definition untouched (t : list entry) : Prop := Forall quiet t.

(** Its bytes on the wire once, [sent] of them. *)
Definition on_the_wire (t : list entry) (sent : nat) (r : request) : Prop :=
  exists pre cs mid c wire post,
    t = pre ++ cs ++ mid ++ Wire (Some (Req_id r)) c (Req_command r) wire sent :: post
    /\ untouched pre /\ checks r cs /\ untouched mid /\ untouched post
    /\ C_active c = Some None /\ C_fence c = Req_fence r.

(** The log of a request, and what its reply may be. *)
Definition request_log (r : request) (t : list entry) (P : (reply -> Prop) -> Prop) : Prop :=
  (untouched t /\ P (fun out => is_not_sent out.2 = true))
  \/ exists sent, on_the_wire t sent r /\ P (classified sent).

Section process.
Context (cfg : ClientConfig) (env : nat -> answer) (r : request) `{!TCEq (1 <=? CC_EventBuffer cfg) true}.
Context (sha256 : string -> string) (pin : string).
#[local] Set Default Proof Using "All".

Definition perform_log (x : option (option generation * reply)) (t : list entry) : Prop :=
  request_log r t (fun P => forall g out, x = Some (g, out) -> P out).

Lemma untouched_app (t t' : list entry) : untouched t -> untouched t' -> untouched (t ++ t').
Proof using Type. intros. by apply Forall_app. Qed.

Lemma request_log_after (t t' : list entry) (P : (reply -> Prop) -> Prop) :
  untouched t -> request_log r t' P -> request_log r (t ++ t') P.
Proof using Type.
  intros Ht [[Ht' HP]|(sent & (pre & cs & mid & c & w & post & -> & Hpre & Hrest) & HP)].
  - left. split; [by apply untouched_app|done].
  - right. exists sent. split; [|done]. exists (t ++ pre), cs, mid, c, w, post. rewrite <- !app_assoc.
    split_and!; try by destruct_and!. by apply untouched_app.
Qed.

Lemma perform_after {A} (m : Owner A) (k : A -> Owner (option generation * reply)) (P : A -> Prop) :
  yields r m P -> (forall a, P a -> does (fenced r) (k a) perform_log) -> does (fenced r) (bind m k) perform_log.
Proof using Type.
  intros Hm Hk. eapply does_bind; [exact Hm|intros t [Ht _]; left; by split|]. intros a t1 [Ht1 HP].
  eapply does_weaken; [apply Hk, HP, eq_refl|]. cbn. intros x t2. by apply request_log_after.
Qed.

(** An error of [connect] sends nothing. *)
Definition not_sent_or_none (e : option error) : Prop := e = None \/ is_not_sent e = true.

Lemma drain_not_sent (n : nat) (g : generation) :
  yields r (drain cfg env n g) (fun out => not_sent_or_none out.2).
Proof.
  induction n as [|n IH]; cbn [drain]; [by apply yields_ret; left|].
  eapply yields_bind; [apply yields_calm, quiet_turn; exact _|]. intros a _.
  destruct (A_frame a) as [[f|e]|]; [|eapply yields_bind|by apply yields_ret; left].
  - case_if; eapply yields_bind.
    + apply yields_calm, quiet_event; exact _.
    + intros _ _. destruct n; [by apply yields_ret; right|done].
    + apply yields_calm, quiet_drop; exact _.
    + intros _ _. by apply yields_ret; right.
  - apply yields_calm, quiet_drop; exact _.
  - intros _ _. by apply yields_ret; right.
Qed.

Lemma connect_not_sent (fuel : nat) (nextDial : Time) :
  yields r (connect cfg env sha256 pin fuel nextDial) (fun out => not_sent_or_none out.2).
Proof.
  unfold connect. eapply yields_bind; [apply yields_calm, quiet_turn; exact _|]. intros a _.
  case_if; [by apply yields_ret; right|].
  eapply yields_bind; [apply yields_calm, quiet_dial; exact _|]. intros [g|e] _; [|by apply yields_ret; right].
  eapply yields_bind; [apply yields_calm, quiet_register; exact _|]. intros [out [e|]] _; cbn; [by apply yields_ret; right|].
  eapply yields_bind; [apply yields_calm, (quiet_modify cfg env); [exact _|constructor]|]. intros _ _. by apply yields_ret; left.
Qed.

(** The check logs the client it saw. *)
Definition check_log (x : option (option error)) (t : list entry) : Prop :=
  match Req_guard r with
  | None => t = [] /\ x = Some None
  | Some guard => exists c now e, t = [Checked c now guard] /\ x = Some e /\ not_sent_or_none e
      /\ (e = None -> guard_holds c (Values_Get (Req_args r) "pid") now guard = true)
  end.

Lemma check_guard_log : does (fenced r) (check_guard cfg env r) check_log.
Proof.
  unfold check_guard, check_log. destruct (Req_guard r) as [guard|].
  - intros o Ho. pose proof (quiet_turn cfg env (fenced r) o Ho) as (t & Ht & _ & HI).
    unfold bind in *. destruct (turn cfg env o) as [[a|] o1] eqn:Hturn; [|by unfold turn in Hturn].
    assert (t = []) as -> by (unfold turn in Hturn; injection Hturn as _ <-; cbn in Ht; by apply app_inv_head with (l := O_log o); rewrite app_nil_r).
    cbn in *. eexists [_]. rewrite Ht, app_nil_r. split; [done|]. split; [|done].
    do 3 eexists. split_and!; [done..| |]; case_if; [by left|by right|done|done].
  - intros o Ho. exists []. by rewrite app_nil_r.
Qed.

Lemma check_guard_yields : yields r (check_guard cfg env r) not_sent_or_none.
Proof.
  eapply does_weaken; [apply check_guard_log|]. unfold check_log. cbn. intros x t H. destruct (Req_guard r).
  - destruct H as (c & now & e & -> & -> & He & _). split; [by repeat constructor|]. by intros a [= <-].
  - destruct H as [-> ->]. split; [constructor|]. intros a [= <-]. by left.
Qed.

Lemma does_stamp {A} (id : nat) (pid : ID) (m : Mutation) (k : Owner A) (Q : option A -> list entry -> Prop) :
  does (fenced r) k (fun x t => Q x (Stamped id pid :: t)) ->
  does (fenced r) ((log (Stamped id pid) ;;; modify (fun c => stamp c pid m)) ;;; k) Q.
Proof using Type.
  intros Hk o Ho. destruct (Hk ((log (Stamped id pid) ;;; modify (fun c => stamp c pid m)) o).2) as (t & Hl & HQ & HI); [done|].
  exists (Stamped id pid :: t). split; [|split; [exact HQ|exact HI]].
  etransitivity; [exact Hl|]. cbn. by rewrite <- app_assoc.
Qed.

Lemma log_checked (cs : list entry) (x : option (option generation * reply)) (t : list entry) :
  checks r cs -> sends_once r (Req_command r) (snd <$> x) t -> perform_log x (cs ++ t).
Proof using Type.
  intros Hcs [[Ht Hout]|(pre & c & wire & sent & post & -> & Hpre & Hpost & Hactive & Hfence & Hout)].
  - left. split; [apply untouched_app; [|done]; destruct Hcs; by repeat constructor|].
    intros g out ->. by apply Hout.
  - right. exists sent. split; [|intros g out ->; by apply Hout].
    exists [], cs, pre, c, wire, post. split_and!; try done. constructor.
Qed.

Lemma perform_logs (fuel : nat) (g : option generation) (nextDial : Time) :
  does (fenced r) (perform cfg env sha256 pin fuel r g nextDial) perform_log.
Proof.
  unfold perform.
  eapply (perform_after _ _ (fun out => not_sent_or_none out.2)).
  { destruct (Req_guard r); [destruct g; [apply drain_not_sent|]|]; by apply yields_ret; left. }
  intros [g1 e1] H1. eapply (perform_after _ _ not_sent_or_none); [apply check_guard_yields|]. intros stale Hstale. cbv zeta.
  eapply (perform_after _ _ (fun out => not_sent_or_none out.2)).
  { assert (Hret : not_sent_or_none (if is_some stale then stale else e1)) by (by destruct stale).
    destruct g1; [by apply yields_ret|]. destruct (if is_some stale then stale else e1); [by apply yields_ret|].
    apply connect_not_sent. }
  intros [g2 e2] H2. destruct (is_some e2) eqn:He2.
  { eapply (perform_after _ _ (fun e => e = e2)); [by apply yields_ret|]. intros e ->. destruct e2 as [e2|]; [|done].
    destruct H2 as [|H2]; [done|]. intros o Ho. exists []. rewrite app_nil_r. split; [done|]. split; [|done].
    left. split; [constructor|]. by intros ? ? [= <- <-]. }
  eapply does_bind; [apply check_guard_log| |].
  { intros t. unfold check_log. destruct (Req_guard r); [|by intros []]. intros (c & now & e & _ & ? & _). done. }
  intros e t1 Ht1. destruct e as [e|].
  { intros o Ho. exists []. rewrite app_nil_r. split; [done|]. split; [|done]. left. unfold check_log in Ht1.
    destruct (Req_guard r).
    - destruct Ht1 as (c & now & e' & -> & [= <-] & He & _). destruct He as [|He]; [done|].
      split; [by repeat constructor|]. by intros ? ? [= <- <-].
    - by destruct Ht1. }
  assert (Hsend : does (fenced r)
            (let! out := exchange cfg env fuel (Some (Req_id r)) (Req_command r) (Req_args r) in ret (g2, out))
            (fun x t => sends_once r (Req_command r) (snd <$> x) t)).
  { eapply does_bind; [apply exchange_once; exact _|done|]. intros out t Hs o Ho. exists []. rewrite app_nil_r.
    split; [done|]. split; [|done]. by rewrite app_nil_r. }
  destruct (Req_guard r) as [guard|] eqn:Hguard; cbn [is_some]; unfold check_log in Ht1; rewrite Hguard in Ht1.
  - destruct Ht1 as (c & now & e & -> & [= <-] & _ & Hholds). specialize (Hholds eq_refl).
    apply does_stamp. eapply does_weaken; [exact Hsend|]. cbn beta. intros x t Hs.
    apply (log_checked [Checked c now guard; Stamped (Req_id r) (Values_Get (Req_args r) "pid")]); [by constructor|exact Hs].
  - destruct Ht1 as [-> _]. eapply does_weaken; [intros o Ho; exact (Hsend o Ho)|].
    cbn beta. intros x t Hs. apply (log_checked []); [by constructor|exact Hs].
Qed.

(** ** The owner's handling of a request *)

#[local] Instance true_stable : Stable cfg (fun _ => True).
Proof. split; [done|]. by apply Z.leb_le, TCEq_eq. Qed.
Abbreviation plain m Q := (ClientSafety.does (fun _ => True) m Q).

(** The end of the log: the answer, or an owner that is still waiting. *)
Definition ends (x : option (option generation * Time)) (fin : list entry) (P : reply -> Prop) : Prop :=
  (x = None /\ untouched fin)
  \/ exists q out, untouched q /\ fin = q ++ [Answered (Req_id r) out] /\ P out.

Definition process_log (x : option (option generation * Time)) (t : list entry) : Prop :=
  exists body fin, t = body ++ fin /\ request_log r body (ends x fin).

Lemma process_after {A} (m : Owner A) (k : A -> Owner (option generation * Time)) :
  ClientSafety.calm (fun _ => True) m -> (forall a, plain (k a) process_log) -> plain (bind m k) process_log.
Proof using Type.
  intros Hm Hk. eapply does_bind; [exact Hm| |].
  { intros t Ht. exists t, []. rewrite app_nil_r. split; [done|]. left. split; [done|]. left. split; [done|constructor]. }
  intros a t1 Ht1. eapply does_weaken; [apply Hk|]. cbn. intros x t2 (body & fin & -> & Hlog).
  exists (t1 ++ body), fin. rewrite app_assoc. split; [done|]. by apply request_log_after.
Qed.

Lemma refused_logs (out : reply) (k : option generation * Time) :
  is_not_sent out.2 = true -> plain (answer_request r out ;;; ret k) process_log.
Proof using Type.
  intros Hout o _. exists [Answered (Req_id r) out]. split; [done|]. split; [|done].
  exists [], [Answered (Req_id r) out]. split; [done|]. left. split; [constructor|]. right. exists [], out. split_and!; [constructor|done|done].
Qed.

(** The result is stored after entries that are quiet. *)
Definition answers (x : option (option generation * Time)) (t : list entry) (out : reply) : Prop :=
  exists q, untouched q /\ ((x = None /\ t = q) \/ t = q ++ [Answered (Req_id r) out]).

Lemma answers_after {A} (m : Owner A) (k : A -> Owner (option generation * Time)) (out : reply) :
  ClientSafety.calm (fun _ => True) m -> (forall a, plain (k a) (fun x t => answers x t out)) ->
  plain (bind m k) (fun x t => answers x t out).
Proof using Type.
  intros Hm Hk. eapply does_bind; [exact Hm| |].
  { intros t Ht. exists t. split; [done|by left]. }
  intros a t1 Ht1. eapply does_weaken; [apply Hk|]. cbn. intros x t2 (q & Hq & [[-> ->]| ->]).
  - exists (t1 ++ q). split; [by apply untouched_app|by left].
  - exists (t1 ++ q). split; [by apply untouched_app|]. right. by rewrite app_assoc.
Qed.

Lemma answer_logs (out : reply) (k : option generation * Time) :
  plain (answer_request r out ;;; ret k) (fun x t => answers x t out).
Proof using Type.
  intros o _. exists [Answered (Req_id r) out]. split; [done|]. split; [|done]. exists []. split; [constructor|by right].
Qed.

(** What follows [perform]. *)
Definition settle (nextDial : Time) (done : option generation * reply) : Owner (option generation * Time) :=
  let '(g, out) := done in
  let! a := turn cfg env in
  modify (fun c => c <| C_active := None |>) ;;;
  match out.2 with
  | Some e =>
      if keeps_connection g e then answer_request r out ;;; ret (g, nextDial)
      else
        drop cfg env g ;;;
        let! a := turn cfg env in
        answer_request r out ;;;
        ret (None, if errors_is ErrOffline e then nextDial else A_now a + CC_ReconnectDelay cfg)
  | None => answer_request r out ;;; ret (g, nextDial)
  end.

Lemma settle_logs (nextDial : Time) (done : option generation * reply) :
  plain (settle nextDial done) (fun x t => answers x t done.2).
Proof.
  destruct done as [g out]. unfold settle. cbn [snd].
  apply answers_after; [apply quiet_turn; exact _|]. intros _.
  apply answers_after. { intros o _. exists []. rewrite app_nil_r. split; [done|]. split; [constructor|done]. }
  intros _. destruct out.2; [|apply answer_logs]. case_if; [apply answer_logs|].
  apply answers_after; [apply quiet_drop; exact _|]. intros _.
  apply answers_after; [apply quiet_turn; exact _|]. intros a. apply answer_logs.
Qed.

Lemma run_activated {A} (m : Owner A) (Q : option A -> list entry -> Prop) :
  does (fenced r) m Q -> plain (modify (fun c => activate c r) ;;; m) Q.
Proof using Type.
  intros Hm o _. destruct (Hm (modify (fun c => activate c r) o).2) as (t & Hl & HQ & _).
  { cbn. unfold fenced. cbn. split; [done|]. case_if; [|done]. intros _. by breflect. }
  exists t. split; [exact Hl|]. split; [exact HQ|done].
Qed.

Lemma process_logs (fuel : nat) (g : option generation) (nextDial : Time) :
  plain (process cfg env sha256 pin fuel r g nextDial) process_log.
Proof.
  unfold process. apply process_after; [apply quiet_turn; exact _|]. intros a.
  apply process_after; [apply quiet_client|]. intros c. case_if; [by apply refused_logs|].
  apply process_after; [apply (quiet_modify cfg env); [exact _|constructor]|]. intros _.
  apply process_after; [apply quiet_turn; exact _|]. intros _.
  apply process_after; [apply quiet_client|]. intros c'. case_if; [by apply refused_logs|].
  apply process_after; [apply quiet_turn; exact _|]. intros _.
  assert (Hrun : plain (modify (fun c => activate c r) ;;;
            let! done := perform cfg env sha256 pin fuel r g nextDial in settle nextDial done) process_log).
  { intros o _. destruct (run_activated _ _ (perform_logs fuel g nextDial) o I) as (t & Hl & Hlog & _).
    unfold bind in *. cbn in Hl, Hlog |- *. destruct (perform _ _ _ _ _ _ _ _ _) as [[[g' out]|] o1] eqn:Hperform; cbn in Hl, Hlog.
    - destruct (settle_logs nextDial (g', out) o1 I) as (t' & Hl' & (q & Hq & Hfin) & _).
      exists (t ++ t'). rewrite Hl', Hl, app_assoc. split; [done|]. split; [|done]. exists t, t'. split; [done|].
      assert (Hends : forall P : reply -> Prop, P out -> ends (settle nextDial (g', out) o1).1 t' P).
      { intros P HP. destruct Hfin as [[-> ->]| ->]; [by left|]. right. by exists q, out. }
      destruct Hlog as [[Ht HP]|(sent & Hw & HP)].
      + left. split; [done|]. by apply Hends, (HP g' out).
      + right. exists sent. split; [done|]. by apply Hends, (HP g' out).
    - exists t. split; [exact Hl|]. split; [|done]. exists t, []. rewrite app_nil_r. split; [done|].
      assert (Hends : forall P, ends None [] P) by (left; split; [done|constructor]).
      destruct Hlog as [[Ht HP]|(sent & Hw & HP)]; [left; by split|right; exists sent; by split]. }
  exact Hrun.
Qed.
End process.

(** C13. A request reaches the device at most once, and only with a licence.
    Whatever other goroutines, the clock, the sockets and [select] do: the
    owner's handling of a request either leaves it untouched and answers "not
    sent", or writes its bytes exactly once.  At the last check before those
    bytes the request's context was live and no interruption had come since its
    submission; a guarded request had found the connection up, the player's
    token equal to the guard's and the guard unexpired, and had consumed the
    guard.  The answer says "not sent" if and only if no byte was taken. *)
Theorem request_sent_once (cfg : ClientConfig) (env : nat -> answer) (sha256 : string -> string) (pin : string)
    (fuel : nat) (r : request) (g : option generation) (nextDial : Time) (o : owner) :
  1 <= CC_EventBuffer cfg ->
  let '(x, o') := process cfg env sha256 pin fuel r g nextDial o in
  exists body fin, O_log o' = O_log o ++ body ++ fin /\ request_log r body (ends r x fin).
Proof.
  intros Hb. apply Z.leb_le in Hb. assert (Hbuffer : TCEq (1 <=? CC_EventBuffer cfg) true) by (by rewrite Hb).
  destruct (process_logs cfg env r sha256 pin fuel g nextDial o I) as (t & Hl & (body & fin & -> & Hlog) & _).
  destruct (process _ _ _ _ _ _ _ _ _) as [x o']. by exists body, fin.
Qed.

(** A connected client, a guarded mute, and a device that accepts it. *)
Definition quiet_config : ClientConfig := Config_defaults {|
  CC_EnableWrites := true; CC_ConnectTimeout := 0; CC_CommandTimeout := 0; CC_ReconnectDelay := 0;
  CC_QueueDepth := 0; CC_EventBuffer := 0; CC_FrameBytes := 0 |}.
Definition quiet_answer (frame : option incoming) : answer := {|
  A_outside := []; A_now := 1; A_frame := frame; A_write := fun _ p => (String.length p, None); A_deadline := None;
  A_tcp := None; A_handshake := Ok ["leaf"]; A_pick := PickStop; A_withdrawn := ESentinel Canceled |}.
Definition mute_reply : Response := Response_zero <| Resp_Command := "player/set_mute" |> <| Resp_Result := "success" |>
  <| Resp_Params := {["pid" := ["1"]]} |>.
Definition quiet_env (n : nat) : answer := quiet_answer (if (8 <=? n)%nat then Some (Ok mute_reply) else None).
Definition quiet_token : Token := Token_zero <| Token_Generation := 1 |> <| Token_Revision := 1 |>.
Definition quiet_client_state : Client := Client_zero <| C_View := Build_View quiet_token true |> <| C_connection := Some 0%nat |>
  <| C_players := {["1" := 0]} |>.
Definition mute_request : request := {|
  Req_id := 7; Req_guard := Some (Build_Guard quiet_token 5); Req_mutation := Mutation_zero; Req_priority := false;
  Req_command := "player/set_mute"; Req_args := Values_Set {["pid" := ["1"]]} "state" "on"; Req_fence := 0 |}.

Lemma request_sent_once_witness :
  let '(x, o') := process quiet_config quiet_env (fun s => s) "leaf" 20 mute_request (Some (Build_generation 0 true)) 0
                    (Build_owner quiet_client_state 0 []) in
  (exists body fin, O_log o' = body ++ fin /\ request_log mute_request body (ends mute_request x fin))
  /\ existsb (fun e => match e with Wire (Some 7%nat) _ _ _ sent => (0 <? sent)%nat | _ => false end) (O_log o') = true
  /\ existsb (fun e => match e with Answered 7%nat (_, None) => true | _ => false end) (O_log o') = true.
Proof.
  pose proof (request_sent_once quiet_config quiet_env (fun s => s) "leaf" 20 mute_request (Some (Build_generation 0 true)) 0
                (Build_owner quiet_client_state 0 []) ltac:(by vm_compute)) as H.
  assert (Hsent : existsb (fun e => match e with Wire (Some 7%nat) _ _ _ sent => (0 <? sent)%nat | _ => false end)
            (O_log (process quiet_config quiet_env (fun s => s) "leaf" 20 mute_request (Some (Build_generation 0 true)) 0
                      (Build_owner quiet_client_state 0 [])).2) = true) by (vm_compute; reflexivity).
  assert (Hanswered : existsb (fun e => match e with Answered 7%nat (_, None) => true | _ => false end)
            (O_log (process quiet_config quiet_env (fun s => s) "leaf" 20 mute_request (Some (Build_generation 0 true)) 0
                      (Build_owner quiet_client_state 0 [])).2) = true) by (vm_compute; reflexivity).
  destruct (process _ _ _ _ _ _ _ _ _) as [x o']. split_and!; [exact H|exact Hsent|exact Hanswered].
Defined.
