(* ===== verification/ClientBounds.v ===== *)
(** * Counters, bounds and answers

    A consumed guard never matches again; the owner's queues and maps stay
    within their limits; and a request whose context ends is answered. *)

From S2P Require Import Prelude GoStd Values Model Errors Events Protocol Client ClientSafety ClientProps.
#[local] Open Scope owner_scope.

(** ** Guards are single use

    Counters wrap at 2^64.  A step raises the revision by at most one, or leaves
    it alone and raises the player's write counter by at most one: over fewer
    than 2^64 steps the pair never comes back. *)

Definition revision (c : Client) : Z := Token_Revision (View_Token (C_View c)).
Definition write_revision (c : Client) (pid : ID) : Z := PW_revision (player_write c pid).

Definition advances (pid : ID) (n : Z) (c c' : Client) : Prop :=
  exists d, 0 <= d <= n /\ revision c' = u64 (revision c + d)
  /\ (d = 0 -> exists e, 0 <= e <= n /\ write_revision c' pid = u64 (write_revision c pid + e)).

(** The counters are machine words. *)
Definition words (c : Client) : Prop :=
  0 <= revision c < 2 ^ 64 /\ forall pid, 0 <= write_revision c pid < 2 ^ 64.

Lemma u64_word (z : Z) : 0 <= u64 z < 2 ^ 64.
Proof. unfold u64. apply Z.mod_pos_bound. lia. Qed.
Lemma u64_id (z : Z) : 0 <= z < 2 ^ 64 -> u64 z = z.
Proof. unfold u64. apply Z.mod_small. Qed.
Lemma u64_add (a b : Z) : u64 (u64 a + b) = u64 (a + b).
Proof. unfold u64. by rewrite Zplus_mod_idemp_l. Qed.
Lemma u64_moves (a d : Z) : 0 <= a < 2 ^ 64 -> 0 < d < 2 ^ 64 -> u64 (a + d) <> a.
Proof.
  unfold u64. intros Ha Hd. destruct (decide (a + d < 2 ^ 64)).
  - rewrite Z.mod_small by lia. lia.
  - replace (a + d) with ((a + d - 2 ^ 64) + 1 * 2 ^ 64) by lia. rewrite Z.mod_add by lia.
    rewrite Z.mod_small by lia. lia.
Qed.

Lemma advances_trans (pid : ID) (n m : Z) (a b c : Client) :
  advances pid n a b -> advances pid m b c -> advances pid (n + m) a c.
Proof.
  intros (d1 & H1 & R1 & W1) (d2 & H2 & R2 & W2). exists (d1 + d2). rewrite R2, R1, u64_add, Z.add_assoc.
  split_and!; [lia|lia|done|]. intros Hd. destruct W1 as (e1 & He1 & W1); [lia|]. destruct W2 as (e2 & He2 & W2); [lia|].
  exists (e1 + e2). rewrite W2, W1, u64_add, Z.add_assoc. split; [lia|done].
Qed.

Section advance.
Context (cfg : ClientConfig) (pid : ID).

(** The view's revision rises: whatever happens to the writes. *)
Lemma advance_revision (c c' : Client) : revision c' = u64 (revision c + 1) -> advances pid 1 c c'.
Proof. intros H. exists 1. split_and!; [lia|lia|done|]. lia. Qed.
Lemma advance_same (c c' : Client) :
  words c -> revision c' = revision c -> write_revision c' pid = write_revision c pid -> advances pid 1 c c'.
Proof.
  intros [Hr Hw] HR HW. exists 0. rewrite HR, Z.add_0_r, u64_id by done. split_and!; [lia|lia|done|]. intros _.
  exists 0. rewrite HW, Z.add_0_r, u64_id by done. split; [lia|done].
Qed.

Lemma outside_advances (c : Client) (o : outside) : words c -> advances pid 1 c (outside_step cfg c o).
Proof.
  intros Hc. destruct o; cbn; try (by apply advance_same).
  - unfold observePlayer. destruct (C_players c !! _); [by apply advance_same|]. cbn. case_if; [by apply advance_revision|by apply advance_same].
  - apply advance_revision. unfold Interrupt, cancel_active. by repeat case_match.
  - apply advance_same; [done|unfold enqueue; by repeat case_match..].
  - apply advance_same; [done|unfold await_result; by repeat case_match..].
  - apply advance_same; [done|unfold cancel_active; by repeat case_match..].
Qed.

Lemma stamp_writes (c : Client) (p : ID) (m : Mutation) :
  write_revision (stamp c p m) pid = if decide (p = pid) then u64 (write_revision c pid + 1) else write_revision c pid.
Proof.
  unfold write_revision, player_write, stamp. cbn. destruct (decide (p = pid)) as [->|Hne].
  - by rewrite lookup_insert_eq.
  - by rewrite lookup_insert_ne.
Qed.

Lemma step_advances (c c' : Client) : words c -> any_step cfg c c' -> advances pid 1 c c'.
Proof.
  intros Hc [c'' Hstep|r|]; [|by apply advance_same..]. destruct Hstep; try (by apply advance_same); try (by apply advance_revision).
  - by apply outside_advances.
  - unfold count_event. destruct (player_event d); [|case_if; by apply advance_revision].
    destruct (C_players c !! ED_Player d); case_if; by apply advance_same.
  - unfold disconnected. case_if; [by apply advance_revision|by apply advance_same].
  - exists 0. rewrite Z.add_0_r. unfold revision. cbn. rewrite u64_id by apply Hc. split_and!; [lia|lia|done|].
    intros _. rewrite stamp_writes. case_decide; [exists 1; split; [lia|done]|exists 0]. rewrite Z.add_0_r, u64_id by apply Hc. split; [lia|done].
Qed.

Lemma advances_words (n : Z) (c c' : Client) : words c -> advances pid n c c' -> 0 <= revision c' < 2 ^ 64.
Proof. intros _ (d & _ & -> & _). apply u64_word. Qed.
End advance.

Lemma outside_writes (cfg : ClientConfig) (c : Client) (o : outside) :
  C_writes (outside_step cfg c o) = C_writes c \/ C_writes (outside_step cfg c o) = ∅.
Proof.
  destruct o; cbn; auto.
  - unfold observePlayer. destruct (C_players c !! _); [by left|]. cbn. case_if; [by right|by left].
  - left. unfold Interrupt, cancel_active. by repeat case_match.
  - left. unfold enqueue. by repeat case_match.
  - left. unfold await_result. by repeat case_match.
  - left. unfold cancel_active. by repeat case_match.
Qed.

Lemma step_writes (cfg : ClientConfig) (c c' : Client) :
  any_step cfg c c' ->
  C_writes c' = C_writes c \/ C_writes c' = ∅ \/ exists pid m, C_writes c' = C_writes (stamp c pid m).
Proof.
  intros [c'' Hstep|r|]; [|by left..]. destruct Hstep; try by left.
  - destruct (outside_writes cfg c o); auto.
  - left. unfold count_event. destruct (player_event d); [destruct (C_players c !! ED_Player d)|]; by case_if.
  - left. unfold disconnected. by case_if.
  - right. right. by exists pid, m.
Qed.

Lemma step_words (cfg : ClientConfig) (c c' : Client) : words c -> any_step cfg c c' -> words c'.
Proof.
  intros Hc Hstep. split.
  - eapply (advances_words ""); [done|]. by eapply step_advances.
  - intros p. unfold write_revision, player_write. destruct (step_writes _ _ _ Hstep) as [->|[->|(pid & m & ->)]].
    + apply Hc.
    + rewrite lookup_empty. done.
    + fold (player_write (stamp c pid m) p). fold (write_revision (stamp c pid m) p). rewrite stamp_writes.
      case_decide; [apply u64_word|apply Hc].
Qed.

(** [n] steps of the client, by anyone. *)
Inductive steps (cfg : ClientConfig) (c : Client) : nat -> Client -> Prop :=
  | steps_none : steps cfg c 0 c
  | steps_more n c' c'' : steps cfg c n c' -> any_step cfg c' c'' -> steps cfg c (S n) c''.

Lemma steps_advance (cfg : ClientConfig) (pid : ID) (c c' : Client) (n : nat) :
  words c -> steps cfg c n c' -> advances pid (Z.of_nat n) c c' /\ words c'.
Proof.
  intros Hc Hsteps. induction Hsteps as [|n c' c'' _ [IH Hw] Hstep].
  - split; [|done]. exists 0. rewrite Z.add_0_r, u64_id by apply Hc. split_and!; [lia|lia|done|]. intros _. exists 0.
    rewrite Z.add_0_r, u64_id by apply Hc. split; [lia|done].
  - split; [|by eapply step_words]. replace (Z.of_nat (S n)) with (Z.of_nat n + 1) by lia.
    eapply advances_trans; [exact IH|]. by eapply step_advances.
Qed.

(** A guard authorizes one write.  Once a command has consumed it, no state
    the client reaches in fewer than 2^64 steps, whatever players are observed
    or evicted, events counted, connections lost or commands sent in between,
    satisfies the guard again, at any time. *)
Theorem guard_used_once (cfg : ClientConfig) (c c1 c2 : Client) (pid : ID) (m : Mutation) (guard : Guard) (now later : Time)
    (n1 n2 : nat) :
  words c -> guard_holds c pid now guard = true ->
  steps cfg c n1 c1 -> steps cfg (stamp c1 pid m) n2 c2 -> Z.of_nat n1 + Z.of_nat n2 + 1 < 2 ^ 64 ->
  guard_holds c2 pid later guard = false.
Proof.
  intros Hc Hheld H1 H2 Hn. destruct (steps_advance cfg pid _ _ _ Hc H1) as [A1 Hw1].
  assert (Hw : words (stamp c1 pid m)) by (eapply (step_words cfg); [exact Hw1|apply any_inner, step_stamp]).
  destruct (steps_advance cfg pid _ _ _ Hw H2) as [A2 _].
  destruct (guard_holds c2 pid later guard) eqn:Hheld2; [exfalso|done].
  assert (Htoken : player_token c pid = player_token c2 pid).
  { unfold guard_holds in *. cbn in Hheld, Hheld2. repeat rewrite andb_true_iff in *.
    destruct Hheld as [[_ Ha%bool_decide_eq_true] _], Hheld2 as [[_ Hb%bool_decide_eq_true] _]. cbn in Ha, Hb. congruence. }
  assert (HR : revision c2 = revision c) by (injection Htoken; unfold revision; congruence).
  assert (HW : write_revision c2 pid = write_revision c pid) by (injection Htoken; unfold write_revision; congruence).
  destruct A1 as (d1 & Hd1 & R1 & W1), A2 as (d2 & Hd2 & R2 & W2). change (revision (stamp c1 pid m)) with (revision c1) in R2.
  rewrite R2, R1, u64_add in HR. destruct (decide (d1 + d2 = 0)).
  - destruct W1 as (e1 & He1 & W1); [lia|]. destruct W2 as (e2 & He2 & W2); [lia|].
    rewrite W2, stamp_writes, decide_True, W1, !u64_add in HW by done.
    rewrite <- Z.add_assoc, u64_add, <- Z.add_assoc in HW. apply u64_moves in HW; [done|apply Hc|lia].
  - rewrite <- Z.add_assoc in HR. apply u64_moves in HR; [done|apply Hc|lia].
Qed.

Lemma guard_used_once_witness :
  let c := Client_zero <| C_View := Build_View Token_zero true |> in
  guard_holds c "1" 0 (Build_Guard Token_zero 5) = true
  /\ guard_holds (Interrupt (stamp c "1" Mutation_zero)) "1" 2 (Build_Guard Token_zero 5) = false.
Proof.
  split; [vm_compute; reflexivity|].
  apply (guard_used_once (Build_ClientConfig true 0 0 0 0 0 0) (Client_zero <| C_View := Build_View Token_zero true |>)
           (Client_zero <| C_View := Build_View Token_zero true |>) _ "1" Mutation_zero (Build_Guard Token_zero 5) 0 2 0 1).
  - split; [vm_compute; split; [discriminate|reflexivity]|]. intros pid. vm_compute. split; [discriminate|reflexivity].
  - vm_compute. reflexivity.
  - constructor.
  - econstructor; [constructor|]. apply any_inner, (step_outside _ _ Interrupts).
  - lia.
Defined.

(** ** Nothing grows without bound *)

Definition within (cfg : ClientConfig) (c : Client) : Prop :=
  Z.of_nat (size (C_players c)) <= 64 /\ len (C_events c) <= CC_EventBuffer cfg
  /\ len (C_requests c) <= CC_QueueDepth cfg /\ len (C_priority c) <= 4.

Lemma len_tail {A} (l : list A) (n : Z) : len l <= n -> len (tail l) <= n.
Proof. destruct l as [|x l]; [done|]. rewrite len_cons. cbn. lia. Qed.
(** Observing one more player than 64 forgets them all first. *)
Lemma observe_size (c : Client) (pid : ID) :
  Z.of_nat (size (C_players c)) <= 64 -> Z.of_nat (size (C_players (observePlayer c pid).2)) <= 64.
Proof.
  unfold observePlayer. intros Hc. destruct (C_players c !! pid) eqn:Hp; [done|]. cbn. case_if; breflect.
  - cbn. rewrite map_size_insert_None by apply lookup_empty. rewrite map_size_empty. lia.
  - cbn. rewrite map_size_insert_None by done. lia.
Qed.

Lemma same_within (cfg : ClientConfig) (c c' : Client) :
  C_players c' = C_players c -> C_events c' = C_events c -> C_requests c' = C_requests c ->
  C_priority c' = C_priority c -> within cfg c -> within cfg c'.
Proof. unfold within. by intros -> -> -> ->. Qed.

Lemma outside_within (cfg : ClientConfig) (c : Client) (o : outside) : within cfg c -> within cfg (outside_step cfg c o).
Proof.
  intros Hc. destruct o; cbn [outside_step]; try done.
  - destruct Hc as (Hp & He & Hr & Hq). unfold within. split; [by apply observe_size|].
    assert (H : C_events (observePlayer c pid).2 = C_events c /\ C_requests (observePlayer c pid).2 = C_requests c
                /\ C_priority (observePlayer c pid).2 = C_priority c).
    { unfold observePlayer. destruct (C_players c !! pid); [done|]. cbn. by case_if. }
    by destruct H as (-> & -> & ->).
  - revert Hc. apply same_within; unfold Interrupt, cancel_active; by repeat case_match.
  - destruct Hc as (Hp & He & Hr & Hq). split_and!; cbn; try done. by apply len_tail.
  - unfold enqueue. destruct (encodeCommand _ _); [|done]. destruct ctx_err; [done|]. case_if; [done|]. case_if; [done|].
    destruct Hc as (Hp & He & Hr & Hq). case_if; case_if; cbn; try done; breflect; split_and!; cbn; try done; rewrite len_snoc; lia.
  - unfold await_result. repeat case_match; done.
  - unfold cancel_active. repeat case_match; done.
Qed.

Lemma step_within (cfg : ClientConfig) (c c' : Client) : 1 <= CC_EventBuffer cfg -> step cfg c c' -> within cfg c -> within cfg c'.
Proof.
  intros Hb Hstep Hc. destruct Hstep; try done.
  - by apply outside_within.
  - destruct Hc as (Hp & He & Hr & Hq). split_and!; cbn; try done. rewrite len_snoc. unfold has_room in H. breflect. lia.
  - destruct Hc as (Hp & He & Hr & Hq). split_and!; cbn; try done. unfold len. cbn. lia.
  - unfold count_event. destruct Hc as (Hp & He & Hr & Hq).
    assert (Hsize : Z.of_nat (size (C_players (count_event c d))) <= 64).
    { unfold count_event. destruct (player_event d); [destruct (C_players c !! ED_Player d) eqn:Hd|]; case_if; cbn; try done;
        by rewrite map_size_insert_Some. }
    unfold count_event in Hsize. split; [done|]. destruct (player_event d); [destruct (C_players c !! ED_Player d)|]; by case_if.
  - unfold disconnected. by case_if.
  - destruct Hc as (Hp & He & Hr & Hq). split_and!; cbn; try done. by apply len_tail.
  - destruct Hc as (Hp & He & Hr & Hq). split_and!; cbn; try done. by apply len_tail.
Qed.

(** The connection never queues without bound: from a fresh client, however
    long the owner runs and whatever others submit, observe or consume, it
    remembers at most 64 players, buffers at most [EventBuffer] events and holds
    at most [QueueDepth] ordinary and four priority requests. *)
Theorem owner_stays_within (cfg : ClientConfig) (env : nat -> answer) (sha256 : string -> string) (pin : string)
    (rounds fuel : nat) :
  1 <= CC_EventBuffer cfg -> 0 <= CC_QueueDepth cfg ->
  within cfg (O_client (run cfg env sha256 pin rounds fuel (Build_owner Client_zero 0 [])).2).
Proof.
  intros Hb Hq. assert (Hstable : Stable cfg (within cfg)).
  { split; [|done]. intros c c' Hstep. by apply step_within. }
  apply (kept_run cfg env sha256 pin (within cfg)); [done..|].
  unfold within. cbn. rewrite map_size_empty. unfold len. cbn. lia.
Qed.

Lemma owner_stays_within_witness :
  let cfg := Config_defaults (Build_ClientConfig true 0 0 0 0 0 0) in
  within cfg (O_client (run cfg (fun _ => {|
      A_outside := [Observes "1"; Interrupts; Stops]; A_now := 1; A_frame := None; A_write := fun _ p => (String.length p, None);
      A_deadline := None; A_tcp := None; A_handshake := Ok []; A_pick := PickStop; A_withdrawn := ESentinel Canceled |})
    (fun s => s) "" 5 5 (Build_owner Client_zero 0 [])).2).
Proof. intros cfg. apply owner_stays_within; vm_compute; discriminate. Defined.

(** ** A request whose context ends is answered

    The deadline of the request, its caller or the client's end cancel its
    context; the reader then stops delivering frames. *)

Section answered.
Context (cfg : ClientConfig) (env : nat -> answer) (N : nat).
Context (Hexpires : forall n, (N <= n)%nat -> exists e, Expires e ∈ A_outside (env n)).
Context (Hquiet : forall n, (N <= n)%nat -> A_frame (env n) = None).
Context `{!TCEq (1 <=? CC_EventBuffer cfg) true}.
#[local] Set Default Proof Using "All".

Definition installed (c : Client) : Prop := C_active c <> None.
Definition cancelled (c : Client) : Prop := is_Some (cause c).

Lemma outside_active (c : Client) (o : outside) :
  C_active (outside_step cfg c o) = C_active c
  \/ exists e, C_active c = Some None /\ C_active (outside_step cfg c o) = Some (Some e).
Proof using Type.
  destruct o; cbn [outside_step]; auto.
  - left. unfold observePlayer. by repeat case_match.
  - unfold Interrupt, cancel_active. cbn. destruct (C_active c) as [[]|] eqn:H; [left|right|left]; cbn; rewrite ?H; eauto.
  - left. unfold enqueue. by repeat case_match.
  - left. unfold await_result. by repeat case_match.
  - unfold cancel_active. destruct (C_active c) as [[]|] eqn:H; [left|right|left]; cbn; rewrite ?H; eauto.
Qed.

#[local] Instance installed_stable : Stable cfg installed.
Proof.
  split; [|by apply Z.leb_le, TCEq_eq]. unfold installed. intros c c' Hstep Hc.
  destruct Hstep; try done.
  - destruct (outside_active c o) as [->|(e & _ & ->)]; done.
  - unfold count_event. by repeat case_match.
  - unfold disconnected. by repeat case_match.
Qed.
#[local] Instance anything_stable : Stable cfg (fun _ => True).
Proof. split; [done|]. by apply Z.leb_le, TCEq_eq. Qed.

Lemma cancelled_stays (os : list outside) (c : Client) : cancelled c -> cancelled (foldl (outside_step cfg) c os).
Proof using Type.
  revert c. induction os as [|o os IH]; intros c Hc; [done|]. cbn. apply IH. unfold cancelled, cause in *.
  destruct (outside_active c o) as [->|(e & Ha & ->)]; [done|by eexists].
Qed.

Lemma expired (os : list outside) (c : Client) (e : error) :
  Expires e ∈ os -> installed c -> cancelled (foldl (outside_step cfg) c os).
Proof using Type.
  revert c. induction os as [|o os IH]; intros c; [intros H; by apply elem_of_nil in H|].
  intros [<-|Hin]%elem_of_cons Hc; cbn.
  - apply cancelled_stays. unfold cancelled, cause, cancel_active. cbn. unfold installed in Hc.
    destruct (C_active c) as [[x|]|] eqn:Ha; cbn; rewrite ?Ha; [by eexists..|done].
  - apply IH; [done|]. unfold installed in *. destruct (outside_active c o) as [->|(x & _ & ->)]; done.
Qed.

(** With more rounds than the turns left before the end of the context, the
    wait for a reply is over. *)
Lemma await_ends (fuel : nat) (name : string) (args : Values) (o : owner) :
  installed (O_client o) -> (N - O_turn o < fuel)%nat ->
  installed (O_client (await cfg env fuel name args o).2) /\ (O_turn o <= O_turn (await cfg env fuel name args o).2)%nat
  /\ is_Some (await cfg env fuel name args o).1.
Proof.
  revert o. induction fuel as [|fuel IH]; intros o Ho Hfuel; [lia|]. cbn [await].
  set (o1 := (turn cfg env o).2).
  assert (Ho1 : installed (O_client o1)) by (cbn; by apply (outside_stable cfg env installed)).
  assert (Ht1 : O_turn o1 = S (O_turn o)) by done.
  change (bind (turn cfg env) ?k o) with (k (env (O_turn o)) o1). cbv beta.
  destruct (A_frame (env (O_turn o))) as [[r|e]|] eqn:Hframe.
  - assert (Hlt : (O_turn o < N)%nat).
    { destruct (decide (N <= O_turn o)%nat) as [Hle|]; [|lia]. by rewrite (Hquiet _ Hle) in Hframe. }
    case_if.
    + destruct (kept_event true cfg env installed r o1 Ho1) as (Ho2 & Ht2 & Hs2). specialize (Hs2 eq_refl).
      unfold bind. destruct (event cfg env r o1) as [[u|] o2]; [|by destruct Hs2]. cbn in *.
      destruct (IH o2 Ho2) as (Ho3 & Ht3 & Hs3); [lia|]. split_and!; [done|lia|done].
    + unfold bind, client. destruct (reply_of _ _ _ _); [cbn; split_and!; [done|lia|by eexists]|].
      destruct (IH o1 Ho1) as (Ho3 & Ht3 & Hs3); [lia|]. split_and!; [done|lia|done].
  - cbn. split_and!; [done|lia|by eexists].
  - unfold bind, client. destruct (cause (O_client o1)) as [e|] eqn:Hcause; [cbn; split_and!; [done|lia|by eexists]|].
    assert (Hlt : (O_turn o < N)%nat).
    { destruct (decide (N <= O_turn o)%nat) as [Hle|]; [|lia]. destruct (Hexpires _ Hle) as [e He].
      destruct (expired _ _ e He Ho) as [x Hx]. cbn in Hcause. rewrite Hx in Hcause. done. }
    destruct (IH o1 Ho1) as (Ho3 & Ht3 & Hs3); [lia|]. split_and!; [done|lia|done].
Qed.

Lemma process_ends (sha256 : string -> string) (pin : string) (fuel : nat) (r : request) (g : option generation)
    (nextDial : Time) (o : owner) :
  (N < fuel)%nat -> is_Some (process cfg env sha256 pin fuel r g nextDial o).1.
Proof.
  intros Hfuel. refine ((proj2 (proj2 (kept_process true cfg env sha256 pin (fun _ => True) installed _ _ _ fuel _ r g nextDial o I))) eq_refl).
  - intros c q _. unfold installed. cbn. done.
  - done.
  - done.
  - intros name args o' Ho'. destruct (await_ends fuel name args o' Ho') as (H1 & H2 & H3); [lia|]. by split_and!.
Qed.
End answered.

(** C14. Every request the owner takes is answered.  If from some turn on the
    request's context has ended, by its deadline, its caller or the client's
    close, and the reader delivers no more frames, then the owner finishes the
    request within as many rounds of waiting and logs its answer, wherever the
    device, the socket or the other goroutines stopped. *)
Theorem request_answered (cfg : ClientConfig) (env : nat -> answer) (N : nat) (sha256 : string -> string) (pin : string)
    (fuel : nat) (r : request) (g : option generation) (nextDial : Time) (o : owner) :
  1 <= CC_EventBuffer cfg ->
  (forall n, (N <= n)%nat -> exists e, Expires e ∈ A_outside (env n)) ->
  (forall n, (N <= n)%nat -> A_frame (env n) = None) ->
  (N < fuel)%nat ->
  let '(x, o') := process cfg env sha256 pin fuel r g nextDial o in
  is_Some x /\ exists log out, O_log o' = O_log o ++ log ++ [Answered (Req_id r) out].
Proof.
  intros Hb Hexpires Hquiet Hfuel. apply Z.leb_le in Hb.
  assert (Hbuffer : TCEq (1 <=? CC_EventBuffer cfg) true) by (by rewrite Hb).
  pose proof (process_ends cfg env N Hexpires Hquiet sha256 pin fuel r g nextDial o Hfuel) as Hend.
  destruct (process_logs cfg env r sha256 pin fuel g nextDial o I) as (t & Hl & (body & fin & -> & Hlog) & _).
  destruct (process _ _ _ _ _ _ _ _ _) as [x o']. cbn in *. split; [done|].
  assert (Hfin : forall P, ends r x fin P -> exists q out, fin = q ++ [Answered (Req_id r) out]).
  { intros P [[-> _]|(q & out & _ & -> & _)]; [by destruct Hend|]. by exists q, out. }
  assert (exists q out, fin = q ++ [Answered (Req_id r) out]) as (q & out & ->).
  { destruct Hlog as [[_ H]|(sent & _ & H)]; by eapply Hfin. }
  exists (body ++ q), out. by rewrite Hl, !app_assoc.
Qed.

Lemma request_answered_witness :
  let env n := {|
      A_outside := if (3 <=? n)%nat then [Expires (ESentinel DeadlineExceeded)] else []; A_now := 1; A_frame := None;
      A_write := fun _ p => (String.length p, None); A_deadline := None; A_tcp := None; A_handshake := Ok ["leaf"];
      A_pick := PickStop; A_withdrawn := ESentinel Canceled |} in
  let '(x, o') := process quiet_config env (fun s => s) "leaf" 4 mute_request (Some (Build_generation 0 true)) 0
                    (Build_owner quiet_client_state 0 []) in
  is_Some x /\ exists log out, O_log o' = [] ++ log ++ [Answered 7 out].
Proof.
  intros env. apply (request_answered quiet_config env 3).
  - vm_compute. discriminate.
  - intros n Hn. exists (ESentinel DeadlineExceeded). unfold env. cbn [A_outside].
    rewrite (proj2 (Nat.leb_le _ _)) by exact Hn. left.
  - intros n _. reflexivity.
  - lia.
Defined.
