(* ===== verification/Reads.v ===== *)
(** * Reading the device ([internal/heos/observations.go], [catalog.go])

    First [encoding/json] into the wire structures: fields are matched up to
    case, in the order of the document; an absent or null field keeps its zero
    value, except where the field's own decoder says otherwise.

    Then the reads: the observer and the catalogue read through the connection
    while other goroutines act on the same state.  A task threads that state;
    between two of its critical sections an environment may change it, move the
    connection's counters and the clock, and answer a read.  The log keeps the
    reads made. *)

From S2P Require Import Prelude GoStd Values Model Errors Json Protocol.

(** ** Structures *)

Definition payload_error : error := EWrap [ESentinel ErrProtocol].

(** The decoder of one field updates the structure. *)
Definition field_decoder (R : Type) : Type := (string * (json -> R -> Result R))%type.

Definition field_step {R} (decoders : list (field_decoder R)) (acc : Result R) (kv : string * json) : Result R :=
  let? r := acc in
  match find (fun d : field_decoder R => fold_name d.1 == fold_name kv.1) decoders with
  | Some d => d.2 kv.2 r
  | None => Ok r
  end.
Definition decode_struct {R} (decoders : list (field_decoder R)) (zero : R) (v : json) : Result R :=
  match v with
  | JObject fields => foldl (field_step decoders) (Ok zero) fields
  | JNull => Ok zero
  | _ => Err payload_error
  end.

Fixpoint decode_items {R} (decode : json -> Result R) (items : list json) : Result (list R) :=
  match items with
  | [] => Ok []
  | v :: rest => let? r := decode v in let? rs := decode_items decode rest in Ok (r :: rs)
  end.
Definition decode_list {R} (decode : json -> Result R) (v : json) : Result (list R) :=
  match v with JArray items => decode_items decode items | _ => Err payload_error end.

Definition id_field {R} (name : string) (set : ID -> R -> R) : field_decoder R :=
  (name, fun v r => let? x := ID_UnmarshalJSON v in Ok (set x r)).
Definition text_field {R} (name : string) (set : string -> R -> R) : field_decoder R :=
  (name, fun v r => let? x := Text_UnmarshalJSON v in Ok (set x r)).
Definition plain_field {R} (name : string) (set : string -> R -> R) : field_decoder R :=
  (name, fun v r => match v with JString s => Ok (set s r) | JNull => Ok r | _ => Err payload_error end).

(** [payload]: a missing or null payload is refused. *)
Definition payload {T} (decode : json -> Result T) (r : Response) : Result T :=
  match Resp_Payload r with
  | None | Some JNull => Err (ESentinel ErrProtocol)
  | Some v => match decode v with Ok x => Ok x | Err _ => Err payload_error end
  end.

(** ** The structures of the wire *)

#[export] Instance Player_eta : Eta Player := fun p =>
  {| Player_ID := Player_ID p; Player_Name := Player_Name p; Player_Model := Player_Model p;
     Player_Serial := Player_Serial p; Player_IP := Player_IP p; Player_GroupID := Player_GroupID p |}.
#[export] Instance GroupMember_eta : Eta GroupMember := fun m =>
  {| GroupMember_ID := GroupMember_ID m; GroupMember_Role := GroupMember_Role m |}.
#[export] Instance Group_eta : Eta Group := fun g =>
  {| Group_ID := Group_ID g; Group_Name := Group_Name g; Group_Players := Group_Players g |}.
#[export] Instance Media_eta : Eta Media := fun m =>
  {| Media_Source := Media_Source m; Media_ID := Media_ID m; Media_QueueID := Media_QueueID m;
     Media_Song := Media_Song m; Media_Album := Media_Album m; Media_Artist := Media_Artist m |}.
Record Source := { Source_ID : ID; Source_Name : string; Source_Type : string }.
#[export] Instance Source_eta : Eta Source := fun s =>
  {| Source_ID := Source_ID s; Source_Name := Source_Name s; Source_Type := Source_Type s |}.

Definition player_of_json : json -> Result Player := decode_struct
  [ id_field "pid" (fun x p => p <| Player_ID := x |>);
    text_field "name" (fun x p => p <| Player_Name := x |>);
    text_field "model" (fun x p => p <| Player_Model := x |>);
    text_field "serial" (fun x p => p <| Player_Serial := x |>);
    text_field "ip" (fun x p => p <| Player_IP := x |>);
    id_field "gid" (fun x p => p <| Player_GroupID := x |>) ] Player_zero.

Definition member_of_json : json -> Result GroupMember := decode_struct
  [ id_field "pid" (fun x m => m <| GroupMember_ID := x |>);
    plain_field "role" (fun x m => m <| GroupMember_Role := x |>) ] (Build_GroupMember "" "").

Definition group_of_json : json -> Result Group := decode_struct
  [ id_field "gid" (fun x g => g <| Group_ID := x |>);
    text_field "name" (fun x g => g <| Group_Name := x |>);
    ("players", fun v g => match v with
                           | JNull => Ok (g <| Group_Players := [] |>)
                           | _ => let? ms := decode_list member_of_json v in Ok (g <| Group_Players := ms |>)
                           end) ] (Build_Group "" "" []).

Definition Media_zero : Media := Build_Media "" "" "" "" "" "".
Definition media_of_json : json -> Result Media := decode_struct
  [ id_field "sid" (fun x m => m <| Media_Source := x |>);
    id_field "mid" (fun x m => m <| Media_ID := x |>);
    id_field "qid" (fun x m => m <| Media_QueueID := x |>);
    text_field "song" (fun x m => m <| Media_Song := x |>);
    text_field "album" (fun x m => m <| Media_Album := x |>);
    text_field "artist" (fun x m => m <| Media_Artist := x |>) ] Media_zero.

Definition source_of_json : json -> Result Source := decode_struct
  [ id_field "sid" (fun x s => s <| Source_ID := x |>);
    text_field "name" (fun x s => s <| Source_Name := x |>);
    plain_field "type" (fun x s => s <| Source_Type := x |>) ] (Build_Source "" "" "").

Definition item_of_json : json -> Result Item := decode_struct
  [ text_field "name" (fun x i => i <| Item_Name := x |>);
    id_field "sid" (fun x i => i <| Item_Source := x |>);
    id_field "cid" (fun x i => i <| Item_ContainerID := x |>);
    id_field "mid" (fun x i => i <| Item_MediaID := x |>);
    plain_field "container" (fun x i => i <| Item_Container := x |>);
    plain_field "playable" (fun x i => i <| Item_Playable := x |>);
    plain_field "type" (fun x i => i <| Item_Type := x |>) ] Item_zero.

(** ** Identity *)

Record Identity := { Identity_Key : string; Identity_Serial : string; Identity_Model : string }.

(** The loop keeps the last player with the serial number, and counts them. *)
Definition ResolveIdentity (players : list Player) (identity : Identity) : Result Player :=
  if (Identity_Key identity == "") || (Identity_Serial identity == "") then Err (ESentinel ErrIdentity)
  else
    let matching := filter (fun p => Player_Serial p = Identity_Serial identity) players in
    let found := default Player_zero (last matching) in
    if negb (len matching =? 1) || (Player_ID found == "")
       || ((Identity_Model identity != "") && (Player_Model found != Identity_Model identity))
    then Err (ESentinel ErrIdentity)
    else if len (filter (fun p => Player_ID p = Player_ID found) players) =? 1 then Ok found
    else Err (ESentinel ErrIdentity).

(** ** Pages *)

Record BrowsePage := {
  Page_Items : list Item;
  Page_Total : option Z;
  Page_Next : option Z;
  Page_Token : Token;
  Page_unpaged : option (list Item)
}.

(** [total] and [next] of a page of [count] entries read from [start]. *)
Definition pageBounds (r : Response) (start limit count : Z) : Result (option Z * option Z) :=
  if limit <? count then Err (ESentinel ErrProtocol)
  else
    let returned := Values_Get (Resp_Params r) "returned" in
    if (returned != "") && negb (atoi returned == Some count) then Err (ESentinel ErrProtocol)
    else
      let end_ := start + count in
      let hasCount := Values_Has (Resp_Params r) "count" in
      let? total :=
        if hasCount then
          match atoi (Values_Get (Resp_Params r) "count") with
          | None => Err (ESentinel ErrProtocol)
          | Some n =>
              if n <? 0 then Err (ESentinel ErrProtocol)
              else if 0 <? n then if n <? end_ then Err (ESentinel ErrProtocol) else Ok (Some n)
              else Ok None
          end
        else Ok None in
      if count =? 0 then
        if match total with Some n => start <? n | None => false end then Err (ESentinel ErrProtocol) else Ok (total, None)
      else if match total with Some n => n <=? end_ | None => false end then Ok (total, None)
      else if negb hasCount && (count <? limit) then Ok (None, None)
      else Ok (total, Some end_).

Definition Item_isSource (i : Item) : bool :=
  negb ((Item_Source i == "") || (Item_ContainerID i != ""))
  && (Item_Type i in? ["heos_server"; "heos_service"; "dlna_server"; "music_service"]).

(** A page of an unpaged source, cut locally. *)
Definition sourcePage (items : list Item) (total : option Z) (token : Token) (start limit : Z) : Result BrowsePage :=
  if len items <? start then Err (ESentinel ErrBounds)
  else
    let end_ := Z.min (start + limit) (len items) in
    Ok {| Page_Items := take (Z.to_nat (end_ - start)) (drop (Z.to_nat start) items); Page_Total := total;
          Page_Next := if end_ <? len items then Some end_ else None; Page_Token := token; Page_unpaged := Some items |}.

Definition catalogSame (a b : Token) : bool :=
  (Token_Generation a =? Token_Generation b) && (Token_Catalog a =? Token_Catalog b).

(** ** Tasks *)

From S2P Require Import Command Client.

(** One turn: the connection as it is now, what others did to the shared state,
    the device's answer to a read, and whether the task's context has ended. *)
Record reading (S : Type) := {
  R_client : Client;
  R_now : Time;
  R_others : S -> S;
  R_read : string -> Values -> Result Response;
  R_cause : option error
}.
Arguments R_client {S}. Arguments R_now {S}. Arguments R_others {S}. Arguments R_read {S}. Arguments R_cause {S}.

Record made := { Made_name : string; Made_reply : Result Response; Made_after : Client }.

Record task (S : Type) := { T_state : S; T_turn : nat; T_made : list made }.
Arguments T_state {S}. Arguments T_turn {S}. Arguments T_made {S}. Arguments Build_task {S}.

Definition Task (S A : Type) : Type := task S -> Result A * task S.
Definition ret {S A} (a : A) : Task S A := fun t => (Ok a, t).
Definition fail {S A} (e : error) : Task S A := fun t => (Err e, t).
Definition bind {S A B} (m : Task S A) (k : A -> Task S B) : Task S B := fun t =>
  match m t with (Ok a, t) => k a t | (Err e, t) => (Err e, t) end.
Definition lift {S A} (r : Result A) : Task S A := fun t => (r, t).
(** The result of a program, its error included. *)
Definition attempt {S A} (m : Task S A) : Task S (Result A) := fun t => let '(r, t) := m t in (Ok r, t).

Notation "'let!' x ':=' m 'in' k" := (bind m (fun x => k))
  (at level 10, x name, m at level 100, k at level 200) : go_scope.
Notation "m ';;;' k" := (bind m (fun _ : unit => k)) (at level 199, k at level 200, right associativity) : go_scope.

Definition when_error {S} (o : option error) : Task S unit := match o with Some e => fail e | None => ret tt end.
(** A loop that has not ended when the fuel is spent. *)
Definition out_of_fuel : error := EText "out of fuel".

Section reads.
Context {S : Type} (env : nat -> reading S).

Definition turn : Task S (reading S) := fun t =>
  let r := env (T_turn t) in
  (Ok r, Build_task (R_others r (T_state t)) (Datatypes.S (T_turn t)) (T_made t)).
(** Under the mutex: a read of the state, and an update. *)
Definition get : Task S S := fun t => (Ok (T_state t), t).
Definition put (f : S -> S) : Task S unit := fun t => (Ok tt, Build_task (f (T_state t)) (T_turn t) (T_made t)).

(** [Client.Read]; the connection after it is seen by the caller's checks. *)
Definition read (name : string) (args : Values) : Task S Response :=
  when_error (Read_refused name) ;;;
  let! r := turn in
  let reply := R_read r name args in
  (fun t => (Ok tt, Build_task (T_state t) (T_turn t) (T_made t ++ [{| Made_name := name; Made_reply := reply; Made_after := R_client r |}]))) ;;;
  lift reply.

(** [fmt.Sprintf("%d,%d", start, start+limit-1)] *)
Definition page_range (start limit : Z) : string := itoa start +:+ "," +:+ itoa (start + limit - 1).

Definition Sources : Task S (list Source) :=
  let! r := read "browse/get_music_sources" ∅ in
  lift (payload (decode_list source_of_json) r).

Definition Queue (pid : ID) (start limit : Z) : Task S QueuePage :=
  if (pid == "") || (start <? 0) || (MaxBrowseItems <? start) || (limit <? 1) || (100 <? limit) then fail (ESentinel ErrBounds)
  else
    let! r := read "player/get_queue" (Values_Set {["pid" := [pid]]} "range" (page_range start limit)) in
    let! items := lift (payload (decode_list media_of_json) r) in
    if existsb (fun m => Media_QueueID m == "") items then fail (ESentinel ErrProtocol)
    else
      let! bounds := lift (pageBounds r start limit (len items)) in
      ret {| Queue_Items := items; Queue_Total := bounds.1; Queue_Next := bounds.2; Queue_Token := Resp_Token r |}.

(** Only favourites and containers honour ranges. *)
Definition browse_args (sid cid : ID) (start limit : Z) : Values :=
  let args : Values := {["sid" := [sid]]} in
  let args := if (cid != "") || (sid == "1028") then Values_Set args "range" (page_range start limit) else args in
  if cid != "" then Values_Set args "cid" cid else args.

Definition read_page (sid cid : ID) (start limit : Z) : Task S BrowsePage :=
  if (sid == "") || (start <? 0) || (MaxBrowseItems <? start) || (limit <? 1) || (100 <? limit) then fail (ESentinel ErrBounds)
  else
    let! r := read "browse/browse" (browse_args sid cid start limit) in
    let! items := lift (payload (decode_list item_of_json) r) in
    if (cid != "") || (sid == "1028") then
      let! bounds := lift (pageBounds r start limit (len items)) in
      ret {| Page_Items := items; Page_Total := bounds.1; Page_Next := bounds.2; Page_Token := Resp_Token r; Page_unpaged := None |}
    else
      let! bounds := lift (pageBounds r 0 100 (len items)) in
      let total := bounds.1 in
      if match total with Some n => negb (n =? len items) | None => 50 <=? len items end
      then fail (ESentinel ErrIncompleteSource)
      else lift (sourcePage items total (Resp_Token r) start limit).

(** [BrowseAll]: at most a hundred pages, all of one catalogue. *)
Fixpoint browse_pages (pages : nat) (sid cid : ID) (start : Z) (token : option Token) (items : list Item) : Task S (list Item) :=
  match pages with
  | O => fail (ESentinel ErrBounds)
  | Datatypes.S pages =>
      let! page := read_page sid cid start 100 in
      if match token with Some token => negb (catalogSame token (Page_Token page)) | None => false end
      then fail (ESentinel ErrStaleReference)
      else if MaxBrowseItems <? len items + len (Page_Items page) then fail (ESentinel ErrBounds)
      else
        let items := items ++ Page_Items page in
        match Page_Next page with
        | None => ret items
        | Some next => browse_pages pages sid cid next (Some (default (Page_Token page) token)) items
        end
  end.
Definition BrowseAll (sid cid : ID) : Task S (list Item) := browse_pages (Z.to_nat MaxBrowsePages) sid cid 0 None [].
End reads.
