(* ===== verification/Catalog.v ===== *)
(** * The catalogue of browse references ([internal/heos/catalog.go])

    A client never sees an identifier of the device: it browses through opaque
    references that expire, belong to one source and one catalogue revision, and
    are bounded in number. *)

From S2P Require Import Prelude GoStd Values Model Errors Protocol Client Reads.

Record CatalogItem := {
  CI_Name : string;
  CI_Ref : string;
  CI_Container : bool;
  CI_Playable : bool;
  CI_Kind : string;
  CI_Browsable : bool
}.
Record CatalogPage := { CP_Items : list CatalogItem; CP_Total : option Z; CP_Next : string }.

Record reference := {
  Ref_source : ID;
  Ref_target : ID;
  Ref_item : Item;
  Ref_cursor : bool;
  Ref_start : Z;
  Ref_limit : Z;
  Ref_token : Token;
  Ref_expires : Time;
  Ref_snapshot : option (list Item);
  Ref_total : option Z
}.

(** The configuration of [NewCatalog] and the references under the mutex. *)
Record Catalog := { Cat_capacity : Z; Cat_ttl : Duration }.
Abbreviation references := (gmap string reference).

Definition NewCatalog (capacity : Z) (ttl : Duration) : Result Catalog :=
  if (capacity <? 1) || (4096 <? capacity) || (ttl <=? 0) || (5 * Minute <? ttl) then Err (ESentinel ErrBounds)
  else Ok {| Cat_capacity := capacity; Cat_ttl := ttl |}.

Definition Catalog_valid (ref : reference) (source : ID) (view : View) (now : Time) : bool :=
  (Ref_source ref == source) && View_Connected view && catalogSame (Ref_token ref) (View_Token view) && (now <? Ref_expires ref).

Definition Resolve (refs : references) (view : View) (now : Time) (source : ID) (ref : string) : Result Item :=
  match refs !! ref with
  | Some r => if Ref_cursor r || negb (Catalog_valid r source view now) then Err (ESentinel ErrStaleReference) else Ok (Ref_item r)
  | None => Err (ESentinel ErrStaleReference)
  end.

(** *** Browse *)

(** The parent reference names the source or the container to list. *)
Definition browse_target (refs : references) (view : View) (now : Time) (source : ID) (parent : string) : Result (ID * ID) :=
  if parent == "" then Ok (source, "")
  else match refs !! parent with
       | Some ref =>
           if Ref_cursor ref || negb (Catalog_valid ref source view now) then Err (ESentinel ErrStaleReference)
           else if Item_isSource (Ref_item ref) then Ok (Item_Source (Ref_item ref), "")
           else if (Item_Container (Ref_item ref) == "yes") && (Item_ContainerID (Ref_item ref) != "")
           then Ok (Ref_target ref, Item_ContainerID (Ref_item ref))
           else Err (ESentinel ErrStaleReference)
       | None => Err (ESentinel ErrStaleReference)
       end.

(** The cursor must belong to the same listing. *)
Definition browse_cursor (refs : references) (view : View) (now : Time) (source target cid : ID) (cursor : string) (limit : Z) :
    Result (option reference) :=
  if cursor == "" then Ok None
  else match refs !! cursor with
       | Some ref =>
           if negb (Ref_cursor ref) || (Ref_target ref != target) || (Item_ContainerID (Ref_item ref) != cid)
              || negb (Ref_limit ref =? limit) || negb (Catalog_valid ref source view now)
           then Err (ESentinel ErrStaleReference) else Ok (Some ref)
       | None => Err (ESentinel ErrStaleReference)
       end.

Definition live (view : View) (now : Time) (ref : reference) : bool :=
  View_Connected view && catalogSame (Ref_token ref) (View_Token view) && (now <? Ref_expires ref).
Definition evict (view : View) (now : Time) (refs : references) : references :=
  filter (fun kv : string * reference => live view now kv.2 = true) refs.

Definition snapshot_size (ref : reference) : Z := match Ref_snapshot ref with Some items => len items | None => 0 end.
(** [used]: the references and the entries their snapshots retain. *)
Definition used (refs : references) : Z :=
  Z.of_nat (size refs) + foldr Z.add 0 (map (fun kv => snapshot_size kv.2) (map_to_list refs)).
Definition needed (page : BrowsePage) : Z :=
  len (Page_Items page)
  + match Page_Next page with Some _ => 1 + match Page_unpaged page with Some items => len items | None => 0 end | None => 0 end.

Definition item_kind (i : Item) : string :=
  if Item_isSource i then "source" else if Item_Container i == "yes" then "container" else "media".
(** A missing source is the target; a track keeps its containing cid. *)
Definition complete_item (target cid : ID) (i : Item) : Item :=
  let kind := item_kind i in
  let i := if Item_Source i == "" then i <| Item_Source := target |> else i in
  if (kind == "media") && (Item_ContainerID i == "") then i <| Item_ContainerID := cid |> else i.
Definition catalog_item (i : Item) (ref : string) : CatalogItem :=
  let kind := item_kind i in
  {| CI_Name := Item_Name i; CI_Ref := ref; CI_Container := kind == "container"; CI_Playable := Item_Playable i == "yes";
     CI_Kind := kind; CI_Browsable := kind != "media" |}.

Section browse.
Context (cat : Catalog) (env : nat -> reading references).
(** [rand.Text], by the turn and the position it is called at. *)
Context (text : nat -> nat -> string).

Definition add_items (source target cid : ID) (token : Token) (expires : Time) (refs : references)
    (items : list (string * Item)) : references :=
  foldl (fun refs ri =>
           <[ri.1 := {| Ref_source := source; Ref_target := target; Ref_item := complete_item target cid ri.2; Ref_cursor := false;
                        Ref_start := 0; Ref_limit := 0; Ref_token := token; Ref_expires := expires; Ref_snapshot := None;
                        Ref_total := None |}]> refs) refs items.

(** Reading a cached page cannot refresh its evidence. *)
Definition page_expiry (now : Time) (cached : option reference) : Time :=
  let expires := now + Cat_ttl cat in
  match cached with
  | Some ref => if is_some (Ref_snapshot ref) && (Ref_expires ref <? expires) then Ref_expires ref else expires
  | None => expires
  end.

(** The last critical section: check again, evict, bound and publish. *)
Definition publish_page (turn_ : nat) (source : ID) (parent cursor : string) (target cid : ID) (limit : Z) (view : View)
    (cached : option reference) (page : BrowsePage) (current : View) (now : Time) (refs : references) :
    Result CatalogPage * references :=
  let still key := (key == "") || match refs !! key with Some ref => Catalog_valid ref source current now | None => false end in
  if negb (View_Connected current) || negb (catalogSame (Page_Token page) (View_Token current))
     || (((parent != "") || (cursor != "")) && negb (catalogSame (View_Token view) (Page_Token page)))
  then (Err (ESentinel ErrStaleReference), refs)
  else if negb (still parent && still cursor) then (Err (ESentinel ErrStaleReference), refs)
  else
    let refs := evict current now refs in
    if Cat_capacity cat <? used refs + needed page then (Err (ESentinel ErrCatalogFull), refs)
    else
      let expires := page_expiry now cached in
      let named := imap (fun i item => ("item_" +:+ text turn_ i, item)) (Page_Items page) in
      let refs := add_items source target cid (Page_Token page) expires refs named in
      let items := map (fun ri => catalog_item ri.2 ri.1) named in
      match Page_Next page with
      | None => (Ok {| CP_Items := items; CP_Total := Page_Total page; CP_Next := "" |}, refs)
      | Some next =>
          let key := "cursor_" +:+ text turn_ (length (Page_Items page)) in
          (Ok {| CP_Items := items; CP_Total := Page_Total page; CP_Next := key |},
           <[key := {| Ref_source := source; Ref_target := target; Ref_item := Item_zero <| Item_ContainerID := cid |>;
                       Ref_cursor := true; Ref_start := next; Ref_limit := limit; Ref_token := Page_Token page;
                       Ref_expires := expires; Ref_snapshot := Page_unpaged page; Ref_total := Page_Total page |}]> refs)
      end.

Definition Browse (source : ID) (parent cursor : string) (limit : Z) : Task references CatalogPage :=
  if (source == "") || (limit <? 1) || (100 <? limit) then fail (ESentinel ErrBounds)
  else
    let! r := turn env in
    let! refs := get in
    let view := C_View (R_client r) in
    let! where_ := lift (browse_target refs view (R_now r) source parent) in
    let! cached := lift (browse_cursor refs view (R_now r) source where_.1 where_.2 cursor limit) in
    let! c := turn env in
    when_error (R_cause c) ;;;
    let start := match cached with Some ref => Ref_start ref | None => 0 end in
    let! page := match cached with
                 | Some ref =>
                     match Ref_snapshot ref with
                     | Some items => lift (sourcePage items (Ref_total ref) (Ref_token ref) start limit)
                     | None => read_page env where_.1 where_.2 start limit
                     end
                 | None => read_page env where_.1 where_.2 start limit
                 end in
    let! r := turn env in
    fun t =>
      let '(out, refs) := publish_page (T_turn t) source parent cursor where_.1 where_.2 limit view cached page
                            (C_View (R_client r)) (R_now r) (T_state t) in
      (out, Build_task refs (T_turn t) (T_made t)).
End browse.
