(* ===== verification/CatalogProps.v ===== *)
(** * The catalogue keeps its promises

    A traversal is gapless and bounded; the references never outgrow their
    capacity; and what a page hands out resolves to what the page showed. *)

From S2P Require Import Prelude GoStd Values Model Errors Json Command Protocol Client Reads Catalog.

(** ** Traversal *)

(** The pages of a listing from [start]: each one begins where the items before
    it end, and only the last has no successor. *)
Inductive pages_from (start : Z) : list BrowsePage -> Prop :=
  | pages_last p : Page_Next p = None -> pages_from start [p]
  | pages_more p ps :
      0 < len (Page_Items p) -> Page_Next p = Some (start + len (Page_Items p)) ->
      pages_from (start + len (Page_Items p)) ps -> pages_from start (p :: ps).

Lemma pageBounds_next (r : Response) (start limit count : Z) (total : option Z) (next : Z) :
  0 <= count -> pageBounds r start limit count = Ok (total, Some next) -> next = start + count /\ 0 < count.
Proof.
  intros Hc. unfold pageBounds, Result_bind. repeat case_match; intros [=]; subst; try done;
    repeat match goal with H : (_ =? 0) = false |- _ => apply Z.eqb_neq in H end; lia.
Qed.

Lemma sourcePage_next (items : list Item) (total : option Z) (token : Token) (start limit next : Z) (page : BrowsePage) :
  0 <= start -> 0 < limit -> sourcePage items total token start limit = Ok page -> Page_Next page = Some next ->
  next = start + len (Page_Items page) /\ 0 < len (Page_Items page).
Proof.
  unfold sourcePage. intros Hs Hl. case_if; [done|]. intros [= <-]. cbn. case_if; [|done]. intros [= <-]. breflect.
  unfold len in *. rewrite length_take, length_drop. lia.
Qed.

Section traversal.
Context {S : Type} (env : nat -> reading S).

Lemma read_page_next (sid cid : ID) (start : Z) (t t' : task S) (page : BrowsePage) (next : Z) :
  read_page env sid cid start 100 t = (Ok page, t') -> Page_Next page = Some next ->
  next = start + len (Page_Items page) /\ 0 < len (Page_Items page).
Proof.
  unfold read_page. destruct (_ || _) eqn:Hbounds; [done|]. apply orb_false_iff in Hbounds as [Hbounds _].
  breflect. unfold bind at 1. destruct (read _ _ _ _) as [[r|e] t1]; [|done].
  unfold bind at 1, lift at 1. destruct (payload _ r) as [items|e]; [|done]. case_if.
  - unfold bind, lift. destruct (pageBounds _ _ _ _) as [[total nx]|e] eqn:Hb; [|done]. intros [= <- <-]. cbn. intros ->.
    eapply pageBounds_next; [|exact Hb]. apply len_nonneg.
  - unfold bind, lift. destruct (pageBounds _ _ _ _) as [[total nx]|e]; [|done]. case_if; [done|]. cbn. intros [= Hp <-].
    apply (sourcePage_next items total (Resp_Token r) start 100); [lia|lia|exact Hp].
Qed.

Definition one_catalogue (token : option Token) (pages : list BrowsePage) : Prop :=
  Forall (fun p => match token with Some token => catalogSame token (Page_Token p) = true | None => True end) pages.

Lemma catalogSame_refl (t : Token) : catalogSame t t = true.
Proof. unfold catalogSame. by rewrite !Z.eqb_refl. Qed.

Lemma browse_pages_spec (pages : nat) (sid cid : ID) (start : Z) (token : option Token) (items result : list Item) (t t' : task S) :
  browse_pages env pages sid cid start token items t = (Ok result, t') ->
  exists ps first, result = items ++ concat (map Page_Items ps) /\ pages_from start ps /\ (length ps <= pages)%nat
    /\ len result <= MaxBrowseItems /\ head ps = Some first /\ one_catalogue (Some (default (Page_Token first) token)) ps.
Proof.
  revert start token items t. induction pages as [|pages IH]; intros start token items t; [done|]. cbn [browse_pages].
  unfold bind at 1. destruct (read_page _ _ _ _ _ _) as [[page|e] t1] eqn:Hpage; [|done]. case_if; [done|]. case_if; [done|].
  assert (Hsame : catalogSame (default (Page_Token page) token) (Page_Token page) = true).
  { destruct token; cbn in *; [by apply negb_false_iff|apply catalogSame_refl]. }
  apply Z.ltb_ge in Heqb0. destruct (Page_Next page) as [next|] eqn:Hnext.
  - destruct (read_page_next _ _ _ _ _ _ _ Hpage Hnext) as [-> Hlen]. intros Hrest.
    destruct (IH _ _ _ _ Hrest) as (ps & first & -> & Hps & Hle & Hmax & Hfirst & Hone). cbn in Hone.
    exists (page :: ps), page. rewrite <- app_assoc in *. split_and!; [done|by constructor|cbn; lia|done|done|].
    constructor; done.
  - intros [= <- <-]. exists [page], page. split_and!; [cbn; by rewrite app_nil_r|by constructor|cbn; lia|by rewrite len_app|done|].
    by repeat constructor.
Qed.
End traversal.


(** Two pages of a container. *)
Definition two_pages (name : string) (args : Values) : Result Response :=
  let item n := JObject [("name", JString n)] in
  Ok (if Values_Get args "range" == "0,99"
      then Response_zero <| Resp_Params := Values_Set {["count" := ["3"]]} "returned" "2" |>
             <| Resp_Payload := Some (JArray [item "a"; item "b"]) |>
      else Response_zero <| Resp_Params := Values_Set {["count" := ["3"]]} "returned" "1" |>
             <| Resp_Payload := Some (JArray [item "c"]) |>).
Definition two_page_env (n : nat) : reading unit := {|
  R_client := Client_zero; R_now := 0; R_others := id; R_read := two_pages; R_cause := None |}.


(** ** Capacity *)

Definition weights (refs : references) : Z := foldr Z.add 0 (map (fun kv => snapshot_size kv.2) (map_to_list refs)).

Lemma foldr_add_perm (l l' : list Z) : l ≡ₚ l' -> foldr Z.add 0 l = foldr Z.add 0 l'.
Proof. induction 1; cbn; lia. Qed.

Lemma snapshot_nonneg (ref : reference) : 0 <= snapshot_size ref.
Proof. unfold snapshot_size. destruct (Ref_snapshot ref); [apply len_nonneg|done]. Qed.

Lemma weights_insert (refs : references) (key : string) (ref : reference) :
  refs !! key = None -> weights (<[key := ref]> refs) = snapshot_size ref + weights refs.
Proof.
  intros Hnone. unfold weights. by rewrite (foldr_add_perm _ _ (Permutation_map _ (map_to_list_insert _ _ _ Hnone))).
Qed.

Lemma weights_delete (refs : references) (key : string) (old : reference) :
  refs !! key = Some old -> weights refs = snapshot_size old + weights (delete key refs).
Proof.
  intros Hold. rewrite <- (weights_insert (delete key refs) key old) by apply lookup_delete_eq. by rewrite insert_delete_id.
Qed.

Lemma used_insert (refs : references) (key : string) (ref : reference) :
  used (<[key := ref]> refs) <= used refs + 1 + snapshot_size ref.
Proof.
  unfold used. fold (weights refs) (weights (<[key := ref]> refs)). destruct (refs !! key) as [old|] eqn:Hold.
  - rewrite map_size_insert_Some by done. pose proof (snapshot_nonneg old).
    rewrite <- (insert_delete_eq refs key ref), (weights_insert _ key) by apply lookup_delete_eq. rewrite (weights_delete refs key old) by done. lia.
  - rewrite map_size_insert_None, weights_insert by done. lia.
Qed.

Lemma used_items (source target cid : ID) (token : Token) (expires : Time) (items : list (string * Item)) (refs : references) :
  used (add_items source target cid token expires refs items) <= used refs + len items.
Proof.
  revert refs. induction items as [|[ref item] items IH]; intros refs; cbn [add_items foldl].
  - unfold len. cbn. lia.
  - etransitivity; [apply IH|]. etransitivity; [apply Z.add_le_mono_r, used_insert|].
    rewrite len_cons. cbn. lia.
Qed.

(** The catalogue is bounded: a listing that would exceed the capacity is
    refused, whatever references it evicts on the way, and one that succeeds
    leaves references and retained entries within the capacity. *)
Theorem catalogue_bounded (cat : Catalog) (text : nat -> nat -> string) (turn_ : nat) (source : ID) (parent cursor : string)
    (target cid : ID) (limit : Z) (view : View) (cached : option reference) (page : BrowsePage) (current : View) (now : Time)
    (refs : references) :
  match publish_page cat text turn_ source parent cursor target cid limit view cached page current now refs with
  | (Ok _, refs') => used refs' <= Cat_capacity cat
  | (Err _, refs') => refs' = refs \/ refs' = evict current now refs
  end.
Proof.
  unfold publish_page. case_if; [by left|]. case_if; [by left|]. case_if; [by right|]. apply Z.ltb_ge in Heqb1.
  match goal with |- context [add_items source target cid ?tok ?exp ?r0 ?named] =>
    pose proof (used_items source target cid tok exp named r0) as Hused end.
  unfold needed in Heqb1. unfold len in Hused, Heqb1. rewrite length_imap in Hused.
  destruct (Page_Next page) as [next|].
  - etransitivity; [apply used_insert|]. unfold snapshot_size. cbn [Ref_snapshot].
    destruct (Page_unpaged page); unfold len in *; lia.
  - lia.
Qed.

(** ** References *)

Definition item_reference (source target cid : ID) (token : Token) (expires : Time) (i : Item) : reference := {|
  Ref_source := source; Ref_target := target; Ref_item := complete_item target cid i; Ref_cursor := false;
  Ref_start := 0; Ref_limit := 0; Ref_token := token; Ref_expires := expires; Ref_snapshot := None; Ref_total := None |}.

Lemma add_items_cons (source target cid : ID) (token : Token) (expires : Time) (k : string) (i : Item)
    (items : list (string * Item)) (refs : references) :
  add_items source target cid token expires refs ((k, i) :: items)
  = add_items source target cid token expires (<[k := item_reference source target cid token expires i]> refs) items.
Proof. done. Qed.

Lemma add_items_other (source target cid : ID) (token : Token) (expires : Time) (items : list (string * Item)) (refs : references)
    (key : string) :
  key ∉ map fst items -> add_items source target cid token expires refs items !! key = refs !! key.
Proof.
  revert refs. induction items as [|[k i] items IH]; intros refs Hk; [done|]. cbn in Hk.
  apply not_elem_of_cons in Hk as [Hne Hk]. rewrite add_items_cons, IH by done. by rewrite lookup_insert_ne.
Qed.

Lemma add_items_lookup (source target cid : ID) (token : Token) (expires : Time) (items : list (string * Item)) (refs : references)
    (key : string) (i : Item) :
  NoDup (map fst items) -> (key, i) ∈ items ->
  add_items source target cid token expires refs items !! key = Some (item_reference source target cid token expires i).
Proof.
  revert refs. induction items as [|[k x] items IH]; intros refs Hnd Hin; [by apply elem_of_nil in Hin|].
  cbn in Hnd. apply NoDup_cons in Hnd as [Hk Hnd]. rewrite add_items_cons. apply elem_of_cons in Hin as [[= <- <-]|Hin].
  - rewrite add_items_other by done. by rewrite lookup_insert_eq.
  - by apply IH.
Qed.

Lemma string_app_inj (a b c : string) : a +:+ b = a +:+ c -> b = c.
Proof. induction a as [|x a IH]; [done|]. intros H. apply IH. by injection H. Qed.

Section published.
Context (cat : Catalog) (text : nat -> nat -> string) (turn_ : nat).
Context (Htext : forall i j, text turn_ i = text turn_ j -> i = j).
#[local] Set Default Proof Using "All".

Definition item_ref (i : nat) : string := "item_" +:+ text turn_ i.
Lemma item_ref_inj (i j : nat) : item_ref i = item_ref j -> i = j.
Proof. intros H. apply Htext. exact (string_app_inj "item_" _ _ H). Qed.

Lemma named_NoDup (items : list Item) : NoDup (map fst (imap (fun i (item : Item) => (item_ref i, item)) items)).
Proof.
  change (map ?f ?l) with (f <$> l). rewrite fmap_imap. apply NoDup_alt. intros i j x.
  rewrite !list_lookup_imap. destruct (items !! i), (items !! j); try done. cbn. intros Hi Hj. apply item_ref_inj.
  assert (H : Some (item_ref i) = Some (item_ref j)) by (by rewrite Hi, Hj). revert H. generalize (item_ref i), (item_ref j). by intros ? ? [= ->].
Qed.
End published.

(** What a page hands out resolves to what it showed.  When a listing is
    published and the random texts of its references are distinct, every item's
    reference resolves, for the same source, on the same connection and before
    it expires, to that item completed with the listing's source and container;
    for any other source, on another catalogue revision or once expired, it
    resolves to nothing. *)
Theorem published_items_resolve (cat : Catalog) (text : nat -> nat -> string) (turn_ : nat) (source : ID) (parent cursor : string)
    (target cid : ID) (limit : Z) (view : View) (cached : option reference) (page : BrowsePage) (current : View) (now : Time)
    (refs refs' : references) (out : CatalogPage) :
  (forall i j, text turn_ i = text turn_ j -> i = j) ->
  publish_page cat text turn_ source parent cursor target cid limit view cached page current now refs = (Ok out, refs') ->
  forall i item, Page_Items page !! i = Some item ->
    exists shown, CP_Items out !! i = Some shown /\ CI_Name shown = Item_Name item
    /\ forall other then_ later,
         Resolve refs' then_ later other (CI_Ref shown)
         = if (other == source) && View_Connected then_ && catalogSame (Page_Token page) (View_Token then_) && (later <? page_expiry cat now cached)
           then Ok (complete_item target cid item) else Err (ESentinel ErrStaleReference).
Proof.
  intros Htext. unfold publish_page. case_if; [done|]. case_if; [done|]. case_if; [done|]. cbv zeta.
  set (expires := page_expiry cat now cached). set (refs0 := evict current now refs).
  set (named := imap _ (Page_Items page)).
  assert (Hlook : forall i item, Page_Items page !! i = Some item ->
            add_items source target cid (Page_Token page) expires refs0 named !! item_ref text turn_ i
            = Some (item_reference source target cid (Page_Token page) expires item)).
  { intros i item Hi. apply add_items_lookup; [by apply named_NoDup|]. unfold named.
    apply list_elem_of_lookup. exists i. by rewrite list_lookup_imap, Hi. }
  assert (Hshown : forall i item, Page_Items page !! i = Some item ->
            map (fun ri => catalog_item ri.2 ri.1) named !! i = Some (catalog_item item (item_ref text turn_ i))).
  { intros i item Hi. change (map ?f ?l) with (f <$> l). rewrite list_lookup_fmap.
    unfold named. by rewrite list_lookup_imap, Hi. }
  assert (Hfinal : forall refs2, (forall i, i < length (Page_Items page) -> refs2 !! item_ref text turn_ i
              = add_items source target cid (Page_Token page) expires refs0 named !! item_ref text turn_ i)%nat ->
            forall i item, Page_Items page !! i = Some item -> exists shown,
              map (fun ri => catalog_item ri.2 ri.1) named !! i = Some shown /\ CI_Name shown = Item_Name item
              /\ forall other then_ later, Resolve refs2 then_ later other (CI_Ref shown)
                   = if (other == source) && View_Connected then_ && catalogSame (Page_Token page) (View_Token then_) && (later <? expires)
                     then Ok (complete_item target cid item) else Err (ESentinel ErrStaleReference)).
  { intros refs2 Hsame i item Hi. exists (catalog_item item (item_ref text turn_ i)). split_and!; [by apply Hshown|done|].
    intros other then_ later. unfold Resolve. cbn [CI_Ref catalog_item].
    rewrite Hsame by (by apply lookup_lt_Some in Hi). rewrite (Hlook i item Hi). unfold Catalog_valid, item_reference. cbn.
    rewrite (bool_decide_ext (source = other) (other = source)) by done. by destruct (_ && _ && _ && _). }
  destruct (Page_Next page) as [next|]; intros [= <- <-]; cbn [CP_Items].
  - apply Hfinal. intros i Hi. by rewrite lookup_insert_ne.
  - by apply Hfinal.
Qed.

Lemma published_items_resolve_witness :
  let text (_ i : nat) := match i with O => "p" | S O => "q" | _ => String.string_of_list_ascii (repeat (Ascii.ascii_of_nat 122) i) end in
  let view := Build_View Token_zero true in
  let page := {| Page_Items := [Item_zero <| Item_Name := "a" |>; Item_zero <| Item_Name := "b" |>]; Page_Total := None;
                 Page_Next := Some 2; Page_Token := Token_zero; Page_unpaged := None |} in
  exists out refs', publish_page {| Cat_capacity := 10; Cat_ttl := 5 |} text 0 "5" "" "" "5" "c" 2 view None page view 1 ∅ = (Ok out, refs')
  /\ exists shown, CP_Items out !! 1%nat = Some shown /\ CI_Name shown = "b"
  /\ Resolve refs' view 2 "5" (CI_Ref shown) = Ok (complete_item "5" "c" (Item_zero <| Item_Name := "b" |>)).
Proof.
  intros text view page.
  destruct (publish_page {| Cat_capacity := 10; Cat_ttl := 5 |} text 0 "5" "" "" "5" "c" 2 view None page view 1 ∅) as [[out|e] refs'] eqn:H;
    [|vm_compute in H; discriminate H].
  edestruct (published_items_resolve {| Cat_capacity := 10; Cat_ttl := 5 |} text 0 "5" "" "" "5" "c" 2 view None page view 1 ∅ refs' out) with (i := 1%nat) (item := Item_zero <| Item_Name := "b" |>)
    as (shown & Hs & Hn & Hr); [|exact H|reflexivity|].
  { intros i j. unfold text. destruct i as [|[|i]], j as [|[|j]]; cbn; try done; intros Hij.
    apply (f_equal String.length) in Hij. cbn in Hij. injection Hij as Hij. f_equal. f_equal.
    assert (Hlen : forall n, String.length (String.string_of_list_ascii (repeat (Ascii.ascii_of_nat 122) n)) = n)
      by (induction n as [|n IHn]; [reflexivity|cbn; by rewrite IHn]).
    by rewrite !Hlen in Hij. }
  exists out, refs'. split; [reflexivity|].
  exists shown. split; [exact Hs|]. split; [exact Hn|]. rewrite Hr. vm_compute. reflexivity.
Defined.
