(* ===== verification/Observer.v ===== *)
(** * The observer ([internal/heos/observations.go], [observation_events.go],
    [playback_observation.go], [scalar_observation.go], [observation_loop.go])

    A projection of one player: a complete read under one token, then contiguous
    events and targeted reads.  Its fields are under a mutex; a refresh holds
    the gate, so it alone reads the device, while events and confirmations of
    other goroutines change the projection between its critical sections. *)

From S2P Require Import Prelude GoStd Values Model Errors Events Command Protocol Client Reads.

Definition IdleObservationInterval : Duration := 5 * Minute.
Definition observationDebounce : Duration := 250 * Millisecond.
Definition observationHeartbeat : Duration := Minute.

(** ** The fields a write leaves unconfirmed: a bit set *)

Definition observedVolume : Z := 1.
Definition observedRepeat : Z := 2.
Definition observedShuffle : Z := 4.
Definition observedOther : Z := 8.
(** [a &^ b] *)
Definition clear_bits (a b : Z) : Z := Z.ldiff a b.

Definition changedWriteFields (s : Snapshot) (m : Mutation) : Z :=
  match Mut_Kind m with
  | MutationKindVolume | MutationKindMute => observedVolume
  | MutationKindMode =>
      Z.lor (if Snap_Repeat s != Mut_Repeat m then observedRepeat else 0)
            (if negb (Bool.eqb (Snap_Shuffle s) (Mut_Shuffle m)) then observedShuffle else 0)
  | _ => observedOther
  end.
Definition observedEventFields (kind : EventKind) : Z :=
  match kind with
  | EventVolume => observedVolume
  | EventRepeat => observedRepeat
  | EventShuffle => observedShuffle
  | _ => 0
  end.
Definition scalarFields (kind : MutationKind) : Z :=
  match kind with
  | MutationKindVolume | MutationKindMute => observedVolume
  | MutationKindMode => Z.lor observedRepeat observedShuffle
  | _ => 0
  end.

(** ** State *)

Record Observer := {
  Ob_last : Snapshot;
  Ob_invalid : bool;
  Ob_mediaPending : bool;
  Ob_writePending : Z;
  Ob_progressAfter : Z;
  Ob_wake : bool;      (* the one-element wake channel holds a token *)
  Ob_changes : nat     (* closes of the [changed] channel so far *)
}.
#[export] Instance Observer_eta : Eta Observer := fun o =>
  {| Ob_last := Ob_last o; Ob_invalid := Ob_invalid o; Ob_mediaPending := Ob_mediaPending o;
     Ob_writePending := Ob_writePending o; Ob_progressAfter := Ob_progressAfter o; Ob_wake := Ob_wake o;
     Ob_changes := Ob_changes o |}.

Definition NewObserver (identity : Identity) (ttl : Duration) : Result Observer :=
  if (Identity_Key identity == "") || (Identity_Serial identity == "") || (ttl <=? 0) || (10 * Minute <? ttl)
  then Err (ESentinel ErrIdentity)
  else Ok {| Ob_last := Snapshot_zero <| Snap_Key := Identity_Key identity |> <| Snap_State := PlayStateUnknown |> <| Snap_Stale := true |>;
             Ob_invalid := true; Ob_mediaPending := false; Ob_writePending := 0; Ob_progressAfter := 0; Ob_wake := false;
             Ob_changes := 0 |}.

Definition requestRefresh (o : Observer) : Observer := o <| Ob_wake := true |>.
Definition signalChanged (o : Observer) : Observer := o <| Ob_changes := S (Ob_changes o) |>.
Definition invalidate (o : Observer) : Observer := signalChanged (o <| Ob_invalid := true |>).

Section observer.
Context (identity : Identity) (ttl : Duration).

Definition last_id (o : Observer) : ID := Player_ID (Snap_Player (Ob_last o)).
Definition view_of (c : Client) (s : Snapshot) : View := PlayerView c (Player_ID (Snap_Player s)).
Definition age_of (now : Time) (s : Snapshot) : Duration := now - Snap_ObservedAt s.
Definition fresh_age (age limit : Duration) : bool := (0 <=? age) && (age <? limit).

(** [Snapshot]: what a caller sees now.  The clones share nothing. *)
Definition Snapshot_of (o : Observer) (c : Client) (now : Time) : Snapshot :=
  let s := Ob_last o in
  let view := view_of c s in
  let stale := Ob_invalid o || Ob_mediaPending o || negb (Ob_writePending o =? 0) || negb (View_Connected view)
               || (View_Token view != Snap_Token s) || negb (fresh_age (age_of now s) ttl) in
  s <| Snap_Connected := View_Connected view |>
    <| Snap_MediaUnavailable := negb (Token_Generation (View_Token view) =? Token_Generation (Snap_Token s)) |>
    <| Snap_Stale := stale |>
    <| Snap_Verified := negb stale && (Player_Serial (Snap_Player s) == Identity_Serial identity) |>.

(** ** Events *)

Definition coveredEvent (event snapshot : Token) : bool :=
  if negb (Token_Generation event =? Token_Generation snapshot) then Token_Generation event <? Token_Generation snapshot
  else if negb (Token_Revision event =? Token_Revision snapshot) then Token_Revision event <? Token_Revision snapshot
  else (Token_Catalog event =? Token_Catalog snapshot) && (Token_Player event <=? Token_Player snapshot)
       && (Token_Write event <=? Token_Write snapshot).

(** [None]: the event cannot be applied to the projection. *)
Definition applyObservedEvent (s : Snapshot) (d : EventData) : option Snapshot :=
  if negb (ED_Valid d) then None
  else match ED_Kind d with
  | EventState =>
      let s := s <| Snap_State := ED_State d |> in
      Some (if (ED_State d == PlayStateStop) || (ED_State d == PlayStateUnknown)
            then s <| Snap_MediaStale := true |> <| Snap_Playhead := None |> else s)
  | EventVolume => Some (s <| Snap_Volume := Some (ED_Volume d) |> <| Snap_Muted := Some (ED_Muted d) |>)
  | EventRepeat => Some (s <| Snap_Repeat := ED_Repeat d |>)
  | EventShuffle => Some (s <| Snap_Shuffle := ED_Shuffle d |>)
  | EventNowPlaying => Some (s <| Snap_MediaStale := true |>)
  | _ => None
  end.

Definition progressRecordable (o : Observer) (c : Client) (now : Time) (player : ID) (token : Token) : bool :=
  let s := Ob_last o in
  if Ob_invalid o || Ob_mediaPending o || Snap_MediaStale s || negb (is_some (Snap_Media s)) || (player == "")
     || (player != Player_ID (Snap_Player s)) then false
  else if negb (PlayState_Active (Snap_State s)) then false
  else
    let view := view_of c s in
    View_Connected view && sameGlobal (View_Token view) (Snap_Token s)
    && (Token_Player (View_Token view) =? Token_Player (Snap_Token s))
    && sameGlobal token (Snap_Token s) && (Token_Player token =? Token_Player (Snap_Token s))
    && fresh_age (age_of now s) ttl.

Definition recordProgress (o : Observer) (c : Client) (now : Time) (e : Event) : Observer :=
  let data := Event_Data e in
  if (Ev_progressSequence e <=? Ob_progressAfter o) || negb (progressRecordable o c now (ED_Player data) (Ev_Token e)) then o
  else match Snap_Media (Ob_last o) with
       | None => o
       | Some media =>
           o <| Ob_progressAfter := Ev_progressSequence e |>
             <| Ob_last := Ob_last o <| Snap_Playhead := Some {|
                  Playhead_PositionMS := ED_Position data; Playhead_DurationMS := ED_Duration data; Playhead_At := now;
                  Playhead_Source := Media_Source media; Playhead_Media := Media_ID media; Playhead_Queue := Media_QueueID media |} |> |>
       end.

(** The event continues the observed history of this player. *)
Definition continues (o : Observer) (c : Client) (now : Time) (e : Event) : bool :=
  let s := Ob_last o in
  let view := view_of c s in
  negb (Ev_Gap e) && negb (Ob_invalid o) && View_Connected view && sameGlobal (View_Token view) (Snap_Token s)
  && sameGlobal (Ev_Token e) (Snap_Token s) && (Token_Player (Ev_Token e) =? u64 (Token_Player (Snap_Token s) + 1))
  && (ED_Player (Event_Data e) == Player_ID (Snap_Player s)) && ED_Valid (Event_Data e) && fresh_age (age_of now s) ttl.

(** A newer write stamp is accepted if it is the next one and still the
    connection's; its fields become pending. *)
Definition continues_write (o : Observer) (c : Client) (e : Event) : bool * Observer :=
  let s := Ob_last o in
  if Token_Write (Ev_Token e) =? Token_Write (Snap_Token s) then (true, o)
  else
    let write := player_write c (Player_ID (Snap_Player s)) in
    if (Token_Write (Ev_Token e) =? u64 (Token_Write (Snap_Token s) + 1)) && (PW_revision write =? Token_Write (Ev_Token e))
    then (true, o <| Ob_writePending := changedWriteFields s (PW_mutation write) |>)
    else (false, o).

Definition unknown_history (o : Observer) : Observer := requestRefresh (invalidate o).

Definition Notify (o : Observer) (c : Client) (now : Time) (e : Event) : Observer :=
  let data := Event_Data e in
  if negb (Ev_Gap e) && (ED_Kind data == EventProgress) && ED_Valid data then
    if ED_HasProgress data then recordProgress o c now e else o
  else
    let s := Ob_last o in
    if negb (Ev_Gap e) && coveredEvent (Ev_Token e) (Snap_Token s) then o
    else if negb (Ev_Gap e) && sameGlobal (Ev_Token e) (Snap_Token s) && (ED_Player data != "")
            && (ED_Player data != Player_ID (Snap_Player s)) then o
    else
      let '(continuous, o) := if continues o c now e then continues_write o c e else (false, o) in
      match (if continuous then applyObservedEvent s data else None) with
      | Some s =>
          let o := o <| Ob_last := s <| Snap_Token := Ev_Token e |> <| Snap_EventUpdated := true |> |>
                     <| Ob_writePending := clear_bits (Ob_writePending o) (observedEventFields (ED_Kind data)) |> in
          let o := signalChanged o in
          if ED_Kind data == EventNowPlaying then requestRefresh (o <| Ob_mediaPending := true |>) else o
      | None => unknown_history o
      end.

(** ** Targeted reads *)

(** The sample that survives a media read: of the same media, while playing. *)
Definition playheadForMedia (o : Observer) (c : Client) (media : option Media) (state : PlayState) : option Playhead * Observer :=
  match Snap_Media (Ob_last o), media with
  | Some old, Some new =>
      if (Media_Source old != Media_Source new) || (Media_ID old != Media_ID new) || (Media_QueueID old != Media_QueueID new)
         || negb (PlayState_Active (Snap_State (Ob_last o))) || negb (PlayState_Active state)
      then (None, o <| Ob_progressAfter := C_progressSequence c |>)
      else match Snap_Playhead (Ob_last o) with
           | Some sample =>
               if (Playhead_Source sample != Media_Source new) || (Playhead_Media sample != Media_ID new)
                  || (Playhead_Queue sample != Media_QueueID new)
               then (None, o) else (Some sample, o)
           | None => (None, o)
           end
  | _, _ => (None, o <| Ob_progressAfter := C_progressSequence c |>)
  end.

Definition projectionBaselineValid (o : Observer) (now : Time) (s : Snapshot) : bool :=
  negb (Ob_invalid o) && fresh_age (age_of now s) ttl && (Player_ID (Snap_Player s) != "")
  && (Player_Serial (Snap_Player s) == Identity_Serial identity).
Definition scalarBaselineValid (o : Observer) (now : Time) (s : Snapshot) : bool :=
  negb (Ob_mediaPending o) && projectionBaselineValid o now s.

Context (env : nat -> reading Observer).

(** A critical section: others act first, then [f] sees the connection and the clock. *)
Definition critical {A} (f : Client -> Time -> Observer -> Result A * Observer) : Task Observer A :=
  let! r := turn env in
  fun t => let '(a, o) := f (R_client r) (R_now r) (T_state t) in (a, Build_task o (T_turn t) (T_made t)).
(** The gate, or the end of the context. *)
Definition acquire : Task Observer unit := let! r := turn env in when_error (R_cause r).
Definition context_cause : Task Observer unit := let! r := turn env in when_error (R_cause r).

Definition fail_invalid {A} (m : Task Observer A) : Task Observer A :=
  let! out := attempt m in
  match out with
  | Ok a => ret a
  | Err e => critical (fun _ _ o => (Ok tt, invalidate o)) ;;; fail e
  end.

Definition pid_args (s : Snapshot) : Values := {["pid" := [Player_ID (Snap_Player s)]]}.

Definition refreshMedia (s : Snapshot) : Task Observer unit :=
  fail_invalid (
    let! r := read env "player/get_now_playing_media" (pid_args s) in
    let! media := lift (payload media_of_json r) in
    critical (fun c now o =>
      let view := view_of c s in
      if Ob_invalid o || (Snap_Token (Ob_last o) != Snap_Token s) || (Resp_Token r != Snap_Token s)
         || (View_Token view != Snap_Token s) || negb (View_Connected view) then (Err (ESentinel ErrStale), o)
      else
        let s := s <| Snap_Media := Some media |> <| Snap_MediaStale := negb (PlayState_Active (Snap_State s)) |> in
        let '(playhead, o) := playheadForMedia o c (Snap_Media s) (Snap_State s) in
        (Ok tt, signalChanged (o <| Ob_last := s <| Snap_Playhead := playhead |> <| Snap_EventUpdated := true |> |>
                                 <| Ob_mediaPending := false |>)))).

(** A read of a complete observation: the connection's history has not moved. *)
Definition stable_read (s : Snapshot) (name : string) (args : Values) : Task Observer Response :=
  let! out := attempt (read env name args) in
  match out with
  | Err e => fail (EWrap [e])
  | Ok r =>
      let! v := turn env in
      if negb (sameGlobal (Resp_Token r) (Snap_Token s)) || (View_Token (view_of (R_client v) s) != Snap_Token s)
      then fail (EWrap [ESentinel ErrStale]) else ret r
  end.
(** A targeted read: the player's history has not moved either. *)
Definition exact_read (s : Snapshot) (name : string) : Task Observer Response :=
  let! r := read env name (pid_args s) in
  let! v := turn env in
  if (Resp_Token r != Snap_Token s) || (View_Token (view_of (R_client v) s) != Snap_Token s)
  then fail (ESentinel ErrStale) else ret r.

Definition param (r : Response) (key : string) : string := Values_Get (Resp_Params r) key.
Definition single (r : Response) (key : string) : bool := len (Values_values (Resp_Params r) key) =? 1.

Definition read_level (r : Response) : Result Z :=
  match atoi (param r "level") with
  | Some level => if (level <? 0) || (100 <? level) then Err (ESentinel ErrProtocol) else Ok level
  | None => Err (ESentinel ErrProtocol)
  end.
Definition read_switch (r : Response) (key : string) : Result bool :=
  if (param r key != "on") && (param r key != "off") then Err (ESentinel ErrProtocol) else Ok (param r key == "on").
Definition read_repeat (r : Response) : Result Repeat :=
  let repeat := Repeat_of_string (param r "repeat") in
  if Repeat_Known repeat then Ok repeat else Err (ESentinel ErrProtocol).
Definition read_state (r : Response) : Result PlayState :=
  let state := PlayState_of_string (param r "state") in
  if PlayState_Known state then Ok state else Err (ESentinel ErrProtocol).

(** Whether the player belongs to a group; an unnamed member is refused. *)
Definition read_groups (player : Player) (groups : list Group) : Result bool :=
  if existsb (fun g => (Group_ID g == "") || existsb (fun m => GroupMember_ID m == "") (Group_Players g)) groups
  then Err (ESentinel ErrProtocol)
  else Ok ((Player_GroupID player != "")
           || existsb (fun g => existsb (fun m => GroupMember_ID m == Player_ID player) (Group_Players g)) groups).

(** *** The complete read *)

Definition full_start : Task Observer Snapshot :=
  critical (fun _ _ o => (Ok tt, invalidate o)) ;;;
  let! r := read env "player/get_players" ∅ in
  let! players := lift (payload (decode_list player_of_json) r) in
  let! player := lift (ResolveIdentity players identity) in
  (* [observePlayer] changes the connection, which the environment answers for *)
  let! v := turn env in
  let view := PlayerView (R_client v) (Player_ID player) in
  if negb (View_Connected view) || negb (sameGlobal (View_Token view) (Resp_Token r)) then fail (ESentinel ErrStale)
  else ret (Snapshot_zero <| Snap_Key := Identity_Key identity |> <| Snap_Player := player |>
              <| Snap_Token := View_Token view |> <| Snap_State := PlayStateUnknown |>).

Definition full_reads (s : Snapshot) : Task Observer Snapshot :=
  let! r := stable_read s "group/get_groups" ∅ in
  let! groups := lift (payload (decode_list group_of_json) r) in
  let! grouped := lift (read_groups (Snap_Player s) groups) in
  let! r := stable_read s "player/get_play_state" (pid_args s) in
  let! state := lift (read_state r) in
  let! r := stable_read s "player/get_volume" (pid_args s) in
  let! volume := lift (read_level r) in
  let! r := stable_read s "player/get_mute" (pid_args s) in
  let! muted := lift (read_switch r "state") in
  let! r := stable_read s "player/get_play_mode" (pid_args s) in
  let! repeat := lift (read_repeat r) in
  let! shuffle := lift (read_switch r "shuffle") in
  let! r := stable_read s "player/get_now_playing_media" (pid_args s) in
  let! media := lift (payload media_of_json r) in
  let! queue := attempt (Queue env (Player_ID (Snap_Player s)) 0 100) in
  match queue with
  | Err e => fail (EWrap [e])
  | Ok queue =>
      ret (s <| Snap_Groups := groups |> <| Snap_Grouped := grouped |> <| Snap_State := state |> <| Snap_Volume := Some volume |>
             <| Snap_Muted := Some muted |> <| Snap_Repeat := repeat |> <| Snap_Shuffle := shuffle |> <| Snap_Media := Some media |>
             <| Snap_MediaStale := negb (PlayState_Active state) |> <| Snap_Queue := queue |>)
  end.

Definition full_publish (s : Snapshot) : Task Observer unit :=
  let! v := turn env in
  let s := s <| Snap_ObservedAt := R_now v |> <| Snap_Connected := true |> <| Snap_Verified := true |> in
  critical (fun c now o =>
    let view := view_of c s in
    if (Queue_Token (Snap_Queue s) != Snap_Token s) || (View_Token view != Snap_Token s) || negb (View_Connected view)
    then (Err (ESentinel ErrStale), o)
    else
      let '(playhead, o) := playheadForMedia o c (Snap_Media s) (Snap_State s) in
      (Ok tt, signalChanged (o <| Ob_progressAfter := C_progressSequence c |> <| Ob_last := s <| Snap_Playhead := playhead |> |>
                               <| Ob_invalid := false |> <| Ob_mediaPending := false |> <| Ob_writePending := 0 |>))).

Definition full_refresh : Task Observer unit :=
  let! s := full_start in
  let! s := full_reads s in
  full_publish s.

(** Whether an unforced refresh has nothing to do, may only wait, or may read
    the media alone. *)
Definition cached_fresh (o : Observer) (c : Client) (now : Time) : bool :=
  negb (Snap_Stale (Snapshot_of o c now)) && (age_of now (Ob_last o) <? IdleObservationInterval).
Definition lagging (o : Observer) (c : Client) (now : Time) : bool :=
  let s := Ob_last o in
  let view := view_of c s in
  negb (Ob_invalid o) && View_Connected view && sameGlobal (View_Token view) (Snap_Token s) && fresh_age (age_of now s) ttl
  && ((View_Token view != Snap_Token s) || negb (Ob_writePending o =? 0)).
Definition media_only (o : Observer) (c : Client) (now : Time) : bool :=
  let s := Ob_last o in
  let view := view_of c s in
  Ob_mediaPending o && negb (Ob_invalid o) && View_Connected view && (View_Token view == Snap_Token s)
  && fresh_age (age_of now s) (Z.min ttl IdleObservationInterval).

Definition refresh (force : bool) : Task Observer unit :=
  acquire ;;;
  if force then full_refresh
  else
    let! fresh := critical (fun c now o => (Ok (cached_fresh o c now), o)) in
    if fresh then ret tt
    else
      (* the fields are copied under the mutex and compared with a later view *)
      let! copy := critical (fun _ _ o => (Ok o, o)) in
      let! v := turn env in
      if lagging copy (R_client v) (R_now v) then fail (ESentinel ErrStale)
      else if media_only copy (R_client v) (R_now v) then refreshMedia (Ob_last copy)
      else full_refresh.

Definition Refresh : Task Observer unit :=
  let! out := attempt (refresh true) in
  match out with
  | Ok _ => ret tt
  | Err e => critical (fun _ _ o => (Ok tt, requestRefresh o)) ;;; fail e
  end.

(** Waits while the event consumer lags behind the connection; each round is a
    wake-up by [changed]. *)
Fixpoint waitForConsumer (fuel : nat) : Task Observer unit :=
  match fuel with
  | O => fail out_of_fuel
  | S fuel =>
      context_cause ;;;
      let! behind := critical (fun c now o => (Ok (lagging o c now), o)) in
      if behind then waitForConsumer fuel else ret tt
  end.

Definition RefreshPlayback (fuel : nat) : Task Observer unit :=
  waitForConsumer fuel ;;;
  let! due := critical (fun c now o => (Ok (IdleObservationInterval <=? age_of now (Ob_last o)), o)) in
  if due then refresh false
  else
    acquire ;;;
    let! s := critical (fun c now o =>
      let s := Ob_last o in
      let view := view_of c s in
      if projectionBaselineValid o now s && (Ob_writePending o =? 0) && View_Connected view && (View_Token view == Snap_Token s)
      then (Ok s, o) else (Err (ESentinel ErrStale), o)) in
    let! r := exact_read s "player/get_play_state" in
    let! state := lift (if single r "state" then read_state r else Err (ESentinel ErrProtocol)) in
    let! r := exact_read s "player/get_now_playing_media" in
    let! media := lift (payload media_of_json r) in
    context_cause ;;;
    critical (fun c now o =>
      let view := view_of c s in
      if negb (projectionBaselineValid o now (Ob_last o)) || negb (Ob_writePending o =? 0) || (Snap_Token (Ob_last o) != Snap_Token s)
         || negb (View_Connected view) || (View_Token view != Snap_Token s) then (Err (ESentinel ErrStale), o)
      else
        let s := s <| Snap_State := state |> <| Snap_Media := Some media |> <| Snap_EventUpdated := true |>
                   <| Snap_MediaStale := negb (PlayState_Active state) |> in
        let '(playhead, o) := playheadForMedia o c (Snap_Media s) state in
        (Ok tt, signalChanged (o <| Ob_last := s <| Snap_Playhead := playhead |> |> <| Ob_mediaPending := false |>))).

(** The baseline of a scalar read: at most one write of the same kind is ahead. *)
Definition scalar_baseline (fields : Z) (c : Client) (now : Time) (o : Observer) : bool :=
  let s := Ob_last o in
  let view := view_of c s in
  let write := player_write c (Player_ID (Snap_Player s)) in
  scalarBaselineValid o now s && View_Connected view && sameGlobal (View_Token view) (Snap_Token s)
  && (Token_Player (View_Token view) =? Token_Player (Snap_Token s))
  && (Token_Write (Snap_Token s) <=? Token_Write (View_Token view))
  && (Token_Write (View_Token view) - Token_Write (Snap_Token s) <=? 1)
  && (clear_bits (Ob_writePending o) fields =? 0)
  && ((Token_Write (View_Token view) =? Token_Write (Snap_Token s))
      || ((PW_revision write =? Token_Write (View_Token view)) && (scalarFields (Mut_Kind (PW_mutation write)) =? fields))).

Definition read_scalars (fields : Z) (s : Snapshot) : Task Observer Snapshot :=
  if fields =? observedVolume then
    let! r := exact_read s "player/get_volume" in
    let! level := lift (if single r "level" then read_level r else Err (ESentinel ErrProtocol)) in
    let! r := exact_read s "player/get_mute" in
    let! muted := lift (if single r "state" then read_switch r "state" else Err (ESentinel ErrProtocol)) in
    ret (s <| Snap_Volume := Some level |> <| Snap_Muted := Some muted |>)
  else
    let! r := exact_read s "player/get_play_mode" in
    if negb (single r "repeat") || negb (single r "shuffle") then fail (ESentinel ErrProtocol)
    else
      let! repeat := lift (read_repeat r) in
      let! shuffle := lift (read_switch r "shuffle") in
      ret (s <| Snap_Repeat := repeat |> <| Snap_Shuffle := shuffle |>).

Definition RefreshScalars (kind : MutationKind) : Task Observer unit :=
  let fields := scalarFields kind in
  if fields =? 0 then fail (ESentinel ErrBounds)
  else
    acquire ;;;
    let! s := critical (fun c now o =>
      if scalar_baseline fields c now o
      then (Ok (Snap_Token (Ob_last o), Ob_last o <| Snap_Token := View_Token (view_of c (Ob_last o)) |>), o)
      else (Err (ESentinel ErrStale), o)) in
    let before := s.1 in
    let! s := read_scalars fields s.2 in
    context_cause ;;;
    critical (fun c now o =>
      let view := view_of c s in
      if negb (scalarBaselineValid o now (Ob_last o)) || (Snap_Token (Ob_last o) != before) || negb (View_Connected view)
         || (View_Token view != Snap_Token s) then (Err (ESentinel ErrStale), o)
      else
        let '(playhead, o) := playheadForMedia o c (Snap_Media s) (Snap_State s) in
        (Ok tt, signalChanged (o <| Ob_last := s <| Snap_Playhead := playhead |> <| Snap_EventUpdated := true |> |>
                                 <| Ob_writePending := clear_bits (Ob_writePending o) fields |>))).

(** The coordinator's synchronous confirmation: scalar fields only. *)
Definition ConfirmScalars (s : Snapshot) (c : Client) (now : Time) (o : Observer) : Result unit * Observer :=
  let last := Ob_last o in
  let view := view_of c last in
  let write := player_write c (Player_ID (Snap_Player s)) in
  if negb (scalarBaselineValid o now last) || negb (View_Connected view) || (View_Token view != Snap_Token s)
     || negb (sameGlobal (Snap_Token last) (Snap_Token s)) || (Player_ID (Snap_Player s) != Player_ID (Snap_Player last))
     || (Player_Serial (Snap_Player s) != Player_Serial (Snap_Player last))
     || (Snap_ObservedAt s <? Snap_ObservedAt last) || negb (Z.land (Ob_writePending o) observedOther =? 0)
  then (Err (ESentinel ErrStale), o)
  else if negb (Token_Write (Snap_Token last) =? Token_Write (Snap_Token s))
          && (negb (PW_revision write =? Token_Write (Snap_Token s)) || (scalarFields (Mut_Kind (PW_mutation write)) =? 0))
  then (Err (ESentinel ErrStale), o)
  else match Snap_Volume s with
       | None => (Err (ESentinel ErrProtocol), o)
       | Some volume =>
           if (volume <? 0) || (100 <? volume) || negb (is_some (Snap_Muted s)) || negb (Repeat_Known (Snap_Repeat s))
           then (Err (ESentinel ErrProtocol), o)
           else
             (Ok tt, signalChanged (o <| Ob_last := last <| Snap_Volume := Some volume |> <| Snap_Muted := Snap_Muted s |>
                        <| Snap_Repeat := Snap_Repeat s |> <| Snap_Shuffle := Snap_Shuffle s |> <| Snap_Token := Snap_Token s |>
                        <| Snap_EventUpdated := true |> |> <| Ob_writePending := 0 |>))
       end.

(** An event that raced the gate is left to its consumer. *)
Fixpoint Reconcile (rounds fuel : nat) : Task Observer unit :=
  match rounds with
  | O => fail out_of_fuel
  | S rounds =>
      waitForConsumer fuel ;;;
      let! out := attempt (refresh false) in
      match out with
      | Ok _ => ret tt
      | Err e =>
          if errors_is ErrStale e then
            let! invalid := critical (fun _ _ o => (Ok (Ob_invalid o), o)) in
            if invalid then fail e else Reconcile rounds fuel
          else fail e
      end
  end.

(** ** The loop *)

(** The flags and timers of [Run]; a stopped timer is absent. *)
Record running := {
  Run_pending : bool;
  Run_recovering : bool;
  Run_retry : Duration;
  Run_refresh : Time;
  Run_heartbeat : option Time
}.
#[export] Instance running_eta : Eta running := fun r =>
  {| Run_pending := Run_pending r; Run_recovering := Run_recovering r; Run_retry := Run_retry r;
     Run_refresh := Run_refresh r; Run_heartbeat := Run_heartbeat r |}.

(** The case its [select] takes. *)
Inductive wakeup := WakeStop (e : error) | WakeClosed | WakeEvent | WakeRefresh | WakeHeartbeat.

Definition schedule (interval : Duration) (err : option error) (st : running) : Task Observer running :=
  critical (fun _ now o => (Ok (match err with
    | Some _ => {| Run_pending := false; Run_recovering := true; Run_retry := Z.min (2 * Run_retry st) (30 * Second);
                   Run_refresh := now + Run_retry st; Run_heartbeat := None |}
    | None => {| Run_pending := false; Run_recovering := false; Run_retry := Second;
                 Run_refresh := now + Z.max 0 (interval - age_of now (Ob_last o));
                 Run_heartbeat := Some (now + observationHeartbeat) |}
    end), o)).

Definition error_of {A} (r : Result A) : option error := match r with Ok _ => None | Err e => Some e end.

(** An event starts the debounce unless one is pending or the loop recovers. *)
Definition wake_up (st : running) : Task Observer running :=
  critical (fun c now o =>
    (Ok (if negb (Run_recovering st) && negb (Run_pending st) && Snap_Stale (Snapshot_of o c now)
         then st <| Run_pending := true |> <| Run_refresh := now + observationDebounce |> else st), o <| Ob_wake := false |>)).

Definition beat (interval : Duration) (st : running) : Task Observer running :=
  let! rest := critical (fun _ now o =>
    let age := age_of now (Ob_last o) in
    (Ok (if fresh_age age observationHeartbeat then Some (now + (observationHeartbeat - age)) else None), o)) in
  match rest with
  | Some at_ => ret (st <| Run_heartbeat := Some at_ |>)
  | None =>
      let! out := attempt (read env "system/heart_beat" ∅) in
      match out with
      | Err e => critical (fun _ _ o => (Ok tt, invalidate o)) ;;; schedule interval (Some e) st
      | Ok _ => critical (fun _ now o => (Ok (st <| Run_heartbeat := Some (now + observationHeartbeat) |>), o))
      end
  end.

Fixpoint run_rounds (rounds : list wakeup) (interval : Duration) (st : running) : Task Observer running :=
  match rounds with
  | [] => ret st
  | w :: rounds =>
      match w with
      | WakeStop e => fail e
      | WakeClosed => fail (ESentinel ErrClosed)
      | WakeEvent => let! st := wake_up st in run_rounds rounds interval st
      | WakeRefresh =>
          let! out := attempt (refresh (negb (Run_pending st))) in
          let! st := schedule interval (error_of out) st in
          run_rounds rounds interval st
      | WakeHeartbeat => let! st := beat interval st in run_rounds rounds interval st
      end
  end.

(** [Run], for the rounds of its loop that [select] takes. *)
Definition Run (rounds : list wakeup) (interval : Duration) : Task Observer running :=
  if (interval <? 100 * Millisecond) || (IdleObservationInterval <? interval) then fail (ESentinel ErrBounds)
  else
    let! out := attempt Refresh in
    let! st := schedule interval (error_of out)
                 {| Run_pending := false; Run_recovering := false; Run_retry := Second; Run_refresh := 0; Run_heartbeat := None |} in
    run_rounds rounds interval st.
End observer.
