(* ===== verification/ObserverProps.v ===== *)
(** * What a projection is worth

    Whatever events, confirmations and targeted reads interleave, a projection
    that is not invalid is complete and in range; a complete read belongs to one
    history of one connection. *)

From S2P Require Import Prelude GoStd Values Model Errors Events Json Command Protocol Client Reads Observer.

(** ** Complete projections *)

Definition in_range (s : Snapshot) : Prop :=
  (exists v, Snap_Volume s = Some v /\ 0 <= v <= 100) /\ Snap_Muted s <> None /\ PlayState_Known (Snap_State s) = true
  /\ Repeat_Known (Snap_Repeat s) = true /\ Snap_Media s <> None.
Definition well_observed (identity : Identity) (s : Snapshot) : Prop :=
  Player_ID (Snap_Player s) <> "" /\ Player_Serial (Snap_Player s) = Identity_Serial identity /\ in_range s.
Definition complete (identity : Identity) (o : Observer) : Prop := Ob_invalid o = false -> well_observed identity (Ob_last o).

(** What other goroutines do to the projection while a refresh runs. *)
Inductive other_step (identity : Identity) (ttl : Duration) (o : Observer) : Observer -> Prop :=
  | other_notify c now e : other_step identity ttl o (Notify ttl o c now e)
  | other_confirm s c now : other_step identity ttl o (ConfirmScalars identity ttl s c now o).2
  | other_invalidate : other_step identity ttl o (invalidate o)
  | other_request : other_step identity ttl o (requestRefresh o).

(** Only these scalar fields decide [in_range]. *)
Lemma in_range_same (s s' : Snapshot) :
  Snap_Volume s' = Snap_Volume s -> Snap_Muted s' = Snap_Muted s -> Snap_State s' = Snap_State s ->
  Snap_Repeat s' = Snap_Repeat s -> Snap_Media s' = Snap_Media s -> in_range s -> in_range s'.
Proof. unfold in_range. by intros -> -> -> -> ->. Qed.

Lemma valid_repeat_event (e : Event) :
  ED_Valid (Event_Data e) = true -> ED_Kind (Event_Data e) = EventRepeat -> Repeat_Known (ED_Repeat (Event_Data e)) = true.
Proof.
  unfold Event_Data. destruct (Ev_Gap e); [done|]. rewrite decode_kind. intros Hv Hk.
  unfold decodeEventData in *. rewrite Hk in *. cbn in *. breflect.
  destruct (choice_elem (Ev_Params e) "repeat" ["off"; "on_one"; "on_all"]) as [Hc|Hin]; [by rewrite Hc in *|].
  rewrite !elem_of_cons in Hin. destruct Hin as [->|[->|[->|[]%not_elem_of_nil]]]; done.
Qed.

Section observer.
Context (identity : Identity) (ttl : Duration).
#[local] Set Default Proof Using "Type".
Abbreviation complete := (complete identity).
Abbreviation well_observed := (well_observed identity).

Lemma apply_in_range (s s' : Snapshot) (e : Event) :
  applyObservedEvent s (Event_Data e) = Some s' -> in_range s -> in_range s' /\ Snap_Player s' = Snap_Player s.
Proof.
  unfold applyObservedEvent. destruct (ED_Valid (Event_Data e)) eqn:Hv; [|done]. cbn [negb].
  intros H (Hvol & Hmuted & Hstate & Hrepeat & Hmedia).
  destruct (ED_Kind (Event_Data e)) eqn:Hk; try done; revert H.
  - destruct (valid_state_event e Hv Hk) as [_ Hs]. case_if; intros [= <-]; unfold in_range; cbn; by split_and!.
  - intros [= <-]. unfold in_range. cbn. by split_and!.
  - destruct (valid_volume_event e Hv Hk) as (_ & _ & _ & Hr). intros [= <-]. unfold in_range. cbn. split_and!; try done. by eexists.
  - intros [= <-]. unfold in_range. cbn. split_and!; try done. by apply valid_repeat_event.
  - intros [= <-]. unfold in_range. cbn. by split_and!.
Qed.

Lemma progress_complete (o : Observer) (c : Client) (now : Time) (e : Event) :
  complete o -> complete (recordProgress ttl o c now e).
Proof.
  intros Ho. unfold recordProgress. case_if; [done|]. destruct (Snap_Media _); [|done]. intros Hi. by apply (Ho Hi).
Qed.

Lemma notify_complete (o : Observer) (c : Client) (now : Time) (e : Event) : complete o -> complete (Notify ttl o c now e).
Proof.
  intros Ho. unfold Notify. case_if; [case_if; [by apply progress_complete|done]|].
  case_if; [done|]. case_if; [done|].
  destruct (continues ttl o c now e) eqn:Hc; [|by intros ?].
  assert (Hvalid : Ob_invalid o = false) by (unfold continues in Hc; breflect; done).
  destruct (continues_write o c e) as [continuous o1] eqn:Hw.
  assert (Ho1 : Ob_last o1 = Ob_last o /\ Ob_invalid o1 = Ob_invalid o).
  { unfold continues_write in Hw. repeat case_match; injection Hw as _ <-; done. }
  destruct (if continuous then _ else None) as [s'|] eqn:Happly; [|by intros ?].
  destruct continuous; [|done]. destruct (Ho Hvalid) as (Hid & Hserial & Hrange).
  destruct (apply_in_range _ _ _ Happly Hrange) as [Hrange' Hplayer].
  assert (Hs : well_observed (s' <| Snap_Token := Ev_Token e |> <| Snap_EventUpdated := true |>)).
  { unfold well_observed. cbn. by rewrite Hplayer. }
  case_if; intros _; exact Hs.
Qed.

Lemma confirm_complete (s : Snapshot) (c : Client) (now : Time) (o : Observer) :
  complete o -> complete (ConfirmScalars identity ttl s c now o).2.
Proof.
  intros Ho. unfold ConfirmScalars. case_if; [done|]. case_if; [done|]. destruct (Snap_Volume s) as [v|] eqn:Hv; [|done].
  case_if; [done|]. intros Hi. destruct (Ho Hi) as (Hid & Hserial & Hvol & Hmuted & Hstate & Hrepeat & Hmedia).
  breflect. split; [done|]. split; [done|]. unfold in_range. cbn. split_and!; try done. exists v. split; [done|lia].
Qed.

Lemma other_complete (o o' : Observer) : other_step identity ttl o o' -> complete o -> complete o'.
Proof. intros [] Ho; [by apply notify_complete|by apply confirm_complete|done|done]. Qed.

(** ** Tasks that keep the projection complete *)

Context (env : nat -> reading Observer).
Context (Hothers : forall n o, rtc (other_step identity ttl) o (R_others (env n) o)).
#[local] Set Default Proof Using "Hothers".

Lemma others_complete (n : nat) (o : Observer) : complete o -> complete (R_others (env n) o).
Proof. intros Ho. induction (Hothers n o) as [|o o1 o2 Hstep _ IH]; [done|]. by apply IH, (other_complete o). Qed.

(** [m] keeps the projection complete and its result satisfies [Q]. *)
Definition keeps {A} (m : Task Observer A) (Q : A -> Prop) : Prop :=
  forall t, complete (T_state t) -> complete (T_state (m t).2) /\ forall a, (m t).1 = Ok a -> Q a.

Lemma settles_bind {A B} (m : Task Observer A) (k : A -> Task Observer B) (P : A -> Prop) (Q : B -> Prop) :
  keeps m P -> (forall a, P a -> keeps (k a) Q) -> keeps (bind m k) Q.
Proof using Type.
  intros Hm Hk t Ht. destruct (Hm t Ht) as [H1 H2]. unfold bind. destruct (m t) as [[a|e] t1]; cbn in *; [|by split].
  by apply (Hk a (H2 a eq_refl)).
Qed.
Lemma keeps_any {A} (m : Task Observer A) (Q : A -> Prop) : keeps m Q -> keeps m (fun _ => True).
Proof using Type. intros Hm t Ht. split; [apply (Hm t Ht)|done]. Qed.
Lemma settles_ret {A} (a : A) (Q : A -> Prop) : Q a -> keeps (ret a) Q.
Proof using Type. intros Ha t Ht. split; [done|]. by intros ? [= <-]. Qed.
Lemma settles_fail {A} (e : error) (Q : A -> Prop) : keeps (fail e) Q.
Proof using Type. intros t Ht. by split. Qed.
Lemma keeps_lift {A} (r : Result A) (Q : A -> Prop) : (forall a, r = Ok a -> Q a) -> keeps (lift r) Q.
Proof using Type. intros Hr t Ht. by split. Qed.
Lemma keeps_turn : keeps (turn env) (fun _ => True).
Proof. intros t Ht. split; [by apply others_complete|done]. Qed.
Lemma keeps_error (o : option error) : keeps (when_error o) (fun _ => True).
Proof using Type. intros t Ht. destruct o; by split. Qed.
Lemma settles_attempt {A} (m : Task Observer A) (Q : A -> Prop) :
  keeps m Q -> keeps (attempt m) (fun r => forall a, r = Ok a -> Q a).
Proof using Type.
  intros Hm t Ht. destruct (Hm t Ht) as [H1 H2]. unfold attempt. destruct (m t) as [r t1]. cbn in *. split; [done|].
  intros a [= <-]. done.
Qed.
Lemma keeps_critical {A} (f : Client -> Time -> Observer -> Result A * Observer) (Q : A -> Prop) :
  (forall c now o, complete o -> complete (f c now o).2 /\ forall a, (f c now o).1 = Ok a -> Q a) -> keeps (critical env f) Q.
Proof.
  intros Hf. eapply settles_bind; [apply keeps_turn|]. intros r _ t Ht. destruct (Hf (R_client r) (R_now r) _ Ht) as [H1 H2].
  destruct (f _ _ _) as [a o]. cbn in *. done.
Qed.
Lemma keeps_read (name : string) (args : Values) : keeps (read env name args) (fun _ => True).
Proof.
  unfold read. eapply settles_bind; [apply keeps_error|]. intros _ _. eapply settles_bind; [apply keeps_turn|]. intros r _.
  eapply (settles_bind _ _ (fun _ => True)); [by intros t Ht; split|]. intros _ _. by apply keeps_lift.
Qed.
Lemma keeps_context : keeps (context_cause env) (fun _ => True).
Proof. eapply settles_bind; [apply keeps_turn|]. intros r _. apply keeps_error. Qed.
Lemma keeps_acquire : keeps (acquire env) (fun _ => True).
Proof. eapply settles_bind; [apply keeps_turn|]. intros r _. apply keeps_error. Qed.

Lemma keeps_exact (s : Snapshot) (name : string) : keeps (exact_read env s name) (fun _ => True).
Proof.
  unfold exact_read. eapply settles_bind; [apply keeps_read|]. intros r _. eapply settles_bind; [apply keeps_turn|]. intros v _.
  case_if; [apply settles_fail|by apply settles_ret].
Qed.
Lemma keeps_stable (s : Snapshot) (name : string) (args : Values) : keeps (stable_read env s name args) (fun _ => True).
Proof.
  unfold stable_read. eapply settles_bind; [eapply keeps_any, settles_attempt, keeps_read|]. intros [r|e] _; [|apply settles_fail].
  eapply settles_bind; [apply keeps_turn|]. intros v _. case_if; [apply settles_fail|by apply settles_ret].
Qed.
Lemma keeps_queue (pid : ID) (start limit : Z) : keeps (Queue env pid start limit) (fun _ => True).
Proof.
  unfold Queue. case_if; [apply settles_fail|]. eapply settles_bind; [apply keeps_read|]. intros r _.
  eapply settles_bind; [by apply (keeps_lift _ (fun _ => True))|]. intros items _. case_if; [apply settles_fail|].
  eapply settles_bind; [by apply (keeps_lift _ (fun _ => True))|]. intros b _. by apply settles_ret.
Qed.
Lemma keeps_fail_invalid {A} (m : Task Observer A) : keeps m (fun _ => True) -> keeps (fail_invalid env m) (fun _ => True).
Proof.
  intros Hm. unfold fail_invalid. eapply settles_bind; [eapply keeps_any, settles_attempt, Hm|]. intros [a|e] _; [by apply settles_ret|].
  eapply settles_bind; [apply (keeps_critical _ (fun _ => True))|intros; apply settles_fail]. intros c now o Ho. by split; [intros ?|].
Qed.

(** What the replies are checked for. *)
Lemma read_level_range (r : Response) (v : Z) : read_level r = Ok v -> 0 <= v <= 100.
Proof using Type. unfold read_level. destruct (atoi _); [|done]. case_if; [done|]. intros [= <-]. breflect. lia. Qed.
Lemma read_repeat_known (r : Response) (x : Repeat) : read_repeat r = Ok x -> Repeat_Known x = true.
Proof using Type. unfold read_repeat. case_if; [|done]. by intros [= <-]. Qed.
Lemma read_state_known (r : Response) (x : PlayState) : read_state r = Ok x -> PlayState_Known x = true.
Proof using Type. unfold read_state. case_if; [|done]. by intros [= <-]. Qed.

Lemma playhead_last (o : Observer) (c : Client) (media : option Media) (state : PlayState) (playhead : option Playhead) (o' : Observer) :
  playheadForMedia o c media state = (playhead, o') -> Ob_last o' = Ob_last o /\ Ob_invalid o' = Ob_invalid o.
Proof using Type. unfold playheadForMedia. repeat case_match; intros [= _ <-]; done. Qed.

Lemma resolved_player (players : list Player) (p : Player) :
  ResolveIdentity players identity = Ok p -> Player_ID p <> "" /\ Player_Serial p = Identity_Serial identity.
Proof using Type.
  unfold ResolveIdentity. case_if; [done|]. destruct (negb _ || _ || _) eqn:Hfound; [done|]. case_if; [|done]. intros [= <-].
  apply orb_false_iff in Hfound as [[Hone Hid]%orb_false_iff _]. breflect. split; [done|].
  destruct (filter _ players) as [|x l] eqn:Hf using rev_ind; [by vm_compute in Hone|]. clear IHl.
  rewrite last_snoc. cbn. assert (Hin : x ∈ filter (fun p => Player_Serial p = Identity_Serial identity) players).
  { rewrite Hf. apply elem_of_app. right. by apply list_elem_of_singleton. }
  by apply list_elem_of_filter in Hin as [Hin _].
Qed.

(** ** The operations *)

Lemma keeps_media (s : Snapshot) : well_observed s -> keeps (refreshMedia env s) (fun _ => True).
Proof.
  intros Hs. unfold refreshMedia. apply keeps_fail_invalid. eapply settles_bind; [apply keeps_read|]. intros r _.
  eapply settles_bind; [by apply (keeps_lift _ (fun _ => True))|]. intros media _. apply keeps_critical. intros c now o Ho.
  case_if; [by split|]. destruct (playheadForMedia _ _ _ _) as [playhead o'] eqn:Hp. split; [|done]. intros _.
  destruct Hs as (Hid & Hserial & Hvol & Hmuted & Hstate & Hrepeat & Hmedia). split; [done|]. split; [done|].
  unfold in_range. cbn. by split_and!.
Qed.

Lemma keeps_full_start :
  keeps (full_start identity env) (fun s => Player_ID (Snap_Player s) <> "" /\ Player_Serial (Snap_Player s) = Identity_Serial identity).
Proof.
  unfold full_start. eapply settles_bind; [apply (keeps_critical _ (fun _ => True))|]. { intros c now o Ho. by split; [intros ?|]. }
  intros _ _. eapply settles_bind; [apply keeps_read|]. intros r _.
  eapply settles_bind; [by apply (keeps_lift _ (fun _ => True))|]. intros players _.
  eapply settles_bind; [by apply (keeps_lift _ (fun p => Player_ID p <> "" /\ Player_Serial p = Identity_Serial identity)), resolved_player|].
  intros player Hp. eapply settles_bind; [apply keeps_turn|]. intros v _. case_if; [apply settles_fail|by apply settles_ret].
Qed.

Lemma keeps_full_reads (s : Snapshot) :
  Player_ID (Snap_Player s) <> "" /\ Player_Serial (Snap_Player s) = Identity_Serial identity ->
  keeps (full_reads env s) well_observed.
Proof.
  intros Hs. unfold full_reads.
  eapply settles_bind; [apply keeps_stable|]. intros r1 _. eapply settles_bind; [by apply (keeps_lift _ (fun _ => True))|]. intros groups _.
  eapply settles_bind; [by apply (keeps_lift _ (fun _ => True))|]. intros grouped _.
  eapply settles_bind; [apply keeps_stable|]. intros r2 _. eapply settles_bind; [apply keeps_lift, read_state_known|]. intros state Hstate.
  eapply settles_bind; [apply keeps_stable|]. intros r3 _. eapply settles_bind; [apply keeps_lift, read_level_range|]. intros volume Hvol.
  eapply settles_bind; [apply keeps_stable|]. intros r4 _. eapply settles_bind; [by apply (keeps_lift _ (fun _ => True))|]. intros muted _.
  eapply settles_bind; [apply keeps_stable|]. intros r5 _. eapply settles_bind; [apply keeps_lift, read_repeat_known|]. intros repeat Hrepeat.
  eapply settles_bind; [by apply (keeps_lift _ (fun _ => True))|]. intros shuffle _.
  eapply settles_bind; [apply keeps_stable|]. intros r6 _. eapply settles_bind; [by apply (keeps_lift _ (fun _ => True))|]. intros media _.
  eapply settles_bind; [eapply keeps_any, settles_attempt, keeps_queue|]. intros [queue|e] _; [|apply settles_fail]. apply settles_ret.
  destruct Hs as [Hid Hserial]. split; [done|]. split; [done|]. unfold in_range. cbn. split_and!; try done. by exists volume.
Qed.

Lemma keeps_full_publish (s : Snapshot) : well_observed s -> keeps (full_publish env s) (fun _ => True).
Proof.
  intros Hs. unfold full_publish. eapply settles_bind; [apply keeps_turn|]. intros v _. apply keeps_critical. intros c now o Ho.
  case_if; [by split|]. destruct (playheadForMedia _ _ _ _) as [playhead o'] eqn:Hp. split; [|done]. intros _. exact Hs.
Qed.

Lemma keeps_full : keeps (full_refresh identity env) (fun _ => True).
Proof.
  unfold full_refresh. eapply settles_bind; [apply keeps_full_start|]. intros s Hs.
  eapply settles_bind; [by apply keeps_full_reads|]. intros s' Hs'. by apply keeps_full_publish.
Qed.

Lemma keeps_flag (f : Client -> Time -> Observer -> bool) :
  keeps (critical env (fun c now o => (Ok (f c now o), o))) (fun _ => True).
Proof. by apply keeps_critical. Qed.

Lemma lagging_valid (o : Observer) (c : Client) (now : Time) : media_only ttl o c now = true -> Ob_invalid o = false.
Proof using Type. unfold media_only. intros H. breflect. done. Qed.

Lemma keeps_refresh (force : bool) : keeps (refresh identity ttl env force) (fun _ => True).
Proof.
  unfold refresh. eapply settles_bind; [apply keeps_acquire|]. intros _ _. destruct force; [apply keeps_full|].
  eapply settles_bind; [apply keeps_flag|]. intros fresh _. destruct fresh; [by apply settles_ret|].
  eapply settles_bind; [apply (keeps_critical _ complete)|]. { intros c now o Ho. split; [done|]. by intros a [= <-]. }
  intros copy Hcopy. eapply settles_bind; [apply keeps_turn|]. intros v _. case_if; [apply settles_fail|].
  case_if; [|apply keeps_full]. apply keeps_media, Hcopy. by eapply lagging_valid.
Qed.

Lemma keeps_Refresh : keeps (Refresh identity ttl env) (fun _ => True).
Proof.
  unfold Refresh. eapply settles_bind; [eapply keeps_any, settles_attempt, keeps_refresh|]. intros [u|e] _; [by apply settles_ret|].
  eapply settles_bind; [by apply (keeps_critical _ (fun _ => True))|]. intros _ _. apply settles_fail.
Qed.

Lemma keeps_wait (fuel : nat) : keeps (waitForConsumer ttl env fuel) (fun _ => True).
Proof.
  induction fuel as [|fuel IH]; cbn [waitForConsumer]; [apply settles_fail|].
  eapply settles_bind; [apply keeps_context|]. intros _ _. eapply settles_bind; [apply keeps_flag|]. intros behind _.
  destruct behind; [exact IH|by apply settles_ret].
Qed.

Lemma baseline_valid (o : Observer) (now : Time) (s : Snapshot) :
  projectionBaselineValid identity ttl o now s = true -> Ob_invalid o = false.
Proof using Type. unfold projectionBaselineValid. intros H. breflect. done. Qed.

Lemma keeps_playback (fuel : nat) : keeps (RefreshPlayback identity ttl env fuel) (fun _ => True).
Proof.
  unfold RefreshPlayback. eapply settles_bind; [apply keeps_wait|]. intros _ _. eapply settles_bind; [apply keeps_flag|].
  intros due _. destruct due; [apply keeps_refresh|]. eapply settles_bind; [apply keeps_acquire|]. intros _ _.
  eapply settles_bind; [apply (keeps_critical _ well_observed)|].
  { intros c now o Ho. case_if; [|by split]. split; [done|]. intros a [= <-]. apply Ho. breflect. by eapply baseline_valid. }
  intros s Hs. eapply settles_bind; [apply keeps_exact|]. intros r _.
  eapply settles_bind; [apply (keeps_lift _ (fun st => PlayState_Known st = true))|].
  { intros a. case_if; [apply read_state_known|done]. }
  intros state Hstate. eapply settles_bind; [apply keeps_exact|]. intros r2 _.
  eapply settles_bind; [by apply (keeps_lift _ (fun _ => True))|]. intros media _.
  eapply settles_bind; [apply keeps_context|]. intros _ _. apply keeps_critical. intros c now o Ho.
  case_if; [by split|]. destruct (playheadForMedia _ _ _ _) as [playhead o'] eqn:Hp. split; [|done]. intros _.
  destruct Hs as (Hid & Hserial & Hvol & Hmuted & _ & Hrepeat & _). split; [done|]. split; [done|].
  unfold in_range. cbn. by split_and!.
Qed.

Lemma keeps_read_scalars (fields : Z) (s : Snapshot) : well_observed s -> keeps (read_scalars env fields s) well_observed.
Proof.
  intros (Hid & Hserial & Hvol & Hmuted & Hstate & Hrepeat & Hmedia). unfold read_scalars. case_if.
  - eapply settles_bind; [apply keeps_exact|]. intros r _.
    eapply settles_bind; [apply (keeps_lift _ (fun v => 0 <= v <= 100))|]. { intros a. case_if; [apply read_level_range|done]. }
    intros level Hlevel. eapply settles_bind; [apply keeps_exact|]. intros r2 _.
    eapply settles_bind; [by apply (keeps_lift _ (fun _ => True))|]. intros muted _. apply settles_ret.
    split; [done|]. split; [done|]. unfold in_range. cbn. split_and!; try done. by exists level.
  - eapply settles_bind; [apply keeps_exact|]. intros r _. case_if; [apply settles_fail|].
    eapply settles_bind; [apply keeps_lift, read_repeat_known|]. intros repeat Hr.
    eapply settles_bind; [by apply (keeps_lift _ (fun _ => True))|]. intros shuffle _. apply settles_ret.
    split; [done|]. split; [done|]. unfold in_range. cbn. by split_and!.
Qed.

Lemma keeps_scalars (kind : MutationKind) : keeps (RefreshScalars identity ttl env kind) (fun _ => True).
Proof.
  unfold RefreshScalars. case_if; [apply settles_fail|]. eapply settles_bind; [apply keeps_acquire|]. intros _ _.
  eapply settles_bind; [apply (keeps_critical _ (fun s => well_observed s.2))|].
  { intros c now o Ho. case_if; [|by split]. split; [done|]. intros a [= <-]. cbn. unfold scalar_baseline, scalarBaselineValid in Heqb0.
    apply Ho. breflect. by eapply baseline_valid. }
  intros [before s] Hs. eapply settles_bind; [by apply keeps_read_scalars|]. intros s' Hs'.
  eapply settles_bind; [apply keeps_context|]. intros _ _. apply keeps_critical. intros c now o Ho.
  case_if; [by split|]. destruct (playheadForMedia _ _ _ _) as [playhead o'] eqn:Hp. split; [|done]. intros _. exact Hs'.
Qed.

Lemma keeps_reconcile (rounds fuel : nat) : keeps (Reconcile identity ttl env rounds fuel) (fun _ => True).
Proof.
  induction rounds as [|rounds IH]; cbn [Reconcile]; [apply settles_fail|].
  eapply settles_bind; [apply keeps_wait|]. intros _ _.
  eapply settles_bind; [eapply keeps_any, settles_attempt, keeps_refresh|]. intros [u|e] _; [by apply settles_ret|].
  case_if; [|apply settles_fail]. eapply settles_bind; [apply keeps_flag|]. intros invalid _.
  destruct invalid; [apply settles_fail|exact IH].
Qed.

Lemma keeps_schedule (interval : Duration) (err : option error) (st : running) :
  keeps (schedule env interval err st) (fun _ => True).
Proof. by apply keeps_critical. Qed.

Lemma keeps_run (rounds : list wakeup) (interval : Duration) : keeps (Run identity ttl env rounds interval) (fun _ => True).
Proof.
  assert (Hrounds : forall st, keeps (run_rounds identity ttl env rounds interval st) (fun _ => True)).
  { induction rounds as [|w rounds IH]; intros st; cbn [run_rounds]; [by apply settles_ret|]. destruct w.
    - apply settles_fail.
    - apply settles_fail.
    - eapply settles_bind; [by apply (keeps_critical _ (fun _ => True))|]. intros st' _. apply IH.
    - eapply settles_bind; [eapply keeps_any, settles_attempt, keeps_refresh|]. intros out _.
      eapply settles_bind; [apply keeps_schedule|]. intros st' _. apply IH.
    - eapply (settles_bind _ _ (fun _ => True)); [|intros st' _; apply IH]. unfold beat.
      eapply settles_bind; [by apply (keeps_critical _ (fun _ => True))|]. intros [at_|] _; [by apply settles_ret|].
      eapply settles_bind; [eapply keeps_any, settles_attempt, keeps_read|]. intros [r|e] _; [by apply keeps_critical|].
      eapply settles_bind; [apply (keeps_critical _ (fun _ => True))|intros; apply keeps_schedule]. intros c now o Ho. by split; [intros ?|]. }
  unfold Run. case_if; [apply settles_fail|]. eapply settles_bind; [eapply keeps_any, settles_attempt, keeps_Refresh|]. intros out _.
  eapply settles_bind; [apply keeps_schedule|]. intros st _. apply Hrounds.
Qed.
End observer.

(** The operations of the observer's clients. *)
Inductive observation :=
  | ObRefresh | ObReconcile | ObPlayback | ObScalars (kind : MutationKind) | ObRun (rounds : list wakeup) (interval : Duration).
Definition observe_by (identity : Identity) (ttl : Duration) (env : nat -> reading Observer) (fuel : nat) (op : observation) :
    Task Observer unit :=
  match op with
  | ObRefresh => Refresh identity ttl env
  | ObReconcile => Reconcile identity ttl env fuel fuel
  | ObPlayback => RefreshPlayback identity ttl env fuel
  | ObScalars kind => RefreshScalars identity ttl env kind
  | ObRun rounds interval => (fun t => let '(r, t) := Run identity ttl env rounds interval t in (match r with Ok _ => Ok tt | Err e => Err e end, t))
  end.

(** The projection after a sequence of operations. *)
Definition observe_all (identity : Identity) (ttl : Duration) (env : nat -> reading Observer) (fuel : nat) (ops : list observation)
    (t : task Observer) : task Observer := foldl (fun t op => (observe_by identity ttl env fuel op t).2) t ops.

(** C15. A verified snapshot is complete and current.  Start from a new observer
    and run any sequence of operations, while other goroutines deliver any
    events and confirmations and the connection answers anything: whenever the
    projection reports itself verified, it carries the configured physical
    identity, a player id, a volume between 0 and 100, the mute flag, a known
    play state and repeat mode and the media; the connection is up, its token
    for the player is the projection's, no write is unconfirmed, and the
    observation is younger than its time to live. *)
Theorem verified_is_complete (identity : Identity) (ttl : Duration) (o : Observer) (env : nat -> reading Observer) (fuel : nat)
    (ops : list observation) (c : Client) (now : Time) :
  NewObserver identity ttl = Ok o ->
  (forall n o, rtc (other_step identity ttl) o (R_others (env n) o)) ->
  Snap_Verified (Snapshot_of identity ttl (T_state (observe_all identity ttl env fuel ops (Build_task o 0 []))) c now) = true ->
  well_observed identity (Snapshot_of identity ttl (T_state (observe_all identity ttl env fuel ops (Build_task o 0 []))) c now)
  /\ let o := T_state (observe_all identity ttl env fuel ops (Build_task o 0 [])) in
     let s := Ob_last o in
     View_Connected (view_of c s) = true /\ View_Token (view_of c s) = Snap_Token s
     /\ Ob_writePending o = 0 /\ 0 <= now - Snap_ObservedAt s < ttl.
Proof.
  intros Hnew Hothers.
  assert (Hcomplete : complete identity o) by (unfold NewObserver in Hnew; case_if; [done|]; by injection Hnew as <-).
  cbv zeta. revert Hcomplete. change o with (T_state (Build_task o 0 [])) at 1. generalize (Build_task o 0 []). clear Hnew o.
  induction ops as [|op ops IH]; intros t Ht; [|change (observe_all identity ttl env fuel (op :: ops) t)
    with (observe_all identity ttl env fuel ops (observe_by identity ttl env fuel op t).2)].
  - unfold observe_all, Snapshot_of. cbn. intros Hv. unfold fresh_age, age_of in Hv. breflect.
    destruct (Ht ltac:(assumption)) as (Hid & Hserial & Hrange). unfold well_observed. cbn. split_and!; try done; try lia.
  - apply IH. destruct op; cbn [observe_by].
    + by apply (keeps_Refresh identity ttl env Hothers).
    + by apply (keeps_reconcile identity ttl env Hothers).
    + by apply (keeps_playback identity ttl env Hothers).
    + by apply (keeps_scalars identity ttl env Hothers).
    + destruct (keeps_run identity ttl env Hothers rounds interval t Ht) as [H _].
      destruct (Run _ _ _ _ _ t) as [[r|e] t1]; exact H.
Qed.

(** A device that plays, on a connection that stays put. *)
Definition calm_device (name : string) (args : Values) : Result Response :=
  let reply params payload := Ok (Response_zero <| Resp_Result := "success" |> <| Resp_Params := params |> <| Resp_Payload := payload |>) in
  if name == "player/get_players" then reply ∅ (Some (JArray [JObject [("pid", JNumber "7"); ("serial", JString "S1")]]))
  else if name == "group/get_groups" then reply ∅ (Some (JArray []))
  else if name == "player/get_play_state" then reply {["state" := ["play"]]} None
  else if name == "player/get_volume" then reply {["level" := ["30"]]} None
  else if name == "player/get_mute" then reply {["state" := ["off"]]} None
  else if name == "player/get_play_mode" then reply (Values_Set {["repeat" := ["off"]]} "shuffle" "off") None
  else if name == "player/get_now_playing_media" then reply ∅ (Some (JObject [("mid", JString "m"); ("qid", JNumber "1")]))
  else reply ∅ (Some (JArray [])).
Definition still_client : Client := Client_zero <| C_View := Build_View Token_zero true |>.
Definition still_env (n : nat) : reading Observer := {|
  R_client := still_client; R_now := 10; R_others := id; R_read := calm_device; R_cause := None |}.
Definition still_identity : Identity := {| Identity_Key := "k"; Identity_Serial := "S1"; Identity_Model := "" |}.

Definition still_observer : Observer := default
  {| Ob_last := Snapshot_zero; Ob_invalid := true; Ob_mediaPending := false; Ob_writePending := 0; Ob_progressAfter := 0;
     Ob_wake := false; Ob_changes := 0 |} (match NewObserver still_identity Minute with Ok o => Some o | Err _ => None end).
Abbreviation still_final := (observe_all still_identity Minute still_env 3 [ObRefresh; ObPlayback] (Build_task still_observer 0 [])).

Lemma verified_is_complete_witness :
  Snap_Verified (Snapshot_of still_identity Minute (T_state still_final) still_client 20) = true
  /\ Snap_Volume (Snapshot_of still_identity Minute (T_state still_final) still_client 20) = Some 30
  /\ well_observed still_identity (Snapshot_of still_identity Minute (T_state still_final) still_client 20).
Proof.
  assert (Hv : Snap_Verified (Snapshot_of still_identity Minute (T_state still_final) still_client 20) = true) by (vm_compute; reflexivity).
  split; [exact Hv|]. split; [vm_compute; reflexivity|].
  assert (Hnew : NewObserver still_identity Minute = Ok still_observer) by (vm_compute; reflexivity).
  exact (proj1 (verified_is_complete still_identity Minute still_observer still_env 3 [ObRefresh; ObPlayback] still_client 20
    Hnew (fun n o => rtc_refl _ o) Hv)).
Defined.

(** ** One history *)

Section history.
Context (identity : Identity) (env : nat -> reading Observer).

(** The reads [m] makes, all of the history of [token]. *)
Definition of_history (token : Token) (m : made) (name : string) : Prop :=
  Made_name m = name /\ exists r, Made_reply m = Ok r /\ sameGlobal (Resp_Token r) token = true.
Definition history (token : Token) (t t' : task Observer) (names : list string) : Prop :=
  exists ms, T_made t' = T_made t ++ ms /\ Forall2 (of_history token) ms names.

Lemma history_nil (token : Token) (t : task Observer) : history token t t [].
Proof. exists []. by rewrite app_nil_r. Qed.
Lemma history_app (token : Token) (t1 t2 t3 : task Observer) (l k : list string) :
  history token t1 t2 l -> history token t2 t3 k -> history token t1 t3 (l ++ k).
Proof.
  intros (ms & H1 & F1) (ms' & H2 & F2). exists (ms ++ ms'). rewrite H2, H1, app_assoc. split; [done|by apply Forall2_app].
Qed.

Lemma read_made (name : string) (args : Values) (t t' : task Observer) (r : Response) :
  read env name args t = (Ok r, t') ->
  exists c, T_made t' = T_made t ++ [{| Made_name := name; Made_reply := Ok r; Made_after := c |}].
Proof.
  unfold read, Read_refused. case_if; [|done]. cbn. intros [= Hr <-]. cbn. rewrite Hr. by eexists.
Qed.

Lemma turn_made {A} (k : reading Observer -> Task Observer A) (t : task Observer) :
  exists t1, bind (turn env) k t = k (env (T_turn t)) t1 /\ T_made t1 = T_made t.
Proof. by eexists. Qed.

Lemma stable_history (s : Snapshot) (name : string) (args : Values) (t t' : task Observer) (r : Response) :
  stable_read env s name args t = (Ok r, t') -> history (Snap_Token s) t t' [name].
Proof.
  unfold stable_read, attempt, bind at 1. destruct (read env name args t) as [[x|e] t1] eqn:Hr; [|done].
  destruct (read_made _ _ _ _ _ Hr) as [c Hc]. cbn. case_if; [done|]. intros [= <- <-].
  apply orb_false_iff in Heqb as [Hg _]. apply negb_false_iff in Hg. eexists [_]. cbn. rewrite Hc. split; [done|].
  constructor; [|constructor]. split; [done|]. by exists x.
Qed.

Lemma bind_ok {A B} (m : Task Observer A) (k : A -> Task Observer B) (t t' : task Observer) (b : B) :
  bind m k t = (Ok b, t') -> exists a t1, m t = (Ok a, t1) /\ k a t1 = (Ok b, t').
Proof. unfold bind. destruct (m t) as [[a|e] t1]; [|done]. eauto. Qed.
Lemma lift_ok {A B} (r : Result A) (k : A -> Task Observer B) (t t' : task Observer) (b : B) :
  bind (lift r) k t = (Ok b, t') -> exists a, r = Ok a /\ k a t = (Ok b, t').
Proof. unfold bind, lift. destruct r as [a|e]; [|done]. eauto. Qed.

Lemma sameGlobal_sym (a b : Token) : sameGlobal a b = true -> sameGlobal b a = true.
Proof. rewrite !sameGlobal_spec. intuition. Qed.

Lemma critical_ok {A} (f : Client -> Time -> Observer -> Result A * Observer) (t t' : task Observer) (a : A) :
  critical env f t = (Ok a, t') ->
  T_made t' = T_made t /\ exists c now o, f c now o = (Ok a, T_state t').
Proof.
  unfold critical, bind. cbn. destruct (f _ _ _) as [x o] eqn:Hf. intros [= -> <-]. cbn. split; [done|]. eauto.
Qed.

Lemma queue_made (pid : ID) (start limit : Z) (t t' : task Observer) (q : QueuePage) :
  Queue env pid start limit t = (Ok q, t') ->
  exists r c, T_made t' = T_made t ++ [{| Made_name := "player/get_queue"; Made_reply := Ok r; Made_after := c |}]
  /\ Queue_Token q = Resp_Token r.
Proof.
  unfold Queue. case_if; [done|]. intros (r & t1 & Hr & H)%bind_ok. apply read_made in Hr as [c Hc].
  apply lift_ok in H as (items & _ & H). case_if; [done|]. apply lift_ok in H as (b & _ & H). injection H as <- <-. by exists r, c.
Qed.

Lemma start_history (t t' : task Observer) (s : Snapshot) :
  full_start identity env t = (Ok s, t') -> history (Snap_Token s) t t' ["player/get_players"].
Proof.
  unfold full_start. intros (u & t1 & Hc & H)%bind_ok. apply critical_ok in Hc as [Hmade _].
  apply bind_ok in H as (r & t2 & Hr & H). apply read_made in Hr as [c Hr].
  apply lift_ok in H as (players & _ & H). apply lift_ok in H as (player & _ & H).
  apply bind_ok in H as (v & t3 & Hv & H). injection Hv as <- <-. case_if; [done|]. injection H as <- <-.
  apply orb_false_iff in Heqb as [_ Hg]. apply negb_false_iff in Hg. cbn.
  eexists [_]. rewrite Hr, Hmade. split; [done|]. constructor; [|constructor]. split; [done|]. exists r. split; [done|].
  by apply sameGlobal_sym.
Qed.

Definition full_names : list string :=
  ["group/get_groups"; "player/get_play_state"; "player/get_volume"; "player/get_mute"; "player/get_play_mode";
   "player/get_now_playing_media"].

Lemma reads_history (s s' : Snapshot) (t t' : task Observer) :
  full_reads env s t = (Ok s', t') ->
  Snap_Token s' = Snap_Token s /\ Snap_Player s' = Snap_Player s
  /\ exists t1 r c, history (Snap_Token s) t t1 full_names
     /\ T_made t' = T_made t1 ++ [{| Made_name := "player/get_queue"; Made_reply := Ok r; Made_after := c |}]
     /\ Queue_Token (Snap_Queue s') = Resp_Token r.
Proof.
  unfold full_reads. intros H.
  apply bind_ok in H as (r1 & t1 & H1 & H). apply stable_history in H1. apply lift_ok in H as (? & _ & H). apply lift_ok in H as (? & _ & H).
  apply bind_ok in H as (r2 & t2 & H2 & H). apply stable_history in H2. apply lift_ok in H as (? & _ & H).
  apply bind_ok in H as (r3 & t3 & H3 & H). apply stable_history in H3. apply lift_ok in H as (? & _ & H).
  apply bind_ok in H as (r4 & t4 & H4 & H). apply stable_history in H4. apply lift_ok in H as (? & _ & H).
  apply bind_ok in H as (r5 & t5 & H5 & H). apply stable_history in H5. apply lift_ok in H as (? & _ & H). apply lift_ok in H as (? & _ & H).
  apply bind_ok in H as (r6 & t6 & H6 & H). apply stable_history in H6. apply lift_ok in H as (? & _ & H).
  apply bind_ok in H as (queue & t7 & Hq & H). unfold attempt in Hq.
  destruct (Queue _ _ _ _ _) as [[q|e] t8] eqn:Hqueue; injection Hq as <- <-; [|done]. injection H as <- <-.
  apply queue_made in Hqueue as (r & c & Hmade & Htoken). split; [done|]. split; [done|]. exists t6, r, c.
  split; [|by split].
  exact (history_app _ _ _ _ _ _ H1 (history_app _ _ _ _ _ _ H2 (history_app _ _ _ _ _ _ H3 (history_app _ _ _ _ _ _ H4 (history_app _ _ _ _ _ _ H5 H6))))).
Qed.
End history.

(** A complete observation is one moment.  When a full refresh succeeds, the
    projection it publishes was read by exactly these eight commands, in this
    order, and every reply carries the connection generation, revision and
    catalogue of the published token: nothing the projection combines straddles
    a reconnection or an invalidation. *)
Theorem full_read_one_history (identity : Identity) (env : nat -> reading Observer) (t t' : task Observer) :
  full_refresh identity env t = (Ok tt, t') ->
  Ob_invalid (T_state t') = false
  /\ history (Snap_Token (Ob_last (T_state t'))) t t'
       ["player/get_players"; "group/get_groups"; "player/get_play_state"; "player/get_volume"; "player/get_mute";
        "player/get_play_mode"; "player/get_now_playing_media"; "player/get_queue"].
Proof.
  unfold full_refresh. intros (s & t1 & Hstart & H)%bind_ok. apply bind_ok in H as (s' & t2 & Hreads & H).
  apply start_history in Hstart. apply reads_history in Hreads as (Htoken & Hplayer & t3 & r & c & Hhist & Hmade & Hq).
  unfold full_publish in H. apply bind_ok in H as (v & t4 & Hv & H). injection Hv as <- <-.
  apply critical_ok in H as (Hmade' & c' & now & o & H). cbn in Hmade'. revert H. case_if; [done|].
  destruct (playheadForMedia _ _ _ _) as [playhead o'] eqn:Hp. intros [= Ho]. rewrite <- Ho. cbn. split; [done|].
  rewrite Htoken. apply (history_app _ _ _ _ ["player/get_players"] (full_names ++ ["player/get_queue"]) Hstart).
  apply (history_app _ _ _ _ _ _ Hhist). exists [{| Made_name := "player/get_queue"; Made_reply := Ok r; Made_after := c |}].
  rewrite Hmade', Hmade. split; [done|]. constructor; [|constructor]. split; [done|]. exists r. split; [done|].
  cbn in Heqb. apply orb_false_iff in Heqb as [Heqb _]. apply orb_false_iff in Heqb as [Heqb _]. apply negb_false_iff, bool_decide_eq_true in Heqb.
  rewrite <- Hq, Heqb, Htoken. apply sameGlobal_spec. done.
Qed.

Lemma full_read_one_history_witness :
  exists t', full_refresh still_identity still_env (Build_task still_observer 0 []) = (Ok tt, t')
  /\ length (T_made t') = 8%nat /\ Ob_invalid (T_state t') = false.
Proof.
  destruct (full_refresh still_identity still_env (Build_task still_observer 0 [])) as [[u|e] t'] eqn:H; [|vm_compute in H; discriminate H].
  destruct u. exists t'. split; [reflexivity|]. destruct (full_read_one_history _ _ _ _ H) as [Hv (ms & Hms & Hnames)].
  split; [|exact Hv]. rewrite Hms. apply Forall2_length in Hnames. exact Hnames.
Defined.
