(* ===== verification/Execution.v ===== *)
(** * One execution under its mutex ([internal/control/coordinator.go],
    [events.go], [scalar_confirmation.go], [confirmation.go], [observation.go])

    The record [execution] and every operation that runs as one critical
    section of [execution.mu]: attribution of events, registration of the
    expected events of a command, confirmation of scalars, and the confirming
    read-backs of appends, removals, skips and initial queues.  The clock is
    read through an argument, the cancellation cause of the worker's context is
    the field [X_cancelled], and the device configuration is an argument. *)

From S2P Require Import Prelude GoStd Values Model Diagnostics Errors Events State QueuePolicy.
From S2P Require Import QueueStart QueueOps Evidence Command Json JournalModel.

(** ** Data *)

Record QueueLoadingProgress := {
  QL_Mode : string;
  QL_BufferedTracks : option Z;
  QL_RemainingTracks : option Z;
  QL_CurrentIndex : option Z;
  QL_PrunedTracks : option Z;
  QL_SessionExpiresAt : option Time;
  QL_TotalParts : Z;
  QL_ConfirmedParts : Z;
  QL_TotalTracks : Z;
  QL_ConfirmedTracks : Z
}.
#[export] Instance QueueLoadingProgress_eta : Eta QueueLoadingProgress := fun p =>
  {| QL_Mode := QL_Mode p; QL_BufferedTracks := QL_BufferedTracks p;
     QL_RemainingTracks := QL_RemainingTracks p; QL_CurrentIndex := QL_CurrentIndex p;
     QL_PrunedTracks := QL_PrunedTracks p; QL_SessionExpiresAt := QL_SessionExpiresAt p;
     QL_TotalParts := QL_TotalParts p; QL_ConfirmedParts := QL_ConfirmedParts p;
     QL_TotalTracks := QL_TotalTracks p; QL_ConfirmedTracks := QL_ConfirmedTracks p |}.
Definition QueueLoadingProgress_zero : QueueLoadingProgress :=
  Build_QueueLoadingProgress "" None None None None None 0 0 0 0.

Record PlaybackProgress := {
  PP_PlaybackStartedAt : Time;
  PP_StopAt : Time;
  PP_ElapsedSeconds : Z;
  PP_Level : Z
}.
#[export] Instance PlaybackProgress_eta : Eta PlaybackProgress := fun p =>
  {| PP_PlaybackStartedAt := PP_PlaybackStartedAt p; PP_StopAt := PP_StopAt p;
     PP_ElapsedSeconds := PP_ElapsedSeconds p; PP_Level := PP_Level p |}.

Record bufferedPlayback := {
  BP_policy : BufferedPlayback;
  BP_expires : Time;
  BP_pruned : Z
}.
#[export] Instance bufferedPlayback_eta : Eta bufferedPlayback := fun b =>
  {| BP_policy := BP_policy b; BP_expires := BP_expires b; BP_pruned := BP_pruned b |}.

Record scalarConfirmation := {
  SC_command : Mutation;
  SC_observed : Snapshot;
  SC_volumeSeen : bool;
  SC_repeatSeen : bool;
  SC_shuffleSeen : bool
}.
#[export] Instance scalarConfirmation_eta : Eta scalarConfirmation := fun p =>
  {| SC_command := SC_command p; SC_observed := SC_observed p; SC_volumeSeen := SC_volumeSeen p;
     SC_repeatSeen := SC_repeatSeen p; SC_shuffleSeen := SC_shuffleSeen p |}.

(** A child Skip of a buffered playback; [BS_id] is the identity of the Go
    pointer, and the metrics are left out. *)
Record bufferedSkip := {
  BS_id : Z;
  BS_direction : string;
  BS_op : Operation;
  BS_ready : bool
}.
#[export] Instance bufferedSkip_eta : Eta bufferedSkip := fun c =>
  {| BS_id := BS_id c; BS_direction := BS_direction c; BS_op := BS_op c; BS_ready := BS_ready c |}.

(** The parameters of one expected event: an exhaustive list of the key and
    value pairs of the Go map. *)
Definition expectation := list (string * string).

Record execution := {
  X_id : string;
  X_cancelled : option error;
  X_phase : string;
  X_expected : Snapshot;
  X_events : gmap string (list expectation);
  X_inflight : bool;
  X_uncertain : bool;
  X_unconfirmed : bool;
  X_rejectedWrite : bool;
  X_buffered : option bufferedPlayback;
  X_bufferedSkip : option bufferedSkip;
  X_bufferedSkipsClosed : bool;
  X_parts : list playbackPart;
  X_ordered : option (list ID);
  X_queueLoading : option QueueLoadingProgress;
  X_loading : bool;
  X_playbackStarted : Time;
  X_appendUntil : Time;
  X_members : gset ID;
  X_confirmed : Z;
  X_playbackDeadline : Time;
  X_progress : option PlaybackProgress;
  X_bounded : bool;
  X_queueOwned : bool;
  X_queueStart : queueStartPhase;
  X_scalar : option scalarConfirmation;
  X_queueWait : Time;
  X_automating : bool;
  X_keepExpectations : bool;
  X_wake : bool;
  X_eventRevision : Z;
  X_observedRevision : Z;
  X_lastReadAttempt : Time;
  X_lastRead : Time;
  X_observedAt : Time
}.
#[export] Instance execution_eta : Eta execution := fun r =>
  {| X_id := X_id r; X_cancelled := X_cancelled r; X_phase := X_phase r; X_expected := X_expected r;
     X_events := X_events r; X_inflight := X_inflight r; X_uncertain := X_uncertain r;
     X_unconfirmed := X_unconfirmed r; X_rejectedWrite := X_rejectedWrite r;
     X_buffered := X_buffered r; X_bufferedSkip := X_bufferedSkip r;
     X_bufferedSkipsClosed := X_bufferedSkipsClosed r; X_parts := X_parts r; X_ordered := X_ordered r;
     X_queueLoading := X_queueLoading r; X_loading := X_loading r;
     X_playbackStarted := X_playbackStarted r; X_appendUntil := X_appendUntil r;
     X_members := X_members r; X_confirmed := X_confirmed r; X_playbackDeadline := X_playbackDeadline r;
     X_progress := X_progress r; X_bounded := X_bounded r; X_queueOwned := X_queueOwned r;
     X_queueStart := X_queueStart r; X_scalar := X_scalar r; X_queueWait := X_queueWait r;
     X_automating := X_automating r; X_keepExpectations := X_keepExpectations r; X_wake := X_wake r;
     X_eventRevision := X_eventRevision r; X_observedRevision := X_observedRevision r;
     X_lastReadAttempt := X_lastReadAttempt r; X_lastRead := X_lastRead r;
     X_observedAt := X_observedAt r |}.

Definition no_events : gmap string (list expectation) := ∅.

(** [&execution{}] *)
Definition execution_zero : execution := {|
  X_id := ""; X_cancelled := None; X_phase := ""; X_expected := Snapshot_zero; X_events := no_events;
  X_inflight := false; X_uncertain := false; X_unconfirmed := false; X_rejectedWrite := false; X_buffered := None;
  X_bufferedSkip := None; X_bufferedSkipsClosed := false; X_parts := []; X_ordered := None; X_queueLoading := None;
  X_loading := false; X_playbackStarted := 0; X_appendUntil := 0; X_members := ∅; X_confirmed := 0;
  X_playbackDeadline := 0; X_progress := None; X_bounded := false; X_queueOwned := false;
  X_queueStart := queueNotStarting; X_scalar := None; X_queueWait := 0; X_automating := false;
  X_keepExpectations := false; X_wake := false; X_eventRevision := 0; X_observedRevision := 0;
  X_lastReadAttempt := 0; X_lastRead := 0; X_observedAt := 0 |}.

(** ** Signals *)

(** [wake] is a channel of capacity one. *)
Definition signal (r : execution) : execution := r <| X_wake := true |>.
Definition notifyObservation (r : execution) : execution :=
  signal (r <| X_eventRevision := u64 (X_eventRevision r + 1) |>).
Definition pendingEvents (r : execution) : bool := X_eventRevision r != X_observedRevision r.
Definition observationPending (r : execution) : bool := pendingEvents r.

(** [context.CancelCauseFunc]: the first cause stays. *)
Definition cancel_cause (cause : error) (r : execution) : execution :=
  match X_cancelled r with
  | Some _ => r
  | None => r <| X_cancelled := Some cause |>
  end.

(** ** Scalar confirmation *)

Definition scalarMutation (m : Mutation) : bool :=
  (Mut_Kind m == MutationKindVolume) || (Mut_Kind m == MutationKindMute) || (Mut_Kind m == MutationKindMode).

Definition newScalarConfirmation (m : Mutation) (before : Snapshot) : scalarConfirmation :=
  let p := {| SC_command := m; SC_observed := before; SC_volumeSeen := false;
              SC_repeatSeen := false; SC_shuffleSeen := false |} in
  match Mut_Kind m with
  | MutationKindVolume =>
      p <| SC_volumeSeen := (Snap_Volume before == Some (Mut_Level m)) && (Snap_Muted before == Some false) |>
  | MutationKindMute => p <| SC_volumeSeen := Snap_Muted before == Some (Mut_Muted m) |>
  | MutationKindMode =>
      p <| SC_repeatSeen := Snap_Repeat before == Mut_Repeat m |>
        <| SC_shuffleSeen := Snap_Shuffle before == Mut_Shuffle m |>
  | _ => p
  end.

Definition scalar_ready (p : scalarConfirmation) : bool :=
  if Mut_Kind (SC_command p) == MutationKindMode then SC_repeatSeen p && SC_shuffleSeen p
  else SC_volumeSeen p.

Definition scalar_result (p : scalarConfirmation) (s : Snapshot) : Snapshot :=
  (if Mut_Kind (SC_command p) == MutationKindMode
   then s <| Snap_Repeat := Snap_Repeat (SC_observed p) |> <| Snap_Shuffle := Snap_Shuffle (SC_observed p) |>
   else s <| Snap_Volume := Snap_Volume (SC_observed p) |> <| Snap_Muted := Snap_Muted (SC_observed p) |>)
  <| Snap_EventUpdated := true |>.

Definition confirmedVolumeEvent (e : Event) (expected : Snapshot) : bool :=
  let data := Event_Data e in
  match Snap_Volume expected, Snap_Muted expected with
  | Some v, Some m =>
      if (ED_Kind data != EventVolume) || negb (ED_Valid data) then false
      else (ED_Volume data == v) && (ED_Muted data == m)
  | _, _ => false
  end.

(** The scalars a pending volume or mute command asks for. *)
Definition wanted_scalars (p : scalarConfirmation) (expected : Snapshot) : Snapshot :=
  let m := SC_command p in
  if Mut_Kind m == MutationKindVolume then expected <| Snap_Volume := Some (Mut_Level m) |>
  else expected <| Snap_Muted := Some (Mut_Muted m) |>.

(** The scalars that an event satisfies: the wanted ones, or for a volume that
    was muted the wanted level with mute cleared. *)
Definition matching_scalars (p : scalarConfirmation) (expected : Snapshot) (e : Event) : option Snapshot :=
  let want := wanted_scalars p expected in
  if confirmedVolumeEvent e want then Some want
  else if (Mut_Kind (SC_command p) == MutationKindVolume) && (Snap_Muted expected == Some true) then
    let cleared := want <| Snap_Muted := Some false |> in
    if confirmedVolumeEvent e cleared then Some cleared else None
  else None.

Definition scalar_step (r : execution) (p : scalarConfirmation) : bool * execution :=
  let r := r <| X_scalar := Some p |> in
  (true, if scalar_ready p then signal r else r).

(** The cases for a pending command of the event's own kind. *)
Definition acceptVolume (r : execution) (p : scalarConfirmation) (e : Event) : bool * execution :=
  match matching_scalars p (X_expected r) e with
  | None => (negb (SC_volumeSeen p) && confirmedVolumeEvent e (X_expected r), r)
  | Some want =>
      if SC_volumeSeen p && negb (confirmedVolumeEvent e (SC_observed p)) then (false, r)
      else scalar_step r
             (p <| SC_observed := SC_observed p <| Snap_Volume := Snap_Volume want |>
                                                <| Snap_Muted := Snap_Muted want |> |>
                <| SC_volumeSeen := true |>)
  end.

Definition acceptRepeat (r : execution) (p : scalarConfirmation) (data : EventData) : bool * execution :=
  if ED_Repeat data != Mut_Repeat (SC_command p)
  then (negb (SC_repeatSeen p) && (ED_Repeat data == Snap_Repeat (X_expected r)), r)
  else scalar_step r (p <| SC_observed := SC_observed p <| Snap_Repeat := ED_Repeat data |> |>
                        <| SC_repeatSeen := true |>).

Definition acceptShuffle (r : execution) (p : scalarConfirmation) (data : EventData) : bool * execution :=
  if ED_Shuffle data != Mut_Shuffle (SC_command p)
  then (negb (SC_shuffleSeen p) && (ED_Shuffle data == Snap_Shuffle (X_expected r)), r)
  else scalar_step r (p <| SC_observed := SC_observed p <| Snap_Shuffle := ED_Shuffle data |> |>
                        <| SC_shuffleSeen := true |>).

Definition mode_command (p : option scalarConfirmation) : option scalarConfirmation :=
  match p with
  | Some p => if Mut_Kind (SC_command p) == MutationKindMode then Some p else None
  | None => None
  end.

Definition volume_command (p : option scalarConfirmation) : option scalarConfirmation :=
  match p with
  | Some p => if Mut_Kind (SC_command p) == MutationKindMode then None else Some p
  | None => None
  end.

Definition acceptScalarEvent (r : execution) (e : Event) : bool * execution :=
  let data := Event_Data e in
  if negb (ED_Valid data) then (false, r)
  else match ED_Kind data with
       | EventVolume => match volume_command (X_scalar r) with
                        | None => (confirmedVolumeEvent e (X_expected r), r)
                        | Some p => acceptVolume r p e
                        end
       | EventRepeat => match mode_command (X_scalar r) with
                        | None => (ED_Repeat data == Snap_Repeat (X_expected r), r)
                        | Some p => acceptRepeat r p data
                        end
       | EventShuffle => match mode_command (X_scalar r) with
                         | None => (ED_Shuffle data == Snap_Shuffle (X_expected r), r)
                         | Some p => acceptShuffle r p data
                         end
       | _ => (false, r)
       end.

(** ** Event attribution *)

Definition pending_expectations (r : execution) (name : string) : list expectation :=
  default [] (X_events r !! name).

Definition set_expectations (name : string) (list : list expectation) (r : execution) : execution :=
  r <| X_events := <[name := list]> (X_events r) |>.

(** The only value-bearing expectation outside scalars is a transport state. *)
Definition expectation_matches (data : EventData) (want : expectation) : bool :=
  forallb (fun kv => (kv.1 == "state") && (PlayState_string (ED_State data) == kv.2)) want.

Fixpoint match_index (data : EventData) (i : nat) (list : list expectation) : option nat :=
  match list with
  | [] => None
  | want :: rest => if expectation_matches data want then Some i else match_index data (S i) rest
  end.

Definition scalar_kind (k : EventKind) : bool :=
  (k == EventVolume) || (k == EventRepeat) || (k == EventShuffle).

(** The effects of an event that matches expectation [i] of its list. *)
Definition consume_expectation (r : execution) (e : Event) (i : nat) : execution :=
  let data := Event_Data e in
  let list := pending_expectations r (Ev_Command e) in
  let r := if (ED_Kind data == EventState) || (ED_Kind data == EventNowPlaying) || (ED_Kind data == EventQueue)
           then notifyObservation r else r in
  let r := if (ED_Kind data != EventNowPlaying) && negb (X_keepExpectations r)
           then set_expectations (Ev_Command e) (take i list ++ drop (S i) list) r else r in
  if (ED_Kind data == EventState) && (ED_State data == PlayStatePlay) && negb (X_keepExpectations r)
  then let r := set_expectations (Ev_Command e) [] r in
       if X_queueStart r != queueNotStarting then r <| X_queueStart := queuePlayObserved |> else r
  else r.

Definition acceptExpectedEvent (r : execution) (e : Event) : bool * execution :=
  let data := Event_Data e in
  if negb (ED_Valid data) then (false, r)
  else if scalar_kind (ED_Kind data) then acceptScalarEvent r e
  else match match_index data 0 (pending_expectations r (Ev_Command e)) with
       | None => (false, r)
       | Some i =>
           if (X_queueStart r == queueAwaitingPlay) && (ED_Kind data == EventState)
              && (ED_State data == PlayStateStop)
           then (true, r)
           else (true, consume_expectation r e i)
       end.

Definition acceptQueueEvent (r : execution) (e : Event) (now : Time) : bool * execution :=
  let d := decideQueueEvent {|
    QP_Owned := X_queueOwned r; QP_Automating := X_automating r || X_loading r;
    QP_ExpectedState := Snap_State (X_expected r); QP_WaitUntil := X_queueWait r; QP_PlaybackUntil := 0 |} e now in
  let r := r <| X_queueWait := QD_WaitUntil d |> in
  (QD_Action d != queuePass, if QD_Notify d then notifyObservation r else r).

(** The kinds whose notification for another player is not this run's. *)
Definition player_kind (k : EventKind) : bool :=
  match k with
  | EventState | EventNowPlaying | EventPlaybackError | EventQueue | EventVolume | EventRepeat
  | EventShuffle | EventProgress => true
  | _ => false
  end.

Definition foreign_event (r : execution) (e : Event) : bool :=
  let data := Event_Data e in
  negb (Ev_Gap e) && (ED_Player data != "") && (ED_Player data != Player_ID (Snap_Player (X_expected r)))
  && player_kind (ED_Kind data).

Definition progress_event (e : Event) : bool :=
  negb (Ev_Gap e) && (ED_Kind (Event_Data e) == EventProgress) && ED_Valid (Event_Data e).

Definition target_event (r : execution) (e : Event) : bool :=
  negb (Ev_Gap e) && sameGlobal (Ev_Token e) (Snap_Token (X_expected r))
  && ED_Valid (Event_Data e) && (ED_Player (Event_Data e) == Player_ID (Snap_Player (X_expected r))).

(** The evidence of a revoking event, captured under the mutex. *)
Definition event_evidence (r : execution) (e : Event) (at_ : Time) : Diagnostics :=
  let '(observed, fields) := eventScalars e in
  let expected := snapshotScalars (X_expected r) in
  let d := Diagnostics_zero <| Diag_Source := "event" |> <| Diag_Phase := X_phase r |>
             <| Diag_DetectedAt := Some at_ |> <| Diag_Expected := Some expected |> in
  if Ev_Gap e then d
  else d <| Diag_ChangedFields := match observed with
                                  | Some o => scalarChanges expected o
                                  | None => fields end |>
         <| Diag_Observed := observed |>.

(** [execution.event]: [now] is the clock of the queue policy, [at_] the one of
    the evidence.  The disjunction of the two attributions is lazy. *)
Definition event (r : execution) (e : Event) (now at_ : Time) : execution :=
  if foreign_event r e || progress_event e then r
  else
    let '(accepted, r) :=
      if target_event r e then
        let '(ok, r1) := acceptExpectedEvent r e in
        if ok then (true, r1) else acceptQueueEvent r1 e now
      else (false, r) in
    if accepted then r <| X_expected := X_expected r <| Snap_Token := Ev_Token e |> |>
    else
      let r := if X_inflight r then r <| X_uncertain := true |> else r in
      cancel_cause (EOwnership {| Own_reason := if Ev_Gap e then "event_gap" else "unexpected_event";
                                  Own_evidence := event_evidence r e at_ |}) r.

(** ** Expected events of a command *)

Definition add_expectation (name : string) (params : expectation) (r : execution) : execution :=
  let list := pending_expectations r name in
  let list := if 4 <=? len list then drop 1 list else list in
  set_expectations name (list ++ [params]) r.

Definition on_off (b : bool) : string := if b then "on" else "off".
Definition state_changed : string := "event/player_state_changed".
Definition queue_changed : string := "event/player_queue_changed".
Definition now_playing_changed : string := "event/player_now_playing_changed".
Definition volume_changed : string := "event/player_volume_changed".

Definition expect_state (s : PlayState) : execution -> execution :=
  add_expectation state_changed [("state", PlayState_string s)].

Definition expect_volume (m : Mutation) (volume : Z) (muted : bool) (r : execution) : execution :=
  let level := if Mut_Kind m == MutationKindVolume then Mut_Level m else volume in
  let muted := if Mut_Kind m == MutationKindVolume then muted else Mut_Muted m in
  let r := add_expectation volume_changed [("level", itoa level); ("mute", on_off muted)] r in
  if (Mut_Kind m == MutationKindVolume) && muted
  then add_expectation volume_changed [("level", itoa level); ("mute", "off")] r else r.

Definition expect_queue (m : Mutation) (r : execution) : execution :=
  if Mut_Append m then add_expectation queue_changed [] (r <| X_keepExpectations := true |>)
  else
    let r := r <| X_queueStart := queueAwaitingPlay |> in
    let r := add_expectation now_playing_changed [] (add_expectation queue_changed [] r) in
    let r := if (Snap_State (X_expected r) == PlayStateStop) || (Snap_State (X_expected r) == PlayStatePause)
             then expect_state PlayStateStop r else r in
    expect_state PlayStatePlay r.

(** [None] is the nil dereference of an expected volume or mute that was never
    observed. *)
Definition expect (m : Mutation) (r : execution) : option execution :=
  let r := r <| X_queueStart := queueNotStarting |> <| X_scalar := None |> <| X_keepExpectations := false |> in
  let r := if scalarMutation m then r <| X_scalar := Some (newScalarConfirmation m (X_expected r)) |> else r in
  match Mut_Kind m with
  | MutationKindVolume | MutationKindMute =>
      match Snap_Volume (X_expected r), Snap_Muted (X_expected r) with
      | Some v, Some b => Some (expect_volume m v b r)
      | _, _ => None
      end
  | MutationKindTransport => Some (add_expectation now_playing_changed [] (expect_state (Mut_State m) r))
  | MutationKindSkip =>
      Some (foldl (fun r s => expect_state s r)
              (add_expectation now_playing_changed [] (r <| X_keepExpectations := true |>))
              [PlayStateStop; PlayStateUnknown; PlayStatePlay; PlayStatePause])
  | MutationKindMode =>
      Some (add_expectation "event/shuffle_mode_changed" [("shuffle", on_off (Mut_Shuffle m))]
              (add_expectation "event/repeat_mode_changed" [("repeat", Repeat_string (Mut_Repeat m))] r))
  | MutationKindRemove =>
      Some (add_expectation now_playing_changed []
              (add_expectation queue_changed [] (r <| X_keepExpectations := true |>)))
  | MutationKindQueue => Some (expect_queue m r)
  | _ => Some r
  end.

(** ** Read-back confirmation

    The Go pair [(confirmed, err)] is a [Result bool]; [ctx_cause] is
    [context.Cause] of the confirmation's own context. *)

Definition observeQueueState (r : execution) (state : PlayState) : execution :=
  if state == PlayStatePlay then
    set_expectations state_changed
      (filter (fun want => list_to_map (M := gmap string string) want !! "state" <> Some "stop")
         (pending_expectations r state_changed))
      (r <| X_queueStart := queuePlayObserved |>)
  else r.

Definition execution_queueResultProblem (r : execution) (s : Snapshot) : string :=
  match X_ordered r with
  | Some ids => if negb (orderedQueue (Snap_Queue s) ids) then "queue_incomplete_or_invalid"
                else queueResultProblem s (X_members r) (X_bounded r)
  | None => queueResultProblem s (X_members r) (X_bounded r)
  end.
Definition queueResultMatches (r : execution) (s : Snapshot) : bool := execution_queueResultProblem r s == "".

(** A complete read at the exact latest token, of an advanced player revision,
    covers every event received so far; a projection never does. *)
Definition cover_events (r : execution) (before after : Snapshot) : execution :=
  if negb (Snap_EventUpdated after) && (Snap_Token after == Snap_Token (X_expected r))
     && (Token_Player (Snap_Token before) <? Token_Player (Snap_Token after))
  then r <| X_observedRevision := X_eventRevision r |> else r.

Definition queueStartObservation (p : PlayerConfig) (r : execution) (ctx_cause : option error)
    (before after : Snapshot) (deadline now at_ : Time) : queueStartDecision * execution :=
  let r := cover_events (observeQueueState r (Snap_State after)) before after in
  let d := decideQueueStart {|
    QS_Now := now; QS_Deadline := deadline; QS_Phase := X_queueStart r; QS_Bounded := X_bounded r;
    QS_Members := X_members r; QS_Before := before; QS_Observed := after; QS_Cancellation := ctx_cause;
    QS_Unsafe := deviceObservationSafety p after; QS_PendingEvents := pendingEvents r |} in
  let d :=
    match X_ordered r with
    | Some ids =>
        if (QSD_Action d == queueStartConfirm) && negb (orderedQueue (Snap_Queue after) ids) then
          if appendQueueProblem QueuePage_zero (Snap_Queue after) ids
          then {| QSD_Action := queueStartAbort; QSD_Rule := "queue_order_changed";
                  QSD_Err := Some (ownershipMismatch "pending_readback_changed" ["queue_items"] before after) |}
          else {| QSD_Action := queueStartWait; QSD_Rule := "queue_order_pending"; QSD_Err := None |}
        else d
    | None => d
    end in
  (if QSD_Action d == queueStartAbort
   then {| QSD_Action := QSD_Action d; QSD_Rule := QSD_Rule d;
           QSD_Err := captureDecision (X_phase r) (QSD_Err d) (QSD_Rule d) at_ |}
   else d, r).

(** The guards that append and removal share, in their order. *)
Definition readback_guards (p : PlayerConfig) (r : execution) (ctx_cause : option error)
    (before after : Snapshot) (now : Time) : option error :=
  if is_some ctx_cause then ctx_cause
  else if negb (isZero (X_queueWait r)) && negb (now <? X_queueWait r) then Some EQueueTransitionTimeout
  else match deviceObservationSafety p after with
       | Some e => Some e
       | None =>
           let fields := queueLoadingControls before after in
           if len fields != 0 then Some (ownershipMismatch "pending_readback_changed" fields before after)
           else None
       end.

Definition pending_readback (field : string) (before after : Snapshot) : error :=
  ownershipMismatch "pending_readback_changed" [field] before after.

Definition unsettled_state (s : PlayState) : bool :=
  (s != PlayStatePlay) && (s != PlayStateStop) && (s != PlayStateUnknown).

Definition ordered_ids (r : execution) : list ID := default [] (X_ordered r).

Definition delete_expectations (name : string) (r : execution) : execution :=
  r <| X_events := delete name (X_events r) |>.

Definition appendObservation (p : PlayerConfig) (r : execution) (ctx_cause : option error)
    (before after : Snapshot) (now : Time) : Result bool * execution :=
  match readback_guards p r ctx_cause before after now with
  | Some e => (Err e, r)
  | None =>
      let q := Snap_Queue after in
      let media := Snap_Media after in
      if appendQueueProblem (Snap_Queue before) q (ordered_ids r)
      then (Err (pending_readback "queue_items" before after), r)
      else if unsettled_state (Snap_State after) then (Err (pending_readback "state" before after), r)
      else
        let validMedia := queuedMedia q media in
        let pendingMedia := emptyMedia media || transitionalQueueMedia q media
                            || ((Snap_State after != PlayStatePlay) && queuedIdentity q media) in
        if negb validMedia && negb pendingMedia then (Err (pending_readback "media" before after), r)
        else
          let r := cover_events r before after in
          if (Snap_State after == PlayStatePlay) && validMedia && orderedQueue q (ordered_ids r)
             && negb (pendingEvents r)
          then (Ok true, delete_expectations queue_changed (r <| X_queueWait := 0 |>))
          else (Ok false, r)
  end.

(** [media_moved] is [sameOccurrence] of the entry at the shifted position. *)
Definition same_occurrence (media : option Media) (current : Media) : bool :=
  match media with
  | Some m => (Media_ID m == Media_ID current) && (Media_QueueID m == Media_QueueID current)
  | None => false
  end.

Definition removeObservation (p : PlayerConfig) (r : execution) (ctx_cause : option error)
    (before after : Snapshot) (n : Z) (now : Time) : Result bool * execution :=
  match readback_guards p r ctx_cause before after now with
  | Some e => (Err e, r)
  | None =>
      match removedQueuePrefix (Snap_Queue before) (Snap_Queue after) n with
      | None => (Err (pending_readback "queue_items" before after), r)
      | Some removed =>
          let position := queueIndex before in
          if negb (queuedMedia (Snap_Queue before) (Snap_Media before)) || (position <? removed)
          then (Err (pending_readback "media" before after), r)
          else match Queue_Items (Snap_Queue after) !! Z.to_nat (position - removed) with
               | None => (Err (pending_readback "media" before after), r)
               | Some current =>
                   let media := Snap_Media after in
                   if unsettled_state (Snap_State after)
                   then (Err (pending_readback "state" before after), r)
                   else
                     let validMedia := queuedMedia (Snap_Queue after) media in
                     let pendingMedia := emptyMedia media || transitionalQueueMedia (Snap_Queue after) media
                                         || queuedMedia (Snap_Queue before) media in
                     if negb validMedia && negb pendingMedia
                     then (Err (pending_readback "media" before after), r)
                     else
                       let r := cover_events r before after in
                       if (removed =? n) && (Snap_State after == PlayStatePlay) && validMedia
                          && same_occurrence media current && orderedQueue (Snap_Queue after) (ordered_ids r)
                          && negb (pendingEvents r)
                       then (Ok true, delete_expectations now_playing_changed
                                        (delete_expectations queue_changed (r <| X_queueWait := 0 |>)))
                       else (Ok false, r)
               end
      end
  end.

Definition acceptSkipReadback (r : execution) (ctx_cause : option error) (before after : Snapshot) :
    Result bool * execution :=
  if is_some ctx_cause then (Err (default (ESentinel ErrOwnership) ctx_cause), r)
  else
    let changes := pendingChanges before after (Mutation_zero <| Mut_Kind := MutationKindSkip |>) in
    if len changes != 0
    then (Err (ownershipMismatch "pending_readback_changed" changes before after), r)
    else
      let r := cover_events r before after in
      if pendingEvents r || negb (skipConfirmed before after) then (Ok false, r)
      else (Ok true, r <| X_events := no_events |> <| X_keepExpectations := false |>).

(** The queue policy's decision on an observation, with its effect on the wait.
    [expired] is [errors.Is(context.Cause(ctx), errQueueTransitionTimeout)]. *)
Definition queueObservationDecision (p : PlayerConfig) (r : execution) (expired : bool)
    (before fresh : Snapshot) (now at_ : Time) : queueDecision * execution :=
  let d := decideQueueObservation {|
      QP_Owned := X_queueOwned r; QP_Automating := X_automating r || X_loading r;
      QP_ExpectedState := Snap_State before; QP_WaitUntil := X_queueWait r;
      QP_PlaybackUntil := X_playbackDeadline r |}
    {| QF_Now := now; QF_Before := before; QF_Observed := fresh; QF_Cancellation := X_cancelled r;
       QF_Unsafe := deviceObservationSafety p fresh; QF_Expired := expired;
       QF_PendingEvents := pendingEvents r |} in
  let r := r <| X_queueWait := QD_WaitUntil d |> in
  (if QD_Action d == queueRelease
   then {| QD_Action := QD_Action d; QD_Rule := QD_Rule d; QD_WaitUntil := QD_WaitUntil d;
           QD_Deadline := QD_Deadline d; QD_Notify := QD_Notify d;
           QD_Err := captureDecision (X_phase r) (QD_Err d) (QD_Rule d) at_ |}
   else d, r).

(** The controls expected after a confirmed command ([writeOnce]): [None] when
    the read-back does not carry a change the command requires. *)
Definition confirmed_controls (m : Mutation) (fresh after : Snapshot) : Snapshot :=
  match Mut_Kind m with
  | MutationKindMode => fresh <| Snap_Repeat := Mut_Repeat m |> <| Snap_Shuffle := Mut_Shuffle m |>
  | MutationKindVolume =>
      let expected := fresh <| Snap_Volume := Some (Mut_Level m) |> in
      if Snap_Muted fresh == Some true then expected <| Snap_Muted := Snap_Muted after |> else expected
  | MutationKindMute => fresh <| Snap_Muted := Some (Mut_Muted m) |>
  | MutationKindTransport =>
      transportMediaReadback (fresh <| Snap_State := Mut_State m |>) after (Mut_State m) false
  | MutationKindSkip => fresh <| Snap_State := Snap_State after |> <| Snap_Media := Snap_Media after |>
  | MutationKindQueue | MutationKindRemove =>
      fresh <| Snap_State := PlayStatePlay |> <| Snap_Media := Snap_Media after |>
            <| Snap_Queue := Snap_Queue after |>
  | _ => fresh
  end.

Definition execution_ownedChanges (r : execution) (a b : Snapshot) : list string :=
  ownedChanges (X_queueOwned r) a b.

(** The closing critical section of [writeOnce]: the confirmed observation
    becomes the expected state and the acknowledgement window closes. *)
Definition close_confirmation (m : Mutation) (expected after : Snapshot) (r : execution) : Result execution :=
  let changes := execution_ownedChanges r expected after in
  if len changes != 0 then Err (ownershipMismatch "readback_changed" changes expected after)
  else
    let current := Snap_Token (X_expected r) in
    let after :=
      if (Token_Generation current == Token_Generation (Snap_Token after))
         && (Token_Player (Snap_Token after) <=? Token_Player current)
      then after <| Snap_Token := current |> else after in
    let r := r <| X_expected := after |> in
    let r := if (Mut_Kind m == MutationKindQueue) && X_bounded r then r <| X_queueOwned := true |> else r in
    Ok (r <| X_unconfirmed := false |> <| X_confirmed := X_confirmed r + 1 |> <| X_events := no_events |>
          <| X_queueStart := queueNotStarting |> <| X_scalar := None |> <| X_keepExpectations := false |>).
