(* ===== verification/Lane.v ===== *)
(** * The lane of a device and the goroutines that share it
    ([internal/control/coordinator.go])

    An API request runs beside other requests, the worker of the admitted
    operation and the device's events.  They meet in the lane: two gates of one
    place each, the count of priority requests, the cancellation of the request
    that is being admitted, and the pointer to the running execution.  The
    executions are a heap, since a request keeps the pointer to one that has
    left the lane.  Between two critical sections the host changes the lane as
    the others would; the steps a request takes are logged. *)

From S2P Require Import Prelude GoStd Values Model Diagnostics Errors Events State QueuePolicy.
From S2P Require Import QueueStart QueueOps Evidence Command Json JournalModel Execution Views.

(** ** State *)

Record lane := {
  L_priorityGate : bool;              (* each gate holds at most one request *)
  L_gate : bool;
  L_priority : Z;
  L_priorityMode : Z;                 (* the device client's own count *)
  L_admitting : option Z;             (* whose admission may be cancelled *)
  L_stopped : gset Z;                 (* the requests whose derived context was cancelled *)
  L_run : option string;              (* the execution of the lane, by operation ID *)
  L_runs : gmap string execution
}.
#[export] Instance lane_eta : Eta lane := fun l =>
  {| L_priorityGate := L_priorityGate l; L_gate := L_gate l; L_priority := L_priority l;
     L_priorityMode := L_priorityMode l; L_admitting := L_admitting l; L_stopped := L_stopped l;
     L_run := L_run l; L_runs := L_runs l |}.

Definition run_at (l : lane) (id : string) : execution := default execution_zero (L_runs l !! id).
Definition set_run (id : string) (f : execution -> execution) (l : lane) : lane :=
  l <| L_runs := <[id := f (run_at l id)]> (L_runs l) |>.

(** ** Steps *)

Inductive held := PriorityGate | Gate | PriorityCount | WirePriority | Admitting.
#[export] Instance held_eq_dec : EqDecision held.
Proof. solve_decision. Defined.

Inductive step :=
  | Took (h : held) | Left (h : held)
  | Looked (reply : Result Operation)
  | Versioned (revision : string)
  | Saw (s : Snapshot)
  | Refreshed (reply : option error)
  | Paged (start limit : Z) (reply : Result QueuePage)
  | Browsed (source container : ID) (reply : Result (list Item))
  | Owner (reply : Result Operation)
  | Fetched (id : string) (reply : Result Operation)
  | Closing (closing : bool)
  | Revoked (id : string)
  | Waited (id : string) (ended : option error)    (* for a revoked worker *)
  | Claimed (id : string) (child : bufferedSkip)   (* the child's slot of that execution *)
  | Cleared (id : string) (child : bufferedSkip)
  | Armed (id : string) (child : bufferedSkip)     (* left to the worker *)
  | Asked (r : Request) (p : Proposal) (reply : Result Admission)
  | Emitted (o : Operation)
  | Started (r : execution) (cmd : Command) (item : Item)
  | Finalizing (id : string) (child : bufferedSkip) (* an unsent child, in the journal only *)
  | Orphaned (id : string).

(** ** The host *)

Record Host (E : Type) := {
  (* the other goroutines, up to the next step of this one *)
  host_others : lane -> E -> lane * E;
  (* the context of the request, without what the lane does to it *)
  host_ended : E -> option error * E;
  host_gate : E -> option error * E;         (* waiting for the gate: the error of a context that ends first *)
  host_done : string -> E -> option error * E; (* waiting for a revoked worker to end *)
  host_fired : Time -> E -> bool * E;        (* the timer of a derived context *)
  host_now : E -> Time * E;
  host_wait : Duration -> E -> option error * E;
  (* the coordinator: its context and whether it is closing *)
  host_stopped : E -> option error * E;
  host_closing : E -> bool * E;
  (* devices *)
  host_snapshot : string -> E -> Snapshot * E;
  host_refresh : string -> string -> E -> option error * E;
  host_view : string -> E -> View * E;
  host_player_view : string -> ID -> E -> View * E;
  host_page : string -> ID -> Z -> Z -> E -> Result QueuePage * E;
  host_browse : string -> ID -> ID -> E -> Result (list Item) * E;
  (* [Catalogs[source]]: absent, or its [Resolve] *)
  host_resolve : string -> option (ID -> string -> E -> Result Item * E);
  (* the journal *)
  host_lookup : Request -> E -> Result Operation * E;
  host_active : string -> E -> Result Operation * E;
  host_get : string -> E -> Result Operation * E;
  host_admit : Request -> Proposal -> E -> Result Admission * E
}.
Arguments host_others {E}. Arguments host_ended {E}. Arguments host_gate {E}. Arguments host_done {E}.
Arguments host_fired {E}. Arguments host_now {E}. Arguments host_wait {E}. Arguments host_stopped {E}.
Arguments host_closing {E}. Arguments host_snapshot {E}. Arguments host_refresh {E}. Arguments host_view {E}.
Arguments host_player_view {E}. Arguments host_page {E}. Arguments host_browse {E}. Arguments host_resolve {E}.
Arguments host_lookup {E}. Arguments host_active {E}. Arguments host_get {E}. Arguments host_admit {E}.

(** ** The monad of one request *)

Record request (E : Type) := {
  R_lane : lane;
  R_host : E;
  R_log : list step
}.
Arguments R_lane {E}. Arguments R_host {E}. Arguments R_log {E}. Arguments Build_request {E}.
#[export] Instance request_eta {E} : Eta (request E) := fun q =>
  {| R_lane := R_lane q; R_host := R_host q; R_log := R_log q |}.

Definition Handler (E A : Type) : Type := request E -> Result A * request E.

Definition ret {E A} (a : A) : Handler E A := fun q => (Ok a, q).
Definition fail {E A} (e : error) : Handler E A := fun q => (Err e, q).
Definition bind {E A B} (m : Handler E A) (k : A -> Handler E B) : Handler E B := fun q =>
  match m q with (Ok a, q) => k a q | (Err e, q) => (Err e, q) end.
Definition attempt {E A} (m : Handler E A) : Handler E (Result A) := fun q => let '(out, q) := m q in (Ok out, q).
(** [defer]: the cleanup sees the outcome and does not change it. *)
Definition deferred {E A} (cleanup : Result A -> Handler E unit) (m : Handler E A) : Handler E A := fun q =>
  let '(out, q) := m q in (out, (cleanup out q).2).

Notation "'let!' x ':=' m 'in' k" := (bind m (fun x => k))
  (at level 10, x name, m at level 100, k at level 200) : go_scope.
Notation "m ';;;' k" := (bind m (fun _ : unit => k)) (at level 199, k at level 200, right associativity) : go_scope.

Definition when_error {E} (o : option error) : Handler E unit := match o with Some e => fail e | None => ret tt end.
Definition refuse_if {E} (bad : bool) (s : Sentinel) : Handler E unit := if bad then fail (ESentinel s) else ret tt.
Definition of_result {E A} (r : Result A) : Handler E A := match r with Ok a => ret a | Err e => fail e end.
(** A run-time panic, and a loop that has not ended when its fuel is spent. *)
Definition panic : error := EText "panic".
Definition out_of_fuel : error := EText "out of fuel".

Section primitives.
Context {E : Type} (host : Host E).

Definition ask {A} (f : E -> A * E) : Handler E A := fun q =>
  let '(a, e) := f (R_host q) in (Ok a, q <| R_host := e |>).
Definition note (s : step) : Handler E unit := fun q => (Ok tt, q <| R_log := R_log q ++ [s] |>).
(** A call whose reply is logged. *)
Definition call {A} (f : E -> A * E) (s : A -> step) : Handler E A :=
  let! a := ask f in note (s a) ;;; ret a.

(** A critical section of the lane or of one of its executions. *)
Definition critical {A} (f : lane -> A * lane) : Handler E A := fun q =>
  let '(l, e) := host_others host (R_lane q) (R_host q) in
  let '(a, l) := f l in
  (Ok a, q <| R_lane := l |> <| R_host := e |>).
Definition look {A} (f : lane -> A) : Handler E A := critical (fun l => (f l, l)).
Definition change (f : lane -> lane) : Handler E unit := critical (fun l => (tt, f l)).

(** [ctx.Err()] of the request [me]; its context is derived when it can be cancelled. *)
Definition ctx_err (me : Z) : Handler E (option error) :=
  let! stopped := look (fun l => me in? L_stopped l) in
  if (stopped : bool) then ret (Some (ESentinel Canceled)) else ask (host_ended host).
(** The same under a timeout. *)
Definition ctx_err_until (me : Z) (deadline : Time) : Handler E (option error) :=
  let! ended := ctx_err me in
  match ended with
  | Some e => ret (Some e)
  | None => let! fired := ask (host_fired host deadline) in
            ret (if (fired : bool) then Some (ESentinel DeadlineExceeded) else None)
  end.

Definition observe (player : string) : Handler E Snapshot := call (host_snapshot host player) Saw.
Definition refresh (player trigger : string) : Handler E (option error) := call (host_refresh host player trigger) Refreshed.
Definition client_view (player : string) : Handler E View := ask (host_view host player).
Definition browse_all (player : string) (source container : ID) : Handler E (list Item) :=
  let! reply := call (host_browse host player source container) (Browsed source container) in of_result reply.
Definition queue_page (player : string) (pid : ID) (start limit : Z) : Handler E QueuePage :=
  let! reply := call (host_page host player pid start limit) (Paged start limit) in of_result reply.
Definition lookup (r : Request) : Handler E (Result Operation) := call (host_lookup host r) Looked.
End primitives.
