(* ===== verification/Select.v ===== *)
(** * What a command plays ([internal/control/reads.go], [playback_media.go],
    [playback_plan.go], [buffered_plan.go])

    The media of a playback command, resolved before anything is admitted: the
    configured sources of the player, the references of the catalogue, the
    members of a container within their bounds, and the ordered or buffered
    plan, all of one catalogue of one connection. *)

From S2P Require Import Prelude GoStd Values Model Diagnostics Errors Events State QueuePolicy.
From S2P Require Import QueueStart QueueOps Evidence Command Json JournalModel Execution Views Lane.

(** A track the device can play, by what the source says of it. *)
Definition unplayable (track : Item) : bool :=
  (Item_Playable track != "yes") || (Item_MediaID track == "")
  || ((Item_Type track != "song") && (Item_Type track != "track")).
Definition foreign (source : ID) (track : Item) : bool :=
  (Item_Source track != "") && (Item_Source track != source).

(** The servers of Local Music with the configured name. *)
Definition server_named (name : string) (i : Item) : bool :=
  (Item_Name i == name) && (Item_Source i != "") && ((Item_Type i == "heos_server") || (Item_Type i == "dlna_server")).
Definition unique_source (name : string) (items : list Item) : Result ID :=
  match filter (fun i => server_named name i = true) items with
  | [] => Err (ESentinel ErrNotFound)
  | [i] => if len (filter (fun x => Item_Source x = Item_Source i) items) =? 1 then Ok (Item_Source i)
           else Err (ESentinel ErrAmbiguous)
  | _ => Err (ESentinel ErrAmbiguous)
  end.

Section select.
Context {E : Type} (host : Host E) (devices : list PlayerConfig) (sources : list SourceConfig).
Local Abbreviation H := (Handler E).

(** [Reads.source] and [Reads.resolveSource]. *)
Definition source_of (key : string) : Result (SourceConfig * PlayerConfig) :=
  match list_find (fun v => SrcCfg_Key v = key) sources with
  | Some (_, v) => let? d := find_device devices (SrcCfg_Player v) in Ok (v, d)
  | None => Err (ESentinel ErrNotFound)
  end.

Definition resolveSource (key : string) : H (SourceConfig * PlayerConfig * ID) :=
  let! found := of_result (source_of key) in
  let '(c, d) := found in
  let! s := observe host (Cfg_Key d) in
  refuse_if (negb (Snap_Verified s)) ErrUnavailable ;;;
  let! items := browse_all host (Cfg_Key d) LocalMusic "" in
  let! id := of_result (unique_source (SrcCfg_Name c) items) in
  ret (c, d, id).

(** What a resolved reference must be to start a playback. *)
Definition item_checked (item : Item) : Result Item :=
  if Item_ContainerID item == "" then Err (ESentinel ErrBounds)
  else if Item_Container item == "yes" then Ok item
  else if unplayable item then Err (ESentinel ErrBounds)
  else Ok item.

(** The loop over the sources of the player, with the last source's error. *)
Fixpoint resolve_from (d : PlayerConfig) (ref : string) (rest : list SourceConfig) (sourceErr : option error) : H Item :=
  match rest with
  | [] => fail (default (ESentinel ErrStaleReference) sourceErr)
  | source :: rest =>
      if SrcCfg_Player source != Cfg_Key d then resolve_from d ref rest sourceErr
      else
        let! resolved := attempt (resolveSource (SrcCfg_Key source)) in
        match resolved with
        | Err e => resolve_from d ref rest (Some e)
        | Ok (_, _, sid) =>
            match host_resolve host (SrcCfg_Key source) with
            | None => resolve_from d ref rest sourceErr
            | Some resolve =>
                let! item := ask (resolve sid ref) in
                match item with
                | Ok item => of_result (item_checked item)
                | Err _ => resolve_from d ref rest sourceErr
                end
            end
        end
  end.
Definition resolveItem (d : PlayerConfig) (ref : string) : H Item := resolve_from d ref sources None.

(** ** The members of a container *)

(** What the children of one container add: the tracks, and the containers to visit. *)
Definition children_step (source : ID) (depth : Z) (children : list Item) : Result (list ID * list (ID * Z)) :=
  foldl (fun acc child =>
    let? acc := acc in
    let '(tracks, todo) := acc in
    if foreign source child then Err (ESentinel ErrAmbiguous)
    else if Item_Container child == "yes" then
      if Item_ContainerID child == "" then Err (ESentinel ErrBounds)
      else Ok (tracks, todo ++ [(Item_ContainerID child, depth + 1)])
    else if unplayable child then Err (ESentinel ErrBounds)
    else Ok (tracks ++ [Item_MediaID child], todo)) (Ok ([], [])) children.

(** Breadth first; [seen] bounds the visits, so the fuel of [playableMembers] is enough. *)
Fixpoint members_loop (fuel : nat) (d : PlayerConfig) (source : ID) (todo : list (ID * Z)) (seen : gset ID) (count : Z)
    (members : gset ID) : H (gset ID) :=
  match todo with
  | [] => ret members
  | (cid, depth) :: todo =>
      match fuel with
      | O => fail out_of_fuel
      | S fuel =>
          if (cid in? seen) || (8 <? depth) || (MaxBrowsePages <=? Z.of_nat (size seen)) then fail (ESentinel ErrBounds)
          else
            let! children := browse_all host (Cfg_Key d) source cid in
            let count := count + len children in
            if MaxBrowseItems <? count then fail (ESentinel ErrBounds)
            else
              let! found := of_result (children_step source depth children) in
              members_loop fuel d source (todo ++ found.2) ({[cid]} ∪ seen) count (list_to_set found.1 ∪ members)
      end
  end.

Definition playableMembers (d : PlayerConfig) (item : Item) : H (gset ID) :=
  if Item_Container item != "yes" then ret {[Item_MediaID item]}
  else
    let! before := client_view host (Cfg_Key d) in
    let! members := members_loop (S (Z.to_nat MaxBrowsePages)) d (Item_Source item) [(Item_ContainerID item, 0)] ∅ 0 ∅ in
    let! view := client_view host (Cfg_Key d) in
    refuse_if (negb (View_Connected view) || negb (sameCatalog (View_Token view) (View_Token before))) ErrStaleReference ;;;
    refuse_if (bool_decide (members = ∅)) ErrBounds ;;;
    ret members.

(** ** Plans *)

Definition selection : Type := Item * gset ID * list playbackPart.

(** The catalogue the plan was read from is still the device's. *)
Definition same_catalogue (me : Z) (d : PlayerConfig) (deadline : Time) (token : Token) : H unit :=
  let! view := client_view host (Cfg_Key d) in
  let! ended := ctx_err_until host me deadline in
  when_error ended ;;;
  refuse_if (negb (View_Connected view) || negb (sameCatalog token (View_Token view))) ErrStaleReference.

(** The tracks of one part of an ordered plan. *)
Definition part_tracks (d : PlayerConfig) (item : Item) : H (list Item) :=
  if Item_Container item == "yes" then browse_all host (Cfg_Key d) (Item_Source item) (Item_ContainerID item)
  else ret [item].

Definition track_ids (sid : ID) (tracks : list Item) : Result (list ID) :=
  foldl (fun acc track =>
    let? ids := acc in
    if foreign sid track then Err (ESentinel ErrAmbiguous)
    else if (Item_Container track == "yes") || unplayable track then Err (ESentinel ErrBounds)
    else Ok (ids ++ [Item_MediaID track])) (Ok []) tracks.

Fixpoint ordered_parts (d : PlayerConfig) (refs : list string) (sid : ID) (count : Z) (parts : list playbackPart) : H (list playbackPart) :=
  match refs with
  | [] => ret parts
  | ref :: refs =>
      let! item := resolveItem d ref in
      refuse_if ((Item_Source item == "") || ((sid != "") && (sid != Item_Source item))) ErrAmbiguous ;;;
      let! tracks := part_tracks d item in
      let count := count + len tracks in
      refuse_if ((len tracks =? 0) || (MaxBrowseItems <? count)) ErrBounds ;;;
      let! ids := of_result (track_ids (Item_Source item) tracks) in
      ordered_parts d refs (Item_Source item) count
        (parts ++ [{| Part_Item := item; Part_IDs := Some ids; Part_Count := 0; Part_CatalogToken := Token_zero |}])
  end.

Definition first_selection (parts : list playbackPart) : H selection :=
  match parts with
  | [] => fail panic
  | part :: _ => ret (Part_Item part, idMembership (part_ids part), parts)
  end.

(** *** Buffered plans *)

Definition descriptor_bad (item : Item) (actual : ID) : bool :=
  (Item_ContainerID item == "") || (Item_Source item == "") || ((actual != "") && (Item_Source item != actual)).
Definition descriptor_single (item : Item) (n : Z) : bool :=
  (Item_Container item != "yes") && (unplayable item || (n != 1)).

(** [None]: a reference this source does not know. *)
Fixpoint buffered_parts (resolve : ID -> string -> E -> Result Item * E) (sid : ID) (token : Token) (refs : list string)
    (tracks : list Z) (actual : ID) (parts : list playbackPart) : H (option (list playbackPart)) :=
  match refs, tracks with
  | [], _ => ret (Some parts)
  | ref :: refs, n :: tracks =>
      let! found := ask (resolve sid ref) in
      match found with
      | Err _ => ret None
      | Ok item =>
          refuse_if (descriptor_bad item actual) ErrBounds ;;;
          refuse_if (descriptor_single item n) ErrBounds ;;;
          buffered_parts resolve sid token refs tracks (Item_Source item)
            (parts ++ [{| Part_Item := item; Part_IDs := None; Part_Count := n; Part_CatalogToken := token |}])
      end
  | _ :: _, [] => fail panic
  end.

(** [prepareBufferedPart] under the context of the request. *)
Definition prepare_part (me : Z) (d : PlayerConfig) (deadline : Time) (part : playbackPart) : H playbackPart :=
  let! view := client_view host (Cfg_Key d) in
  refuse_if (negb (View_Connected view) || negb (sameCatalog (Part_CatalogToken part) (View_Token view))) ErrStaleReference ;;;
  if is_some (Part_IDs part) then
    let! ended := ctx_err_until host me deadline in when_error ended ;;; ret part
  else
    let! t := ask (host_now host) in
    let deadline := Z.min deadline (t + 5 * Second) in
    let! tracks := part_tracks d (Part_Item part) in
    refuse_if (negb (len tracks =? Part_Count part)) ErrBounds ;;;
    refuse_if (existsb (fun track => foreign (Item_Source (Part_Item part)) track || (Item_Container track == "yes")
                                     || unplayable track) tracks) ErrBounds ;;;
    same_catalogue me d deadline (Part_CatalogToken part) ;;;
    ret (part <| Part_IDs := Some (map Item_MediaID tracks) |>).

Fixpoint prepare_first (n : nat) (me : Z) (d : PlayerConfig) (deadline : Time) (parts : list playbackPart) : H (list playbackPart) :=
  match n, parts with
  | S n, part :: rest =>
      let! part := prepare_part me d deadline part in
      let! rest := prepare_first n me d deadline rest in
      ret (part :: rest)
  | _, _ => ret parts
  end.

(** The loop over the sources of the player. *)
Fixpoint buffered_from (me : Z) (d : PlayerConfig) (deadline : Time) (token : Token) (refs : list string) (tracks : list Z)
    (rest : list SourceConfig) (sourceErr : option error) : H selection :=
  match rest with
  | [] => fail (default (ESentinel ErrStaleReference) sourceErr)
  | source :: rest =>
      let next := buffered_from me d deadline token refs tracks rest in
      if SrcCfg_Player source != Cfg_Key d then next sourceErr
      else
        let! resolved := attempt (resolveSource (SrcCfg_Key source)) in
        match resolved with
        | Err e => next (Some e)
        | Ok (_, _, sid) =>
            match host_resolve host (SrcCfg_Key source) with
            | None => next sourceErr
            | Some resolve =>
                let! parts := buffered_parts resolve sid token refs tracks "" [] in
                match parts with
                | None => next sourceErr
                | Some parts =>
                    let! parts := prepare_first 2 me d deadline parts in
                    same_catalogue me d deadline token ;;; first_selection parts
                end
            end
        end
  end.

Definition resolveBufferedPlayback (me : Z) (d : PlayerConfig) (refs : list string) (b : BufferedPlayback) : H selection :=
  let! t := ask (host_now host) in
  let! view := client_view host (Cfg_Key d) in
  buffered_from me d (t + 20 * Second) (View_Token view) refs (Buf_PartTracks b) sources None.

Definition resolvePlayback (me : Z) (d : PlayerConfig) (cmd : Command) : H selection :=
  when_error (validatePlaybackSelection cmd) ;;;
  match Cmd_Buffered cmd, Cmd_ItemRefs cmd with
  | Some b, refs => resolveBufferedPlayback me d (default [] refs) b
  | None, None =>
      let! item := resolveItem d (Cmd_ItemRef cmd) in
      let! members := playableMembers d item in
      ret (item, members, [])
  | None, Some refs =>
      let! t := ask (host_now host) in
      let! view := client_view host (Cfg_Key d) in
      let! parts := ordered_parts d refs "" 0 [] in
      same_catalogue me d (t + 20 * Second) (View_Token view) ;;;
      first_selection parts
  end.
End select.
