(* ===== verification/Submit.v ===== *)
(** * Admission ([internal/control/coordinator.go], [progressive_skip.go])

    One request for one player, from the HTTP boundary to a durable admission
    and its worker.  The gates, the checks and their order are those of
    [Submit]; [me] names the request's goroutine.  The metrics and the priority
    mark of a context (which only orders the device client's queue) are left
    out.  The wait for a fenced connection carries a [fuel]. *)

From S2P Require Import Prelude GoStd Values Model Diagnostics Errors Events State QueuePolicy.
From S2P Require Import QueueStart QueueOps Evidence Command Json JournalModel Execution Views Lane Select.

(** ** The lane *)

Definition occupied (h : held) (l : lane) : bool :=
  match h with PriorityGate => L_priorityGate l | _ => L_gate l end.
Definition occupy (h : held) (b : bool) (l : lane) : lane :=
  match h with PriorityGate => l <| L_priorityGate := b |> | _ => l <| L_gate := b |> end.

(** A priority request counts itself and cancels the admission under way. *)
Definition enter_priority (l : lane) : lane :=
  let l := l <| L_priority := L_priority l + 1 |> in
  match L_admitting l with Some id => l <| L_stopped := {[id]} ∪ L_stopped l |> | None => l end.

(** The worker's goroutine, after [execute]. *)
Definition worker_exit (id : string) (l : lane) : lane :=
  if L_run l == Some id then l <| L_run := None |> else l.

(** ** Documents *)

(** [fmt.Sprintf("%q", revision)]: a revision is letters, digits and a dash. *)
Definition quoted (revision : string) : string := String (of_byte 34) (revision +:+ String (of_byte 34) "").

Definition strings_json (l : list string) : json := JArray (map JString l).
Definition numbers_json (l : list Z) : json := JArray (map number l).

Definition automation_json (a : Automation) : json := JObject [
  ("target_level", number (Auto_TargetLevel a)); ("ramp_seconds", number (Auto_RampSeconds a));
  ("duration_seconds", number (Auto_DurationSeconds a)); ("fade_seconds", number (Auto_FadeSeconds a))].
Definition buffered_json (b : BufferedPlayback) : json := JObject [
  ("part_tracks", numbers_json (Buf_PartTracks b)); ("refill_threshold", number (Buf_RefillThreshold b));
  ("max_queue_tracks", number (Buf_MaxQueueTracks b)); ("retain_previous", number (Buf_RetainPrevious b));
  ("max_session_seconds", number (Buf_MaxSessionSeconds b))].
Definition nonempty_list (l : option (list string)) : option json :=
  match l with Some (x :: rest) => Some (strings_json (x :: rest)) | _ => None end.

Definition command_json (c : Command) : json := JObject (
  [("kind", JString (CommandKind_string (Cmd_Kind c))); ("level", number (Cmd_Level c)); ("muted", JBool (Cmd_Muted c));
   ("state", JString (PlayState_string (Cmd_State c)))]
  ++ optional "direction" (nonempty (Cmd_Direction c))
  ++ [("takeover", JBool (Cmd_Takeover c))]
  ++ optional "expected_owner" (nonempty (Cmd_ExpectedOwner c))
  ++ [("item_ref", JString (Cmd_ItemRef c))]
  ++ optional "item_refs" (nonempty_list (Cmd_ItemRefs c))
  ++ [("shuffle", JBool (Cmd_Shuffle c)); ("repeat", JString (Repeat_string (Cmd_Repeat c))); ("mode", JString (Cmd_Mode c));
      ("fade_seconds", number (Cmd_FadeSeconds c)); ("target", JString (Cmd_Target c))]
  ++ optional "automation" (automation_json <$> Cmd_Automation c)
  ++ optional "buffered" (buffered_json <$> Cmd_Buffered c)).

Definition item_json (i : Item) : json := JObject (
  [("name", JString (Item_Name i))] ++ optional "sid" (nonempty (Item_Source i))
  ++ optional "cid" (nonempty (Item_ContainerID i)) ++ optional "mid" (nonempty (Item_MediaID i))
  ++ [("container", JString (Item_Container i)); ("playable", JString (Item_Playable i)); ("type", JString (Item_Type i))]).

Definition part_json (p : playbackPart) : json := JObject (
  [("item", item_json (Part_Item p)); ("ids", default JNull (strings_json <$> Part_IDs p))]
  ++ optional "count" (if Part_Count p =? 0 then None else Some (number (Part_Count p)))).

Definition config_json (c : PlayerConfig) : json := JObject [
  ("writes_enabled", JBool (Cfg_WritesEnabled c)); ("key", JString (Cfg_Key c)); ("address", JString (Cfg_Address c));
  ("fingerprint_sha256", JString (Cfg_FingerprintSHA256 c)); ("serial", JString (Cfg_Serial c));
  ("model", JString (Cfg_Model c)); ("volume_ceiling", default JNull (number <$> Cfg_VolumeCeiling c))].

Record playbackPlanIdentity := { Plan_SHA256 : string; Plan_PartTracks : list Z }.

(** ** Starting the worker *)

Definition loading_of (parts : list playbackPart) (buffered : bool) : option QueueLoadingProgress :=
  if len parts =? 0 then None
  else Some (QueueLoadingProgress_zero <| QL_Mode := if buffered then "buffered" else "" |>
               <| QL_TotalParts := len parts |>
               <| QL_TotalTracks := foldl (fun n part => n + trackCount part) 0 parts |>).

Definition stops_owned (cmd : Command) : bool := (Cmd_Kind cmd == CommandKindCancel) && (Cmd_Mode cmd == "stop_owned").

Definition new_run (o : Operation) (cmd : Command) (s : Snapshot) (members : gset ID) (parts : list playbackPart)
    (previous : option execution) : execution :=
  let r := execution_zero <| X_id := Op_ID o |> <| X_phase := Op_Phase o |> <| X_expected := s |> <| X_members := members |>
             <| X_parts := parts |> <| X_bounded := is_some (Cmd_Automation cmd) || (0 <? len parts) |>
             <| X_buffered := (fun b => {| BP_policy := b; BP_expires := 0; BP_pruned := 0 |}) <$> Cmd_Buffered cmd |>
             <| X_ordered := match parts with [] => None | part :: _ => Some (part_ids part) end |>
             <| X_queueLoading := loading_of parts (is_some (Cmd_Buffered cmd)) |> in
  match previous with
  | Some old => if stops_owned cmd then r <| X_bounded := X_bounded old |> <| X_queueOwned := X_queueOwned old |> else r
  | None => r
  end.

Section submit.
Context {E : Type} (host : Host E) (devices : list PlayerConfig) (sources : list SourceConfig) (p : PlayerConfig).
Context (digest : json -> string) (json_size : json -> Z) (time_text : Time -> string) (epoch : string).
Local Abbreviation H := (Handler E).
Local Abbreviation key := (Cfg_Key p).

Definition missing {A} (r : Result A) : bool := match r with Err e => errors_is JErrNotFound e | Ok _ => false end.

(** *** Gates *)

Definition take_gate (h : held) : H unit :=
  let! busy := critical host (fun l => if occupied h l then (true, l) else (false, occupy h true l)) in
  refuse_if busy ErrQueueFull ;;; note (Took h).
Definition leave_gate (h : held) : H unit := change host (occupy h false) ;;; note (Left h).

(** [l.gate <- struct{}{}] or the end of the context. *)
Definition wait_gate : H unit :=
  let! ended := ask (host_gate host) in
  when_error ended ;;;
  let! busy := critical host (fun l => if occupied Gate l then (true, l) else (false, occupy Gate true l)) in
  if (busy : bool) then fail (ESentinel Canceled) else note (Took Gate).

Definition enter (cmd : Command) : H unit :=
  change host enter_priority ;;; note (Took PriorityCount) ;;;
  if Cmd_Kind cmd == CommandKindStop
  then change host (fun l => l <| L_priorityMode := L_priorityMode l + 1 |>) ;;; note (Took WirePriority)
  else ret tt.
(** Also the worker's own [release]. *)
Definition release (cmd : Command) : H unit :=
  (if Cmd_Kind cmd == CommandKindStop
   then change host (fun l => l <| L_priorityMode := L_priorityMode l - 1 |>) ;;; note (Left WirePriority)
   else ret tt) ;;;
  change host (fun l => l <| L_priority := L_priority l - 1 |>) ;;; note (Left PriorityCount).

(** *** Reads *)

Definition revision_now (player : string) : H string :=
  let! d := of_result (find_device devices player) in
  let! v := observe host player in
  let revision := revision_of digest time_text epoch d v in
  note (Versioned revision) ;;; ret revision.

(** [completeQueue] under a request; the pages of [Worker.complete_pages]. *)
Fixpoint more_pages (fuel : nat) (s : Snapshot) (q : QueuePage) : H QueuePage :=
  match Queue_Next q with
  | None => ret q
  | Some next =>
      match fuel, Queue_Total q with
      | S fuel, Some total =>
          refuse_if ((MaxBrowseItems <? total) || (next != len (Queue_Items q))) ErrBounds ;;;
          let! page := queue_page host key (Player_ID (Snap_Player s)) next 100 in
          refuse_if ((Queue_Token page != Snap_Token s) || (Queue_Total q != Queue_Total page)) ErrStale ;;;
          refuse_if ((len (Queue_Items page) =? 0) || (MaxBrowseItems <? len (Queue_Items q) + len (Queue_Items page))) ErrBounds ;;;
          more_pages fuel s (q <| Queue_Items := Queue_Items q ++ Queue_Items page |> <| Queue_Next := Queue_Next page |>)
      | _, _ => fail (ESentinel ErrBounds)
      end
  end.
Definition whole_snapshot (s : Snapshot) : H Snapshot :=
  match Queue_Next (Snap_Queue s) with
  | None => ret s
  | Some _ =>
      let! q := more_pages (Z.to_nat (MaxBrowsePages - 1)) s (Snap_Queue s) in
      match Queue_Total q with
      | None => fail panic
      | Some total =>
          refuse_if (total != len (Queue_Items q)) ErrProtocol ;;;
          let! view := ask (host_player_view host key (Player_ID (Snap_Player s))) in
          refuse_if (negb (View_Connected view) || (View_Token view != Snap_Token s)) ErrStale ;;;
          ret (s <| Snap_Queue := q |>)
      end
  end.

(** The connection can briefly be in its cool-down after fencing. *)
Fixpoint refresh_until (fuel : nat) (me : Z) (deadline : Time) : H (option error) :=
  match fuel with
  | O => fail out_of_fuel
  | S fuel =>
      let! e := refresh host key "admission" in
      match e with
      | None => ret None
      | Some e =>
          let! t := ask (host_now host) in
          if deadline <? t then ret (Some e)
          else
            let! ended := ctx_err host me in
            if is_some ended then ret (Some e)
            else
              let! woken := ask (host_wait host (50 * Millisecond)) in
              if is_some woken then ret (Some e) else refresh_until fuel me deadline
      end
  end.

(** *** Child Skips of a buffered playback *)

(** The section that takes the child's slot. *)
Definition claim_slot (id : string) (child : bufferedSkip) (l : lane) : Result unit * lane :=
  let r := run_at l id in
  if negb (X_queueOwned r) || X_bufferedSkipsClosed r || is_some (X_cancelled r) || X_uncertain r || X_unconfirmed r
  then (Err (ESentinel JErrBusy), l)
  else if is_some (X_bufferedSkip r) then (Err (ESentinel ErrQueueFull), l)
  else if Snap_State (X_expected r) != PlayStatePlay then (Err (ESentinel ErrNotSkippable), l)
  else match skipAdmissible (Cfg_VolumeCeiling p) (BS_direction child) (X_expected r) with
       | Some e => (Err e, l)
       | None => (Ok tt, set_run id (fun r => r <| X_bufferedSkip := Some child |>) l)
       end.

Definition holds_child (child : bufferedSkip) (r : execution) : bool :=
  match X_bufferedSkip r with Some c => BS_id c =? BS_id child | None => false end.
Definition clear_slot (child : bufferedSkip) (r : execution) : execution :=
  if holds_child child r then r <| X_bufferedSkip := None |> else r.

(** After [Admit]: whether the worker is gone, and the child it may serve. *)
Definition arm_slot (id : string) (child : bufferedSkip) (l : lane) : bool * lane :=
  let r := run_at l id in
  let closed := X_bufferedSkipsClosed r || is_some (X_cancelled r) in
  (closed, set_run id (fun r => if holds_child child r
                                then r <| X_bufferedSkip := Some (child <| BS_ready := negb closed |>) |> else r) l).

Definition config_revision : string := "direct:" +:+ digest (config_json p).

Definition skip_proposal (owner : Operation) (cmd : Command) (now : Time) : Proposal := {|
  Prop_OwnerID := Op_ID owner; Prop_ReplaceUncertain := false; Prop_ReplaceID := ""; Prop_ReplaceRevision := 0;
  Prop_Kind := "skip"; Prop_DeviceKey := Cfg_Serial p; Prop_ConfigRevision := config_revision;
  Prop_EffectiveArguments := marshal json_size (JObject [("owner_operation_id", JString (Op_ID owner)); ("command", command_json cmd)]);
  Prop_NotBefore := now; Prop_NotAfter := now + Minute |}.

Definition give_up_slot (id : string) (child : bufferedSkip) : H unit :=
  change host (set_run id (clear_slot child)) ;;; note (Cleared id child).

(** After the journal's reply: the child is given up, left to the worker, or
    finished in the journal because the worker is gone. *)
Definition settle_child (id : string) (child : bufferedSkip) (reply : Result Admission) : H Operation :=
  match reply with
  | Err e => give_up_slot id child ;;; fail e
  | Ok a =>
      if negb (Adm_Created a) then give_up_slot id child ;;; ret (Adm_Operation a)
      else
        let child := child <| BS_op := Adm_Operation a |> in
        let! closed := critical host (arm_slot id child) in
        note (Emitted (Adm_Operation a)) ;;;
        (if (closed : bool) then note (Finalizing id child)
         else change host (set_run id signal) ;;; note (Armed id child)) ;;;
        ret (Adm_Operation a)
  end.

Definition submitBufferedSkip (me : Z) (id : string) (owner : Operation) (r : Request) (cmd : Command) : H Operation :=
  refuse_if (Op_Principal owner != Req_Principal r) JErrBusy ;;;
  let child := {| BS_id := me; BS_direction := Cmd_Direction cmd; BS_op := Operation_zero; BS_ready := false |} in
  let! claimed := critical host (claim_slot id child) in
  of_result claimed ;;; note (Claimed id child) ;;;
  let! now := ask (host_now host) in
  let! closing := call (host_closing host) Closing in
  let! ended := ctx_err host me in
  if closing || is_some ended then give_up_slot id child ;;; fail (ESentinel ErrUnavailable)
  else
    let! reply := call (host_admit host r (skip_proposal owner cmd now)) (Asked r (skip_proposal owner cmd now)) in
    settle_child id child reply.

(** *** The checks of [Submit], in its order *)

Definition urgent (cmd : Command) : bool := (Cmd_Kind cmd == CommandKindStop) || (Cmd_Kind cmd == CommandKindCancel).
Definition is_skip (cmd : Command) : bool := Cmd_Kind cmd == CommandKindSkip.

Definition match_revision (r : Request) (revision : string) : H unit :=
  refuse_if (Req_IfMatch r != quoted revision) ErrPrecondition.

(** Before the journal: the precondition, the cached state and the ceiling. *)
Definition busy_check (cmd : Command) (s : Snapshot) : H unit :=
  refuse_if (is_some (Cmd_Automation cmd) && negb (Cmd_Takeover cmd) && (Snap_State s == PlayStatePlay)) JErrBusy.
Definition level_check (cmd : Command) : H unit :=
  refuse_if (((Cmd_Kind cmd == CommandKindVolume) || (Cmd_Kind cmd == CommandKindPlayback))
             && match Cfg_VolumeCeiling p with None => true | Some c => c <? Cmd_Level cmd end) ErrBounds.

Definition precheck (r : Request) (cmd : Command) : H unit :=
  let! stopped := ask (host_stopped host) in
  when_error stopped ;;;
  when_error (submit_bounds cmd (Cfg_VolumeCeiling p)) ;;;
  (if urgent cmd then ret tt
   else
     refuse_if (Req_IfMatch r == "") ErrPreconditionRequired ;;;
     let! revision := revision_now (Req_Player r) in match_revision r revision) ;;;
  let! s := observe host key in
  (if urgent cmd then ret tt else when_error (mutationSafety p s (is_skip cmd))) ;;;
  busy_check cmd s ;;; level_check cmd.

Definition select_media (me : Z) (cmd : Command) : H selection :=
  if Cmd_Kind cmd == CommandKindPlayback then resolvePlayback host devices sources me p cmd
  else ret (Item_zero, ∅, []).

(** The reserved operation of the player, if there is one. *)
Definition find_owner (r : Request) (cmd : Command) : H (option Operation) :=
  let! reply := call (host_active host (Req_Player r)) Owner in
  let! old := match reply with
              | Ok o => ret (Some o)
              | Err e => if errors_is JErrNotFound e then ret None else fail e
              end in
  refuse_if ((Cmd_ExpectedOwner cmd != "")
             && match old with Some o => Op_ID o != Cmd_ExpectedOwner cmd | None => true end) ErrPrecondition ;;;
  ret old.

(** The worker is revoked before its operation is replaced. *)
Definition revoke (old : Operation) : H (option string) :=
  let! previous := look host L_run in
  match previous with
  | Some id =>
      if Op_ID old == id then
        change host (set_run id (cancel_cause (ESentinel errSuperseded))) ;;; note (Revoked id) ;;;
        let! ended := call (host_done host id) (Waited id) in
        when_error ended ;;; ret previous
      else ret previous
  | None => ret None
  end.

(** [Operation{}] when there is none or it has finished by now. *)
Definition refetch (old : Operation) : H Operation :=
  if Op_ID old == "" then ret old
  else
    let! reply := call (host_get host (Op_ID old)) (Fetched (Op_ID old)) in
    let! o := of_result reply in
    ret (if is_some (Op_FinishedAt o) then Operation_zero else o).

Definition finish_orphan (old : Operation) (previous : option string) : H unit :=
  if (Op_ID old != "") && is_some previous then
    let! closing := call (host_closing host) Closing in
    if (closing : bool) then ret tt else note (Orphaned (Op_ID old))
  else ret tt.

(** A cancellation acts on a worker that had not lost its ownership. *)
Definition cancel_lost (r : execution) : bool :=
  X_uncertain r || X_unconfirmed r
  || match X_cancelled r with Some cause => negb (errors_is errSuperseded cause) | None => false end.
Definition cancel_target (cmd : Command) (previous : option string) : H (option (string * Snapshot)) :=
  if Cmd_Kind cmd != CommandKindCancel then ret None
  else match previous with
       | None => fail (ESentinel ErrOwnership)
       | Some id =>
           let! held := look host (fun l => (X_expected (run_at l id), cancel_lost (run_at l id))) in
           refuse_if ((Cmd_Mode cmd == "stop_owned") && held.2) ErrOwnership ;;;
           ret (Some (id, held.1))
       end.

(** The state that the worker starts from. *)
Definition ceiling_check (cmd : Command) (s : Snapshot) : H unit :=
  if ((Cmd_Kind cmd == CommandKindTransport) && (Cmd_State cmd == PlayStatePlay))
     || ((Cmd_Kind cmd == CommandKindMute) && negb (Cmd_Muted cmd))
  then match Snap_Volume s, Cfg_VolumeCeiling p with
       | Some v, Some c => refuse_if (c <? v) ErrBounds
       | _, _ => fail panic
       end
  else ret tt.

Definition owned_by (id : string) (expected fresh : Snapshot) : H Snapshot :=
  let! bounded := look host (fun l => X_bounded (run_at l id)) in
  let! fresh := if (bounded : bool) then whole_snapshot fresh else ret fresh in
  let! same := look host (fun l => ownedState (X_queueOwned (run_at l id)) expected fresh) in
  refuse_if (negb same) ErrOwnership ;;; ret fresh.

Definition observed_state (fuel : nat) (me : Z) (cmd : Command) (target : option (string * Snapshot)) : H Snapshot :=
  (if urgent cmd || Cmd_Takeover cmd then
     let! t := ask (host_now host) in
     let! e := refresh_until fuel me (t + 3 * Second) in when_error e
   else ret tt) ;;;
  let! fresh := observe host key in
  when_error (mutationSafety p fresh (is_skip cmd)) ;;;
  let! s := match target with Some (id, expected) => owned_by id expected fresh | None => ret fresh end in
  busy_check cmd s ;;; ceiling_check cmd s ;;; ret s.

(** A released operation starts from what its target expected. *)
Definition fresh_state (fuel : nat) (me : Z) (cmd : Command) (target : option (string * Snapshot)) : H Snapshot :=
  match target with
  | Some (_, expected) => if Cmd_Mode cmd == "release" then ret expected else observed_state fuel me cmd target
  | None => observed_state fuel me cmd target
  end.

Definition recheck_revision (r : Request) (cmd : Command) : H unit :=
  if urgent cmd || Cmd_Takeover cmd then ret tt
  else let! revision := revision_now (Req_Player r) in match_revision r revision.

Definition complete_state (cmd : Command) (parts : list playbackPart) (s : Snapshot) : H Snapshot :=
  let! s := if is_skip cmd then
              let! s := whole_snapshot s in
              when_error (skipAdmissible (Cfg_VolumeCeiling p) (Cmd_Direction cmd) s) ;;; ret s
            else ret s in
  if is_some (Cmd_Automation cmd) || (0 <? len parts) then whole_snapshot s else ret s.

Definition planIdentity (parts : list playbackPart) : option playbackPlanIdentity :=
  if len parts =? 0 then None
  else Some {| Plan_SHA256 := digest (JArray (map part_json parts)); Plan_PartTracks := map trackCount parts |}.

Definition arguments (cmd : Command) (item : Item) (members : gset ID) (parts : list playbackPart) : json := JObject (
  optional "ordered_plan" ((fun plan => JObject [("sha256", JString (Plan_SHA256 plan));
                                                 ("part_tracks", numbers_json (Plan_PartTracks plan))]) <$> planIdentity parts)
  ++ [("members_sha256", JString (digest (strings_json (merge_sort string_le (elements members)))));
      ("command", command_json cmd); ("resolved_item", item_json item);
      ("volume_ceiling", default JNull (number <$> Cfg_VolumeCeiling p))]).

Definition proposal (cmd : Command) (args : json) (old : Operation) (uncertain : bool) (now : Time) : Proposal := {|
  Prop_OwnerID := ""; Prop_ReplaceUncertain := uncertain; Prop_ReplaceID := Op_ID old; Prop_ReplaceRevision := Op_Revision old;
  Prop_Kind := CommandKind_string (Cmd_Kind cmd); Prop_DeviceKey := Cfg_Serial p; Prop_ConfigRevision := config_revision;
  Prop_EffectiveArguments := marshal json_size args; Prop_NotBefore := now; Prop_NotAfter := now + Minute |}.

Definition replaced_uncertain (previous : option string) : H bool :=
  match previous with
  | Some id => look host (fun l => X_uncertain (run_at l id) || X_unconfirmed (run_at l id))
  | None => ret false
  end.

(** The proposal, while the coordinator is open and the request alive. *)
Definition propose (me : Z) (cmd : Command) (sel : selection) (old : Operation) (previous : option string) : H Proposal :=
  let '(item, members, parts) := sel in
  let args := arguments cmd item members parts in
  refuse_if (MaxJSONBytes <? json_size args) ErrBounds ;;;
  let! now := ask (host_now host) in
  let! uncertain := replaced_uncertain previous in
  let! closing := call (host_closing host) Closing in
  let! ended := ctx_err host me in
  refuse_if (closing || is_some ended) ErrUnavailable ;;;
  ret (proposal cmd args old uncertain now).

(** The worker of an admission that is new and durable. *)
Definition start_worker (cmd : Command) (sel : selection) (previous : option string) (s : Snapshot) (a : Admission) : H (Operation * bool) :=
  let '(item, members, parts) := sel in
  let o := Adm_Operation a in
  if negb (Adm_Created a) then ret (o, false)
  else
    let! run := critical host (fun l =>
      let run := new_run o cmd s members parts (run_at l <$> previous) in
      (run, set_run (Op_ID o) (fun _ => run) l <| L_run := Some (Op_ID o) |>)) in
    note (Emitted o) ;;; note (Started run cmd item) ;;; ret (o, true).

Definition admit_and_start (me : Z) (r : Request) (cmd : Command) (sel : selection) (old : Operation)
    (previous : option string) (s : Snapshot) : H (Operation * bool) :=
  let! proposed := propose me cmd sel old previous in
  let! reply := call (host_admit host r proposed) (Asked r proposed) in
  let! a := of_result reply in start_worker cmd sel previous s a.

Definition started (out : Result (Operation * bool)) : bool := match out with Ok (_, b) => b | Err _ => false end.

(** From the revoked worker to its successor; a failure finishes the orphan,
    whose ID is the one that [refetch] left in the variable [old]. *)
Definition hand_over (fuel : nat) (me : Z) (r : Request) (cmd : Command) (sel : selection) (old : Operation) : H (Operation * bool) :=
  let! previous := revoke old in
  let! old := refetch old in
  deferred (fun out => if started out then ret tt else finish_orphan old previous) (
    let! target := cancel_target cmd previous in
    let! s := fresh_state fuel me cmd target in
    recheck_revision r cmd ;;;
    let! s := complete_state cmd (sel.2) s in
    admit_and_start me r cmd sel old previous s).

(** A busy player: only a Skip of the same buffered playback is taken. *)
Definition busy_owner (me : Z) (r : Request) (cmd : Command) (old : Operation) : H (Operation * bool) :=
  let! owner := look host (fun l => (fun id => (id, is_some (X_buffered (run_at l id)))) <$> L_run l) in
  match owner with
  | Some (id, buffered) =>
      if is_skip cmd && (id == Op_ID old) && buffered
      then let! o := submitBufferedSkip me id old r cmd in ret (o, false)
      else fail (ESentinel JErrBusy)
  | None => fail (ESentinel JErrBusy)
  end.

Definition admit_request (fuel : nat) (me : Z) (r : Request) (cmd : Command) : H (Operation * bool) :=
  let! known := lookup host r in
  if negb (missing known) then let! o := of_result known in ret (o, false)
  else
    precheck r cmd ;;;
    let! sel := select_media me cmd in
    let! owner := find_owner r cmd in
    match owner with
    | Some old =>
        if negb (urgent cmd) && negb (Cmd_Takeover cmd) then busy_owner me r cmd old
        else
          refuse_if ((Cmd_Kind cmd == CommandKindCancel) && ((Op_ID old != Cmd_Target cmd) || (Op_Phase old == "cancelling"))) ErrOwnership ;;;
          hand_over fuel me r cmd sel old
    | None =>
        refuse_if ((Cmd_Kind cmd == CommandKindCancel) && ("" != Cmd_Target cmd)) ErrOwnership ;;;
        hand_over fuel me r cmd sel Operation_zero
    end.

(** *** [Submit] *)

Definition submit_urgent (fuel : nat) (me : Z) (r : Request) (cmd : Command) : H (Operation * bool) :=
  refuse_if (negb (Cfg_WritesEnabled p)) ErrReadOnly ;;;
  take_gate PriorityGate ;;;
  deferred (fun out => if started out then ret tt else release cmd) (
    deferred (fun _ => leave_gate PriorityGate) (
      enter cmd ;;;
      wait_gate ;;;
      deferred (fun _ => leave_gate Gate) (admit_request fuel me r cmd))).

Definition stop_admitting (me : Z) : H unit :=
  change host (fun l => l <| L_stopped := {[me]} ∪ L_stopped l |> <| L_admitting := None |>) ;;; note (Left Admitting).

Definition submit_ordinary (fuel : nat) (me : Z) (r : Request) (cmd : Command) : H (Operation * bool) :=
  take_gate Gate ;;;
  deferred (fun _ => leave_gate Gate) (
    let! blocked := critical host (fun l =>
      if (0 <? L_priority l) && negb (Cmd_Takeover cmd) then (true, l) else (false, l <| L_admitting := Some me |>)) in
    refuse_if blocked ErrQueueFull ;;; note (Took Admitting) ;;;
    deferred (fun _ => stop_admitting me) (admit_request fuel me r cmd)).

Definition Submit (fuel : nat) (me : Z) (r : Request) (cmd : Command) : H Operation :=
  let! known := lookup host r in
  if negb (missing known) then of_result known
  else if Req_Player r != key then fail (ESentinel ErrUnavailable)
  else
    let! out := if urgent cmd then submit_urgent fuel me r cmd else submit_ordinary fuel me r cmd in
    ret out.1.
End submit.
