(* ===== verification/Hosts.v ===== *)
(** * Concrete hosts

    Small hosts and requests on which the witnesses run the admission: one
    player that plays, one journal that admits what it is asked, and a music
    server with one album. *)

From S2P Require Import Prelude GoStd Values Model Diagnostics Errors Events State QueuePolicy.
From S2P Require Import QueueStart QueueOps Evidence Command Json JournalModel Execution Views Lane Select Submit.

(** One player that plays, one journal that admits what it is asked. *)
Definition sample_operation : Operation := Operation_zero <| Op_ID := "op-1" |> <| Op_Phase := "accepted" |>.
Definition host_with (known active : Result Operation) (get : string -> Result Operation) (ended : option error)
    (browse : ID -> ID -> Result (list Item)) (resolve : option (string -> Result Item)) : Host unit := {|
  host_others := fun l e => (l, e); host_ended := fun e => (None, e); host_gate := fun e => (None, e);
  host_done := fun _ e => (ended, e); host_fired := fun _ e => (false, e); host_now := fun e => (Second, e);
  host_wait := fun _ e => (None, e); host_stopped := fun e => (None, e); host_closing := fun e => (false, e);
  host_snapshot := fun _ e => (sample_snapshot PlayStatePlay sample_first, e); host_refresh := fun _ _ e => (None, e);
  host_view := fun _ e => ({| View_Token := Token_zero; View_Connected := true |}, e);
  host_player_view := fun _ _ e => ({| View_Token := Token_zero; View_Connected := true |}, e);
  host_page := fun _ _ _ _ e => (Err (ESentinel ErrProtocol), e); host_browse := fun _ s c e => (browse s c, e);
  host_resolve := fun _ => (fun f _ ref e => (f ref, e)) <$> resolve; host_lookup := fun _ e => (known, e);
  host_active := fun _ e => (active, e); host_get := fun id e => (get id, e);
  host_admit := fun _ _ e => (Ok {| Adm_Operation := sample_operation; Adm_Created := true; Adm_RecoveredCommit := false |}, e) |}.
Definition unbrowsable (source container : ID) : Result (list Item) := Err (ESentinel ErrProtocol).
Definition unknown : Result Operation := Err (ESentinel JErrNotFound).
Definition sample_host : Host unit := host_with unknown unknown (fun _ => unknown) None unbrowsable None.
Definition sample_owner (id : string) : Operation := Operation_zero <| Op_ID := id |> <| Op_Principal := "alice" |>.

Definition sample_lane : lane := {|
  L_priorityGate := false; L_gate := false; L_priority := 0; L_priorityMode := 0; L_admitting := None; L_stopped := ∅;
  L_run := None; L_runs := ∅ |}.
Definition sample_request : Request := {|
  Req_Principal := "alice"; Req_Method := "PUT"; Req_Endpoint := "/volume"; Req_Key := "k"; Req_Player := Cfg_Key sample_config;
  Req_IfMatch := quoted "e-d"; Req_Body := {| Raw_size := 0; Raw_utf8 := true; Raw_tokens := [] |} |}.
Definition sample_volume : Command := Command_zero <| Cmd_Kind := CommandKindVolume |> <| Cmd_Level := 10 |>.
(** A buffered playback that owns its queue, and its lane. *)
Definition sample_playback : execution := execution_zero <| X_id := "op-0" |> <| X_queueOwned := true |>
  <| X_expected := sample_snapshot PlayStatePlay sample_first |>
  <| X_buffered := Some {| BP_policy := Build_BufferedPlayback [] 1 2 0 1; BP_expires := 0; BP_pruned := 0 |} |>.
Definition busy_lane : lane := sample_lane <| L_run := Some "op-0" |> <| L_runs := {["op-0" := sample_playback]} |>.
Definition sample_skip : Command := Command_zero <| Cmd_Kind := CommandKindSkip |> <| Cmd_Direction := "next" |>.

Definition run_submit (host : Host unit) (l : lane) (cmd : Command) : Result Operation * request unit :=
  Submit host [sample_config] [] sample_config (fun _ => "d") (fun _ => 0) itoa "e" 5 1 sample_request cmd
    {| R_lane := l; R_host := tt; R_log := [] |}.

(** A music server with one album of two tracks, and the requests that play it. *)
Definition sample_source : SourceConfig := {| SrcCfg_Key := "lib"; SrcCfg_Player := "kitchen"; SrcCfg_Name := "Library" |}.
Definition sample_server : Item := Item_zero <| Item_Name := "Library" |> <| Item_Source := "s1" |> <| Item_Type := "heos_server" |>.
Definition sample_album : Item := Item_zero <| Item_Source := "s1" |> <| Item_ContainerID := "c1" |> <| Item_Container := "yes" |>.
Definition sample_song (mid : ID) : Item :=
  Item_zero <| Item_Source := "s1" |> <| Item_MediaID := mid |> <| Item_Playable := "yes" |> <| Item_Type := "song" |>.
Definition sample_library (source container : ID) : Result (list Item) :=
  if source == LocalMusic then Ok [sample_server] else Ok [sample_song "m1"; sample_song "m2"].
Definition music_host : Host unit :=
  host_with unknown unknown (fun _ => unknown) None sample_library (Some (fun _ => Ok sample_album)).
Definition sample_buffered : BufferedPlayback := Build_BufferedPlayback [2; 2; 2] 1 10 0 3600.
Definition sample_plan : Command := Command_zero <| Cmd_Kind := CommandKindPlayback |> <| Cmd_Repeat := RepeatOff |>
  <| Cmd_ItemRefs := Some ["a"; "b"; "c"] |> <| Cmd_Buffered := Some sample_buffered |>.
