(* ===== verification/SelectProps.v ===== *)
(** * A selection is exact and its walk ends

    What [resolvePlayback] hands to the admission: as many parts as references,
    all of one source, within the bounds, with the declared sizes; and a walk
    over nested containers that ends however they are nested. *)

From S2P Require Import Prelude GoStd Values Model Diagnostics Errors Events State QueuePolicy.
From S2P Require Import QueueStart QueueOps Evidence Command Json JournalModel Execution Views Lane Select Submit Hosts.

(** ** Results of a handler *)

Section results.
Context {E : Type}.

Definition results {A} (m : Handler E A) (P : A -> Prop) : Prop := forall q a q', m q = (Ok a, q') -> P a.

Lemma results_ret {A} (a : A) (P : A -> Prop) : P a -> results (ret a) P.
Proof. by intros H q b q' [= <- _]. Qed.
Lemma results_fail {A} (e : error) (P : A -> Prop) : results (fail e) P.
Proof. by intros q a q'. Qed.
Lemma results_bind {A B} (m : Handler E A) (k : A -> Handler E B) P1 P :
  results m P1 -> (forall a, P1 a -> results (k a) P) -> results (bind m k) P.
Proof.
  intros Hm Hk q b q'. unfold bind. destruct (m q) as [[a|e] q1] eqn:Hq; [|done].
  apply Hk. by eapply Hm.
Qed.
Lemma results_after {A B} (m : Handler E A) (k : A -> Handler E B) P : (forall a, results (k a) P) -> results (bind m k) P.
Proof. intros H. by apply (results_bind m k (fun _ => True)). Qed.
Lemma results_refuse_if (b : bool) s : results (refuse_if b s) (fun _ => b = false).
Proof. destruct b; [apply results_fail|by apply results_ret]. Qed.
Lemma results_when_error (o : option error) : results (when_error o) (fun _ => o = None).
Proof. destruct o; [apply results_fail|by apply results_ret]. Qed.
Lemma results_of_result {A} (r : Result A) : results (of_result r) (fun a => r = Ok a).
Proof. destruct r; [by apply results_ret|apply results_fail]. Qed.
Lemma results_weaken {A} (m : Handler E A) (P P' : A -> Prop) : results m P -> (forall a, P a -> P' a) -> results m P'.
Proof. intros H HP q a q' Hq. eapply HP, H, Hq. Qed.
End results.

(** ** Parts *)

(** A track as a part may hold it. *)
Definition playable (id : ID) : Prop := id <> "".

Lemma unplayable_false (track : Item) : unplayable track = false -> playable (Item_MediaID track).
Proof. unfold unplayable, playable. intros H. bsolve. Qed.

Lemma track_ids_from (sid : ID) (tracks : list Item) : forall acc ids,
  foldl (fun acc track =>
    let? ids := acc in
    if foreign sid track then Err (ESentinel ErrAmbiguous)
    else if (Item_Container track == "yes") || unplayable track then Err (ESentinel ErrBounds)
    else Ok (ids ++ [Item_MediaID track])) acc tracks = Ok ids ->
  exists before, acc = Ok before /\ exists more, ids = before ++ more /\ len more = len tracks /\ Forall playable more.
Proof.
  induction tracks as [|track tracks IH]; intros acc ids; cbn.
  { intros ->. exists ids. split; [done|]. exists []. by rewrite app_nil_r. }
  intros H. destruct (IH _ _ H) as (before & Hacc & more & -> & Hn & Hp). destruct acc as [first|e]; [|done]. cbn in Hacc.
  exists first. split; [done|]. destruct (foreign sid track); [done|].
  destruct (_ || unplayable track) eqn:Hu; [done|]. injection Hacc as <-.
  exists (Item_MediaID track :: more). rewrite <- app_assoc, !len_cons. split_and!; [done|lia|].
  constructor; [|done]. apply unplayable_false. by breflect.
Qed.

Lemma track_ids_exact (sid : ID) (tracks : list Item) (ids : list ID) :
  track_ids sid tracks = Ok ids -> len ids = len tracks /\ Forall playable ids.
Proof. intros H. destruct (track_ids_from _ _ _ _ H) as (before & [= <-] & more & -> & Hn & Hp). auto. Qed.

(** A prepared part, and the tracks of a list of parts. *)
Definition prepared (source : ID) (p : playbackPart) : Prop :=
  Item_Source (Part_Item p) = source /\ exists ids, Part_IDs p = Some ids /\ ids <> [] /\ Forall playable ids.
Definition tracks_of (parts : list playbackPart) : Z := foldr (fun p n => trackCount p + n) 0 parts.

Lemma tracks_of_app (l k : list playbackPart) : tracks_of (l ++ k) = tracks_of l + tracks_of k.
Proof. unfold tracks_of. induction l as [|x l IH]; cbn in *; lia. Qed.

Section exact.
Context {E : Type} (host : Host E) (devices : list PlayerConfig) (sources : list SourceConfig).

(** *** Ordered plans *)

Definition ordered_ok (sid : ID) (count : Z) (parts : list playbackPart) : Prop :=
  Forall (prepared sid) parts /\ tracks_of parts = count /\ count <= MaxBrowseItems.

Lemma ordered_parts_spec (d : PlayerConfig) (refs : list string) : forall sid count parts,
  ordered_ok sid count parts -> (sid = "" -> parts = []) ->
  results (ordered_parts host devices sources d refs sid count parts) (fun out =>
    length out = (length parts + length refs)%nat /\ exists sid count, ordered_ok sid count out).
Proof.
  induction refs as [|ref refs IH]; intros sid count parts Hok Hsid; cbn.
  { apply results_ret. split; [lia|eauto]. }
  apply results_after. intros item. eapply results_bind; [apply results_refuse_if|]. intros [] Hsrc.
  apply results_after. intros tracks. eapply results_bind; [apply results_refuse_if|]. intros [] Hn.
  eapply results_bind; [apply results_of_result|]. intros ids Hids.
  destruct (track_ids_exact _ _ _ Hids) as [Hlen Hp]. breflect.
  assert (Hsame : parts = [] \/ Item_Source item = sid) by (destruct_or?; [left; auto|by right]).
  eapply results_weaken; [apply IH|].
  - destruct Hok as (Hf & Ht & Hc). split_and!.
    + apply Forall_app. split; [|constructor; [|constructor]].
      * destruct Hsame as [-> | ->]; [constructor|done].
      * split; [done|]. exists ids. split_and!; try done. intros ->. unfold len in *. cbn in *. lia.
    + rewrite tracks_of_app, Ht. unfold tracks_of, trackCount, part_ids. cbn. lia.
    + lia.
  - done.
  - cbn. intros out [Hl Hex]. split; [|done]. rewrite Hl, length_app. cbn. lia.
Qed.

(** *** Buffered plans *)

(** A declared part of one catalogue, whose content is not read yet. *)
Definition declared (source : ID) (token : Token) (n : Z) (p : playbackPart) : Prop :=
  Item_Source (Part_Item p) = source /\ Part_Count p = n /\ Part_CatalogToken p = token.

Definition unread (p : playbackPart) : Prop := Part_IDs p = None.

Lemma buffered_parts_spec (resolve : ID -> string -> E -> Result Item * E) sid token refs : forall tracks actual parts sizes,
  Forall2 (declared actual token) sizes parts -> Forall unread parts -> (actual = "" -> parts = []) ->
  results (buffered_parts resolve sid token refs tracks actual parts) (fun out =>
    forall parts', out = Some parts' -> exists source, Forall2 (declared source token) (sizes ++ take (length refs) tracks) parts'
      /\ Forall unread parts').
Proof.
  induction refs as [|ref refs IH]; intros tracks actual parts sizes Hd Hu Hactual; cbn.
  { destruct tracks; cbn; apply results_ret; intros parts' [= <-]; exists actual; by rewrite app_nil_r. }
  destruct tracks as [|n tracks]; [apply results_fail|]. apply results_after. intros [item|e]; [|by apply results_ret].
  eapply results_bind; [apply results_refuse_if|]. intros [] Hbad. apply results_after. intros _.
  assert (Hsame : parts = [] \/ Item_Source item = actual).
  { unfold descriptor_bad in Hbad. breflect. destruct_or?; [left; auto|by right]. }
  assert (Hne : Item_Source item <> "") by (unfold descriptor_bad in Hbad; by breflect).
  eapply results_weaken; [apply (IH tracks _ _ (sizes ++ [n]))|].
  - apply Forall2_app.
    + destruct Hsame as [-> | ->]; [|done]. apply Forall2_nil_inv_r in Hd as ->. constructor.
    + constructor; [|constructor]. by split_and!.
  - apply Forall_app. split; [done|]. by constructor.
  - done.
  - intros out Hout parts' Hp. destruct (Hout parts' Hp) as (source & Hd' & Hl). exists source. split.
    + rewrite <- app_assoc in Hd'. done.
    + done.
Qed.

(** A part whose content was read has exactly the declared number of tracks. *)
Definition filled (p : playbackPart) : Prop :=
  exists ids, Part_IDs p = Some ids /\ len ids = Part_Count p /\ Forall playable ids.

Lemma prepare_part_spec me d deadline part :
  Part_IDs part = None ->
  results (prepare_part host me d deadline part) (fun p =>
    filled p /\ Part_Item p = Part_Item part /\ Part_Count p = Part_Count part /\ Part_CatalogToken p = Part_CatalogToken part).
Proof.
  intros Hnone. unfold prepare_part. apply results_after. intros view. apply results_after. intros _.
  rewrite Hnone. cbn. apply results_after. intros t. apply results_after. intros tracks.
  eapply results_bind; [apply results_refuse_if|]. intros [] Hn. eapply results_bind; [apply results_refuse_if|]. intros [] Hp.
  apply results_after. intros _. apply results_ret. split; [|done].
  exists (map Item_MediaID tracks). rewrite len_map. split_and!; [done|by breflect|].
  rewrite existsb_false in Hp. apply Forall_fmap. eapply Forall_impl; [exact Hp|].
  intros track Ht. apply unplayable_false. by breflect.
Qed.

Lemma prepare_first_spec n me d deadline source token : forall sizes parts,
  Forall2 (declared source token) sizes parts -> Forall unread parts ->
  results (prepare_first host n me d deadline parts) (fun out =>
    Forall2 (declared source token) sizes out /\ Forall filled (take n out)).
Proof.
  induction n as [|n IH]; intros sizes parts Hd Hu; cbn.
  { destruct parts; by apply results_ret. }
  destruct parts as [|part parts]; [by apply results_ret|].
  apply Forall2_cons_inv_r in Hd as (size & sizes' & (Hs & Hc & Ht) & Hd & ->). apply Forall_cons in Hu as [Hn Hu].
  eapply results_bind; [by apply prepare_part_spec|]. intros p (Hf & Hi & Hc' & Ht').
  eapply results_bind; [by apply IH|]. intros rest [Hd' Hf']. apply results_ret. split.
  - constructor; [|done]. split_and!; congruence.
  - cbn. by constructor.
Qed.

(** What the admission receives. *)
Definition first_part (item : Item) (members : gset ID) (parts : list playbackPart) : Prop :=
  exists first rest, parts = first :: rest /\ item = Part_Item first /\ members = idMembership (part_ids first).
Lemma first_selection_spec parts : results (first_selection (E := E) parts) (fun sel => sel.2 = parts /\ first_part sel.1.1 sel.1.2 sel.2).
Proof.
  destruct parts as [|part parts]; [apply results_fail|]. apply results_ret. split; [done|]. by exists part, parts.
Qed.

Definition buffered_exact (refs : list string) (tracks : list Z) (parts : list playbackPart) : Prop :=
  exists source token, Forall2 (declared source token) (take (length refs) tracks) parts /\ Forall filled (take 2 parts).

Lemma buffered_from_spec me d deadline token refs tracks rest : forall e,
  results (buffered_from host devices sources me d deadline token refs tracks rest e)
    (fun sel => buffered_exact refs tracks sel.2 /\ first_part sel.1.1 sel.1.2 sel.2).
Proof.
  induction rest as [|source rest IH]; intros e; cbn; [apply results_fail|].
  case_if; [apply IH|]. apply results_after. intros [[[c d'] sid]|x]; [|apply IH].
  destruct (host_resolve host _) as [resolve|]; [|apply IH].
  eapply results_bind; [apply (buffered_parts_spec resolve sid token refs tracks "" [] []); by constructor|].
  intros [parts|] Hparts; [|apply IH]. destruct (Hparts parts eq_refl) as (src & Hd & Hu). cbn in Hd.
  eapply results_bind; [exact (prepare_first_spec 2 me d deadline src token _ parts Hd Hu)|]. intros out [Hd' Hf]. apply results_after. intros _.
  eapply results_weaken; [apply first_selection_spec|]. intros sel [-> Hsel]. split; [|done]. by exists src, token.
Qed.

(** *** One item *)

Lemma children_from (source : ID) (depth : Z) (children : list Item) : forall acc tracks todo,
  foldl (fun acc child =>
    let? acc := acc in
    let '(tracks, todo) := acc in
    if foreign source child then Err (ESentinel ErrAmbiguous)
    else if Item_Container child == "yes" then
      if Item_ContainerID child == "" then Err (ESentinel ErrBounds)
      else Ok (tracks, todo ++ [(Item_ContainerID child, depth + 1)])
    else if unplayable child then Err (ESentinel ErrBounds)
    else Ok (tracks ++ [Item_MediaID child], todo)) acc children = Ok (tracks, todo) ->
  exists before, acc = Ok before /\ (Forall playable before.1 -> Forall playable tracks).
Proof.
  induction children as [|child children IH]; intros acc tracks todo; cbn.
  { intros ->. by eexists. }
  intros H. destruct (IH _ _ _ H) as (next & Hacc & Hp). destruct acc as [[l k]|e]; [|done]. cbn in Hacc.
  exists (l, k). split; [done|]. intros Hl. apply Hp. revert Hacc.
  repeat case_if; try done; intros [= <-]; cbn; [done|]. apply Forall_app. split; [done|].
  constructor; [|constructor]. by apply unplayable_false.
Qed.

Lemma members_loop_spec fuel d source : forall todo seen count members,
  set_Forall playable members ->
  results (members_loop host fuel d source todo seen count members) (set_Forall playable).
Proof.
  induction fuel as [|fuel IH]; intros [|[cid depth] todo] seen count members Hm; cbn;
    try (by apply results_ret); [apply results_fail|].
  case_if; [apply results_fail|]. apply results_after. intros children. case_if; [apply results_fail|].
  eapply results_bind; [apply results_of_result|]. intros [tracks more] Hc. apply IH.
  destruct (children_from _ _ _ _ _ _ Hc) as (before & [= <-] & Hp).
  apply set_Forall_union; [|done]. intros id Hid%elem_of_list_to_set. specialize (Hp (List.Forall_nil _)).
  rewrite Forall_forall in Hp. by apply Hp.
Qed.

Lemma resolve_from_spec d ref rest : forall e,
  results (resolve_from host devices sources d ref rest e) (fun item => Item_Container item = "yes" \/ playable (Item_MediaID item)).
Proof.
  induction rest as [|source rest IH]; intros e; cbn; [apply results_fail|].
  case_if; [apply IH|]. apply results_after. intros [[[c d'] sid]|x]; [|apply IH].
  destruct (host_resolve host _) as [resolve|]; [|apply IH]. apply results_after. intros [item|x]; [|apply IH].
  eapply results_weaken; [apply results_of_result|]. unfold item_checked. intros out.
  repeat case_if; try done; intros [= <-]; breflect; [by left|right]. by apply unplayable_false.
Qed.

Lemma playableMembers_spec d item :
  Item_Container item = "yes" \/ playable (Item_MediaID item) ->
  results (playableMembers host d item) (fun members => members <> ∅ /\ set_Forall playable members).
Proof.
  intros Hi. unfold playableMembers. case_if.
  - apply results_ret. destruct Hi as [Hi|Hi]; [bsolve|]. split; [set_solver|]. by apply set_Forall_singleton.
  - apply results_after. intros before. eapply results_bind; [by apply members_loop_spec; apply set_Forall_empty|].
    intros members Hm. apply results_after. intros view. apply results_after. intros _.
    eapply results_bind; [apply results_refuse_if|]. intros [] Hne. apply results_ret. split; [by breflect|done].
Qed.
End exact.

(** A buffered command that validates names as many references as part sizes. *)
Lemma selection_validated cmd b :
  validatePlaybackSelection cmd = None -> Cmd_Buffered cmd = Some b ->
  exists refs, Cmd_ItemRefs cmd = Some refs /\ length (Buf_PartTracks b) = length refs.
Proof.
  unfold validatePlaybackSelection. intros Hv Hb. rewrite Hb in Hv. case_if; [done|].
  destruct (Cmd_ItemRefs cmd) as [refs|] eqn:Hr; [|done]. cbn in Hv.
  destruct (BufferedPlayback_validate b cmd) eqn:Hval; [done|].
  apply BufferedPlayback_validate_none in Hval as (_ & _ & _ & _ & (refs' & Hr' & Hl) & _). exists refs. split; [done|].
  rewrite Hr in Hr'. by injection Hr' as <-.
Qed.

(** Any fuel that covers the containers still to be seen gives the same walk. *)
Lemma members_loop_enough {E} (host : Host E) d source f1 : forall f2 todo seen count members q,
  (101 <= f1 + size seen)%nat -> (101 <= f2 + size seen)%nat -> (size seen <= 100)%nat ->
  members_loop host f1 d source todo seen count members q = members_loop host f2 d source todo seen count members q.
Proof.
  induction f1 as [|f1 IH]; intros f2 todo seen count members q H1 H2 Hs; [lia|].
  destruct f2 as [|f2]; [lia|]. destruct todo as [|[cid depth] todo]; [done|]. cbn [members_loop]. case_if; [done|].
  breflect. assert (Hsize : size ({[cid]} ∪ seen) = S (size seen)) by (rewrite size_union, size_singleton by set_solver; done).
  unfold MaxBrowsePages in *. unfold bind. destruct (browse_all host _ source cid q) as [[children|e] q1]; [|done].
  case_if; [done|]. destruct (of_result _ q1) as [[tracks|e] q2]; [|done]. apply IH; rewrite ?Hsize; lia.
Qed.


(** The buffered plan of three albums, two tracks each. *)
Definition sample_selection : Result selection * request unit :=
  resolvePlayback music_host [sample_config] [sample_source] 1 sample_config sample_plan
    {| R_lane := sample_lane; R_host := tt; R_log := [] |}.
Definition sample_parts : list playbackPart := match sample_selection.1 with Ok sel => sel.2 | Err _ => [] end.


(** The walk over a container ends.  However the containers of a source are
    nested, and even if they contain one another, the breadth-first walk needs
    at most a hundred and one visits: more fuel than [playableMembers] gives it
    never changes what it does. *)
Theorem members_terminate {E} (host : Host E) d source cid more q :
  let fuel := S (Z.to_nat MaxBrowsePages) in
  members_loop host (fuel + more) d source [(cid, 0)] ∅ 0 ∅ q = members_loop host fuel d source [(cid, 0)] ∅ 0 ∅ q.
Proof. cbn zeta. apply members_loop_enough; vm_compute; lia. Qed.
