(* ===== verification/SubmitSafety.v ===== *)
(** * A logic for requests

    [spec m Q]: whatever the host does, [m] appends steps to the log that
    satisfy [Q] together with its result.  [reads m] says that it only reads;
    the checks of [Submit] also tell what holds when they let a request pass. *)

From S2P Require Import Prelude GoStd Values Model Diagnostics Errors Events State QueuePolicy.
From S2P Require Import QueueStart QueueOps Evidence Command Json JournalModel Execution Views Lane Select Submit.

Section logic.
Context {E : Type} (host : Host E).

Definition spec {A} (m : Handler E A) (Q : list step -> Result A -> Prop) : Prop :=
  forall q, exists steps, R_log (m q).2 = R_log q ++ steps /\ Q steps (m q).1.

Lemma req_weaken {A} (m : Handler E A) (Q Q' : list step -> Result A -> Prop) :
  spec m Q -> (forall steps out, Q steps out -> Q' steps out) -> spec m Q'.
Proof. intros H HQ q. destruct (H q) as (steps & Hl & Hq). eauto. Qed.

Lemma req_ret {A} (a : A) (Q : list step -> Result A -> Prop) : Q [] (Ok a) -> spec (ret a) Q.
Proof. intros H q. exists []. cbn. by rewrite app_nil_r. Qed.

Lemma req_fail {A} (e : error) (Q : list step -> Result A -> Prop) : Q [] (Err e) -> spec (fail e) Q.
Proof. intros H q. exists []. cbn. by rewrite app_nil_r. Qed.

(** The continuation may use what the first program established. *)
Lemma req_bind {A B} (m : Handler E A) (k : A -> Handler E B) Q1 Q :
  spec m Q1 ->
  (forall steps e, Q1 steps (Err e) -> Q steps (Err e)) ->
  (forall a steps, Q1 steps (Ok a) -> spec (k a) (fun more out => Q (steps ++ more) out)) ->
  spec (bind m k) Q.
Proof.
  intros Hm He Hk q. unfold bind. destruct (Hm q) as (steps & Hl & Hq).
  destruct (m q) as [[a|e] q1]; cbn in *; [|by exists steps; auto].
  destruct (Hk a steps Hq q1) as (more & Hl' & Hq'). exists (steps ++ more).
  split; [|done]. by rewrite Hl', Hl, app_assoc.
Qed.

Lemma req_assoc {A B C} (m : Handler E A) (f : A -> Handler E B) (k : B -> Handler E C) Q :
  spec (bind (bind m f) k) Q -> spec (bind m (fun a => bind (f a) k)) Q.
Proof. intros H q. specialize (H q). unfold bind in *. by destruct (m q) as [[a|e] q1]. Qed.

Lemma req_attempt {A} (m : Handler E A) (Q : list step -> Result (Result A) -> Prop) :
  spec m (fun steps out => Q steps (Ok out)) -> spec (attempt m) Q.
Proof. intros H q. destruct (H q) as (steps & Hl & Hq). unfold attempt. destruct (m q). cbn in *. eauto. Qed.

Lemma req_deferred {A} (cleanup : Result A -> Handler E unit) (m : Handler E A) Q1 Q :
  spec m Q1 ->
  (forall out steps, Q1 steps out -> spec (cleanup out) (fun more _ => Q (steps ++ more) out)) ->
  spec (deferred cleanup m) Q.
Proof.
  intros Hm Hc q. unfold deferred. destruct (Hm q) as (steps & Hl & Hq).
  destruct (m q) as [out q1]; cbn in *. destruct (Hc out steps Hq q1) as (more & Hl' & Hq').
  exists (steps ++ more). split; [|done]. by rewrite Hl', Hl, app_assoc.
Qed.

Lemma req_critical {A} (f : lane -> A * lane) (Q : list step -> Result A -> Prop) :
  (forall l, Q [] (Ok (f l).1)) -> spec (critical host f) Q.
Proof.
  intros H q. exists []. unfold critical. destruct host_others as [l e].
  destruct (f l) as [a l'] eqn:Hf. cbn. rewrite app_nil_r. split; [done|]. specialize (H l). by rewrite Hf in H.
Qed.

(** A critical section neither fails nor logs. *)
Lemma req_section {A B} (f : lane -> A * lane) (k : A -> Handler E B) (Q : list step -> Result B -> Prop) :
  (forall a, spec (k a) Q) -> spec (bind (critical host f) k) Q.
Proof.
  intros Hk. eapply (req_bind _ _ (fun steps out => steps = [] /\ exists a, out = Ok a)).
  - apply req_critical. eauto.
  - by intros ? ? (_ & ? & ?).
  - intros a ? [-> _]. apply Hk.
Qed.

Lemma req_ask {A} (f : E -> A * E) (Q : list step -> Result A -> Prop) :
  (forall a, Q [] (Ok a)) -> spec (ask f) Q.
Proof. intros H q. exists []. unfold ask. destruct (f _) as [a e]. cbn. by rewrite app_nil_r. Qed.

Lemma req_note (s : step) (Q : list step -> Result unit -> Prop) : Q [s] (Ok tt) -> spec (note s) Q.
Proof. intros H q. by exists [s]. Qed.

Lemma req_call {A} (f : E -> A * E) (s : A -> step) (Q : list step -> Result A -> Prop) :
  (forall a, Q [s a] (Ok a)) -> spec (call f s) Q.
Proof.
  intros H. unfold call. apply (req_bind _ _ (fun steps out => steps = [] /\ exists a, out = Ok a)).
  { apply req_ask. eauto. }
  { by intros ? ? [_ [? ?]]. }
  intros a steps [-> _]. apply (req_bind _ _ (fun steps out => steps = [s a] /\ exists u, out = Ok u)).
  { apply req_note. eauto. }
  { by intros ? ? [_ [? ?]]. }
  intros [] ? [-> _]. apply req_ret. apply H.
Qed.

(** ** Programs whose steps are of one kind *)

Definition emits (ok : step -> Prop) {A} (m : Handler E A) : Prop := spec m (fun steps _ => Forall ok steps).

Section emits.
Context (ok : step -> Prop).

Lemma only_ret {A} (a : A) : emits ok (ret a).
Proof. apply req_ret. constructor. Qed.
Lemma only_fail {A} (e : error) : emits ok (@fail E A e).
Proof. apply req_fail. constructor. Qed.
Lemma only_bind {A B} (m : Handler E A) (k : A -> Handler E B) :
  emits ok m -> (forall a, emits ok (k a)) -> emits ok (bind m k).
Proof.
  intros Hm Hk. eapply req_bind; [apply Hm|done|]. intros a steps Hs.
  eapply req_weaken; [apply Hk|]. intros more ? Hmore. by apply Forall_app.
Qed.
Lemma only_attempt {A} (m : Handler E A) : emits ok m -> emits ok (attempt m).
Proof. intros Hm. by apply req_attempt. Qed.
Lemma only_deferred {A} (c : Result A -> Handler E unit) (m : Handler E A) :
  emits ok m -> (forall out, emits ok (c out)) -> emits ok (deferred c m).
Proof.
  intros Hm Hc. eapply req_deferred; [apply Hm|]. intros out steps Hs.
  eapply req_weaken; [apply Hc|]. intros more ? Hmore. by apply Forall_app.
Qed.
Lemma only_critical {A} (f : lane -> A * lane) : emits ok (critical host f).
Proof. apply req_critical. constructor. Qed.
Lemma only_look {A} (f : lane -> A) : emits ok (look host f).
Proof. apply only_critical. Qed.
Lemma only_change f : emits ok (change host f).
Proof. apply only_critical. Qed.
Lemma only_ask {A} (f : E -> A * E) : emits ok (ask f).
Proof. apply req_ask. constructor. Qed.
Lemma only_note (s : step) : ok s -> emits ok (note s).
Proof. intros H. apply req_note. by constructor. Qed.
Lemma only_call {A} (f : E -> A * E) (s : A -> step) : (forall a, ok (s a)) -> emits ok (call f s).
Proof. intros H. apply req_call. intros a. by constructor. Qed.
Lemma only_when_error (o : option error) : emits ok (when_error o).
Proof. destruct o; [apply only_fail|apply only_ret]. Qed.
Lemma only_refuse_if (b : bool) s : emits ok (refuse_if b s).
Proof. destruct b; [apply only_fail|apply only_ret]. Qed.
Lemma only_of_result {A} (r : Result A) : emits ok (of_result r).
Proof. destruct r; [apply only_ret|apply only_fail]. Qed.
End emits.

(** A check that passes says so. *)
Lemma req_refuse_if (b : bool) s (Q : list step -> Result unit -> Prop) :
  (b = true -> Q [] (Err (ESentinel s))) -> (b = false -> Q [] (Ok tt)) -> spec (refuse_if b s) Q.
Proof. destruct b; intros H H'; [apply req_fail|apply req_ret]; auto. Qed.
Lemma req_when_error (o : option error) (Q : list step -> Result unit -> Prop) :
  (forall e, o = Some e -> Q [] (Err e)) -> (o = None -> Q [] (Ok tt)) -> spec (when_error o) Q.
Proof. destruct o; intros H H'; [apply req_fail|apply req_ret]; auto. Qed.
Lemma req_of_result {A} (r : Result A) (Q : list step -> Result A -> Prop) : Q [] r -> spec (of_result r) Q.
Proof. destruct r; intros H; [by apply req_ret|by apply req_fail]. Qed.
End logic.

Arguments emits {E} ok {A} m.
#[global] Arguments spec : simpl never.

Create HintDb requests.
#[export] Hint Resolve only_ret only_fail only_attempt only_critical only_look only_change only_ask only_when_error
  only_refuse_if only_of_result : requests.

(** One step of the structural walk over a program that only reads. *)
Ltac emit_step :=
  first
  [ solve [auto with requests]
  | progress intros
  | lazymatch goal with |- emits _ (bind _ _) => apply only_bind; [|intros] end
  | match goal with
    | |- emits _ (match ?x with _ => _ end) => destruct x eqn:?
    | |- emits _ (if ?x then _ else _) => destruct x eqn:?
    | |- emits _ (let '_ := ?x in _) => destruct x eqn:?
    end ].
Ltac emit_walk := repeat emit_step.

(** Reads of the journal, the device and the catalogue. *)
Definition reading (s : step) : Prop :=
  match s with
  | Looked _ | Versioned _ | Saw _ | Refreshed _ | Paged _ _ _ | Browsed _ _ _ | Owner _ | Fetched _ _
  | Closing _ | Waited _ _ => True
  | _ => False
  end.

Section reading.
Context {E : Type} (host : Host E) (devices : list PlayerConfig) (sources : list SourceConfig) (p : PlayerConfig).
Context (digest : json -> string) (time_text : Time -> string) (epoch : string).
Local Abbreviation R := (@emits E reading).

Lemma reads_observe k : R (observe host k).
Proof. by apply only_call. Qed.
Lemma reads_refresh k t : R (refresh host k t).
Proof. by apply only_call. Qed.
Lemma reads_closing : R (call (host_closing host) Closing).
Proof. by apply only_call. Qed.
Lemma reads_client_view k : R (client_view host k).
Proof. apply only_ask. Qed.
Lemma reads_lookup r : R (lookup host r).
Proof. by apply only_call. Qed.
Lemma reads_browse_all k s c : R (browse_all host k s c).
Proof. apply only_bind; [by apply only_call|intros; auto with requests]. Qed.
Lemma reads_queue_page k i s l : R (queue_page host k i s l).
Proof. apply only_bind; [by apply only_call|intros; auto with requests]. Qed.
Lemma reads_ctx_err me : R (ctx_err host me).
Proof. unfold ctx_err, look. emit_walk. Qed.
#[local] Hint Resolve reads_observe reads_refresh reads_client_view reads_lookup reads_browse_all
  reads_queue_page reads_ctx_err : requests.
Lemma reads_ctx_err_until me d : R (ctx_err_until host me d).
Proof. unfold ctx_err_until. emit_walk. Qed.
#[local] Hint Resolve reads_ctx_err_until : requests.

(** *** Selection *)

Lemma reads_resolveSource k : R (resolveSource host devices sources k).
Proof. unfold resolveSource. emit_walk. Qed.
#[local] Hint Resolve reads_resolveSource : requests.
Lemma reads_resolve_from d ref rest : forall e, R (resolve_from host devices sources d ref rest e).
Proof. induction rest as [|source rest IH]; intros e; cbn; emit_walk. Qed.
Lemma reads_resolveItem d ref : R (resolveItem host devices sources d ref).
Proof. apply reads_resolve_from. Qed.
#[local] Hint Resolve reads_resolveItem : requests.
Lemma reads_members_loop fuel d source : forall todo seen count members,
  R (members_loop host fuel d source todo seen count members).
Proof. induction fuel as [|fuel IH]; intros [|[cid depth] todo] seen count members; cbn; emit_walk. Qed.
#[local] Hint Resolve reads_members_loop : requests.
Lemma reads_playableMembers d item : R (playableMembers host d item).
Proof. unfold playableMembers. emit_walk. Qed.
Lemma reads_part_tracks d item : R (part_tracks host d item).
Proof. unfold part_tracks. emit_walk. Qed.
Lemma reads_same_catalogue me d t k : R (same_catalogue host me d t k).
Proof. unfold same_catalogue. emit_walk. Qed.
#[local] Hint Resolve reads_playableMembers reads_part_tracks reads_same_catalogue : requests.
Lemma reads_ordered_parts d refs : forall sid count parts, R (ordered_parts host devices sources d refs sid count parts).
Proof. induction refs as [|ref refs IH]; intros sid count parts; cbn; emit_walk. Qed.
Lemma reads_first_selection parts : R (first_selection parts).
Proof. unfold first_selection. emit_walk. Qed.
Lemma reads_buffered_parts resolve sid token refs : forall tracks actual parts,
  R (buffered_parts resolve sid token refs tracks actual parts).
Proof. induction refs as [|ref refs IH]; intros [|n tracks] actual parts; cbn; emit_walk. Qed.
Lemma reads_prepare_part me d t part : R (prepare_part host me d t part).
Proof. unfold prepare_part. emit_walk. Qed.
#[local] Hint Resolve reads_ordered_parts reads_first_selection reads_buffered_parts reads_prepare_part : requests.
Lemma reads_prepare_first n me d t : forall parts, R (prepare_first host n me d t parts).
Proof. induction n as [|n IH]; intros [|part parts]; cbn; emit_walk. Qed.
#[local] Hint Resolve reads_prepare_first : requests.
Lemma reads_buffered_from me d t k refs tracks rest : forall e,
  R (buffered_from host devices sources me d t k refs tracks rest e).
Proof. induction rest as [|source rest IH]; intros e; cbn; emit_walk. Qed.
#[local] Hint Resolve reads_buffered_from : requests.
Lemma reads_resolvePlayback me d cmd : R (resolvePlayback host devices sources me d cmd).
Proof. unfold resolvePlayback, resolveBufferedPlayback. emit_walk. Qed.
#[local] Hint Resolve reads_resolvePlayback : requests.

(** *** The checks of [Submit] *)

Lemma reads_select_media me cmd : R (select_media host devices sources p me cmd).
Proof. unfold select_media. emit_walk. Qed.
Lemma reads_revision_now player : R (revision_now host devices digest time_text epoch player).
Proof. unfold revision_now. emit_walk. by apply only_note. Qed.
Lemma reads_more_pages fuel s : forall page, R (more_pages host p fuel s page).
Proof. induction fuel as [|fuel IH]; intros page; cbn; emit_walk. Qed.
#[local] Hint Resolve reads_more_pages reads_revision_now : requests.
Lemma reads_whole_snapshot s : R (whole_snapshot host p s).
Proof. unfold whole_snapshot. emit_walk. Qed.
#[local] Hint Resolve reads_whole_snapshot : requests.
Lemma reads_refresh_until fuel me t : R (refresh_until host p fuel me t).
Proof. induction fuel as [|fuel IH]; cbn; emit_walk. Qed.
Lemma reads_owned_by id expected fresh : R (owned_by host p id expected fresh).
Proof. unfold owned_by, look. emit_walk. Qed.
Lemma reads_cancel_target cmd previous : R (cancel_target host cmd previous).
Proof. unfold cancel_target, look. emit_walk. Qed.
Lemma reads_refetch old : R (refetch host old).
Proof. unfold refetch. emit_walk. by apply only_call. Qed.
Lemma reads_find_owner r cmd : R (find_owner host r cmd).
Proof. unfold find_owner. emit_walk. by apply only_call. Qed.
Lemma reads_replaced_uncertain previous : R (replaced_uncertain host previous).
Proof. unfold replaced_uncertain, look. emit_walk. Qed.
Lemma reads_checks cmd s : R (busy_check cmd s) /\ R (level_check p cmd) /\ R (ceiling_check p cmd s).
Proof. unfold busy_check, level_check, ceiling_check. split_and!; emit_walk. Qed.
End reading.

#[export] Hint Resolve reads_closing reads_observe reads_refresh reads_client_view reads_lookup reads_browse_all
  reads_queue_page reads_ctx_err reads_ctx_err_until reads_resolvePlayback reads_select_media reads_revision_now
  reads_whole_snapshot reads_refresh_until reads_owned_by reads_cancel_target reads_refetch reads_find_owner
  reads_replaced_uncertain : requests.

(** ** What the checks establish *)

(** The queue of a state may have been completed since it was read. *)
Definition same_device (v s : Snapshot) : Prop := s = v <| Snap_Queue := Snap_Queue s |>.

Lemma same_device_refl (v : Snapshot) : same_device v v.
Proof. by destruct v. Qed.
Lemma same_device_queue (v : Snapshot) (q : QueuePage) : same_device v (v <| Snap_Queue := q |>).
Proof. by destruct v. Qed.
Lemma same_device_trans (u v s : Snapshot) : same_device u v -> same_device v s -> same_device u s.
Proof. unfold same_device. intros -> ->. by destruct u. Qed.
#[export] Hint Resolve same_device_refl same_device_queue : requests.

Section checks.
Context {E : Type} (host : Host E) (devices : list PlayerConfig) (sources : list SourceConfig) (p : PlayerConfig).
Context (digest : json -> string) (time_text : Time -> string) (epoch : string).

(** A reading program and what its result tells. *)
Definition yields {A} (m : Handler E A) (P : list step -> A -> Prop) : Prop :=
  spec m (fun steps out => Forall reading steps /\ match out with Ok a => P steps a | Err _ => True end).

Lemma gives_weaken {A} (m : Handler E A) (P P' : list step -> A -> Prop) :
  yields m P -> (forall steps a, P steps a -> P' steps a) -> yields m P'.
Proof. intros H HP. eapply req_weaken; [apply H|]. intros steps [a|e] [Hs Ha]; auto. Qed.
Lemma gives_reads {A} (m : Handler E A) : emits reading m -> yields m (fun _ _ => True).
Proof. intros H. eapply req_weaken; [apply H|]. by intros steps [a|e]. Qed.
Lemma gives_ret {A} (a : A) (P : list step -> A -> Prop) : P [] a -> yields (ret a) P.
Proof. intros H. by apply req_ret. Qed.
Lemma gives_fail {A} (e : error) (P : list step -> A -> Prop) : yields (fail e) P.
Proof. by apply req_fail. Qed.
Lemma gives_bind {A B} (m : Handler E A) (k : A -> Handler E B) P1 P :
  yields m P1 -> (forall a steps, P1 steps a -> yields (k a) (fun more b => P (steps ++ more) b)) ->
  yields (bind m k) P.
Proof.
  intros Hm Hk. eapply req_bind; [apply Hm|done|]. intros a steps [Hs Ha].
  eapply req_weaken; [apply (Hk a steps Ha)|]. intros more out [Hmore Hout]. split; [|done]. by apply Forall_app.
Qed.
(** A program whose result does not matter. *)
Lemma gives_after {A B} (m : Handler E A) (k : A -> Handler E B) P :
  emits reading m -> (forall a steps, yields (k a) (fun more b => P (steps ++ more) b)) -> yields (bind m k) P.
Proof. intros Hm Hk. eapply gives_bind; [by apply gives_reads|]. auto. Qed.

Lemma gives_refuse_if (b : bool) s : yields (refuse_if b s) (fun steps _ => steps = [] /\ b = false).
Proof. by apply req_refuse_if. Qed.
Lemma gives_when_error (o : option error) : yields (when_error o) (fun steps _ => steps = [] /\ o = None).
Proof. by apply req_when_error. Qed.
Lemma gives_observe k : yields (observe host k) (fun steps s => steps = [Saw s]).
Proof. apply req_call. intros s. split; [|done]. by constructor. Qed.
Lemma gives_of_result {A} (r : Result A) : yields (of_result r) (fun steps a => steps = [] /\ r = Ok a).
Proof. apply req_of_result. split; [constructor|by destruct r]. Qed.

Local Abbreviation revision_now := (revision_now host devices digest time_text epoch).

Lemma revision_now_spec player : yields (revision_now player) (fun steps rev => Versioned rev ∈ steps).
Proof.
  unfold Submit.revision_now. apply gives_after; [auto with requests|]. intros d s1.
  apply gives_after; [auto with requests|]. intros v s2. intros q. eexists. split; [done|]. split.
  - by constructor.
  - set_solver.
Qed.

(** The precondition of a request names this revision. *)
Definition matches (r : Request) (steps : list step) : Prop :=
  exists rev, Versioned rev ∈ steps /\ Req_IfMatch r = quoted rev.

Lemma matches_app_r (r : Request) (before steps : list step) : matches r steps -> matches r (before ++ steps).
Proof. intros (rev & Hv & Hm). exists rev. split; [|done]. set_solver. Qed.
Lemma matches_app_l (r : Request) (steps after : list step) : matches r steps -> matches r (steps ++ after).
Proof. intros (rev & Hv & Hm). exists rev. split; [|done]. set_solver. Qed.

Lemma match_revision_spec r player :
  yields (let! rev := revision_now player in match_revision r rev) (fun steps _ => matches r steps).
Proof.
  eapply gives_bind; [apply revision_now_spec|]. intros rev steps Hv.
  eapply gives_weaken; [apply gives_refuse_if|]. intros more [] [-> Hm]. rewrite app_nil_r.
  exists rev. split; [done|]. by breflect.
Qed.

Definition level_allowed (cmd : Command) : Prop :=
  Cmd_Kind cmd = CommandKindVolume \/ Cmd_Kind cmd = CommandKindPlayback ->
  exists c, Cfg_VolumeCeiling p = Some c /\ Cmd_Level cmd <= c.

Lemma level_check_spec cmd : yields (level_check p cmd) (fun _ _ => level_allowed cmd).
Proof.
  eapply gives_weaken; [apply gives_refuse_if|]. intros steps [] [_ H] Hk. breflect.
  destruct (Cfg_VolumeCeiling p) as [c|]; [exists c; split; [done|]|]; destruct_or?; destruct Hk; congruence || bsolve.
Qed.

Lemma precheck_spec r cmd :
  yields (precheck host devices p digest time_text epoch r cmd) (fun steps _ =>
    submit_bounds cmd (Cfg_VolumeCeiling p) = None /\ level_allowed cmd /\ (urgent cmd = false -> matches r steps)).
Proof.
  unfold precheck. apply gives_after; [auto with requests|]. intros stopped s1.
  eapply gives_bind; [apply gives_when_error|]. intros [] s2 [-> _].
  eapply gives_bind; [apply gives_when_error|]. intros [] s3 [-> Hb].
  eapply (gives_bind _ _ (fun steps _ => urgent cmd = false -> matches r steps)).
  { destruct (urgent cmd); [by apply gives_ret|]. eapply gives_bind; [apply gives_refuse_if|].
    intros [] steps [-> _]. eapply gives_weaken; [apply match_revision_spec|]. by intros. }
  intros [] s4 Hm. apply gives_after; [auto with requests|]. intros v s5.
  apply gives_after; [destruct (urgent cmd); auto with requests|]. intros [] s6.
  apply gives_after; [apply reads_checks; exact p|]. intros [] s7.
  eapply gives_weaken; [apply level_check_spec|]. intros s8 [] Hl. split_and!; [done|done|].
  intros Hu. do 3 apply matches_app_r. apply matches_app_l. auto.
Qed.

Lemma whole_snapshot_spec s : yields (whole_snapshot host p s) (fun _ s' => same_device s s').
Proof.
  unfold whole_snapshot. destruct Queue_Next; [|apply gives_ret; auto with requests].
  apply gives_after; [apply reads_more_pages|]. intros q s1. destruct Queue_Total; [|apply gives_fail].
  apply gives_after; [auto with requests|]. intros [] s2. apply gives_after; [auto with requests|]. intros view s3.
  apply gives_after; [auto with requests|]. intros [] s4. apply gives_ret. auto with requests.
Qed.

(** Playing and unmuting start at a volume within the ceiling. *)
Definition within_ceiling (cmd : Command) (s : Snapshot) : Prop :=
  (Cmd_Kind cmd = CommandKindTransport /\ Cmd_State cmd = PlayStatePlay)
  \/ (Cmd_Kind cmd = CommandKindMute /\ Cmd_Muted cmd = false) ->
  exists v c, Snap_Volume s = Some v /\ Cfg_VolumeCeiling p = Some c /\ v <= c.

Lemma ceiling_check_spec cmd s : yields (ceiling_check p cmd s) (fun _ _ => within_ceiling cmd s).
Proof.
  unfold ceiling_check, within_ceiling. case_if.
  - destruct (Snap_Volume s) as [v|], (Cfg_VolumeCeiling p) as [c|]; try apply gives_fail.
    eapply gives_weaken; [apply gives_refuse_if|]. intros steps [] [_ Hc] _. breflect. exists v, c. auto.
  - apply gives_ret. intros [[Hk Hs]|[Hk Hs]]; exfalso; bsolve.
Qed.

(** The state an operation starts from was read in [steps] and is safe. *)
Definition safe_start (cmd : Command) (s : Snapshot) (v : Snapshot) : Prop :=
  same_device v s /\ mutationSafety p v (is_skip cmd) = None /\ within_ceiling cmd s.
Definition read_safely (cmd : Command) (steps : list step) (s : Snapshot) : Prop :=
  exists before v after, steps = before ++ Saw v :: after /\ safe_start cmd s v.

Lemma owned_by_spec id expected fresh : yields (owned_by host p id expected fresh) (fun _ s => same_device fresh s).
Proof.
  unfold owned_by. apply gives_after; [auto with requests|]. intros bounded s1.
  eapply (gives_bind _ _ (fun _ s => same_device fresh s)).
  { destruct bounded; [apply whole_snapshot_spec|apply gives_ret; auto with requests]. }
  intros s s2 Hs. apply gives_after; [auto with requests|]. intros same s3.
  apply gives_after; [auto with requests|]. intros [] s4. by apply gives_ret.
Qed.

Lemma observed_state_spec fuel me cmd target :
  yields (observed_state host p fuel me cmd target) (read_safely cmd).
Proof.
  unfold observed_state. apply gives_after.
  { destruct (urgent cmd || Cmd_Takeover cmd); [|auto with requests]. repeat (apply only_bind; [|intros]); auto with requests. }
  intros [] s1. eapply gives_bind; [apply gives_observe|]. intros v s2 ->.
  eapply gives_bind; [apply gives_when_error|]. intros [] s3 [-> Hsafe].
  eapply (gives_bind _ _ (fun _ s => same_device v s)).
  { destruct target as [[id expected]|]; [apply owned_by_spec|apply gives_ret; auto with requests]. }
  intros s s4 Hs. apply gives_after; [apply reads_checks; exact p|]. intros [] s5.
  eapply gives_bind; [apply ceiling_check_spec|]. intros [] s6 Hc. apply gives_ret.
  exists s1, v, (s4 ++ s5 ++ s6). split; [by rewrite ?app_nil_r|]. by split_and!.
Qed.

(** Only the release of an operation starts from what its target expected. *)
Definition releases (cmd : Command) : bool := (Cmd_Kind cmd == CommandKindCancel) && (Cmd_Mode cmd == "release").

Lemma fresh_state_spec fuel me cmd previous :
  yields (let! target := cancel_target host cmd previous in fresh_state host p fuel me cmd target)
    (fun steps s => releases cmd = false -> read_safely cmd steps s).
Proof.
  eapply (gives_bind _ _ (fun _ target => is_some target = true -> Cmd_Kind cmd = CommandKindCancel)).
  { unfold cancel_target. case_if; [by apply gives_ret|]. breflect. destruct previous; [|apply gives_fail].
    apply gives_after; [auto with requests|]. intros held s1. apply gives_after; [auto with requests|].
    intros [] s2. by apply gives_ret. }
  intros target s1 Hk.
  assert (Ho : yields (observed_state host p fuel me cmd target)
                 (fun more s => releases cmd = false -> read_safely cmd (s1 ++ more) s)).
  { eapply gives_weaken; [apply observed_state_spec|]. intros more s (before & v & after & -> & Hv) _.
    exists (s1 ++ before), v, after. by rewrite <- app_assoc. }
  unfold fresh_state. destruct target as [[id expected]|]; [|done]. case_if; [|done].
  apply gives_ret. unfold releases. rewrite (Hk eq_refl). bsolve. by intros [|].
Qed.

Lemma recheck_spec r cmd :
  yields (recheck_revision host devices digest time_text epoch r cmd)
    (fun steps _ => urgent cmd || Cmd_Takeover cmd = false -> matches r steps).
Proof.
  unfold recheck_revision. case_if; [by apply gives_ret|].
  eapply gives_weaken; [apply match_revision_spec|]. by intros.
Qed.

Lemma complete_state_spec cmd parts s : yields (complete_state host p cmd parts s) (fun _ s' => same_device s s').
Proof.
  unfold complete_state. eapply (gives_bind _ _ (fun _ s' => same_device s s')).
  { destruct (is_skip cmd); [|apply gives_ret; auto with requests]. eapply gives_bind; [apply whole_snapshot_spec|].
    intros s' s1 Hs. apply gives_after; [auto with requests|]. intros [] s2. by apply gives_ret. }
  intros s' s1 Hs. case_if; [|by apply gives_ret]. eapply gives_weaken; [apply whole_snapshot_spec|].
  intros s2 s'' Hs'. by eapply same_device_trans.
Qed.
End checks.
