(* ===== verification/SubmitProps.v ===== *)
(** * What an admission is ([Submit] of [internal/control/coordinator.go])

    The log of any request, whatever the other goroutines do: it admits at most
    one operation, after every check, and starts its worker exactly when the
    journal has it durably; it returns the gates it took; the worker it revoked
    is replaced or finished; the child slot it claimed is settled. *)

From S2P Require Import Prelude GoStd Values Model Diagnostics Errors Events State QueuePolicy.
From S2P Require Import QueueStart QueueOps Evidence Command Json JournalModel Execution Views Lane Select Submit SubmitSafety.

(** ** Kinds of steps *)

Definition handing (s : step) : Prop :=
  match s with Revoked _ | Orphaned _ => True | _ => reading s end.
Definition gating (s : step) : Prop := match s with Took _ | Left _ => True | _ => False end.
Definition calm (s : step) : Prop := handing s \/ gating s.

Lemma reading_handing steps : Forall reading steps -> Forall handing steps.
Proof. intros H. eapply Forall_impl; [done|]. by intros []. Qed.
Lemma handing_calm steps : Forall handing steps -> Forall calm steps.
Proof. intros H. eapply Forall_impl; [done|]. by left. Qed.
#[export] Hint Resolve reading_handing handing_calm : requests.

Ltac calm_app := rewrite ?Forall_app; split_and?; auto with requests.

Section summary.
Context (p : PlayerConfig) (r : Request) (cmd : Command).

(** The worker of a new operation has not done anything yet. *)
Definition worker_of (o : Operation) (s : Snapshot) (run : execution) : Prop :=
  X_id run = Op_ID o /\ X_phase run = Op_Phase o /\ X_expected run = s /\ X_cancelled run = None /\ X_confirmed run = 0
  /\ X_uncertain run = false /\ X_unconfirmed run = false /\ X_inflight run = false.

(** Every check that comes before the journal, in the log. *)
Definition guarded (pre : list step) (s : Snapshot) : Prop :=
  submit_bounds cmd (Cfg_VolumeCeiling p) = None /\ level_allowed p cmd
  /\ (urgent cmd = false -> matches r pre)
  /\ (releases cmd = false -> exists before v after, pre = before ++ Saw v :: after /\ safe_start p cmd s v
        /\ (urgent cmd || Cmd_Takeover cmd = false -> matches r after)).

Lemma guarded_before (before pre : list step) (s : Snapshot) : guarded pre s -> guarded (before ++ pre) s.
Proof.
  intros (Hb & Hl & Hm & Hs). split_and!; try done.
  - intros Hu. by apply matches_app_r, Hm.
  - intros Hr. destruct (Hs Hr) as (b & v & a & -> & Hv). exists (before ++ b), v, a. by rewrite <- app_assoc.
Qed.

Lemma guarded_after (pre after : list step) (s : Snapshot) : guarded pre s -> guarded (pre ++ after) s.
Proof.
  intros (Hb & Hl & Hm & Hs). split_and!; try done.
  - intros Hu. by apply matches_app_l, Hm.
  - intros Hr. destruct (Hs Hr) as (b & v & a & -> & Hv & Hma). exists b, v, (a ++ after).
    split_and!; [by rewrite <- app_assoc|done|]. intros Ht. by apply matches_app_l, Hma.
Qed.

(** The proposal of an operation of its own, and of a child Skip. *)
Definition proposes (pr : Proposal) : Prop :=
  Prop_Kind pr = CommandKind_string (Cmd_Kind cmd) /\ Prop_DeviceKey pr = Cfg_Serial p
  /\ Prop_OwnerID pr = "" /\ Prop_NotAfter pr = Prop_NotBefore pr + Minute.

(** What follows the journal's reply. *)
Definition follows (s : Snapshot) (reply : Result Admission) (post : list step) (out : Result (Operation * bool)) : Prop :=
  match reply with
  | Ok a =>
      if Adm_Created a then
        exists run item more, post = Emitted (Adm_Operation a) :: Started run cmd item :: more /\ Forall calm more
          /\ out = Ok (Adm_Operation a, true) /\ worker_of (Adm_Operation a) s run
      else Forall calm post /\ out = Ok (Adm_Operation a, false)
  | Err e => Forall calm post /\ out = Err e
  end.

(** A child Skip: claimed, then given up, or durable and left to a worker or to the journal. *)
Definition child_follows (id : string) (child : bufferedSkip) (reply : Result Admission) (post : list step)
    (out : Result (Operation * bool)) : Prop :=
  match reply with
  | Ok a =>
      if Adm_Created a then
        exists child' more, BS_id child' = BS_id child /\ BS_op child' = Adm_Operation a /\ Forall calm more
          /\ (post = Emitted (Adm_Operation a) :: Armed id child' :: more
              \/ post = Emitted (Adm_Operation a) :: Finalizing id child' :: more)
          /\ out = Ok (Adm_Operation a, false)
      else exists more, post = Cleared id child :: more /\ Forall calm more /\ out = Ok (Adm_Operation a, false)
  | Err e => exists more, post = Cleared id child :: more /\ Forall calm more /\ out = Err e
  end.

Inductive admission_log (steps : list step) (out : Result (Operation * bool)) : Prop :=
  | log_none : Forall calm steps -> started out = false -> admission_log steps out
  | log_direct pre pr reply s post :
      steps = pre ++ Asked r pr reply :: post -> Forall calm pre -> guarded pre s -> proposes pr ->
      follows s reply post out -> admission_log steps out
  | log_unclaimed pre id child mid more :
      steps = pre ++ Claimed id child :: mid ++ Cleared id child :: more -> Forall calm pre -> Forall calm mid ->
      Forall calm more -> started out = false -> admission_log steps out
  | log_child pre id child mid pr reply post :
      steps = pre ++ Claimed id child :: mid ++ Asked r pr reply :: post -> Forall calm pre -> Forall calm mid ->
      Prop_OwnerID pr = id -> Prop_Kind pr = "skip" -> is_skip cmd = true -> submit_bounds cmd (Cfg_VolumeCeiling p) = None ->
      child_follows id child reply post out -> admission_log steps out.

Lemma follows_app s reply post out more : Forall calm more -> follows s reply post out -> follows s reply (post ++ more) out.
Proof.
  intros Hm. unfold follows. destruct reply as [a|e].
  - case_if.
    + intros (run & item & rest & -> & Hr & -> & Hw). exists run, item, (rest ++ more). split_and!; try done. by apply Forall_app.
    + intros [Hp ->]. split; [by apply Forall_app|done].
  - intros [Hp ->]. split; [by apply Forall_app|done].
Qed.

Lemma child_follows_app id child reply post out more :
  Forall calm more -> child_follows id child reply post out -> child_follows id child reply (post ++ more) out.
Proof.
  intros Hm. unfold child_follows. destruct reply as [a|e]; [case_if|].
  - intros (c & rest & Hi & Ho & Hr & Hp & ->). exists c, (rest ++ more). split_and!; try done; [by apply Forall_app|].
    destruct Hp as [-> | ->]; [left|right]; by rewrite <- app_comm_cons.
  - intros (rest & -> & Hr & ->). exists (rest ++ more). split_and!; try done. by apply Forall_app.
  - intros (rest & -> & Hr & ->). exists (rest ++ more). split_and!; try done. by apply Forall_app.
Qed.

(** Reads, gates and handoffs around an admission do not change it. *)
Lemma log_around (before steps more : list step) (out : Result (Operation * bool)) :
  Forall calm before -> Forall calm more -> admission_log steps out -> admission_log (before ++ steps ++ more) out.
Proof.
  intros Hb Hm [Hs Ho|pre pr reply s post -> Hp Hg Hpr Hf|pre id child mid rest -> Hp Hmid Hr Ho
               |pre id child mid pr reply post -> Hp Hmid Hid Hk Hsk Hbd Hf].
  - apply log_none; [|done]. rewrite !Forall_app. auto.
  - apply (log_direct _ _ (before ++ pre) pr reply s (post ++ more)); try done.
    + by rewrite <- !app_assoc.
    + by apply Forall_app.
    + by apply guarded_before.
    + by apply follows_app.
  - apply (log_unclaimed _ _ (before ++ pre) id child mid (rest ++ more)); try done; rewrite ?Forall_app; auto.
    rewrite <- !app_assoc. cbn. by rewrite <- !app_assoc.
  - apply (log_child _ _ (before ++ pre) id child mid pr reply (post ++ more)); try done; rewrite ?Forall_app; auto.
    + rewrite <- !app_assoc. cbn. by rewrite <- !app_assoc.
    + by apply child_follows_app.
Qed.
Lemma log_before (before steps : list step) (out : Result (Operation * bool)) :
  Forall calm before -> admission_log steps out -> admission_log (before ++ steps) out.
Proof. intros Hb Hl. rewrite <- (app_nil_r steps). by apply log_around. Qed.
End summary.

Section submit.
Context {E : Type} (host : Host E) (devices : list PlayerConfig) (sources : list SourceConfig) (p : PlayerConfig).
Context (digest : json -> string) (json_size : json -> Z) (time_text : Time -> string) (epoch : string).
Context (r : Request) (cmd : Command).
Local Abbreviation log := (admission_log p r cmd).

(** A program that reads, before one that admits. *)
Lemma log_bind {A B} (m : Handler E A) (k : A -> Handler E B) (P : list step -> A -> Prop) Q :
  yields m P ->
  (forall steps e, Forall reading steps -> Q steps (Err e)) ->
  (forall a steps, Forall reading steps -> P steps a -> spec (k a) (fun more out => Q (steps ++ more) out)) ->
  spec (bind m k) Q.
Proof. intros Hm He Hk. eapply req_bind; [apply Hm| |]; cbn; [intros ? ? []; auto|]. intros a steps []. auto. Qed.

Lemma log_error steps e : Forall reading steps -> log steps (Err e).
Proof. intros H. apply log_none; [|done]. auto with requests. Qed.

(** ** The admission itself *)

Lemma new_run_worker o s members parts previous : worker_of o s (new_run o cmd s members parts previous).
Proof. unfold new_run. destruct previous; [case_if|]; by split_and!. Qed.

Lemma propose_spec me sel old previous :
  yields (propose host p digest json_size me cmd sel old previous) (fun _ pr => proposes p cmd pr).
Proof.
  unfold propose. destruct sel as [[item members] parts]. do 6 (apply gives_after; [auto with requests|intros ? ?]).
  apply gives_ret. by split_and!.
Qed.

Lemma start_worker_spec sel previous s reply :
  spec (let! a := of_result reply in start_worker host cmd sel previous s a) (fun post out => follows cmd s reply post out).
Proof.
  intros q. destruct reply as [a|e]; cbn; [|exists []; by rewrite app_nil_r].
  unfold start_worker. destruct sel as [[item members] parts]. destruct (Adm_Created a); cbn.
  - unfold critical, bind, note. destruct host_others as [l e]. cbn.
    eexists [_; _]. rewrite <- app_assoc. split; [done|]. eexists _, item, []. split_and!; try done.
    apply new_run_worker.
  - exists []. by rewrite app_nil_r.
Qed.

Lemma admit_and_start_spec me sel old previous s (pre : list step) :
  Forall calm pre -> guarded p r cmd pre s ->
  spec (admit_and_start host p digest json_size me r cmd sel old previous s) (fun steps out => log (pre ++ steps) out).
Proof.
  intros Hp Hg. unfold admit_and_start.
  eapply log_bind; [apply propose_spec| |].
  { intros steps e H. apply log_before; [done|]. by apply log_error. }
  intros pr s1 H1 Hpr.
  apply (req_bind _ _ (fun steps out => exists reply, steps = [Asked r pr reply] /\ out = Ok reply)).
  { apply req_call. eauto. }
  { by intros ? ? (? & _ & ?). }
  intros reply ? (reply' & -> & [= <-]). eapply req_weaken; [apply start_worker_spec|].
  intros post out Hf. eapply (log_direct _ _ _ _ _ (pre ++ s1)); [by rewrite <- app_assoc|..|done|done].
  - calm_app.
  - by apply guarded_after.
Qed.

(** ** Handing over *)

Local Abbreviation hand_over := (hand_over host devices p digest json_size time_text epoch).

Definition checked (pre : list step) : Prop :=
  submit_bounds cmd (Cfg_VolumeCeiling p) = None /\ level_allowed p cmd /\ (urgent cmd = false -> matches r pre).

Lemma checked_after pre after : checked pre -> checked (pre ++ after).
Proof. intros (Hb & Hl & Hm). split_and!; try done. intros Hu. by apply matches_app_l, Hm. Qed.

Lemma revoke_hands old : emits handing (revoke host old).
Proof.
  unfold revoke, look. emit_walk; try by apply only_note. by apply only_call.
Qed.
Lemma finish_orphan_hands old previous : emits handing (finish_orphan host old previous).
Proof. unfold finish_orphan. emit_walk; try by apply only_note. by apply only_call. Qed.

(** From the state to the journal. *)
Lemma succeed_spec fuel me sel old previous (pre : list step) :
  Forall calm pre -> checked pre ->
  spec (let! target := cancel_target host cmd previous in
        let! s := fresh_state host p fuel me cmd target in
        recheck_revision host devices digest time_text epoch r cmd ;;;
        let! s := complete_state host p cmd (sel.2) s in
        admit_and_start host p digest json_size me r cmd sel old previous s)
    (fun steps out => log (pre ++ steps) out).
Proof.
  intros Hp (Hb & Hl & Hm).
  assert (He : forall steps e, Forall reading steps -> log (pre ++ steps) (Err e)).
  { intros steps e H. apply log_before; [done|]. by apply log_error. }
  apply req_assoc. eapply log_bind; [apply fresh_state_spec|done|]. intros s s1 H1 Hs.
  eapply log_bind; [apply recheck_spec|intros; apply He; by apply Forall_app|]. intros [] s2 H2 Hr.
  eapply log_bind; [apply complete_state_spec|intros; apply He; by rewrite !Forall_app|]. intros s' s3 H3 Hd. cbn in Hd.
  eapply req_weaken; [apply (admit_and_start_spec _ _ _ _ s' (pre ++ s1 ++ s2 ++ s3))|].
  - calm_app.
  - split_and!; [done|done|intros Hu; by apply matches_app_l, Hm|].
    intros Hrel. destruct (Hs Hrel) as (before & v & after & -> & Hv & Hsafe & Hc).
    exists (pre ++ before), v, (after ++ s2 ++ s3). split; [by rewrite <- !app_assoc|]. split; [split; [|split]|].
    + by eapply same_device_trans.
    + done.
    + intros Hk. destruct (Hc Hk) as (x & c & Hx). exists x, c. unfold same_device in Hd. by rewrite Hd.
    + intros Ht. apply matches_app_r, matches_app_l. auto.
  - cbn. intros steps out. by rewrite <- !app_assoc.
Qed.

Lemma hand_over_spec fuel me sel old (pre : list step) :
  Forall calm pre -> checked pre -> spec (hand_over fuel me r cmd sel old) (fun steps out => log (pre ++ steps) out).
Proof.
  intros Hp Hc. unfold Submit.hand_over.
  eapply req_bind; [apply revoke_hands| |]; cbn.
  { intros steps e H. apply log_none; [|done]. calm_app. }
  intros previous s1 H1. eapply log_bind; [apply gives_reads; auto with requests| |].
  { intros steps e H. apply log_none; [|done]. calm_app. }
  intros old' s2 H2 _. eapply req_deferred.
  { apply (succeed_spec _ _ _ _ _ (pre ++ s1 ++ s2)).
    - calm_app.
    - by apply checked_after. }
  cbn. intros out steps Hl. eapply req_weaken.
  { instantiate (1 := fun more _ => Forall handing more). destruct (started out); [apply only_ret|apply finish_orphan_hands]. }
  cbn. intros more ? Hmore. rewrite !app_assoc in *. apply (log_around p r cmd [] _ more); auto with requests.
Qed.

(** ** Child Skips *)

Local Abbreviation submitBufferedSkip := (submitBufferedSkip host p digest json_size).

Definition unstarted (out : Result Operation) : Result (Operation * bool) :=
  match out with Ok o => Ok (o, false) | Err e => Err e end.

(** Reads that always answer. *)
Definition answers {A} (m : Handler E A) : Prop := spec m (fun steps out => Forall reading steps /\ exists a, out = Ok a).

Lemma req_answers {A B} (m : Handler E A) (k : A -> Handler E B) Q :
  answers m -> (forall a steps, Forall reading steps -> spec (k a) (fun more out => Q (steps ++ more) out)) ->
  spec (bind m k) Q.
Proof. intros Hm Hk. eapply req_bind; [apply Hm|by intros ? ? (_ & ? & ?)|]. intros a steps [H _]. by apply Hk. Qed.
Lemma answers_ask {A} (f : E -> A * E) : answers (ask f).
Proof. apply req_ask. eauto. Qed.
Lemma answers_closing : answers (call (host_closing host) Closing).
Proof. apply req_call. intros a. split; [by constructor|eauto]. Qed.
Lemma answers_ctx_err me : answers (ctx_err host me).
Proof. unfold ctx_err. apply req_section. intros []; [apply req_ret; eauto|apply answers_ask]. Qed.

(** What the claimed child comes to. *)
Definition child_log (id : string) (child : bufferedSkip) (steps : list step) (out : Result Operation) : Prop :=
  (exists mid, steps = mid ++ [Cleared id child] /\ Forall reading mid)
  \/ (exists mid pr reply post, steps = mid ++ Asked r pr reply :: post /\ Forall reading mid
      /\ Prop_OwnerID pr = id /\ Prop_Kind pr = "skip" /\ child_follows id child reply post (unstarted out)).

Lemma give_up_steps id child : spec (give_up_slot host id child) (fun steps out => steps = [Cleared id child] /\ out = Ok tt).
Proof.
  apply req_section. intros []. by apply req_note.
Qed.

(** After the journal's reply. *)
Lemma settle_child_spec id child reply :
  spec (settle_child host id child reply)
    (fun post out => child_follows id child reply post (unstarted out)).
Proof.
  destruct reply as [a|e]; cbn.
  - destruct (Adm_Created a); cbn.
    + intros q. unfold critical, note, bind, change, critical. destruct host_others as [l x].
      destruct (arm_slot id _ l) as [[] l'] eqn:?; cbn.
      * eexists [_; _]. rewrite <- app_assoc. split; [done|].
        eexists (child <| BS_op := Adm_Operation a |>), []. split_and!; try done. by right.
      * destruct host_others as [l2 x2]. cbn. eexists [_; _]. rewrite <- app_assoc. split; [done|].
        eexists (child <| BS_op := Adm_Operation a |>), []. split_and!; try done. by left.
    + eapply req_bind; [apply give_up_steps|by intros ? ? [-> ?]|]. intros [] ? [-> _]. apply req_ret. exists []. split_and!; done.
  - eapply req_bind; [apply give_up_steps|by intros ? ? [-> ?]|]. intros [] ? [-> _]. apply req_fail. exists []. split_and!; done.
Qed.

Lemma submitBufferedSkip_spec me id owner :
  Op_ID owner = id ->
  spec (submitBufferedSkip me id owner r cmd) (fun steps out =>
    (Forall reading steps /\ exists e, out = Err e)
    \/ exists child more, steps = Claimed id child :: more /\ BS_direction child = Cmd_Direction cmd /\ child_log id child more out).
Proof.
  intros Hid. unfold Submit.submitBufferedSkip.
  eapply req_bind; [apply gives_refuse_if|cbn; intros ? ? []; eauto|]. intros [] s0 (_ & -> & _).
  apply req_section. intros claimed.
  eapply req_bind; [apply gives_of_result|cbn; intros ? ? []; eauto|]. intros [] ? (_ & -> & _). cbn.
  set (child := {| BS_id := me; BS_direction := Cmd_Direction cmd; BS_op := Operation_zero; BS_ready := false |}).
  eapply (req_weaken _ (fun steps out => exists more, steps = Claimed id child :: more /\ child_log id child more out)).
  2:{ intros steps out (more & -> & Hl). right. by exists child, more. }
  eapply (req_bind _ _ (fun steps out => steps = [Claimed id child] /\ out = Ok tt)); [by apply req_note|by intros ? ? []|].
  intros [] ? [-> _].
  eapply (req_weaken _ (child_log id child)); [|intros more out Hl; by exists more].
  apply req_answers; [apply answers_ask|]. intros now s1 H1.
  apply req_answers; [apply answers_closing|]. intros closing s2 H2.
  apply req_answers; [apply answers_ctx_err|]. intros ended s3 H3.
  destruct (closing || is_some ended).
  - eapply req_bind; [apply give_up_steps|by intros ? ? []|]. intros [] ? [-> _]. apply req_fail.
    left. exists (s1 ++ s2 ++ s3). rewrite !Forall_app, !app_nil_r, <- !app_assoc. auto.
  - apply (req_bind _ _ (fun steps out => exists reply, steps = [Asked r (skip_proposal p digest json_size owner cmd now) reply] /\ out = Ok reply)).
    { apply req_call. eauto. }
    { by intros ? ? (? & _ & ?). }
    intros reply ? (? & -> & [= <-]). eapply req_weaken; [apply settle_child_spec|]. intros post out Hf. right.
    exists (s1 ++ s2 ++ s3), (skip_proposal p digest json_size owner cmd now), reply, post.
    rewrite !Forall_app, <- !app_assoc. by split_and!.
Qed.

Lemma child_log_log id child pre steps out :
  Forall calm pre -> is_skip cmd = true -> submit_bounds cmd (Cfg_VolumeCeiling p) = None ->
  child_log id child steps out -> log (pre ++ Claimed id child :: steps) (unstarted out).
Proof.
  intros Hp Hk Hb [(mid & -> & Hm)|(mid & pr & reply & post & -> & Hm & Hid & Hkd & Hf)].
  - apply (log_unclaimed _ _ _ _ _ pre id child mid []); [done|done|auto with requests|constructor|by destruct out].
  - apply (log_child _ _ _ _ _ pre id child mid pr reply post); try done. auto with requests.
Qed.

Lemma busy_owner_spec me old pre :
  Forall calm pre -> checked pre ->
  spec (busy_owner host p digest json_size me r cmd old) (fun steps out => log (pre ++ steps) out).
Proof.
  intros Hp (Hb & _). unfold busy_owner, look. apply req_section. intros owner.
  assert (Hbusy : spec (@fail E (Operation * bool) (ESentinel JErrBusy)) (fun steps out => log (pre ++ steps) out)).
  { apply req_fail. rewrite app_nil_r. by apply log_none. }
  destruct owner as [[id buffered]|]; [|done]. destruct (is_skip cmd && (id == Op_ID old) && buffered) eqn:Hs; [|done].
  breflect. eapply req_bind; [by apply submitBufferedSkip_spec|cbn|cbn].
  - intros steps e [[H _]|(child & more & -> & _ & Hl)].
    + apply log_none; [calm_app|done].
    + by apply (child_log_log id child pre more (Err e)).
  - intros o steps [[_ [? [=]]]|(child & more & -> & _ & Hl)]. apply req_ret. rewrite app_nil_r.
    by apply (child_log_log id child pre more (Ok o)).
Qed.

(** ** The whole request *)

Lemma admit_request_spec fuel me :
  spec (admit_request host devices sources p digest json_size time_text epoch fuel me r cmd) log.
Proof.
  unfold admit_request. eapply log_bind; [apply gives_reads; auto with requests|apply log_error|].
  intros known s1 H1 _. destruct (negb (missing known)).
  { eapply log_bind; [apply gives_reads; auto with requests|intros; apply log_error; by apply Forall_app|].
    intros o s2 H2 _. apply req_ret. apply log_none; [calm_app|done]. }
  eapply log_bind; [apply precheck_spec|intros; apply log_error; by apply Forall_app|]. intros [] s2 H2 Hc.
  assert (Hc' : checked (s1 ++ s2)).
  { destruct Hc as (Hb & Hl & Hm). split_and!; try done. intros Hu. apply matches_app_r. auto. }
  eapply log_bind; [apply gives_reads; auto with requests|intros; apply log_error; by rewrite !Forall_app|]. intros sel s3 H3 _.
  eapply log_bind; [apply gives_reads; auto with requests|intros; apply log_error; by rewrite !Forall_app|]. intros owner s4 H4 _.
  assert (Hcalm : Forall calm (s1 ++ s2 ++ s3 ++ s4)) by calm_app.
  assert (Hd : checked (s1 ++ s2 ++ s3 ++ s4)) by (rewrite app_assoc; by apply checked_after).
  assert (Hall : forall old, spec (hand_over fuel me r cmd sel old)
                   (fun more out => log (s1 ++ s2 ++ s3 ++ s4 ++ more) out)).
  { intros old. eapply req_weaken; [by apply (hand_over_spec fuel me sel old (s1 ++ s2 ++ s3 ++ s4))|].
    cbn. intros more out. by rewrite <- !app_assoc. }
  assert (Hcheck : forall b old, spec (refuse_if b ErrOwnership ;;; hand_over fuel me r cmd sel old)
                     (fun more out => log (s1 ++ s2 ++ s3 ++ s4 ++ more) out)).
  { intros b old. eapply log_bind; [apply gives_refuse_if| |].
    - intros; apply log_error; by rewrite !Forall_app.
    - intros [] s5 H5 [-> _]. apply Hall. }
  destruct owner as [old|]; [|apply Hcheck]. case_if; [|apply Hcheck].
  eapply req_weaken; [by apply (busy_owner_spec me old (s1 ++ s2 ++ s3 ++ s4))|].
  cbn. intros more out. by rewrite <- !app_assoc.
Qed.

Lemma gates_calm : Forall calm [] /\ forall h, calm (Took h) /\ calm (Left h).
Proof. split; [constructor|]. intros h. split; by right. Qed.

Lemma calm_leave h : emits calm (leave_gate host h).
Proof. unfold leave_gate. emit_walk. apply only_note. by right. Qed.
Lemma calm_take h : emits calm (take_gate host h).
Proof. unfold take_gate. emit_walk. apply only_note. by right. Qed.
Lemma calm_wait_gate : emits calm (wait_gate host).
Proof. unfold wait_gate. emit_walk. apply only_note. by right. Qed.
Lemma calm_enter : emits calm (enter host cmd).
Proof. unfold enter. emit_walk; apply only_note; by right. Qed.
Lemma calm_release : emits calm (release host cmd).
Proof. unfold release. emit_walk; apply only_note; by right. Qed.
Lemma calm_stop_admitting me : emits calm (stop_admitting host me).
Proof. unfold stop_admitting. emit_walk. apply only_note. by right. Qed.

(** Gates before and after. *)
Lemma log_after_calm {A} (m : Handler E A) (k : A -> Handler E (Operation * bool)) :
  emits calm m -> (forall a, spec (k a) log) -> spec (bind m k) log.
Proof.
  intros Hm Hk. eapply req_bind; [apply Hm| |]; cbn.
  - intros steps e H. by apply log_none.
  - intros a steps H. eapply req_weaken; [apply Hk|]. intros more out Hl. by apply log_before.
Qed.
Lemma log_deferred (c : Result (Operation * bool) -> Handler E unit) (m : Handler E (Operation * bool)) :
  spec m log -> (forall out, emits calm (c out)) -> spec (deferred c m) log.
Proof.
  intros Hm Hc. eapply req_deferred; [apply Hm|]. intros out steps Hl.
  eapply req_weaken; [apply Hc|]. cbn. intros more ? Hmore. by apply (log_around p r cmd [] steps more).
Qed.

Lemma submit_urgent_spec fuel me :
  spec (submit_urgent host devices sources p digest json_size time_text epoch fuel me r cmd) log.
Proof.
  unfold submit_urgent. apply log_after_calm; [auto with requests|intros []].
  apply log_after_calm; [apply calm_take|intros []].
  apply log_deferred; [|intros out; destruct (started out); [apply only_ret|apply calm_release]].
  apply log_deferred; [|intros; apply calm_leave]. apply log_after_calm; [apply calm_enter|intros []].
  apply log_after_calm; [apply calm_wait_gate|intros []]. apply log_deferred; [apply admit_request_spec|intros; apply calm_leave].
Qed.

Lemma submit_ordinary_spec fuel me :
  spec (submit_ordinary host devices sources p digest json_size time_text epoch fuel me r cmd) log.
Proof.
  unfold submit_ordinary. apply log_after_calm; [apply calm_take|intros []].
  apply log_deferred; [|intros; apply calm_leave]. apply req_section. intros blocked.
  apply log_after_calm; [auto with requests|intros []].
  apply log_after_calm; [apply only_note; by right|intros []].
  apply log_deferred; [apply admit_request_spec|intros; apply calm_stop_admitting].
Qed.

(** What a caller of [Submit] sees of it. *)
Definition tagged (b : bool) (out : Result Operation) : Result (Operation * bool) :=
  match out with Ok o => Ok (o, b) | Err e => Err e end.

Local Abbreviation submit fuel me := (Submit host devices sources p digest json_size time_text epoch fuel me r cmd).

Lemma submit_log fuel me : spec (submit fuel me) (fun steps out => exists b, log steps (tagged b out)).
Proof.
  unfold Submit. eapply log_bind; [apply gives_reads; auto with requests|intros steps e H; exists false; by apply log_error|].
  intros known s1 H1 _. assert (Hs1 : Forall calm s1) by auto with requests. case_if.
  { apply req_of_result. exists false. rewrite app_nil_r. apply log_none; [done|by destruct known]. }
  case_if. { apply req_fail. exists false. rewrite app_nil_r. by apply log_none. }
  eapply (req_bind _ _ log).
  - destruct (urgent cmd); [apply submit_urgent_spec|apply submit_ordinary_spec].
  - intros steps e Hl. exists false. by apply log_before.
  - intros [o b] steps Hl. apply req_ret. exists b. rewrite app_nil_r. by apply log_before.
Qed.
End submit.

(** ** Reading a log *)

Definition is_admission (s : step) : Prop := match s with Asked _ _ _ => True | _ => False end.
Definition is_start (s : step) : Prop := match s with Started _ _ _ => True | _ => False end.

Lemma calm_no_admission steps r pr reply : Forall calm steps -> Asked r pr reply ∉ steps.
Proof. intros H Hin. rewrite Forall_forall in H. by destruct (H _ Hin) as [[]|[]]. Qed.
Lemma calm_no_start steps run cmd item : Forall calm steps -> Started run cmd item ∉ steps.
Proof. intros H Hin. rewrite Forall_forall in H. by destruct (H _ Hin) as [[]|[]]. Qed.
Lemma calm_no_claim steps id child : Forall calm steps -> Claimed id child ∉ steps.
Proof. intros H Hin. rewrite Forall_forall in H. by destruct (H _ Hin) as [[]|[]]. Qed.

(** A step that is not calm is in no calm log. *)
Ltac calm_contra :=
  exfalso; match goal with
  | H : _ ∈ ?l, Hc : Forall calm ?l |- _ => rewrite Forall_forall in Hc; destruct (Hc _ H) as [[]|[]]
  end.

(** The steps around the one admission of a log. *)
Lemma log_admission p r cmd steps out r' pr reply :
  admission_log p r cmd steps out -> Asked r' pr reply ∈ steps ->
  r' = r /\ exists pre post, steps = pre ++ Asked r pr reply :: post
    /\ (forall r0 pr0 reply0, Asked r0 pr0 reply0 ∉ pre) /\ (forall r0 pr0 reply0, Asked r0 pr0 reply0 ∉ post)
    /\ ((exists s, guarded p r cmd pre s /\ proposes p cmd pr /\ follows cmd s reply post out)
        \/ (is_skip cmd = true /\ Prop_Kind pr = "skip"
            /\ exists child, Claimed (Prop_OwnerID pr) child ∈ pre /\ child_follows (Prop_OwnerID pr) child reply post out)).
Proof.
  intros [Hs _|pre pr' reply' s post -> Hp Hg Hpr Hf|pre id child mid more -> Hp Hm Hr _
         |pre id child mid pr' reply' post -> Hp Hm <- Hk Hsk Hb Hf] Hin.
  - by destruct (calm_no_admission steps r' pr reply Hs).
  - assert (Hpost : forall r0 pr0 reply0, Asked r0 pr0 reply0 ∉ post).
    { intros r0 pr0 reply0 H. destruct reply' as [a|e]; cbn in Hf.
      - destruct (Adm_Created a); [destruct Hf as (run & item & more & -> & Hmore & _)|destruct Hf as [Hmore _]].
        + apply (calm_no_admission more r0 pr0 reply0 Hmore). set_solver.
        + by apply (calm_no_admission post r0 pr0 reply0).
      - destruct Hf as [Hmore _]. by apply (calm_no_admission post r0 pr0 reply0). }
    apply elem_of_app in Hin as [Hin|Hin]; [by destruct (calm_no_admission pre r' pr reply Hp)|].
    apply elem_of_cons in Hin as [[= -> -> ->]|Hin]; [|by destruct (Hpost _ _ _ Hin)].
    split; [done|]. exists pre, post. split_and!; try done; [intros; by apply calm_no_admission|]. left. by exists s.
  - exfalso. rewrite elem_of_app, elem_of_cons, elem_of_app, elem_of_cons in Hin.
    destruct Hin as [Hin|[[=]|[Hin|[[=]|Hin]]]]; calm_contra.
  - assert (Hpost : forall r0 pr0 reply0, Asked r0 pr0 reply0 ∉ post).
    { intros r0 pr0 reply0 H. destruct reply' as [a|e]; cbn in Hf; [destruct (Adm_Created a)|].
      - destruct Hf as (c & more & _ & _ & Hmore & [-> | ->] & _); apply (calm_no_admission more r0 pr0 reply0 Hmore); set_solver.
      - destruct Hf as (more & -> & Hmore & _). apply (calm_no_admission more r0 pr0 reply0 Hmore). set_solver.
      - destruct Hf as (more & -> & Hmore & _). apply (calm_no_admission more r0 pr0 reply0 Hmore). set_solver. }
    rewrite elem_of_app, elem_of_cons, elem_of_app, elem_of_cons in Hin.
    destruct Hin as [Hin|[[=]|[Hin|[[= -> -> ->]|Hin]]]]; try calm_contra.
    2: by destruct (Hpost _ _ _ Hin).
    split; [done|]. exists (pre ++ Claimed (Prop_OwnerID pr') child :: mid), post. rewrite <- app_assoc. split_and!; try done.
    + intros r0 pr0 reply0. rewrite elem_of_app, elem_of_cons. intros [H|[[=]|H]]; calm_contra.
    + right. split_and!; try done. exists child. split; [set_solver|done].
Qed.

Lemma follows_started cmd s reply post out run cmd' item :
  follows cmd s reply post out -> Started run cmd' item ∈ post ->
  exists a more, reply = Ok a /\ Adm_Created a = true /\ post = Emitted (Adm_Operation a) :: Started run cmd item :: more
    /\ cmd' = cmd /\ Forall calm more /\ out = Ok (Adm_Operation a, true) /\ worker_of (Adm_Operation a) s run.
Proof.
  intros Hf Hin. destruct reply as [a|e]; cbn in Hf; [destruct (Adm_Created a) eqn:Hc|].
  - destruct Hf as (run' & item' & more & -> & Hm & -> & Hw).
    rewrite !elem_of_cons in Hin. destruct Hin as [[=]|[[= -> -> ->]|Hin]]; [|calm_contra].
    by exists a, more.
  - destruct Hf as [Hm _]. calm_contra.
  - destruct Hf as [Hm _]. calm_contra.
Qed.

Lemma child_follows_quiet id child reply post out run cmd item :
  child_follows id child reply post out -> Started run cmd item ∉ post.
Proof.
  intros Hf Hin. destruct reply as [a|e]; cbn in Hf; [destruct (Adm_Created a)|].
  - destruct Hf as (c & more & _ & _ & Hm & [-> | ->] & _); rewrite !elem_of_cons in Hin;
      destruct Hin as [[=]|[[=]|Hin]]; calm_contra.
  - destruct Hf as (more & -> & Hm & _). apply elem_of_cons in Hin as [[=]|Hin]. calm_contra.
  - destruct Hf as (more & -> & Hm & _). apply elem_of_cons in Hin as [[=]|Hin]. calm_contra.
Qed.

(** The worker of a log, and the admission it follows. *)
Lemma log_start p r cmd steps out run cmd' item :
  admission_log p r cmd steps out -> Started run cmd' item ∈ steps ->
  exists pre pr a s more, steps = pre ++ Asked r pr (Ok a) :: Emitted (Adm_Operation a) :: Started run cmd item :: more
    /\ Adm_Created a = true /\ cmd' = cmd /\ Forall calm pre /\ Forall calm more
    /\ out = Ok (Adm_Operation a, true) /\ worker_of (Adm_Operation a) s run.
Proof.
  intros [Hs _|pre pr reply s post -> Hp Hg Hpr Hf|pre id child mid more -> Hp Hm Hr _
         |pre id child mid pr reply post -> Hp Hm Hid Hk Hsk Hb Hf] Hin.
  - calm_contra.
  - apply elem_of_app in Hin as [Hin|Hin]; [calm_contra|]. apply elem_of_cons in Hin as [[=]|Hin].
    destruct (follows_started _ _ _ _ _ _ _ _ Hf Hin) as (a & more & -> & Hc & -> & -> & Hmore & -> & Hw).
    by exists pre, pr, a, s, more.
  - rewrite elem_of_app, elem_of_cons, elem_of_app, elem_of_cons in Hin.
    destruct Hin as [Hin|[[=]|[Hin|[[=]|Hin]]]]; calm_contra.
  - rewrite elem_of_app, elem_of_cons, elem_of_app, elem_of_cons in Hin.
    destruct Hin as [Hin|[[=]|[Hin|[[=]|Hin]]]]; [calm_contra|calm_contra|].
    by destruct (child_follows_quiet _ _ _ _ _ _ _ _ Hf Hin).
Qed.

Lemma log_started p r cmd steps out :
  admission_log p r cmd steps out -> started out = true <-> exists run item, Started run cmd item ∈ steps.
Proof.
  intros Hlog. split.
  - destruct Hlog as [_ Ho|pre pr reply s post -> _ _ _ Hf|pre id child mid more -> _ _ _ Ho
                     |pre id child mid pr reply post -> _ _ _ _ _ _ Hf]; [by rewrite Ho| |by rewrite Ho|].
    + destruct reply as [a|e]; cbn in Hf; [destruct (Adm_Created a)|].
      * destruct Hf as (run & item & more & -> & _). exists run, item. set_solver.
      * by destruct Hf as [_ ->].
      * by destruct Hf as [_ ->].
    + destruct reply as [a|e]; cbn in Hf; [destruct (Adm_Created a)|].
      * by destruct Hf as (c & more & _ & _ & _ & _ & ->).
      * by destruct Hf as (more & _ & _ & ->).
      * by destruct Hf as (more & _ & _ & ->).
  - intros (run & item & Hin). by destruct (log_start _ _ _ _ _ _ _ _ Hlog Hin) as (? & ? & ? & ? & ? & _ & _ & _ & _ & _ & -> & _).
Qed.

(** How a claimed slot ends. *)
Definition slot_settled (r : Request) (id : string) (child : bufferedSkip) (after : list step) : Prop :=
  (Cleared id child ∈ after /\ forall c, Armed id c ∉ after /\ Finalizing id c ∉ after)
  \/ (exists pr a c, Asked r pr (Ok a) ∈ after /\ Adm_Created a = true /\ BS_op c = Adm_Operation a
        /\ Prop_OwnerID pr = id /\ BS_id c = BS_id child /\ (forall c', Cleared id c' ∉ after)
        /\ ((Armed id c ∈ after /\ forall c', Finalizing id c' ∉ after)
            \/ (Finalizing id c ∈ after /\ forall c', Armed id c' ∉ after))).

Lemma elem_of_calm_app s steps more : Forall calm steps -> ~ calm s -> s ∈ steps ++ more <-> s ∈ more.
Proof.
  intros Hc Hs. rewrite elem_of_app. split; [intros [H|H]; [|done]|by right].
  rewrite Forall_forall in Hc. by destruct Hs; apply Hc.
Qed.
Lemma elem_of_calm s steps : Forall calm steps -> ~ calm s -> s ∈ steps <-> False.
Proof. intros Hc Hs. split; [|done]. intros H. rewrite Forall_forall in Hc. by apply Hs, Hc. Qed.

(** Membership in a log, up to its calm parts. *)
Ltac in_log :=
  repeat first
  [ rewrite elem_of_cons in *
  | match goal with
    | Hc : Forall calm ?l |- context [?s ∈ ?l ++ _] => rewrite (elem_of_calm_app s l) by first [done | by intros [[]|[]]]
    | Hc : Forall calm ?l |- context [?s ∈ ?l] => rewrite (elem_of_calm s l) by first [done | by intros [[]|[]]]
    end ].

Lemma child_follows_settled r id child mid pr reply post out :
  Forall calm mid -> Prop_OwnerID pr = id -> child_follows id child reply post out ->
  slot_settled r id child (mid ++ Asked r pr reply :: post).
Proof.
  intros Hm Hid Hf. destruct reply as [a|e]; cbn in Hf; [destruct (Adm_Created a) eqn:Hc|].
  - destruct Hf as (c & more & Hi & Ho & Hmore & Hpost & _). right. exists pr, a, c.
    destruct Hpost as [-> | ->]; split_and!; try done; try (intros c'; in_log; naive_solver); in_log; try by left.
    + left. split; [naive_solver|intros c'; in_log; naive_solver].
    + right. split; [naive_solver|intros c'; in_log; naive_solver].
  - destruct Hf as (more & -> & Hmore & _). left. split; [|intros c; split]; in_log; naive_solver.
  - destruct Hf as (more & -> & Hmore & _). left. split; [|intros c; split]; in_log; naive_solver.
Qed.

Lemma log_claim p r cmd steps out id child :
  admission_log p r cmd steps out -> Claimed id child ∈ steps ->
  exists before after, steps = before ++ Claimed id child :: after /\ slot_settled r id child after.
Proof.
  intros [Hs _|pre pr reply s post -> Hp Hg Hpr Hf|pre id' child' mid more -> Hp Hm Hr _
         |pre id' child' mid pr reply post -> Hp Hm Hid Hk Hsk Hb Hf] Hin.
  - calm_contra.
  - exfalso. rewrite (elem_of_calm_app _ pre) in Hin by first [done | by intros [[]|[]]].
    apply elem_of_cons in Hin as [[=]|Hin]. destruct reply as [a|e]; cbn in Hf; [destruct (Adm_Created a)|].
    + destruct Hf as (run & item & more & -> & Hm & _). rewrite !elem_of_cons in Hin. destruct Hin as [[=]|[[=]|Hin]]. calm_contra.
    + destruct Hf as [Hm _]. calm_contra.
    + destruct Hf as [Hm _]. calm_contra.
  - exists pre, (mid ++ Cleared id' child' :: more).
    rewrite elem_of_app, elem_of_cons, elem_of_app, elem_of_cons in Hin.
    destruct Hin as [Hin|[[= -> ->]|[Hin|[[=]|Hin]]]]; try calm_contra. split; [done|].
    left. split; [|intros c; split]; in_log; naive_solver.
  - exists pre, (mid ++ Asked r pr reply :: post).
    assert (Hc : id = id' /\ child = child').
    { rewrite elem_of_app, elem_of_cons, elem_of_app, elem_of_cons in Hin.
      destruct Hin as [Hin|[[= -> ->]|[Hin|[[=]|Hin]]]]; try calm_contra; [done|].
      exfalso. destruct reply as [a|e]; cbn in Hf; [destruct (Adm_Created a)|].
      - destruct Hf as (c & more & _ & _ & Hmore & [-> | ->] & _); rewrite !elem_of_cons in Hin;
          destruct Hin as [[=]|[[=]|Hin]]; calm_contra.
      - destruct Hf as (more & -> & Hmore & _). apply elem_of_cons in Hin as [[=]|Hin]. calm_contra.
      - destruct Hf as (more & -> & Hmore & _). apply elem_of_cons in Hin as [[=]|Hin]. calm_contra. }
    destruct Hc as [-> ->]. split; [done|]. by eapply child_follows_settled.
Qed.
