(* ===== verification/SubmitGates.v ===== *)
(** * The gates of a lane and the workers it revokes

    The log of a request also tells what it holds: [balance] counts the takes
    and the returns of each gate and count, and a revoked worker is looked for
    in the steps after its revocation. *)

From S2P Require Import Prelude GoStd Values Model Diagnostics Errors Events State QueuePolicy.
From S2P Require Import QueueStart QueueOps Evidence Command Json JournalModel Execution Views Lane Select Submit SubmitSafety SubmitProps.

Definition delta (h : held) (s : step) : Z :=
  match s with
  | Took h' => if h == h' then 1 else 0
  | Left h' => if h == h' then -1 else 0
  | _ => 0
  end.
Fixpoint balance (h : held) (steps : list step) : Z :=
  match steps with [] => 0 | s :: steps => delta h s + balance h steps end.

Definition ungated (s : step) : Prop := ~ gating s.

Lemma balance_app h steps more : balance h (steps ++ more) = balance h steps + balance h more.
Proof. induction steps as [|s steps IH]; cbn; [done|]. rewrite IH. lia. Qed.
Lemma balance_ungated h steps : Forall ungated steps -> balance h steps = 0.
Proof. induction 1 as [|s steps Hs _ IH]; cbn; [done|]. rewrite IH. destruct s; cbn; try done; by destruct Hs. Qed.

Section gates.
Context {E : Type} (host : Host E) (devices : list PlayerConfig) (sources : list SourceConfig) (p : PlayerConfig).
Context (digest : json -> string) (json_size : json -> Z) (time_text : Time -> string) (epoch : string).
Context (r : Request) (cmd : Command).

Lemma req_and {A} (m : Handler E A) Q1 Q2 : spec m Q1 -> spec m Q2 -> spec m (fun steps out => Q1 steps out /\ Q2 steps out).
Proof.
  intros H1 H2 q. destruct (H1 q) as (s1 & Hl & HQ1), (H2 q) as (s2 & Hl' & HQ2).
  rewrite Hl in Hl'. apply app_inv_head in Hl' as ->. by exists s2.
Qed.

Lemma only_weaken (ok ok' : step -> Prop) {A} (m : Handler E A) :
  (forall s, ok s -> ok' s) -> emits ok m -> emits ok' m.
Proof. intros Hi Hm. eapply req_weaken; [apply Hm|]. cbn. intros steps out H. by eapply Forall_impl. Qed.
Lemma reads_ungated {A} (m : Handler E A) : emits reading m -> emits ungated m.
Proof. apply only_weaken. by intros [] H []. Qed.
Lemma hands_ungated {A} (m : Handler E A) : emits handing m -> emits ungated m.
Proof. apply only_weaken. by intros [] H []. Qed.

(** ** Balances *)

(** What a program holds when it succeeds; it holds nothing when it fails. *)
Definition holds {A} (m : Handler E A) (g : held -> Z) : Prop :=
  spec m (fun steps out => forall h, balance h steps = match out with Ok _ => g h | Err _ => 0 end).
(** What a request holds at its end, by whether a worker started. *)
Definition ends {A} (m : Handler E A) (new : Result A -> bool) (f : held -> bool -> Z) : Prop :=
  spec m (fun steps out => forall h, balance h steps = f h (new out)).

Local Abbreviation finishes m f := (ends (A := Operation * bool) m started f).

Lemma finishes_after {A} (m : Handler E A) (k : A -> Handler E (Operation * bool)) g f :
  holds m g -> (forall a, finishes (k a) f) -> (forall h, g h + f h false = 0) ->
  finishes (bind m k) (fun h b => g h + f h b).
Proof.
  intros Hm Hk H0. eapply req_bind; [apply Hm| |]; cbn.
  - intros steps e H h. by rewrite H, H0.
  - intros a steps H. eapply req_weaken; [apply Hk|]. cbn. intros more out Hf h. by rewrite balance_app, H, Hf.
Qed.
Lemma finishes_deferred (c : Result (Operation * bool) -> Handler E unit) (m : Handler E (Operation * bool)) f g :
  finishes m f -> (forall out, ends (c out) (fun _ => started out) g) -> finishes (deferred c m) (fun h b => f h b + g h b).
Proof.
  intros Hm Hc. eapply req_deferred; [apply Hm|]. intros out steps H. eapply req_weaken; [apply Hc|].
  cbn. intros more ? Hg h. by rewrite balance_app, H, Hg.
Qed.
Lemma finishes_eq m f g : finishes m f -> (forall h b, f h b = g h b) -> finishes m g.
Proof. intros Hm He. eapply req_weaken; [apply Hm|]. cbn. intros steps out H h. by rewrite H. Qed.

Lemma holds_leave h : spec (leave_gate host h) (fun steps _ => steps = [Left h]).
Proof. apply req_section. intros []. by apply req_note. Qed.
Lemma ends_leave h out : ends (leave_gate host h) (fun _ => out) (fun h' _ => delta h' (Left h)).
Proof. eapply req_weaken; [apply holds_leave|]. cbn. intros steps ? -> h'. cbn. lia. Qed.
Lemma holds_take h : holds (take_gate host h) (fun h' => delta h' (Took h)).
Proof.
  apply req_section. intros busy. eapply req_bind; [apply gives_refuse_if| |]; cbn.
  - intros steps e [H _] h'. apply balance_ungated. eapply Forall_impl; [done|]. by intros [] Hs [].
  - intros [] steps (_ & -> & _). apply req_note. intros h'. cbn. lia.
Qed.
Lemma holds_wait_gate : holds (wait_gate host) (fun h' => delta h' (Took Gate)).
Proof.
  unfold wait_gate. eapply req_bind; [apply (req_ask _ (fun steps out => steps = [] /\ exists a, out = Ok a)); eauto|by intros ? ? (_ & ? & ?)|].
  intros ended ? [-> _]. eapply req_bind; [apply gives_when_error| |]; cbn.
  - intros steps e [H _] h'. apply balance_ungated. eapply Forall_impl; [done|]. by intros [] Hs [].
  - intros [] steps (_ & -> & _). apply req_section. intros [].
    + by apply req_fail.
    + apply req_note. intros h'. cbn. lia.
Qed.

(** The counts of a priority request. *)
Definition counted (h : held) : Z :=
  match h with PriorityCount => 1 | WirePriority => if Cmd_Kind cmd == CommandKindStop then 1 else 0 | _ => 0 end.

Lemma enter_spec : spec (enter host cmd) (fun steps out => (exists a, out = Ok a) /\ forall h, balance h steps = counted h).
Proof.
  intros q. unfold enter, bind, change, critical, note. destruct host_others as [l e]. cbn.
  unfold counted. case_if; cbn.
  - destruct host_others as [l2 e2]. cbn. exists [Took PriorityCount; Took WirePriority]. rewrite <- app_assoc.
    split_and!; [done|by eexists|]. by intros [].
  - exists [Took PriorityCount]. split_and!; [done|by eexists|]. by intros [].
Qed.
Lemma release_spec : spec (release host cmd) (fun steps _ => forall h, balance h steps = - counted h).
Proof.
  intros q. unfold release, bind, change, critical, note, counted. case_if; cbn.
  - destruct host_others as [l e]. cbn. destruct host_others as [l2 e2]. cbn.
    exists [Left WirePriority; Left PriorityCount]. rewrite <- app_assoc. split; [done|]. by intros [].
  - destruct host_others as [l e]. cbn. exists [Left PriorityCount]. split; [done|]. by intros [].
Qed.

(** ** What [Submit] does between the gates *)

(** Every step but a gate's and a revocation. *)
Section plain.
#[local] Set Default Proof Using "All".
Context (ok : step -> Prop) (Hok : forall s, ~ gating s -> (forall id, s <> Revoked id) -> ok s).

Lemma plain_note s : ~ gating s -> (forall id, s <> Revoked id) -> emits ok (note (E := E) s).
Proof. intros H H'. by apply only_note, Hok. Qed.
Lemma plain_reads {A} (m : Handler E A) : emits reading m -> emits ok m.
Proof. apply only_weaken. intros s H. apply Hok; [by intros ?; destruct s|by intros id ->]. Qed.
Lemma plain_call {A} (f : E -> A * E) (s : A -> step) :
  (forall a, ~ gating (s a) /\ forall id, s a <> Revoked id) -> emits ok (call f s).
Proof. intros H. apply only_call. intros a. apply Hok; by destruct (H a). Qed.

Ltac plain_walk :=
  repeat first
  [ solve [auto with requests] | solve [apply plain_reads; auto with requests]
  | solve [apply plain_note; [by intros []|done]] | solve [apply plain_call; intros; split; [by intros []|done]]
  | emit_step ].

Lemma plain_finish_orphan old previous : emits ok (finish_orphan host old previous).
Proof. unfold finish_orphan. plain_walk. Qed.
Lemma plain_settle_child id child reply : emits ok (settle_child host id child reply).
Proof. unfold settle_child, give_up_slot. plain_walk. Qed.
Lemma plain_submitBufferedSkip me id old : emits ok (submitBufferedSkip host p digest json_size me id old r cmd).
Proof. unfold submitBufferedSkip, give_up_slot. plain_walk. apply plain_settle_child. Qed.
Lemma plain_busy_owner me old : emits ok (busy_owner host p digest json_size me r cmd old).
Proof. unfold busy_owner. plain_walk. apply plain_submitBufferedSkip. Qed.
Lemma plain_admit_and_start me sel old previous s : emits ok (admit_and_start host p digest json_size me r cmd sel old previous s).
Proof. unfold admit_and_start, propose, start_worker. plain_walk. Qed.
Lemma plain_observed_state fuel me target : emits ok (observed_state host p fuel me cmd target).
Proof. unfold observed_state. plain_walk; apply plain_reads; by apply reads_checks. Qed.
Lemma plain_fresh_state fuel me target : emits ok (fresh_state host p fuel me cmd target).
Proof. unfold fresh_state. plain_walk; apply plain_observed_state. Qed.
Lemma plain_precheck : emits ok (precheck host devices p digest time_text epoch r cmd).
Proof. unfold precheck, match_revision. plain_walk; apply plain_reads; by apply reads_checks. Qed.
Lemma plain_succeed fuel me sel old previous :
  emits ok (let! target := cancel_target host cmd previous in
            let! s := fresh_state host p fuel me cmd target in
            recheck_revision host devices digest time_text epoch r cmd ;;;
            let! s := complete_state host p cmd (sel.2) s in
            admit_and_start host p digest json_size me r cmd sel old previous s).
Proof.
  unfold recheck_revision, match_revision, complete_state. plain_walk.
  all: first [apply plain_fresh_state | apply plain_admit_and_start].
Qed.
End plain.

#[local] Set Default Proof Using "All".
Lemma ungated_ok s : ~ gating s -> (forall id, s <> Revoked id) -> ungated s.
Proof using Type. done. Qed.

Lemma ungated_hand_over fuel me sel old :
  emits ungated (hand_over host devices p digest json_size time_text epoch fuel me r cmd sel old).
Proof.
  unfold hand_over. apply only_bind; [apply hands_ungated, revoke_hands|intros previous].
  apply only_bind; [apply reads_ungated; auto with requests|intros old'].
  apply only_deferred; [apply plain_succeed, ungated_ok|]. intros out. destruct (started out); [apply only_ret|].
  apply plain_finish_orphan, ungated_ok.
Qed.

Lemma ungated_admit_request fuel me :
  emits ungated (admit_request host devices sources p digest json_size time_text epoch fuel me r cmd).
Proof.
  unfold admit_request.
  repeat first [ solve [apply ungated_hand_over] | solve [apply plain_busy_owner, ungated_ok] | solve [apply plain_precheck, ungated_ok]
               | solve [auto with requests] | solve [apply reads_ungated; auto with requests] | emit_step ].
Qed.

Lemma finishes_admit_request fuel me :
  finishes (admit_request host devices sources p digest json_size time_text epoch fuel me r cmd) (fun _ _ => 0).
Proof. eapply req_weaken; [apply ungated_admit_request|]. cbn. intros steps out H h. by apply balance_ungated. Qed.

(** A started worker keeps the counts; its own [release] returns them. *)
Definition kept (h : held) (b : bool) : Z := if b && urgent cmd then counted h else 0.

Lemma finishes_urgent fuel me : urgent cmd = true ->
  finishes (submit_urgent host devices sources p digest json_size time_text epoch fuel me r cmd) kept.
Proof.
  intros Hu. unfold submit_urgent. eapply req_bind; [apply gives_refuse_if| |]; cbn.
  { intros steps e [H _] h. apply balance_ungated. eapply Forall_impl; [done|]. by intros [] Hs []. }
  intros [] steps (_ & -> & _).
  eapply finishes_eq; [eapply (finishes_after _ _ _ _ (holds_take PriorityGate)); [intros []|]|].
  - apply (finishes_deferred _ _ (fun h _ => counted h + (delta h (Left PriorityGate))) (fun h b => if b then 0 else - counted h)).
    + apply (finishes_deferred _ _ (fun h _ => counted h) (fun h _ => delta h (Left PriorityGate))); [|intros; apply ends_leave].
      eapply req_bind; [apply enter_spec|by intros ? ? [[? ?] _]|]. intros [] s1 [_ Hb].
      eapply req_weaken; [eapply (finishes_after _ _ _ _ holds_wait_gate); [intros []|]|].
      * apply (finishes_deferred _ _ (fun _ _ => 0) (fun h _ => delta h (Left Gate))); [apply finishes_admit_request|intros; apply ends_leave].
      * cbn. intros h. case_if; lia.
      * cbn. intros more out H h. rewrite balance_app, Hb, H. cbn. case_if; lia.
    + intros out. destruct (started out); [by apply req_ret|]. eapply req_weaken; [apply release_spec|]. cbn. intros; auto.
  - cbn. intros h. case_if; lia.
  - cbn. intros h b. unfold kept. rewrite Hu. destruct b; cbn; case_if; lia.
Qed.

Lemma ends_stop_admitting me out : ends (stop_admitting host me) (fun _ => out) (fun h _ => delta h (Left Admitting)).
Proof. apply req_section. intros []. apply req_note. intros h. cbn. lia. Qed.

Lemma finishes_ordinary fuel me :
  finishes (submit_ordinary host devices sources p digest json_size time_text epoch fuel me r cmd) (fun _ _ => 0).
Proof.
  unfold submit_ordinary.
  eapply finishes_eq; [eapply (finishes_after _ _ _ _ (holds_take Gate)); [intros []|]|].
  - apply (finishes_deferred _ _ (fun _ _ => 0) (fun h _ => delta h (Left Gate))); [|intros; apply ends_leave].
    apply req_section. intros blocked. eapply req_bind; [apply gives_refuse_if| |]; cbn.
    { intros steps e [H _] h. apply balance_ungated. eapply Forall_impl; [done|]. by intros [] Hs []. }
    intros [] steps (_ & -> & _). eapply req_bind.
    { apply (req_note _ (fun steps out => steps = [Took Admitting] /\ out = Ok tt)). done. }
    { by intros ? ? []. }
    intros [] ? [-> _]. eapply req_weaken; [apply (finishes_deferred _ _ (fun _ _ => 0) (fun h _ => delta h (Left Admitting)))|].
    + apply finishes_admit_request.
    + intros; apply ends_stop_admitting.
    + cbn. intros more out H h. rewrite H. case_if; lia.
  - cbn. intros h. case_if; lia.
  - cbn. intros h b. case_if; lia.
Qed.

(** From the gated request to [Submit], which looks the request up first. *)
Lemma submit_lift (Q : list step -> Result (Operation * bool) -> Prop) fuel me :
  (forall steps out, Forall reading steps -> started out = false -> Q steps out) ->
  (forall before steps out, Forall reading before -> Q steps out -> Q (before ++ steps) out) ->
  spec (if urgent cmd then submit_urgent host devices sources p digest json_size time_text epoch fuel me r cmd
        else submit_ordinary host devices sources p digest json_size time_text epoch fuel me r cmd) Q ->
  spec (Submit host devices sources p digest json_size time_text epoch fuel me r cmd) (fun steps out =>
    exists b, admission_log p r cmd steps (tagged b out) /\ Q steps (tagged b out)).
Proof.
  intros Hread Happ HQ.
  assert (Hlog : spec (if urgent cmd then submit_urgent host devices sources p digest json_size time_text epoch fuel me r cmd
        else submit_ordinary host devices sources p digest json_size time_text epoch fuel me r cmd) (admission_log p r cmd)).
  { destruct (urgent cmd); [apply submit_urgent_spec|apply submit_ordinary_spec]. }
  unfold Submit. eapply log_bind; [apply gives_reads; auto with requests| |].
  { intros steps e H. exists false. split; [by apply log_error|by apply Hread]. }
  intros known s1 H1 _. assert (Hs1 : Forall calm s1) by auto with requests.
  assert (Hout : forall out : Result Operation, started (tagged false out) = false) by (by intros []).
  case_if.
  { apply req_of_result. exists false. rewrite app_nil_r. split; [by apply log_none|by apply Hread]. }
  case_if. { apply req_fail. exists false. rewrite app_nil_r. split; [by apply log_none|by apply Hread]. }
  eapply req_bind; [apply (req_and _ _ _ Hlog HQ)| |]; cbn.
  - intros steps e [Hl Hq]. exists false. split; [by apply log_before|by apply Happ].
  - intros [o b] steps [Hl Hq]. apply req_ret. exists b. rewrite app_nil_r. split; [by apply log_before|by apply Happ].
Qed.

Lemma submit_balance fuel me :
  spec (Submit host devices sources p digest json_size time_text epoch fuel me r cmd) (fun steps out =>
    exists b, admission_log p r cmd steps (tagged b out) /\ forall h, balance h steps = kept h (started (tagged b out))).
Proof.
  assert (Hread : forall steps, Forall reading steps -> forall h, balance h steps = 0).
  { intros steps H h. apply balance_ungated. eapply Forall_impl; [done|]. by intros [] Hs []. }
  apply (submit_lift (fun steps out => forall h, balance h steps = kept h (started out))).
  - intros steps out H Ho h. by rewrite Hread, Ho.
  - intros before steps out H Hq h. by rewrite balance_app, Hq, Hread.
  - destruct (urgent cmd) eqn:Hu; [by apply finishes_urgent|]. eapply finishes_eq; [apply finishes_ordinary|].
    intros h b. unfold kept. by rewrite Hu, andb_false_r.
Qed.

(** ** Revoked workers *)

Section revoked.
Context (Hget : forall id e o e', host_get host id e = (Ok o, e') -> Op_ID o = id).

(** What became of the operation of a revoked worker. *)
Definition accounted (id : string) (steps : list step) (new : bool) : Prop :=
  new = true \/ Orphaned id ∈ steps \/ Closing true ∈ steps
  \/ (exists e, Waited id (Some e) ∈ steps) \/ (exists e, Fetched id (Err e) ∈ steps)
  \/ (exists o, Fetched id (Ok o) ∈ steps /\ Op_FinishedAt o <> None).

Lemma accounted_app id before steps more new : accounted id steps new -> accounted id (before ++ steps ++ more) new.
Proof.
  assert (Hin : forall s : step, s ∈ steps -> s ∈ before ++ steps ++ more).
  { intros s H. rewrite !elem_of_app. auto. }
  intros [H|[H|[H|[[e H]|[[e H]|(o & H & Hf)]]]]].
  - by left.
  - right; left. auto.
  - right; right; left. auto.
  - right; right; right; left. eauto.
  - do 4 right. left. eauto.
  - do 5 right. eauto.
Qed.

Definition accounts (m : Handler E (Operation * bool)) : Prop :=
  spec m (fun steps out => forall id, id <> "" -> Revoked id ∈ steps -> accounted id steps (started out)).

Definition unrevoked (s : step) : Prop := forall id, s <> Revoked id.
Lemma unrevoked_ok s : ~ gating s -> (forall id, s <> Revoked id) -> unrevoked s.
Proof using Type. by intros _ H. Qed.
Lemma unrevoked_none steps id : Forall unrevoked steps -> Revoked id ∉ steps.
Proof using Type. intros H Hin. rewrite Forall_forall in H. by apply (H _ Hin id). Qed.

Lemma accounts_plain (m : Handler E (Operation * bool)) : emits unrevoked m -> accounts m.
Proof. intros H. eapply req_weaken; [apply H|]. cbn. intros steps out Hs id _ Hin. by destruct (unrevoked_none steps id Hs). Qed.
Lemma accounts_after {A} (m : Handler E A) (k : A -> Handler E (Operation * bool)) :
  emits unrevoked m -> (forall a, accounts (k a)) -> accounts (bind m k).
Proof.
  intros Hm Hk. eapply req_bind; [apply Hm| |]; cbn.
  - intros steps e H id _ Hin. by destruct (unrevoked_none steps id H).
  - intros a steps H. eapply req_weaken; [apply Hk|]. cbn. intros more out Ha id Hid [Hin|Hin]%elem_of_app.
    + by destruct (unrevoked_none steps id H).
    + rewrite <- (app_nil_r more). apply accounted_app. auto.
Qed.
Lemma accounts_deferred (c : Result (Operation * bool) -> Handler E unit) (m : Handler E (Operation * bool)) :
  accounts m -> (forall out, emits unrevoked (c out)) -> accounts (deferred c m).
Proof.
  intros Hm Hc. eapply req_deferred; [apply Hm|]. intros out steps H. eapply req_weaken; [apply Hc|].
  cbn. intros more ? Hmore id Hid [Hin|Hin]%elem_of_app.
  - by apply (accounted_app id []), H.
  - by destruct (unrevoked_none more id Hmore).
Qed.

Lemma revoke_spec old :
  spec (revoke host old) (fun steps out =>
    steps = [] \/ exists ended, steps = [Revoked (Op_ID old); Waited (Op_ID old) ended]
      /\ out = match ended with Some e => Err e | None => Ok (Some (Op_ID old)) end).
Proof.
  unfold revoke, look. apply req_section. intros [id|]; [|apply req_ret; by left].
  case_if; [|apply req_ret; by left]. breflect. subst id. apply req_section. intros [].
  intros q. unfold note, call, ask, bind, when_error. cbn. destruct (host_done host (Op_ID old) _) as [ended x]. cbn.
  destruct ended as [e|]; cbn.
  - exists [Revoked (Op_ID old); Waited (Op_ID old) (Some e)]. rewrite <- app_assoc. split; [done|]. right. by exists (Some e).
  - exists [Revoked (Op_ID old); Waited (Op_ID old) None]. rewrite <- app_assoc. split; [done|]. right. by exists None.
Qed.

Lemma refetch_spec old :
  spec (refetch host old) (fun steps out =>
    Op_ID old <> "" -> exists reply, steps = [Fetched (Op_ID old) reply]
      /\ match reply with
         | Err e => out = Err e
         | Ok o => Op_ID o = Op_ID old /\ out = Ok (if is_some (Op_FinishedAt o) then Operation_zero else o)
         end).
Proof.
  unfold refetch. case_if; [apply req_ret; by breflect|].
  intros q. unfold call, ask, note, bind, of_result. destruct (host_get host _ _) as [reply x] eqn:Hg. cbn.
  exists [Fetched (Op_ID old) reply]. destruct reply as [o|e]; cbn; (split; [done|]; intros _).
  - exists (Ok o). split_and!; try done. by eapply Hget.
  - by exists (Err e).
Qed.

Lemma finish_orphan_spec old :
  Op_ID old <> "" ->
  spec (finish_orphan host old (Some (Op_ID old))) (fun steps _ => Orphaned (Op_ID old) ∈ steps \/ Closing true ∈ steps).
Proof.
  intros Hid. unfold finish_orphan. case_if; [|exfalso; bsolve].
  apply (req_bind _ _ (fun steps out => exists b, steps = [Closing b] /\ out = Ok b)).
  { apply req_call. eauto. }
  { by intros ? ? (? & _ & ?). }
  intros b ? (? & -> & [= <-]). destruct b; [apply req_ret; right; set_solver|]. apply req_note. left. set_solver.
Qed.

(** The deferred closure, for the value that [refetch] left in [old]. *)
Lemma cleanup_spec (out : Result (Operation * bool)) old previous :
  spec (if started out then ret tt else finish_orphan host old previous) (fun more _ =>
    Forall unrevoked more
    /\ (Op_ID old <> "" -> previous = Some (Op_ID old) ->
        started out = true \/ Orphaned (Op_ID old) ∈ more \/ Closing true ∈ more)).
Proof.
  destruct (started out) eqn:Ho; [apply req_ret; auto|]. apply req_and.
  { apply (plain_finish_orphan unrevoked unrevoked_ok). }
  destruct (decide (Op_ID old <> "" /\ previous = Some (Op_ID old))) as [[Hid ->]|Hn].
  - eapply req_weaken; [by apply finish_orphan_spec|]. auto.
  - eapply req_weaken; [apply (plain_finish_orphan unrevoked unrevoked_ok)|]. cbn. intros more ? _ Hid Hp. by destruct Hn.
Qed.

Lemma accounts_hand_over fuel me sel old :
  accounts (hand_over host devices p digest json_size time_text epoch fuel me r cmd sel old).
Proof.
  unfold hand_over. eapply req_bind; [apply revoke_spec| |]; cbn.
  { intros steps e [->|(ended & -> & He)] id _ Hin; [by apply not_elem_of_nil in Hin|].
    assert (id = Op_ID old) as -> by set_solver. right; right; right; left.
    destruct ended as [x|]; [exists x; set_solver|done]. }
  intros previous s1 Hs1. eapply req_bind; [apply (req_and _ _ (fun steps _ => Forall unrevoked steps) (refetch_spec old))| |]; cbn.
  { apply (plain_reads unrevoked unrevoked_ok). auto with requests. }
  { intros s2 e [H Hu] id Hid [Hin|Hin]%elem_of_app; [|by destruct (unrevoked_none s2 id Hu)].
    destruct Hs1 as [->|(ended & -> & He)]; [by apply not_elem_of_nil in Hin|].
    assert (id = Op_ID old) as -> by set_solver. destruct (H Hid) as (reply & -> & Hr).
    destruct reply as [o|x]; [by destruct Hr|]. do 4 right. left. exists x. set_solver. }
  intros old' s2 [H Hu]. eapply req_deferred; [apply (plain_succeed unrevoked unrevoked_ok)|]. cbn. intros out s3 H3.
  eapply req_weaken; [apply cleanup_spec|]. cbn. intros more ? [Hm Hc] id Hid Hin.
  rewrite !elem_of_app in Hin. destruct Hin as [Hin|[Hin|[Hin|Hin]]]; try by (exfalso; eapply unrevoked_none; [|exact Hin]).
  destruct Hs1 as [->|(ended & -> & He)]; [by apply not_elem_of_nil in Hin|].
  assert (id = Op_ID old) as -> by set_solver. destruct ended as [x|]; [done|]. injection He as ->.
  destruct (H Hid) as (reply & -> & Hr). destruct reply as [o|x]; [|done]. destruct Hr as [Ho [= ->]].
  destruct (Op_FinishedAt o) as [t|] eqn:Hf; cbn in Hc.
  - do 5 right. exists o. split; [set_solver|by rewrite Hf].
  - rewrite Ho in Hc. destruct (Hc Hid eq_refl) as [Hn|[Hn|Hn]]; [by left|right; left|right; right; left]; set_solver.
Qed.

Lemma accounts_admit_request fuel me :
  accounts (admit_request host devices sources p digest json_size time_text epoch fuel me r cmd).
Proof.
  unfold admit_request.
  repeat first
  [ solve [apply accounts_hand_over]
  | solve [apply accounts_plain, plain_busy_owner, unrevoked_ok]
  | lazymatch goal with |- accounts (bind _ _) => apply accounts_after; [|intros] end
  | solve [apply (plain_precheck unrevoked unrevoked_ok)]
  | solve [apply (plain_reads unrevoked unrevoked_ok); auto with requests]
  | solve [apply accounts_plain; auto with requests]
  | match goal with
    | |- accounts (match ?x with _ => _ end) => destruct x
    | |- accounts (if ?x then _ else _) => destruct x
    end ].
Qed.

Lemma unrevoked_gate (m : Handler E unit) : emits gating m -> emits unrevoked m.
Proof. apply only_weaken. by intros [] [] ?. Qed.
Lemma gating_leave h : emits gating (leave_gate host h).
Proof. unfold leave_gate. emit_walk. by apply only_note. Qed.
Lemma gating_steps me : emits gating (take_gate host PriorityGate) /\ emits gating (take_gate host Gate) /\ emits gating (enter host cmd)
  /\ emits gating (wait_gate host) /\ emits gating (release host cmd) /\ emits gating (stop_admitting host me).
Proof. unfold take_gate, enter, wait_gate, release, stop_admitting. split_and!; emit_walk; by apply only_note. Qed.

Lemma accounts_submit fuel me :
  accounts (if urgent cmd then submit_urgent host devices sources p digest json_size time_text epoch fuel me r cmd
            else submit_ordinary host devices sources p digest json_size time_text epoch fuel me r cmd).
Proof.
  destruct (gating_steps me) as (Hpg & Hg & He & Hw & Hr & Hs).
  destruct (urgent cmd).
  - unfold submit_urgent. apply accounts_after; [auto with requests|intros []].
    apply accounts_after; [by apply unrevoked_gate|intros []].
    apply accounts_deferred; [|intros out; destruct (started out); [apply only_ret|by apply unrevoked_gate]].
    apply accounts_deferred; [|intros; apply unrevoked_gate, gating_leave].
    apply accounts_after; [by apply unrevoked_gate|intros []]. apply accounts_after; [by apply unrevoked_gate|intros []].
    apply accounts_deferred; [apply accounts_admit_request|intros; apply unrevoked_gate, gating_leave].
  - unfold submit_ordinary. apply accounts_after; [by apply unrevoked_gate|intros []].
    apply accounts_deferred; [|intros; apply unrevoked_gate, gating_leave]. apply req_section. intros blocked.
    apply accounts_after; [auto with requests|intros []]. apply accounts_after; [apply only_note; by intros ?|intros []].
    apply accounts_deferred; [apply accounts_admit_request|intros; by apply unrevoked_gate].
Qed.

Lemma submit_accounts fuel me :
  spec (Submit host devices sources p digest json_size time_text epoch fuel me r cmd) (fun steps out =>
    exists b, admission_log p r cmd steps (tagged b out)
      /\ forall id, id <> "" -> Revoked id ∈ steps -> accounted id steps (started (tagged b out))).
Proof.
  apply (submit_lift (fun steps out => forall id, id <> "" -> Revoked id ∈ steps -> accounted id steps (started out))).
  - intros steps out H _ id _ Hin. rewrite Forall_forall in H. by destruct (H _ Hin).
  - intros before steps out H Hq id Hid [Hin|Hin]%elem_of_app.
    + rewrite Forall_forall in H. by destruct (H _ Hin).
    + rewrite <- (app_nil_r steps). apply accounted_app. auto.
  - apply accounts_submit.
Qed.
End revoked.
End gates.
