(* ===== verification/SubmitClaims.v ===== *)
(** * The promises of an admission

    Properties of [Submit] for any host: any interleaving with other requests,
    workers and events, any device and any journal. *)

From S2P Require Import Prelude GoStd Values Model Diagnostics Errors Events State QueuePolicy.
From S2P Require Import QueueStart QueueOps Evidence Command Json JournalModel Execution Views Lane Select Submit Hosts SubmitSafety SubmitProps SubmitGates.

Section claims.
Context {E : Type} (host : Host E) (devices : list PlayerConfig) (sources : list SourceConfig) (p : PlayerConfig).
Context (digest : json -> string) (json_size : json -> Z) (time_text : Time -> string) (epoch : string).
Local Abbreviation submit := (Submit host devices sources p digest json_size time_text epoch).

Lemma submit_steps fuel me r cmd q steps :
  R_log (submit fuel me r cmd q).2 = R_log q ++ steps ->
  exists b, admission_log p r cmd steps (tagged b (submit fuel me r cmd q).1).
Proof.
  intros Hl. destruct (submit_log host devices sources p digest json_size time_text epoch r cmd fuel me q) as (steps' & Hl' & b & Hlog).
  rewrite Hl in Hl'. apply app_inv_head in Hl' as ->. by exists b.
Qed.





(** C7. A revoked worker is replaced or finished.  Whenever a request cancels
    the worker of a reserved operation, either its own worker takes over, or the
    orphaned operation is handed to the finalizer, unless the coordinator is
    closing, the operation turned out to be finished, or one of the two steps in
    between failed: the wait for the worker, or the read of its operation.
    [Store.Get] returns the operation it was asked for. *)
Theorem revoked_worker_is_accounted fuel me r cmd q steps id
    (Hget : forall id e o e', host_get host id e = (Ok o, e') -> Op_ID o = id) :
  R_log (submit fuel me r cmd q).2 = R_log q ++ steps -> id <> "" -> Revoked id ∈ steps ->
  (exists run item, Started run cmd item ∈ steps) \/ Orphaned id ∈ steps \/ Closing true ∈ steps
  \/ (exists o, Fetched id (Ok o) ∈ steps /\ Op_FinishedAt o <> None)
  \/ (exists e, Waited id (Some e) ∈ steps \/ Fetched id (Err e) ∈ steps).
Proof.
  intros Hl Hid Hin.
  destruct (submit_accounts host devices sources p digest json_size time_text epoch r cmd Hget fuel me q) as (s & Hl' & b & Hlog & Ha).
  rewrite Hl in Hl'. apply app_inv_head in Hl' as <-.
  destruct (Ha id Hid Hin) as [Hs|[Ho|[Hc|[[e He]|[[e He]|Hf]]]]]; [|naive_solver..].
  left. by apply (log_started _ _ _ _ _ Hlog).
Qed.

(** A known request is answered from the journal: its earlier operation or
    error, with no read, no gate, no revocation and no admission, and without
    touching the lane. *)
Theorem known_request_is_replayed fuel me r cmd q reply e :
  host_lookup host r (R_host q) = (reply, e) -> missing reply = false ->
  submit fuel me r cmd q = (reply, q <| R_host := e |> <| R_log := R_log q ++ [Looked reply] |>).
Proof.
  intros Hr Hm. unfold Submit, lookup, call, ask, note, bind. rewrite Hr. cbn. rewrite Hm. cbn.
  by destruct reply.
Qed.
End claims.

(** ** At concrete requests *)

Definition sample_log (host : Host unit) (l : lane) (cmd : Command) : list step := R_log (run_submit host l cmd).2.

(** The log of the examples, without evaluating them. *)
Lemma sample_steps host l cmd :
  R_log (Submit host [sample_config] [] sample_config (fun _ => "d") (fun _ => 0) itoa "e" 5 1 sample_request cmd
           {| R_lane := l; R_host := tt; R_log := [] |}).2
  = R_log (E := unit) {| R_lane := l; R_host := tt; R_log := [] |} ++ sample_log host l cmd.
Proof. reflexivity. Qed.

(** Finding a step in an evaluated log. *)
Ltac find_step := vm_compute; repeat eexists; repeat first [apply list_elem_of_here | apply list_elem_of_further].



Definition skip_host : Host unit := host_with unknown (Ok (sample_owner "op-0")) (fun _ => unknown) None unbrowsable None.


(** A takeover of a running operation. *)
Definition sample_takeover : Command := sample_volume <| Cmd_Takeover := true |>.
Definition takeover_host (get : string -> Result Operation) (ended : option error) : Host unit :=
  host_with unknown (Ok (sample_owner "op-0")) get ended unbrowsable None.

Lemma revoked_worker_is_accounted_witness :
  let log := sample_log (takeover_host (fun id => Ok (sample_owner id)) None) busy_lane sample_takeover in
  Revoked "op-0" ∈ log /\ exists run item, Started run sample_takeover item ∈ log.
Proof.
  cbn zeta. assert (Hin : Revoked "op-0" ∈ sample_log (takeover_host (fun id => Ok (sample_owner id)) None) busy_lane sample_takeover) by find_step.
  split; [exact Hin|].
  destruct (revoked_worker_is_accounted (takeover_host (fun id => Ok (sample_owner id)) None) [sample_config] [] sample_config
              (fun _ => "d") (fun _ => 0) itoa "e" 5 1 sample_request sample_takeover _
              _ "op-0" ltac:(by intros id [] o [] [= <-]) (sample_steps _ _ _) ltac:(done) Hin) as [H|_]; [exact H|find_step].
Defined.

Lemma known_request_is_replayed_witness :
  (run_submit (host_with (Ok (sample_owner "op-7")) unknown (fun _ => unknown) None unbrowsable None) busy_lane sample_volume).1 = Ok (sample_owner "op-7").
Proof.
  exact (f_equal fst (known_request_is_replayed (host_with (Ok (sample_owner "op-7")) unknown (fun _ => unknown) None unbrowsable None)
    [sample_config] [] sample_config (fun _ => "d") (fun _ => 0) itoa "e" 5 1 sample_request sample_volume
    {| R_lane := busy_lane; R_host := tt; R_log := [] |} (Ok (sample_owner "op-7")) tt eq_refl eq_refl)).
Defined.

(** ** A gap between revocation and handoff *)

(** No step of the log starts a worker or hands an operation to the finalizer. *)
Definition abandons (steps : list step) : bool :=
  forallb (fun s => match s with Started _ _ _ | Orphaned _ | Closing true => false | _ => true end) steps.

