(* ===== verification/ExecutionSafety.v ===== *)
(** * Safety of the critical sections

    Every change that a run makes to the state under [execution.mu] is one of
    the sections of [Execution]; [section_run] is any interleaving of them.
    The theorems hold in every state such an interleaving reaches: what an
    event that nothing expects does, what a scalar confirmation proves, and
    that the play/stop boundary of a queue replacement is crossed once. *)

From S2P Require Import Prelude GoStd Values Model Diagnostics Errors Events State QueuePolicy.
From S2P Require Import QueueStart QueueOps Evidence Command Execution.

(** ** Interleavings *)

Inductive section_step (p : PlayerConfig) : execution -> execution -> Prop :=
  | step_event r e now at_ : section_step p r (event r e now at_)
  | step_prewrite r (fresh : Snapshot) :
      section_step p r (r <| X_expected := fresh |>)
  | step_expect r m r' : expect m r = Some r' -> section_step p r (r' <| X_inflight := true |>)
  | step_replied r (failed uncertain rejected : bool) (token : Token) :
      section_step p r
        (let r := r <| X_inflight := false |> in
         if failed then (if uncertain then r <| X_uncertain := true |> else r) <| X_rejectedWrite := rejected |>
         else r <| X_unconfirmed := true |> <| X_expected := X_expected r <| Snap_Token := token |> |>)
  | step_stale_retry r : section_step p r (r <| X_events := no_events |>)
  | step_start r cause before after deadline now at_ :
      section_step p r (queueStartObservation p r cause before after deadline now at_).2
  | step_append r cause before after now :
      section_step p r (appendObservation p r cause before after now).2
  | step_remove r cause before after n now :
      section_step p r (removeObservation p r cause before after n now).2
  | step_skip r cause before after :
      section_step p r (acceptSkipReadback r cause before after).2
  | step_queue_decision r expired before fresh now at_ :
      section_step p r (queueObservationDecision p r expired before fresh now at_).2
  | step_observed r (revision : Z) : section_step p r (r <| X_observedRevision := revision |>)
  | step_close r m expected after r' : close_confirmation m expected after r = Ok r' -> section_step p r r'
  | step_external_cancel r cause : section_step p r (cancel_cause cause r).

Inductive section_run (p : PlayerConfig) : execution -> execution -> Prop :=
  | run_none r : section_run p r r
  | run_more r r' r'' : section_run p r r' -> section_step p r' r'' -> section_run p r r''.

(** An invariant of the steps holds in every state of a run. *)
Lemma run_invariant (p : PlayerConfig) (I : execution -> Prop) :
  (forall r r', I r -> section_step p r r' -> I r') ->
  forall r r', section_run p r r' -> I r -> I r'.
Proof. intros Hstep r r' Hrun. induction Hrun; eauto. Qed.

(** ** Frame lemmas: the fields that a section leaves alone *)

Ltac cases_in_goal := repeat first [case_match | case_if]; try done.

Lemma signal_frame (r : execution) :
  X_events (signal r) = X_events r /\ X_queueStart (signal r) = X_queueStart r
  /\ X_scalar (signal r) = X_scalar r /\ X_cancelled (signal r) = X_cancelled r.
Proof. done. Qed.

Lemma acceptScalar_frame (r : execution) (e : Event) :
  let r' := (acceptScalarEvent r e).2 in
  X_events r' = X_events r /\ X_queueStart r' = X_queueStart r /\ X_cancelled r' = X_cancelled r
  /\ X_expected r' = X_expected r /\ X_inflight r' = X_inflight r /\ X_uncertain r' = X_uncertain r.
Proof.
  unfold acceptScalarEvent, acceptVolume, acceptRepeat, acceptShuffle, scalar_step. cbn. cases_in_goal.
Qed.

Lemma consume_frame (r : execution) (e : Event) (i : nat) :
  let r' := consume_expectation r e i in
  X_cancelled r' = X_cancelled r /\ X_expected r' = X_expected r /\ X_scalar r' = X_scalar r
  /\ X_inflight r' = X_inflight r /\ X_uncertain r' = X_uncertain r.
Proof. unfold consume_expectation, set_expectations, notifyObservation, signal. cbn. cases_in_goal. Qed.

Lemma acceptExpected_frame (r : execution) (e : Event) :
  let r' := (acceptExpectedEvent r e).2 in
  X_cancelled r' = X_cancelled r /\ X_expected r' = X_expected r
  /\ X_inflight r' = X_inflight r /\ X_uncertain r' = X_uncertain r.
Proof.
  unfold acceptExpectedEvent. cbn. case_if; [done|]. case_if.
  { pose proof (acceptScalar_frame r e) as H. cbn in H. naive_solver. }
  destruct (match_index _ _ _) as [i|]; [|done]. case_if; [done|].
  pose proof (consume_frame r e i) as H. cbn in *. naive_solver.
Qed.

Lemma acceptQueue_frame (r : execution) (e : Event) (now : Time) :
  let r' := (acceptQueueEvent r e now).2 in
  X_events r' = X_events r /\ X_queueStart r' = X_queueStart r /\ X_scalar r' = X_scalar r
  /\ X_cancelled r' = X_cancelled r /\ X_expected r' = X_expected r
  /\ X_inflight r' = X_inflight r /\ X_uncertain r' = X_uncertain r.
Proof. unfold acceptQueueEvent. cbn -[decideQueueEvent]. cases_in_goal. Qed.

(** The attribution of a target event, as one step. *)
Definition attribute (r : execution) (e : Event) (now : Time) : bool * execution :=
  if target_event r e then
    let '(ok, r1) := acceptExpectedEvent r e in
    if ok then (true, r1) else acceptQueueEvent r1 e now
  else (false, r).

Lemma attribute_frame (r : execution) (e : Event) (now : Time) :
  let r' := (attribute r e now).2 in
  X_cancelled r' = X_cancelled r /\ X_expected r' = X_expected r
  /\ X_inflight r' = X_inflight r /\ X_uncertain r' = X_uncertain r.
Proof.
  unfold attribute. case_if; [|done]. pose proof (acceptExpected_frame r e) as H.
  destruct (acceptExpectedEvent r e) as [[] r1]; [done|].
  pose proof (acceptQueue_frame r1 e now) as H1. cbn in *. destruct_and!. split_and!; congruence.
Qed.

Lemma event_unfold (r : execution) (e : Event) (now at_ : Time) :
  event r e now at_ =
  if foreign_event r e || progress_event e then r
  else
    let r1 := (attribute r e now).2 in
    if (attribute r e now).1 then r1 <| X_expected := X_expected r1 <| Snap_Token := Ev_Token e |> |>
    else
      let r2 := if X_inflight r1 then r1 <| X_uncertain := true |> else r1 in
      cancel_cause (EOwnership {| Own_reason := if Ev_Gap e then "event_gap" else "unexpected_event";
                                  Own_evidence := event_evidence r2 e at_ |}) r2.
Proof. unfold event. case_if; [done|]. unfold attribute. by destruct (if target_event r e then _ else _). Qed.

Lemma cancel_cause_some (cause : error) (r : execution) : X_cancelled (cancel_cause cause r) <> None.
Proof. unfold cancel_cause. destruct (X_cancelled r) eqn:H; [by rewrite H|done]. Qed.

Lemma cancel_cause_first (cause c : error) (r : execution) :
  X_cancelled r = Some c -> cancel_cause cause r = r.
Proof. unfold cancel_cause. by intros ->. Qed.

(** An event that no rule attributes revokes the run. *)
Lemma event_revokes (r : execution) (e : Event) (now at_ : Time) :
  foreign_event r e = false -> progress_event e = false -> (attribute r e now).1 = false ->
  X_cancelled (event r e now at_) <> None
  /\ (X_inflight r = true -> X_uncertain (event r e now at_) = true).
Proof.
  intros Hf Hp Ha. rewrite event_unfold, Hf, Hp, Ha. cbn. split; [apply cancel_cause_some|].
  pose proof (attribute_frame r e now) as (_ & _ & Hi & _). rewrite Hi. intros ->.
  unfold cancel_cause. by case_match.
Qed.

(** ** Expected events stay bounded, and Stop is expected only before Play *)

Record events_ok (r : execution) : Prop := {
  ok_bound : forall name, (length (pending_expectations r name) <= 4)%nat;
  ok_states : forall want, want ∈ pending_expectations r state_changed ->
    exists s, want = [("state", s)] /\ (X_queueStart r = queuePlayObserved -> s <> "stop")
}.

Lemma pending_set (r : execution) (name name' : string) (list : list expectation) :
  pending_expectations (set_expectations name list r) name' =
  if name == name' then list else pending_expectations r name'.
Proof.
  unfold pending_expectations, set_expectations. cbn. case_if; breflect.
  - subst. by rewrite lookup_insert_eq.
  - by rewrite lookup_insert_ne.
Qed.

Lemma pending_delete (r : execution) (name name' : string) :
  pending_expectations (delete_expectations name r) name' =
  if name == name' then [] else pending_expectations r name'.
Proof.
  unfold pending_expectations, delete_expectations. cbn. case_if; breflect.
  - subst. by rewrite lookup_delete_eq.
  - by rewrite lookup_delete_ne.
Qed.

(** Dropping expectations, or the phase leaving [queuePlayObserved], keeps the
    invariant. *)
Lemma events_ok_shrink (r r' : execution) :
  events_ok r ->
  (forall name, sublist (pending_expectations r' name) (pending_expectations r name)) ->
  (X_queueStart r' = queuePlayObserved -> X_queueStart r = queuePlayObserved) ->
  events_ok r'.
Proof.
  intros [Hb Hs] Hsub Hphase. constructor.
  - intros name. etrans; [apply sublist_length, Hsub|apply Hb].
  - intros want Hin. destruct (Hs want) as (s & -> & Hne).
    { eapply sublist_subseteq; [apply Hsub|done]. }
    exists s. naive_solver.
Qed.

Lemma events_ok_same (r r' : execution) :
  events_ok r -> X_events r' = X_events r -> X_queueStart r' = X_queueStart r -> events_ok r'.
Proof.
  intros Hok He Hq. eapply events_ok_shrink; [done| |congruence].
  intros name. unfold pending_expectations. by rewrite He.
Qed.

Lemma events_ok_empty (r : execution) : X_events r = no_events -> events_ok r.
Proof.
  intros He.
  assert (forall name, pending_expectations r name = []) as Hp.
  { intros name. unfold pending_expectations. rewrite He. unfold no_events. by rewrite lookup_empty. }
  constructor; intros x; rewrite Hp; [cbn; lia|by intros ?%not_elem_of_nil].
Qed.

Lemma events_ok_add (r : execution) (name : string) (want : expectation) :
  events_ok r -> X_queueStart r <> queuePlayObserved ->
  (name = state_changed -> exists s, want = [("state", s)]) ->
  events_ok (add_expectation name want r).
Proof.
  intros [Hb Hs] Hq Hname. unfold add_expectation. constructor.
  - intros name'. rewrite pending_set. case_if; [|done]. breflect. subst name'.
    specialize (Hb name). rewrite length_app. cbn. case_if; breflect; unfold len in *;
      rewrite ?length_drop; lia.
  - intros want'. rewrite pending_set. case_if.
    + breflect. subst name. intros [Hin|Hin%list_elem_of_singleton]%elem_of_app.
      * assert (want' ∈ pending_expectations r state_changed) as Hin'
          by (revert Hin; case_if; [apply sublist_subseteq, sublist_drop|done]).
        destruct (Hs want' Hin') as (s & -> & _). by exists s.
      * subst want'. destruct Hname as [s ->]; [done|]. by exists s.
    + intros Hin. destruct (Hs want' Hin) as (s & -> & _). by exists s.
Qed.

Lemma kind_state_command (e : Event) :
  ED_Kind (Event_Data e) = EventState -> Ev_Command e = state_changed.
Proof.
  unfold Event_Data. intros Hk.
  assert (EventKind_of_string (Ev_Command e) = EventState) as H.
  { rewrite <- (decode_kind _ (Ev_Params e)). by destruct (Ev_Gap e). }
  unfold EventKind_of_string in H. destruct (find _ _) as [k|] eqn:Hf; [|done]. cbn in H. subst k.
  apply find_some in Hf as [_ Hf]. breflect. done.
Qed.

Lemma sublist_without {A} (i : nat) (l : list A) : sublist (take i l ++ drop (S i) l) l.
Proof. rewrite <- delete_take_drop. apply sublist_delete. Qed.

Lemma notify_events (r : execution) :
  X_events (notifyObservation r) = X_events r /\ X_queueStart (notifyObservation r) = X_queueStart r
  /\ X_keepExpectations (notifyObservation r) = X_keepExpectations r.
Proof. done. Qed.

Lemma events_ok_set (r : execution) (name : string) (list : list expectation) :
  events_ok r -> sublist list (pending_expectations r name) -> events_ok (set_expectations name list r).
Proof.
  intros Hok Hsub. eapply events_ok_shrink; [done| |done].
  intros name'. rewrite pending_set. case_if; [|done]. breflect. by subst.
Qed.

Lemma events_ok_consume (r : execution) (e : Event) (i : nat) :
  events_ok r -> events_ok (consume_expectation r e i).
Proof.
  intros Hok. unfold consume_expectation.
  set (r1 := if _ || _ then notifyObservation r else r).
  assert (events_ok r1 /\ pending_expectations r1 (Ev_Command e) = pending_expectations r (Ev_Command e)) as [H1 Hp].
  { unfold r1. case_if; (split; [|done]); [by eapply events_ok_same|done]. }
  set (r2 := if _ && _ then set_expectations _ _ r1 else r1).
  assert (events_ok r2) as H2.
  { unfold r2. case_if; [|done]. apply events_ok_set; [done|]. rewrite Hp. apply sublist_without. }
  clearbody r2. case_if; [|done]. breflect.
  assert (events_ok (set_expectations (Ev_Command e) [] r2)) as Hnil
    by (apply events_ok_set; [done|apply sublist_nil_l]).
  case_if; [|done].
  match goal with H : ED_Kind _ = EventState |- _ => apply kind_state_command in H as Hcmd end.
  destruct Hnil as [Hb _]. constructor; [exact Hb|]. intros want. rewrite Hcmd.
  change (pending_expectations (?x <| X_queueStart := queuePlayObserved |>)) with (pending_expectations x).
  rewrite pending_set, bool_decide_true by done. by intros ?%not_elem_of_nil.
Qed.

Lemma events_ok_event (r : execution) (e : Event) (now at_ : Time) :
  events_ok r -> events_ok (event r e now at_).
Proof.
  intros Hok. rewrite event_unfold. case_if; [done|].
  assert (events_ok (attribute r e now).2) as Ha.
  { unfold attribute. case_if; [|done].
    assert (events_ok (acceptExpectedEvent r e).2) as He.
    { unfold acceptExpectedEvent. case_if; [done|]. case_if.
      - pose proof (acceptScalar_frame r e) as (? & ? & _). by eapply events_ok_same.
      - destruct (match_index _ _ _); [|done]. case_if; [done|]. by apply events_ok_consume. }
    destruct (acceptExpectedEvent r e) as [[] r1]; [done|].
    pose proof (acceptQueue_frame r1 e now) as (? & ? & _). by eapply events_ok_same. }
  revert Ha. generalize (attribute r e now) as x. intros [b r1] Ha. cbn in *. case_if.
  { by eapply events_ok_same. }
  unfold cancel_cause. eapply events_ok_same; [exact Ha|..]; cases_in_goal.
Qed.

(** Outside the played phase, adding an expectation of the right shape keeps
    the invariant: the form in which [expect] uses it. *)
Definition fresh_ok (r : execution) : Prop := events_ok r /\ X_queueStart r <> queuePlayObserved.

Lemma fresh_add (r : execution) (name : string) (want : expectation) :
  fresh_ok r -> name <> state_changed -> fresh_ok (add_expectation name want r).
Proof. intros [Hok Hq] Hn. split; [by apply events_ok_add|exact Hq]. Qed.

Lemma fresh_state (r : execution) (s : PlayState) : fresh_ok r -> fresh_ok (expect_state s r).
Proof. intros [Hok Hq]. split; [|exact Hq]. apply events_ok_add; [done..|]. intros _. by eexists. Qed.

Lemma fresh_same (r r' : execution) :
  fresh_ok r -> X_events r' = X_events r -> X_queueStart r' <> queuePlayObserved -> fresh_ok r'.
Proof.
  intros [Hok Hq] He Hq'. split; [|done]. eapply events_ok_shrink; [done| |done].
  intros name. unfold pending_expectations. by rewrite He.
Qed.

Lemma expect_volume_ok (m : Mutation) (v : Z) (b : bool) (r : execution) :
  fresh_ok r -> fresh_ok (expect_volume m v b r).
Proof.
  intros H. unfold expect_volume. cbv zeta.
  repeat match goal with |- context [if ?c then add_expectation _ _ _ else _] => destruct c end;
    repeat (apply fresh_add; [|done]); exact H.
Qed.

Lemma expect_queue_ok (m : Mutation) (r : execution) : fresh_ok r -> fresh_ok (expect_queue m r).
Proof.
  intros H. unfold expect_queue. destruct (Mut_Append m).
  { apply fresh_add; [|done]. eapply fresh_same; [exact H|done|apply H]. }
  cbv zeta. apply fresh_state.
  match goal with |- context [if ?c then _ else _] => destruct c end; [apply fresh_state|];
    (do 2 (apply fresh_add; [|done]); by eapply fresh_same; [exact H|..]).
Qed.

Lemma events_ok_expect (m : Mutation) (r r' : execution) :
  events_ok r -> expect m r = Some r' -> fresh_ok r'.
Proof.
  intros Hok. unfold expect.
  set (r0 := r <| X_queueStart := queueNotStarting |> <| X_scalar := None |> <| X_keepExpectations := false |>).
  set (r1 := if scalarMutation m then _ else r0).
  assert (fresh_ok r1) as H1.
  { split; [|unfold r1; by destruct (scalarMutation m)].
    eapply events_ok_shrink; [exact Hok|..]; unfold r1; by destruct (scalarMutation m). }
  clearbody r1. clear Hok.
  assert (fresh_ok (r1 <| X_keepExpectations := true |>)) as Hk
    by (eapply fresh_same; [exact H1|reflexivity|exact (proj2 H1)]).
  destruct (Mut_Kind m);
    try (destruct (Snap_Volume (X_expected r1)), (Snap_Muted (X_expected r1)));
    intros [= <-]; cbn [foldl];
    repeat lazymatch goal with
    | |- fresh_ok (expect_volume _ _ _ _) => apply expect_volume_ok
    | |- fresh_ok (expect_queue _ _) => apply expect_queue_ok
    | |- fresh_ok (expect_state _ _) => apply fresh_state
    | |- fresh_ok (add_expectation _ _ _) => apply fresh_add; [|done]
    end; first [exact H1 | exact Hk].
Qed.

Lemma events_ok_observe (r : execution) (s : PlayState) :
  events_ok r -> events_ok (observeQueueState r s).
Proof.
  intros [Hb Hs]. unfold observeQueueState. case_if; [|done]. constructor.
  - intros name. rewrite pending_set. case_if; [|apply Hb]. breflect. subst name.
    etrans; [apply sublist_length, sublist_filter|apply (Hb state_changed)].
  - intros want. rewrite pending_set, bool_decide_true by done.
    intros [Hne Hin]%list_elem_of_filter. destruct (Hs want Hin) as (s' & -> & _).
    exists s'. split; [done|]. intros _ ->. apply Hne. done.
Qed.

Lemma cover_frame (r : execution) (before after : Snapshot) :
  let r' := cover_events r before after in
  X_events r' = X_events r /\ X_queueStart r' = X_queueStart r /\ X_scalar r' = X_scalar r
  /\ X_cancelled r' = X_cancelled r /\ X_expected r' = X_expected r
  /\ X_eventRevision r' = X_eventRevision r /\ X_ordered r' = X_ordered r.
Proof. unfold cover_events. cbn. by case_if. Qed.

Lemma events_ok_cover (r : execution) (before after : Snapshot) :
  events_ok r -> events_ok (cover_events r before after).
Proof. intros Hok. pose proof (cover_frame r before after) as (He & Hq & _). by eapply events_ok_same. Qed.

Lemma events_ok_delete (r : execution) (name : string) :
  events_ok r -> events_ok (delete_expectations name r).
Proof.
  intros Hok. eapply events_ok_shrink; [done| |done]. intros name'. rewrite pending_delete.
  case_if; [apply sublist_nil_l|done].
Qed.

(** The steps that replace other fields only. *)
Ltac frame_step H := eapply events_ok_same; [exact H|..]; repeat case_match; done.

Lemma append_cases (p : PlayerConfig) (r : execution) cause before after now :
  let out := appendObservation p r cause before after now in
  out.2 = r \/ out.2 = cover_events r before after
  \/ out = (Ok true, delete_expectations queue_changed (cover_events r before after <| X_queueWait := 0 |>)).
Proof. unfold appendObservation. cbv zeta. repeat case_match; cbn; auto. Qed.

Lemma remove_cases (p : PlayerConfig) (r : execution) cause before after n now :
  let out := removeObservation p r cause before after n now in
  out.2 = r \/ out.2 = cover_events r before after
  \/ out = (Ok true, delete_expectations now_playing_changed
              (delete_expectations queue_changed (cover_events r before after <| X_queueWait := 0 |>))).
Proof. unfold removeObservation. cbv zeta. repeat case_match; cbn; auto. Qed.

Lemma skip_cases (r : execution) cause before after :
  let out := acceptSkipReadback r cause before after in
  out.2 = r \/ out.2 = cover_events r before after
  \/ out = (Ok true, cover_events r before after <| X_events := no_events |> <| X_keepExpectations := false |>).
Proof. unfold acceptSkipReadback. cbv zeta. repeat case_match; cbn; auto. Qed.

Lemma start_state (p : PlayerConfig) (r : execution) cause before after deadline now at_ :
  (queueStartObservation p r cause before after deadline now at_).2
  = cover_events (observeQueueState r (Snap_State after)) before after.
Proof. unfold queueStartObservation. cbv zeta. by repeat case_match. Qed.

Lemma close_fields (m : Mutation) (expected after : Snapshot) (r r' : execution) :
  close_confirmation m expected after r = Ok r' ->
  X_events r' = no_events /\ X_scalar r' = None /\ X_queueStart r' = queueNotStarting
  /\ X_cancelled r' = X_cancelled r /\ X_confirmed r' = X_confirmed r + 1
  /\ X_unconfirmed r' = false
  /\ same_controls (X_expected r') after.
Proof.
  unfold close_confirmation. case_if; [done|]. intros [= <-]. cbn.
  split_and!; try done; repeat case_match; try done; by constructor.
Qed.

Lemma events_ok_step (p : PlayerConfig) (r r' : execution) :
  events_ok r -> section_step p r r' -> events_ok r'.
Proof.
  intros Hok Hstep. destruct Hstep.
  - by apply events_ok_event.
  - frame_step Hok.
  - match goal with H : expect _ _ = Some _ |- _ => apply events_ok_expect in H as [H _]; [frame_step H|done] end.
  - frame_step Hok.
  - by apply events_ok_empty.
  - rewrite start_state. by apply events_ok_cover, events_ok_observe.
  - destruct (append_cases p r cause before after now) as [->|[->| ->]]; [done|by apply events_ok_cover|].
    apply events_ok_delete. eapply events_ok_same; [by apply (events_ok_cover r before after)|done..].
  - destruct (remove_cases p r cause before after n now) as [->|[->| ->]]; [done|by apply events_ok_cover|].
    do 2 apply events_ok_delete. eapply events_ok_same; [by apply (events_ok_cover r before after)|done..].
  - destruct (skip_cases r cause before after) as [->|[->| ->]]; [done|by apply events_ok_cover|].
    by apply events_ok_empty.
  - frame_step Hok.
  - frame_step Hok.
  - match goal with H : close_confirmation _ _ _ _ = Ok _ |- _ => apply close_fields in H as (He & _) end.
    by apply events_ok_empty.
  - unfold cancel_cause. frame_step Hok.
Qed.

(** The state in which [Submit] starts a run. *)
Definition initial_run (r : execution) : Prop :=
  X_events r = no_events /\ X_queueStart r = queueNotStarting /\ X_scalar r = None
  /\ X_cancelled r = None /\ X_inflight r = false /\ X_unconfirmed r = false /\ X_confirmed r = 0.

Lemma reached_events_ok (p : PlayerConfig) (r r' : execution) :
  initial_run r -> section_run p r r' -> events_ok r'.
Proof.
  intros [He _] Hrun. eapply run_invariant; [apply events_ok_step|done|]. by apply events_ok_empty.
Qed.

(** ** Scalar confirmations carry what was requested *)

Definition scalar_sound (p : scalarConfirmation) : Prop :=
  let m := SC_command p in
  let o := SC_observed p in
  match Mut_Kind m with
  | MutationKindVolume => SC_volumeSeen p = true -> Snap_Volume o = Some (Mut_Level m)
  | MutationKindMute => SC_volumeSeen p = true -> Snap_Muted o = Some (Mut_Muted m)
  | MutationKindMode =>
      (SC_repeatSeen p = true -> Snap_Repeat o = Mut_Repeat m)
      /\ (SC_shuffleSeen p = true -> Snap_Shuffle o = Mut_Shuffle m)
  | _ => False
  end.

Definition scalar_inv (r : execution) : Prop := forall p, X_scalar r = Some p -> scalar_sound p.

Lemma new_scalar_sound (m : Mutation) (before : Snapshot) :
  scalarMutation m = true -> scalar_sound (newScalarConfirmation m before).
Proof.
  unfold scalarMutation, newScalarConfirmation, scalar_sound. intros Hm. breflect.
  destruct (Mut_Kind m) eqn:Hk; cbn; rewrite ?Hk; try (exfalso; destruct_or?; congruence);
    intros; breflect; try done.
Qed.

Lemma matching_wanted (p : scalarConfirmation) (expected : Snapshot) (e : Event) (want : Snapshot) :
  matching_scalars p expected e = Some want ->
  if Mut_Kind (SC_command p) == MutationKindVolume then Snap_Volume want = Some (Mut_Level (SC_command p))
  else Snap_Muted want = Some (Mut_Muted (SC_command p)).
Proof.
  unfold matching_scalars, wanted_scalars. destruct (Mut_Kind _ == MutationKindVolume) eqn:Hk;
    repeat case_match; intros [= <-]; done.
Qed.

Lemma scalar_inv_step_volume (r : execution) (p : scalarConfirmation) (e : Event) :
  scalar_inv r -> X_scalar r = Some p -> Mut_Kind (SC_command p) <> MutationKindMode ->
  scalar_inv (acceptVolume r p e).2.
Proof.
  intros Hinv Hp Hk. unfold acceptVolume. destruct (matching_scalars _ _ _) as [want|] eqn:Hm; [|done].
  case_if; [done|]. unfold scalar_step. cbn. intros p' Hp'.
  assert (p' = p <| SC_observed := SC_observed p <| Snap_Volume := Snap_Volume want |>
                                <| Snap_Muted := Snap_Muted want |> |> <| SC_volumeSeen := true |>) as ->
    by (destruct (scalar_ready _); cbn in Hp'; congruence).
  specialize (Hinv p Hp). apply matching_wanted in Hm. unfold scalar_sound in *. cbn in *.
  destruct (Mut_Kind (SC_command p)); try done; by rewrite ?bool_decide_true, ?bool_decide_false in Hm by done.
Qed.

Lemma scalar_inv_accept (r : execution) (e : Event) :
  scalar_inv r -> scalar_inv (acceptScalarEvent r e).2.
Proof.
  intros Hinv. unfold acceptScalarEvent. case_if; [done|].
  destruct (ED_Kind _); try done.
  - unfold volume_command. destruct (X_scalar r) as [p|] eqn:Hp; [|done]. case_if; [done|].
    breflect. by apply scalar_inv_step_volume.
  - unfold mode_command. destruct (X_scalar r) as [p|] eqn:Hp; [|done]. case_if; [|done]. breflect.
    assert (Mut_Kind (SC_command p) = MutationKindMode) as Hk by done.
    unfold acceptRepeat, scalar_step. case_if; [done|]. breflect. intros p' Hp'.
    specialize (Hinv p Hp). unfold scalar_sound in Hinv. rewrite Hk in Hinv. destruct Hinv as [_ Hs].
    destruct (scalar_ready _) in Hp'; cbn in Hp'; injection Hp' as <-;
      unfold scalar_sound; cbn; rewrite Hk; by split.
  - unfold mode_command. destruct (X_scalar r) as [p|] eqn:Hp; [|done]. case_if; [|done]. breflect.
    assert (Mut_Kind (SC_command p) = MutationKindMode) as Hk by done.
    unfold acceptShuffle, scalar_step. case_if; [done|]. breflect. intros p' Hp'.
    specialize (Hinv p Hp). unfold scalar_sound in Hinv. rewrite Hk in Hinv. destruct Hinv as [Hs _].
    destruct (scalar_ready _) in Hp'; cbn in Hp'; injection Hp' as <-;
      unfold scalar_sound; cbn; rewrite Hk; by split.
Qed.

Lemma scalar_inv_same (r r' : execution) : scalar_inv r -> X_scalar r' = X_scalar r -> scalar_inv r'.
Proof. intros Hinv Heq p. rewrite Heq. apply Hinv. Qed.

Lemma expect_scalar (m : Mutation) (r r' : execution) :
  expect m r = Some r' -> scalar_inv r'.
Proof.
  unfold expect. set (r1 := if scalarMutation m then _ else _).
  assert (scalar_inv r1) as H1.
  { unfold r1. destruct (scalarMutation m) eqn:Hm; intros p [= <-]. by apply new_scalar_sound. }
  clearbody r1. intros H. eapply scalar_inv_same; [exact H1|]. revert H.
  unfold expect_volume, expect_queue. repeat case_match; by intros [= <-].
Qed.

Lemma event_scalar (r : execution) (e : Event) (now at_ : Time) :
  scalar_inv r -> scalar_inv (event r e now at_).
Proof.
  intros Hinv. rewrite event_unfold. case_if; [done|].
  assert (scalar_inv (attribute r e now).2) as Ha.
  { unfold attribute. case_if; [|done].
    assert (scalar_inv (acceptExpectedEvent r e).2) as He.
    { unfold acceptExpectedEvent. case_if; [done|]. case_if; [by apply scalar_inv_accept|].
      destruct (match_index _ _ _) as [i|]; [|done]. case_if; [done|].
      eapply scalar_inv_same; [exact Hinv|apply (consume_frame r e i)]. }
    destruct (acceptExpectedEvent r e) as [[] r1]; [done|].
    eapply scalar_inv_same; [exact He|apply (acceptQueue_frame r1 e now)]. }
  revert Ha. generalize (attribute r e now) as x. intros [b r1] Ha. cbn in *. case_if; [done|].
  unfold cancel_cause. eapply scalar_inv_same; [exact Ha|]. cases_in_goal.
Qed.

Lemma scalar_inv_step (p : PlayerConfig) (r r' : execution) :
  scalar_inv r -> section_step p r r' -> scalar_inv r'.
Proof.
  intros Hinv Hstep. destruct Hstep; try done.
  - by apply event_scalar.
  - eapply scalar_inv_same; [by eapply expect_scalar|done].
  - eapply scalar_inv_same; [exact Hinv|]. by repeat case_match.
  - rewrite start_state. eapply scalar_inv_same; [exact Hinv|].
    rewrite (proj1 (proj2 (proj2 (cover_frame _ _ _)))). unfold observeQueueState. by case_if.
  - destruct (append_cases p r cause before after now) as [->|[->| ->]]; [done|..];
      (eapply scalar_inv_same; [exact Hinv|apply (cover_frame r before after)]).
  - destruct (remove_cases p r cause before after n now) as [->|[->| ->]]; [done|..];
      (eapply scalar_inv_same; [exact Hinv|apply (cover_frame r before after)]).
  - destruct (skip_cases r cause before after) as [->|[->| ->]]; [done|..];
      (eapply scalar_inv_same; [exact Hinv|apply (cover_frame r before after)]).
  - match goal with H : close_confirmation _ _ _ _ = Ok _ |- _ => apply close_fields in H as (_ & Hs & _) end.
    intros q. by rewrite Hs.
  - unfold cancel_cause. eapply scalar_inv_same; [exact Hinv|]. by case_match.
Qed.

Lemma reached_scalar (p : PlayerConfig) (r r' : execution) :
  initial_run r -> section_run p r r' -> scalar_inv r'.
Proof.
  intros (_ & _ & Hs & _) Hrun. eapply run_invariant; [apply scalar_inv_step|done|].
  intros q. by rewrite Hs.
Qed.

(** ** Properties *)

Lemma queue_decision_passes (r : execution) (e : Event) (now : Time) :
  match ED_Kind (Event_Data e) with
  | EventNowPlaying => False
  | EventState =>
      ED_State (Event_Data e) <> PlayStatePlay
      /\ (X_queueOwned r && (X_automating r || X_loading r) = false)
  | _ => True
  end -> (acceptQueueEvent r e now).1 = false.
Proof.
  intros H. unfold acceptQueueEvent, decideQueueEvent, transition_event. cbn [fst].
  destruct (ED_Kind (Event_Data e)) eqn:Hk; try done;
    cbn [QP_Owned QP_Automating QP_ExpectedState QP_WaitUntil]; rule_cases; cbn in *; try done;
    breflect; bsolve; by rewrite ?andb_true_r in *; bsolve.
Qed.

Lemma acceptQueue_owner (r : execution) (e : Event) :
  let r' := (acceptExpectedEvent r e).2 in
  X_queueOwned r' = X_queueOwned r /\ X_automating r' = X_automating r /\ X_loading r' = X_loading r.
Proof.
  unfold acceptExpectedEvent, acceptScalarEvent, acceptVolume, acceptRepeat, acceptShuffle, scalar_step,
    consume_expectation, set_expectations, notifyObservation, signal.
  cbn. cases_in_goal.
Qed.

Lemma target_not_foreign (r : execution) (e : Event) :
  target_event r e = true -> foreign_event r e = false.
Proof.
  unfold target_event, foreign_event. intros H. apply not_true_iff. intros Hf. breflect. congruence.
Qed.

(** C22. A Stop after playback started is an intervention: in every state a run
    can reach, once Play of the requested queue has been observed, a valid Stop
    notification of the controlled player cancels the run (with the first cause
    kept), and marks a command in flight uncertain, unless the run owns its
    queue and waits for a track transition. *)
Theorem stop_after_play_revokes (p : PlayerConfig) (r0 r : execution) (e : Event) (now at_ : Time) :
  initial_run r0 -> section_run p r0 r ->
  X_queueStart r = queuePlayObserved ->
  X_queueOwned r && (X_automating r || X_loading r) = false ->
  target_event r e = true -> ED_Kind (Event_Data e) = EventState ->
  ED_State (Event_Data e) = PlayStateStop ->
  X_cancelled (event r e now at_) <> None
  /\ (X_inflight r = true -> X_uncertain (event r e now at_) = true).
Proof.
  intros Hi Hrun Hq Hown Ht Hk Hs.
  pose proof (reached_events_ok p r0 r Hi Hrun) as [_ Hstates].
  apply event_revokes.
  - by apply target_not_foreign.
  - unfold progress_event. rewrite Hk. by rewrite andb_false_r.
  - unfold attribute. rewrite Ht. pose proof (acceptQueue_owner r e) as (Ho & Ha & Hl).
    assert ((acceptExpectedEvent r e).1 = false) as Hacc.
    { unfold acceptExpectedEvent. case_if; [done|]. unfold scalar_kind. rewrite Hk. cbn [orb].
      destruct (match_index _ _ _) as [i|] eqn:Hm; [exfalso|done].
      rewrite (kind_state_command e Hk) in Hm. revert Hm. generalize 0%nat. revert Hstates.
      generalize (pending_expectations r state_changed) as ws.
      induction ws as [|w ws IH]; intros Hst n; [done|]. cbn [match_index]. case_if.
      - intros _. destruct (Hst w) as (s & -> & Hne); [by apply list_elem_of_here|].
        match goal with H : expectation_matches _ _ = true |- _ => cbn in H; rewrite Hs in H end.
        breflect. by apply Hne.
      - apply IH. intros w' Hw'. apply Hst. by apply list_elem_of_further. }
    destruct (acceptExpectedEvent r e) as [b r1]. cbn in *. subst b.
    apply queue_decision_passes. rewrite Hk, Hs, Ho, Ha, Hl. done.
Qed.

Definition sample_execution : execution := {|
  X_id := "op"; X_cancelled := None; X_phase := "accepted";
  X_expected := sample_snapshot PlayStateStop None; X_events := no_events; X_inflight := false;
  X_uncertain := false; X_unconfirmed := false; X_rejectedWrite := false; X_buffered := None;
  X_bufferedSkip := None; X_bufferedSkipsClosed := false;
  X_parts := []; X_ordered := None; X_queueLoading := None; X_loading := false; X_playbackStarted := 0;
  X_appendUntil := 0; X_members := {["a"; "b"]}; X_confirmed := 0; X_playbackDeadline := 0;
  X_progress := None; X_bounded := true; X_queueOwned := false; X_queueStart := queueNotStarting;
  X_scalar := None; X_queueWait := 0; X_automating := false; X_keepExpectations := false;
  X_wake := false; X_eventRevision := 0; X_observedRevision := 0; X_lastReadAttempt := 0;
  X_lastRead := 0; X_observedAt := 0 |}.

Definition sample_queue_write : Mutation := Mutation_zero <| Mut_Kind := MutationKindQueue |>.
Definition sample_state_event (s : PlayState) : Event :=
  sample_event EventState [("state", PlayState_string s)] sample_token.
Definition sample_replacing : execution :=
  default sample_execution (expect sample_queue_write sample_execution) <| X_inflight := true |>.
Definition sample_playing : execution := event sample_replacing (sample_state_event PlayStatePlay) 0 0.

Lemma sample_playing_run : section_run sample_config sample_execution sample_playing.
Proof.
  eapply run_more; [eapply run_more; [apply run_none|]|apply step_event].
  eapply (step_expect _ _ sample_queue_write). by vm_compute.
Qed.

Lemma stop_after_play_revokes_witness :
  X_queueStart sample_playing = queuePlayObserved
  /\ X_uncertain (event sample_playing (sample_state_event PlayStateStop) 0 0) = true.
Proof.
  split; [vm_compute; reflexivity|].
  refine (proj2 (stop_after_play_revokes sample_config sample_execution sample_playing
    (sample_state_event PlayStateStop) 0 0 _ sample_playing_run _ _ _ _ _) _);
    [repeat split|vm_compute; reflexivity..].
Defined.

(** The acknowledgement window of a command is bounded: whatever events,
    commands and read-backs interleave, a run never holds more than four
    expected notifications of one command name. *)
Theorem expectations_bounded (p : PlayerConfig) (r0 r : execution) (name : string) :
  initial_run r0 -> section_run p r0 r -> (length (pending_expectations r name) <= 4)%nat.
Proof. intros Hi Hrun. apply (reached_events_ok p r0 r Hi Hrun). Qed.

Lemma expectations_bounded_witness :
  (length (pending_expectations sample_playing state_changed) <= 4)%nat.
Proof.
  apply (expectations_bounded sample_config sample_execution sample_playing);
    [repeat split|exact sample_playing_run].
Defined.

(** A scalar confirmation is what the command asked for: in every state a
    run can reach, a pending volume, mute or mode change that is ready reports
    exactly the requested level, mute flag or modes, and leaves the state,
    media, queue and token of the expected observation as they were. *)
Theorem scalar_ready_is_requested (p : PlayerConfig) (r0 r : execution) (c : scalarConfirmation) (s : Snapshot) :
  initial_run r0 -> section_run p r0 r -> X_scalar r = Some c -> scalar_ready c = true ->
  let m := SC_command c in
  let out := scalar_result c s in
  match Mut_Kind m with
  | MutationKindVolume => Snap_Volume out = Some (Mut_Level m)
  | MutationKindMute => Snap_Muted out = Some (Mut_Muted m)
  | MutationKindMode => Snap_Repeat out = Mut_Repeat m /\ Snap_Shuffle out = Mut_Shuffle m
  | _ => False
  end
  /\ Snap_State out = Snap_State s /\ Snap_Media out = Snap_Media s /\ Snap_Queue out = Snap_Queue s
  /\ Snap_Token out = Snap_Token s /\ Snap_EventUpdated out = true.
Proof.
  intros Hi Hrun Hc Hready. pose proof (reached_scalar p r0 r Hi Hrun c Hc) as Hsound.
  unfold scalar_sound, scalar_ready, scalar_result in *. cbv zeta.
  destruct (Mut_Kind (SC_command c)) eqn:Hk; try done;
    rewrite ?bool_decide_true, ?bool_decide_false in Hready |- * by done; breflect; split_and!; cbn; auto.
Qed.

Definition sample_volume_write : Mutation :=
  Mutation_zero <| Mut_Kind := MutationKindVolume |> <| Mut_Level := 25 |>.
Definition sample_volume_event (level : string) : Event :=
  sample_event EventVolume [("level", level); ("mute", "off")] sample_token.
Definition sample_volume_sent : execution :=
  default sample_execution (expect sample_volume_write sample_execution) <| X_inflight := true |>.
Definition sample_volume_heard : execution := event sample_volume_sent (sample_volume_event "25") 0 0.
Definition sample_confirmation : scalarConfirmation :=
  default (newScalarConfirmation sample_volume_write Snapshot_zero) (X_scalar sample_volume_heard).

Lemma sample_volume_run : section_run sample_config sample_execution sample_volume_heard.
Proof.
  eapply run_more; [eapply run_more; [apply run_none|]|apply step_event].
  eapply (step_expect _ _ sample_volume_write). by vm_compute.
Qed.

Lemma scalar_ready_is_requested_witness :
  Snap_Volume (scalar_result sample_confirmation (sample_snapshot PlayStateStop None)) = Some 25.
Proof.
  exact (proj1 (scalar_ready_is_requested sample_config sample_execution sample_volume_heard
    sample_confirmation (sample_snapshot PlayStateStop None)
    ltac:(repeat split) sample_volume_run ltac:(vm_compute; reflexivity) ltac:(vm_compute; reflexivity))).
Defined.
