(* ===== verification/ReadBack.v ===== *)
(** * What a confirming read-back proves

    The exact conditions under which the asynchronous confirmations of an
    append, a removal, a skip and an initial queue answer "confirmed". *)

From S2P Require Import Prelude GoStd Values Model Diagnostics Errors Events State QueuePolicy.
From S2P Require Import QueueStart QueueOps Evidence Command Execution ExecutionSafety.

(** ** The shared guards *)

(** No cancellation, no expired transition wait, a safe device and no change of
    a control since the command was sent. *)
Definition readback_admissible (p : PlayerConfig) (r : execution) (cause : option error)
    (before after : Snapshot) (now : Time) : Prop :=
  cause = None /\ (X_queueWait r = 0 \/ now < X_queueWait r)
  /\ deviceObservationSafety p after = None /\ queueLoadingControls before after = [].

Lemma len_neq_zero {A} (l : list A) : len l <> 0 <-> l <> [].
Proof. rewrite len_zero. done. Qed.

Lemma readback_guards_none (p : PlayerConfig) (r : execution) (cause : option error)
    (before after : Snapshot) (now : Time) :
  readback_guards p r cause before after now = None <-> readback_admissible p r cause before after now.
Proof.
  unfold readback_guards, readback_admissible, isZero. split.
  - case_if; [by destruct cause|]. case_if; [done|]. destruct (deviceObservationSafety p after); [done|].
    case_if; [done|]. intros _. breflect. rewrite len_zero in *. by split_and!.
  - intros (-> & Hw & -> & ->). cbn. case_if; [|done]. breflect. destruct Hw; lia.
Qed.

(** The confirmation outcome of a guarded decision. *)
Lemma confirmed_cases (b : bool) (r r' : execution) :
  (if b then (Ok true, r') else (Ok false, r)).1 = Ok true <-> b = true.
Proof. destruct b; cbn; naive_solver. Qed.

(** ** Properties *)

(** An append is confirmed exactly when the whole requested order is the
    complete native queue: the read-back is admissible, it contains the old
    queue and a growing exact suffix only, playback goes on with an exact
    current pair, the queue is the requested sequence, and no event received
    so far is left uncovered. *)
Theorem append_confirmed_exactly (p : PlayerConfig) (r : execution) (cause : option error)
    (before after : Snapshot) (now : Time) (ids : list ID) :
  X_ordered r = Some ids ->
  (appendObservation p r cause before after now).1 = Ok true <->
  readback_admissible p r cause before after now
  /\ appendQueueProblem (Snap_Queue before) (Snap_Queue after) ids = false
  /\ orderedQueue (Snap_Queue after) ids = true
  /\ Snap_State after = PlayStatePlay /\ queuedMedia (Snap_Queue after) (Snap_Media after) = true
  /\ pendingEvents (cover_events r before after) = false.
Proof.
  intros Hids. rewrite <- readback_guards_none. unfold appendObservation.
  destruct (readback_guards p r cause before after now); [naive_solver|].
  unfold ordered_ids.
  replace (X_ordered (cover_events r before after)) with (X_ordered r)
    by (symmetry; apply (cover_frame r before after)).
  rewrite Hids. cbn [default from_option id]. cbv zeta.
  destruct (appendQueueProblem _ _ _); [naive_solver|].
  destruct (unsettled_state _) eqn:Hu.
  { split; [done|]. intros (_ & _ & _ & Hs & _). by rewrite Hs in Hu. }
  destruct (queuedMedia _ _) eqn:Hq; cbn [negb andb orb].
  - rewrite confirmed_cases. bgoal. naive_solver.
  - case_if; [naive_solver|]. rewrite andb_false_r. cbn. naive_solver.
Qed.

Definition sample_appended : Snapshot :=
  sample_snapshot PlayStatePlay sample_first <| Snap_Queue := sample_longer |>
    <| Snap_Token := sample_token <| Token_Player := 6 |> |>.
Definition sample_append_run : execution :=
  sample_execution <| X_ordered := Some ["a"; "b"; "a"; "c"] |>
    <| X_expected := sample_snapshot PlayStatePlay sample_first |>.

Lemma append_confirmed_exactly_witness :
  (appendObservation sample_config sample_append_run None
     (sample_snapshot PlayStatePlay sample_first) sample_appended 0).1 = Ok true.
Proof.
  apply (append_confirmed_exactly sample_config sample_append_run None
    (sample_snapshot PlayStatePlay sample_first) sample_appended 0 ["a"; "b"; "a"; "c"]); [reflexivity|].
  split_and!; try (vm_compute; reflexivity). repeat split; [by left|vm_compute; reflexivity..].
Defined.

(** A removal is confirmed exactly when the whole requested prefix and
    nothing else is gone and the listener was not moved: the read-back is
    admissible, the remaining queue is the old one without its first [n]
    entries, the occurrence that was playing is still the current entry at its
    shifted index, and no event is left uncovered. *)
Theorem remove_confirmed_exactly (p : PlayerConfig) (r : execution) (cause : option error)
    (before after : Snapshot) (n : Z) (now : Time) (ids : list ID) :
  X_ordered r = Some ids ->
  (removeObservation p r cause before after n now).1 = Ok true <->
  readback_admissible p r cause before after now
  /\ removedQueuePrefix (Snap_Queue before) (Snap_Queue after) n = Some n
  /\ orderedQueue (Snap_Queue after) ids = true
  /\ queuedMedia (Snap_Queue before) (Snap_Media before) = true /\ n <= queueIndex before
  /\ (exists current, Queue_Items (Snap_Queue after) !! Z.to_nat (queueIndex before - n) = Some current
        /\ same_occurrence (Snap_Media after) current = true)
  /\ Snap_State after = PlayStatePlay /\ queuedMedia (Snap_Queue after) (Snap_Media after) = true
  /\ pendingEvents (cover_events r before after) = false.
Proof.
  intros Hids. rewrite <- readback_guards_none. unfold removeObservation.
  destruct (readback_guards p r cause before after now); [naive_solver|].
  destruct (removedQueuePrefix _ _ n) as [removed|]; [|naive_solver]. cbv zeta.
  destruct (queuedMedia (Snap_Queue before) (Snap_Media before)) eqn:Hqb; [|naive_solver]. cbn [negb orb].
  destruct (queueIndex before <? removed) eqn:Hle; breflect.
  { split; [done|]. intros (_ & [= ->] & _ & _ & H' & _). lia. }
  destruct (Queue_Items _ !! _) as [current|] eqn:Hcur; cycle 1.
  { split; [done|]. intros (_ & [= ->] & _ & _ & _ & (c & Hc & _) & _). congruence. }
  destruct (unsettled_state _) eqn:Hu.
  { split; [done|]. intros (_ & _ & _ & _ & _ & _ & Hs & _). by rewrite Hs in Hu. }
  unfold ordered_ids.
  replace (X_ordered (cover_events r before after)) with (X_ordered r)
    by (symmetry; apply (cover_frame r before after)).
  rewrite Hids. cbn [default from_option id].
  destruct (queuedMedia (Snap_Queue after) (Snap_Media after)) eqn:Hq; cbn [negb andb orb].
  - rewrite confirmed_cases. bgoal. split.
    + intros H. destruct_and!. subst removed. split_and!; try done. by exists current.
    + intros (_ & [= ->] & ? & _ & _ & (c & Hc & Hsame) & ? & _ & ?).
      assert (c = current) as -> by congruence. by split_and!.
  - case_if; [naive_solver|]. rewrite andb_false_r. cbn. naive_solver.
Qed.

Definition sample_removed : Snapshot :=
  sample_snapshot PlayStatePlay (Some (sample_track "b" "1")) <| Snap_Queue := sample_pruned |>
    <| Snap_Token := sample_token <| Token_Player := 6 |> |>.
Definition sample_remove_run : execution :=
  sample_execution <| X_ordered := Some ["b"; "a"] |>
    <| X_expected := sample_snapshot PlayStatePlay sample_second |>.

Lemma remove_confirmed_exactly_witness :
  (removeObservation sample_config sample_remove_run None
     (sample_snapshot PlayStatePlay sample_second) sample_removed 1 0).1 = Ok true.
Proof.
  apply (remove_confirmed_exactly sample_config sample_remove_run None
    (sample_snapshot PlayStatePlay sample_second) sample_removed 1 0 ["b"; "a"]); [reflexivity|].
  split_and!; try (vm_compute; (reflexivity || discriminate)).
  - repeat split; [by left|vm_compute; reflexivity..].
  - exists (sample_track "b" "1"). by vm_compute.
Defined.
