(* ===== verification/Envelope.v ===== *)
(** * Envelopes, refills and results ([internal/control/automation.go],
    [buffered_execution.go], [execution.go], [progressive_skip.go])

    The pure decisions of the playback worker: the level and phase of a bounded
    envelope at a point of its timeline, the level of a fading Stop, the room
    in a buffered queue for the next part, and the terminal result of an
    operation. *)

From S2P Require Import Prelude GoStd Values Model Diagnostics Errors Events State.
From S2P Require Import Command JournalModel.

(** ** The envelope *)

(** [int(elapsed*time.Duration(span)/period)], on 64-bit durations. *)
Definition share (elapsed span period : Z) : Z := Z.quot (i64 (elapsed * span)) period.

Record envelopeStep := { ES_Level : Z; ES_Phase : string; ES_FadeFrom : Z }.

(** [last] is the last confirmed level, [fadeFrom] is negative until the fade starts. *)
Definition envelope (a : Automation) (initial last fadeFrom : Z) (elapsed : Duration) : envelopeStep :=
  let duration := Auto_DurationSeconds a * Second in
  let ramp := Auto_RampSeconds a * Second in
  let fade := Auto_FadeSeconds a * Second in
  if duration <=? elapsed then
    {| ES_Level := if 0 <? fade then 0 else last; ES_Phase := "stopping"; ES_FadeFrom := fadeFrom |}
  else if (0 <? fade) && (duration - fade <=? elapsed) then
    let from := if fadeFrom <? 0 then last else fadeFrom in
    {| ES_Level := from - share (elapsed - (duration - fade)) from fade; ES_Phase := "fading"; ES_FadeFrom := from |}
  else if (0 <? ramp) && (elapsed <? ramp) then
    {| ES_Level := initial + share elapsed (Auto_TargetLevel a - initial) ramp; ES_Phase := "ramping";
       ES_FadeFrom := fadeFrom |}
  else {| ES_Level := Auto_TargetLevel a; ES_Phase := "playing"; ES_FadeFrom := fadeFrom |}.

(** The level of a Stop that fades from [start]. *)
Definition fade_level (start fadeSeconds : Z) (elapsed : Duration) : Z :=
  Z.max 0 (start - share elapsed start (fadeSeconds * Second)).

(** ** The buffered queue *)

Inductive refillAction := refillNoRoom | refillPrune (n : Z) | refillAppend.

Definition refill_due (b : BufferedPlayback) (resident position : Z) : bool :=
  resident - position - 1 <=? Buf_RefillThreshold b.

Definition refill_action (b : BufferedPlayback) (resident position count : Z) : refillAction :=
  if Buf_MaxQueueTracks b <? resident + count then
    let remove := position - Buf_RetainPrevious b in
    if (remove <=? 0) || (Buf_MaxQueueTracks b <? resident - remove + count) then refillNoRoom
    else refillPrune remove
  else refillAppend.

(** ** Terminal results *)

Record completionFacts := {
  CF_Err : option error;
  CF_Stopping : bool;           (* the coordinator's context had ended at first, *)
  CF_Stopped : bool;            (* and at the last check *)
  CF_Cause : option error;      (* [context.Cause] of the run *)
  CF_Uncertain : bool           (* [r.uncertain || r.unconfirmed] *)
}.

Record completion := { CO_State : State; CO_Code : string; CO_Outcome : string }.
#[export] Instance completion_eta : Eta completion := fun c =>
  {| CO_State := CO_State c; CO_Code := CO_Code c; CO_Outcome := CO_Outcome c |}.

Definition has_cause (target : Sentinel) (o : option error) : bool :=
  match o with Some e => errors_is target e | None => false end.

(** [set b c f] is one [if] of the chain in [execute]. *)
Definition when (b : bool) (f : completion -> completion) (c : completion) : completion := if b then f c else c.

Definition complete (facts : completionFacts) : completion :=
  match CF_Err facts with
  | None => {| CO_State := Succeeded; CO_Code := ""; CO_Outcome := "confirmed" |}
  | Some e =>
      let c := {| CO_State := Failed; CO_Code := "device_unavailable"; CO_Outcome := "not_sent" |} in
      let c := when (CF_Stopping facts)
                 (fun c => c <| CO_State := Interrupted |> <| CO_Code := "service_stopping" |>) c in
      let c := when (errors_is ErrOwnership e || has_cause ErrOwnership (CF_Cause facts))
                 (fun c => c <| CO_State := Released |> <| CO_Code := "ownership_lost" |>) c in
      let c := when (CF_Uncertain facts)
                 (fun c => c <| CO_State := Uncertain |> <| CO_Outcome := "unknown" |>) c in
      let c := when (errors_is ErrRejected e)
                 (fun c => c <| CO_Code := "device_rejected" |> <| CO_Outcome := "rejected" |>) c in
      let c := when (errors_is errBufferedSessionExpired e)
                 (fun _ => {| CO_State := Released; CO_Code := "session_expired"; CO_Outcome := "confirmed" |}) c in
      let c := when (errors_is errBufferedCapacity e) (fun c => c <| CO_Code := "buffer_capacity" |>) c in
      let c := when (errors_is errQueueLoadingIncomplete e)
                 (fun c => c <| CO_Code := "queue_loading_incomplete" |> <| CO_Outcome := "confirmed" |>) c in
      let c := when (errors_is ErrNotSkippable e) (fun c => c <| CO_Code := "not_skippable" |>) c in
      when (errors_is errJournalUnavailable e && negb (CF_Stopped facts))
        (fun c => c <| CO_Code := "journal_unavailable" |>) c
  end.

(** The result of a child Skip; [count] is the number of commands it confirmed. *)
Definition skip_result (err : option error) (stopping : bool) (count : Z) (uncertain : bool) : completion :=
  match err with
  | None => {| CO_State := Succeeded; CO_Code := ""; CO_Outcome := "confirmed" |}
  | Some e =>
      let c := {| CO_State := Failed; CO_Code := "device_unavailable"; CO_Outcome := "not_sent" |} in
      let c :=
        if errors_is ErrNotSkippable e then c <| CO_Code := "not_skippable" |>
        else if errors_is errJournalUnavailable e then c <| CO_Code := "journal_unavailable" |>
        else if stopping then c <| CO_State := Interrupted |> <| CO_Code := "service_stopping" |>
        else if errors_is ErrOwnership e || errors_is errSuperseded e || errors_is Canceled e
                || errors_is errPlaybackTimelineChanged e
        then c <| CO_State := Released |> <| CO_Code := "ownership_revoked" |>
        else if errors_is ErrRejected e then c <| CO_Code := "device_rejected" |> <| CO_Outcome := "rejected" |>
        else c in
      let c := if 0 <? count then c <| CO_Outcome := "confirmed" |> else c in
      if uncertain then c <| CO_State := Uncertain |> <| CO_Outcome := "unknown" |> else c
  end.

(** ** Arithmetic *)

Lemma i64_small (z : Z) : - 2 ^ 63 <= z < 2 ^ 63 -> i64 z = z.
Proof. intros H. unfold i64. rewrite Z.mod_small by lia. lia. Qed.

(** Within its range a share is exact, and grows with the elapsed time. *)
Lemma share_exact (elapsed span period : Z) :
  0 <= elapsed <= period -> 0 < period <= 7200 * Second -> 0 <= span <= 100 ->
  share elapsed span period = elapsed * span / period /\ 0 <= elapsed * span / period <= span.
Proof.
  unfold Second. intros He Hp Hs. unfold share. rewrite i64_small by nia.
  split; [apply Z.quot_div_nonneg; nia|]. split; [apply Z.div_pos; nia|].
  apply Z.div_le_upper_bound; nia.
Qed.
Lemma share_mono (e1 e2 span period : Z) :
  0 <= e1 <= e2 -> e2 <= period -> 0 < period <= 7200 * Second -> 0 <= span <= 100 ->
  share e1 span period <= share e2 span period.
Proof.
  intros He He2 Hp Hs. destruct (share_exact e1 span period) as [-> _]; [lia..|].
  destruct (share_exact e2 span period) as [-> _]; [lia..|]. apply Z.div_le_mono; nia.
Qed.

(** ** The run of an envelope *)

(** What [Automation.validate] admits, with the confirmed initial level. *)
Record envelope_ok (a : Automation) (initial : Z) : Prop := {
  eo_levels : 0 <= initial <= Auto_TargetLevel a;
  eo_target : Auto_TargetLevel a <= 100;
  eo_duration : 1 <= Auto_DurationSeconds a <= 7200;
  eo_fade : 0 <= Auto_FadeSeconds a < Auto_DurationSeconds a;
  eo_ramp : 0 <= Auto_RampSeconds a <= Auto_DurationSeconds a - Auto_FadeSeconds a
}.

Lemma validated_envelope (a : Automation) (cmd : Command) (ceiling : option Z) :
  Automation_validate a cmd ceiling = None -> submit_bounds cmd ceiling = None -> envelope_ok a (Cmd_Level cmd).
Proof.
  intros (_ & _ & (c & _ & Hc) & Ht & Hd & Hf & Hf' & Hr)%Automation_validate_none.
  unfold submit_bounds. case_if; [done|]. intros _. breflect. split; lia.
Qed.

(** The ticks of [automate]: each recomputes the level at a later elapsed time;
    the level is confirmed, or the write was skipped and the last one stays. *)
Inductive envelope_run (a : Automation) (initial : Z) : Duration -> Z -> Z -> Prop :=
  | envelope_start : envelope_run a initial 0 initial (-1)
  | envelope_tick elapsed last from elapsed' (confirmed : bool) :
      envelope_run a initial elapsed last from -> elapsed <= elapsed' ->
      let s := envelope a initial last from elapsed' in
      envelope_run a initial elapsed' (if confirmed then ES_Level s else last) (ES_FadeFrom s).

Definition fading (a : Automation) (elapsed : Duration) : bool :=
  (0 <? Auto_FadeSeconds a) && ((Auto_DurationSeconds a - Auto_FadeSeconds a) * Second <=? elapsed).

(** The ideal level before the fade, and during it. *)
Definition rising (a : Automation) (initial elapsed : Z) : Z :=
  if elapsed <? Auto_RampSeconds a * Second
  then initial + share elapsed (Auto_TargetLevel a - initial) (Auto_RampSeconds a * Second)
  else Auto_TargetLevel a.
Definition falling (a : Automation) (from elapsed : Z) : Z :=
  if Auto_DurationSeconds a * Second <=? elapsed then 0
  else from - share (elapsed - (Auto_DurationSeconds a - Auto_FadeSeconds a) * Second) from (Auto_FadeSeconds a * Second).

Lemma rising_bounds (a : Automation) (initial elapsed : Z) :
  envelope_ok a initial -> 0 <= elapsed -> initial <= rising a initial elapsed <= Auto_TargetLevel a.
Proof.
  intros [Hl Ht Hd Hf Hr] He. unfold rising. case_if; [|lia]. breflect. unfold Second in *.
  destruct (share_exact elapsed (Auto_TargetLevel a - initial) (Auto_RampSeconds a * 1000000000)) as [-> ?];
    unfold Second; lia.
Qed.
Lemma rising_mono (a : Automation) (initial e1 e2 : Z) :
  envelope_ok a initial -> 0 <= e1 <= e2 -> rising a initial e1 <= rising a initial e2.
Proof.
  intros Hok He. pose proof (rising_bounds a initial e1 Hok ltac:(lia)) as H1. destruct Hok as [Hl Ht Hd Hf Hr].
  revert H1. unfold rising. repeat case_if; breflect; intros; try lia. unfold Second in *.
  enough (share e1 (Auto_TargetLevel a - initial) (Auto_RampSeconds a * 1000000000)
          <= share e2 (Auto_TargetLevel a - initial) (Auto_RampSeconds a * 1000000000)) by lia.
  apply share_mono; unfold Second; lia.
Qed.

Lemma falling_bounds (a : Automation) (initial from elapsed : Z) :
  envelope_ok a initial -> fading a elapsed = true -> 0 <= from <= 100 -> 0 <= falling a from elapsed <= from.
Proof.
  intros [Hl Ht Hd Hf Hr] Hfade Hfrom. unfold fading, falling in *. breflect. case_if; [lia|]. breflect.
  unfold Second in *.
  match goal with |- context [share ?e ?s ?p] => destruct (share_exact e s p) as [-> ?]; unfold Second; lia end.
Qed.
Lemma falling_mono (a : Automation) (initial from e1 e2 : Z) :
  envelope_ok a initial -> fading a e1 = true -> e1 <= e2 -> 0 <= from <= 100 ->
  falling a from e2 <= falling a from e1.
Proof.
  intros Hok Hfade He Hfrom. pose proof (falling_bounds a initial from e1 Hok Hfade Hfrom) as H1.
  destruct Hok as [Hl Ht Hd Hf Hr]. revert H1. unfold fading, falling in *. breflect.
  repeat case_if; breflect; intros; try lia. unfold Second in *.
  match goal with |- _ - share ?e2 ?s ?p <= _ - share ?e1 _ _ =>
    enough (share e1 s p <= share e2 s p) by lia; apply share_mono; unfold Second; lia end.
Qed.

Record envelope_inv (a : Automation) (initial elapsed last from : Z) : Prop := {
  ei_elapsed : 0 <= elapsed;
  ei_last : 0 <= last <= Auto_TargetLevel a;
  ei_before : fading a elapsed = false ->
    from < 0 /\ (elapsed < Auto_DurationSeconds a * Second -> last <= rising a initial elapsed);
  ei_fading : fading a elapsed = true ->
    (from < 0 /\ Auto_DurationSeconds a * Second <= elapsed)
    \/ (0 <= from <= Auto_TargetLevel a /\ falling a from elapsed <= last)
}.

(** The three shapes of a tick. *)
Lemma envelope_cases (a : Automation) (initial last from elapsed : Z) :
  envelope_ok a initial -> 0 <= elapsed ->
  let s := envelope a initial last from elapsed in
  let from' := if from <? 0 then last else from in
  (fading a elapsed = false /\ elapsed < Auto_DurationSeconds a * Second
     /\ ES_Level s = rising a initial elapsed /\ ES_FadeFrom s = from)
  \/ (fading a elapsed = false /\ Auto_DurationSeconds a * Second <= elapsed
     /\ ES_Level s = last /\ ES_FadeFrom s = from /\ ES_Phase s = "stopping")
  \/ (fading a elapsed = true /\ elapsed < Auto_DurationSeconds a * Second
     /\ ES_Level s = falling a from' elapsed /\ ES_FadeFrom s = from')
  \/ (fading a elapsed = true /\ Auto_DurationSeconds a * Second <= elapsed
     /\ ES_Level s = 0 /\ ES_FadeFrom s = from /\ ES_Phase s = "stopping").
Proof.
  intros [Hl Ht Hd Hf Hr] He. cbv zeta. unfold envelope, fading, rising, falling. unfold Second in *.
  destruct (Auto_DurationSeconds a * 1000000000 <=? elapsed) eqn:Hdone; cbn [ES_Level ES_Phase ES_FadeFrom].
  { destruct (0 <? Auto_FadeSeconds a) eqn:Hfa; [right; right; right|right; left].
    - rewrite (proj2 (Z.ltb_lt 0 (Auto_FadeSeconds a * 1000000000))) by (breflect; lia).
      split_and!; try done; bgoal; lia.
    - rewrite (proj2 (Z.ltb_ge 0 (Auto_FadeSeconds a * 1000000000))) by (breflect; lia).
      split_and!; try done; breflect; lia. }
  destruct ((0 <? Auto_FadeSeconds a * 1000000000)
    && (Auto_DurationSeconds a * 1000000000 - Auto_FadeSeconds a * 1000000000 <=? elapsed)) eqn:Hfd;
    cbn [ES_Level ES_Phase ES_FadeFrom].
  { right. right. left. breflect. split_and!; try done; try (bgoal; lia). by rewrite Z.mul_sub_distr_r. }
  left. split_and!; [| | |by case_if].
  - apply not_true_iff. intros H. apply not_true_iff in Hfd. apply Hfd. breflect. bgoal. lia.
  - breflect. lia.
  - destruct (0 <? Auto_RampSeconds a * 1000000000) eqn:Hra; cbn [andb].
    + by case_if.
    + breflect. case_if; breflect; [lia|done].
Qed.

Lemma fading_later (a : Automation) (e e' : Z) : fading a e = true -> e <= e' -> fading a e' = true.
Proof. unfold fading. breflect. intros H1 H2. breflect. bgoal. lia. Qed.

Lemma envelope_step_inv (a : Automation) (initial elapsed last from elapsed' : Z) (confirmed : bool) :
  envelope_ok a initial -> envelope_inv a initial elapsed last from -> elapsed <= elapsed' ->
  let s := envelope a initial last from elapsed' in
  envelope_inv a initial elapsed' (if confirmed then ES_Level s else last) (ES_FadeFrom s)
  /\ 0 <= ES_Level s <= Auto_TargetLevel a
  /\ (fading a elapsed' = false -> last <= ES_Level s)
  /\ (fading a elapsed' = true -> ES_Level s <= last).
Proof.
  intros Hok [H0 Hlast Hb Hfd] Hle. cbv zeta. pose proof (eo_target _ _ Hok) as Ht.
  assert (fading a elapsed' = false -> fading a elapsed = false) as Hmon.
  { intros H. apply not_true_iff. intros H1. apply not_true_iff in H. by apply H, (fading_later a elapsed). }
  pose proof (rising_bounds a initial elapsed' Hok ltac:(lia)) as Hrise.
  pose proof (eo_levels _ _ Hok) as Hinit.
  destruct (envelope_cases a initial last from elapsed' Hok ltac:(lia))
    as [(Hf & Hd & -> & ->)|[(Hf & Hd & -> & -> & _)|[(Hf & Hd & -> & ->)|(Hf & Hd & -> & -> & _)]]].
  - destruct (Hb (Hmon Hf)) as [Hneg Hup].
    pose proof (rising_mono a initial elapsed elapsed' Hok ltac:(lia)) as Hm.
    assert (last <= rising a initial elapsed') by (specialize (Hup ltac:(lia)); lia).
    split_and!; try lia; [|congruence]. split; [lia|destruct confirmed; lia| |congruence].
    intros _. split; [done|]. intros _. destruct confirmed; lia.
  - destruct (Hb (Hmon Hf)) as [Hneg Hup]. split_and!; try lia; try congruence.
    split; [lia|by destruct confirmed| |congruence]. intros _. split; [done|lia].
  - set (from' := if from <? 0 then last else from).
    assert (0 <= from' <= Auto_TargetLevel a /\ falling a from' elapsed' <= last) as [Hfrom Hbelow].
    { subst from'. destruct (fading a elapsed) eqn:Hfe.
      - destruct (Hfd eq_refl) as [[_ Hx]|[Hx Hy]]; [lia|]. rewrite (proj2 (Z.ltb_ge _ _)) by lia. split; [done|].
        pose proof (falling_mono a initial from elapsed elapsed' Hok Hfe Hle ltac:(lia)). lia.
      - destruct (Hb eq_refl) as [Hneg _]. rewrite (proj2 (Z.ltb_lt _ _)) by lia. split; [done|].
        pose proof (falling_bounds a initial last elapsed' Hok Hf ltac:(lia)). lia. }
    pose proof (falling_bounds a initial from' elapsed' Hok Hf ltac:(lia)) as Hbound.
    split_and!; try lia; try congruence.
    split; [lia|destruct confirmed; lia|congruence|]. intros _. right. destruct confirmed; lia.
  - assert (forall f, falling a f elapsed' = 0) as Hzero by (intros f; unfold falling; by rewrite (proj2 (Z.leb_le _ _))).
    split_and!; try lia; try congruence. split; [lia|destruct confirmed; lia|congruence|].
    intros _. destruct (Z_lt_dec from 0) as [Hneg|Hneg]; [by left|]. right. rewrite Hzero.
    split; [|destruct confirmed; lia]. destruct (fading a elapsed) eqn:Hfe.
    + destruct (Hfd eq_refl) as [[Hx _]|[Hx _]]; lia.
    + destruct (Hb eq_refl); lia.
Qed.

Lemma envelope_reached (a : Automation) (initial elapsed last from : Z) :
  envelope_ok a initial -> envelope_run a initial elapsed last from -> envelope_inv a initial elapsed last from.
Proof.
  intros Hok. induction 1 as [|elapsed last from elapsed' confirmed Hrun IH Hle s].
  - destruct Hok as [Hl Ht Hd Hf Hr]. unfold Second. split; [lia|lia| |].
    + intros _. split; [lia|]. intros _. by apply rising_bounds; [split|].
    + unfold fading, Second. intros H. breflect. lia.
  - by apply envelope_step_inv with (elapsed := elapsed).
Qed.

(** C11. A validated envelope is one hill: whatever the delays of its ticks and
    whichever level writes are skipped, a tick's level stays between zero and
    the target, never falls below the last confirmed level before the fade and
    never rises above it afterwards, and at the end of the duration it is zero
    if a fade was asked for and unchanged otherwise. *)
Theorem envelope_rises_then_falls (a : Automation) (cmd : Command) (ceiling : option Z)
    (elapsed last from elapsed' : Z) :
  Automation_validate a cmd ceiling = None -> submit_bounds cmd ceiling = None ->
  envelope_run a (Cmd_Level cmd) elapsed last from -> elapsed <= elapsed' ->
  let s := envelope a (Cmd_Level cmd) last from elapsed' in
  0 <= ES_Level s <= Auto_TargetLevel a
  /\ (fading a elapsed' = false -> last <= ES_Level s)
  /\ (fading a elapsed' = true -> ES_Level s <= last)
  /\ (Auto_DurationSeconds a * Second <= elapsed' ->
      ES_Phase s = "stopping" /\ ES_Level s = if 0 <? Auto_FadeSeconds a then 0 else last).
Proof.
  intros Ha Hs Hrun Hle. pose proof (validated_envelope a cmd ceiling Ha Hs) as Hok.
  pose proof (envelope_reached _ _ _ _ _ Hok Hrun) as Hinv.
  destruct (envelope_step_inv a (Cmd_Level cmd) elapsed last from elapsed' true Hok Hinv Hle) as (_ & H1 & H2 & H3).
  cbv zeta. split_and!; [apply H1|apply H1|done|done|].
  intros Hend. unfold envelope. rewrite (proj2 (Z.leb_le _ _) Hend). cbn. split; [done|].
  unfold Second. case_if; case_if; breflect; lia.
Qed.

(** C12. A buffered queue never runs out of room for its next part. When the
    policy was admitted and a refill is due, either the part fits, or pruning
    some played tracks - never the retained ones before the current track -
    makes it fit at once: [errBufferedCapacity] cannot happen. *)
Theorem refill_always_fits (b : BufferedPlayback) (cmd : Command) (resident position n : Z) :
  BufferedPlayback_validate b cmd = None -> n ∈ Buf_PartTracks b ->
  0 <= position < resident -> refill_due b resident position = true ->
  match refill_action b resident position n with
  | refillNoRoom => False
  | refillPrune k =>
      0 < k /\ Buf_RetainPrevious b <= position - k
      /\ refill_due b (resident - k) (position - k) = true
      /\ refill_action b (resident - k) (position - k) n = refillAppend
  | refillAppend => resident + n <= Buf_MaxQueueTracks b
  end.
Proof.
  intros (Ht & Hm & Hr & _ & _ & Hn & _)%BufferedPlayback_validate_none Hin Hpos.
  rewrite Forall_forall in Hn. specialize (Hn n Hin). unfold refill_due, refill_action. intros Hdue. breflect.
  destruct (Buf_MaxQueueTracks b <? resident + n) eqn:Hfull; breflect; [|done].
  rewrite (proj2 (Z.leb_gt _ _)), (proj2 (Z.ltb_ge _ _)) by lia. cbn [orb].
  rewrite (proj2 (Z.leb_le _ _)), (proj2 (Z.ltb_ge _ _)) by lia. split_and!; (done || lia).
Qed.

(** The recorded result of an operation is final and never flatters it: it
    is Succeeded exactly when no error was met, an operation that failed while
    a command was uncertain or unconfirmed is never reported as not sent, and
    stays Uncertain unless the session merely expired. *)
Theorem completion_is_truthful (facts : completionFacts) :
  let c := complete facts in
  (CO_State c = Succeeded <-> CF_Err facts = None)
  /\ (CO_Code c = "" <-> CF_Err facts = None)
  /\ State_terminal (CO_State c) = true
  /\ (CF_Err facts <> None -> CF_Uncertain facts = true ->
      CO_Outcome c <> "not_sent"
      /\ (has_cause errBufferedSessionExpired (CF_Err facts) = false -> CO_State c = Uncertain)).
Proof.
  destruct facts as [[e|] stopping stopped cause uncertain];
    cbn [CF_Err CF_Stopping CF_Stopped CF_Cause CF_Uncertain]; [|done].
  unfold complete, when. cbn [CF_Err CF_Stopping CF_Stopped CF_Cause CF_Uncertain].
  generalize (errors_is ErrOwnership e || has_cause ErrOwnership cause) as own.
  cbn [has_cause].
  generalize (errors_is ErrRejected e) as rejected, (errors_is errBufferedSessionExpired e) as expired,
    (errors_is errBufferedCapacity e) as full, (errors_is errQueueLoadingIncomplete e) as incomplete,
    (errors_is ErrNotSkippable e) as boundary, (errors_is errJournalUnavailable e && negb stopped) as journal.
  intros [] [] [] [] [] [] []; destruct stopping, uncertain; cbn; repeat split; (done || congruence).
Qed.

Definition sample_automation : Automation := {|
  Auto_TargetLevel := 30; Auto_RampSeconds := 20; Auto_DurationSeconds := 100; Auto_FadeSeconds := 10 |}.
Definition sample_alarm : Command := Command_zero <| Cmd_Kind := CommandKindPlayback |> <| Cmd_Level := 10 |>
  <| Cmd_Repeat := RepeatOff |> <| Cmd_Automation := Some sample_automation |>.

Lemma envelope_rises_then_falls_witness :
  ES_Level (envelope sample_automation 10 20 (-1) (15 * Second)) = 25
  /\ 0 <= ES_Level (envelope sample_automation 10 20 (-1) (15 * Second)) <= 30.
Proof.
  split; [reflexivity|].
  refine (proj1 (envelope_rises_then_falls sample_automation sample_alarm (Some 40) (10 * Second) 20 (-1)
    (15 * Second) _ _ _ _)); [reflexivity|reflexivity| |vm_compute; discriminate].
  exact (envelope_tick sample_automation 10 0 10 (-1) (10 * Second) true
    (envelope_start _ _) ltac:(vm_compute; discriminate)).
Defined.

Definition sample_policy : BufferedPlayback := {|
  Buf_PartTracks := [3; 4]; Buf_RefillThreshold := 2; Buf_MaxQueueTracks := 10; Buf_RetainPrevious := 1;
  Buf_MaxSessionSeconds := 600 |}.
Definition sample_session : Command := Command_zero <| Cmd_Kind := CommandKindPlayback |>
  <| Cmd_Repeat := RepeatOff |> <| Cmd_ItemRefs := Some ["a"; "b"] |> <| Cmd_Buffered := Some sample_policy |>.

Lemma refill_always_fits_witness :
  refill_action sample_policy 8 6 4 = refillPrune 5
  /\ (0 < 5 /\ 1 <= 6 - 5 /\ refill_due sample_policy 3 1 = true
      /\ refill_action sample_policy 3 1 4 = refillAppend).
Proof.
  split; [reflexivity|].
  refine (refill_always_fits sample_policy sample_session 8 6 4 _ _ _ _);
    [reflexivity|set_solver|lia|reflexivity].
Defined.
