(* ===== verification/Journal.v ===== *)
(** * The journal ([internal/journal/operations.go], [queries/operations.sql])

    The tables as finite maps and every journal transaction as a function of
    the database, the store and the clock.  A transaction locks the control row
    first, so transactions are atomic steps; one that fails is rolled back and
    returns the database it found.  The fate of a COMMIT is an argument. *)

From S2P Require Import Prelude GoStd Values Model Diagnostics Errors Json JournalModel.

(** ** Tables *)

Definition request_key : Type := string * string * string * string.

Record idempotency_record := {
  IR_hash : string;
  IR_operation : string;
  IR_expires : Time
}.
#[export] Instance idempotency_record_eta : Eta idempotency_record := fun r =>
  {| IR_hash := IR_hash r; IR_operation := IR_operation r; IR_expires := IR_expires r |}.

Record reservation := { Res_operation : string; Res_epoch : string }.

Record database := {
  DB_epoch : string;
  DB_ready : bool;
  DB_operations : gmap string Operation;
  DB_requests : gmap request_key idempotency_record;
  DB_reservations : gmap string reservation
}.
#[export] Instance database_eta : Eta database := fun d =>
  {| DB_epoch := DB_epoch d; DB_ready := DB_ready d; DB_operations := DB_operations d;
     DB_requests := DB_requests d; DB_reservations := DB_reservations d |}.

(** One process: its epoch is fresh, [initialized] is set by [Recover]. *)
Record Store := {
  Store_epoch : string;
  Store_maxOperations : Z;
  Store_initialized : bool;
  Store_previousEpoch : option string
}.
#[export] Instance Store_eta : Eta Store := fun s =>
  {| Store_epoch := Store_epoch s; Store_maxOperations := Store_maxOperations s;
     Store_initialized := Store_initialized s; Store_previousEpoch := Store_previousEpoch s |}.

(** The COMMIT was acknowledged, applied without its reply, or not applied. *)
Inductive commit_fate := Committed | ReplyLost | NotCommitted.

Definition request_id (r : Request) : request_key :=
  (Req_Principal r, Req_Method r, Req_Endpoint r, Req_Key r).

(** ** Queries *)

Definition LookupRequest (d : database) (r : Request) : option idempotency_record :=
  DB_requests d !! request_id r.

Definition GetOperation (d : database) (id : string) : option Operation := DB_operations d !! id.

(** The join of operations and reservations for one player, in some order. *)
Definition reserved_operations (d : database) : list Operation :=
  omap (fun kr => DB_operations d !! Res_operation kr.2) (map_to_list (DB_reservations d)).

Definition ActiveOperation (d : database) (player : string) : option Operation :=
  head (filter (fun o => Op_Player o = player) (reserved_operations d)).

Definition CountOperations (d : database) (limit : Z) : Z :=
  Z.min limit (Z.of_nat (size (DB_operations d))).

Definition InsertOperation (d : database) (o : Operation) : option database :=
  if is_some (DB_operations d !! Op_ID o) then None
  else Some (d <| DB_operations := <[Op_ID o := o]> (DB_operations d) |>).

Definition InsertRequest (d : database) (k : request_key) (row : idempotency_record) : option database :=
  if is_some (DB_requests d !! k) then None
  else Some (d <| DB_requests := <[k := row]> (DB_requests d) |>).

(** [None] is the unique violation of [device_reservations_pkey]. *)
Definition ReserveDevice (d : database) (device id epoch : string) : option database :=
  if is_some (DB_reservations d !! device) then None
  else Some (d <| DB_reservations := <[device := {| Res_operation := id; Res_epoch := epoch |}]> (DB_reservations d) |>).

Definition transitioned (o : Operation) (state : State) (phase : string) (progress outcome : json)
    (code : string) (now : Time) : Operation :=
  o <| Op_State := state |> <| Op_Revision := Op_Revision o + 1 |> <| Op_Phase := phase |>
    <| Op_Progress := progress |> <| Op_Outcome := outcome |> <| Op_ErrorCode := code |>
    <| Op_UpdatedAt := now |>
    <| Op_StartedAt := if state == Running then Some (default now (Op_StartedAt o)) else Op_StartedAt o |>
    <| Op_FinishedAt := if State_terminal state then Some now else None |>.

(** The row that an optimistic update may touch. *)
Definition updatable (d : database) (id epoch : string) (revision : Z) : option Operation :=
  match DB_operations d !! id with
  | Some o => if (Op_Revision o =? revision) && (Op_Epoch o == epoch) && (Op_FinishedAt o == None)
              then Some o else None
  | None => None
  end.

Definition TransitionOperation (d : database) (id epoch : string) (revision : Z) (state : State)
    (phase : string) (progress outcome : json) (code : string) (now : Time) : option (Operation * database) :=
  match updatable d id epoch revision with
  | None => None
  | Some o =>
      let o' := transitioned o state phase progress outcome code now in
      Some (o', d <| DB_operations := <[id := o']> (DB_operations d) |>)
  end.

Definition SelectAlbum_query (d : database) (id epoch : string) (revision : Z) (album : string) (now : Time) :
    option (Operation * database) :=
  match updatable d id epoch revision with
  | None => None
  | Some o =>
      if is_some (Op_SelectedAlbum o) then None
      else let o' := o <| Op_SelectedAlbum := Some album |> <| Op_Revision := Op_Revision o + 1 |>
                       <| Op_UpdatedAt := now |> in
           Some (o', d <| DB_operations := <[id := o']> (DB_operations d) |>)
  end.

Definition ReleaseReservations (d : database) (ids : list string) : database :=
  d <| DB_reservations := filter (fun kr => Res_operation kr.2 ∉ ids) (DB_reservations d) |>.

Definition ExtendRetention (d : database) (ids : list string) (expires : Time) : database :=
  d <| DB_requests := (fun row => if IR_operation row in? ids
                                  then row <| IR_expires := Z.max (IR_expires row) expires |> else row)
                      <$> DB_requests d |>.

(** Unfinished work of another epoch, by ascending ID. *)
Definition unfinished_elsewhere (epoch : string) (o : Operation) : Prop :=
  Op_Epoch o <> epoch /\ Op_FinishedAt o = None.
#[export] Instance unfinished_elsewhere_dec epoch o : Decision (unfinished_elsewhere epoch o).
Proof. unfold unfinished_elsewhere. apply _. Defined.

Definition interrupt_ids (d : database) (epoch : string) (limit : Z) : list string :=
  take (Z.to_nat limit)
    (merge_sort String.le (map fst (map_to_list
       (filter (fun ko => unfinished_elsewhere epoch ko.2) (DB_operations d))))).

Definition recovery_outcome (o : Operation) : json := JObject [
  ("device_state", JString "unknown"); ("playback_may_continue", JBool true);
  ("diagnostics", JObject [("reason", JString "process_interrupted"); ("rule", JNull);
     ("phase", JString (Op_Phase o)); ("detected_at", JNull); ("source", JString "recovery");
     ("changed_fields", JArray [])])].

Definition interrupted (now : Time) (o : Operation) : Operation :=
  o <| Op_State := Uncertain |> <| Op_Phase := "restart" |> <| Op_ErrorCode := "process_interrupted" |>
    <| Op_Outcome := recovery_outcome o |> <| Op_Revision := Op_Revision o + 1 |>
    <| Op_UpdatedAt := now |> <| Op_FinishedAt := Some now |>.

Definition InterruptBatch (d : database) (epoch : string) (now : Time) (limit : Z) : list string * database :=
  let ids := interrupt_ids d epoch limit in
  (ids, d <| DB_operations := foldr (fun id ops => alter (interrupted now) id ops) (DB_operations d) ids |>).

(** Fully expired terminal work, oldest first. *)
Definition prunable (d : database) (finished expires : Time) (o : Operation) : Prop :=
  (exists t, Op_FinishedAt o = Some t /\ t <= finished)
  /\ map_Forall (fun _ row => IR_operation row = Op_ID o -> IR_expires row <= expires) (DB_requests d)
  /\ map_Forall (fun _ r => Res_operation r <> Op_ID o) (DB_reservations d).
#[export] Instance prunable_dec d finished expires o : Decision (prunable d finished expires o).
Proof.
  unfold prunable. apply and_dec; [|apply _].
  destruct (Op_FinishedAt o) as [t|]; [|right; naive_solver].
  destruct (decide (t <= finished)); [left; eauto|right; naive_solver].
Defined.

(** [ORDER BY finished_at, id]. *)
Definition prune_le (a b : Operation) : Prop :=
  default 0 (Op_FinishedAt a) < default 0 (Op_FinishedAt b)
  \/ (default 0 (Op_FinishedAt a) = default 0 (Op_FinishedAt b) /\ String.le (Op_ID a) (Op_ID b)).
#[export] Instance prune_le_dec a b : Decision (prune_le a b).
Proof. unfold prune_le. apply _. Defined.

Definition PruneOperations (d : database) (finished expires : Time) (limit : Z) : list string * database :=
  let rows := take (Z.to_nat limit) (merge_sort prune_le
                (filter (prunable d finished expires) (map snd (map_to_list (DB_operations d))))) in
  let ids := map Op_ID rows in
  (* idempotency records of a deleted operation go with it: ON DELETE CASCADE *)
  (ids, d <| DB_operations := filter (fun ko => ko.1 ∉ ids) (DB_operations d) |>
          <| DB_requests := filter (fun kr => IR_operation kr.2 ∉ ids) (DB_requests d) |>).

(** ** Transactions *)

Definition active (s : Store) (d : database) : option error :=
  if negb (Store_initialized s) || negb (DB_ready d) then Some (ESentinel JErrNotInitialized)
  else if DB_epoch d != Store_epoch s then Some (ESentinel JErrStaleEpoch)
  else None.

Definition finish (d : database) (ids : list string) (now : Time) : database :=
  ExtendRetention (ReleaseReservations d ids) ids (now + Retention).

Definition lookup (d : database) (r : Request) (hash : string) : Result Operation :=
  match LookupRequest d r with
  | None => Err (ESentinel JErrNotFound)
  | Some record =>
      if IR_hash record != hash then Err (ESentinel JErrConflict)
      else match GetOperation d (IR_operation record) with
           | Some o => Ok o
           | None => Err (EText "read admitted operation")
           end
  end.

(** The fate of a transaction that computed [d'] from [d]. *)
Definition commit_state (fate : commit_fate) (d d' : database) : database :=
  match fate with NotCommitted => d | _ => d' end.

Definition operation_kinds : list string :=
  ["alarm"; "playback"; "volume"; "mute"; "transport"; "skip"; "stop"; "cancel"].

Section Transactions.
Context (json_size : json -> Z) (sha256 : string -> string -> json -> string) (time_text : Time -> string).

Definition Lookup (d : database) (r : Request) : Result Operation :=
  let? hash := fingerprint json_size sha256 r in lookup d r hash.

Definition Get (d : database) (id : string) : Result Operation :=
  match GetOperation d id with Some o => Ok o | None => Err (ESentinel JErrNotFound) end.

Definition Active (d : database) (player : string) : Result Operation :=
  match ActiveOperation d player with Some o => Ok o | None => Err (ESentinel JErrNotFound) end.

(** The owner check of a child Skip. *)
Definition admit_owner (s : Store) (d : database) (r : Request) (p : Proposal) : option error :=
  if Prop_OwnerID p == "" then None
  else if (Prop_Kind p != "skip") || (Prop_ReplaceID p != "") || (Prop_ReplaceRevision p != 0)
          || Prop_ReplaceUncertain p then Some (ESentinel JErrInvalid)
  else match ActiveOperation d (Req_Player r) with
       | None => Some (ESentinel JErrRevision)
       | Some owner =>
           if (Op_ID owner != Prop_OwnerID p) || (Op_DeviceKey owner != Prop_DeviceKey p)
              || (Op_Epoch owner != Store_epoch s) || (Op_Kind owner != "playback")
              || (Op_Principal owner != Req_Principal r) || is_some (Op_FinishedAt owner)
           then Some (ESentinel JErrRevision) else None
       end.

(** The handoff of the previous reservation, inside the same transaction. *)
Definition admit_replace (s : Store) (d : database) (r : Request) (p : Proposal) (now : Time) : Result database :=
  if Prop_ReplaceID p == "" then Ok d
  else match ActiveOperation d (Req_Player r) with
       | None => Err (ESentinel JErrRevision)
       | Some old =>
           if (Op_ID old != Prop_ReplaceID p) || (Op_DeviceKey old != Prop_DeviceKey p)
              || (Op_Revision old != Prop_ReplaceRevision p) then Err (ESentinel JErrRevision)
           else
             let? u := handoffUpdate json_size time_text old p now in
             let '(state, phase, progress, outcome, code) := u in
             match TransitionOperation d (Op_ID old) (Store_epoch s) (Op_Revision old) state phase
                     progress outcome code now with
             | None => Err (EText "no rows in result set")
             | Some (_, d1) => Ok (finish d1 [Op_ID old] now)
             end
       end.

Definition accepted_operation (s : Store) (r : Request) (p : Proposal) (effective : json)
    (id : string) (now : Time) : Operation := {|
  Op_ID := id; Op_Kind := Prop_Kind p; Op_Player := Req_Player r; Op_DeviceKey := Prop_DeviceKey p;
  Op_Principal := Req_Principal r; Op_Epoch := Store_epoch s; Op_State := Accepted; Op_Revision := 1;
  Op_Phase := ""; Op_ConfigRevision := Prop_ConfigRevision p; Op_EffectiveArguments := effective;
  Op_SelectedAlbum := None; Op_Progress := empty_object; Op_Outcome := empty_object; Op_ErrorCode := "";
  Op_ScheduledFor := Prop_NotBefore p; Op_NotAfter := Prop_NotAfter p; Op_CreatedAt := now;
  Op_UpdatedAt := now; Op_StartedAt := None; Op_FinishedAt := None |}.

(** The three inserts; [id] is the random suffix's operation ID. *)
Definition admit_insert (d : database) (r : Request) (p : Proposal) (hash : string) (o : Operation)
    (now : Time) : Result database :=
  match InsertOperation d o with
  | None => Err (EText "insert operation")
  | Some d1 =>
      match InsertRequest d1 (request_id r)
              {| IR_hash := hash; IR_operation := Op_ID o; IR_expires := now + Retention |} with
      | None => Err (EText "insert idempotency record")
      | Some d2 =>
          if Prop_OwnerID p == "" then
            match ReserveDevice d2 (Prop_DeviceKey p) (Op_ID o) (Op_Epoch o) with
            | None => Err (ESentinel JErrBusy)
            | Some d3 => Ok d3
            end
          else Ok d2
      end
  end.

(** Everything of [Admit] between the miss of the lookup and COMMIT. *)
Definition admit_transaction (s : Store) (d : database) (r : Request) (p : Proposal) (hash id : string)
    (now : Time) : Result (Operation * database) :=
  match active s d with
  | Some e => Err e
  | None =>
      if negb (textWithin (Prop_DeviceKey p) 256) || negb (textWithin (Prop_ConfigRevision p) 256)
      then Err (ESentinel JErrInvalid)
      else if negb (Prop_Kind p in? operation_kinds) then Err (ESentinel JErrInvalid)
      else
        let? effective := canonical json_size (Prop_EffectiveArguments p) in
        if isZero (Prop_NotBefore p) || (Prop_NotAfter p <=? Prop_NotBefore p) then Err (ESentinel JErrInvalid)
        else if now <? Prop_NotBefore p then Err (ESentinel JErrFuture)
        else if Prop_NotAfter p <=? now then Err (ESentinel JErrExpired)
        else if Store_maxOperations s <=? CountOperations d (Store_maxOperations s)
        then Err (ESentinel JErrCapacity)
        else match admit_owner s d r p with
             | Some e => Err e
             | None =>
                 let? d1 := admit_replace s d r p now in
                 let o := accepted_operation s r p effective id now in
                 let? d2 := admit_insert d1 r p hash o now in
                 Ok (o, d2)
             end
  end.

(** Resolution of an unacknowledged COMMIT by the request's own identity. *)
Definition admit_resolve (s : Store) (d : database) (r : Request) (hash id : string) : Result Admission :=
  match lookup d r hash with
  | Err e => Err (EWrap [ESentinel JErrCommitUncertain; e])
  | Ok o => Ok {| Adm_Operation := o;
                  Adm_Created := (DB_epoch d == Store_epoch s) && DB_ready d && (Op_ID o == id)
                                 && (Op_Epoch o == Store_epoch s) && (Op_State o == Accepted);
                  Adm_RecoveredCommit := true |}
  end.

(** [seen] is what other processes made of the database before the call reads
    it again; the database returned is the one right after this call's COMMIT. *)
Definition Admit (s : Store) (d : database) (r : Request) (p : Proposal) (id : string) (now : Time)
    (fate : commit_fate) (seen : database -> database) : Result Admission * database :=
  match fingerprint json_size sha256 r with
  | Err e => (Err e, d)
  | Ok hash =>
      match lookup d r hash with
      | Ok previous => (Ok {| Adm_Operation := previous; Adm_Created := false; Adm_RecoveredCommit := false |}, d)
      | Err e =>
          if negb (errors_is JErrNotFound e) then (Err e, d)
          else match admit_transaction s d r p hash id now with
               | Err e => (Err e, d)
               | Ok (o, d') =>
                   let after := commit_state fate d d' in
                   (match fate with
                    | Committed => Ok {| Adm_Operation := o; Adm_Created := true; Adm_RecoveredCommit := false |}
                    | _ => admit_resolve s (seen after) r hash id
                    end, after)
               end
      end
  end.

Definition Transition (s : Store) (d : database) (id : string) (revision : Z) (u : Update) (now : Time)
    (fate : commit_fate) : Result Operation * database :=
  if (revision <? 1) || (128 <? slen (Upd_Phase u)) || (128 <? slen (Upd_ErrorCode u))
     || ((Upd_State u != Running) && negb (State_terminal (Upd_State u)))
  then (Err (ESentinel JErrInvalid), d)
  else
    match canonical json_size (default (marshal json_size empty_object) (Upd_Progress u)) with
    | Err e => (Err e, d)
    | Ok progress =>
        match canonical json_size (default (marshal json_size empty_object) (Upd_Outcome u)) with
        | Err e => (Err e, d)
        | Ok outcome =>
            match active s d with
            | Some e => (Err e, d)
            | None =>
                match TransitionOperation d id (Store_epoch s) revision (Upd_State u) (Upd_Phase u)
                        progress outcome (Upd_ErrorCode u) now with
                | None => (Err (ESentinel JErrRevision), d)
                | Some (o, d1) =>
                    let d2 := if State_terminal (Upd_State u) then finish d1 [id] now else d1 in
                    (match fate with
                     | Committed => Ok o
                     | _ => Err (EWrap [ESentinel JErrCommitUncertain])
                     end, commit_state fate d d2)
                end
            end
        end
    end.

Definition SelectAlbum (s : Store) (d : database) (id : string) (revision : Z) (album : string) (now : Time)
    (fate : commit_fate) : Result Operation * database :=
  if negb (textWithin album 1024) || (revision <? 1) then (Err (ESentinel JErrInvalid), d)
  else match active s d with
       | Some e => (Err e, d)
       | None =>
           match SelectAlbum_query d id (Store_epoch s) revision album now with
           | None => (Err (ESentinel JErrRevision), d)
           | Some (o, d1) =>
               (match fate with
                | Committed => Ok o
                | _ => Err (EWrap [ESentinel JErrCommitUncertain])
                end, commit_state fate d d1)
           end
       end.

(** One bounded batch; the store remembers the epoch it first saw. *)
Definition recoverBatch (s : Store) (d : database) (now : Time) (fate : commit_fate) :
    Result bool * Store * database :=
  let s := match Store_previousEpoch s with
           | Some _ => s
           | None => s <| Store_previousEpoch := Some (DB_epoch d) |>
           end in
  if (Some (DB_epoch d) != Store_previousEpoch s) && (DB_epoch d != Store_epoch s)
  then (Err (ESentinel JErrStaleEpoch), s, d)
  else
    let d1 := d <| DB_epoch := Store_epoch s |> <| DB_ready := false |> in
    let '(ids, d2) := InterruptBatch d1 (Store_epoch s) now MaxBatch in
    let d3 := finish d2 ids now in
    let done := len ids <? MaxBatch in
    let d4 := if done then d3 <| DB_ready := true |> else d3 in
    (match fate with
     | Committed => Ok done
     | _ => Err (EWrap [ESentinel JErrCommitUncertain])
     end, s, commit_state fate d d4).

(** The loop of [Recover]; [fates] gives the fate of each batch's COMMIT. *)
Fixpoint Recover (fuel : nat) (s : Store) (d : database) (now : Time) (fates : nat -> commit_fate) :
    option (Result unit * Store * database) :=
  if Store_initialized s then Some (Ok tt, s, d)
  else match fuel with
       | O => None
       | S fuel =>
           match recoverBatch s d now (fates fuel) with
           | (Err e, s, d) => Some (Err e, s, d)
           | (Ok true, s, d) => Some (Ok tt, s <| Store_initialized := true |>, d)
           | (Ok false, s, d) => Recover fuel s d now fates
           end
       end.

Definition Prune (s : Store) (d : database) (limit : Z) (now : Time) (fate : commit_fate) :
    Result Z * database :=
  if (limit <? 1) || (MaxBatch <? limit) then (Err (ESentinel JErrInvalid), d)
  else match active s d with
       | Some e => (Err e, d)
       | None =>
           let '(ids, d1) := PruneOperations d (now - Retention) now limit in
           (match fate with
            | Committed => Ok (len ids)
            | _ => Err (EWrap [ESentinel JErrCommitUncertain])
            end, commit_state fate d d1)
       end.
End Transactions.
