(* ===== verification/JournalSafety.v ===== *)
(** * What the journal guarantees

    [journal_ok] is the schema's integrity together with the rule that only
    unfinished work holds a reservation; every transaction preserves it,
    whatever happens to its COMMIT. *)

From S2P Require Import Prelude GoStd Values Model Diagnostics Errors Json JournalModel Journal.

(** ** The invariant *)

Record row_ok (id : string) (o : Operation) : Prop := {
  row_id : Op_ID o = id;
  row_state : State_terminal (Op_State o) = is_some (Op_FinishedAt o);
  row_revision : 1 <= Op_Revision o
}.

(** [closing] lists finished operations whose reservations a transaction is
    about to release. *)
Record journal_inv (closing : list string) (d : database) : Prop := {
  inv_rows : forall id o, DB_operations d !! id = Some o -> row_ok id o;
  inv_reserved : forall device r, DB_reservations d !! device = Some r ->
    exists o, DB_operations d !! Res_operation r = Some o /\ Op_DeviceKey o = device
      /\ Op_Epoch o = Res_epoch r /\ (Op_FinishedAt o = None \/ Res_operation r ∈ closing);
  inv_requests : forall k row, DB_requests d !! k = Some row ->
    is_Some (DB_operations d !! IR_operation row);
  inv_unique : forall k1 k2 r1 r2, DB_requests d !! k1 = Some r1 -> DB_requests d !! k2 = Some r2 ->
    IR_operation r1 = IR_operation r2 -> k1 = k2
}.
Definition journal_ok : database -> Prop := journal_inv [].

Lemma journal_empty : journal_ok
  {| DB_epoch := ""; DB_ready := false; DB_operations := ∅; DB_requests := ∅; DB_reservations := ∅ |}.
Proof. constructor; cbn; intros; by simplify_map_eq. Qed.

Lemma journal_weaken (ids : list string) (d : database) : journal_ok d -> journal_inv ids d.
Proof.
  intros [Hr Hres Hq Hu]. constructor; try done. intros device r Hd.
  destruct (Hres device r Hd) as (o & ? & ? & ? & [?|[]%not_elem_of_nil]). exists o. naive_solver.
Qed.

(** ** One row changes *)

Definition same_identity (o o' : Operation) : Prop :=
  Op_ID o' = Op_ID o /\ Op_DeviceKey o' = Op_DeviceKey o /\ Op_Epoch o' = Op_Epoch o.

Lemma inv_update (closing : list string) (d : database) (id : string) (o o' : Operation) :
  journal_inv closing d -> DB_operations d !! id = Some o -> same_identity o o' -> row_ok id o' ->
  (Op_FinishedAt o' = None \/ id ∈ closing) ->
  journal_inv closing (d <| DB_operations := <[id := o']> (DB_operations d) |>).
Proof.
  intros [Hr Hres Hq Hu] Ho (Hid & Hdev & Hep) Hrow Hfin. constructor; cbn.
  - intros id' x. rewrite lookup_insert_Some. intros [[<- <-]|[_ Hx]]; auto.
  - intros device r Hd. destruct (Hres device r Hd) as (x & Hx & Hxd & Hxe & Hxf).
    destruct (decide (Res_operation r = id)) as [Heq|Hne].
    + exists o'. rewrite Heq, lookup_insert_eq. rewrite Heq in Hx. assert (x = o) as -> by congruence.
      split_and!; [done|congruence|congruence|done].
    + exists x. rewrite lookup_insert_ne by done. done.
  - intros k row Hk. destruct (Hq k row Hk) as [x Hx].
    destruct (decide (IR_operation row = id)) as [->|Hne]; [rewrite lookup_insert_eq; by eexists|].
    rewrite lookup_insert_ne by done. by exists x.
  - done.
Qed.

Lemma release_lookup (d : database) (ids : list string) (device : string) (r : reservation) :
  DB_reservations (ReleaseReservations d ids) !! device = Some r <->
  DB_reservations d !! device = Some r /\ Res_operation r ∉ ids.
Proof. unfold ReleaseReservations. cbn. by rewrite map_lookup_filter_Some. Qed.

Lemma extend_lookup (d : database) (ids : list string) (t : Time) (k : request_key) (row : idempotency_record) :
  DB_requests (ExtendRetention d ids t) !! k = Some row ->
  exists old, DB_requests d !! k = Some old /\ IR_operation row = IR_operation old
    /\ IR_hash row = IR_hash old /\ IR_expires old <= IR_expires row.
Proof.
  unfold ExtendRetention. cbn. rewrite lookup_fmap. intros H.
  destruct (DB_requests d !! k) as [old|]; [|done]. cbn in H. injection H as <-.
  exists old. case_if; cbn; split_and!; done || lia.
Qed.

Lemma inv_finish (ids : list string) (d : database) (now : Time) :
  journal_inv ids d -> journal_ok (finish d ids now).
Proof.
  intros [Hr Hres Hq Hu]. constructor.
  - done.
  - intros device r [Hd Hn]%release_lookup. destruct (Hres device r Hd) as (o & ? & ? & ? & [?|?]); [|done].
    exists o. naive_solver.
  - intros k row (old & Hk & -> & _)%extend_lookup. by apply (Hq k old).
  - intros k1 k2 r1 r2 (o1 & H1 & -> & _)%extend_lookup (o2 & H2 & -> & _)%extend_lookup. by apply Hu.
Qed.

Lemma updatable_spec (d : database) (id epoch : string) (revision : Z) (o : Operation) :
  updatable d id epoch revision = Some o <->
  DB_operations d !! id = Some o /\ Op_Revision o = revision /\ Op_Epoch o = epoch /\ Op_FinishedAt o = None.
Proof.
  unfold updatable. destruct (DB_operations d !! id) as [x|]; [|naive_solver].
  case_if; breflect; naive_solver congruence.
Qed.

Lemma transitioned_row (id : string) (o : Operation) state phase progress outcome code now :
  row_ok id o -> row_ok id (transitioned o state phase progress outcome code now).
Proof. intros [Hi Hs Hr]. constructor; cbn; [done|by destruct state|lia]. Qed.

Lemma inv_transition (d d' : database) (id epoch : string) revision state phase progress outcome code now o :
  journal_ok d ->
  TransitionOperation d id epoch revision state phase progress outcome code now = Some (o, d') ->
  journal_inv (if State_terminal state then [id] else []) d'.
Proof.
  intros Hok. unfold TransitionOperation. destruct (updatable _ _ _ _) as [x|] eqn:Hx; [|done].
  intros [= <- <-]. apply updatable_spec in Hx as (Hx & _ & _ & _).
  apply inv_update with x; [by apply journal_weaken|done|done| |].
  - apply transitioned_row, (inv_rows _ _ Hok _ _ Hx).
  - cbn. destruct (State_terminal state); [right; apply list_elem_of_here|by left].
Qed.

Lemma inv_select (closing : list string) (d d' : database) (id epoch : string) revision album now o :
  journal_inv closing d -> SelectAlbum_query d id epoch revision album now = Some (o, d') ->
  journal_inv closing d'.
Proof.
  intros Hok. unfold SelectAlbum_query. destruct (updatable _ _ _ _) as [x|] eqn:Hx; [|done].
  case_if; [done|]. intros [= <- <-]. apply updatable_spec in Hx as (Hx & _ & _ & Hf).
  apply inv_update with x; [done..| |by left].
  destruct (inv_rows _ _ Hok _ _ Hx) as [Hi Hs Hr]. constructor; cbn; [done..|lia].
Qed.

Lemma active_none (s : Store) (d : database) :
  active s d = None <-> Store_initialized s = true /\ DB_ready d = true /\ DB_epoch d = Store_epoch s.
Proof. unfold active. repeat case_if; breflect; destruct_or?; naive_solver congruence. Qed.

(** ** Admission *)

Lemma head_elem {A} (l : list A) (x : A) : head l = Some x -> x ∈ l.
Proof. destruct l; [done|]. intros [= ->]. apply list_elem_of_here. Qed.

Lemma ActiveOperation_some (d : database) (player : string) (o : Operation) :
  ActiveOperation d player = Some o ->
  Op_Player o = player /\ exists device r, DB_reservations d !! device = Some r
    /\ DB_operations d !! Res_operation r = Some o.
Proof.
  unfold ActiveOperation, reserved_operations. intros [Hp Hin]%head_elem%list_elem_of_filter.
  split; [done|]. apply list_elem_of_omap in Hin as ([device r] & Hr%elem_of_map_to_list & Ho).
  by exists device, r.
Qed.

Lemma admit_replace_inv json_size time_text (s : Store) (d d1 : database) (r : Request) (p : Proposal) (now : Time) :
  journal_ok d -> admit_replace json_size time_text s d r p now = Ok d1 -> journal_ok d1.
Proof.
  intros Hok. unfold admit_replace. case_if; [by intros [= <-]|].
  destruct (ActiveOperation _ _) as [old|] eqn:Ha; [|done]. case_if; [done|].
  destruct (handoffUpdate _ _ _ _ _) as [[[[[state phase] progress] outcome] code]|]; [|done]. cbn.
  destruct (TransitionOperation _ _ _ _ _ _ _ _ _ _) as [[x d2]|] eqn:Ht; [|done]. intros [= <-].
  apply inv_finish. apply inv_transition in Ht; [|done]. destruct (State_terminal state); [done|].
  by apply journal_weaken.
Qed.

(** A created operation is new, accepted, and the reserver of its device. *)
Lemma admit_insert_spec (d d' : database) (r : Request) (p : Proposal) (hash : string) (o : Operation) (now : Time) :
  admit_insert d r p hash o now = Ok d' ->
  DB_operations d !! Op_ID o = None /\ DB_requests d !! request_id r = None
  /\ DB_operations d' = <[Op_ID o := o]> (DB_operations d)
  /\ DB_requests d' = <[request_id r := {| IR_hash := hash; IR_operation := Op_ID o; IR_expires := now + Retention |}]>
       (DB_requests d)
  /\ DB_epoch d' = DB_epoch d /\ DB_ready d' = DB_ready d
  /\ (if Prop_OwnerID p == "" then
        DB_reservations d !! Prop_DeviceKey p = None
        /\ DB_reservations d' = <[Prop_DeviceKey p := {| Res_operation := Op_ID o; Res_epoch := Op_Epoch o |}]>
             (DB_reservations d)
      else DB_reservations d' = DB_reservations d).
Proof.
  unfold admit_insert, InsertOperation, InsertRequest, ReserveDevice.
  destruct (DB_operations d !! Op_ID o) eqn:Ho; [done|]. cbn.
  destruct (DB_requests d !! request_id r) eqn:Hr; [done|]. cbn.
  case_if; [|by intros [= <-]]. destruct (DB_reservations d !! Prop_DeviceKey p) eqn:Hd; [done|].
  by intros [= <-].
Qed.

Lemma inv_insert (d d' : database) (r : Request) (p : Proposal) (hash : string) (o : Operation) (now : Time) :
  journal_ok d -> row_ok (Op_ID o) o -> Op_FinishedAt o = None -> Op_DeviceKey o = Prop_DeviceKey p ->
  admit_insert d r p hash o now = Ok d' -> journal_ok d'.
Proof.
  intros [Hr Hres Hq Hu] Hrow Hfin Hdev (Hnew & Hreq & Hops & Hreqs & _ & _ & Hresv)%admit_insert_spec.
  assert (forall device x, DB_reservations d !! device = Some x ->
    exists y, DB_operations d' !! Res_operation x = Some y /\ Op_DeviceKey y = device
      /\ Op_Epoch y = Res_epoch x /\ Op_FinishedAt y = None) as Hold.
  { intros device x Hx. destruct (Hres device x Hx) as (y & Hy & ? & ? & [?|[]%not_elem_of_nil]).
    exists y. rewrite Hops, lookup_insert_ne by congruence. done. }
  constructor.
  - intros id x. rewrite Hops, lookup_insert_Some. intros [[<- <-]|[_ Hx]]; auto.
  - intros device x Hx. destruct (Prop_OwnerID p == "").
    + destruct Hresv as [_ Hresv]. rewrite Hresv, lookup_insert_Some in Hx. destruct Hx as [[<- <-]|[_ Hx]].
      * exists o. cbn. rewrite Hops, lookup_insert_eq. naive_solver.
      * destruct (Hold device x Hx) as (y & ?). exists y. naive_solver.
    + rewrite Hresv in Hx. destruct (Hold device x Hx) as (y & ?). exists y. naive_solver.
  - intros k row. rewrite Hreqs, Hops, lookup_insert_Some. intros [[<- <-]|[_ Hk]]; cbn.
    + rewrite lookup_insert_eq. by eexists.
    + destruct (Hq k row Hk) as [y Hy]. rewrite lookup_insert_ne by congruence. by exists y.
  - intros k1 k2 r1 r2. rewrite Hreqs, !lookup_insert_Some.
    intros [[<- <-]|[_ H1]] [[<- <-]|[_ H2]]; cbn; intros Heq; [done|exfalso..|by eapply Hu].
    + destruct (Hq k2 r2 H2) as [y Hy]. congruence.
    + destruct (Hq k1 r1 H1) as [y Hy]. congruence.
Qed.

Lemma admit_transaction_cases json_size time_text (s : Store) (d d' : database) (r : Request) (p : Proposal)
    (hash id : string) (now : Time) (o : Operation) :
  admit_transaction json_size time_text s d r p hash id now = Ok (o, d') ->
  active s d = None /\ admit_owner s d r p = None
  /\ Prop_NotBefore p <= now < Prop_NotAfter p
  /\ Z.of_nat (size (DB_operations d)) < Store_maxOperations s
  /\ exists effective d1, o = accepted_operation s r p effective id now
       /\ admit_replace json_size time_text s d r p now = Ok d1 /\ admit_insert d1 r p hash o now = Ok d'.
Proof.
  unfold admit_transaction. destruct (active s d); [done|]. case_if; [done|]. case_if; [done|].
  destruct (canonical _ _) as [effective|]; [|done]. cbn [Result_bind].
  do 4 (case_if; [done|]). destruct (admit_owner s d r p); [done|].
  destruct (admit_replace _ _ _ _ _ _ _) as [d1|]; [|done]. cbn [Result_bind].
  destruct (admit_insert _ _ _ _ _ _) as [d2|] eqn:Hi; [|done]. intros [= <- <-].
  unfold CountOperations in *. breflect. split_and!; [done..|lia|lia|lia|]. by exists effective, d1.
Qed.

Lemma admit_transaction_inv json_size time_text (s : Store) (d d' : database) (r : Request) (p : Proposal)
    (hash id : string) (now : Time) (o : Operation) :
  journal_ok d -> admit_transaction json_size time_text s d r p hash id now = Ok (o, d') -> journal_ok d'.
Proof.
  intros Hok (_ & _ & _ & _ & effective & d1 & -> & Hrep & Hins)%admit_transaction_cases.
  eapply inv_insert; [by eapply admit_replace_inv| | | |exact Hins]; [|done..]. by constructor.
Qed.

(** The database after an admission is the one before, or the transaction's. *)
Lemma Admit_state json_size sha256 time_text (s : Store) (d : database) (r : Request) (p : Proposal)
    (id : string) (now : Time) (fate : commit_fate) (seen : database -> database) :
  let d' := (Admit json_size sha256 time_text s d r p id now fate seen).2 in
  d' = d \/ exists hash o, fingerprint json_size sha256 r = Ok hash
    /\ lookup d r hash = Err (ESentinel JErrNotFound)
    /\ admit_transaction json_size time_text s d r p hash id now = Ok (o, d').
Proof.
  unfold Admit. destruct (fingerprint _ _ _) as [hash|] eqn:Hf; [|by left].
  destruct (lookup d r hash) as [|e] eqn:Hl; [by left|]. case_if; [by left|].
  destruct (admit_transaction _ _ _ _ _ _ _ _ _) as [[o d']|] eqn:Ht; [|by left]. cbn.
  assert (e = ESentinel JErrNotFound) as ->.
  { revert Hl. unfold lookup. repeat case_match; intros [= <-]; done. }
  destruct fate; cbn; [right|right|by left]; by exists hash, o.
Qed.

(** ** Recovery *)

Lemma foldr_alter_lookup (f : Operation -> Operation) (ids : list string) (m : gmap string Operation) (id : string) :
  NoDup ids ->
  foldr (fun i ops => alter f i ops) m ids !! id = if id in? ids then f <$> m !! id else m !! id.
Proof.
  induction ids as [|x ids IH]; intros Hnd; cbn.
  { rewrite bool_decide_false; [done|apply not_elem_of_nil]. }
  apply NoDup_cons in Hnd as [Hx Hnd]. destruct (decide (x = id)) as [->|Hne].
  - rewrite lookup_alter_eq, IH, bool_decide_false, bool_decide_true by (done || apply list_elem_of_here). done.
  - rewrite lookup_alter_ne, IH by done. erewrite bool_decide_ext; [done|].
    rewrite elem_of_cons. naive_solver.
Qed.

Lemma interrupt_candidates (d : database) (epoch : string) :
  merge_sort String.le (map fst (map_to_list (filter (fun ko => unfinished_elsewhere epoch ko.2) (DB_operations d))))
  ≡ₚ (map_to_list (filter (fun ko => unfinished_elsewhere epoch ko.2) (DB_operations d))).*1.
Proof. by rewrite merge_sort_Permutation. Qed.

Lemma interrupt_ids_nodup (d : database) (epoch : string) (limit : Z) : NoDup (interrupt_ids d epoch limit).
Proof.
  unfold interrupt_ids. eapply sublist_NoDup; [|apply sublist_take].
  rewrite interrupt_candidates. apply NoDup_fst_map_to_list.
Qed.

Lemma interrupt_ids_elem (d : database) (epoch : string) (limit : Z) (id : string) :
  id ∈ interrupt_ids d epoch limit ->
  exists o, DB_operations d !! id = Some o /\ unfinished_elsewhere epoch o.
Proof.
  unfold interrupt_ids. intros Hin%(sublist_subseteq _ _ (sublist_take _ _)).
  rewrite interrupt_candidates in Hin. apply list_elem_of_fmap in Hin as ([x o] & -> & Hx).
  apply elem_of_map_to_list, map_lookup_filter_Some in Hx as [Hx Hu]. by exists o.
Qed.

(** A batch that is not full has interrupted everything. *)
Lemma interrupt_ids_complete (d : database) (epoch : string) (id : string) (o : Operation) :
  len (interrupt_ids d epoch MaxBatch) < MaxBatch ->
  DB_operations d !! id = Some o -> unfinished_elsewhere epoch o -> id ∈ interrupt_ids d epoch MaxBatch.
Proof.
  intros Hlt Ho Hu. unfold interrupt_ids in *. set (l := merge_sort _ _) in *.
  rewrite take_ge in *.
  2,3: unfold len, MaxBatch in *; rewrite length_take in Hlt; lia.
  unfold l. rewrite interrupt_candidates. apply list_elem_of_fmap. exists (id, o). split; [done|].
  by apply elem_of_map_to_list, map_lookup_filter_Some.
Qed.

Lemma interrupted_row (id : string) (o : Operation) (now : Time) : row_ok id o -> row_ok id (interrupted now o).
Proof. intros [Hi _ Hr]. constructor; cbn; [done|done|lia]. Qed.

Lemma inv_interrupt (d : database) (epoch : string) (now : Time) (limit : Z) :
  journal_ok d -> journal_inv (InterruptBatch d epoch now limit).1 (InterruptBatch d epoch now limit).2.
Proof.
  intros [Hr Hres Hq Hu]. unfold InterruptBatch. cbv zeta. cbn [fst snd].
  pose proof (interrupt_ids_nodup d epoch limit) as Hnd. set (ids := interrupt_ids d epoch limit) in *.
  constructor; cbn; try done.
  - intros id x. rewrite foldr_alter_lookup by done. case_if; [|apply Hr].
    intros (o & Ho & ->)%fmap_Some. apply interrupted_row. by apply Hr.
  - intros device r Hd. destruct (Hres device r Hd) as (o & Ho & ? & ? & [Hf|[]%not_elem_of_nil]).
    rewrite foldr_alter_lookup by done. rewrite Ho. case_if; breflect.
    + exists (interrupted now o). split_and!; try done. by right.
    + exists o. split_and!; try done. by left.
  - intros k row Hk. rewrite foldr_alter_lookup by done. destruct (Hq k row Hk) as [o Ho].
    rewrite Ho. case_if; by eexists.
Qed.

Lemma recoverBatch_state (s s' : Store) (d d' : database) (now : Time) (fate : commit_fate) (out : Result bool) :
  recoverBatch s d now fate = (out, s', d') ->
  d' = d \/ (let d1 := d <| DB_epoch := Store_epoch s |> <| DB_ready := false |> in
    let ids := interrupt_ids d1 (Store_epoch s) MaxBatch in
    let d2 := (InterruptBatch d1 (Store_epoch s) now MaxBatch).2 in
    d' = finish d2 ids now <| DB_ready := len ids <? MaxBatch |>).
Proof.
  unfold recoverBatch. set (s1 := match Store_previousEpoch s with Some _ => s | None => _ end).
  assert (Store_epoch s1 = Store_epoch s) as He by (unfold s1; by case_match). rewrite He.
  case_if; [intros [= <- <- <-]; by left|]. unfold InterruptBatch. cbv zeta.
  destruct fate; intros [= <- <- <-]; cbn [commit_state]; auto; right; by case_if.
Qed.

Lemma inv_ready (closing : list string) (d : database) (b : bool) (e : string) :
  journal_inv closing d -> journal_inv closing (d <| DB_epoch := e |> <| DB_ready := b |>).
Proof. intros [Hr Hres Hq Hu]. by constructor. Qed.

Lemma inv_ready_only (closing : list string) (d : database) (b : bool) :
  journal_inv closing d -> journal_inv closing (d <| DB_ready := b |>).
Proof. intros [Hr Hres Hq Hu]. by constructor. Qed.

Lemma recoverBatch_inv (s s' : Store) (d d' : database) (now : Time) (fate : commit_fate) (out : Result bool) :
  journal_ok d -> recoverBatch s d now fate = (out, s', d') -> journal_ok d'.
Proof.
  intros Hok [->|H]%recoverBatch_state; [done|]. cbv zeta in H. subst d'.
  apply inv_ready_only, inv_finish. apply (inv_interrupt _ (Store_epoch s) now MaxBatch). by apply inv_ready.
Qed.

(** ** Pruning *)

Lemma prune_rows (d : database) (finished expires : Time) (limit : Z) (id : string) :
  journal_ok d -> id ∈ (PruneOperations d finished expires limit).1 ->
  exists o, DB_operations d !! id = Some o /\ prunable d finished expires o.
Proof.
  intros Hok. unfold PruneOperations. cbn [fst]. intros (o & -> & Hin)%list_elem_of_fmap.
  apply (sublist_subseteq _ _ (sublist_take _ _)) in Hin. rewrite merge_sort_Permutation in Hin.
  apply list_elem_of_filter in Hin as [Hp Hin]. apply list_elem_of_fmap in Hin as ([k x] & -> & Hk%elem_of_map_to_list).
  exists x. cbn in *. by rewrite (row_id _ _ (inv_rows _ _ Hok _ _ Hk)).
Qed.

Lemma prune_inv (d : database) (finished expires : Time) (limit : Z) :
  journal_ok d -> journal_ok (PruneOperations d finished expires limit).2.
Proof.
  intros Hok. pose proof (prune_rows d finished expires limit) as Hrows.
  unfold PruneOperations in *. cbv zeta in *. cbn [fst snd] in *.
  set (ids := map Op_ID _) in *. destruct Hok as [Hr Hres Hq Hu] eqn:E.
  assert (journal_ok d) as Hok' by (by constructor). constructor; cbn.
  - intros id o [Ho _]%map_lookup_filter_Some. by apply Hr.
  - intros device r Hd. destruct (Hres device r Hd) as (o & Ho & Hx). exists o. split; [|done].
    apply map_lookup_filter_Some. split; [done|]. cbn. intros Hin.
    destruct (Hrows _ Hok' Hin) as (o' & Ho' & _ & _ & Hno). assert (o' = o) as -> by congruence.
    apply (Hno device r Hd). symmetry. apply (row_id _ _ (Hr _ _ Ho)).
  - intros k row [Hk Hn]%map_lookup_filter_Some. destruct (Hq k row Hk) as [o Ho]. exists o.
    apply map_lookup_filter_Some. done.
  - intros k1 k2 r1 r2 [H1 _]%map_lookup_filter_Some [H2 _]%map_lookup_filter_Some. by apply Hu.
Qed.

(** ** Transactions as steps *)

Section Steps.
Context (json_size : json -> Z) (sha256 : string -> string -> json -> string) (time_text : Time -> string).

(** Any process runs any transaction, with any fate of its COMMIT. *)
Inductive journal_step (d : database) : database -> Prop :=
  | step_admit s r p id now fate seen : journal_step d (Admit json_size sha256 time_text s d r p id now fate seen).2
  | step_transition s id revision u now fate :
      journal_step d (Transition json_size s d id revision u now fate).2
  | step_select s id revision album now fate : journal_step d (SelectAlbum s d id revision album now fate).2
  | step_recover s now fate out s' d' : recoverBatch s d now fate = (out, s', d') -> journal_step d d'
  | step_prune s limit now fate : journal_step d (Prune s d limit now fate).2.

Inductive journal_run (d : database) : database -> Prop :=
  | journal_start : journal_run d d
  | journal_next d' d'' : journal_run d d' -> journal_step d' d'' -> journal_run d d''.

(** A successful update of one row, and nothing else. *)
Lemma Transition_state (s : Store) (d : database) id revision u now fate :
  let d' := (Transition json_size s d id revision u now fate).2 in
  d' = d \/ exists o progress outcome d1,
    updatable d id (Store_epoch s) revision = Some o /\ active s d = None
    /\ TransitionOperation d id (Store_epoch s) revision (Upd_State u) (Upd_Phase u) progress outcome
         (Upd_ErrorCode u) now
       = Some (transitioned o (Upd_State u) (Upd_Phase u) progress outcome (Upd_ErrorCode u) now, d1)
    /\ d' = if State_terminal (Upd_State u) then finish d1 [id] now else d1.
Proof.
  unfold Transition. case_if; [by left|]. destruct (canonical _ _) as [progress|]; [|by left].
  destruct (canonical _ (default _ (Upd_Outcome u))) as [outcome|]; [|by left].
  destruct (active s d) eqn:Ha; [by left|].
  destruct (TransitionOperation _ _ _ _ _ _ _ _ _ _) as [[x d1]|] eqn:Ht; [|by left].
  pose proof Ht as Ht'. unfold TransitionOperation in Ht'.
  destruct (updatable _ _ _ _) as [o|]; [|done]. injection Ht' as <- _.
  cbn [snd]. destruct fate; [right|right|by left]; exists o, progress, outcome, d1; done.
Qed.

Lemma SelectAlbum_state (s : Store) (d : database) id revision album now fate :
  let d' := (SelectAlbum s d id revision album now fate).2 in
  d' = d \/ exists o, SelectAlbum_query d id (Store_epoch s) revision album now = Some (o, d').
Proof.
  unfold SelectAlbum. case_if; [by left|]. destruct (active s d); [by left|].
  destruct (SelectAlbum_query _ _ _ _ _ _) as [[o d1]|]; [|by left]. cbn.
  destruct fate; [right|right|by left]; by exists o.
Qed.

Lemma Prune_state (s : Store) (d : database) limit now fate :
  let d' := (Prune s d limit now fate).2 in
  d' = d \/ d' = (PruneOperations d (now - Retention) now limit).2.
Proof.
  unfold Prune. case_if; [by left|]. destruct (active s d); [by left|].
  unfold PruneOperations. cbv zeta. destruct fate; cbn; auto.
Qed.

Lemma step_inv (d d' : database) : journal_ok d -> journal_step d d' -> journal_ok d'.
Proof.
  intros Hok []. 
  - destruct (Admit_state json_size sha256 time_text s d r p id now fate seen) as [->|(h & o & _ & _ & Ht)]; [done|].
    by eapply admit_transaction_inv.
  - destruct (Transition_state s d id revision u now fate) as [->|(o & pr & ou & d1 & _ & _ & Ht & ->)]; [done|].
    apply inv_transition in Ht; [|done]. destruct (State_terminal (Upd_State u)); [by apply inv_finish|done].
  - destruct (SelectAlbum_state s d id revision album now fate) as [->|[o Ho]]; [done|]. by eapply inv_select.
  - by eapply recoverBatch_inv.
  - destruct (Prune_state s d limit now fate) as [->| ->]; [done|]. by apply prune_inv.
Qed.

Lemma run_inv (d d' : database) : journal_ok d -> journal_run d d' -> journal_ok d'.
Proof. intros Hok Hrun. induction Hrun; [done|]. eapply step_inv; eauto. Qed.

(** ** What a step leaves alone *)

Lemma update_lookup (d d1 : database) (id epoch : string) revision state phase progress outcome code now o :
  TransitionOperation d id epoch revision state phase progress outcome code now = Some (o, d1) ->
  exists x, updatable d id epoch revision = Some x
    /\ o = transitioned x state phase progress outcome code now
    /\ DB_operations d1 = <[id := o]> (DB_operations d) /\ DB_requests d1 = DB_requests d
    /\ DB_reservations d1 = DB_reservations d /\ DB_epoch d1 = DB_epoch d /\ DB_ready d1 = DB_ready d.
Proof.
  unfold TransitionOperation. destruct (updatable _ _ _ _) as [x|]; [|done]. intros [= <- <-]. by exists x.
Qed.

Lemma finished_not_updatable (d : database) (id epoch : string) revision (o x : Operation) :
  DB_operations d !! id = Some o -> Op_FinishedAt o <> None -> updatable d id epoch revision <> Some x.
Proof. intros Ho Hf (Hx & _ & _ & Hn)%updatable_spec. congruence. Qed.

(** An update of [id'] leaves a finished row alone: it cannot be that row. *)
Lemma insert_other (d : database) (id id' epoch : string) revision (o x y : Operation) :
  DB_operations d !! id = Some o -> Op_FinishedAt o <> None ->
  updatable d id' epoch revision = Some x -> <[id' := y]> (DB_operations d) !! id = Some o.
Proof.
  intros Ho Hf Hx. rewrite lookup_insert_ne; [done|]. intros ->. by eapply finished_not_updatable.
Qed.

Lemma replace_other time (s : Store) (d d1 : database) (r : Request) (p : Proposal) (now : Time) id o :
  DB_operations d !! id = Some o -> Op_FinishedAt o <> None ->
  admit_replace json_size time s d r p now = Ok d1 -> DB_operations d1 !! id = Some o.
Proof.
  intros Ho Hf. unfold admit_replace. case_if; [by intros [= <-]|].
  destruct (ActiveOperation _ _) as [old|]; [|done]. case_if; [done|].
  destruct (handoffUpdate _ _ _ _ _) as [[[[[st ph] pr] ou] co]|]; [|done]. cbn.
  destruct (TransitionOperation _ _ _ _ _ _ _ _ _ _) as [[x d2]|] eqn:Ht; [|done]. intros [= <-]. cbn.
  apply update_lookup in Ht as (y & Hy & _ & -> & _). by eapply insert_other.
Qed.
End Steps.
