(* ===== verification/JournalProps.v ===== *)
(** * Properties of the journal

    Integrity, exactly-once admission, immutability of results, fencing of
    stale processes and of concurrent updates, and termination of recovery. *)

From S2P Require Import Prelude GoStd Values Model Diagnostics Errors Json JournalModel Journal.
From S2P Require Import JournalSafety.

(** ** A concrete encoding, for the witnesses *)

Definition sample_size (v : json) : Z := len (tokens_of v).
Definition sample_sha (player ifMatch : string) (body : json) : string := player +:+ "/" +:+ ifMatch.
Definition sample_time (t : Time) : string := itoa t.

Definition empty_database : database :=
  {| DB_epoch := "e1"; DB_ready := true; DB_operations := ∅; DB_requests := ∅; DB_reservations := ∅ |}.
Definition sample_store : Store := {|
  Store_epoch := "e1"; Store_maxOperations := 10; Store_initialized := true; Store_previousEpoch := None |}.
Definition sample_body : RawMessage := marshal sample_size (JObject [("level", JNumber "10")]).
Definition sample_request : Request := {|
  Req_Principal := "alice"; Req_Method := "POST"; Req_Endpoint := "/v1/players/kitchen/volume";
  Req_Key := "k1"; Req_Player := "kitchen"; Req_IfMatch := "r1"; Req_Body := sample_body |}.
Definition sample_proposal : Proposal := {|
  Prop_OwnerID := ""; Prop_ReplaceUncertain := false; Prop_ReplaceID := ""; Prop_ReplaceRevision := 0;
  Prop_Kind := "volume"; Prop_DeviceKey := "serial"; Prop_ConfigRevision := "direct:0";
  Prop_EffectiveArguments := sample_body; Prop_NotBefore := 10; Prop_NotAfter := 20 |}.
Definition sample_admit : Result Admission * database :=
  Admit sample_size sample_sha sample_time sample_store empty_database sample_request sample_proposal "op_1" 12 Committed id.

Lemma empty_database_ok : journal_ok empty_database.
Proof. constructor; cbn; intros; by simplify_map_eq. Qed.

Section Properties.
Context (json_size : json -> Z) (sha256 : string -> string -> json -> string) (time_text : Time -> string).
Abbreviation step := (journal_step json_size sha256 time_text).
Abbreviation submit := (Admit json_size sha256 time_text).

(** ** Lemmas *)

Lemma interrupt_keeps (d : database) (epoch : string) (now : Time) (limit : Z) id o :
  DB_operations d !! id = Some o -> Op_FinishedAt o <> None ->
  DB_operations (InterruptBatch d epoch now limit).2 !! id = Some o.
Proof.
  intros Ho Hf. unfold InterruptBatch. cbn. rewrite foldr_alter_lookup by apply interrupt_ids_nodup.
  case_if; [|done]. breflect.
  match goal with H : _ ∈ _ |- _ => apply interrupt_ids_elem in H as (x & Hx & _ & Hn) end. congruence.
Qed.

Lemma insert_keeps (d d' : database) (r : Request) (p : Proposal) hash o now id x :
  admit_insert d r p hash o now = Ok d' -> DB_operations d !! id = Some x -> DB_operations d' !! id = Some x.
Proof.
  intros (Hnew & _ & -> & _)%admit_insert_spec Hx. rewrite lookup_insert_ne; [done|]. congruence.
Qed.

(** The idempotency row of a retained operation survives a step. *)
Definition keeps_request (d d' : database) (k : request_key) (row : idempotency_record) : Prop :=
  exists row', DB_requests d' !! k = Some row' /\ IR_operation row' = IR_operation row
    /\ IR_hash row' = IR_hash row /\ IR_expires row <= IR_expires row'.

Lemma keeps_same (d d' : database) k row :
  DB_requests d !! k = Some row -> DB_requests d' = DB_requests d -> keeps_request d d' k row.
Proof. intros Hk He. exists row. rewrite He. split_and!; done || lia. Qed.

Lemma keeps_finish (d d1 : database) (ids : list string) (now : Time) k row :
  keeps_request d d1 k row -> keeps_request d (finish d1 ids now) k row.
Proof.
  intros (x & Hx & Ho & Hh & He). unfold finish, ExtendRetention, ReleaseReservations. unfold keeps_request. cbn.
  rewrite lookup_fmap, Hx. cbn. eexists. split; [reflexivity|]. case_if; cbn; split_and!; done || lia.
Qed.

Lemma keeps_replace (s : Store) (d d1 : database) (r : Request) (p : Proposal) (now : Time) k row :
  DB_requests d !! k = Some row -> admit_replace json_size time_text s d r p now = Ok d1 -> keeps_request d d1 k row.
Proof.
  intros Hk. unfold admit_replace. case_if; [intros [= <-]; by apply keeps_same|].
  destruct (ActiveOperation _ _) as [old|]; [|done]. case_if; [done|].
  destruct (handoffUpdate _ _ _ _ _) as [[[[[st ph] pr] ou] co]|]; [|done]. cbn.
  destruct (TransitionOperation _ _ _ _ _ _ _ _ _ _) as [[x d2]|] eqn:Ht; [|done]. intros [= <-].
  apply update_lookup in Ht as (y & _ & _ & _ & Hq & _). by apply keeps_finish, keeps_same.
Qed.

Lemma keeps_refl (d : database) k row : DB_requests d !! k = Some row -> keeps_request d d k row.
Proof. intros Hk. by apply keeps_same. Qed.

Lemma step_keeps_request (d d' : database) (k : request_key) (row : idempotency_record) :
  DB_requests d !! k = Some row -> step d d' -> is_Some (DB_operations d' !! IR_operation row) ->
  keeps_request d d' k row.
Proof.
  intros Hk Hstep Hop. destruct Hstep.
  - destruct (Admit_state json_size sha256 time_text s d r p id now fate seen) as [->|(h & o & _ & _ & Ht)];
      [by apply keeps_refl|].
    apply admit_transaction_cases in Ht as (_ & _ & _ & _ & eff & d1 & _ & Hrep & Hins).
    destruct (keeps_replace _ _ _ _ _ _ _ _ Hk Hrep) as (x & Hx & Hxs).
    apply admit_insert_spec in Hins as (_ & Hnone & _ & Hreqs & _). exists x. split; [|done].
    rewrite Hreqs, lookup_insert_ne; [done|]. intros <-. congruence.
  - destruct (Transition_state json_size s d id revision u now fate) as [->|(o & pr & ou & d1 & _ & _ & Ht & ->)];
      [by apply keeps_refl|].
    apply update_lookup in Ht as (x & _ & _ & _ & Hq & _).
    destruct (State_terminal (Upd_State u)); [apply keeps_finish|]; by apply keeps_same.
  - destruct (SelectAlbum_state s d id revision album now fate) as [->|[o Ho]]; [by apply keeps_refl|].
    unfold SelectAlbum_query in Ho. destruct (updatable _ _ _ _); [|done]. case_if; [done|].
    injection Ho as _ <-. by apply keeps_same.
  - match goal with H : recoverBatch _ _ _ _ = _ |- _ => apply recoverBatch_state in H as [->|H] end;
      [by apply keeps_refl|]. cbv zeta in H. subst d'.
    by apply (keeps_finish d (InterruptBatch _ _ _ _).2), keeps_same.
  - destruct (Prune_state s d limit now fate) as [->|Heq]; [by apply keeps_refl|]. rewrite Heq in *.
    exists row. split_and!; [|done..|lia]. unfold PruneOperations in *. cbn in *.
    apply map_lookup_filter_Some. split; [done|]. cbn. destruct Hop as [o Ho].
    by apply map_lookup_filter_Some in Ho as [_ Ho].
Qed.

(** Any later states, each of which still holds operation [id]. *)
Inductive retained_run (id : string) (d : database) : database -> Prop :=
  | retained_start : retained_run id d d
  | retained_next d' d'' : retained_run id d d' -> step d' d'' ->
      is_Some (DB_operations d'' !! id) -> retained_run id d d''.

Lemma retained_request (id : string) (d d' : database) k row :
  DB_requests d !! k = Some row -> IR_operation row = id -> retained_run id d d' -> keeps_request d d' k row.
Proof.
  intros Hk Hid Hrun. induction Hrun as [|d1 d2 Hrun IH Hstep Hop]; [by apply keeps_refl|].
  destruct IH as (x & Hx & Ho & Hh & He).
  destruct (step_keeps_request d1 d2 k x) as (y & Hy & Hyo & Hyh & Hye); [done..|by rewrite Ho, Hid|].
  exists y. split_and!; [done|congruence|congruence|lia].
Qed.

Lemma replace_absent (s : Store) (d d1 : database) (r : Request) (p : Proposal) (now : Time) (id : string) :
  admit_replace json_size time_text s d r p now = Ok d1 -> DB_operations d1 !! id = None ->
  DB_operations d !! id = None.
Proof.
  unfold admit_replace. case_if; [by intros [= <-]|].
  destruct (ActiveOperation _ _) as [old|]; [|done]. case_if; [done|].
  destruct (handoffUpdate _ _ _ _ _) as [[[[[st ph] pr] ou] co]|]; [|done]. cbn.
  destruct (TransitionOperation _ _ _ _ _ _ _ _ _ _) as [[x d2]|] eqn:Ht; [|done]. intros [= <-]. cbn.
  apply update_lookup in Ht as (y & _ & _ & Hops & _). rewrite Hops. by intros [? _]%lookup_insert_None.
Qed.

Lemma replace_fence (s : Store) (d d1 : database) (r : Request) (p : Proposal) (now : Time) :
  active s d = None -> admit_replace json_size time_text s d r p now = Ok d1 ->
  DB_epoch d1 = Store_epoch s /\ DB_ready d1 = true.
Proof.
  intros (_ & Hact & Hep)%active_none. unfold admit_replace. case_if; [by intros [= <-]|].
  destruct (ActiveOperation _ _) as [old|]; [|done]. case_if; [done|].
  destruct (handoffUpdate _ _ _ _ _) as [[[[[st ph] pr] ou] co]|]; [|done]. cbn.
  destruct (TransitionOperation _ _ _ _ _ _ _ _ _ _) as [[x d3]|] eqn:Htr; [|done]. intros [= <-].
  apply update_lookup in Htr as (y & _ & _ & _ & _ & _ & Hy1 & Hy2). cbn. by rewrite Hy1, Hy2.
Qed.

(** Later states that other processes reach without using the identifier [id]. *)
Inductive foreign_run (id : string) (d : database) : database -> Prop :=
  | foreign_start : foreign_run id d d
  | foreign_next d' d'' : foreign_run id d d' -> step d' d'' ->
      (DB_operations d' !! id = None -> DB_operations d'' !! id = None) -> foreign_run id d d''.

Lemma foreign_absent (id : string) (d d' : database) :
  foreign_run id d d' -> DB_operations d !! id = None -> DB_operations d' !! id = None.
Proof. induction 1; auto. Qed.
Lemma foreign_ok (id : string) (d d' : database) : foreign_run id d d' -> journal_ok d -> journal_ok d'.
Proof.
  intros Hrun Hok. eapply run_inv; [exact Hok|].
  induction Hrun as [|d1 d2 _ IH Hstep _]; [apply journal_start|]. eapply journal_next; [exact IH|exact Hstep].
Qed.

Lemma lookup_operation (d : database) (r : Request) (hash : string) (o : Operation) :
  journal_ok d -> lookup d r hash = Ok o -> DB_operations d !! Op_ID o = Some o.
Proof.
  intros [Hrow _ _ _]. unfold lookup, LookupRequest, GetOperation.
  destruct (DB_requests d !! request_id r) as [row|]; [|done]. case_if; [done|].
  destruct (DB_operations d !! IR_operation row) as [x|] eqn:Hx; [|done]. intros [= <-].
  destruct (Hrow _ _ Hx) as [-> _]. done.
Qed.

(** A created admission has recorded its request. *)
Lemma created_records (s : Store) (d d' : database) (r : Request) (p : Proposal) id now fate seen a :
  journal_ok d -> foreign_run id d' (seen d') ->
  submit s d r p id now fate seen = (Ok a, d') -> Adm_Created a = true ->
  exists hash o, fingerprint json_size sha256 r = Ok hash /\ fate <> NotCommitted
    /\ Op_ID (Adm_Operation a) = id /\ Op_State (Adm_Operation a) = Accepted
    /\ Op_Epoch (Adm_Operation a) = Store_epoch s
    /\ lookup d r hash = Err (ESentinel JErrNotFound)
    /\ admit_transaction json_size time_text s d r p hash id now = Ok (o, d')
    /\ (fate = Committed -> Adm_Operation a = o).
Proof.
  intros Hok Hseen Ha Hc. unfold Admit in Ha.
  destruct (fingerprint _ _ r) as [hash|] eqn:Hf; [|done].
  destruct (lookup d r hash) as [prev|e] eqn:Hl; [by injection Ha as <- <-|].
  case_if; [done|]. destruct (admit_transaction _ _ _ _ _ _ _ _ _) as [[o d1]|] eqn:Ht; [|done].
  assert (e = ESentinel JErrNotFound) as ->.
  { revert Hl. unfold lookup. repeat case_match; intros [= <-]; done. }
  pose proof Ht as (_ & _ & _ & _ & eff & d0 & Ho & _ & Hins)%admit_transaction_cases.
  apply admit_insert_spec in Hins as (Hnew & _).
  assert (forall x, admit_resolve s (seen d') r hash id = Ok x -> Adm_Created x = true ->
    Op_ID (Adm_Operation x) = id /\ Op_State (Adm_Operation x) = Accepted
    /\ Op_Epoch (Adm_Operation x) = Store_epoch s
    /\ (journal_ok d' -> DB_operations (seen d') !! id = Some (Adm_Operation x))) as Hres.
  { intros x. unfold admit_resolve. destruct (lookup (seen d') r hash) as [y|] eqn:Hy; [|done].
    intros [= <-]. cbn. intros Hcr. breflect. split_and!; [done..|]. intros Hok'. subst id.
    apply (lookup_operation _ r hash); [by eapply foreign_ok|done]. }
  exists hash, o. destruct fate; cbn in Ha; injection Ha as Ha <-.
  - subst a. cbn. split_and!; try done; by rewrite Ho.
  - destruct (Hres _ Ha Hc) as (? & ? & ? & _). by split_and!.
  - exfalso. destruct (Hres _ Ha Hc) as (_ & _ & _ & Hin). specialize (Hin Hok).
    rewrite (foreign_absent id d) in Hin; [done|done|].
    pose proof Ht as (_ & _ & _ & _ & eff' & d2 & Ho' & Hrep & Hins)%admit_transaction_cases.
    apply admit_insert_spec in Hins as (Hnew' & _). rewrite Ho' in Hnew'. by eapply replace_absent.
Qed.

(** ** Properties *)

(** C21. The journal stays consistent: from an empty schema, no sequence of
    transactions of any processes, whatever happens to each COMMIT, leaves a
    reservation without its unfinished operation of that device and epoch, an
    idempotency record without its operation, two records for one operation,
    or a state that disagrees with the finishing time. *)
Theorem journal_consistent (d : database) :
  journal_run json_size sha256 time_text empty_database d ->
  (forall device r, DB_reservations d !! device = Some r ->
     exists o, DB_operations d !! Res_operation r = Some o /\ Op_DeviceKey o = device
       /\ Op_Epoch o = Res_epoch r /\ Op_FinishedAt o = None)
  /\ (forall id o, DB_operations d !! id = Some o ->
        Op_ID o = id /\ State_terminal (Op_State o) = is_some (Op_FinishedAt o) /\ 1 <= Op_Revision o)
  /\ (forall k row, DB_requests d !! k = Some row ->
        is_Some (DB_operations d !! IR_operation row)
        /\ forall k' row', DB_requests d !! k' = Some row' -> IR_operation row' = IR_operation row -> k' = k).
Proof.
  intros Hrun. pose proof (run_inv _ _ _ _ _ empty_database_ok Hrun) as [Hr Hres Hq Hu]. split_and!.
  - intros device r Hd. destruct (Hres device r Hd) as (o & ? & ? & ? & [?|[]%not_elem_of_nil]). by exists o.
  - intros id o Ho. by destruct (Hr id o Ho).
  - intros k row Hk. split; [by apply (Hq k)|]. intros k' row' Hk' Heq. by eapply Hu.
Qed.

(** C20. A request is executed at most once: after an admission that was
    reported as created, every later admission of the same request, by any
    process and with any proposal, as long as the operation is retained,
    returns that operation without creating another and changes nothing. *)
Theorem admitted_at_most_once (s s' : Store) (d0 d d1 : database) (r : Request) (p p' : Proposal)
    (id id' : string) (now now' : Time) (fate fate' : commit_fate) (seen seen' : database -> database) (a : Admission) :
  journal_ok d0 -> foreign_run id d (seen d) ->
  submit s d0 r p id now fate seen = (Ok a, d) -> Adm_Created a = true ->
  retained_run id d d1 ->
  exists a', submit s' d1 r p' id' now' fate' seen' = (Ok a', d1)
    /\ Adm_Created a' = false /\ DB_operations d1 !! id = Some (Adm_Operation a').
Proof.
  intros Hok Hseen Ha Hc Hrun.
  destruct (created_records _ _ _ _ _ _ _ _ _ _ Hok Hseen Ha Hc) as (hash & o & Hf & _ & _ & _ & _ & _ & Ht & _).
  apply admit_transaction_cases in Ht as (_ & _ & _ & _ & eff & d2 & Ho & _ & Hins).
  apply admit_insert_spec in Hins as (_ & _ & Hops & Hreqs & _).
  assert (Op_ID o = id) as Hid by (by rewrite Ho). rewrite Hid in Hops, Hreqs.
  destruct (retained_request id d d1 (request_id r)
    {| IR_hash := hash; IR_operation := id; IR_expires := now + Retention |}) as (x & Hx & Hxo & Hxh & _);
    [by rewrite Hreqs, lookup_insert_eq|done|done|].
  assert (is_Some (DB_operations d1 !! id)) as [o' Ho'].
  { destruct Hrun; [rewrite Hops, lookup_insert_eq; by eexists|done]. }
  unfold Admit. rewrite Hf. unfold lookup, LookupRequest, GetOperation. rewrite Hx. cbn in *.
  rewrite Hxo, Hxh, Ho', bool_decide_true by done. cbn. eexists. by split_and!.
Qed.

(** C19. An operation is dispatched exactly when it became durable: whatever
    other processes do before an unacknowledged COMMIT is resolved, as long as
    they do not use its identifier, an admission reports a created operation
    only if this very call wrote it, accepted, new and in this process' epoch,
    to the journal; and a call whose write was committed reports it as
    created, also when the reply was lost, unless others intervened. *)
Theorem dispatch_iff_durable (s : Store) (d d' : database) (r : Request) (p : Proposal)
    (id : string) (now : Time) (fate : commit_fate) (seen : database -> database) (out : Result Admission) :
  journal_ok d -> foreign_run id d' (seen d') ->
  submit s d r p id now fate seen = (out, d') ->
  (forall a, out = Ok a -> Adm_Created a = true ->
     fate <> NotCommitted /\ DB_requests d !! request_id r = None
     /\ Op_ID (Adm_Operation a) = id /\ Op_State (Adm_Operation a) = Accepted
     /\ Op_Epoch (Adm_Operation a) = Store_epoch s
     /\ exists o, DB_operations d' !! id = Some o /\ Op_State o = Accepted /\ Op_Epoch o = Store_epoch s
          /\ Op_Revision o = 1 /\ (fate = Committed -> o = Adm_Operation a))
  /\ (DB_requests d !! request_id r = None -> is_Some (DB_requests d' !! request_id r) ->
      fate = Committed \/ seen d' = d' ->
      exists a, out = Ok a /\ Adm_Created a = true /\ Op_ID (Adm_Operation a) = id).
Proof.
  intros Hok Hseen Ha. split.
  - intros a -> Hc.
    destruct (created_records _ _ _ _ _ _ _ _ _ _ Hok Hseen Ha Hc)
      as (hash & o & Hf & Hfate & Hid & Hst & Hep & Hl & Ht & Hsame).
    pose proof Ht as (_ & _ & _ & _ & eff & d1 & Heq & _ & Hins)%admit_transaction_cases.
    apply admit_insert_spec in Hins as (_ & _ & Hops & _).
    assert (DB_requests d !! request_id r = None) as Hnone.
    { revert Hl. unfold lookup, LookupRequest, GetOperation. by repeat case_match. }
    split_and!; [done..|]. exists o. subst o. rewrite Hops, lookup_insert_eq.
    split_and!; [done..|]. intros Hf'. by rewrite Hsame.
  - intros Hnone Hsome Hquiet. unfold Admit in Ha. destruct (fingerprint _ _ r) as [hash|] eqn:Hf;
      [|injection Ha as _ <-; rewrite Hnone in Hsome; by destruct Hsome].
    assert (lookup d r hash = Err (ESentinel JErrNotFound)) as Hl by (unfold lookup, LookupRequest; by rewrite Hnone).
    rewrite Hl in Ha. cbn in Ha.
    destruct (admit_transaction _ _ _ _ _ _ _ _ _) as [[o d1]|] eqn:Ht;
      [|injection Ha as _ <-; rewrite Hnone in Hsome; by destruct Hsome].
    apply admit_transaction_cases in Ht as (Hact & _ & _ & _ & eff & d2 & -> & Hrep & Hins).
    apply admit_insert_spec in Hins as (_ & _ & Hops & Hreqs & He & Hrd & _).
    destruct fate; cbn in Ha; [|..].
    + injection Ha as <- <-. eexists. by split_and!.
    + injection Ha as <- <-. destruct Hquiet as [[=]| ->].
      unfold admit_resolve, lookup, LookupRequest, GetOperation.
      rewrite Hreqs, lookup_insert_eq. cbn. rewrite bool_decide_true by done. cbn.
      rewrite Hops, lookup_insert_eq. eexists. split_and!; [done| |done]. cbn.
      destruct (replace_fence _ _ _ _ _ _ Hact Hrep) as [He' Hrd'].
      by rewrite He, Hrd, He', Hrd', !bool_decide_true.
    + injection Ha as _ <-. rewrite Hnone in Hsome. by destruct Hsome.
Qed.

(** Results are final: a finished operation is never rewritten by any
    transaction; the only way it leaves the journal is retention, at least
    seven days after it finished, when nothing reserves it and every
    idempotency record that names it has expired. *)
Theorem results_are_final (d d' : database) (id : string) (o : Operation) :
  journal_ok d -> DB_operations d !! id = Some o -> Op_FinishedAt o <> None -> step d d' ->
  DB_operations d' !! id = Some o
  \/ (DB_operations d' !! id = None /\ exists now t, Op_FinishedAt o = Some t /\ t + Retention <= now
      /\ (forall k row, DB_requests d !! k = Some row -> IR_operation row = id -> IR_expires row <= now)
      /\ (forall device r, DB_reservations d !! device = Some r -> Res_operation r <> id)).
Proof.
  intros Hok Ho Hf Hstep. destruct Hstep.
  - destruct (Admit_state json_size sha256 time_text s d r p id0 now fate seen) as [->|(h & x & _ & _ & Ht)]; [by left|].
    apply admit_transaction_cases in Ht as (_ & _ & _ & _ & eff & d1 & _ & Hrep & Hins). left.
    eapply insert_keeps; [exact Hins|]. by eapply replace_other.
  - destruct (Transition_state json_size s d id0 revision u now fate) as [->|(x & pr & ou & d1 & Hx & _ & Ht & ->)];
      [by left|]. left. apply update_lookup in Ht as (y & Hy & _ & Hops & _).
    destruct (State_terminal (Upd_State u)); cbn; rewrite Hops; by eapply insert_other.
  - destruct (SelectAlbum_state s d id0 revision album now fate) as [->|[x Hx]]; [by left|]. left.
    unfold SelectAlbum_query in Hx. destruct (updatable _ _ _ _) as [y|] eqn:Hy; [|done]. case_if; [done|].
    injection Hx as _ <-. cbn. by eapply insert_other.
  - match goal with H : recoverBatch _ _ _ _ = _ |- _ => apply recoverBatch_state in H as [->|H] end; [by left|].
    left. cbv zeta in H. subst d'. by apply (interrupt_keeps _ (Store_epoch s) now MaxBatch id o).
  - destruct (Prune_state s d limit now fate) as [->| ->]; [by left|].
    destruct (decide (id ∈ (PruneOperations d (now - Retention) now limit).1)) as [Hin|Hn].
    + right. destruct (prune_rows _ _ _ _ _ Hok Hin) as (x & Hx & (t & Ht & Hle) & Hq & Hr).
      assert (x = o) as -> by congruence. pose proof (row_id _ _ (inv_rows _ _ Hok _ _ Ho)) as Hid.
      split. { unfold PruneOperations in *. cbn in *. apply map_lookup_filter_None. right. naive_solver. }
      exists now, t. split_and!; [done|lia| |].
      * intros k row Hk Hrow. apply (Hq k row Hk). congruence.
      * intros device r Hd. rewrite <- Hid. apply (Hr device r Hd).
    + left. unfold PruneOperations in *. cbn in *. by apply map_lookup_filter_Some.
Qed.

(** Updates are fenced: an update of an operation takes effect only for
    the process that owns the journal's epoch, on an unfinished operation of
    its own epoch, at exactly the revision it read; it advances the revision by
    one, so a second update prepared from the same revision is refused and
    changes nothing. *)
Theorem transition_fenced (s : Store) (d d' : database) (id : string) (revision : Z) (u : Update)
    (now : Time) (o : Operation) :
  Transition json_size s d id revision u now Committed = (Ok o, d') ->
  DB_epoch d = Store_epoch s /\ Store_initialized s = true
  /\ (exists old, DB_operations d !! id = Some old /\ Op_Revision old = revision
        /\ Op_Epoch old = Store_epoch s /\ Op_FinishedAt old = None)
  /\ DB_operations d' !! id = Some o /\ Op_Revision o = revision + 1
  /\ forall u' now' fate out d'',
       Transition json_size s d' id revision u' now' fate = (out, d'') -> is_ok out = false /\ d'' = d'.
Proof.
  intros H.
  unfold Transition in H. case_if; [done|]. destruct (canonical _ _) as [progress|]; [|done].
  destruct (canonical _ (default _ (Upd_Outcome u))) as [outcome|]; [|done].
  destruct (active s d) eqn:Ha; [done|].
  destruct (TransitionOperation _ _ _ _ _ _ _ _ _ _) as [[x d1]|] eqn:Ht; [|done].
  cbn in H. injection H as -> <-.
  apply update_lookup in Ht as (y & Hy & -> & Hops & _). apply updatable_spec in Hy as (Hy & Hrev & Hep & Hfin).
  apply active_none in Ha as (Hinit & _ & Hdb).
  set (d' := if State_terminal (Upd_State u) then finish d1 [id] now else d1).
  assert (DB_operations d' !! id = Some (transitioned y (Upd_State u) (Upd_Phase u) progress outcome (Upd_ErrorCode u) now)) as Hd'.
  { unfold d'. destruct (State_terminal (Upd_State u)); cbn; rewrite Hops; apply lookup_insert_eq. }
  split_and!; [done..|by exists y|done|cbn; lia|].
  intros u' now' fate out d''. unfold Transition.
  assert (updatable d' id (Store_epoch s) revision = None) as Hnone.
  { unfold updatable. rewrite Hd'. cbn. rewrite (proj2 (Z.eqb_neq _ _)) by lia. done. }
  unfold TransitionOperation. rewrite Hnone. repeat case_match; intros [= <- <-]; done.
Qed.
End Properties.

(** ** Recovery *)

(** What recovery of epoch [epoch] may still change. *)
Definition unfinished_count (epoch : string) (d : database) : nat :=
  size (filter (fun ko => unfinished_elsewhere epoch ko.2) (DB_operations d)).

Lemma interrupt_ids_length (d : database) (epoch : string) (limit : Z) :
  length (interrupt_ids d epoch limit) = Nat.min (Z.to_nat limit) (unfinished_count epoch d).
Proof.
  unfold interrupt_ids, unfinished_count. rewrite length_take. f_equal.
  rewrite (Permutation_length (interrupt_candidates d epoch)), length_fmap. apply length_map_to_list.
Qed.

Lemma interrupt_count (d : database) (epoch : string) (now : Time) (limit : Z) :
  unfinished_count epoch (InterruptBatch d epoch now limit).2
  = (unfinished_count epoch d - length (interrupt_ids d epoch limit))%nat.
Proof.
  pose proof (interrupt_ids_nodup d epoch limit) as Hnd.
  unfold unfinished_count. rewrite <- !(size_dom (D := gset string)).
  rewrite <- (size_list_to_set (C := gset string)) by exact Hnd. rewrite <- size_difference.
  - f_equal. apply dom_filter_L. intros i. unfold InterruptBatch. cbn.
    rewrite foldr_alter_lookup by done. rewrite elem_of_difference, elem_of_list_to_set.
    rewrite elem_of_dom. split.
    + intros [[o Ho] Hn]. apply map_lookup_filter_Some in Ho as [Ho Hu].
      exists o. rewrite bool_decide_false by done. by rewrite Ho.
    + intros (o & Ho & Hu). case_if; breflect.
      * apply fmap_Some in Ho as (x & _ & ->). destruct Hu as [_ Hu]. done.
      * split; [|done]. exists o. by apply map_lookup_filter_Some.
  - intros i Hi%elem_of_list_to_set. apply interrupt_ids_elem in Hi as (o & Ho & Hu).
    apply elem_of_dom. exists o. by apply map_lookup_filter_Some.
Qed.

(** An acknowledged batch of a store whose view of the epoch is current. *)
Definition recovers (s : Store) (d : database) : Prop :=
  Store_previousEpoch s = None \/ Store_previousEpoch s = Some (DB_epoch d) \/ DB_epoch d = Store_epoch s.

Lemma recoverBatch_step (s : Store) (d : database) (now : Time) :
  recovers s d ->
  exists s' d', recoverBatch s d now Committed
      = (Ok (len (interrupt_ids d (Store_epoch s) MaxBatch) <? MaxBatch), s', d')
    /\ Store_epoch s' = Store_epoch s /\ Store_initialized s' = Store_initialized s
    /\ DB_epoch d' = Store_epoch s
    /\ DB_ready d' = (len (interrupt_ids d (Store_epoch s) MaxBatch) <? MaxBatch)
    /\ DB_operations d' = DB_operations (InterruptBatch d (Store_epoch s) now MaxBatch).2
    /\ (unfinished_count (Store_epoch s) d'
        = unfinished_count (Store_epoch s) d - length (interrupt_ids d (Store_epoch s) MaxBatch))%nat.
Proof.
  intros Hrec. unfold recoverBatch. set (s1 := match Store_previousEpoch s with Some _ => s | None => _ end).
  assert (Store_epoch s1 = Store_epoch s /\ Store_initialized s1 = Store_initialized s) as [He Hi]
    by (unfold s1; by case_match). rewrite He.
  assert ((Some (DB_epoch d) != Store_previousEpoch s1) && (DB_epoch d != Store_epoch s) = false) as ->.
  { apply not_true_iff. intros H. breflect. unfold s1 in *.
    destruct Hrec as [Hp|[Hp|Hp]]; [rewrite Hp in *; done|rewrite Hp in *; congruence|done]. }
  unfold InterruptBatch. cbv zeta. cbn [commit_state].
  change (interrupt_ids (d <| DB_epoch := _ |> <| DB_ready := false |>)) with (interrupt_ids d).
  eexists _, _. split; [reflexivity|]. rewrite Hi, He.
  split_and!; [done|done|by case_if|by case_if|by case_if|].
  pose proof (interrupt_count d (Store_epoch s) now MaxBatch) as <-. unfold unfinished_count. by case_if.
Qed.

Lemma recover_loop (now : Time) (n : nat) : forall (s : Store) (d : database),
  Store_initialized s = false -> recovers s d -> (unfinished_count (Store_epoch s) d < n * 100)%nat ->
  exists s' d', Recover n s d now (fun _ => Committed) = Some (Ok tt, s', d')
    /\ Store_initialized s' = true /\ DB_ready d' = true /\ DB_epoch d' = Store_epoch s
    /\ unfinished_count (Store_epoch s) d' = 0%nat.
Proof.
  induction n as [|n IH]; intros s d Hi Hrec Hn; [lia|].
  destruct (recoverBatch_step s d now Hrec) as (s' & d' & Hb & He & Hi' & Hde & Hdr & _ & Hc).
  pose proof (interrupt_ids_length d (Store_epoch s) MaxBatch) as Hlen. change (Z.to_nat MaxBatch) with 100%nat in Hlen.
  cbn [Recover]. rewrite Hi, Hb. case_if; breflect; unfold len, MaxBatch in *.
  - eexists _, _. split; [reflexivity|]. split_and!; [done|done|done|lia].
  - destruct (IH s' d') as (s2 & d2 & Hr & Hi2 & Hr2 & He2 & Hc2); [congruence|by right; right; rewrite He|rewrite He; lia|].
    exists s2, d2. rewrite <- He. by split_and!.
Qed.


(** ** Witnesses *)

Definition sample_admitted : database := sample_admit.2.
Definition sample_operation : Operation :=
  accepted_operation sample_store sample_request sample_proposal (JObject [("level", JNumber "10")]) "op_1" 12.
Definition sample_update (state : State) : Update := {|
  Upd_State := state; Upd_Phase := "complete"; Upd_Progress := None; Upd_Outcome := None; Upd_ErrorCode := "" |}.
Definition sample_finished : Result Operation * database :=
  Transition sample_size sample_store sample_admitted "op_1" 1 (sample_update Succeeded) 15 Committed.

Lemma sample_admit_run : journal_run sample_size sample_sha sample_time empty_database sample_admitted.
Proof. eapply journal_next; [apply journal_start|apply step_admit]. Qed.

Lemma journal_consistent_witness :
  exists o, DB_operations sample_admitted !! "op_1" = Some o /\ Op_FinishedAt o = None.
Proof.
  destruct (proj1 (journal_consistent sample_size sample_sha sample_time sample_admitted sample_admit_run)
    "serial" {| Res_operation := "op_1"; Res_epoch := "e1" |}) as (o & Ho & _ & _ & Hf);
    [vm_compute; reflexivity|]. exists o. split; [exact Ho|exact Hf].
Defined.

Lemma admitted_at_most_once_witness :
  exists a', Admit sample_size sample_sha sample_time sample_store sample_admitted sample_request
    sample_proposal "op_2" 13 Committed id = (Ok a', sample_admitted) /\ Adm_Created a' = false.
Proof.
  destruct (admitted_at_most_once sample_size sample_sha sample_time sample_store sample_store
    empty_database sample_admitted sample_admitted sample_request sample_proposal sample_proposal
    "op_1" "op_2" 12 13 Committed Committed id id
    {| Adm_Operation := sample_operation; Adm_Created := true; Adm_RecoveredCommit := false |})
    as (a' & Ha & Hc & _);
    [apply empty_database_ok|constructor|vm_compute; reflexivity|reflexivity|constructor|].
  exists a'. split; [exact Ha|exact Hc].
Defined.

Lemma dispatch_iff_durable_witness :
  exists o, DB_operations sample_admitted !! "op_1" = Some o /\ Op_State o = Accepted.
Proof.
  destruct (dispatch_iff_durable sample_size sample_sha sample_time sample_store empty_database
    sample_admitted sample_request sample_proposal "op_1" 12 ReplyLost id
    (Ok {| Adm_Operation := sample_operation; Adm_Created := true; Adm_RecoveredCommit := true |})) as [H _];
    [apply empty_database_ok|constructor|vm_compute; reflexivity|].
  destruct (H _ eq_refl eq_refl) as (_ & _ & _ & _ & _ & o & Ho & Hst & _). exists o. split; [exact Ho|exact Hst].
Defined.

Lemma sample_finished_ok : journal_ok sample_finished.2.
Proof.
  eapply run_inv; [apply empty_database_ok|].
  eapply journal_next; [apply sample_admit_run|]. apply step_transition.
Qed.

Lemma results_are_final_witness :
  exists o, DB_operations (Prune sample_store sample_finished.2 5 100 Committed).2 !! "op_1" = Some o
    /\ Op_State o = Succeeded.
Proof.
  destruct (results_are_final sample_size sample_sha sample_time sample_finished.2
    (Prune sample_store sample_finished.2 5 100 Committed).2 "op_1"
    (transitioned sample_operation Succeeded "complete" empty_object empty_object "" 15))
    as [H|[_ (now & t & Ht & _)]];
    [exact sample_finished_ok|vm_compute; reflexivity|vm_compute; discriminate|apply step_prune| |].
  - eexists. split; [exact H|reflexivity].
  - eexists. split; [vm_compute; reflexivity|reflexivity].
Defined.

Lemma transition_fenced_witness :
  DB_operations sample_finished.2 !! "op_1"
  = Some (transitioned sample_operation Succeeded "complete" empty_object empty_object "" 15).
Proof.
  apply (transition_fenced sample_size sample_store sample_admitted sample_finished.2 "op_1" 1
    (sample_update Succeeded) 15). vm_compute. reflexivity.
Defined.

Definition sample_restarted : Store := {|
  Store_epoch := "e2"; Store_maxOperations := 10; Store_initialized := false; Store_previousEpoch := None |}.

