(* ===== verification/World.v ===== *)
(** * The worker's world

    The playback worker talks to a clock, a device observer, a writer and the
    journal, while event callbacks and other goroutines change the execution
    whenever its mutex is free.  Everything outside the worker is an
    environment with a state of its own; the monad threads the execution, the
    journalled operation, the environment and a trace of the calls made. *)

From S2P Require Import Prelude GoStd Values Model Diagnostics Errors Events State QueuePolicy.
From S2P Require Import QueueStart QueueOps Evidence Command Execution Json JournalModel.

(** ** Calls *)

Inductive read_call :=
  | ReadRefresh | ReadReconcile | ReadPlayback | ReadScalars (k : MutationKind) | ReadConfirm (s : Snapshot).

(** The journal-only work that [c.wg.Go] leaves to another goroutine. *)
Inductive journal_work :=
  | PersistSkip (child : bufferedSkip) (u : Update)
  | PersistOrphan (id : string).

Inductive io :=
  | IoWall (t : Time)
  | IoWrite (m : Mutation) (g : Guard) (reply : Result Token)
  | IoTransition (u : Update) (reply : Result Operation)
  | IoGet (reply : Result Operation)
  | IoReady (reply : option error)
  | IoRead (call : read_call) (reply : option error)
  | IoPage (start limit : Z) (reply : Result QueuePage)
  | IoBrowse (source container : ID) (reply : Result (list Item))
  | IoSpawn (work : journal_work).

(** The interfaces the worker's device and journal offer; [env_fired d] says
    whether the timer of a context with deadline [d] has fired. *)
Record Environment (E : Type) := {
  env_now : E -> Time * E;
  env_wall : E -> Time * E;
  env_interfere : execution -> E -> execution * E;
  env_fired : Time -> E -> bool * E;
  env_wait : Duration -> bool -> E -> option error * E;
  env_snapshot : E -> Snapshot * E;
  env_view : ID -> E -> View * E;
  env_read : read_call -> E -> option error * E;
  env_page : ID -> Z -> Z -> E -> Result QueuePage * E;
  env_write : Mutation -> Guard -> E -> Result Token * E;
  env_ready : E -> option error * E;
  env_transition : string -> Z -> Update -> E -> Result Operation * E;
  env_get : string -> E -> Result Operation * E;
  env_browse : ID -> ID -> E -> Result (list Item) * E;
  env_client : E -> View * E;
  (* the coordinator: whether its context has ended, whether it is closing *)
  env_stopping : E -> bool * E;
  env_closing : E -> bool * E;
  env_spawn : journal_work -> E -> unit * E;
  (* starts the timer that cancels the run *)
  env_budget : Time -> E -> unit * E
}.
Arguments env_now {E}. Arguments env_wall {E}. Arguments env_interfere {E}. Arguments env_fired {E}.
Arguments env_wait {E}. Arguments env_snapshot {E}. Arguments env_view {E}. Arguments env_read {E}.
Arguments env_page {E}. Arguments env_write {E}. Arguments env_ready {E}. Arguments env_transition {E}.
Arguments env_get {E}. Arguments env_browse {E}. Arguments env_client {E}. Arguments env_stopping {E}.
Arguments env_closing {E}. Arguments env_spawn {E}. Arguments env_budget {E}.

Record world (E : Type) := {
  W_run : execution;
  W_op : Operation;
  W_env : E;
  W_trace : list io
}.
Arguments W_run {E}. Arguments W_op {E}. Arguments W_env {E}. Arguments W_trace {E}.
Arguments Build_world {E}.
#[export] Instance world_eta {E} : Eta (world E) := fun w =>
  {| W_run := W_run w; W_op := W_op w; W_env := W_env w; W_trace := W_trace w |}.

(** ** The monad *)

Definition Worker (E A : Type) : Type := world E -> Result A * world E.

Definition ret {E A} (a : A) : Worker E A := fun w => (Ok a, w).
Definition fail {E A} (e : error) : Worker E A := fun w => (Err e, w).
Definition bind {E A B} (m : Worker E A) (k : A -> Worker E B) : Worker E B := fun w =>
  match m w with
  | (Ok a, w) => k a w
  | (Err e, w) => (Err e, w)
  end.
(** Go's [v, err := f()] with the error inspected by the caller. *)
Definition attempt {E A} (m : Worker E A) : Worker E (Result A) := fun w =>
  let '(out, w) := m w in (Ok out, w).

Notation "'let!' x ':=' m 'in' k" := (bind m (fun x => k))
  (at level 10, x name, m at level 100, k at level 200) : go_scope.
Notation "m ';;;' k" := (bind m (fun _ : unit => k)) (at level 199, k at level 200, right associativity) : go_scope.

Definition when_error {E} (o : option error) : Worker E unit :=
  match o with Some e => fail e | None => ret tt end.

(** A bounded loop that ran out of its fuel, and a run-time panic. *)
Definition out_of_fuel : error := EText "out of fuel".
Definition panic : error := EText "panic".

Section Primitives.
Context {E : Type} (env : Environment E).

Definition ask {A} (f : E -> A * E) : Worker E A := fun w =>
  let '(a, e) := f (W_env w) in (Ok a, w <| W_env := e |>).

Definition record (x : io) : Worker E unit := fun w => (Ok tt, w <| W_trace := W_trace w ++ [x] |>).

(** Fields that only the worker writes. *)
Definition own {A} (f : execution -> A) : Worker E A := fun w => (Ok (f (W_run w)), w).
Definition set_own (f : execution -> execution) : Worker E unit := fun w =>
  (Ok tt, w <| W_run := f (W_run w) |>).

(** A critical section of [r.mu]: other goroutines may have run before it. *)
Definition critical {A} (f : execution -> A * execution) : Worker E A := fun w =>
  let '(r, e) := env_interfere env (W_run w) (W_env w) in
  let '(a, r) := f r in
  (Ok a, w <| W_run := r |> <| W_env := e |>).
Definition locked {A} (f : execution -> A) : Worker E A := critical (fun r => (f r, r)).
Definition update_locked (f : execution -> execution) : Worker E unit := critical (fun r => (tt, f r)).

Definition now : Worker E Time := ask (env_now env).

(** A derived context: its timeouts, outermost last, over the run's own. *)
Definition context := list (Time * error).

Fixpoint ctx_cause (ctx : context) : Worker E (option error) :=
  match ctx with
  | [] => locked X_cancelled
  | (deadline, cause) :: parent =>
      let! up := ctx_cause parent in
      match up with
      | Some e => ret (Some e)
      | None =>
          let! fired := ask (env_fired env deadline) in
          ret (if fired then Some cause else None)
      end
  end.

Definition with_timeout (ctx : context) (d : Duration) : Worker E context :=
  let! t := now in ret ((t + Z.max 0 d, ESentinel DeadlineExceeded) :: ctx).

Definition snapshot : Worker E Snapshot := ask (env_snapshot env).
Definition player_view (pid : ID) : Worker E View := ask (env_view env pid).

Definition read (c : read_call) : Worker E (option error) :=
  let! reply := ask (env_read env c) in record (IoRead c reply) ;;; ret reply.

Definition queue_page (pid : ID) (start limit : Z) : Worker E QueuePage :=
  let! reply := ask (env_page env pid start limit) in
  record (IoPage start limit reply) ;;;
  match reply with Ok page => ret page | Err e => fail e end.

Definition device_write (m : Mutation) (g : Guard) : Worker E (Result Token) :=
  let! reply := ask (env_write env m g) in record (IoWrite m g reply) ;;; ret reply.

Definition journal_ready : Worker E (option error) :=
  let! reply := ask (env_ready env) in record (IoReady reply) ;;; ret reply.

Definition browse_all (source container : ID) : Worker E (list Item) :=
  let! reply := ask (env_browse env source container) in
  record (IoBrowse source container reply) ;;;
  match reply with Ok items => ret items | Err e => fail e end.

Definition client_view : Worker E View := ask (env_client env).
Definition stopping : Worker E bool := ask (env_stopping env).

(** [c.wg.Go]: the goroutine runs elsewhere, on the journal alone. *)
Definition spawn (work : journal_work) : Worker E unit := record (IoSpawn work) ;;; ask (env_spawn env work).

(** A program of another execution value, with its own journal row. *)
Definition as_run {A} (r : execution) (op : Operation) (m : Worker E A) : Worker E A := fun w =>
  let '(out, w') := m {| W_run := r; W_op := op; W_env := W_env w; W_trace := W_trace w |} in
  (out, {| W_run := W_run w; W_op := W_op w; W_env := W_env w'; W_trace := W_trace w' |}).

Definition get_op : Worker E Operation := fun w => (Ok (W_op w), w).
Definition set_op (o : Operation) : Worker E unit := fun w => (Ok tt, w <| W_op := o |>).

(** [clock.Wait(ctx, d, wake)]: waking consumes the pending signal. *)
Definition wait (d : Duration) (wake : bool) : Worker E (option error) :=
  (if wake then update_locked (fun r => r <| X_wake := false |>) else ret tt) ;;; ask (env_wait env d wake).
End Primitives.
