(* ===== verification/Worker.v ===== *)
(** * Observation and journalling of the worker ([internal/control/execution.go],
    [observation.go], [ownership.go], [queue_transition.go],
    [scalar_confirmation.go], [confirmation.go])

    The read-only half of the worker: journal transitions, complete
    observations, waits and confirmations.  Loops that wait on the device carry
    a [fuel]; loops the code bounds itself use that bound. *)

From S2P Require Import Prelude GoStd Values Model Diagnostics Errors Events State QueuePolicy.
From S2P Require Import QueueStart QueueOps Evidence Command Execution Json JournalModel World.

Definition activeObservationInterval : Duration := 5 * Minute.
Definition pendingObservationInterval : Duration := Second.
Definition observationEventSpacing : Duration := 250 * Millisecond.

(** ** Progress and outcome documents *)

Section Documents.
Context (time_text : Time -> string).

Definition int_json (n : Z) : json := JNumber (itoa n).

Definition playback_fields (p : PlaybackProgress) : list (string * json) := [
  ("playback_started_at", JString (time_text (PP_PlaybackStartedAt p)));
  ("stop_at", JString (time_text (PP_StopAt p)));
  ("elapsed_seconds", int_json (PP_ElapsedSeconds p));
  ("level", int_json (PP_Level p))].

Definition queue_loading_json (q : QueueLoadingProgress) : json := JObject (
  (if QL_Mode q == "" then [] else [("mode", JString (QL_Mode q))])
  ++ optional "buffered_tracks" (int_json <$> QL_BufferedTracks q)
  ++ optional "remaining_tracks" (int_json <$> QL_RemainingTracks q)
  ++ optional "current_index" (int_json <$> QL_CurrentIndex q)
  ++ optional "pruned_tracks" (int_json <$> QL_PrunedTracks q)
  ++ optional "session_expires_at" ((fun t => JString (time_text t)) <$> QL_SessionExpiresAt q)
  ++ [("total_parts", int_json (QL_TotalParts q)); ("confirmed_parts", int_json (QL_ConfirmedParts q));
      ("total_tracks", int_json (QL_TotalTracks q)); ("confirmed_tracks", int_json (QL_ConfirmedTracks q))]).

Definition operationProgress (p : option PlaybackProgress) (q : option QueueLoadingProgress) : json :=
  JObject (match p with Some p => playback_fields p | None => [] end
           ++ optional "queue_loading" (queue_loading_json <$> q)).

Definition outcome_json (delivery : string) (mayContinue : bool) (confirmed : option Z) : json := JObject (
  [("delivery", JString delivery); ("playback_may_continue", JBool mayContinue)]
  ++ optional "commands_confirmed" (int_json <$> confirmed)).
End Documents.

(** [equalJSON] on documents that the journal and the worker marshalled. *)
Definition json_document (raw : option RawMessage) : option json :=
  match raw with
  | None => Some empty_object
  | Some raw => match readJSON (S (2 * length (Raw_tokens raw))) 0 (Raw_tokens raw) with
                | Some (v, _) => Some v
                | None => None
                end
  end.

Fixpoint json_eqb (a b : json) : bool :=
  match a, b with
  | JNull, JNull => true
  | JBool x, JBool y => Bool.eqb x y
  | JNumber x, JNumber y => (x =? y)%string
  | JString x, JString y => (x =? y)%string
  | JArray x, JArray y =>
      (fix go l k := match l, k with
       | [], [] => true
       | v :: l, w :: k => json_eqb v w && go l k
       | _, _ => false end) x y
  | JObject x, JObject y =>
      (fix go l k := match l, k with
       | [], [] => true
       | (n, v) :: l, (n', w) :: k => (n =? n')%string && json_eqb v w && go l k
       | _, _ => false end) x y
  | _, _ => false
  end.

Definition equalJSON (stored : json) (raw : option RawMessage) : bool :=
  match json_document raw with
  | Some v => json_eqb (sorted_json stored) (sorted_json v)
  | None => false
  end.

Definition matchesUpdate (op : Operation) (u : Update) : bool :=
  (Op_State op == Upd_State u) && (Op_Phase op == Upd_Phase u) && (Op_ErrorCode op == Upd_ErrorCode u)
  && equalJSON (Op_Progress op) (Upd_Progress u) && equalJSON (Op_Outcome op) (Upd_Outcome u).

Section Worker.
Context {E : Type} (env : Environment E) (p : PlayerConfig).
Context (json_size : json -> Z) (time_text : Time -> string).
Local Abbreviation W := (Worker E).

(** ** Journal *)

(** [transition]: a journal write is resolved by reading it back, never repeated. *)
Definition transition (u : Update) : W unit :=
  let! progress := own X_progress in
  let! loading := own X_queueLoading in
  let u := if is_some progress || is_some loading
           then u <| Upd_Progress := Some (marshal json_size (operationProgress time_text progress loading)) |>
           else u in
  let! op := get_op in
  let! reply := ask (env_transition env (Op_ID op) (Op_Revision op) u) in
  record (IoTransition u reply) ;;;
  let! resolved :=
    match reply with
    | Ok o => ret (Ok o)
    | Err e =>
        let! current := ask (env_get env (Op_ID op)) in
        record (IoGet current) ;;;
        ret (match current with
             | Ok o => if (Op_Revision o =? Op_Revision op + 1) && matchesUpdate o u then Ok o else Err e
             | Err _ => Err e
             end)
    end in
  match resolved with
  | Ok o => set_op o ;;; update_locked env (fun r => r <| X_phase := Op_Phase o |>)
  | Err e => fail (EWrap [ESentinel errJournalUnavailable; e])
  end.

Definition running (phase : string) : Update := {|
  Upd_State := Running; Upd_Phase := phase; Upd_Progress := None; Upd_Outcome := None; Upd_ErrorCode := "" |}.

Definition checkJournal : W unit :=
  let! reply := journal_ready env in
  match reply with
  | Some e => fail (EWrap [ESentinel errJournalUnavailable; e])
  | None => ret tt
  end.

(** ** Complete observations *)

(** One page per step; 100 pages are the code's own bound. *)
Fixpoint complete_pages (fuel : nat) (s : Snapshot) (q : QueuePage) : W QueuePage :=
  match Queue_Next q with
  | None => ret q
  | Some next =>
      match fuel with
      | O => fail (ESentinel ErrBounds)
      | S fuel =>
          match Queue_Total q with
          | None => fail (ESentinel ErrBounds)
          | Some total =>
              if (MaxBrowseItems <? total) || (next != len (Queue_Items q)) then fail (ESentinel ErrBounds)
              else
                let! page := queue_page env (Player_ID (Snap_Player s)) next 100 in
                if (Queue_Token page != Snap_Token s) || (Queue_Total q != Queue_Total page)
                then fail (ESentinel ErrStale)
                else if (len (Queue_Items page) =? 0)
                        || (MaxBrowseItems <? len (Queue_Items q) + len (Queue_Items page))
                then fail (ESentinel ErrBounds)
                else complete_pages fuel s
                       (q <| Queue_Items := Queue_Items q ++ Queue_Items page |>
                          <| Queue_Next := Queue_Next page |>)
          end
      end
  end.

Definition completeQueue (s : Snapshot) : W Snapshot :=
  match Queue_Next (Snap_Queue s) with
  | None => ret s
  | Some _ =>
      let! q := complete_pages (Z.to_nat (MaxBrowsePages - 1)) s (Snap_Queue s) in
      match Queue_Total q with
      | None => fail panic
      | Some total =>
          if total != len (Queue_Items q) then fail (ESentinel ErrProtocol)
          else
            let! view := player_view env (Player_ID (Snap_Player s)) in
            if negb (View_Connected view) || (View_Token view != Snap_Token s)
            then fail (ESentinel ErrStale)
            else ret (s <| Snap_Queue := q |>)
      end
  end.

Definition is_stale (r : Result Snapshot) : bool :=
  match r with Err e => errors_is ErrStale e | Ok _ => false end.
Definition of_result {A} (r : Result A) : W A := match r with Ok a => ret a | Err e => fail e end.

(** The attempts of [observe]: only a stale read is tried again. *)
Definition observe_once (ctx : context) (bounded : bool) : W Snapshot :=
  let! err := read env ReadRefresh in
  match err with
  | Some e => fail e
  | None =>
      let! s := snapshot env in
      if Snap_EventUpdated s then fail (ESentinel ErrStale)
      else if bounded then completeQueue s else ret s
  end.

Fixpoint observe_tries (n : nat) (ctx : context) (bounded : bool) (last : Result Snapshot) : W Snapshot :=
  match n with
  | O => of_result last
  | S n =>
      let! cause := ctx_cause env ctx in
      match cause with
      | Some e => fail e
      | None =>
          let! out := attempt (observe_once ctx bounded) in
          if is_stale out then observe_tries n ctx bounded out else of_result out
      end
  end.

Definition observe (ctx : context) (bounded : bool) : W Snapshot :=
  let! ctx := with_timeout env ctx (5 * Second) in observe_tries 3 ctx bounded (Ok Snapshot_zero).

Definition observeRun (ctx : context) (reuse : bool) : W Snapshot :=
  let! ctx := with_timeout env ctx (5 * Second) in
  let! cause := ctx_cause env ctx in
  when_error cause ;;;
  let! revision := locked env X_eventRevision in
  let! s := snapshot env in
  let! t := now env in
  let age := t - Snap_ObservedAt s in
  let! view := player_view env (Player_ID (Snap_Player s)) in
  let! observedAt := own X_observedAt in
  let! bounded := own X_bounded in
  let canReuse := reuse && (observedAt <? Snap_ObservedAt s) && (0 <=? age) && (age <=? Second)
                  && negb (Snap_EventUpdated s) && negb (Snap_Stale s) && Snap_Connected s
                  && View_Connected view && (View_Token view == Snap_Token s) in
  let! out := attempt (if canReuse then (if bounded then completeQueue s else ret s) else observe ctx bounded) in
  let! cause := ctx_cause env ctx in
  let out := match cause with Some e => Err e | None => out end in
  let! t := now env in
  set_own (fun r => r <| X_lastReadAttempt := t |>) ;;;
  match out with
  | Err e => fail e
  | Ok s =>
      let! t := now env in
      set_own (fun r => r <| X_lastRead := t |> <| X_observedAt := Snap_ObservedAt s |>) ;;;
      update_locked env (fun r => r <| X_observedRevision := revision |>) ;;;
      ret s
  end.

(** [reconcileOwnedOnce], with an observer that reconciles playback. *)
Definition reconcileOwnedOnce (ctx : context) : W Snapshot :=
  let! held := locked env (fun r => (X_expected r, X_eventRevision r, negb (isZero (X_queueWait r)))) in
  let '(before, revision, waiting) := held in
  let! err := read env (if waiting then ReadPlayback else ReadReconcile) in
  when_error err ;;;
  let! s := snapshot env in
  let! cause := ctx_cause env ctx in
  when_error cause ;;;
  let! view := player_view env (Player_ID (Snap_Player s)) in
  if Snap_Stale s || negb (Snap_Connected s) || negb (View_Connected view) || (Snap_Token s != View_Token view)
  then fail (ESentinel ErrStale)
  else
    let! bounded := own X_bounded in
    let newer := Snap_ObservedAt before <? Snap_ObservedAt s in
    let! s := if newer && bounded then completeQueue s
              else ret (s <| Snap_Queue := Snap_Queue before |>) in
    let! t := now env in
    set_own (fun r => r <| X_lastReadAttempt := t |>) ;;;
    (if newer then let! t := now env in set_own (fun r => r <| X_lastRead := t |>) else ret tt) ;;;
    set_own (fun r => r <| X_observedAt := Snap_ObservedAt s |>) ;;;
    update_locked env (fun r => r <| X_observedRevision := revision |>) ;;;
    ret s.

Fixpoint reconcile_tries (n : nat) (ctx : context) (last : Result Snapshot) : W Snapshot :=
  match n with
  | O => of_result last
  | S n =>
      let! cause := ctx_cause env ctx in
      match cause with
      | Some e => fail e
      | None =>
          let! out := attempt (reconcileOwnedOnce ctx) in
          if is_stale out then reconcile_tries n ctx out else of_result out
      end
  end.

Definition reconcileOwned (ctx : context) : W Snapshot :=
  let! ctx := with_timeout env ctx (5 * Second) in reconcile_tries 3 ctx (Ok Snapshot_zero).

Definition prewriteObservation (m : Mutation) : W Snapshot :=
  let! held := locked env (fun r =>
    (X_expected r, 0 <? X_confirmed r, pendingEvents r || negb (isZero (X_queueWait r)))) in
  let '(s, confirmed, pending) := held in
  let! t := now env in
  let age := t - Snap_ObservedAt s in
  let! view := player_view env (Player_ID (Snap_Player s)) in
  let! background := snapshot env in
  if confirmed && (Snap_ObservedAt s <? Snap_ObservedAt background) then reconcileOwned []
  else if confirmed && scalarMutation m && negb pending && (0 <=? age) && (age <? activeObservationInterval)
          && Snap_Connected s && negb (Snap_Stale s) && View_Connected view then
    if View_Token view == Snap_Token s then
      let! cause := ctx_cause env [] in when_error cause ;;; ret s
    else reconcileOwned []
  else
    let! owned := locked env X_queueOwned in
    if confirmed && owned && pending then reconcileOwned [] else observeRun [] false.

(** ** Waits *)

Fixpoint wait_until (fuel : nat) (next : Time) : W (option error) :=
  match fuel with
  | O => fail out_of_fuel
  | S fuel =>
      let! t := now env in
      if negb (t <? next) then ret None
      else
        let! pending := locked env observationPending in
        if pending then ret None
        else
          let! t := now env in
          let! err := wait env (next - t) true in
          match err with Some e => ret (Some e) | None => wait_until fuel next end
  end.

Definition waitForObservation (fuel : nat) (ctx : context) (deadline : Time) : W unit :=
  let! last := own X_lastReadAttempt in
  let! err := wait_until fuel (minTime (last + pendingObservationInterval) deadline) in
  when_error err ;;;
  let earliest := minTime (last + observationEventSpacing) deadline in
  let! t := now env in
  (if t <? earliest then
     let! t := now env in
     let! err := wait env (earliest - t) false in when_error err
   else ret tt) ;;;
  let! cause := ctx_cause env ctx in when_error cause.

(** ** Active track transitions *)

Definition queue_decision (expired : bool) (before fresh : Snapshot) : W queueDecision :=
  let! t := now env in
  let! at_ := now env in
  critical env (fun r => queueObservationDecision p r expired before fresh t at_).

Definition transition_expired (cause : option error) : bool :=
  match cause with Some e => is_transition_timeout e | None => false end.

(** The loop of [awaitOwnedPlayback] at a decision.  Once its context has ended
    the decision does not look at the observation, so a reconciliation that
    failed then keeps the previous one. *)
Fixpoint await_loop (fuel : nat) (ctx : context) (deadline : Time) (before fresh : Snapshot) (waited : bool)
    (d : queueDecision) : W (Snapshot * bool) :=
  match fuel with
  | O => fail out_of_fuel
  | S fuel =>
      let again (fresh : Snapshot) : W (Snapshot * bool) :=
        let! cause := ctx_cause env ctx in
        let! d := queue_decision (transition_expired cause) before fresh in
        await_loop fuel ctx deadline before fresh true d in
      match QD_Action d with
      | queuePass | queueResume => ret (fresh, waited)
      | queueRelease => match QD_Err d with Some e => fail e | None => ret (fresh, waited) end
      | _ =>
          let! waiting := attempt (waitForObservation fuel ctx deadline) in
          let! t := now env in
          if negb (is_ok waiting) || negb (t <? deadline) then again fresh
          else
            let! ready := journal_ready env in
            let! cause := ctx_cause env ctx in
            match cause, ready with
            | Some _, _ => again fresh
            | None, Some e => fail (EWrap [ESentinel errJournalUnavailable; e])
            | None, None =>
                let! out := attempt (reconcileOwned ctx) in
                let! cause := ctx_cause env ctx in
                match cause, out with
                | Some _, Ok s => again s
                | Some _, Err _ => again fresh
                | None, Err e => fail e
                | None, Ok s => again s
                end
            end
      end
  end.

Definition awaitOwnedPlayback (fuel : nat) (before fresh : Snapshot) : W (Snapshot * bool) :=
  let! cause := ctx_cause env [] in
  let! d := queue_decision (transition_expired cause) before fresh in
  if QD_Action d == queuePass then ret (fresh, false)
  else
    let! t := now env in
    let ctx := [(t + Z.max 0 (QD_Deadline d - t), EQueueTransitionTimeout)] in
    await_loop fuel ctx (QD_Deadline d) before fresh false d.
End Worker.
