(* ===== verification/WriteOnce.v ===== *)
(** * Sending one command ([internal/control/execution.go],
    [scalar_confirmation.go], [confirmation.go], [skip.go])

    [writeOnce] is the only place of the worker that writes to the device: the
    checks before a send, the send itself under a wire guard, and the
    confirmation that follows.  [write] repeats it only for a proven unsent,
    stale guard. *)

From S2P Require Import Prelude GoStd Values Model Diagnostics Errors Events State QueuePolicy.
From S2P Require Import QueueStart QueueOps Evidence Command Execution Json JournalModel World Worker.

(** The prefix that a removal would drop is behind the retained entries. *)
Definition removalAllowed (b : option bufferedPlayback) (s : Snapshot) (m : Mutation) : bool :=
  match b, Snap_Media s with
  | Some b, Some media =>
      let n := len (Mut_QueueIDs m) in
      let items := Queue_Items (Snap_Queue s) in
      if (Snap_State s != PlayStatePlay) || negb (queuedMedia (Snap_Queue s) (Snap_Media s)) then false
      else if (n =? 0) || (len items <=? n) then false
      else if negb (forallb (fun iq => Media_QueueID iq.1 == iq.2) (zip items (Mut_QueueIDs m))) then false
      else
        (* the last entry that matches; queue IDs are distinct *)
        let current := foldl (fun acc im => if same_entry media im.2 then Z.of_nat im.1 else acc) (-1)
                         (imap pair items) in
        Buf_RetainPrevious (BP_policy b) <=? current - n
  | _, _ => false
  end.

(** The section that compares an observation with the owned state, and takes
    it as the expected state when nothing owned has changed. *)
Definition adopt (before fresh : Snapshot) (r : execution) : list string * execution :=
  let changes := execution_ownedChanges r before fresh in
  (changes, if len changes =? 0 then r <| X_expected := fresh |> else r).

Section WriteOnce.
Context {E : Type} (env : Environment E) (p : PlayerConfig).
Context (json_size : json -> Z) (time_text : Time -> string).
Local Abbreviation W := (Worker E).

(** ** Scalar confirmation *)

Definition held_scalar (r : execution) : scalarConfirmation :=
  default (newScalarConfirmation Mutation_zero Snapshot_zero) (X_scalar r).

(** The wait for an event: [Ok (Some s)] confirmed, [Ok None] time to fall back. *)
Fixpoint scalar_wait (fuel : nat) (ctx : context) (deadline fallbackAt : Time) : W (option Snapshot) :=
  match fuel with
  | O => fail out_of_fuel
  | S fuel =>
      let! cause := ctx_cause env [] in
      when_error cause ;;;
      let! t := now env in
      if negb (t <? deadline) then fail (ESentinel DeadlineExceeded)
      else
        let! held := locked env (fun r =>
          (scalar_ready (held_scalar r), scalar_result (held_scalar r) (X_expected r),
           pendingEvents r || negb (isZero (X_queueWait r)))) in
        let '(ready, s, pending) := held in
        if ready then
          (if negb pending then
             let! err := read env (ReadConfirm s) in
             match err with
             | Some e => if errors_is ErrStale e then ret tt else fail e
             | None => ret tt
             end
           else ret tt) ;;;
          let! cause := ctx_cause env [] in
          when_error cause ;;; ret (Some s)
        else
          let! cause := ctx_cause env ctx in
          when_error cause ;;;
          let! t := now env in
          if negb (t <? fallbackAt) then ret None
          else
            checkJournal env ;;;
            let! t := now env in
            let! err := wait env (Z.min Second (fallbackAt - t)) true in
            when_error err ;;; scalar_wait fuel ctx deadline fallbackAt
  end.

(** The last critical section of [confirmScalar]: the targeted read's answer. *)
Definition scalar_fallback (m : Mutation) (s : Snapshot) (r : execution) : Result Snapshot * execution :=
  match X_cancelled r with
  | Some e => (Err e, r)
  | None =>
      let expected := X_expected r in
      if Snap_Stale s || negb (Snap_Connected s)
         || (Token_Generation (Snap_Token s) != Token_Generation (Snap_Token expected))
      then (Err (ESentinel ErrStale), r)
      else
        let matched :=
          match Mut_Kind m with
          | MutationKindMode => (Snap_Repeat s == Mut_Repeat m) && (Snap_Shuffle s == Mut_Shuffle m)
          | MutationKindVolume =>
              let muted := if Snap_Muted expected == Some true then Snap_Muted s else Snap_Muted expected in
              (Snap_Volume s == Some (Mut_Level m)) && is_some (Snap_Muted s) && (Snap_Muted s == muted)
          | _ => is_some (Snap_Volume s) && (Snap_Volume s == Snap_Volume expected)
                 && (Snap_Muted s == Some (Mut_Muted m))
          end in
        if negb matched then (Err (ESentinel DeadlineExceeded), r)
        else
          let c := held_scalar r <| SC_observed := s |> in
          (Ok (scalar_result c expected <| Snap_Token := Snap_Token s |>), r <| X_scalar := Some c |>)
  end.

Definition confirmScalar (fuel : nat) (m : Mutation) : W Snapshot :=
  let! t := now env in
  let deadline := t + playbackConfirmationTimeout in
  let! playback := own X_playbackDeadline in
  let! t := now env in
  let finishing := (Mut_Kind m == MutationKindVolume) && (Mut_Level m =? 0) && negb (isZero playback)
                   && negb (t <? playback) in
  let cut := negb finishing && negb (isZero playback) && (playback <? deadline) in
  let fallbackAt := if cut then playback else deadline - Second in
  let deadline := if cut then playback else deadline in
  let! t := now env in
  let ctx := [(t + Z.max 0 (deadline - t), ESentinel DeadlineExceeded)] in
  let! heard := scalar_wait fuel ctx deadline fallbackAt in
  match heard with
  | Some s => ret s
  | None =>
      let! t := now env in
      if negb (t <? deadline) then fail (ESentinel DeadlineExceeded)
      else
        let! err := read env (ReadScalars (Mut_Kind m)) in
        when_error err ;;;
        let! cause := ctx_cause env ctx in
        when_error cause ;;;
        let! t := now env in
        if negb (t <? deadline) then fail (ESentinel DeadlineExceeded)
        else
          let! s := snapshot env in
          let! out := critical env (scalar_fallback m s) in
          of_result out
  end.

(** ** Read-back confirmation *)

(** What one observation decides: confirmed, or wait for the next. *)
Definition readback_decision (ctx : context) (m : Mutation) (before after : Snapshot) (deadline : Time) : W bool :=
  let! cause := ctx_cause env ctx in
  let! t := now env in
  let! at_ := now env in
  match Mut_Kind m with
  | MutationKindQueue =>
      if Mut_Append m then
        let! out := critical env (fun r => appendObservation p r cause before after t) in of_result out
      else
        let! d := critical env (fun r => queueStartObservation p r cause before after deadline t at_) in
        match QSD_Action d with
        | queueStartConfirm => ret true
        | queueStartAbort => fail (default panic (QSD_Err d))
        | queueStartWait => ret false
        end
  | MutationKindRemove =>
      let! out := critical env (fun r => removeObservation p r cause before after (len (Mut_QueueIDs m)) t) in
      of_result out
  | MutationKindSkip =>
      when_error (deviceObservationSafety p after) ;;;
      let! out := critical env (fun r => acceptSkipReadback r cause before after) in of_result out
  | _ =>
      when_error (deviceObservationSafety p after) ;;;
      if Snap_State after == Mut_State m then ret true
      else
        let changes := pendingChanges before after m in
        if len changes != 0
        then fail (ownershipMismatch "pending_readback_changed" changes before after)
        else ret false
  end.

Fixpoint readback_loop (fuel : nat) (ctx : context) (m : Mutation) (before : Snapshot) (deadline : Time)
    (reuse : bool) : W Snapshot :=
  match fuel with
  | O => fail out_of_fuel
  | S fuel =>
      let! cause := ctx_cause env ctx in
      when_error cause ;;;
      let! t := now env in
      if negb (t <? deadline) then fail (ESentinel DeadlineExceeded)
      else
        let! out := attempt (
          let! s := observeRun env ctx reuse in
          if Mut_Kind m == MutationKindSkip then completeQueue env s else ret s) in
        let! t := now env in
        if negb (t <? deadline) then fail (ESentinel DeadlineExceeded)
        else
          let again : W Snapshot :=
            let! t := now env in
            if negb (t <? deadline) then fail (ESentinel DeadlineExceeded)
            else waitForObservation env fuel ctx deadline ;;;
                 readback_loop fuel ctx m before deadline true in
          match out with
          | Ok after =>
              let! confirmed := readback_decision ctx m before after deadline in
              if (confirmed : bool) then ret after else again
          | Err e =>
              let! cause := ctx_cause env ctx in
              if negb (errors_is ErrStale e) || is_some cause then fail e else again
          end
  end.

Definition confirmReadback (fuel : nat) (m : Mutation) (before : Snapshot) : W Snapshot :=
  if scalarMutation m then confirmScalar fuel m
  else
    let! t := now env in
    let! playback := own X_playbackDeadline in
    let! buffered := own X_buffered in
    let deadline := t + playbackConfirmationTimeout in
    let deadline :=
      if (Mut_Append m || (Mut_Kind m == MutationKindRemove)
          || (is_some buffered && (Mut_Kind m == MutationKindSkip))) && negb (isZero playback)
      then minTime deadline playback else deadline in
    let! t := now env in
    let ctx := [(t + Z.max 0 (deadline - t), ESentinel DeadlineExceeded)] in
    readback_loop fuel ctx m before deadline false.

(** ** The checks before a send *)

Definition prepareSkip (direction : string) (before fresh : Snapshot) : W (Snapshot * Snapshot) :=
  let! completed := completeQueue env fresh in
  when_error (skipAdmissible (Cfg_VolumeCeiling p) direction completed) ;;;
  ret (if queueExtension (Snap_Queue before) (Snap_Queue completed)
       then before <| Snap_Queue := Snap_Queue completed |> else before, completed).

(** At or after the end of the appending window, or of the envelope, nothing
    that belongs before it is sent. *)
Definition append_closed (m : Mutation) (appendUntil now : Time) : bool :=
  (Mut_Append m || (Mut_Kind m == MutationKindRemove)) && negb (isZero appendUntil) && negb (now <? appendUntil).
Definition playback_command (r : execution) (m : Mutation) : bool :=
  (X_automating r && (Mut_Kind m == MutationKindVolume) && (0 <? Mut_Level m))
  || (is_some (X_buffered r) && (Mut_Kind m == MutationKindSkip)).
Definition playback_closed (r : execution) (m : Mutation) (now : Time) : bool :=
  playback_command r m && negb (isZero (X_playbackDeadline r)) && negb (now <? X_playbackDeadline r).

(** The duration of the wire guard: five seconds, cut at those two ends. *)
Definition guard_duration (r : execution) (m : Mutation) (t t' : Time) : Result Duration :=
  let d := 5 * Second in
  let? d :=
    if (Mut_Append m || (Mut_Kind m == MutationKindRemove)) && negb (isZero (X_appendUntil r)) then
      let remaining := X_appendUntil r - t in
      if remaining <=? 0 then Err (ESentinel errPlaybackTimelineChanged) else Ok (Z.min d remaining)
    else Ok d in
  if playback_command r m && negb (isZero (X_playbackDeadline r)) then
    let remaining := X_playbackDeadline r - t' in
    if remaining <=? 0 then Err (ESentinel errPlaybackTimelineChanged) else Ok (Z.min d remaining)
  else Ok d.

(** A buffered Skip at a boundary still hands its confirmed position over. *)
Definition skip_refused (before fresh : Snapshot) (e : error) : W (Snapshot * Snapshot) :=
  let! buffered := own X_buffered in
  if is_some buffered && errors_is ErrNotSkippable e then
    let! changes := critical env (adopt before fresh) in
    if len changes != 0 then fail (ownershipMismatch "before_write_changed" changes before fresh)
    else fail e
  else fail e.

Definition parts_catalog (r : execution) : Token :=
  match X_parts r with part :: _ => Part_CatalogToken part | [] => Token_zero end.

(** Everything of [writeOnce] before [r.expect]: the fresh observation and the
    guard's duration. *)
Definition prepare_write (fuel : nat) (m : Mutation) : W (Snapshot * Duration) :=
  let! cause := ctx_cause env [] in
  when_error cause ;;;
  let! fresh := prewriteObservation env m in
  let! before := locked env X_expected in
  let! awaited := awaitOwnedPlayback env p fuel before fresh in
  let '(fresh, waited) := (awaited : Snapshot * bool) in
  if waited && (Mut_Kind m == MutationKindVolume) then fail (ESentinel errPlaybackTimelineChanged)
  else
    let! appendUntil := own X_appendUntil in
    let! t := now env in
    if append_closed m appendUntil t then fail (ESentinel errPlaybackTimelineChanged)
    else
      let! r := own (fun r => r) in
      let! t := now env in
      if playback_closed r m t then fail (ESentinel errPlaybackTimelineChanged)
      else
        when_error (mutationSafety p fresh (Mut_Kind m == MutationKindSkip)) ;;;
        let! both :=
          if Mut_Kind m == MutationKindSkip then
            let! out := attempt (prepareSkip (Mut_Direction m) before fresh) in
            match out with Ok both => ret both | Err e => skip_refused before fresh e end
          else ret (before, fresh) in
        let '(before, fresh) := (both : Snapshot * Snapshot) in
        let! r := own (fun r => r) in
        if is_some (X_buffered r) && ((Mut_Kind m == MutationKindQueue) || (Mut_Kind m == MutationKindRemove))
           && negb (sameCatalog (parts_catalog r) (Snap_Token fresh))
        then fail (ESentinel ErrStaleReference)
        else
          let! changes := critical env (adopt before fresh) in
          if len changes != 0 then fail (ownershipMismatch "before_write_changed" changes before fresh)
          else if (Mut_Kind m == MutationKindRemove) && negb (removalAllowed (X_buffered r) fresh m)
          then fail (ESentinel errPlaybackTimelineChanged)
          else
            let! sent := attempt (transition env json_size time_text
                                    (running ("sending_" +:+ MutationKind_string (Mut_Kind m)))) in
            match sent with
            | Err e => update_locked env (fun r => r <| X_uncertain := true |>) ;;; fail (EWrap [e])
            | Ok tt =>
                let! r := own (fun r => r) in
                let! t := now env in
                let! t' := now env in
                let! d := of_result (guard_duration r m t t') in
                ret (fresh, d)
            end.

(** ** The send *)

(** [r.expect(m); r.inflight = true]. *)
Definition begin_send (m : Mutation) (r : execution) : Result unit * execution :=
  match expect m r with
  | Some r' => (Ok tt, r' <| X_inflight := true |>)
  | None => (Err panic, r)
  end.

(** The critical section after the writer's reply. *)
Definition end_send (reply : Result Token) (r : execution) : execution :=
  let r := r <| X_inflight := false |> in
  match reply with
  | Ok token =>
      let r := r <| X_unconfirmed := true |> in
      let current := Snap_Token (X_expected r) in
      if (Token_Generation token == Token_Generation current) && (Token_Player token == Token_Player current)
      then r <| X_expected := X_expected r <| Snap_Token := token |> |> else r
  | Err e =>
      let r := match as_command e with
               | None => r <| X_uncertain := true |>
               | Some d => if d == Errors.Uncertain then r <| X_uncertain := true |> else r
               end in
      r <| X_rejectedWrite := match as_command e with Some d => d == Rejected | None => false end |>
  end.

Definition send (m : Mutation) (fresh : Snapshot) (d : Duration) : W (Result Token) :=
  let! begun := critical env (begin_send m) in
  let! begun := of_result begun in
  let! _ := ret (begun : unit) in
  let! began := now env in
  let! wall := ask (env_wall env) in
  record (IoWall wall) ;;;
  let! reply := device_write env (m <| Mut_Player := Player_ID (Snap_Player fresh) |>)
                  {| Guard_Token := Snap_Token fresh; Guard_ExpiresAt := wall + d |} in
  update_locked env (end_send reply) ;;;
  let! _ := ret (began : Time) in
  ret reply.

(** ** Confirmation of the send *)

Definition mark_uncertain : W unit := update_locked env (fun r => r <| X_uncertain := true |>).

Definition settle_write (fuel : nat) (m : Mutation) (fresh after : Snapshot) : W unit :=
  let! r := own (fun r => r) in
  let expected := confirmed_controls m fresh after in
  (match Mut_Kind m with
   | MutationKindSkip =>
       if skipConfirmed fresh after then ret tt
       else fail (ownershipMismatch "readback_changed" (stateChanges fresh after) fresh after)
   | MutationKindQueue | MutationKindRemove =>
       if queueResultMatches r after then ret tt
       else fail (ownershipMismatch (execution_queueResultProblem r after) ["queue_membership"] fresh after)
   | _ => ret tt
   end) ;;;
  let! after := if Mut_Kind m == MutationKindVolume
                then let! settled := awaitOwnedPlayback env p fuel expected after in ret settled.1
                else ret after in
  when_error (deviceSafety p after) ;;;
  let! closed := critical env (fun r => match close_confirmation m expected after r with
                                        | Ok r' => (Ok tt, r')
                                        | Err e => (Err e, r)
                                        end) in
  let! done := of_result closed in
  let! _ := ret (done : unit) in
  let! cause := ctx_cause env [] in when_error cause.

Definition writeOnce (fuel : nat) (m : Mutation) : W unit :=
  let! prepared := prepare_write fuel m in
  let '(fresh, d) := (prepared : Snapshot * Duration) in
  let! reply := send m fresh d in
  match reply with
  | Err e => fail e
  | Ok _ =>
      let! confirmed := attempt (confirmReadback fuel m fresh) in
      match confirmed with
      | Err e => mark_uncertain ;;; fail e
      | Ok after => settle_write fuel m fresh after
      end
  end.

(** Only a proven unsent, stale guard of a bounded run is tried again. *)
Definition retryable (bounded : bool) (cause : option error) (e : error) : bool :=
  bounded && (as_command e == Some NotSent) && errors_is ErrStale e && negb (is_some cause).

Fixpoint write_tries (n fuel : nat) (m : Mutation) (last : Result unit) : W unit :=
  match n with
  | O => of_result last
  | S n =>
      let! out := attempt (writeOnce fuel m) in
      match out with
      | Ok tt => ret tt
      | Err e =>
          let! bounded := own X_bounded in
          let! cause := ctx_cause env [] in
          if retryable bounded cause e then
            update_locked env (fun r => r <| X_events := no_events |>) ;;;
            write_tries n fuel m out
          else fail e
      end
  end.

Definition write (fuel : nat) (m : Mutation) : W unit := write_tries 3 fuel m (Ok tt).
End WriteOnce.
