(* ===== verification/Persist.v ===== *)
(** * Journal-only finalizers ([internal/control/coordinator.go],
    [completion_diagnostics.go], [progressive_skip.go])

    Terminal results are written until the journal takes them, without any
    device access: the target of a cancellation, an orphaned handoff and the
    child Skip of a buffered playback.  The retry loops run as long as the
    journal is away and carry a [fuel]. *)

From S2P Require Import Prelude GoStd Values Model Diagnostics Errors Events State QueuePolicy.
From S2P Require Import QueueStart QueueOps Evidence Command Json JournalModel Execution World Worker.

Section Persist.
Context {E : Type} (env : Environment E).
Context (json_size : json -> Z) (time_text : Time -> string).
Local Abbreviation W := (Worker E).

(** Diagnostics never prevent terminal persistence. *)
Definition annotateOutcome (outcome : RawMessage) (d : Diagnostics) : RawMessage :=
  match WithDiagnostics json_size time_text (Some outcome) d with
  | Ok encoded => marshal json_size encoded
  | Err _ => outcome
  end.

Definition object_fields (v : json) : list (string * json) :=
  match v with JObject fields => fields | _ => [] end.
Definition string_field (name : string) (v : json) : option string :=
  match get_field name (object_fields v) with Some (JString s) => Some s | _ => None end.

(** The phase that the handoff recorded in the target's own diagnostics. *)
Definition prior_phase (outcome : json) : option string :=
  match get_field "diagnostics" (object_fields outcome) with
  | Some d => if string_field "reason" d == Some "cancellation_requested"
              then Some (default "" (string_field "phase" d)) else None
  | None => None
  end.

Definition merge_fields (fields result : list (string * json)) : list (string * json) :=
  foldl (fun acc kv => set_field kv.1 kv.2 acc) fields result.

Definition target_diagnostics (op : Operation) (update : Update) (at_ : Time) : Diagnostics :=
  let d := Diagnostics_zero <| Diag_Reason := "handoff_failed" |> <| Diag_Source := "controller" |>
             <| Diag_Phase := Op_Phase op |> <| Diag_DetectedAt := Some at_ |> in
  let d := match prior_phase (Op_Outcome op) with Some phase => d <| Diag_Phase := phase |> | None => d end in
  if Upd_Phase update == "cancelled"
  then d <| Diag_Reason := if Upd_State update != Cancelled then "cancellation_failed" else "cancelled" |>
  else d.

Definition targetOutcome (op : Operation) (update : Update) (at_ : Time) : RawMessage :=
  let result := match json_document (Upd_Outcome update) with Some v => object_fields v | None => [] end in
  annotateOutcome (marshal json_size (JObject (merge_fields (object_fields (Op_Outcome op)) result)))
    (target_diagnostics op update at_).

Definition get_row (id : string) : W (Result Operation) :=
  let! reply := ask (env_get env id) in record (IoGet reply) ;;; ret reply.

(** After a failed attempt: [None] to try again. *)
Definition retry_over (e : error) : W bool :=
  let! stopped := stopping env in
  if errors_is JErrStaleEpoch e || (stopped : bool) then ret true
  else let! err := wait env Second false in ret (is_some err).

Fixpoint persist_loop (fuel : nat) (id : string) (update : Update) (prepared : bool) (at_ : Time) : W unit :=
  match fuel with
  | O => fail out_of_fuel
  | S fuel =>
      let! current := get_row id in
      match current with
      | Ok o =>
          if is_some (Op_FinishedAt o) then ret tt
          else
            let update := if prepared then update
                          else update <| Upd_Outcome := Some (targetOutcome o update at_) |> in
            let update := update <| Upd_Progress := Some (marshal json_size (Op_Progress o)) |> in
            let! reply := ask (env_transition env id (Op_Revision o) update) in
            record (IoTransition update reply) ;;;
            match reply with
            | Ok _ => ret tt
            | Err e =>
                let! stop := retry_over e in
                if (stop : bool) then ret tt else persist_loop fuel id update true at_
            end
      | Err e =>
          let! stop := retry_over e in
          if (stop : bool) then ret tt else persist_loop fuel id update prepared at_
      end
  end.

Definition persistByID (fuel : nat) (id : string) (update : Update) : W unit :=
  let! at_ := now env in persist_loop fuel id update false at_.

Definition orphan_update : Update := {|
  Upd_State := Uncertain; Upd_Phase := "handoff_failed"; Upd_Progress := None;
  Upd_Outcome := Some (marshal json_size (outcome_json "unknown" true None)); Upd_ErrorCode := "ownership_revoked" |}.

Definition finishOrphan (id : string) : W unit :=
  let! closing := ask (env_closing env) in
  if (closing : bool) then ret tt else spawn env (PersistOrphan id).

(** ** A child Skip *)

Fixpoint persist_skip_loop (fuel : nat) (id : string) (update : Update) : W unit :=
  match fuel with
  | O => fail out_of_fuel
  | S fuel =>
      let! current := get_row id in
      let finished := match current with Ok o => is_some (Op_FinishedAt o) | Err _ => false end in
      if finished then ret tt
      else
        let! out := match current with
                    | Ok o => set_op o ;;; attempt (transition env json_size time_text update)
                    | Err e => ret (Err e)
                    end in
        match out with
        | Ok _ => ret tt
        | Err e =>
            let! stop := retry_over e in
            if (stop : bool) then ret tt else persist_skip_loop fuel id update
        end
  end.

Definition skip_diagnostics (update : Update) (at_ : Time) : Diagnostics :=
  Diagnostics_zero <| Diag_Reason := if Upd_State update == Succeeded then "completed" else Upd_ErrorCode update |>
    <| Diag_Source := "controller" |> <| Diag_Phase := "skipping" |> <| Diag_DetectedAt := Some at_ |>.

(** It runs on an execution of its own, [&execution{op: child.op}]. *)
Definition persistBufferedSkip (fuel : nat) (child : bufferedSkip) (update : Update) : W unit :=
  let! at_ := now env in
  let update := update <| Upd_Outcome := Some (annotateOutcome
                  (default (marshal json_size empty_object) (Upd_Outcome update)) (skip_diagnostics update at_)) |> in
  as_run execution_zero (BS_op child) (persist_skip_loop fuel (Op_ID (BS_op child)) update).

Definition clear_skip (child : bufferedSkip) (r : execution) : execution :=
  match X_bufferedSkip r with
  | Some c => if BS_id c =? BS_id child then r <| X_bufferedSkip := None |> else r
  | None => r
  end.

(** Synchronous only while the coordinator shuts down. *)
Definition finishBufferedSkip (fuel : nat) (child : bufferedSkip) (update : Update) : W unit :=
  let! closing := ask (env_closing env) in
  if (closing : bool) then persistBufferedSkip fuel child update ;;; update_locked env (clear_skip child)
  else spawn env (PersistSkip child update).

Definition skip_update (c_state : State) (code delivery : string) (count : Z) : Update := {|
  Upd_State := c_state; Upd_Phase := "complete"; Upd_Progress := None;
  Upd_Outcome := Some (marshal json_size (outcome_json delivery true (Some count))); Upd_ErrorCode := code |}.
Definition skip_revoked : Update := skip_update Released "ownership_revoked" "not_sent" 0.

(** The section of [closeBufferedSkips]: no child is taken from here on. *)
Definition close_skips (r : execution) : option bufferedSkip * execution :=
  let r := r <| X_bufferedSkipsClosed := true |> in
  match X_bufferedSkip r with
  | Some child => if BS_ready child
                  then (Some child, r <| X_bufferedSkip := Some (child <| BS_ready := false |>) |>)
                  else (None, r)
  | None => (None, r)
  end.

Definition closeBufferedSkips (fuel : nat) : W unit :=
  let! child := critical env close_skips in
  match child with
  | Some child => finishBufferedSkip fuel child skip_revoked
  | None => ret tt
  end.
End Persist.
