(* ===== verification/Playback.v ===== *)
(** * The playback worker ([internal/control/playback.go], [queue_append.go],
    [buffered_execution.go], [buffered_plan.go], [progressive_skip.go],
    [automation.go], [execution.go])

    What one worker does with a command: the start of a playback, the parts it
    appends and prunes, the child Skips it serves, the envelope it follows, the
    Stop that fades, and the terminal result it persists.  Every loop that
    waits on the device, the clock or the journal carries a [fuel]. *)

From S2P Require Import Prelude GoStd Values Model Diagnostics Errors Events State QueuePolicy.
From S2P Require Import QueueStart QueueOps Evidence Command Json JournalModel Execution World Worker WriteOnce.
From S2P Require Import Envelope Persist.

(** ** The plan's parts *)

Definition moreParts (r : execution) : bool :=
  match X_queueLoading r with Some q => QL_ConfirmedParts q <? len (X_parts r) | None => false end.

Definition next_part (r : execution) : option (nat * playbackPart) :=
  match X_queueLoading r with
  | Some q => let i := Z.to_nat (QL_ConfirmedParts q) in pair i <$> X_parts r !! i
  | None => None
  end.

Definition set_ordered (ordered : option (list ID)) (r : execution) : execution :=
  r <| X_ordered := ordered |> <| X_members := idMembership (default [] ordered) |>.

(** [ctx.Err()] of a context with this cause. *)
Definition ctx_err (cause : option error) : option error :=
  match cause with
  | None => None
  | Some (ESentinel DeadlineExceeded) => Some (ESentinel DeadlineExceeded)
  | Some _ => Some (ESentinel Canceled)
  end.

(** A member that a buffered part may hold. *)
Definition playable_track (source : ID) (track : Item) : bool :=
  ((Item_Source track == "") || (Item_Source track == source)) && (Item_Container track != "yes")
  && (Item_Playable track == "yes") && (Item_MediaID track != "")
  && ((Item_Type track == "song") || (Item_Type track == "track")).

Definition buffered_progress (q : QueueLoadingProgress) (b : bufferedPlayback) (resident position : Z)
    : bool * QueueLoadingProgress :=
  let remaining := resident - position - 1 in
  let current := BP_pruned b + position in
  let changed := (QL_BufferedTracks q != Some resident) || (QL_RemainingTracks q != Some remaining)
                 || (QL_CurrentIndex q != Some current) || (QL_PrunedTracks q != Some (BP_pruned b)) in
  let q := q <| QL_Mode := "buffered" |> <| QL_BufferedTracks := Some resident |>
             <| QL_RemainingTracks := Some remaining |> <| QL_CurrentIndex := Some current |>
             <| QL_PrunedTracks := Some (BP_pruned b) |> in
  (changed, if isZero (BP_expires b) then q else q <| QL_SessionExpiresAt := Some (BP_expires b) |>).

(** The section of [serviceBufferedSkip] that takes the pending child. *)
Definition take_skip (r : execution) : option (bufferedSkip * Z) * execution :=
  match X_bufferedSkip r with
  | Some child =>
      if negb (BS_ready child) || X_bufferedSkipsClosed r then (None, r)
      else let child := child <| BS_ready := false |> in
           (Some (child, X_confirmed r), r <| X_bufferedSkip := Some child |>)
  | None => (None, r)
  end.

Definition set_skip_op (child : bufferedSkip) (op : Operation) (r : execution) : execution :=
  match X_bufferedSkip r with
  | Some c => if BS_id c =? BS_id child then r <| X_bufferedSkip := Some (c <| BS_op := op |>) |> else r
  | None => r
  end.

(** Errors of a maintenance step after which the timeline is recomputed. *)
Definition timeline_changed {A} (out : Result A) : bool :=
  match out with Err e => errors_is errPlaybackTimelineChanged e | Ok _ => false end.

Section Playback.
Context {E : Type} (env : Environment E) (p : PlayerConfig).
Context (json_size : json -> Z) (time_text : Time -> string).
Local Abbreviation W := (Worker E).
Local Abbreviation write := (WriteOnce.write env p json_size time_text).
Local Abbreviation transition := (Worker.transition env json_size time_text).

(** ** Queue loading *)

Definition updateBufferedProgress : W bool :=
  let! buffered := own X_buffered in
  match buffered with
  | None => ret false
  | Some b =>
      let! s := locked env X_expected in
      let! ordered := own X_ordered in
      let! position := of_result (bufferedPosition s (default [] ordered)) in
      let! loading := own X_queueLoading in
      match loading with
      | None => fail panic
      | Some q =>
          let '(changed, q) := buffered_progress q b (len (Queue_Items (Snap_Queue s))) position in
          set_own (fun r => r <| X_queueLoading := Some q |>) ;;; ret changed
      end
  end.

(** A buffered session starts its clock with the first confirmed part. *)
Definition start_session (b : bufferedPlayback) : W unit :=
  if isZero (BP_expires b) then
    set_own (fun r =>
      let expires := X_playbackStarted r + Buf_MaxSessionSeconds (BP_policy b) * Second in
      r <| X_buffered := Some (b <| BP_expires := expires |>) |>
        <| X_playbackDeadline := expires |> <| X_appendUntil := expires |>)
  else ret tt.

Definition confirmPart : W unit :=
  let! r := own (fun r => r) in
  match X_queueLoading r with
  | None => ret tt
  | Some q =>
      match next_part r with
      | None => fail panic
      | Some (_, part) =>
          let q := q <| QL_ConfirmedTracks := QL_ConfirmedTracks q + len (part_ids part) |>
                     <| QL_ConfirmedParts := QL_ConfirmedParts q + 1 |> in
          set_own (fun r => r <| X_queueLoading := Some q |>) ;;;
          update_locked env (fun r => r <| X_loading := moreParts r |>) ;;;
          (match X_buffered r with
           | Some b => start_session b ;;; let! _ := updateBufferedProgress in ret tt
           | None => ret tt
           end) ;;;
          transition (running "queue_loading")
      end
  end.

Definition append_mutation (item : Item) : Mutation :=
  Mutation_zero <| Mut_Kind := MutationKindQueue |> <| Mut_Item := item |> <| Mut_Append := true |>.

(** A send that fails leaves the target queue as it was. *)
Definition with_target (fuel : nat) (ordered : option (list ID)) (m : Mutation) : W unit :=
  let! previous := own X_ordered in
  set_own (set_ordered ordered) ;;;
  let! out := attempt (write fuel m) in
  match out with
  | Err e => set_own (set_ordered previous) ;;; fail e
  | Ok _ => ret tt
  end.

Definition appendNext (fuel : nat) : W unit :=
  let! r := own (fun r => r) in
  match next_part r with
  | None => fail panic
  | Some (_, part) =>
      with_target fuel (Some (default [] (X_ordered r) ++ part_ids part)) (append_mutation (Part_Item part)) ;;;
      confirmPart
  end.

(** [prepareBufferedPart] of the part at index [i] of the plan. *)
Definition prepareBufferedPart (i : nat) (part : playbackPart) : W unit :=
  let! view := client_view env in
  if negb (View_Connected view) || negb (sameCatalog (Part_CatalogToken part) (View_Token view))
  then fail (ESentinel ErrStaleReference)
  else if is_some (Part_IDs part) then let! cause := ctx_cause env [] in when_error cause
  else
    let! ctx := with_timeout env [] (5 * Second) in
    let! tracks := if Item_Container (Part_Item part) == "yes"
                   then browse_all env (Item_Source (Part_Item part)) (Item_ContainerID (Part_Item part))
                   else ret [Part_Item part] in
    if (len tracks != Part_Count part) || negb (forallb (playable_track (Item_Source (Part_Item part))) tracks)
    then fail (ESentinel ErrBounds)
    else
      let! view := client_view env in
      let! cause := ctx_cause env ctx in
      when_error (ctx_err cause) ;;;
      if negb (View_Connected view) || negb (sameCatalog (Part_CatalogToken part) (View_Token view))
      then fail (ESentinel ErrStaleReference)
      else set_own (fun r => r <| X_parts := <[i := part <| Part_IDs := Some (map Item_MediaID tracks) |>]> (X_parts r) |>).

Definition remove_mutation (ids : list ID) : Mutation :=
  Mutation_zero <| Mut_Kind := MutationKindRemove |> <| Mut_QueueIDs := ids |>.

Definition pruneBuffered (fuel : nat) (n : Z) (before : QueuePage) : W unit :=
  let ids := map Media_QueueID (take (Z.to_nat n) (Queue_Items before)) in
  let! previous := own X_ordered in
  with_target fuel (Some (drop (Z.to_nat n) (default [] previous))) (remove_mutation ids) ;;;
  set_own (fun r => r <| X_buffered := (fun b : bufferedPlayback => b <| BP_pruned := BP_pruned b + n |>) <$> X_buffered r |>) ;;;
  let! _ := updateBufferedProgress in
  transition (running "queue_loading").

(** One maintenance step sends at most one command. *)
Definition bufferedStep (fuel : nat) : W bool :=
  let! r := own (fun r => r) in
  match next_part r, X_buffered r with
  | Some (i, part), Some b =>
      let! t := now env in
      if negb (t <? BP_expires b) then fail (ESentinel errBufferedSessionExpired)
      else
        let! t := now env in
        if negb (isZero (X_appendUntil r)) && negb (t <? X_appendUntil r) then ret false
        else
          let! s := locked env X_expected in
          let! position := of_result (bufferedPosition s (default [] (X_ordered r))) in
          let resident := len (Queue_Items (Snap_Queue s)) in
          if negb (refill_due (BP_policy b) resident position) then ret false
          else
            prepareBufferedPart i part ;;;
            match refill_action (BP_policy b) resident position (Part_Count part) with
            | refillNoRoom => fail (ESentinel errBufferedCapacity)
            | refillPrune n => pruneBuffered fuel n (Snap_Queue s) ;;; ret true
            | refillAppend => appendNext fuel ;;; ret true
            end
  | Some _, None => fail panic
  | None, _ => ret false
  end.

(** ** Child Skips *)

Definition skip_mutation (direction : string) : Mutation :=
  Mutation_zero <| Mut_Kind := MutationKindSkip |> <| Mut_Direction := direction |>.

(** The child's own row takes the [sending_skip] phase before the send. *)
Definition announce_skip (child : bufferedSkip) : W bufferedSkip :=
  let! out := as_run execution_zero (BS_op child)
                (let! sent := attempt (transition (running "sending_skip")) in
                 let! op := get_op in ret (sent, op)) in
  let '(sent, op) := (out : Result unit * Operation) in
  update_locked env (set_skip_op child op) ;;;
  let! _ := of_result sent in
  ret (child <| BS_op := op |>).

Definition serviceBufferedSkip (fuel : nat) : W bool :=
  let! taken := critical env take_skip in
  match taken with
  | None => ret false
  | Some (child, confirmed) =>
      let! out := attempt (
        let! cause := ctx_cause env [] in
        when_error cause ;;;
        checkJournal env ;;; announce_skip child) in
      let child := match out with Ok child => child | Err _ => child end in
      let! out := match out with
                  | Ok _ => attempt (write fuel (skip_mutation (BS_direction child)))
                  | Err e => ret (Err e)
                  end in
      let! counted := locked env (fun r => (X_confirmed r - confirmed, X_uncertain r || X_unconfirmed r)) in
      let '(count, uncertain) := counted in
      let! stopped := stopping env in
      let err := match out with Ok _ => None | Err e => Some e end in
      let result := skip_result err stopped count uncertain in
      finishBufferedSkip env json_size time_text fuel child
        (skip_update json_size (CO_State result) (CO_Code result) (CO_Outcome result) count) ;;;
      match err with
      | None => ret true
      | Some e => if errors_is ErrNotSkippable e || errors_is errPlaybackTimelineChanged e then ret true else fail e
      end
  end.

(** ** Ownership checks *)

Definition ownership_error (reason : string) : error :=
  EOwnership {| Own_reason := reason; Own_evidence := Diagnostics_zero |}.

Definition checkOwnership (fuel : nat) : W unit :=
  let! fresh := reconcileOwned env [] in
  let! before := locked env X_expected in
  let! awaited := awaitOwnedPlayback env p fuel before fresh in
  let fresh := (awaited : Snapshot * bool).1 in
  match deviceSafety p fresh with
  | Some e => fail (if errors_is ErrGrouped e then ownership_error "grouped_target" else e)
  | None =>
      let! changes := critical env (adopt before fresh) in
      if len changes != 0 then fail (ownershipMismatch "active_state_changed" changes before fresh)
      else let! cause := ctx_cause env [] in when_error cause
  end.

(** The journal is checked once a second, whatever the device's cadence. *)
Definition journal_check (t nextJournal : Time) : W Time :=
  if t <? nextJournal then ret nextJournal
  else checkJournal env ;;; let! t := now env in ret (t + Second).

(** The part of a loop's turn that keeps a settled buffered queue filled;
    [true] when the turn is over. *)
Definition maintain (fuel : nat) (phase : string) : W bool :=
  let! pending := locked env observationPending in
  if (pending : bool) then ret false
  else
    let! changed := updateBufferedProgress in
    (if (changed : bool) then transition (running phase) else ret tt) ;;;
    let! out := attempt (bufferedStep fuel) in
    match out with
    | Ok acted => ret acted
    | Err e => if errors_is errPlaybackTimelineChanged e then ret true else fail e
    end.

(** [A || B] and [A && B] evaluate [B] only when they need it. *)
Definition or_else (a b : W bool) : W bool := let! x := a in if (x : bool) then ret true else b.
Definition and_then (a b : W bool) : W bool := let! x := a in if (x : bool) then b else ret false.
Definition since (field : execution -> Time) (span : Duration) : W bool :=
  let! t := now env in let! last := own field in ret (span <=? t - last).
Definition newer_snapshot : W bool :=
  let! s := snapshot env in let! at_ := own X_observedAt in ret (at_ <? Snap_ObservedAt s).

(** Whether a settled queue must be observed again. *)
Definition check_due (pending : bool) : W bool :=
  and_then (if pending then since X_lastReadAttempt observationEventSpacing else ret true)
    (if pending then ret true else or_else (since X_lastRead activeObservationInterval) newer_snapshot).

(** ** Loading without an envelope *)

Fixpoint loadBuffered (fuel : nat) (nextJournal : Time) : W unit :=
  match fuel with
  | O => fail out_of_fuel
  | S fuel =>
      let! more := own moreParts in
      if negb more then ret tt
      else
        let! cause := ctx_cause env [] in
        when_error cause ;;;
        let! t := now env in
        let! buffered := own X_buffered in
        match buffered with
        | None => fail panic
        | Some b =>
            if negb (t <? BP_expires b) then fail (ESentinel errBufferedSessionExpired)
            else
              let! nextJournal := journal_check t nextJournal in
              let! handled := serviceBufferedSkip fuel in
              if (handled : bool) then loadBuffered fuel nextJournal
              else
                let! pending := locked env observationPending in
                let! due := check_due pending in
                (if (due : bool) then checkOwnership fuel else ret tt) ;;;
                let! acted := maintain fuel "playing" in
                if (acted : bool) then loadBuffered fuel nextJournal
                else
                  let! pending := locked env observationPending in
                  let! attempted := own X_lastReadAttempt in
                  let next := minTime nextJournal (BP_expires b) in
                  let next := if pending then minTime next (attempted + observationEventSpacing) else next in
                  let! t := now env in
                  let! err := wait env (Z.max 0 (next - t)) true in
                  when_error err ;;; loadBuffered fuel nextJournal
        end
  end.

Fixpoint load_parts (fuel : nat) : W unit :=
  match fuel with
  | O => fail out_of_fuel
  | S fuel =>
      let! more := own moreParts in
      if (more : bool) then checkJournal env ;;; appendNext fuel ;;; load_parts fuel else ret tt
  end.

Definition loadRemaining (fuel : nat) : W unit :=
  let! buffered := own X_buffered in
  if is_some buffered then let! t := now env in loadBuffered fuel t else load_parts fuel.

(** ** The start of a playback *)

Definition volume_mutation (level : Z) : Mutation :=
  Mutation_zero <| Mut_Kind := MutationKindVolume |> <| Mut_Level := level |>.
Definition transport_mutation (s : PlayState) : Mutation :=
  Mutation_zero <| Mut_Kind := MutationKindTransport |> <| Mut_State := s |>.

Definition start_steps (cmd : Command) (item : Item) : list Mutation := [
  volume_mutation (Cmd_Level cmd);
  Mutation_zero <| Mut_Kind := MutationKindMode |> <| Mut_Repeat := Cmd_Repeat cmd |>
    <| Mut_Shuffle := Cmd_Shuffle cmd |>;
  Mutation_zero <| Mut_Kind := MutationKindMute |> <| Mut_Muted := false |>;
  Mutation_zero <| Mut_Kind := MutationKindQueue |> <| Mut_Item := item |>].

Fixpoint write_steps (fuel : nat) (steps : list Mutation) : W unit :=
  match steps with
  | [] => ret tt
  | m :: rest => write fuel m ;;; write_steps fuel rest
  end.

Definition startPlayback (fuel : nat) (cmd : Command) (item : Item) : W unit :=
  let! playing := locked env (fun r => Snap_State (X_expected r) == PlayStatePlay) in
  (if (playing : bool) then write fuel (transport_mutation PlayStateStop) else ret tt) ;;;
  write_steps fuel (start_steps cmd item) ;;;
  let! t := now env in
  set_own (fun r => r <| X_playbackStarted := t |>) ;;;
  confirmPart.
End Playback.
