(* ===== verification/Automate.v ===== *)
(** * Envelopes and whole operations ([internal/control/automation.go],
    [execution.go])

    The loop that follows an automation envelope, the fade of a Stop, and
    [execute]: the command, its terminal result, and the persistence of it. *)

From S2P Require Import Prelude GoStd Values Model Diagnostics Errors Events State QueuePolicy.
From S2P Require Import QueueStart QueueOps Evidence Command Json JournalModel Execution World Worker WriteOnce.
From S2P Require Import Envelope Persist Playback.

(** The local variables of the envelope's loop, between turns. *)
Record envelopeState := { EV_Last : Z; EV_From : Z; EV_Phase : string; EV_Journal : Time }.

Section Automate.
Context {E : Type} (env : Environment E) (p : PlayerConfig).
Context (json_size : json -> Z) (time_text : Time -> string).
Local Abbreviation W := (Worker E).
Local Abbreviation write := (WriteOnce.write env p json_size time_text).
Local Abbreviation transition := (Worker.transition env json_size time_text).

(** ** The envelope's loop *)

Definition set_progress (f : PlaybackProgress -> PlaybackProgress) : W unit :=
  set_own (fun r => r <| X_progress := f <$> X_progress r |>).

Definition observation_due : W bool :=
  or_else (since env X_lastRead activeObservationInterval)
    (and_then (locked env observationPending) (since env X_lastRead observationEventSpacing)).

Definition phase_update (phase next : string) : W unit :=
  if next == phase then ret tt else transition (running next).

(** The level write of a turn; [true] when the timeline changed meanwhile. *)
Definition level_update (fuel : nat) (level last : Z) (phase : string) : W bool :=
  if level =? last then ret false
  else
    let! out := attempt (write fuel (volume_mutation level)) in
    match out with
    | Err e => if errors_is errPlaybackTimelineChanged e then ret true else fail e
    | Ok _ =>
        set_progress (fun q => q <| PP_Level := level |>) ;;; transition (running phase) ;;; ret false
    end.

(** The buffered maintenance of a turn; [true] when the turn is over. *)
Definition buffered_turn (fuel : nat) (phase : string) : W bool :=
  let! buffered := own X_buffered in
  if is_some buffered then
    let! handled := serviceBufferedSkip env p json_size time_text fuel in
    if (handled : bool) then ret true else maintain env p json_size time_text fuel phase
  else
    let! more := own moreParts in
    let! until := own X_appendUntil in
    if (more : bool) then
      let! t := now env in
      if t <? until then
        let! out := attempt (appendNext env p json_size time_text fuel) in
        match out with
        | Err e => if errors_is errPlaybackTimelineChanged e then ret true else fail e
        | Ok _ => ret true
        end
      else ret false
    else ret false.

(** The end of the envelope: a Stop, and nothing left to load. *)
Definition finish_envelope (fuel : nat) : W unit :=
  write fuel (transport_mutation PlayStateStop) ;;;
  let! r := own (fun r => r) in
  if moreParts r && negb (is_some (X_buffered r)) then fail (ESentinel errQueueLoadingIncomplete) else ret tt.

(** One turn: [None] when the envelope has ended. *)
Definition envelope_turn (fuel : nat) (a : Automation) (began : Time) (initial : Z) (v : envelopeState)
    : W (option envelopeState) :=
  let duration := Auto_DurationSeconds a * Second in
  let! cause := ctx_cause env [] in
  when_error cause ;;;
  let! t := now env in
  let! nextJournal := journal_check env t (EV_Journal v) in
  let! t := now env in
  let elapsed := Z.max 0 (t - began) in
  set_progress (fun q => q <| PP_ElapsedSeconds := Z.quot (Z.min elapsed duration) Second |>) ;;;
  let s := envelope a initial (EV_Last v) (EV_From v) elapsed in
  let next (last : Z) (phase : string) : W (option envelopeState) :=
    ret (Some {| EV_Last := last; EV_From := ES_FadeFrom s; EV_Phase := phase; EV_Journal := nextJournal |}) in
  let quiet := (ES_Level s =? EV_Last v) && (elapsed <? duration) in
  let! due := observation_due in
  if quiet && due then checkOwnership env p fuel ;;; next (EV_Last v) (EV_Phase v)
  else
    phase_update (EV_Phase v) (ES_Phase s) ;;;
    let! changed := level_update fuel (ES_Level s) (EV_Last v) (ES_Phase s) in
    if (changed : bool) then next (EV_Last v) (ES_Phase s)
    else if duration <=? elapsed then finish_envelope fuel ;;; ret None
    else
      let! over := buffered_turn fuel (ES_Phase s) in
      if (over : bool) then next (ES_Level s) ""
      else
        let! err := wait env (Z.min (250 * Millisecond) (duration - elapsed)) true in
        when_error err ;;; next (ES_Level s) (ES_Phase s).

Fixpoint automate_loop (fuel : nat) (a : Automation) (began : Time) (initial : Z) (v : envelopeState) : W unit :=
  match fuel with
  | O => fail out_of_fuel
  | S fuel =>
      let! turn := envelope_turn fuel a began initial v in
      match turn with
      | None => ret tt
      | Some v => automate_loop fuel a began initial v
      end
  end.

Definition automate (fuel : nat) (a : Automation) : W unit :=
  let! began := own X_playbackStarted in
  let! volume := critical env (fun r => (Snap_Volume (X_expected r), r <| X_automating := true |>)) in
  match volume with
  | None => fail panic
  | Some initial =>
      let duration := Auto_DurationSeconds a * Second in
      let fade := Auto_FadeSeconds a * Second in
      set_own (fun r => r <| X_playbackDeadline := began + duration |> <| X_appendUntil := began + (duration - fade) |>
        <| X_progress := Some {| PP_PlaybackStartedAt := began; PP_StopAt := began + duration;
                                 PP_ElapsedSeconds := 0; PP_Level := initial |} |>) ;;;
      let! out := attempt (automate_loop fuel a began initial
        {| EV_Last := initial; EV_From := -1; EV_Phase := ""; EV_Journal := began |}) in
      update_locked env (fun r => r <| X_automating := false |>) ;;;
      of_result out
  end.

(** ** The fade of a Stop *)

Fixpoint fade_loop (fuel : nat) (start fadeSeconds : Z) (began : Time) (last : Z) : W unit :=
  match fuel with
  | O => fail out_of_fuel
  | S fuel =>
      if fadeSeconds <=? 0 then ret tt
      else
        let! t := now env in
        let elapsed := t - began in
        let level := fade_level start fadeSeconds elapsed in
        (if level <? last then write fuel (volume_mutation level) else ret tt) ;;;
        let last := Z.min level last in
        if fadeSeconds * Second <=? elapsed then ret tt
        else
          let! err := wait env (100 * Millisecond) false in
          when_error err ;;; fade_loop fuel start fadeSeconds began last
  end.

Definition stop_fading (fuel : nat) (cmd : Command) : W unit :=
  let! volume := locked env (fun r => Snap_Volume (X_expected r)) in
  match volume with
  | None => fail panic
  | Some start =>
      let! began := now env in
      fade_loop fuel start (Cmd_FadeSeconds cmd) began start ;;;
      write fuel (transport_mutation PlayStateStop)
  end.

(** ** One operation *)

Definition run_command (fuel : nat) (cmd : Command) (item : Item) : W unit :=
  match Cmd_Kind cmd with
  | CommandKindVolume => write fuel (volume_mutation (Cmd_Level cmd))
  | CommandKindMute =>
      write fuel (Mutation_zero <| Mut_Kind := MutationKindMute |> <| Mut_Muted := Cmd_Muted cmd |>)
  | CommandKindTransport => write fuel (transport_mutation (Cmd_State cmd))
  | CommandKindSkip => write fuel (skip_mutation (Cmd_Direction cmd))
  | CommandKindPlayback =>
      startPlayback env p json_size time_text fuel cmd item ;;;
      match Cmd_Automation cmd with
      | Some a => automate fuel a
      | None => loadRemaining env p json_size time_text fuel
      end
  | CommandKindStop => stop_fading fuel cmd
  | CommandKindCancel => if Cmd_Mode cmd == "release" then ret tt else stop_fading fuel cmd
  | CommandKindAbsent => fail (ESentinel ErrBounds)
  end.

(** The lifetime of a run. *)
Definition budget (r : execution) (cmd : Command) : Duration :=
  let base := (Cmd_FadeSeconds cmd + 30) * Second in
  match Cmd_Automation cmd, X_buffered r with
  | Some a, _ => base + Auto_DurationSeconds a * Second
  | None, Some b => base + Buf_MaxSessionSeconds (BP_policy b) * Second + playbackConfirmationTimeout
  | None, None => base + len (X_parts r) * playbackConfirmationTimeout
  end.

Definition is_superseded (cause : option error) : bool := has_cause errSuperseded cause.

(** What [execute] reads to complete an operation that ended with [err]. *)
Definition completion_facts (err : option error) : W completionFacts :=
  let! first := stopping env in
  let! cause := ctx_cause env [] in
  let! uncertain := locked env (fun r => X_uncertain r || X_unconfirmed r) in
  let! later := stopping env in
  ret {| CF_Err := err; CF_Stopping := first; CF_Stopped := later; CF_Cause := cause; CF_Uncertain := uncertain |}.

Definition completion_diagnostics (err : option error) (code : string) : W Diagnostics :=
  let! cause := ctx_cause env [] in
  let! unconfirmed := locked env X_unconfirmed in
  let! op := get_op in
  let! t := now env in
  ret (completionDiagnostics cause err code unconfirmed (Op_Phase op) t).

Definition final_update (c : completion) (mayContinue : bool) (confirmed : Z) (d : Diagnostics) : Update := {|
  Upd_State := CO_State c; Upd_Phase := "complete"; Upd_Progress := None;
  Upd_Outcome := Some (annotateOutcome json_size time_text
                         (marshal json_size (outcome_json (CO_Outcome c) mayContinue (Some confirmed))) d);
  Upd_ErrorCode := CO_Code c |}.

(** The result of a cancellation for its target. *)
Definition target_update (c : completion) (mayContinue : bool) : Update := {|
  Upd_State := if CO_State c == Succeeded then Cancelled else CO_State c; Upd_Phase := "cancelled";
  Upd_Progress := None;
  Upd_Outcome := Some (marshal json_size (outcome_json (CO_Outcome c) mayContinue None));
  Upd_ErrorCode := CO_Code c |}.

Definition abandon (cmd : Command) : W unit :=
  if Cmd_Kind cmd == CommandKindCancel then finishOrphan env (Cmd_Target cmd) else ret tt.

(** Only the journal's reconciliation is pending here: nothing is replayed. *)
Fixpoint persist_final (fuel : nat) (cmd : Command) (final : Update) : W unit :=
  match fuel with
  | O => fail out_of_fuel
  | S fuel =>
      let! cause := ctx_cause env [] in
      if is_superseded cause then abandon cmd
      else
        let! out := attempt (transition final) in
        match out with
        | Ok _ => ret tt
        | Err e =>
            let! stop := retry_over env e in
            if (stop : bool) then ret tt else persist_final fuel cmd final
        end
  end.

Definition conclude (fuel : nat) (cmd : Command) (err : option error) : W unit :=
  let! facts := completion_facts err in
  let c := complete facts in
  let! held := locked env (fun r =>
    ((Snap_State (X_expected r) != PlayStateStop) || (CO_State c != Succeeded), X_confirmed r)) in
  let '(mayContinue, confirmed) := held in
  let! d := completion_diagnostics err (CO_Code c) in
  let! rejected := own X_rejectedWrite in
  (if (rejected : bool) then let! _ := read env ReadRefresh in ret tt else ret tt) ;;;
  (if Cmd_Kind cmd == CommandKindCancel
   then persistByID env json_size time_text fuel (Cmd_Target cmd) (target_update c mayContinue) else ret tt) ;;;
  persist_final fuel cmd (final_update c mayContinue confirmed d).

Definition execute_body (fuel : nat) (cmd : Command) (item : Item) : W unit :=
  let! r := own (fun r => r) in
  let! t := now env in
  let! _ := ask (env_budget env (t + Z.max 0 (budget r cmd))) in
  let! out := attempt (run_command fuel cmd item) in
  let! cause := ctx_cause env [] in
  if is_superseded cause then abandon cmd
  else conclude fuel cmd (match out with Ok _ => None | Err e => Some e end).

(** The deferred section closes the door to child Skips on every way out. *)
Definition execute (fuel : nat) (cmd : Command) (item : Item) : W unit :=
  let! out := attempt (execute_body fuel cmd item) in
  closeBufferedSkips env json_size time_text fuel ;;; of_result out.
End Automate.
