(* ===== verification/Bench.v ===== *)
(** * A small bench

    A device that applies controls at once, with a clock that advances at each
    reading and a journal that accepts every transition: the concrete
    environment on which the examples run the worker. *)

From S2P Require Import Prelude GoStd Values Model Diagnostics Errors Events State QueuePolicy.
From S2P Require Import QueueStart QueueOps Evidence Command Execution ExecutionSafety Json JournalModel.
From S2P Require Import World Worker WriteOnce.

Record bench := {
  B_clock : Time;
  B_device : Snapshot;
  B_lost : list nat
}.
#[export] Instance bench_eta : Eta bench := fun b =>
  {| B_clock := B_clock b; B_device := B_device b; B_lost := B_lost b |}.

Definition bench_tick (b : bench) : Time * bench := (B_clock b, b <| B_clock := B_clock b + Millisecond |>).

(** The device's own answer; the token counts its writes. *)
Definition bench_apply (m : Mutation) (s : Snapshot) : Snapshot :=
  let token := (Snap_Token s) <| Token_Player := Token_Player (Snap_Token s) + 1 |> in
  (match Mut_Kind m with
   | MutationKindVolume => s <| Snap_Volume := Some (Mut_Level m) |>
   | MutationKindMute => s <| Snap_Muted := Some (Mut_Muted m) |>
   | MutationKindMode => s <| Snap_Repeat := Mut_Repeat m |> <| Snap_Shuffle := Mut_Shuffle m |>
   | MutationKindTransport => s <| Snap_State := Mut_State m |>
   | _ => s
   end) <| Snap_Token := token |>.

(** The head of [B_lost] counts the reads before the next stale guard. *)
Definition bench_write (m : Mutation) (g : Guard) (b : bench) : Result Token * bench :=
  match B_lost b with
  | O :: rest => (Err (ECommand NotSent (ESentinel ErrStale)), b <| B_lost := rest |>)
  | S n :: rest => (Err (ECommand Errors.Uncertain (ESentinel ErrProtocol)), b <| B_lost := n :: rest |>)
  | [] => let s := bench_apply m (B_device b) in (Ok (Snap_Token s), b <| B_device := s |>)
  end.

Definition bench_operation : Operation := {|
  Op_ID := "op"; Op_Kind := "transport"; Op_Player := "kitchen"; Op_DeviceKey := "serial"; Op_Principal := "p";
  Op_Epoch := "e"; Op_State := Running; Op_Revision := 1; Op_Phase := "accepted"; Op_ConfigRevision := "c";
  Op_EffectiveArguments := JNull; Op_SelectedAlbum := None; Op_Progress := empty_object; Op_Outcome := empty_object;
  Op_ErrorCode := ""; Op_ScheduledFor := 0; Op_NotAfter := 0; Op_CreatedAt := 0; Op_UpdatedAt := 0;
  Op_StartedAt := None; Op_FinishedAt := None |}.

Definition bench_env : Environment bench := {|
  env_now := bench_tick;
  env_wall := bench_tick;
  env_interfere := fun r b => (r, b);
  env_fired := fun d b => (d <=? B_clock b, b);
  env_wait := fun d _ b => (None, b <| B_clock := B_clock b + d |>);
  env_snapshot := fun b => (B_device b, b);
  env_view := fun _ b => ({| View_Token := Snap_Token (B_device b); View_Connected := true |}, b);
  env_read := fun _ b => (None, b <| B_device := (B_device b) <| Snap_ObservedAt := B_clock b |> |>);
  env_page := fun _ _ _ b => (Err (ESentinel ErrProtocol), b);
  env_write := bench_write;
  env_ready := fun b => (None, b);
  env_transition := fun _ revision u b =>
    (Ok (bench_operation <| Op_State := Upd_State u |> <| Op_Phase := Upd_Phase u |> <| Op_Revision := revision + 1 |>), b);
  env_get := fun _ b => (Err (ESentinel ErrProtocol), b);
  env_browse := fun _ _ b => (Err (ESentinel ErrProtocol), b);
  env_client := fun b => ({| View_Token := Snap_Token (B_device b); View_Connected := true |}, b);
  env_stopping := fun b => (false, b);
  env_closing := fun b => (false, b);
  env_spawn := fun _ b => (tt, b);
  env_budget := fun _ b => (tt, b)
|}.

Definition bench_world (lost : list nat) : world bench := {|
  W_run := sample_execution <| X_expected := sample_snapshot PlayStatePlay sample_first |>;
  W_op := bench_operation;
  W_env := {| B_clock := 101 * Second; B_device := sample_snapshot PlayStatePlay sample_first; B_lost := lost |};
  W_trace := [] |}.

Definition bench_stop : Mutation := Mutation_zero <| Mut_Kind := MutationKindTransport |> <| Mut_State := PlayStateStop |>.
Definition bench_run (lost : list nat) : Result unit * world bench :=
  write bench_env sample_config (fun _ => 0) itoa 20 bench_stop (bench_world lost).
