(* ===== verification/WriteSafety.v ===== *)
(** * What the worker sends

    A program logic for the calls a worker makes: [spec m Q] says that [m], in
    any world and under any interference, appends to the trace calls [t] and
    ends in a state of the execution such that [Q before outcome t after].
    [calm R] programs do not write to the device and change the execution only
    as [R] allows. *)

From S2P Require Import Prelude GoStd Values Model Diagnostics Errors Events State QueuePolicy.
From S2P Require Import QueueStart QueueOps Evidence Command Execution ExecutionSafety Json JournalModel.
From S2P Require Import World Worker WriteOnce.

(** ** Specifications of worker programs *)

Section Spec.
Context {E : Type}.
Local Abbreviation W := (Worker E).

Definition spec {A} (m : W A) (Q : execution -> Result A -> list io -> execution -> Prop) : Prop :=
  forall w, exists t, W_trace (m w).2 = W_trace w ++ t /\ Q (W_run w) (m w).1 t (W_run (m w).2).

Lemma spec_weaken {A} (m : W A) (Q R : execution -> Result A -> list io -> execution -> Prop) :
  spec m Q -> (forall r out t r', Q r out t r' -> R r out t r') -> spec m R.
Proof. intros Hm HQ w. destruct (Hm w) as (t & Ht & Hq). exists t. auto. Qed.

Lemma spec_ret {A} (a : A) (Q : execution -> Result A -> list io -> execution -> Prop) :
  (forall r, Q r (Ok a) [] r) -> spec (ret a) Q.
Proof. intros HQ w. exists []. by rewrite app_nil_r. Qed.

Lemma spec_fail {A} (e : error) (Q : execution -> Result A -> list io -> execution -> Prop) :
  (forall r, Q r (Err e) [] r) -> spec (fail e) Q.
Proof. intros HQ w. exists []. by rewrite app_nil_r. Qed.

(** The continuation is specified relative to what the first part did. *)
Lemma spec_bind {A B} (m : W A) (k : A -> W B) Q (R : execution -> Result B -> list io -> execution -> Prop) :
  spec m Q ->
  (forall a, spec (k a) (fun r1 out t1 r2 => forall r t, Q r (Ok a) t r1 -> R r out (t ++ t1) r2)) ->
  (forall r e t r', Q r (Err e) t r' -> R r (Err e) t r') ->
  spec (bind m k) R.
Proof.
  intros Hm Hk He w. unfold bind. destruct (Hm w) as (t & Ht & HQ).
  destruct (m w) as [[a|e] w1]; cbn in *.
  - destruct (Hk a w1) as (t1 & Ht1 & HR). exists (t ++ t1). rewrite Ht1, Ht, app_assoc. split; [done|]. by apply HR.
  - exists t. split; [done|]. by apply He.
Qed.

Lemma spec_attempt {A} (m : W A) Q (R : execution -> Result (Result A) -> list io -> execution -> Prop) :
  spec m Q -> (forall r out t r', Q r out t r' -> R r (Ok out) t r') -> spec (attempt m) R.
Proof.
  intros Hm HR w. unfold attempt. destruct (Hm w) as (t & Ht & HQ).
  destruct (m w) as [out w1]. exists t. cbn in *. auto.
Qed.
End Spec.

(** ** What the other goroutines may do *)

(** What the journal says of a command rests on these fields. *)
Definition flags (r : execution) : bool * bool * Z := (X_uncertain r, X_unconfirmed r, X_confirmed r).

(** [frame] adds the volume that the run expects: only the worker moves it. *)
Definition frame (r : execution) : bool * bool * Z * option Z := (flags r, Snap_Volume (X_expected r)).
Lemma frame_flags (r r' : execution) : frame r' = frame r -> flags r' = flags r.
Proof. intros H. exact (f_equal fst H). Qed.

(** A relation that the interference keeps, and so does every section that
    leaves [frame] alone or reports doubt; [Settles] also a section that
    replaces the expected state. *)
Class Framed (R : execution -> execution -> Prop) : Prop := {
  rely_trans : forall r1 r2 r3, R r1 r2 -> R r2 r3 -> R r1 r3;
  rely_frame : forall r r', frame r' = frame r -> R r r';
  rely_doubt : forall r, R r (r <| X_uncertain := true |>)
}.
Class Settles (R : execution -> execution -> Prop) : Prop :=
  rely_settle : forall r s, R r (r <| X_expected := s |>).
Class Rely {E} (env : Environment E) (R : execution -> execution -> Prop) : Prop :=
  rely_env : forall r e, R r (env_interfere env r e).1.

Definition anything (r r' : execution) : Prop := True.
#[export] Instance anything_framed : Framed anything.
Proof. by split. Qed.
#[export] Instance anything_settles : Settles anything.
Proof. done. Qed.
#[export] Instance anything_rely {E} (env : Environment E) : Rely env anything.
Proof. done. Qed.

(** No command is forgotten: uncertainty stays, and the count of confirmed
    commands and the open acknowledgement are the worker's alone. *)
Definition honest (r r' : execution) : Prop :=
  (X_uncertain r = true -> X_uncertain r' = true) /\ X_unconfirmed r' = X_unconfirmed r
  /\ X_confirmed r' = X_confirmed r.

(** The sections that other goroutines run: event callbacks and cancellation. *)
Inductive other_step : execution -> execution -> Prop :=
  | other_event r e now at_ : other_step r (event r e now at_)
  | other_cancel r cause : other_step r (cancel_cause cause r).
Definition other_run : execution -> execution -> Prop := rtc other_step.
Definition fair_interference {E} (env : Environment E) : Prop :=
  forall r e, other_run r (env_interfere env r e).1.

Lemma acceptScalar_flags (r : execution) (e : Event) : frame (acceptScalarEvent r e).2 = frame r.
Proof.
  unfold acceptScalarEvent, acceptVolume, acceptRepeat, acceptShuffle, scalar_step. cbn. cases_in_goal.
Qed.
Lemma acceptExpected_flags (r : execution) (e : Event) : frame (acceptExpectedEvent r e).2 = frame r.
Proof.
  unfold acceptExpectedEvent. cbn. case_if; [done|]. case_if; [apply acceptScalar_flags|].
  destruct (match_index _ _ _) as [i|]; [|done]. case_if; [done|].
  unfold consume_expectation, set_expectations, notifyObservation, signal. cbn. cases_in_goal.
Qed.
Lemma attribute_flags (r : execution) (e : Event) (now : Time) : frame (attribute r e now).2 = frame r.
Proof.
  unfold attribute. case_if; [|done]. pose proof (acceptExpected_flags r e) as H.
  destruct (acceptExpectedEvent r e) as [[] r1]; [done|].
  rewrite <-H. unfold acceptQueueEvent. cbn -[decideQueueEvent]. cases_in_goal.
Qed.
Lemma cancel_flags (cause : error) (r : execution) : frame (cancel_cause cause r) = frame r.
Proof. unfold cancel_cause. by case_match. Qed.

Lemma honest_frame (r r' : execution) : frame r' = frame r -> honest r r'.
Proof. unfold frame, flags, honest. intros [= -> -> -> _]. done. Qed.
Lemma honest_trans (r1 r2 r3 : execution) : honest r1 r2 -> honest r2 r3 -> honest r1 r3.
Proof. unfold honest. intros (? & -> & ->) (? & -> & ->). auto. Qed.

Lemma event_honest (r : execution) (e : Event) (now at_ : Time) : honest r (event r e now at_).
Proof.
  rewrite event_unfold. case_if; [by apply honest_frame|].
  pose proof (honest_frame _ _ (attribute_flags r e now)) as Ha. cbv zeta.
  destruct (attribute r e now).1; (eapply honest_trans; [exact Ha|]).
  - by apply honest_frame.
  - eapply honest_trans; [|apply honest_frame, cancel_flags]. by case_match.
Qed.

#[export] Instance honest_framed : Framed honest.
Proof. split; [apply honest_trans|apply honest_frame|done]. Qed.
#[export] Instance honest_settles : Settles honest.
Proof. done. Qed.
Lemma honest_rely {E} (env : Environment E) : fair_interference env -> Rely env honest.
Proof.
  intros Henv r e. specialize (Henv r e). induction Henv as [|r1 r2 r3 [r e' now at_|r cause] _ IH].
  - by apply honest_frame.
  - eapply honest_trans; [apply event_honest|exact IH].
  - eapply honest_trans; [apply honest_frame, cancel_flags|exact IH].
Qed.

#[export] Hint Resolve anything_framed anything_settles anything_rely honest_framed honest_settles : heos.

(** ** Programs that do not write to the device *)

Definition not_write (x : io) : Prop := match x with IoWrite _ _ _ => False | _ => True end.

Section Calm.
Context {E : Type} (R : execution -> execution -> Prop) `{HF : !Framed R}.
#[local] Set Default Proof Using "HF".
Local Abbreviation W := (Worker E).

Definition calm {A} (m : W A) : Prop := spec m (fun r _ t r' => Forall not_write t /\ R r r').

Lemma calm_refl (r : execution) : R r r.
Proof using HF. by apply rely_frame. Qed.
Hint Resolve calm_refl : core.

Lemma calm_ret {A} (a : A) : calm (ret a).
Proof. apply spec_ret. auto. Qed.
Lemma calm_fail {A} (e : error) : calm (fail (A := A) e).
Proof. apply spec_fail. auto. Qed.
Lemma calm_bind {A B} (m : W A) (k : A -> W B) : calm m -> (forall a, calm (k a)) -> calm (bind m k).
Proof.
  intros Hm Hk. eapply spec_bind; [exact Hm| |done].
  intros a. eapply spec_weaken; [apply Hk|]. cbn. intros r1 _ t1 r2 (H1 & H2) r t (H3 & H4).
  split; [by apply Forall_app|]. by eapply rely_trans.
Qed.
Lemma calm_attempt {A} (m : W A) : calm m -> calm (attempt m).
Proof. intros Hm. by eapply spec_attempt. Qed.
Lemma calm_when_error (o : option error) : calm (when_error o).
Proof. destruct o; [apply calm_fail|apply calm_ret]. Qed.
Lemma calm_of_result {A} (r : Result A) : calm (of_result r).
Proof. destruct r; [apply calm_ret|apply calm_fail]. Qed.
Lemma calm_silent {A} (m : W A) :
  (forall w, W_trace (m w).2 = W_trace w /\ R (W_run w) (W_run (m w).2)) -> calm m.
Proof. intros Hm w. exists []. rewrite app_nil_r. destruct (Hm w). auto. Qed.
Lemma calm_ask {A} (f : E -> A * E) : calm (ask f).
Proof. apply calm_silent. intros w. unfold ask. by destruct (f (W_env w)). Qed.
Lemma calm_record (x : io) : not_write x -> calm (record x : W unit).
Proof. intros Hx w. exists [x]. split; [done|]. auto. Qed.
Lemma calm_own {A} (f : execution -> A) : calm (own f).
Proof. by apply calm_silent. Qed.
Lemma calm_set_own (f : execution -> execution) : (forall r, frame (f r) = frame r) -> calm (set_own f).
Proof. intros Hf. apply calm_silent. intros w. split; [done|]. apply rely_frame, Hf. Qed.
Lemma calm_get_op : calm get_op.
Proof. by apply calm_silent. Qed.
Lemma calm_set_op (o : Operation) : calm (set_op o).
Proof. by apply calm_silent. Qed.

Context (env : Environment E) `{HR : !Rely env R}.
#[local] Set Default Proof Using "HF HR".

Lemma calm_section {A} (f : execution -> A * execution) :
  (forall r, R r (f r).2) -> calm (critical env f).
Proof.
  intros Hf. apply calm_silent. intros w. unfold critical.
  pose proof (rely_env (env := env) (R := R) (W_run w) (W_env w)) as H.
  destruct (env_interfere env (W_run w) (W_env w)) as [r e]. cbn in H.
  specialize (Hf r). destruct (f r) as [a r']. split; [done|]. cbn in *. by eapply rely_trans.
Qed.
Lemma calm_critical {A} (f : execution -> A * execution) :
  (forall r, frame (f r).2 = frame r) -> calm (critical env f).
Proof. intros Hf. apply calm_section. intros r. apply rely_frame, Hf. Qed.
Lemma calm_mark_uncertain : calm (mark_uncertain env).
Proof. apply calm_section. intros r. apply rely_doubt. Qed.
Lemma calm_locked {A} (f : execution -> A) : calm (locked env f).
Proof. by apply calm_critical. Qed.
Lemma calm_update_locked (f : execution -> execution) :
  (forall r, frame (f r) = frame r) -> calm (update_locked env f).
Proof. intros Hf. by apply calm_critical. Qed.
End Calm.

#[export] Hint Resolve calm_ret calm_fail calm_attempt calm_when_error calm_of_result calm_ask
  calm_own calm_get_op calm_set_op calm_locked calm_mark_uncertain : heos.

(** Splits a program at its binds and its case distinctions. *)
Ltac calm_step :=
  match goal with
  | |- calm _ (bind _ _) => apply calm_bind; [exact _| |intros ?]
  | |- calm _ (record _) => apply calm_record; [exact _|exact I]
  | |- calm _ (match ?x with _ => _ end) => destruct x
  | |- calm _ (if ?x then _ else _) => destruct x
  | |- calm _ (let '(_, _) := ?x in _) => destruct x
  | |- calm _ (attempt _) => apply calm_attempt; [exact _|]
  | |- calm _ (set_own _) => apply calm_set_own; [exact _|by intros ?]
  | |- calm _ (update_locked _ _) => apply calm_update_locked; [exact _|exact _|by intros ?]
  | |- calm _ (critical _ (adopt _ _)) => solve [eauto 2 with heos]
  | |- calm _ (critical _ _) => apply calm_critical; [exact _|exact _|intros ?; first [solve [eauto with heos]|cbn; repeat case_match; done]]
  | |- calm _ _ => solve [eauto 2 with heos]
  end.
Ltac calm_solve := cbv zeta; repeat (calm_step; cbv zeta).

(** The read-back sections decide and note events; they count nothing. *)
Lemma observeQueueState_flags (r : execution) (s : PlayState) : frame (observeQueueState r s) = frame r.
Proof. unfold observeQueueState, set_expectations. by case_match. Qed.
Lemma cover_flags (r : execution) (before after : Snapshot) : frame (cover_events r before after) = frame r.
Proof. unfold cover_events. by case_match. Qed.
Lemma append_flags (p : PlayerConfig) (r : execution) cause before after now :
  frame (appendObservation p r cause before after now).2 = frame r.
Proof.
  unfold appendObservation, delete_expectations. cbn. pose proof (cover_flags r before after).
  repeat case_match; done.
Qed.
Lemma remove_flags (p : PlayerConfig) (r : execution) cause before after n now :
  frame (removeObservation p r cause before after n now).2 = frame r.
Proof.
  unfold removeObservation, delete_expectations. cbn. pose proof (cover_flags r before after).
  repeat case_match; done.
Qed.
Lemma skip_flags (r : execution) cause before after : frame (acceptSkipReadback r cause before after).2 = frame r.
Proof.
  unfold acceptSkipReadback. cbn. pose proof (cover_flags r before after).
  repeat case_match; done.
Qed.
Lemma start_flags (p : PlayerConfig) (r : execution) cause before after deadline now at_ :
  frame (queueStartObservation p r cause before after deadline now at_).2 = frame r.
Proof. unfold queueStartObservation. cbn. by rewrite cover_flags, observeQueueState_flags. Qed.
Lemma decision_flags (p : PlayerConfig) (r : execution) expired before fresh now at_ :
  frame (queueObservationDecision p r expired before fresh now at_).2 = frame r.
Proof. done. Qed.
Lemma fallback_flags (m : Mutation) (s : Snapshot) (r : execution) : frame (scalar_fallback m s r).2 = frame r.
Proof. unfold scalar_fallback. cbn. repeat case_match; done. Qed.
#[export] Hint Resolve append_flags remove_flags skip_flags start_flags decision_flags fallback_flags : heos.

Section CalmWorker.
Context {E : Type} (env : Environment E) (R : execution -> execution -> Prop) `{HF : !Framed R} `{HR : !Rely env R}.
#[local] Set Default Proof Using "HF HR".
Context (p : PlayerConfig).
Context (json_size : json -> Z) (time_text : Time -> string).

Lemma calm_now : calm R (now env).
Proof. by apply calm_ask. Qed.
Hint Resolve calm_now : heos.

Lemma calm_ctx_cause (ctx : context) : calm R (ctx_cause env ctx).
Proof. induction ctx as [|[d e] parent IH]; cbn [ctx_cause]; [eauto 2 with heos|]. calm_solve. Qed.
Hint Resolve calm_ctx_cause : heos.

Lemma calm_with_timeout (ctx : context) (d : Duration) : calm R (with_timeout env ctx d).
Proof. unfold with_timeout. calm_solve. Qed.
Lemma calm_snapshot : calm R (snapshot env).
Proof. by apply calm_ask. Qed.
Lemma calm_player_view (pid : ID) : calm R (player_view env pid).
Proof. by apply calm_ask. Qed.
Lemma calm_read (c : read_call) : calm R (read env c).
Proof. unfold read. calm_solve. Qed.
Lemma calm_queue_page (pid : ID) (start limit : Z) : calm R (queue_page env pid start limit).
Proof. unfold queue_page. calm_solve. Qed.
Lemma calm_journal_ready : calm R (journal_ready env).
Proof. unfold journal_ready. calm_solve. Qed.
Lemma calm_browse_all (source container : ID) : calm R (browse_all env source container).
Proof. unfold browse_all. calm_solve. Qed.
Lemma calm_client_view : calm R (client_view env).
Proof. by apply calm_ask. Qed.
Lemma calm_stopping : calm R (stopping env).
Proof. by apply calm_ask. Qed.
Lemma calm_spawn (work : journal_work) : calm R (spawn env work).
Proof. unfold spawn. calm_solve. Qed.
Lemma calm_wait (d : Duration) (wake : bool) : calm R (wait env d wake).
Proof. unfold wait. calm_solve. Qed.
Hint Resolve calm_with_timeout calm_snapshot calm_player_view calm_read calm_queue_page
  calm_journal_ready calm_wait calm_browse_all calm_client_view calm_stopping calm_spawn : heos.

Lemma calm_transition (u : Update) : calm R (transition env json_size time_text u).
Proof. unfold transition. calm_solve. Qed.
Lemma calm_checkJournal : calm R (checkJournal env).
Proof. unfold checkJournal. calm_solve. Qed.

Lemma calm_complete_pages (fuel : nat) (s : Snapshot) : forall q, calm R (complete_pages env fuel s q).
Proof. induction fuel as [|fuel IH]; intros q; cbn [complete_pages]; calm_solve; apply IH. Qed.
Hint Resolve calm_transition calm_checkJournal calm_complete_pages : heos.

Lemma calm_completeQueue (s : Snapshot) : calm R (completeQueue env s).
Proof. unfold completeQueue. calm_solve. Qed.
Hint Resolve calm_completeQueue : heos.

Lemma calm_observe_once ctx b : calm R (observe_once env ctx b).
Proof. unfold observe_once. calm_solve. Qed.
Hint Resolve calm_observe_once : heos.
Lemma calm_observe_tries (n : nat) ctx b : forall last, calm R (observe_tries env n ctx b last).
Proof. induction n as [|n IH]; intros last; cbn [observe_tries]; calm_solve; apply IH. Qed.
Hint Resolve calm_observe_tries : heos.
Lemma calm_observe ctx b : calm R (observe env ctx b).
Proof. unfold observe. calm_solve. Qed.
Hint Resolve calm_observe : heos.
Lemma calm_observeRun ctx reuse : calm R (observeRun env ctx reuse).
Proof. unfold observeRun. calm_solve. Qed.
Hint Resolve calm_observeRun : heos.

Lemma calm_reconcileOwnedOnce ctx : calm R (reconcileOwnedOnce env ctx).
Proof. unfold reconcileOwnedOnce. calm_solve. Qed.
Hint Resolve calm_reconcileOwnedOnce : heos.
Lemma calm_reconcile_tries (n : nat) ctx : forall last, calm R (reconcile_tries env n ctx last).
Proof. induction n as [|n IH]; intros last; cbn [reconcile_tries]; calm_solve; apply IH. Qed.
Hint Resolve calm_reconcile_tries : heos.
Lemma calm_reconcileOwned ctx : calm R (reconcileOwned env ctx).
Proof. unfold reconcileOwned. calm_solve. Qed.
Hint Resolve calm_reconcileOwned : heos.
Lemma calm_prewriteObservation (m : Mutation) : calm R (prewriteObservation env m).
Proof. unfold prewriteObservation. calm_solve. Qed.

Lemma calm_wait_until (fuel : nat) (next : Time) : calm R (wait_until env fuel next).
Proof. induction fuel as [|fuel IH]; cbn [wait_until]; calm_solve. Qed.
Hint Resolve calm_prewriteObservation calm_wait_until : heos.
Lemma calm_waitForObservation fuel ctx deadline : calm R (waitForObservation env fuel ctx deadline).
Proof. unfold waitForObservation. calm_solve. Qed.
Lemma calm_queue_decision expired before fresh : calm R (queue_decision env p expired before fresh).
Proof. unfold queue_decision. calm_solve. Qed.
Hint Resolve calm_waitForObservation calm_queue_decision : heos.
Lemma calm_await_loop (fuel : nat) ctx deadline before : forall fresh waited d,
  calm R (await_loop env p fuel ctx deadline before fresh waited d).
Proof. induction fuel as [|fuel IH]; intros fresh waited d; cbn [await_loop]; calm_solve; apply IH. Qed.
Hint Resolve calm_await_loop : heos.
Lemma calm_awaitOwnedPlayback fuel before fresh : calm R (awaitOwnedPlayback env p fuel before fresh).
Proof. unfold awaitOwnedPlayback. calm_solve. Qed.

Lemma calm_scalar_wait (fuel : nat) ctx deadline fallbackAt : calm R (scalar_wait env fuel ctx deadline fallbackAt).
Proof. induction fuel as [|fuel IH]; cbn [scalar_wait]; calm_solve. Qed.
Hint Resolve calm_awaitOwnedPlayback calm_scalar_wait : heos.
Lemma calm_confirmScalar fuel m : calm R (confirmScalar env fuel m).
Proof. unfold confirmScalar. calm_solve. Qed.
Lemma calm_readback_decision ctx m before after deadline :
  calm R (readback_decision env p ctx m before after deadline).
Proof. unfold readback_decision. calm_solve. Qed.
Hint Resolve calm_confirmScalar calm_readback_decision : heos.
Lemma calm_readback_loop (fuel : nat) ctx m before deadline : forall reuse,
  calm R (readback_loop env p fuel ctx m before deadline reuse).
Proof. induction fuel as [|fuel IH]; intros reuse; cbn [readback_loop]; calm_solve; apply IH. Qed.
Hint Resolve calm_readback_loop : heos.
Lemma calm_confirmReadback fuel m before : calm R (confirmReadback env p fuel m before).
Proof. unfold confirmReadback. calm_solve. Qed.
Lemma calm_prepareSkip direction before fresh : calm R (prepareSkip env p direction before fresh).
Proof. unfold prepareSkip. calm_solve. Qed.
Hint Resolve calm_prepareSkip calm_confirmReadback : heos.

Context `{HS : !Settles R}.
#[local] Set Default Proof Using "HF HR HS".

Lemma calm_adopt before fresh : calm R (critical env (adopt before fresh)).
Proof.
  apply calm_section; [exact _..|]. intros r. unfold adopt. cbn. case_if; [apply rely_settle|].
  by apply rely_frame.
Qed.
Hint Resolve calm_adopt : heos.
Lemma calm_skip_refused before fresh e : calm R (skip_refused env before fresh e).
Proof. unfold skip_refused. calm_solve. Qed.
Hint Resolve calm_skip_refused : heos.
End CalmWorker.
#[export] Hint Resolve calm_prewriteObservation calm_awaitOwnedPlayback calm_ctx_cause calm_now calm_prepareSkip
  calm_adopt calm_skip_refused calm_confirmReadback : heos.
