(* ===== verification/WriteProps.v ===== *)
(** * Guarded sends, no replay, honest accounting

    What [writeOnce] and [write] promise in any environment: a command is sent
    only behind a durable announcement, under a short guard of a verified safe
    observation; it is repeated only when it is proven unsent; and no command
    that may have reached the device is forgotten. *)

From S2P Require Import Prelude GoStd Values Model Diagnostics Errors Events State QueuePolicy.
From S2P Require Import QueueStart QueueOps Evidence Command Execution ExecutionSafety Json JournalModel.
From S2P Require Import World Worker WriteOnce Bench WriteSafety.

(** ** Values that programs return *)

Section Returns.
Context {E : Type}.
Local Abbreviation W := (Worker E).

Definition returns {A} (P : A -> Prop) (m : W A) : Prop := forall w a, (m w).1 = Ok a -> P a.

Lemma returns_ret {A} (P : A -> Prop) (a : A) : P a -> returns P (ret a : W A).
Proof. by intros HP w a' [= <-]. Qed.
Lemma returns_fail {A} (P : A -> Prop) (e : error) : returns P (fail e : W A).
Proof. done. Qed.
Lemma returns_bind {A B} (P : B -> Prop) (m : W A) (k : A -> W B) :
  (forall a, returns P (k a)) -> returns P (bind m k).
Proof. intros Hk w b. unfold bind. destruct (m w) as [[a|e] w1]; [apply Hk|done]. Qed.
Lemma returns_bind_with {A B} (Q : A -> Prop) (P : B -> Prop) (m : W A) (k : A -> W B) :
  returns Q m -> (forall a, Q a -> returns P (k a)) -> returns P (bind m k).
Proof.
  intros Hm Hk w b. unfold bind. specialize (Hm w).
  destruct (m w) as [[a|e] w1]; [|done]. cbn in Hm. by apply Hk, Hm.
Qed.
Lemma returns_attempt {A} (P : A -> Prop) (m : W A) :
  returns P m -> returns (fun out => forall a, out = Ok a -> P a) (attempt m).
Proof. intros Hm w out. unfold attempt. specialize (Hm w). destruct (m w) as [o w1]. by intros [= <-]. Qed.
Lemma spec_returns {A} (m : W A) (P : A -> Prop) Q :
  spec m Q -> returns P m ->
  spec m (fun r out t r' => Q r out t r' /\ (forall a, out = Ok a -> P a)).
Proof. intros Hm HP w. destruct (Hm w) as (t & Ht & HQ). exists t. split_and!; [done..|apply HP]. Qed.
End Returns.

Ltac returns_step :=
  match goal with
  | |- returns _ (bind _ _) => apply returns_bind; intros ?
  | |- returns _ (match ?x with _ => _ end) => destruct x
  | |- returns _ (if ?x then _ else _) => destruct x
  | |- returns _ (fail _) => apply returns_fail
  | |- returns _ (ret _) => apply returns_ret
  end.
Ltac returns_solve := cbv zeta; repeat (returns_step; cbv zeta).

(** ** Calls before a send *)

(** The journal holds the update: by its reply, or by a read-back of it. *)
Definition durable (u : Update) (t : list io) : Prop :=
  (exists o, t = [IoTransition u (Ok o)])
  \/ (exists e o, t = [IoTransition u (Err e); IoGet (Ok o)] /\ matchesUpdate o u = true).

(** The trace ends with the durable announcement of a send of [m]. *)
Definition announced (m : Mutation) (t : list io) : Prop :=
  exists pre u last, t = pre ++ last /\ durable u last
    /\ Upd_State u = Running /\ Upd_Phase u = "sending_" +:+ MutationKind_string (Mut_Kind m).

Lemma announced_after (m : Mutation) (t t1 : list io) : announced m t1 -> announced m (t ++ t1).
Proof. intros (pre & u & last & -> & H). exists (t ++ pre), u, last. by rewrite app_assoc. Qed.

Lemma guard_duration_bounds (r : execution) (m : Mutation) (t t' : Time) (d : Duration) :
  guard_duration r m t t' = Ok d ->
  0 < d <= 5 * Second
  /\ ((Mut_Append m || (Mut_Kind m == MutationKindRemove)) = true -> X_appendUntil r <> 0 ->
      t + d <= X_appendUntil r)
  /\ (playback_command r m = true -> X_playbackDeadline r <> 0 -> t' + d <= X_playbackDeadline r).
Proof.
  unfold guard_duration. unfold Second.
  destruct (Mut_Append m || (Mut_Kind m == MutationKindRemove)) eqn:Ha,
    (isZero (X_appendUntil r)) eqn:Hz, (playback_command r m) eqn:Hp, (isZero (X_playbackDeadline r)) eqn:Hd;
    cbn [negb andb Result_bind]; repeat case_if; cbn; try done; intros [= <-]; breflect; lia.
Qed.

Section Observed.
Context {E : Type} (env : Environment E) (p : PlayerConfig).
Local Abbreviation W := (Worker E).

Lemma critical_trace {A} (f : execution -> A * execution) (w : world E) :
  W_trace (critical env f w).2 = W_trace w.
Proof. unfold critical. destruct (env_interfere env (W_run w) (W_env w)) as [r e]. by destruct (f r). Qed.

(** The observation of a guard differs from a checked one in its queue alone. *)
Definition same_but_queue (fresh s : Snapshot) : Prop := exists q, s = fresh <| Snap_Queue := q |>.

Lemma completeQueue_returns (s : Snapshot) : returns (same_but_queue s) (completeQueue env s : W Snapshot).
Proof.
  unfold completeQueue. returns_solve.
  - eexists. reflexivity.
  - exists (Snap_Queue s). by destruct s.
Qed.
Lemma prepareSkip_returns (direction : string) (before fresh : Snapshot) :
  returns (fun both => same_but_queue fresh both.2) (prepareSkip env p direction before fresh : W _).
Proof.
  unfold prepareSkip. eapply returns_bind_with; [apply completeQueue_returns|]. intros s Hs.
  by returns_solve.
Qed.

End Observed.

Section Prepare.
Context {E : Type} (env : Environment E) (p : PlayerConfig).
Context (json_size : json -> Z) (time_text : Time -> string).
Context (R : execution -> execution -> Prop) `{HF : !Framed R} `{HR : !Rely env R}.
#[local] Set Default Proof Using "HF HR".
Local Abbreviation W := (Worker E).

(** Calm, with a fact about the calls of a normal return. *)
Definition ready {A} (Q : A -> list io -> Prop) (m : W A) : Prop :=
  spec m (fun r out t r' => (Forall not_write t /\ R r r') /\ (forall a, out = Ok a -> Q a t)).

Lemma ready_calm {A} (m : W A) (P : A -> Prop) :
  calm R m -> returns P m -> ready (fun a _ => P a) m.
Proof. intros Hm HP. eapply spec_weaken; [exact (spec_returns _ _ _ Hm HP)|]. cbn. tauto. Qed.

Lemma ready_bind {A B} (P : A -> list io -> Prop) (Q : B -> list io -> Prop) (m : W A) (k : A -> W B) :
  ready P m -> (forall a t, P a t -> ready (fun b t1 => Q b (t ++ t1)) (k a)) -> ready Q (bind m k).
Proof.
  intros Hm Hk w. unfold bind. destruct (Hm w) as (t & Ht & (HQ & HR1) & HP).
  destruct (m w) as [[a|e] w1]; cbn in *.
  - destruct (Hk a t (HP a eq_refl) w1) as (t1 & Ht1 & (HQ1 & HR2) & HP1).
    exists (t ++ t1). rewrite Ht1, Ht, app_assoc. split_and!; [done|by apply Forall_app|by eapply rely_trans|done].
  - exists t. split_and!; by auto.
Qed.

(** A calm step before a program whose last calls matter. *)
Lemma ready_after {A B} (Q : B -> list io -> Prop) (m : W A) (k : A -> W B) :
  (forall b t t1, Q b t1 -> Q b (t ++ t1)) -> calm R m -> (forall a, ready Q (k a)) -> ready Q (bind m k).
Proof.
  intros HQ Hm Hk. apply (ready_bind (fun _ _ => True)).
  { apply ready_calm; [done|]. by intros w a _. }
  intros a t _. eapply spec_weaken; [apply Hk|]. cbn. intros r out t1 r' (H & H1). split; [done|]. auto.
Qed.

Lemma ready_after_with {A B} (P : A -> Prop) (Q : B -> list io -> Prop) (m : W A) (k : A -> W B) :
  (forall b t t1, Q b t1 -> Q b (t ++ t1)) -> calm R m -> returns P m ->
  (forall a, P a -> ready Q (k a)) -> ready Q (bind m k).
Proof.
  intros HQ Hm HP Hk. apply (ready_bind (fun a _ => P a)); [by apply ready_calm|].
  intros a t Ha. eapply spec_weaken; [by apply Hk|]. cbn. intros r out t1 r' (H & H1). split; [done|]. auto.
Qed.

Ltac ready_walk :=
  match goal with Hpre : forall _ _ _, _ -> _ |- _ => apply ready_after; [exact Hpre|solve [calm_solve]|] end.
Lemma ready_fail {A} (Q : A -> list io -> Prop) (e : error) : ready Q (fail e).
Proof. apply spec_fail. intros r. split; [|done]. split; [done|by apply rely_frame]. Qed.
Lemma ready_ret {A} (Q : A -> list io -> Prop) (a : A) : Q a [] -> ready Q (ret a).
Proof. intros HQ. apply spec_ret. intros r. split; [split; [done|by apply rely_frame]|]. by intros a' [= <-]. Qed.
Lemma ready_when_error {A} (Q : A -> list io -> Prop) (o : option error) (k : W A) :
  (o = None -> ready Q k) -> ready Q (when_error o ;;; k).
Proof. intros Hk. destruct o as [e|]; [apply (ready_fail Q e)|by apply Hk]. Qed.
Lemma ready_of_result {A B} (Q : B -> list io -> Prop) (res : Result A) (k : A -> W B) :
  (forall a, res = Ok a -> ready Q (k a)) -> ready Q (bind (of_result res) k).
Proof. intros Hk. destruct res as [a|e]; [by apply Hk|apply (ready_fail Q e)]. Qed.

Lemma ready_silent {A} (m : W A) :
  calm R m -> (forall w, W_trace (m w).2 = W_trace w) -> ready (fun _ t => t = []) m.
Proof.
  intros Hm Hs w. destruct (Hm w) as (t & Ht & H). exists t. split_and!; [done|apply H..|].
  intros _ _. rewrite Hs in Ht. rewrite <-(app_nil_r (W_trace w)) in Ht at 1. by apply app_inv_head in Ht.
Qed.
Lemma ready_record (x : io) : not_write x -> ready (fun _ t => t = [x]) (record x : W unit).
Proof. intros Hx w. exists [x]. split_and!; [done| |by apply rely_frame|done]. by constructor. Qed.
Lemma ready_ask {A} (f : E -> A * E) : ready (fun _ t => t = []) (ask f).
Proof. apply ready_silent; [by apply calm_ask|]. intros w. unfold ask. by destruct (f (W_env w)). Qed.
(** What a transition leaves in the trace. *)
Lemma resolve_ready (u : Update) (e : error) (id : string) (revision : Z) :
  ready (fun out t => forall o, out = Ok o -> exists o', t = [IoGet (Ok o')] /\ matchesUpdate o' u = true)
    (let! current := ask (env_get env id) in
     record (IoGet current) ;;;
     ret (match current with
          | Ok o => if (Op_Revision o =? revision) && matchesUpdate o u then Ok o else Err e
          | Err _ => Err e
          end : Result Operation) : W (Result Operation)).
Proof.
  apply (ready_bind (fun _ t => t = [])); [apply ready_ask|]. intros current _ ->.
  apply (ready_bind (fun _ t => t = [IoGet current])); [by apply ready_record|]. intros _ _ ->.
  apply ready_ret. intros o Ho. destruct current as [o'|]; [|done].
  case_if; [|done]. breflect. eauto.
Qed.

Lemma transition_ready (u : Update) :
  ready (fun _ t => exists u' pre last, t = pre ++ last /\ durable u' last
           /\ Upd_State u' = Upd_State u /\ Upd_Phase u' = Upd_Phase u)
    (transition env json_size time_text u).
Proof.
  unfold transition.
  assert (forall (b : unit) t t1,
    (exists u' pre last, t1 = pre ++ last /\ durable u' last /\ Upd_State u' = Upd_State u
      /\ Upd_Phase u' = Upd_Phase u) ->
    exists u' pre last, t ++ t1 = pre ++ last /\ durable u' last /\ Upd_State u' = Upd_State u
      /\ Upd_Phase u' = Upd_Phase u) as Hpre.
  { intros _ t t1 (u' & pre & last & -> & H). exists u', (t ++ pre), last. by rewrite app_assoc. }
  apply ready_after; [done|eauto with heos|]. intros progress.
  apply ready_after; [done|eauto with heos|]. intros loading. cbv zeta.
  match goal with |- context [env_transition env _ _ ?u'] =>
    assert (Upd_State u' = Upd_State u /\ Upd_Phase u' = Upd_Phase u) as Hu by (by case_match); revert Hu;
    generalize u' end.
  intros u' [Hs Hp].
  apply ready_after; [done|eauto with heos|]. intros op.
  apply ready_after; [done|eauto with heos|]. intros reply.
  apply (ready_bind (fun _ t => t = [IoTransition u' reply])); [apply ready_record; done|].
  intros _ _ ->.
  apply (ready_bind (fun out t => forall o, out = Ok o -> durable u' (IoTransition u' reply :: t))).
  { destruct reply as [o|e]; [apply ready_ret; intros o' [= <-]; left; eauto|].
    eapply spec_weaken; [apply (resolve_ready u' e)|]. cbn. intros r out t r' (H & H1). split; [done|].
    intros a Ha o Ho. destruct (H1 a Ha o Ho) as (o' & -> & Hm). right. eauto. }
  intros [o|e] t Hd; [|apply ready_fail].
  apply (ready_bind (fun _ t => t = [])); [apply ready_silent; [eauto with heos|done]|]. intros _ _ ->.
  eapply spec_weaken; [apply ready_silent; [apply calm_update_locked; done|apply critical_trace]|].
  cbn. intros r out t' r' (H & H1). split; [done|]. intros a Ha. rewrite (H1 a Ha).
  exists u', []. eexists. split_and!; [|by apply (Hd o)|done..]. by rewrite app_nil_r.
Qed.

Context `{HS : !Settles R}.
#[local] Set Default Proof Using "HF HR HS".

Lemma prepare_write_ready (fuel : nat) (m : Mutation) :
  ready (fun out t => deviceSafety p out.1 = None /\ 0 < out.2 <= 5 * Second /\ announced m t)
    (prepare_write env p json_size time_text fuel m).
Proof.
  assert (forall (b : Snapshot * Duration) t t1,
    deviceSafety p b.1 = None /\ 0 < b.2 <= 5 * Second /\ announced m t1 ->
    deviceSafety p b.1 = None /\ 0 < b.2 <= 5 * Second /\ announced m (t ++ t1)) as Hpre.
  { intros b t t1 (H1 & H2 & H3). split; [done|]. split; [done|]. by apply announced_after. }
  unfold prepare_write. cbv zeta.
  ready_walk. intros cause. ready_walk. intros _. ready_walk. intros fresh. ready_walk. intros before.
  ready_walk. intros [fresh0 waited]. case_if; [apply ready_fail|].
  ready_walk. intros window. ready_walk. intros t. case_if; [apply ready_fail|].
  ready_walk. intros r. ready_walk. intros t0. case_if; [apply ready_fail|].
  apply ready_when_error. intros Hs%mutationSafety_none.
  apply (ready_after_with (fun both => same_but_queue fresh0 both.2)); [exact Hpre|calm_solve| |].
  { case_if; [|apply returns_ret; exists (Snap_Queue fresh0); by destruct fresh0].
    eapply returns_bind_with; [apply returns_attempt, prepareSkip_returns|]. intros [both|e] Hb; [by apply returns_ret, Hb|].
    unfold skip_refused. returns_solve. }
  intros [before0 fresh1] [q Hq]. cbn in Hq.
  assert (deviceSafety p fresh1 = None) as Hs1 by (by rewrite Hq).
  ready_walk. intros r0. case_if; [apply ready_fail|].
  ready_walk. intros changes. case_if; [apply ready_fail|]. case_if; [apply ready_fail|].
  apply (ready_bind (fun out t => out = Ok tt -> announced m t)).
  { eapply spec_attempt; [apply transition_ready|]. cbn. intros r1 out t1 r1' (H & Ht). split; [done|].
    intros a [= <-] ->. destruct (Ht tt eq_refl) as (u & pre & last & -> & Hd & Hst & Hph). exists pre, u, last.
    done. }
  intros [[]|e] t1 Ht.
  - specialize (Ht eq_refl).
    apply (ready_bind (fun _ t => t = [])); [by apply ready_silent; [apply calm_own|]|]. intros r1 _ ->.
    apply (ready_bind (fun _ t => t = [])); [apply ready_ask|]. intros t2 _ ->.
    apply (ready_bind (fun _ t => t = [])); [apply ready_ask|]. intros t3 _ ->.
    apply ready_of_result. intros d [Hb _]%guard_duration_bounds.
    apply ready_ret. by rewrite !app_nil_r.
  - apply ready_bind with (P := fun _ _ => True); [|intros; apply ready_fail].
    eapply spec_weaken; [apply calm_section; [done..|]; intros; apply rely_doubt|]. done.
Qed.
End Prepare.

(** ** The send and what follows *)

Definition kept (r : execution) : bool * bool * Z * option Z * option error := (frame r, X_cancelled r).
Lemma expect_kept (m : Mutation) (r r' : execution) : expect m r = Some r' -> kept r' = kept r.
Proof.
  unfold expect. assert (forall n e r, kept (add_expectation n e r) = kept r) as Ha.
  { intros n e r0. unfold add_expectation. by case_match. }
  assert (forall s r, kept (expect_state s r) = kept r) as Hs by (intros; apply Ha).
  cbv zeta. set (r0 := (if scalarMutation m then _ else _)). assert (kept r0 = kept r) as <-.
  { subst r0. by case_match. }
  clearbody r0.
  assert (forall v b, kept (expect_volume m v b r0) = kept r0) as Hv.
  { intros v b. unfold expect_volume. case_if; by rewrite !Ha. }
  assert (kept (expect_queue m r0) = kept r0) as Hq.
  { unfold expect_queue. case_if; [by rewrite Ha|]. rewrite Hs. case_if; [rewrite Hs|]; by rewrite !Ha. }
  destruct (Mut_Kind m); repeat case_match; by intros [= <-].
Qed.
Lemma expect_flags (m : Mutation) (r r' : execution) : expect m r = Some r' -> frame r' = frame r.
Proof. intros H%expect_kept. exact (f_equal fst H). Qed.
Lemma begin_send_flags (m : Mutation) (r : execution) : frame (begin_send m r).2 = frame r.
Proof. unfold begin_send. destruct (expect m r) as [r'|] eqn:H; [|done]. by apply expect_flags in H. Qed.

Definition sent_command (m : Mutation) (fresh : Snapshot) : Mutation :=
  m <| Mut_Player := Player_ID (Snap_Player fresh) |>.
Definition wire_guard (fresh : Snapshot) (until : Time) : Guard :=
  {| Guard_Token := Snap_Token fresh; Guard_ExpiresAt := until |}.

Section Send.
Context {E : Type} (env : Environment E) (p : PlayerConfig).
Context (json_size : json -> Z) (time_text : Time -> string).
Context (R : execution -> execution -> Prop) `{HF : !Framed R} `{HR : !Rely env R}.
#[local] Set Default Proof Using "HF HR".
Local Abbreviation W := (Worker E).

Lemma spec_after {A B} (Q : execution -> Result B -> list io -> execution -> Prop) (m : W A) (k : A -> W B) :
  (forall r0 r out t0 t r', Forall not_write t0 -> R r0 r -> Q r out t r' -> Q r0 out (t0 ++ t) r') ->
  (forall r e t r', Forall not_write t -> R r r' -> Q r (Err e) t r') ->
  calm R m -> (forall a, spec (k a) Q) -> spec (bind m k) Q.
Proof.
  intros Hpre Herr Hm Hk. eapply spec_bind; [exact Hm| |].
  - intros a. eapply spec_weaken; [apply Hk|]. cbn. intros r1 out t1 r2 HQ r t [Ht HR']. by eapply Hpre.
  - cbn. intros r e t r' [Ht HR']. by apply Herr.
Qed.

(** Either the expectations cannot be registered, or one command is sent. *)
Lemma send_spec (m : Mutation) (fresh : Snapshot) (d : Duration) :
  spec (send env m fresh d) (fun r out t r' =>
    (t = [] /\ out = Err panic /\ R r r')
    \/ exists wall reply r1, R r r1 /\ r' = end_send reply r1 /\ out = Ok reply
         /\ t = [IoWall wall; IoWrite (sent_command m fresh) (wire_guard fresh (wall + d)) reply]).
Proof.
  unfold send. apply (spec_bind _ _ (fun r out t r' => t = [] /\ R r r' /\ (out = Ok (Ok tt) \/ out = Ok (Err panic)))).
  { intros w. exists []. rewrite app_nil_r, critical_trace. split_and!; [done|done| |].
    - destruct (calm_critical R env (begin_send m) (begin_send_flags m) w) as (t & _ & _ & H). exact H.
    - unfold critical. destruct (env_interfere env (W_run w) (W_env w)) as [r e]. cbn. unfold begin_send. destruct (expect m r); cbn; auto. }
  2: { intros r e t r' (_ & _ & [[=]|[=]]). }
  intros [[]|e] w.
  2: { exists []. cbn. rewrite app_nil_r. split; [done|]. intros r t (-> & HR1 & H). left. destruct H as [[=]|[= ->]]. done. }
  unfold bind, ret, now, device_write, ask, record, update_locked, critical, bind. cbn.
  destruct (env_now env (W_env w)) as [began e1]. cbn.
  destruct (env_wall env e1) as [wall e2]. cbn.
  match goal with |- context [env_write env ?m' ?g e2] => destruct (env_write env m' g e2) as [reply e3] end. cbn.
  pose proof (rely_env (env := env) (R := R) (W_run w) e3) as Hr.
  destruct (env_interfere env (W_run w) e3) as [r1 e4]. cbn in *.
  exists [IoWall wall; IoWrite (sent_command m fresh) (wire_guard fresh (wall + d)) reply].
  split; [by rewrite <-app_assoc|]. intros r t (-> & Hr1 & _). right. exists wall, reply, r1.
  split; [by eapply rely_trans|]. by split_and!.
Qed.

Lemma critical_spec {A} (f : execution -> A * execution) :
  spec (critical env f) (fun r out t r' =>
    t = [] /\ exists r1, R r r1 /\ out = Ok (f r1).1 /\ r' = (f r1).2).
Proof.
  intros w. exists []. rewrite app_nil_r, critical_trace. split; [done|]. split; [done|].
  unfold critical. pose proof (rely_env (env := env) (R := R) (W_run w) (W_env w)) as Hr.
  destruct (env_interfere env (W_run w) (W_env w)) as [r1 e1]. exists r1.
  cbn in Hr. by destruct (f r1).
Qed.

(** The confirmation either fails, or closes the command once, with the
    controls that the command was to leave. *)
Definition settled (m : Mutation) (fresh : Snapshot) (r : execution) (out : Result unit) (t : list io)
    (r' : execution) : Prop :=
  Forall not_write t
  /\ ((is_ok out = false /\ R r r')
      \/ exists after0 after r1 r2, R r r1
           /\ close_confirmation m (confirmed_controls m fresh after0) after r1 = Ok r2 /\ R r2 r').

Lemma settled_pre m fresh r0 r out t0 t r' :
  Forall not_write t0 -> R r0 r -> settled m fresh r out t r' -> settled m fresh r0 out (t0 ++ t) r'.
Proof.
  intros H0 HR0 (Ht & H). split; [by apply Forall_app|].
  destruct H as [[He H]|(after0 & after & r1 & r2 & H1 & H2)].
  - left. split; [done|]. by eapply rely_trans.
  - right. exists after0, after, r1, r2. split; [|done]. by eapply rely_trans.
Qed.
Lemma settled_err m fresh r e t r' : Forall not_write t -> R r r' -> settled m fresh r (Err e) t r'.
Proof. intros Ht H. split; [done|]. by left. Qed.

Lemma settled_after {A} c fresh (m : W A) (k : A -> W unit) :
  calm R m -> (forall a, spec (k a) (settled c fresh)) -> spec (bind m k) (settled c fresh).
Proof. apply spec_after; [apply settled_pre|apply settled_err]. Qed.

Lemma close_section (m : Mutation) (fresh after0 after : Snapshot) :
  spec (let! closed := critical env (fun r => match close_confirmation m (confirmed_controls m fresh after0) after r with
                                              | Ok r' => (Ok tt, r')
                                              | Err e => (Err e, r)
                                              end) in
        let! done := of_result closed in
        let! _ := ret (done : unit) in
        let! cause := ctx_cause env [] in when_error cause) (settled m fresh).
Proof.
  eapply spec_bind; [apply critical_spec| |by intros r e t r' (_ & r1 & _ & [=] & _)].
  intros closed w.
  assert (calm R (let! cause := ctx_cause env [] in when_error cause : W unit)) as Hk by calm_solve.
  destruct closed as [[]|e].
  - destruct (Hk w) as (t & Ht & Hw & Hr2). exists t. split; [exact Ht|].
    intros r t0 (-> & r1 & Hr & Hout & Hrun). split; [exact Hw|]. right.
    destruct (close_confirmation m (confirmed_controls m fresh after0) after r1) as [r2|e] eqn:Hc; [|done].
    exists after0, after, r1, r2. cbn in Hrun. by subst r2.
  - exists []. rewrite app_nil_r. split; [done|].
    intros r t0 (-> & r1 & Hr & Hout & Hrun). split; [done|]. left. split; [done|].
    destruct (close_confirmation m (confirmed_controls m fresh after0) after r1) as [r2|e'] eqn:Hc; [done|].
    cbn in *. unfold of_result, fail. cbn. by rewrite Hrun.
Qed.

Lemma settle_spec (fuel : nat) (m : Mutation) (fresh after : Snapshot) :
  spec (settle_write env p fuel m fresh after) (settled m fresh).
Proof.
  unfold settle_write. cbv zeta.
  apply settled_after; [calm_solve|]. intros r. apply settled_after; [calm_solve|]. intros _.
  apply settled_after; [calm_solve|]. intros after'. apply settled_after; [calm_solve|]. intros _.
  apply close_section.
Qed.

(** What one attempt did: nothing at the device, or one guarded command. *)
Definition no_send (r : execution) (out : Result unit) (t : list io) (r' : execution) : Prop :=
  Forall not_write t /\ R r r' /\ is_ok out = false.

Definition one_send (m : Mutation) (r : execution) (out : Result unit) (t : list io) (r' : execution) : Prop :=
  exists pre fresh wall d reply post r1,
    t = pre ++ [IoWall wall; IoWrite (sent_command m fresh) (wire_guard fresh (wall + d)) reply] ++ post
    /\ Forall not_write pre /\ Forall not_write post /\ announced m pre
    /\ deviceSafety p fresh = None /\ 0 < d <= 5 * Second /\ R r r1
    /\ match reply with
       | Err e => post = [] /\ out = Err e /\ r' = end_send reply r1
       | Ok _ => settled m fresh (end_send reply r1) out post r'
       end.

Lemma confirm_spec (fuel : nat) (m : Mutation) (fresh : Snapshot) :
  spec (let! confirmed := attempt (confirmReadback env p fuel m fresh) in
        match confirmed with
        | Err e => mark_uncertain env ;;; fail e
        | Ok after => settle_write env p fuel m fresh after
        end) (settled m fresh).
Proof.
  apply settled_after; [calm_solve|]. intros [after|e]; [apply settle_spec|].
  apply settled_after; [by apply calm_mark_uncertain|]. intros _.
  apply spec_fail. intros r. apply settled_err; [done|]. by apply rely_frame.
Qed.

Context `{HS : !Settles R}.
#[local] Set Default Proof Using "HF HR HS".

Lemma writeOnce_spec (fuel : nat) (m : Mutation) :
  spec (writeOnce env p json_size time_text fuel m)
    (fun r out t r' => no_send r out t r' \/ one_send m r out t r').
Proof.
  unfold writeOnce. eapply spec_bind; [by apply prepare_write_ready| |].
  2: { intros r e t r' ((Ht & Hr) & _). by left. }
  intros [fresh d]. eapply spec_bind; [apply send_spec| |].
  2: { intros r e t r' [(-> & [= ->] & Hr)|(wall & reply & r1 & _ & _ & [=] & _)].
       intros r0 t0 ((Ht & HR0) & _). left. rewrite app_nil_r.
       split_and!; [done| |done]. by eapply rely_trans. }
  intros reply. eapply spec_weaken.
  { instantiate (1 := fun r out t r' => match reply with
      | Err e => t = [] /\ out = Err e /\ r' = r
      | Ok _ => settled m fresh r out t r' end).
    destruct reply as [token|e]; [apply confirm_spec|by apply spec_fail]. }
  cbn. intros r1 out t1 r' Hpost r2 t2 [(_ & [=] & _)|(wall & reply' & r3 & Hr3 & -> & [= <-] & ->)].
  intros r0 t0 ((Ht0 & Hr0) & Hok). destruct (Hok _ eq_refl) as (Hs & Hd & Ha). cbn in Hs, Hd.
  right. exists t0, fresh, wall, d, reply, t1, r3.
  split; [by rewrite <-?app_assoc|]. split; [done|]. split; [destruct reply; [apply Hpost|by destruct Hpost as [-> _]]|].
  split; [done|]. split; [done|]. split; [done|]. split; [by eapply rely_trans|].
  destruct reply; [done|]. destruct Hpost as (-> & -> & ->). done.
Qed.
End Send.

(** ** Sends of a whole command *)

(** Every command in the trace is one that [P] allows, under a guard of a
    verified safe observation, at most five seconds after the clock was read
    for it, right after the journal's announcement. *)
Definition guarded_by (p : PlayerConfig) (P : Mutation -> Prop) (t : list io) : Prop :=
  forall pre m' g reply post, t = pre ++ IoWrite m' g reply :: post ->
  exists m pre0 wall fresh d,
    P m /\ pre = pre0 ++ [IoWall wall] /\ m' = sent_command m fresh /\ g = wire_guard fresh (wall + d)
    /\ deviceSafety p fresh = None /\ 0 < d <= 5 * Second /\ announced m pre0.
Definition guarded_sends (p : PlayerConfig) (m : Mutation) : list io -> Prop := guarded_by p (eq m).

Lemma guarded_none p P t : Forall not_write t -> guarded_by p P t.
Proof.
  intros Ht pre m' g reply post ->. apply Forall_app in Ht as [_ Ht].
  by apply Forall_cons in Ht as [[] _].
Qed.

Lemma guarded_app p P t1 t2 : guarded_by p P t1 -> guarded_by p P t2 -> guarded_by p P (t1 ++ t2).
Proof.
  intros H1 H2 pre m' g reply post Heq.
  apply app_eq_inv in Heq as [(k & -> & Hk)|(k & -> & ->)].
  - destruct k as [|x k]; cbn in Hk.
    + destruct (H2 [] m' g reply post (eq_sym Hk)) as (? & [|? ?] & ? & ? & ? & _ & Hn & _); done.
    + injection Hk as <- ->. by eapply H1.
  - destruct (H2 k m' g reply post eq_refl) as (m & pre0 & wall & fresh & d & HP & -> & Hm & Hg & Hs & Hd & Ha).
    exists m, (t1 ++ pre0), wall, fresh, d. rewrite app_assoc. split_and!; try done; [apply Hd..|].
    by apply announced_after.
Qed.

Lemma guarded_weaken p (P P' : Mutation -> Prop) t : (forall m, P m -> P' m) -> guarded_by p P t -> guarded_by p P' t.
Proof.
  intros HP Ht pre m' g reply post Heq. destruct (Ht _ _ _ _ _ Heq) as (m & pre0 & wall & fresh & d & Hm & H).
  exists m, pre0, wall, fresh, d. split; [by apply HP|done].
Qed.

(** A reply after which the device may have applied the command. *)
Definition may_have_applied (reply : Result Token) : bool :=
  match reply with
  | Ok _ => true
  | Err e => match as_command e with None => true | Some d => d == Errors.Uncertain end
  end.

(** Since [r], nothing that may have reached the device was dropped. *)
Definition in_doubt (r r' : execution) : Prop :=
  X_uncertain r' = true \/ X_unconfirmed r' = true \/ X_confirmed r < X_confirmed r'.
Definition keeps_doubt (r r' : execution) : Prop :=
  (X_uncertain r = true -> X_uncertain r' = true)
  /\ (X_unconfirmed r = true -> in_doubt r r') /\ X_confirmed r <= X_confirmed r'.

Definition accounts (r : execution) (out : Result unit) (t : list io) (r' : execution) : Prop :=
  keeps_doubt r r'
  /\ (forall m g reply, IoWrite m g reply ∈ t -> may_have_applied reply = true -> in_doubt r r')
  /\ (is_ok out = true -> X_unconfirmed r' = false /\ X_confirmed r < X_confirmed r').

Lemma honest_keeps (r r' : execution) : honest r r' -> keeps_doubt r r'.
Proof. intros (Hu & Hn & Hc). split; [done|]. split; [|lia]. intros H. right. left. congruence. Qed.
Lemma keeps_trans (r1 r2 r3 : execution) : keeps_doubt r1 r2 -> keeps_doubt r2 r3 -> keeps_doubt r1 r3.
Proof.
  intros (H1 & H2 & H3) (H4 & H5 & H6). split; [auto|]. split; [|lia].
  intros [Hu|[Hu|Hu]]%H2; unfold in_doubt; [by left; auto| |right; right; lia].
  destruct (H5 Hu) as [?|[?|?]]; [by left|by right; left|right; right; lia].
Qed.
Lemma doubt_keeps (r1 r2 r3 : execution) :
  keeps_doubt r1 r2 -> in_doubt r1 r2 -> keeps_doubt r2 r3 -> in_doubt r1 r3.
Proof.
  intros (_ & _ & Hle) [H|[H|H]] (H4 & H5 & H6); unfold in_doubt; [by left; auto| |right; right; lia].
  destruct (H5 H) as [?|[?|?]]; [by left|by right; left|right; right; lia].
Qed.
Lemma doubt_from (r1 r2 r3 : execution) : keeps_doubt r1 r2 -> in_doubt r2 r3 -> in_doubt r1 r3.
Proof. intros (_ & _ & H) [?|[?|?]]; [by left|by right; left|right; right; lia]. Qed.
Lemma no_write_in t m g reply : Forall not_write t -> IoWrite m g reply ∉ t.
Proof. intros Ht Hin. rewrite Forall_forall in Ht. by apply Ht in Hin. Qed.

Lemma end_send_flags (reply : Result Token) (r : execution) :
  flags (end_send reply r) =
    (X_uncertain r || (negb (is_ok reply) && may_have_applied reply), is_ok reply || X_unconfirmed r, X_confirmed r).
Proof.
  unfold end_send, may_have_applied, flags. destruct reply as [token|e]; cbn.
  - rewrite orb_false_r. by case_if.
  - destruct (as_command e) as [d|]; cbn; [|by rewrite orb_true_r].
    destruct (d == Errors.Uncertain); cbn; by rewrite ?orb_true_r, ?orb_false_r.
Qed.

Lemma end_send_doubt (reply : Result Token) (r : execution) :
  keeps_doubt r (end_send reply r) /\ (may_have_applied reply = true -> in_doubt r (end_send reply r)).
Proof.
  pose proof (end_send_flags reply r) as [= Hu Hn Hc].
  unfold keeps_doubt, in_doubt. rewrite Hu, Hn, Hc. split_and!; [by intros ->| |lia|].
  - intros ->. rewrite orb_true_r. auto.
  - intros ->. destruct reply; cbn; rewrite ?orb_true_r; auto.
Qed.

Lemma close_flags (m : Mutation) (expected after : Snapshot) (r r' : execution) :
  close_confirmation m expected after r = Ok r' -> flags r' = (X_uncertain r, false, X_confirmed r + 1).
Proof. unfold close_confirmation. case_if; [done|]. intros [= <-]. cbn. by repeat case_match. Qed.

Lemma settled_accounts m fresh (r : execution) out t r' :
  settled honest m fresh r out t r' -> X_unconfirmed r = true ->
  keeps_doubt r r' /\ in_doubt r r' /\ (is_ok out = true -> X_unconfirmed r' = false /\ X_confirmed r < X_confirmed r').
Proof.
  intros (Ht & [[Ho Hr]|(after0 & after & r1 & r2 & H1 & Hc & H2)]) Hu.
  - pose proof (honest_keeps _ _ Hr) as Hk. split; [done|]. split; [by apply Hk|]. by rewrite Ho.
  - apply close_flags in Hc as [= Hu2 Hn2 Hc2].
    destruct H1 as (Ha & Hb & Hd), H2 as (He & Hf & Hg).
    assert (X_confirmed r < X_confirmed r') as Hlt by lia.
    split; [split_and!; [rewrite Hu2 in He; auto|by right; right|lia]|]. split; [by right; right|].
    intros _. split; [congruence|done].
Qed.

Lemma accounts_calm r out t r' : Forall not_write t -> honest r r' -> is_ok out = false -> accounts r out t r'.
Proof.
  intros Ht Hr Ho. split; [by apply honest_keeps|]. split; [intros m' g reply H; by apply no_write_in in H|]. by rewrite Ho.
Qed.

Section Sends.
Context {E : Type} (env : Environment E) (p : PlayerConfig).
Context (json_size : json -> Z) (time_text : Time -> string).

Lemma one_send_guarded (R : execution -> execution -> Prop) (m : Mutation) r out t r' :
  one_send p R m r out t r' -> guarded_sends p m t.
Proof.
  intros (pre & fresh & wall & d & reply & post & r1 & -> & Hpre & Hpost & Ha & Hs & Hd & _).
  intros pre0 m' g reply' post0 Heq.
  assert (forall l k, pre ++ [IoWall wall; IoWrite (sent_command m fresh) (wire_guard fresh (wall + d)) reply]
            ++ post = l ++ IoWrite m' g reply' :: k -> l = pre ++ [IoWall wall]
            /\ m' = sent_command m fresh /\ g = wire_guard fresh (wall + d)) as Hone.
  { clear Heq. intros l k.
    change (pre ++ [IoWall wall; ?x] ++ post) with (pre ++ [IoWall wall] ++ x :: post).
    rewrite (app_assoc pre [IoWall wall] (IoWrite (sent_command m fresh) (wire_guard fresh (wall + d)) reply :: post)).
    intros [(q & Hl & Hk)|(q & -> & Hk)]%app_eq_inv.
    - destruct q as [|x q]; cbn in Hk; [injection Hk as -> -> _ _; by rewrite app_nil_r in Hl|].
      injection Hk as <- _. exfalso.
      assert (Forall not_write (pre ++ [IoWall wall])) as Hw by (apply Forall_app; split; [done|by constructor]).
      rewrite Hl in Hw. apply Forall_app in Hw as [_ Hw]. by apply Forall_cons in Hw as [[] _].
    - destruct q as [|x q]; cbn in Hk; [injection Hk as <- <- _ _; by rewrite app_nil_r|].
      injection Hk as _ ->. apply Forall_app in Hpost as [_ Hw]. by apply Forall_cons in Hw as [[] _]. }
  destruct (Hone _ _ Heq) as (-> & -> & ->). exists m, pre, wall, fresh, d. by split_and!; try apply Hd.
Qed.

Lemma write_once_accounts (m : Mutation) r out t r' :
  no_send honest r out t r' \/ one_send p honest m r out t r' -> accounts r out t r'.
Proof.
  intros [(Ht & Hr & Ho)|(pre & fresh & wall & d & reply & post & r1 & -> & Hpre & Hpost & _ & _ & _ & Hr & Hend)].
  { by apply accounts_calm. }
  apply honest_keeps in Hr. destruct (end_send_doubt reply r1) as [Hk Hd].
  assert (forall m' g reply', IoWrite m' g reply' ∈ pre ++ [IoWall wall;
    IoWrite (sent_command m fresh) (wire_guard fresh (wall + d)) reply] ++ post -> reply' = reply) as Hin.
  { intros m' g reply' [H|[H|H]%elem_of_app]%elem_of_app; [by apply no_write_in in H| |by apply no_write_in in H].
    apply elem_of_cons in H as [[=]|H]. by apply list_elem_of_singleton in H as [= _ _ ->]. }
  destruct reply as [token|e].
  - apply settled_accounts in Hend as (H1 & H2 & H3); [|exact (f_equal (fun x => x.1.2) (end_send_flags (Ok token) r1))].
    split; [by eapply keeps_trans, keeps_trans|]. split.
    + intros m' g reply' _ _. eapply doubt_from; [by eapply keeps_trans|exact H2].
    + intros Ho. destruct (H3 Ho) as [Hn Hlt]. split; [done|]. destruct Hr as (_ & _ & ?), Hk as (_ & _ & ?). lia.
  - destruct Hend as (-> & -> & ->). split; [by eapply keeps_trans|]. split; [|done].
    intros m' g reply' Hin' Hm. apply Hin in Hin' as ->. eapply doubt_from; [done|by apply Hd].
Qed.

Lemma accounts_app r1 out1 t1 r2 out t2 r3 :
  accounts r1 out1 t1 r2 -> accounts r2 out t2 r3 -> accounts r1 out (t1 ++ t2) r3.
Proof.
  intros (Hk1 & Hw1 & _) (Hk2 & Hw2 & Ho). split; [by eapply keeps_trans|]. split.
  - intros m g reply [Hin|Hin]%elem_of_app Hm; [by eapply doubt_keeps, Hk2; eauto|by eapply doubt_from; eauto].
  - intros [Hn Hlt]%Ho. split; [done|]. destruct Hk1 as (_ & _ & ?). lia.
Qed.

Lemma write_tries_spec (fuel : nat) (m : Mutation) (Q : execution -> Result unit -> list io -> execution -> Prop)
    (R : execution -> execution -> Prop) `{!Framed R} `{!Rely env R} `{!Settles R} :
  (forall r e t r', Forall not_write t -> R r r' -> Q r (Err e) t r') ->
  (forall r1 out1 t1 r2 out t2 r3, Q r1 out1 t1 r2 -> Q r2 out t2 r3 -> Q r1 out (t1 ++ t2) r3) ->
  (forall r out t r', no_send R r out t r' \/ one_send p R m r out t r' -> Q r out t r') ->
  forall n last, is_ok last = false \/ n <> O -> spec (write_tries env p json_size time_text n fuel m last) Q.
Proof.
  intros Hcalm Happ Honce n. induction n as [|n IH]; intros last Hn; cbn [write_tries].
  { destruct last as [[]|e]; [by destruct Hn|]. apply spec_fail. intros r. apply Hcalm; [done|]. by apply rely_frame. }
  apply (spec_bind _ _ (fun r out t r' => exists o, out = Ok o /\ Q r o t r')).
  { eapply spec_attempt; [apply writeOnce_spec; done|]. cbn. intros r out t r' H. exists out. auto. }
  2: { by intros r e t r' (o & [=] & _). }
  intros out. destruct out as [[]|e].
  { apply spec_ret. intros r1 r t (o & [= <-] & HQ). by rewrite app_nil_r. }
  assert (forall r1 r2 t2 out, Q r1 out t2 r2 ->
    forall r t, (exists o, (Ok (Err e) : Result (Result unit)) = Ok o /\ Q r o t r1) -> Q r out (t ++ t2) r2) as Hlift.
  { intros r1 r2 t2 out HQ r t (o & [= <-] & HQ0). by eapply Happ. }
  eapply spec_weaken with (Q := Q); [|intros r1 out t2 r2 HQ r t H; by eapply Hlift].
  assert (forall r0 r out t0 t r', Forall not_write t0 -> R r0 r -> Q r out t r' -> Q r0 out (t0 ++ t) r') as Hpre.
  { intros. eapply Happ; [by apply (Hcalm _ e)|done]. }
  eapply (spec_after env R); [exact Hpre|exact Hcalm|calm_solve|]. intros bounded.
  eapply (spec_after env R); [exact Hpre|exact Hcalm|calm_solve|]. intros cause.
  case_if; [|apply spec_fail; intros r; apply Hcalm; [done|by apply rely_frame]].
  eapply (spec_after env R); [exact Hpre|exact Hcalm|calm_solve|]. intros _. apply IH. by left.
Qed.

Lemma write_guarded (fuel : nat) (m : Mutation) :
  spec (write env p json_size time_text fuel m) (fun _ _ t _ => guarded_sends p m t).
Proof.
  apply (write_tries_spec _ _ (fun _ _ t _ => guarded_sends p m t) anything).
  - intros r e t r' Ht _. by apply guarded_none.
  - intros r1 _ t1 r2 _ t2 r3 H1 H2. by apply guarded_app.
  - intros r out t r' [(Ht & _)|H]; [by apply guarded_none|by eapply one_send_guarded].
  - by right.
Qed.
Lemma write_accounts (fuel : nat) (m : Mutation) :
  fair_interference env -> spec (write env p json_size time_text fuel m) accounts.
Proof.
  intros Hr0%honest_rely. apply (write_tries_spec _ _ accounts honest).
  - intros r e t r' Ht Hr. by apply accounts_calm.
  - intros r1 o1 t1 r2 o t2 r3 H1 H2. by eapply accounts_app.
  - intros r out t r'. apply write_once_accounts.
  - by right.
Qed.
End Sends.

(** ** The promises of [write] *)

(** Whatever happens around the worker, every command that [write] sends
    carries a guard for the token of a verified, safe observation that expires
    within five seconds, and the journal has durably announced the send just
    before it. *)
Theorem every_send_is_guarded {E} (env : Environment E) p json_size time_text fuel m (w : world E) :
  exists t, W_trace (write env p json_size time_text fuel m w).2 = W_trace w ++ t /\ guarded_sends p m t.
Proof. exact (write_guarded env p json_size time_text fuel m w). Qed.

(** However event callbacks and cancellations interleave with it, a
    command that may have reached the device is never dropped: after [write]
    the run is marked uncertain or unconfirmed, or one more command is
    confirmed; success means confirmed. *)
Theorem sends_are_accounted {E} (env : Environment E) p json_size time_text fuel m (w : world E) :
  fair_interference env ->
  let done := write env p json_size time_text fuel m w in
  (exists t, W_trace done.2 = W_trace w ++ t /\ accounts (W_run w) done.1 t (W_run done.2)).
Proof. intros Henv. exact (write_accounts env p json_size time_text fuel m Henv w). Qed.

Lemma bench_fair : fair_interference bench_env.
Proof. intros r b. apply rtc_refl. Qed.

Lemma sends_are_accounted_witness :
  (exists t, W_trace (bench_run [1%nat]).2 = [] ++ t
     /\ accounts (W_run (bench_world [1%nat])) (bench_run [1%nat]).1 t (W_run (bench_run [1%nat]).2))
  /\ X_uncertain (W_run (bench_run [1%nat]).2) = true.
Proof.
  split; [|vm_compute; reflexivity].
  apply (sends_are_accounted bench_env sample_config (fun _ => 0) itoa 20 bench_stop (bench_world [1%nat])).
  apply bench_fair.
Defined.
