(* ===== verification/NoReplay.v ===== *)
(** * No command is replayed

    [write] repeats a send only after the writer's own reply that nothing was
    sent because the guard was stale.  For this the errors of everything else
    a worker calls must not look like such a reply: [sound] programs return
    only [plain] errors in a run that was cancelled for a plain cause. *)

From S2P Require Import Prelude GoStd Values Model Diagnostics Errors Events State QueuePolicy.
From S2P Require Import QueueStart QueueOps Evidence Command Execution ExecutionSafety Json JournalModel.
From S2P Require Import World Worker WriteOnce WriteSafety WriteProps Bench.

(** ** Plain values *)

(** The reply of a send that was refused before the wire, for a stale guard. *)
Definition unsent (e : error) : bool := (as_command e == Some NotSent) && errors_is ErrStale e.

Class Plain (A : Type) := plain : A -> Prop.
#[export] Instance plain_error : Plain error := fun e => unsent e = false.
#[export] Instance plain_option : Plain (option error) := fun o => forall e, o = Some e -> unsent e = false.
#[export] Instance plain_default {A} : Plain A | 100 := fun _ => True.
#[export] Instance plain_result {A} `{Plain A} : Plain (Result A) := fun out =>
  match out with Ok a => plain a | Err e => unsent e = false end.
#[export] Instance plain_context : Plain context := Forall (fun t => unsent t.2 = false).
#[export] Instance plain_queue : Plain queueDecision := fun d => plain (QD_Err d).
#[export] Instance plain_start : Plain queueStartDecision := fun d => plain (QSD_Err d).
#[export] Instance plain_pair {A B} `{Plain A} `{Plain B} : Plain (A * B) := fun ab => plain ab.1 /\ plain ab.2.

Definition clean (r : execution) : Prop := plain (X_cancelled r).

(** What the interfaces answer: only the writer refuses a stale guard, since
    only its requests carry one, and no cancellation is caused by such a reply. *)
Record plain_answers {E} (env : Environment E) : Prop := {
  plain_interfere : forall r s, clean r -> clean (env_interfere env r s).1;
  plain_wait : forall d b s, plain (env_wait env d b s).1;
  plain_read : forall c s, plain (env_read env c s).1;
  plain_page : forall pid start limit s, plain (env_page env pid start limit s).1;
  plain_ready : forall s, plain (env_ready env s).1;
  plain_transition : forall id revision u s, plain (env_transition env id revision u s).1;
  plain_get : forall id s, plain (env_get env id s).1
}.

Section Sound.
Context {E : Type} (env : Environment E).
Local Abbreviation W := (Worker E).

Definition sound {A} `{Plain A} (m : W A) : Prop := forall w, clean (W_run w) ->
  clean (W_run (m w).2) /\ plain (m w).1.

Lemma sound_ret {A} `{Plain A} (a : A) : plain a -> sound (ret a).
Proof. by intros Ha w Hw. Qed.
Lemma sound_fail {A} `{Plain A} (e : error) : unsent e = false -> sound (fail (A := A) e).
Proof. by intros Ha w Hw. Qed.
Lemma sound_bind {A B} `{Plain A} `{Plain B} (m : W A) (k : A -> W B) :
  sound m -> (forall a, plain a -> sound (k a)) -> sound (bind m k).
Proof.
  intros Hm Hk w Hw. unfold bind. destruct (Hm w Hw) as [H1 H2].
  destruct (m w) as [[a|e] w1]; cbn in *; [by apply Hk|done].
Qed.
Lemma sound_attempt {A} `{Plain A} (m : W A) : sound m -> sound (attempt m).
Proof. intros Hm w Hw. destruct (Hm w Hw) as [H1 H2]. unfold attempt. by destruct (m w). Qed.
Lemma sound_when_error (o : option error) : plain o -> sound (when_error o : W unit).
Proof. intros Ho. destruct o; [apply sound_fail; by apply Ho|by apply sound_ret]. Qed.
Lemma sound_of_result {A} `{Plain A} (res : Result A) : plain res -> sound (of_result res : W A).
Proof. intros Ho. destruct res; [by apply sound_ret|by apply sound_fail]. Qed.
Lemma sound_ask {A} `{Plain A} (f : E -> A * E) : (forall s, plain (f s).1) -> sound (ask f).
Proof. intros Hf w Hw. unfold ask. specialize (Hf (W_env w)). by destruct (f (W_env w)). Qed.
Lemma sound_record (x : io) : sound (record x : W unit).
Proof. by intros w Hw. Qed.
Lemma sound_own {A} `{Plain A} (f : execution -> A) : (forall r, clean r -> plain (f r)) -> sound (own f : W A).
Proof. intros Hf w Hw. split; [done|]. by apply Hf. Qed.
Lemma sound_set_own (f : execution -> execution) :
  (forall r, X_cancelled (f r) = X_cancelled r) -> sound (set_own f : W unit).
Proof. intros Hf w Hw. split; [|done]. unfold clean. cbn. by rewrite Hf. Qed.
Lemma sound_get_op : sound (get_op : W Operation).
Proof. by intros w Hw. Qed.
Lemma sound_set_op (o : Operation) : sound (set_op o : W unit).
Proof. by intros w Hw. Qed.

Context (Henv : plain_answers env).

Lemma sound_critical {A} `{Plain A} (f : execution -> A * execution) :
  (forall r, X_cancelled (f r).2 = X_cancelled r) -> (forall r, clean r -> plain (f r).1) ->
  sound (critical env f).
Proof using Henv.
  intros Hf Hp w Hw. unfold critical. pose proof (plain_interfere _ Henv (W_run w) (W_env w) Hw) as Hr.
  destruct (env_interfere env (W_run w) (W_env w)) as [r e]. cbn in Hr.
  specialize (Hf r). specialize (Hp r Hr). destruct (f r) as [a r']. cbn in *.
  split; [|done]. unfold clean in *. by rewrite Hf.
Qed.
Lemma sound_locked {A} `{Plain A} (f : execution -> A) :
  (forall r, clean r -> plain (f r)) -> sound (locked env f).
Proof using Henv. intros Hf. by apply sound_critical. Qed.
Lemma sound_update_locked (f : execution -> execution) :
  (forall r, X_cancelled (f r) = X_cancelled r) -> sound (update_locked env f).
Proof using Henv. intros Hf. by apply sound_critical. Qed.
End Sound.

Create HintDb plain.

Lemma plain_sentinel (s : Sentinel) : unsent s = false.
Proof. done. Qed.
Lemma plain_wrap (s : Sentinel) (e : error) :
  (s == ErrStale) = false -> unsent e = false -> unsent (EWrap [ESentinel s; e]) = false.
Proof.
  unfold unsent, as_command. cbn. intros ->. rewrite orb_false_r. by destruct (errors_as _ e).
Qed.
Lemma plain_wrap1 (e : error) : unsent e = false -> unsent (EWrap [e]) = false.
Proof. unfold unsent, as_command. cbn. rewrite orb_false_r. by destruct (errors_as _ e). Qed.
Lemma plain_mismatch reason fields a b : unsent (ownershipMismatch reason fields a b) = false.
Proof. done. Qed.

Lemma plain_capture phase (err : option error) rule at_ : plain err -> plain (captureDecision phase err rule at_).
Proof.
  intros H. unfold captureDecision. destruct err as [e|]; [|done]. case_if; [done|].
  intros e' [= <-]. by apply (H e).
Qed.
Lemma plain_safety (p : PlayerConfig) (s : Snapshot) : plain (deviceObservationSafety p s).
Proof. unfold deviceObservationSafety. intros e. repeat case_match; by intros [= <-]. Qed.
Lemma plain_deviceSafety (p : PlayerConfig) (s : Snapshot) : plain (deviceSafety p s).
Proof.
  unfold deviceSafety. pose proof (plain_safety p s) as H. destruct (deviceObservationSafety p s); [done|].
  intros e. case_match; by intros [= <-].
Qed.
Lemma plain_mutationSafety (p : PlayerConfig) (s : Snapshot) b : plain (mutationSafety p s b).
Proof.
  unfold mutationSafety. case_if; [apply plain_deviceSafety|].
  pose proof (plain_safety p s) as Hs. destruct (deviceObservationSafety p s); [done|]. by intros e [= <-].
Qed.
Lemma plain_skip c d s : plain (skipAdmissible c d s).
Proof. unfold skipAdmissible. intros e. repeat case_match; by intros [= <-]. Qed.
Lemma plain_guard r m t t' : plain (guard_duration r m t t').
Proof. unfold guard_duration. repeat case_match; cbn; repeat case_match; done. Qed.

Lemma plain_guards p r cause before after now : plain cause -> plain (readback_guards p r cause before after now).
Proof.
  intros Hc. unfold readback_guards. pose proof (plain_safety p after) as Hs.
  case_if; [done|]. case_if; [by intros e [= <-]|].
  destruct (deviceObservationSafety p after); [done|]. case_if; by intros e [= <-].
Qed.
Lemma plain_append p r cause before after now : plain cause -> plain (appendObservation p r cause before after now).1.
Proof.
  intros Hc. pose proof (plain_guards p r cause before after now Hc) as Hg. unfold appendObservation.
  destruct (readback_guards p r cause before after now); [by apply Hg|]. cbn. repeat case_match; done.
Qed.
Lemma plain_remove p r cause before after n now : plain cause -> plain (removeObservation p r cause before after n now).1.
Proof.
  intros Hc. pose proof (plain_guards p r cause before after now Hc) as Hg. unfold removeObservation.
  destruct (readback_guards p r cause before after now); [by apply Hg|]. cbn. repeat case_match; done.
Qed.
Lemma plain_skip_readback r cause before after : plain cause -> plain (acceptSkipReadback r cause before after).1.
Proof.
  intros Hc. unfold acceptSkipReadback. destruct cause as [e|]; cbn; [by apply (Hc e)|]. repeat case_match; done.
Qed.
Lemma plain_start_decision f : plain (QS_Cancellation f) -> plain (QS_Unsafe f) -> plain (decideQueueStart f).
Proof.
  intros Hc Hu. unfold decideQueueStart. cbv zeta.
  match goal with |- context [first_match ?l ?d] =>
    assert (plain (first_match l d).1.2) as Hm by (apply (first_match_all (fun x => plain x.1.2));
      [repeat constructor|]; cbn; try done; by intros e [= <-]);
    destruct (first_match l d) as [[[rule action] err] fields] end.
  cbn in *. unfold plain, plain_start. cbn. case_if; [|done]. by intros e [= <-].
Qed.
Lemma plain_start_observation p r cause before after deadline now at_ :
  plain cause -> plain (queueStartObservation p r cause before after deadline now at_).1.
Proof.
  intros Hc. unfold queueStartObservation. cbv zeta.
  match goal with |- context [decideQueueStart ?f] =>
    assert (plain (decideQueueStart f)) as Hd by (apply plain_start_decision; [done|apply plain_safety]);
    generalize dependent (decideQueueStart f) end.
  intros d Hd. match goal with |- context [match ?o with Some _ => _ | None => d end] => set (d' := match o with Some _ => _ | None => d end) end.
  assert (plain d') as Hd'. { subst d'. unfold plain, plain_start. repeat case_match; cbn; try done; by intros e [= <-]. }
  clearbody d'. cbn. case_if; [|done]. unfold plain, plain_start. cbn. by apply plain_capture.
Qed.
Lemma plain_decision state f : plain (QF_Cancellation f) -> plain (QF_Unsafe f) -> plain (decideQueueObservation state f).
Proof.
  intros Hc Hu. unfold decideQueueObservation. cbv zeta. set (changed := if _ && negb _ then _ else _).
  assert (plain changed) as Hch by (subst changed; repeat case_if; by intros e [= <-]). clearbody changed.
  match goal with |- context [first_match ?l ?d] =>
    assert (plain (first_match l d).2) as Hm by (apply (first_match_all (fun x => plain x.2));
      [repeat constructor|]; cbn; try done; by intros e [= <-]);
    destruct (first_match l d) as [[rule action] err] end.
  done.
Qed.
Lemma plain_queue_observation p r expired before fresh now at_ :
  clean r -> plain (queueObservationDecision p r expired before fresh now at_).1.
Proof.
  intros Hc. unfold queueObservationDecision.
  match goal with |- context [decideQueueObservation ?s ?f] =>
    assert (plain (decideQueueObservation s f)) as Hd by (apply plain_decision; [done|apply plain_safety]);
    generalize dependent (decideQueueObservation s f) end.
  intros d Hd. cbn. case_if; [|done]. unfold plain, plain_queue. cbn. by apply plain_capture.
Qed.
Lemma plain_fallback m s r : clean r -> plain (scalar_fallback m s r).1.
Proof.
  intros Hc. unfold scalar_fallback. destruct (X_cancelled r) as [e|] eqn:He; [by apply (Hc e)|].
  cbv zeta. repeat case_if; done.
Qed.

(** ** Cancellation is not the sections' business *)

Lemma cover_cancelled r before after : X_cancelled (cover_events r before after) = X_cancelled r.
Proof. apply cover_frame. Qed.
Lemma append_cancelled p r cause before after now :
  X_cancelled (appendObservation p r cause before after now).2 = X_cancelled r.
Proof. destruct (append_cases p r cause before after now) as [->|[->| ->]]; [done|apply cover_cancelled..]. Qed.
Lemma remove_cancelled p r cause before after n now :
  X_cancelled (removeObservation p r cause before after n now).2 = X_cancelled r.
Proof. destruct (remove_cases p r cause before after n now) as [->|[->| ->]]; [done|apply cover_cancelled..]. Qed.
Lemma skip_cancelled r cause before after : X_cancelled (acceptSkipReadback r cause before after).2 = X_cancelled r.
Proof. destruct (skip_cases r cause before after) as [->|[->| ->]]; [done|apply cover_cancelled..]. Qed.
Lemma start_cancelled p r cause before after deadline now at_ :
  X_cancelled (queueStartObservation p r cause before after deadline now at_).2 = X_cancelled r.
Proof. rewrite start_state, cover_cancelled. unfold observeQueueState, set_expectations. by case_if. Qed.
Lemma fallback_cancelled m s r : X_cancelled (scalar_fallback m s r).2 = X_cancelled r.
Proof. unfold scalar_fallback. cbn. repeat case_match; done. Qed.

#[export] Hint Resolve plain_wrap plain_wrap1 plain_sentinel plain_mismatch plain_safety plain_deviceSafety plain_mutationSafety plain_skip
  plain_guard plain_append plain_remove plain_skip_readback plain_start_observation plain_queue_observation
  plain_fallback append_cancelled remove_cancelled skip_cancelled start_cancelled fallback_cancelled : plain.

Lemma plain_no_context : plain ([] : context).
Proof. constructor. Qed.
Lemma plain_more_context d e (ctx : context) : unsent e = false -> plain ctx -> plain ((d, e) :: ctx : context).
Proof. by constructor. Qed.
#[export] Hint Resolve plain_no_context plain_more_context : plain.

Lemma clean_plain (r : execution) : clean r -> plain (X_cancelled r).
Proof. done. Qed.
Lemma plain_start_err (d : queueStartDecision) : plain d -> unsent (default panic (QSD_Err d)) = false.
Proof. intros Hd. destruct (QSD_Err d) eqn:He; [|done]. by apply Hd. Qed.
#[export] Hint Resolve clean_plain plain_start_err : plain.

(** Splits a program; what is left are the errors it returns. *)
Ltac plain_known :=
  repeat match goal with
  | H : plain (Some ?e) |- _ => pose proof (H e eq_refl); clear H
  | H : plain (Err ?e) |- _ => change (unsent e = false) in H
  | H : plain (Ok _) |- _ => unfold plain, plain_result in H
  | H : plain (_, _) |- _ => destruct H as [? ?]; cbn in *
  | H : match ?x with _ => _ end = Err _ |- _ => destruct x; simplify_eq
  | H : match ?x with _ => _ end = Some _ |- _ => destruct x eqn:?; simplify_eq
  end.
Ltac plain_leaf :=
  plain_known; cbn in *;
  match goal with
  | |- True => exact I
  | |- plain_default _ => exact I
  | |- _ => first [done | solve [eauto 4 with plain] | solve [intros ? [= <-]; eauto 4 with plain]]
  end.
Ltac plain_case := first [done | solve [eauto 3 with plain] | solve [repeat split; repeat case_match; plain_leaf]].
Ltac sound_step :=
  match goal with
  | |- sound (bind _ _) => apply sound_bind; [|intros ? ?]; plain_known
  | |- sound (record _) => apply sound_record
  | |- sound (match ?x with _ => _ end) => destruct x eqn:?; subst; plain_known
  | |- sound (if ?x then _ else _) => destruct x eqn:?
  | |- sound (attempt _) => apply sound_attempt
  | |- sound (set_own _) => apply sound_set_own; by intros ?
  | |- sound (update_locked _ _) => apply sound_update_locked; [assumption|by intros ?]
  | |- sound (locked _ _) => apply sound_locked; [assumption|intros ? ?; plain_case]
  | |- sound (critical _ _) => solve [eauto 2 with plain]
  | |- sound (critical _ _) => apply sound_critical; [assumption|intros ?; plain_case|intros ? ?; plain_case]
  | |- sound (own _) => apply sound_own; intros ? ?; plain_case
  | |- sound get_op => apply sound_get_op
  | |- sound (set_op _) => apply sound_set_op
  | |- sound (ask _) => apply sound_ask; intros ?; plain_case
  | |- sound (when_error _) => apply sound_when_error; plain_case
  | |- sound (of_result _) => apply sound_of_result; plain_case
  | |- sound (ret _) => apply sound_ret; plain_case
  | |- sound (fail _) => apply sound_fail; plain_case
  | |- sound _ => solve [eauto 4 with plain]
  end.
Ltac sound_solve := cbv zeta; repeat (sound_step; cbv zeta).

Section SoundWorker.
Context {E : Type} (env : Environment E) (p : PlayerConfig) (Henv : plain_answers env).
Context (json_size : json -> Z) (time_text : Time -> string).
#[local] Set Default Proof Using "Henv".

Hint Extern 0 (plain (Ok _)) => exact I : plain.
Hint Extern 1 (plain (env_read _ _ _).1) => apply plain_read; assumption : plain.
Hint Extern 1 (plain (env_page _ _ _ _ _).1) => apply plain_page; assumption : plain.
Hint Extern 1 (plain (env_wait _ _ _ _).1) => apply plain_wait; assumption : plain.
Hint Extern 0 (plain (Ok _)) => exact I : plain.
Hint Extern 1 (plain (env_ready _ _).1) => apply plain_ready; assumption : plain.
Hint Extern 1 (plain (env_transition _ _ _ _ _).1) => apply plain_transition; assumption : plain.
Hint Extern 1 (plain (env_get _ _ _).1) => apply plain_get; assumption : plain.

Lemma sound_now : sound (now env).
Proof. unfold now. sound_solve. Qed.
Hint Resolve sound_now : plain.
Lemma sound_ctx_cause (ctx : context) : plain ctx -> sound (ctx_cause env ctx).
Proof.
  induction 1 as [|[d e] parent He _ IH]; cbn [ctx_cause]; sound_solve.
Qed.
Hint Resolve sound_ctx_cause : plain.
Lemma sound_with_timeout (ctx : context) (d : Duration) : plain ctx -> sound (with_timeout env ctx d).
Proof. intros Hc. unfold with_timeout. sound_solve. Qed.
Lemma sound_snapshot : sound (snapshot env).
Proof. unfold snapshot. sound_solve. Qed.
Lemma sound_player_view (pid : ID) : sound (player_view env pid).
Proof. unfold player_view. sound_solve. Qed.
Lemma sound_read (c : read_call) : sound (read env c).
Proof. unfold read. sound_solve. Qed.
Lemma sound_queue_page (pid : ID) (start limit : Z) : sound (queue_page env pid start limit).
Proof. unfold queue_page. sound_solve. Qed.
Lemma sound_journal_ready : sound (journal_ready env).
Proof. unfold journal_ready. sound_solve. Qed.
Lemma sound_wait (d : Duration) (wake : bool) : sound (wait env d wake).
Proof. unfold wait. sound_solve. Qed.
Hint Resolve sound_with_timeout sound_snapshot sound_player_view sound_read sound_queue_page
  sound_journal_ready sound_wait : plain.

Lemma sound_transition (u : Update) : sound (transition env json_size time_text u).
Proof. unfold transition. sound_solve. Qed.
Lemma sound_checkJournal : sound (checkJournal env).
Proof. unfold checkJournal. sound_solve. Qed.

Lemma sound_complete_pages (fuel : nat) (s : Snapshot) : forall q, sound (complete_pages env fuel s q).
Proof. induction fuel as [|fuel IH]; intros q; cbn [complete_pages]; sound_solve; apply IH. Qed.
Hint Resolve sound_transition sound_checkJournal sound_complete_pages : plain.
Lemma sound_completeQueue (s : Snapshot) : sound (completeQueue env s).
Proof. unfold completeQueue. sound_solve. Qed.
Hint Resolve sound_completeQueue : plain.

Lemma sound_observe_once ctx b : sound (observe_once env ctx b).
Proof. unfold observe_once. sound_solve. Qed.
Hint Resolve sound_observe_once : plain.
Lemma sound_observe_tries (n : nat) ctx b : plain ctx ->
  forall last, plain last -> sound (observe_tries env n ctx b last).
Proof. intros Hc. induction n as [|n IH]; intros last Hl; cbn [observe_tries]; sound_solve; by apply IH. Qed.
Hint Resolve sound_observe_tries : plain.
Lemma sound_observe ctx b : plain ctx -> sound (observe env ctx b).
Proof. intros Hc. unfold observe. sound_solve. Qed.
Hint Resolve sound_observe : plain.
Lemma sound_observeRun ctx reuse : plain ctx -> sound (observeRun env ctx reuse).
Proof. intros Hc. unfold observeRun. sound_solve. Qed.
Hint Resolve sound_observeRun : plain.

Lemma sound_reconcileOwnedOnce ctx : plain ctx -> sound (reconcileOwnedOnce env ctx).
Proof. intros Hc. unfold reconcileOwnedOnce. sound_solve. Qed.
Hint Resolve sound_reconcileOwnedOnce : plain.
Lemma sound_reconcile_tries (n : nat) ctx : plain ctx ->
  forall last, plain last -> sound (reconcile_tries env n ctx last).
Proof. intros Hc. induction n as [|n IH]; intros last Hl; cbn [reconcile_tries]; sound_solve; by apply IH. Qed.
Hint Resolve sound_reconcile_tries : plain.
Lemma sound_reconcileOwned ctx : plain ctx -> sound (reconcileOwned env ctx).
Proof. intros Hc. unfold reconcileOwned. sound_solve. Qed.
Hint Resolve sound_reconcileOwned : plain.
Lemma sound_prewriteObservation (m : Mutation) : sound (prewriteObservation env m).
Proof. unfold prewriteObservation. sound_solve. Qed.

Lemma sound_wait_until (fuel : nat) (next : Time) : sound (wait_until env fuel next).
Proof. induction fuel as [|fuel IH]; cbn [wait_until]; sound_solve. Qed.
Hint Resolve sound_prewriteObservation sound_wait_until : plain.
Lemma sound_waitForObservation fuel ctx deadline : plain ctx -> sound (waitForObservation env fuel ctx deadline).
Proof. intros Hc. unfold waitForObservation. sound_solve. Qed.
Lemma sound_queue_decision expired before fresh : sound (queue_decision env p expired before fresh).
Proof. unfold queue_decision. sound_solve. Qed.
Hint Resolve sound_waitForObservation sound_queue_decision : plain.
Lemma sound_await_loop (fuel : nat) ctx deadline before : plain ctx -> forall fresh waited d, plain d ->
  sound (await_loop env p fuel ctx deadline before fresh waited d).
Proof.
  intros Hc. induction fuel as [|fuel IH]; intros fresh waited d Hd; cbn [await_loop]; sound_solve; by apply IH.
Qed.
Hint Resolve sound_await_loop : plain.
Lemma sound_awaitOwnedPlayback fuel before fresh : sound (awaitOwnedPlayback env p fuel before fresh).
Proof. unfold awaitOwnedPlayback. sound_solve. Qed.
Hint Resolve sound_awaitOwnedPlayback : plain.

Lemma sound_scalar_wait (fuel : nat) ctx deadline fallbackAt : plain ctx ->
  sound (scalar_wait env fuel ctx deadline fallbackAt).
Proof. intros Hc. induction fuel as [|fuel IH]; cbn [scalar_wait]; sound_solve. Qed.
Hint Resolve sound_scalar_wait : plain.
Lemma sound_confirmScalar fuel m : sound (confirmScalar env fuel m).
Proof. unfold confirmScalar. sound_solve. Qed.
Lemma sound_readback_decision ctx m before after deadline : plain ctx ->
  sound (readback_decision env p ctx m before after deadline).
Proof. intros Hc. unfold readback_decision. sound_solve. Qed.
Hint Resolve sound_confirmScalar sound_readback_decision : plain.
Lemma sound_readback_loop (fuel : nat) ctx m before deadline : plain ctx -> forall reuse,
  sound (readback_loop env p fuel ctx m before deadline reuse).
Proof. intros Hc. induction fuel as [|fuel IH]; intros reuse; cbn [readback_loop]; sound_solve; apply IH. Qed.
Hint Resolve sound_readback_loop : plain.
Lemma sound_confirmReadback fuel m before : sound (confirmReadback env p fuel m before).
Proof. unfold confirmReadback. sound_solve. Qed.
Lemma sound_prepareSkip direction before fresh : sound (prepareSkip env p direction before fresh).
Proof. unfold prepareSkip. sound_solve. Qed.
Lemma sound_adopt before fresh : sound (critical env (adopt before fresh)).
Proof. apply sound_critical; [done|intros r|done]. unfold adopt. cbn. by case_if. Qed.
Hint Resolve sound_adopt : plain.
Lemma sound_skip_refused before fresh e : unsent e = false -> sound (skip_refused env before fresh e).
Proof. intros He. unfold skip_refused. sound_solve. Qed.
Hint Resolve sound_prepareSkip sound_skip_refused sound_confirmReadback : plain.
Lemma sound_close m expected after :
  sound (critical env (fun r => match close_confirmation m expected after r with
                                | Ok r' => (Ok tt, r')
                                | Err e => (Err e, r)
                                end)).
Proof.
  apply sound_critical; [done|intros r|intros r].
  - destruct (close_confirmation m expected after r) as [r'|e] eqn:Hc; [|done]. cbn. apply close_fields in Hc. naive_solver.
  - intros _. unfold close_confirmation. by case_if.
Qed.
Hint Resolve sound_close : plain.
Lemma sound_settle_write fuel m fresh after : sound (settle_write env p fuel m fresh after).
Proof. unfold settle_write. sound_solve. Qed.
Lemma sound_prepare_write fuel m : sound (prepare_write env p json_size time_text fuel m).
Proof. unfold prepare_write. sound_solve. Qed.
End SoundWorker.

(** ** At most three sends, each after a proven refusal of the one before *)

(** The trace ends with a send that the writer refused as stale. *)
Definition ends_refused (t : list io) : Prop :=
  exists pre wall m g e, Forall not_write pre /\ t = pre ++ [IoWall wall; IoWrite m g (Err e)] /\ unsent e = true.

Definition sends (t : list io) : list (Result Token) :=
  omap (fun x => match x with IoWrite _ _ reply => Some reply | _ => None end) t.

Definition unsent_reply (reply : Result Token) : Prop := exists e, reply = Err e /\ unsent e = true.

Lemma sends_app t1 t2 : sends (t1 ++ t2) = sends t1 ++ sends t2.
Proof. apply omap_app. Qed.
Lemma sends_none t : Forall not_write t -> sends t = [].
Proof. induction 1 as [|x t Hx _ IH]; [done|]. by destruct x. Qed.

Section NoReplay.
Context {E : Type} (env : Environment E) (p : PlayerConfig) (Henv : plain_answers env).
Context (json_size : json -> Z) (time_text : Time -> string).
#[local] Set Default Proof Using "Henv".

Lemma expect_cancelled (m : Mutation) (r : execution) : X_cancelled (begin_send m r).2 = X_cancelled r.
Proof.
  unfold begin_send. destruct (expect m r) as [r'|] eqn:H; [|done]. cbn. apply expect_kept in H. exact (f_equal snd H).
Qed.
Lemma end_send_cancelled reply r : X_cancelled (end_send reply r) = X_cancelled r.
Proof. unfold end_send. destruct reply; cbn; repeat case_match; done. Qed.

(** What [spec] and [sound] say together. *)
Lemma spec_sound {A} `{Plain A} (m : Worker E A) Q :
  spec m Q -> sound m ->
  spec m (fun r out t r' => Q r out t r' /\ (clean r -> clean r' /\ plain out)).
Proof. intros Hm Hs w. destruct (Hm w) as (t & Ht & HQ). exists t. split_and!; [done..|]. apply Hs. Qed.

Lemma send_sound (m : Mutation) fresh d : @sound E _ (@plain_default _) (send env m fresh d).
Proof.
  unfold send. cbv zeta.
  apply (@sound_bind _ _ _ plain_result plain_default).
  { apply sound_critical; [done|apply expect_cancelled|].
    intros r _. unfold begin_send. by destruct (expect m r). }
  intros begun Hb. apply (@sound_bind _ _ _ plain_default plain_default).
  { destruct begun; [by apply sound_ret|by apply sound_fail]. }
  intros [] _. apply (@sound_bind _ _ _ plain_default plain_default); [by apply sound_ret|]. intros _ _.
  apply (@sound_bind _ _ _ plain_default plain_default); [by apply sound_ask|]. intros began _.
  apply (@sound_bind _ _ _ plain_default plain_default); [by apply sound_ask|]. intros wall _.
  apply (@sound_bind _ _ _ plain_default plain_default); [apply sound_record|]. intros _ _.
  apply (@sound_bind _ _ _ plain_default plain_default).
  { unfold device_write. apply (@sound_bind _ _ _ plain_default plain_default); [by apply sound_ask|]. intros reply _.
    apply (@sound_bind _ _ _ plain_default plain_default); [apply sound_record|]. intros _ _. by apply sound_ret. }
  intros reply _. apply (@sound_bind _ _ _ plain_default plain_default).
  { apply sound_critical; [done|intros r; apply end_send_cancelled|done]. }
  intros _ _. apply (@sound_bind _ _ _ plain_default plain_default); [by apply sound_ret|]. intros _ _. by apply sound_ret.
Qed.

Lemma confirm_sound (fuel : nat) (m : Mutation) (fresh : Snapshot) :
  sound (let! confirmed := attempt (confirmReadback env p fuel m fresh) in
         match confirmed with
         | Err e => mark_uncertain env ;;; fail e
         | Ok after => settle_write env p fuel m fresh after
         end).
Proof.
  apply sound_bind; [by apply sound_attempt, sound_confirmReadback|]. intros [after|e] H.
  - by apply sound_settle_write.
  - apply sound_bind; [by apply sound_update_locked|]. intros _ _. by apply sound_fail.
Qed.

Definition once (r : execution) (out : Result unit) (t : list io) (r' : execution) : Prop :=
  clean r -> clean r' /\ (length (sends t) <= 1)%nat /\ (forall e, out = Err e -> unsent e = true -> ends_refused t).

Lemma writeOnce_once (fuel : nat) (m : Mutation) :
  spec (writeOnce env p json_size time_text fuel m) once.
Proof.
  unfold writeOnce. eapply spec_bind.
  { eapply spec_sound; [by apply (prepare_write_ready env p json_size time_text anything)|by apply sound_prepare_write]. }
  2: { intros r e t r' (((Ht & _) & _) & Hs) Hc. destruct (Hs Hc) as [Hc' He].
       split; [done|]. split; [by rewrite sends_none by done; cbn; lia|]. intros e' [= <-] Hu.
       change (unsent e = false) in He. congruence. }
  intros [fresh d]. eapply spec_bind.
  { eapply (@spec_sound _ plain_default); [apply (send_spec env anything)|apply send_sound]. }
  2: { intros r e t r' ([(-> & [= ->] & _)|(wall & reply & r1 & _ & _ & [=] & _)] & Hs).
       intros r0 t0 (((Ht & _) & _) & Hs0) Hc. destruct (Hs0 Hc) as [Hc1 _], (Hs Hc1) as [Hc2 _].
       rewrite app_nil_r. split; [done|]. split; [by rewrite sends_none by done; cbn; lia|]. by intros e [= <-]. }
  intros reply. eapply spec_weaken.
  { instantiate (1 := fun r out t r' => Forall not_write t /\ match reply with
      | Err e => t = [] /\ out = Err e /\ r' = r
      | Ok _ => clean r -> clean r' /\ plain out end).
    destruct reply as [token|e]; [|by apply spec_fail].
    eapply spec_weaken; [eapply spec_sound; [apply (confirm_spec env p anything)|apply confirm_sound]|].
    cbn. intros r out t r' ((Ht & _) & Hs). done. }
  cbn. intros r1 out t1 r2 (Hw1 & Hpost) r3 t3 ([(_ & [=] & _)|(wall & reply' & r4 & _ & _ & [= <-] & ->)] & Hs1).
  intros r0 t0 (((Ht & _) & _) & Hs0) Hc. destruct (Hs0 Hc) as [Hc1 _], (Hs1 Hc1) as [Hc2 _].
  assert (Nat.le (length (sends (t0 ++ [IoWall wall; IoWrite (sent_command m fresh) (wire_guard fresh (wall + d)) reply]
                                     ++ t1))) 1) as Hlen.
  { rewrite !sends_app, (sends_none t0), (sends_none t1) by done. cbn. lia. }
  destruct reply as [token|e].
  - destruct (Hpost Hc2) as [Hc3 Hplain]. split_and!; [done|done|]. intros e -> Hu. change (unsent e = false) in Hplain. congruence.
  - destruct Hpost as (-> & -> & ->). split_and!; [done|done|]. intros e' [= <-] Hu.
    exists t0, wall, (sent_command m fresh), (wire_guard fresh (wall + d)), e. by rewrite app_nil_r.
Qed.

(** [n] sends at most; each but the last was refused unsent. *)
Definition no_replay (n : nat) (t : list io) : Prop :=
  (length (sends t) <= n)%nat /\ Forall unsent_reply (removelast (sends t)).

Lemma refused_sends (t : list io) : ends_refused t -> exists reply, sends t = [reply] /\ unsent_reply reply.
Proof.
  intros (pre & wall & m & g & e & Hpre & -> & Hu). exists (Err e).
  rewrite sends_app, sends_none by done. split; [done|]. by exists e.
Qed.

Lemma no_replay_cons (n : nat) (t1 t2 : list io) : ends_refused t1 -> no_replay n t2 -> no_replay (S n) (t1 ++ t2).
Proof.
  intros (reply & Hs & Hu)%refused_sends [Hlen Hall]. unfold no_replay. rewrite sends_app, Hs. cbn.
  split; [lia|]. destruct (sends t2); constructor; done.
Qed.

Lemma no_replay_once (n : nat) (t : list io) : (length (sends t) <= 1)%nat -> no_replay (S n) t.
Proof. intros Hl. split; [lia|]. destruct (sends t) as [|x [|y l]]; cbn in *; [done..|lia]. Qed.

Lemma retry_unsent bounded cause e : retryable bounded cause e = true -> unsent e = true.
Proof. unfold retryable, unsent. breflect. bgoal. intros H. destruct_and!. done. Qed.

(** A quiet step before a program that is judged by its sends. *)
Lemma spec_quiet {A B} `{Plain A} (Q : list io -> Prop) (m : Worker E A) (k : A -> Worker E B) :
  (forall t0 t, Forall not_write t0 -> Q t -> Q (t0 ++ t)) -> (forall t, Forall not_write t -> Q t) ->
  calm anything m -> sound m -> (forall a, spec (k a) (fun r _ t _ => clean r -> Q t)) ->
  spec (bind m k) (fun r _ t _ => clean r -> Q t).
Proof.
  intros Hpre Hnone Hm Hs Hk. eapply spec_bind; [exact (spec_sound _ _ Hm Hs)| |].
  - intros a. eapply spec_weaken; [apply Hk|]. cbn. intros r1 _ t1 r2 HQ r t ((Ht & _) & Hc) Hr.
    apply Hpre; [done|]. by apply HQ, Hc.
  - cbn. intros r e t r' ((Ht & _) & _) _. by apply Hnone.
Qed.

Definition retried (e : error) (n : nat) (t : list io) : Prop :=
  Forall not_write t \/ (unsent e = true /\ exists t0 t1, t = t0 ++ t1 /\ Forall not_write t0 /\ no_replay n t1).

Lemma write_tries_replay (n fuel : nat) (m : Mutation) : forall last,
  spec (write_tries env p json_size time_text n fuel m last) (fun r out t r' => clean r -> no_replay n t).
Proof.
  induction n as [|n IH]; intros last; cbn [write_tries].
  { intros w. exists []. destruct last; cbn; rewrite app_nil_r; by split. }
  apply (spec_bind _ _ (fun r out t r' => exists o, out = Ok o /\ once r o t r')).
  { eapply spec_attempt; [apply writeOnce_once|]. cbn. intros r out t r' H. exists out. auto. }
  2: { by intros r e t r' (o & [=] & _). }
  intros out. destruct out as [[]|e].
  { apply spec_ret. intros r1 r t (o & [= <-] & HQ) Hc. rewrite app_nil_r. by apply no_replay_once, HQ. }
  eapply spec_weaken with (Q := fun r _ t _ => clean r -> retried e n t).
  2: { cbn. intros r1 _ t1 r2 Hr r t (o & [= <-] & HQ) Hc. destruct (HQ Hc) as (Hc1 & Hlen & Hend).
       destruct (Hr Hc1) as [Ht1|(Hu & t2 & t3 & -> & Ht2 & Hno)].
       - apply no_replay_once. by rewrite sends_app, (sends_none t1), app_nil_r.
       - destruct (no_replay_cons n t t3 (Hend e eq_refl Hu) Hno) as [H1 H2]. unfold no_replay.
         rewrite sends_app in H1, H2. by rewrite !sends_app, (sends_none t2). }
  assert (forall t0 t, Forall not_write t0 -> retried e n t -> retried e n (t0 ++ t)) as Hpre.
  { intros t0 t Ht0 [Ht|(Hu & t1 & t2 & -> & Ht1 & Hno)]; [left; by apply Forall_app|].
    right. split; [done|]. exists (t0 ++ t1), t2. rewrite app_assoc. split_and!; [done|by apply Forall_app|apply Hno..]. }
  assert (forall t, Forall not_write t -> retried e n t) as Hnone by (by left).
  apply spec_quiet; [done|done|by apply calm_own; apply _|by apply sound_own|]. intros bounded.
  apply spec_quiet; [done|done|by apply calm_ctx_cause; apply _|by apply sound_ctx_cause; [|constructor]|].
  intros cause. destruct (retryable bounded cause e) eqn:Hretry.
  2: { apply spec_fail. intros r _. by apply Hnone. }
  apply spec_quiet; [done|done|apply calm_update_locked; [apply _..|done]|by apply sound_update_locked|]. intros _.
  eapply spec_weaken; [apply IH|]. cbn. intros r _ t _ Hno Hc. right. split; [by eapply retry_unsent|].
  exists [], t. by split_and!; [|constructor|apply Hno..].
Qed.
End NoReplay.

(** C1. [write] is a no-replay path: it makes at most three sends, and sends
    again only after the writer's reply that the command before was refused
    unsent, for a stale guard. *)
Theorem write_never_replays {E} (env : Environment E) p json_size time_text fuel m (w : world E) :
  plain_answers env -> clean (W_run w) ->
  exists t, W_trace (write env p json_size time_text fuel m w).2 = W_trace w ++ t /\ no_replay 3 t.
Proof.
  intros Henv Hw. destruct (write_tries_replay env p Henv json_size time_text 3 fuel m (Ok tt) w) as (t & Ht & Hno).
  exists t. split; [exact Ht|]. by apply Hno.
Qed.

Lemma bench_plain : plain_answers bench_env.
Proof. by split. Qed.

Lemma write_never_replays_witness :
  (exists t, W_trace (bench_run [0%nat; 0%nat]).2 = [] ++ t /\ no_replay 3 t)
  /\ sends (W_trace (bench_run [0%nat; 0%nat]).2)
     = [Err (ECommand NotSent (ESentinel ErrStale)); Err (ECommand NotSent (ESentinel ErrStale));
        Ok (Snap_Token (sample_snapshot PlayStateStop None) <| Token_Player := Token_Player sample_token + 1 |>)].
Proof.
  split; [|vm_compute; reflexivity].
  apply (write_never_replays bench_env sample_config (fun _ => 0) itoa 20 bench_stop (bench_world [0%nat; 0%nat]));
    [apply bench_plain|done].
Defined.
