(* ===== verification/PlaybackSafety.v ===== *)
(** * A program logic for the playback worker

    What every program of the worker sends.  [emits] relates the trace of a
    program to the execution before and after it, for any property [Q] that
    quiet steps satisfy and that composes.  The programs of [Playback] and
    [Automate] are walked once, from what [write] and [checkOwnership] do. *)

From S2P Require Import Prelude GoStd Values Model Diagnostics Errors Events State QueuePolicy.
From S2P Require Import QueueStart QueueOps Evidence Command Json JournalModel Execution World Worker WriteOnce.
From S2P Require Import Envelope Persist Playback Automate WriteSafety WriteProps.

(** ** Programs that do not write to the device *)

Section CalmPlayback.
Context {E : Type} (env : Environment E) (R : execution -> execution -> Prop) `{HF : !Framed R} `{HR : !Rely env R}.
#[local] Set Default Proof Using "HF HR".
Context (json_size : json -> Z) (time_text : Time -> string).
Local Abbreviation W := (Worker E).

(** Another execution's program leaves this one alone. *)
Lemma calm_as_run {A} (r : execution) (op : Operation) (m : W A) : calm anything m -> calm R (as_run r op m).
Proof using HF.
  intros Hm w. unfold as_run. destruct (Hm {| W_run := r; W_op := op; W_env := W_env w; W_trace := W_trace w |})
    as (t & Ht & Hw & _). destruct (m _) as [out w']. exists t. cbn in *. split; [done|]. split; [done|].
  by apply rely_frame.
Qed.
Lemma calm_or_else (a b : W bool) : calm R a -> calm R b -> calm R (or_else a b).
Proof using HF. intros Ha Hb. unfold or_else. apply calm_bind; [exact _|done|]. intros []; [by apply calm_ret|done]. Qed.
Lemma calm_and_then (a b : W bool) : calm R a -> calm R b -> calm R (and_then a b).
Proof using HF. intros Ha Hb. unfold and_then. apply calm_bind; [exact _|done|]. intros []; [done|by apply calm_ret]. Qed.

Lemma calm_get_row (id : string) : calm R (get_row env id).
Proof. unfold get_row. calm_solve. Qed.
Hint Resolve calm_wait calm_stopping calm_spawn calm_transition calm_checkJournal calm_browse_all calm_client_view
  calm_with_timeout calm_read calm_snapshot : heos.
Lemma calm_retry_over (e : error) : calm R (retry_over env e).
Proof. unfold retry_over. calm_solve. Qed.
Hint Resolve calm_get_row calm_retry_over : heos.

Lemma calm_persist_loop (fuel : nat) (id : string) : forall update prepared at_,
  calm R (persist_loop env json_size time_text fuel id update prepared at_).
Proof. induction fuel as [|fuel IH]; intros update prepared at_; cbn [persist_loop]; calm_solve; apply IH. Qed.
Hint Resolve calm_persist_loop : heos.
Lemma calm_persistByID fuel id update : calm R (persistByID env json_size time_text fuel id update).
Proof. unfold persistByID. calm_solve. Qed.
Lemma calm_finishOrphan id : calm R (finishOrphan env id).
Proof. unfold finishOrphan. calm_solve. Qed.
Lemma calm_persist_skip_loop (fuel : nat) id update : calm R (persist_skip_loop env json_size time_text fuel id update).
Proof. induction fuel as [|fuel IH]; cbn [persist_skip_loop]; calm_solve. Qed.
Hint Resolve calm_persistByID calm_finishOrphan calm_persist_skip_loop : heos.
End CalmPlayback.
#[export] Hint Resolve calm_wait calm_stopping calm_spawn calm_transition calm_checkJournal calm_browse_all
  calm_client_view calm_with_timeout calm_read calm_snapshot calm_get_row calm_retry_over calm_persistByID
  calm_finishOrphan calm_persist_skip_loop calm_or_else calm_and_then calm_reconcileOwned : heos.

Section CalmSkips.
Context {E : Type} (env : Environment E) (R : execution -> execution -> Prop) `{HF : !Framed R} `{HR : !Rely env R}.
#[local] Set Default Proof Using "HF HR".
Context (json_size : json -> Z) (time_text : Time -> string).
Local Abbreviation W := (Worker E).

Lemma clear_skip_frame (child : bufferedSkip) (r : execution) : frame (clear_skip child r) = frame r.
Proof. unfold clear_skip. by repeat case_match. Qed.
Lemma set_skip_frame (child : bufferedSkip) (op : Operation) (r : execution) : frame (set_skip_op child op r) = frame r.
Proof. unfold set_skip_op. by repeat case_match. Qed.
Lemma close_skips_frame (r : execution) : frame (close_skips r).2 = frame r.
Proof. unfold close_skips. cbn. by repeat case_match. Qed.
Lemma take_skip_frame (r : execution) : frame (take_skip r).2 = frame r.
Proof. unfold take_skip. by repeat case_match. Qed.
Hint Resolve clear_skip_frame set_skip_frame close_skips_frame take_skip_frame : heos.

Lemma calm_persistBufferedSkip fuel child update : calm R (persistBufferedSkip env json_size time_text fuel child update).
Proof.
  unfold persistBufferedSkip. calm_solve. apply calm_as_run; [exact _|].
  by apply calm_persist_skip_loop.
Qed.
Hint Resolve calm_persistBufferedSkip : heos.
Lemma calm_finishBufferedSkip fuel child update : calm R (finishBufferedSkip env json_size time_text fuel child update).
Proof.
  unfold finishBufferedSkip. apply calm_bind; [exact _|by apply calm_ask|]. intros [].
  - apply calm_bind; [exact _|eauto with heos|]. intros _. apply calm_update_locked; [exact _..|]. apply clear_skip_frame.
  - by apply calm_spawn.
Qed.
Hint Resolve calm_finishBufferedSkip : heos.
Lemma calm_closeBufferedSkips fuel : calm R (closeBufferedSkips env json_size time_text fuel).
Proof. unfold closeBufferedSkips. calm_solve. Qed.

Lemma calm_updateBufferedProgress : calm R (updateBufferedProgress env).
Proof.
  unfold updateBufferedProgress. calm_solve.
Qed.
Lemma calm_start_session b : calm R (start_session b : W unit).
Proof using HF. unfold start_session. calm_solve. Qed.
Hint Resolve calm_updateBufferedProgress calm_start_session : heos.
Lemma calm_confirmPart : calm R (confirmPart env json_size time_text).
Proof. unfold confirmPart. calm_solve. Qed.
Lemma calm_prepareBufferedPart i part : calm R (prepareBufferedPart env i part).
Proof. unfold prepareBufferedPart. calm_solve. Qed.
Lemma calm_announce_skip child : calm R (announce_skip env json_size time_text child).
Proof.
  unfold announce_skip. apply calm_bind; [exact _| |].
  { apply calm_as_run; [exact _|]. calm_solve. }
  intros [sent op]. apply calm_bind; [exact _|by apply calm_update_locked; [exact _..|apply set_skip_frame]|].
  intros _. calm_solve.
Qed.
Lemma calm_journal_check t next : calm R (journal_check env t next).
Proof. unfold journal_check. calm_solve. Qed.
Lemma calm_since field span : calm R (since env field span).
Proof. unfold since. calm_solve. Qed.
Lemma calm_newer_snapshot : calm R (newer_snapshot env).
Proof. unfold newer_snapshot. calm_solve. Qed.
Hint Resolve calm_since calm_newer_snapshot : heos.

Lemma calm_check_due pending : calm R (check_due env pending).
Proof. unfold check_due. destruct pending; eauto 6 with heos. Qed.
Lemma calm_observation_due : calm R (observation_due env).
Proof. unfold observation_due. eauto 6 with heos. Qed.
Lemma calm_phase_update phase next : calm R (phase_update env json_size time_text phase next).
Proof. unfold phase_update. calm_solve. Qed.
Lemma calm_completion_facts err : calm R (completion_facts env err).
Proof. unfold completion_facts. calm_solve. Qed.
Lemma calm_completion_diagnostics err code : calm R (completion_diagnostics env err code).
Proof. unfold completion_diagnostics. calm_solve. Qed.
Lemma calm_abandon cmd : calm R (abandon env cmd).
Proof. unfold abandon. calm_solve. Qed.
Hint Resolve calm_completion_facts calm_completion_diagnostics calm_abandon : heos.
Lemma calm_persist_final (fuel : nat) cmd final : calm R (persist_final env json_size time_text fuel cmd final).
Proof. induction fuel as [|fuel IH]; cbn [persist_final]; calm_solve. Qed.
Hint Resolve calm_persist_final : heos.
Lemma calm_conclude fuel cmd err : calm R (conclude env json_size time_text fuel cmd err).
Proof. unfold conclude. calm_solve. Qed.
End CalmSkips.
#[export] Hint Resolve take_skip_frame calm_finishBufferedSkip calm_closeBufferedSkips calm_updateBufferedProgress
  calm_start_session calm_confirmPart calm_prepareBufferedPart calm_announce_skip calm_journal_check calm_since
  calm_newer_snapshot calm_check_due calm_observation_due calm_phase_update calm_abandon calm_conclude : heos.

(** ** The logic *)

Definition any_value {A} (a : A) : Prop := True.

Section Sends.
Context {E : Type} (env : Environment E).
Context (R : execution -> execution -> Prop) `{HF : !Framed R} `{HR : !Rely env R}.
Local Abbreviation W := (Worker E).

(** A property of a trace between two states. *)
Context (Q : execution -> list io -> execution -> Prop).
Context (Hquiet : forall r t r', Forall not_write t -> R r r' -> Q r t r').
Context (Happ : forall r1 t1 r2 t2 r3, Q r1 t1 r2 -> Q r2 t2 r3 -> Q r1 (t1 ++ t2) r3).

Definition emits {A} (P : A -> Prop) (m : W A) : Prop :=
  spec m (fun r out t r' => Q r t r' /\ forall a, out = Ok a -> P a).

#[local] Set Default Proof Using "HF Hquiet".
Lemma emits_ret {A} (P : A -> Prop) (a : A) : P a -> emits P (ret a).
Proof.
  intros HP. apply spec_ret. intros r. split; [by apply Hquiet, rely_frame|]. by intros a' [= <-].
Qed.
Lemma emits_fail {A} (P : A -> Prop) (e : error) : emits P (fail e).
Proof. apply spec_fail. intros r. split; [by apply Hquiet, rely_frame|done]. Qed.
Lemma emits_calm {A} (P : A -> Prop) (m : W A) : calm R m -> returns P m -> emits P m.
Proof.
  intros Hm HP. eapply spec_weaken; [exact (spec_returns _ _ _ Hm HP)|]. cbn.
  intros r out t r' ((Ht & Hr) & Hv). split; [by apply Hquiet|done].
Qed.
Lemma emits_quiet {A} (m : W A) : calm R m -> emits any_value m.
Proof. intros Hm. by apply emits_calm. Qed.
#[local] Set Default Proof Using "Happ".
Lemma emits_bind {A B} (P : A -> Prop) (P' : B -> Prop) (m : W A) (k : A -> W B) :
  emits P m -> (forall a, P a -> emits P' (k a)) -> emits P' (bind m k).
Proof.
  intros Hm Hk w. unfold bind. destruct (Hm w) as (t & Ht & HQ & HP).
  destruct (m w) as [[a|e] w1]; cbn in *; [|by exists t].
  destruct (Hk a (HP a eq_refl) w1) as (t1 & Ht1 & HQ1 & HP1). exists (t ++ t1).
  rewrite Ht1, Ht, app_assoc. split_and!; [done|by eapply Happ|done].
Qed.
Lemma emits_then {A B} (P : B -> Prop) (m : W A) (k : A -> W B) :
  emits any_value m -> (forall a, emits P (k a)) -> emits P (bind m k).
Proof. intros Hm Hk. by apply (emits_bind any_value). Qed.
#[local] Set Default Proof Using "".
Lemma emits_attempt {A} (P : A -> Prop) (m : W A) :
  emits P m -> emits (fun out => forall a, out = Ok a -> P a) (attempt m).
Proof.
  intros Hm. eapply spec_attempt; [exact Hm|]. cbn. intros r out t r' [H HP]. split; [done|]. by intros a [= <-].
Qed.
Lemma emits_weaken {A} (P P' : A -> Prop) (m : W A) : emits P m -> (forall a, P a -> P' a) -> emits P' m.
Proof. intros Hm HP. eapply spec_weaken; [exact Hm|]. cbn. intros r out t r' [H HV]. split; auto. Qed.
Lemma emits_any {A} (P : A -> Prop) (m : W A) : emits P m -> emits any_value m.
Proof. intros Hm. by eapply emits_weaken. Qed.
End Sends.
#[export] Hint Unfold any_value : heos.

(** Walks a program whose values do not matter: quiet steps, and the programs
    that the context or the hints know. *)
Ltac emits_step :=
  match goal with
  | |- emits _ _ (bind _ _) =>
      eapply emits_then; [eassumption| |intros ?]
  | |- emits _ _ (match ?x with _ => _ end) => destruct x
  | |- emits _ _ (if ?x then _ else _) => destruct x
  | |- emits _ _ (fail _) => eapply emits_fail; [eassumption..|exact _]
  | |- emits _ _ (ret _) => eapply emits_ret; [eassumption..|exact I]
  | |- emits _ any_value (attempt _) => eapply emits_any, emits_attempt
  | |- emits _ _ _ => solve [eapply emits_quiet; [eassumption..|calm_solve]]
  | |- emits _ _ _ => solve [eauto 2 with heos]
  end.
Ltac emits_solve := cbv zeta; repeat (emits_step; cbv zeta).

(** ** The programs of the worker *)

(** The commands of the upkeep of a loaded queue. *)
Inductive upkeep : Mutation -> Prop :=
  | upkeep_append item : upkeep (append_mutation item)
  | upkeep_remove ids : upkeep (remove_mutation ids)
  | upkeep_skip direction : upkeep (skip_mutation direction).

Section Worker.
Context {E : Type} (env : Environment E) (p : PlayerConfig).
Context (json_size : json -> Z) (time_text : Time -> string).
Context (R : execution -> execution -> Prop) `{HF : !Framed R} `{HR : !Rely env R}.
Context (Q : execution -> list io -> execution -> Prop).
Context (Hquiet : forall r t r', Forall not_write t -> R r r' -> Q r t r').
Context (Happ : forall r1 t1 r2 t2 r3, Q r1 t1 r2 -> Q r2 t2 r3 -> Q r1 (t1 ++ t2) r3).
Local Abbreviation W := (Worker E).
Local Abbreviation write := (WriteOnce.write env p json_size time_text).
Local Abbreviation emits := (emits Q).

(** What may be sent, and what the two programs that settle a state do. *)
Context (P : Mutation -> Prop).
Context (Hwrite : forall fuel m, P m -> emits any_value (write fuel m)).
Context (Hcheck : forall fuel, emits any_value (checkOwnership env p fuel)).
Context (Hupkeep : forall m, upkeep m -> P m).
#[local] Set Default Proof Using "All".
Hint Resolve Hwrite : heos.

Lemma emits_with_target fuel ordered m : P m -> emits any_value (with_target env p json_size time_text fuel ordered m).
Proof. intros Hm. unfold with_target. emits_solve. Qed.
Lemma emits_appendNext fuel : emits any_value (appendNext env p json_size time_text fuel).
Proof.
  unfold appendNext. emits_solve. apply emits_with_target, Hupkeep. constructor.
Qed.
Lemma emits_pruneBuffered fuel n before : emits any_value (pruneBuffered env p json_size time_text fuel n before).
Proof. unfold pruneBuffered. emits_solve. apply emits_with_target, Hupkeep. constructor. Qed.
Hint Resolve emits_appendNext emits_pruneBuffered : heos.
Lemma emits_bufferedStep fuel : emits any_value (bufferedStep env p json_size time_text fuel).
Proof. unfold bufferedStep. emits_solve. Qed.
Hint Resolve emits_bufferedStep : heos.
Lemma emits_serviceBufferedSkip fuel : emits any_value (serviceBufferedSkip env p json_size time_text fuel).
Proof. unfold serviceBufferedSkip. emits_solve. apply Hwrite, Hupkeep. constructor. Qed.
Lemma emits_maintain fuel phase : emits any_value (maintain env p json_size time_text fuel phase).
Proof. unfold maintain. emits_solve. Qed.
Hint Resolve emits_serviceBufferedSkip emits_maintain : heos.

Lemma emits_loadBuffered (fuel : nat) : forall next, emits any_value (loadBuffered env p json_size time_text fuel next).
Proof. induction fuel as [|fuel IH]; intros next; cbn [loadBuffered]; emits_solve. Qed.
Lemma emits_load_parts (fuel : nat) : emits any_value (load_parts env p json_size time_text fuel).
Proof. induction fuel as [|fuel IH]; cbn [load_parts]; emits_solve. Qed.
Hint Resolve emits_loadBuffered emits_load_parts : heos.
Lemma emits_loadRemaining fuel : emits any_value (loadRemaining env p json_size time_text fuel).
Proof. unfold loadRemaining. emits_solve. Qed.
Lemma emits_buffered_turn fuel phase : emits any_value (buffered_turn env p json_size time_text fuel phase).
Proof. unfold buffered_turn. emits_solve. Qed.
Hint Resolve emits_loadRemaining emits_buffered_turn : heos.

Lemma emits_write_steps fuel steps : Forall P steps -> emits any_value (write_steps env p json_size time_text fuel steps).
Proof. induction 1 as [|m rest Hm _ IH]; cbn [write_steps]; emits_solve. Qed.

Context (Hstop : P (transport_mutation PlayStateStop)).

Lemma emits_startPlayback fuel cmd item : Forall P (start_steps cmd item) ->
  emits any_value (startPlayback env p json_size time_text fuel cmd item).
Proof. intros Hsteps. unfold startPlayback. emits_solve. by apply emits_write_steps. Qed.

(** ** The envelope's loop *)

(** [J] holds of the last level and of the level that the fade started from. *)
Context (a : Automation) (initial : Z) (J : Z -> Z -> Prop).
Context (Hstep : forall last from elapsed, J last from -> 0 <= elapsed ->
  let s := envelope a initial last from elapsed in
  (ES_Level s <> last -> P (volume_mutation (ES_Level s)))
  /\ J last (ES_FadeFrom s) /\ J (ES_Level s) (ES_FadeFrom s)).

Lemma emits_level_update fuel level last phase : (level <> last -> P (volume_mutation level)) ->
  emits any_value (level_update env p json_size time_text fuel level last phase).
Proof.
  intros Hlevel. unfold level_update. destruct (level =? last) eqn:Heq; [emits_solve|]. breflect.
  specialize (Hlevel Heq). unfold set_progress. emits_solve.
Qed.
Lemma emits_finish_envelope fuel : emits any_value (finish_envelope env p json_size time_text fuel).
Proof. unfold finish_envelope. emits_solve. Qed.

Definition turn_inv (o : option envelopeState) : Prop :=
  match o with Some v => J (EV_Last v) (EV_From v) | None => True end.

Lemma emits_turn fuel began v : J (EV_Last v) (EV_From v) ->
  emits turn_inv (envelope_turn env p json_size time_text fuel a began initial v).
Proof.
  intros HJ. unfold envelope_turn. cbv zeta.
  eapply emits_then; [eassumption|emits_solve|intros cause]. eapply emits_then; [eassumption|emits_solve|intros _].
  eapply emits_then; [eassumption|emits_solve|intros t]. eapply emits_then; [eassumption|emits_solve|intros next].
  eapply emits_then; [eassumption|emits_solve|intros t1].
  eapply emits_then; [eassumption|unfold set_progress; emits_solve|intros _].
  eapply emits_then; [eassumption|emits_solve|intros due].
  assert (0 <= Z.max 0 (t1 - began)) as He by lia. revert He. generalize (Z.max 0 (t1 - began)). intros elapsed He.
  destruct (Hstep _ _ _ HJ He) as (Hlevel & HJ1 & HJ2).
  case_if.
  { eapply emits_then; [eassumption|apply Hcheck|intros _]. by eapply emits_ret. }
  eapply emits_then; [eassumption|emits_solve|intros _].
  eapply emits_then; [eassumption|by apply emits_level_update|intros changed].
  case_if; [by eapply emits_ret|]. case_if.
  { eapply emits_then; [eassumption|apply emits_finish_envelope|intros _]. by eapply emits_ret. }
  eapply emits_then; [eassumption|emits_solve|intros over]. case_if; [by eapply emits_ret|].
  eapply emits_then; [eassumption|emits_solve|intros err]. eapply emits_then; [eassumption|emits_solve|intros _].
  by eapply emits_ret.
Qed.

Lemma emits_automate_loop (fuel : nat) began : forall v, J (EV_Last v) (EV_From v) ->
  emits any_value (automate_loop env p json_size time_text fuel a began initial v).
Proof.
  induction fuel as [|fuel IH]; intros v HJ; cbn [automate_loop]; [emits_solve|].
  eapply emits_bind; [eassumption|by apply emits_turn|]. intros [v'|] HJ'; [by apply IH|emits_solve].
Qed.
End Worker.
