(* ===== verification/PlaybackProps.v ===== *)
(** * Whole operations

    [execute] walked by the logic of [PlaybackSafety]: which commands an
    operation may send, that each is announced and guarded, and that what may
    have reached the device is accounted for. *)

From S2P Require Import Prelude GoStd Values Model Diagnostics Errors Events State QueuePolicy.
From S2P Require Import QueueStart QueueOps Evidence Command Json JournalModel Execution ExecutionSafety World Worker.
From S2P Require Import WriteOnce Envelope Persist Playback Automate Bench WriteSafety WriteProps PlaybackSafety.

(** ** What an operation may send *)

Definition direct_commands (cmd : Command) : list Mutation :=
  match Cmd_Kind cmd with
  | CommandKindVolume => [volume_mutation (Cmd_Level cmd)]
  | CommandKindMute => [Mutation_zero <| Mut_Kind := MutationKindMute |> <| Mut_Muted := Cmd_Muted cmd |>]
  | CommandKindTransport => [transport_mutation (Cmd_State cmd)]
  | CommandKindSkip => [skip_mutation (Cmd_Direction cmd)]
  | _ => []
  end.

(** A Stop, or a cancellation that does not just release the device. *)
Definition fades (cmd : Command) : Prop :=
  Cmd_Kind cmd = CommandKindStop \/ (Cmd_Kind cmd = CommandKindCancel /\ Cmd_Mode cmd <> "release").

(** [level_ok] bounds the levels of the envelope. *)
Inductive permitted (cmd : Command) (item : Item) (level_ok : Z -> Prop) : Mutation -> Prop :=
  | permit_direct m : m ∈ direct_commands cmd -> permitted cmd item level_ok m
  | permit_start m : Cmd_Kind cmd = CommandKindPlayback -> m ∈ start_steps cmd item -> permitted cmd item level_ok m
  | permit_upkeep m : Cmd_Kind cmd = CommandKindPlayback -> upkeep m -> permitted cmd item level_ok m
  | permit_stop : Cmd_Kind cmd = CommandKindPlayback \/ fades cmd ->
      permitted cmd item level_ok (transport_mutation PlayStateStop)
  | permit_level a level : Cmd_Kind cmd = CommandKindPlayback -> Cmd_Automation cmd = Some a -> level_ok level ->
      permitted cmd item level_ok (volume_mutation level)
  | permit_fade level : fades cmd -> 0 <= level -> permitted cmd item level_ok (volume_mutation level).

(** ** The walk of an operation *)

Section Operation.
Context {E : Type} (env : Environment E) (p : PlayerConfig).
Context (json_size : json -> Z) (time_text : Time -> string).
Context (R : execution -> execution -> Prop) `{HF : !Framed R} `{HR : !Rely env R}.
Context (Q : execution -> list io -> execution -> Prop).
Context (Hquiet : forall r t r', Forall not_write t -> R r r' -> Q r t r').
Context (Happ : forall r1 t1 r2 t2 r3, Q r1 t1 r2 -> Q r2 t2 r3 -> Q r1 (t1 ++ t2) r3).
Local Abbreviation W := (Worker E).
Local Abbreviation write := (WriteOnce.write env p json_size time_text).
Local Abbreviation emits := (emits Q).

Context (cmd : Command) (item : Item) (level_ok : Z -> Prop).
Local Abbreviation P := (permitted cmd item level_ok).
Context (Hwrite : forall fuel m, P m -> emits any_value (write fuel m)).
Context (Hcheck : forall fuel, emits any_value (checkOwnership env p fuel)).

(** [begins] holds where an automation starts, [J] of the loop after it. *)
Context (begins : execution -> Prop) (Hbegins : forall r r', R r r' -> begins r -> begins r').
Context (Hstart : forall fuel, Cmd_Kind cmd = CommandKindPlayback ->
  spec (startPlayback env p json_size time_text fuel cmd item)
    (fun r out t r' => Q r t r' /\ (is_ok out = true -> begins r'))).
Context (J : Automation -> Z -> Z -> Z -> Prop).
Context (Hbegin : forall a r i, Cmd_Automation cmd = Some a -> begins r -> Snap_Volume (X_expected r) = Some i ->
  J a i i (-1)).
Context (Hstep : forall a i last from elapsed, Cmd_Automation cmd = Some a -> J a i last from -> 0 <= elapsed ->
  let s := envelope a i last from elapsed in
  (ES_Level s <> last -> level_ok (ES_Level s)) /\ J a i last (ES_FadeFrom s) /\ J a i (ES_Level s) (ES_FadeFrom s)).
#[local] Set Default Proof Using "All".

(** [emits] at one world, whose state may be known. *)
Definition emits_at {A} (w : world E) (m : W A) : Prop :=
  exists t, W_trace (m w).2 = W_trace w ++ t /\ Q (W_run w) t (W_run (m w).2).

Lemma emits_here {A} (V : A -> Prop) (m : W A) w : emits V m -> emits_at w m.
Proof using Type. intros Hm. destruct (Hm w) as (t & Ht & HQ & _). by exists t. Qed.

Lemma emits_at_bind {A B} (S : execution -> Result A -> list io -> execution -> Prop) (m : W A) (k : A -> W B) w :
  spec m S -> (forall out t r', S (W_run w) out t r' -> Q (W_run w) t r') ->
  (forall a t w1, S (W_run w) (Ok a) t (W_run w1) -> emits_at w1 (k a)) -> emits_at w (bind m k).
Proof using Happ.
  intros Hm HS Hk. unfold emits_at, bind. destruct (Hm w) as (t & Ht & Hs). pose proof (HS _ _ _ Hs) as HQ.
  destruct (m w) as [[a|e] w1]; cbn in *; [|by exists t].
  destruct (Hk a t w1 Hs) as (t1 & Ht1 & HQ1). exists (t ++ t1). rewrite Ht1, Ht, app_assoc. eauto.
Qed.
Lemma emits_at_calm {A B} (m : W A) (k : A -> W B) w :
  calm R m -> (forall a w1, R (W_run w) (W_run w1) -> emits_at w1 (k a)) -> emits_at w (bind m k).
Proof using Happ Hquiet.
  intros Hm Hk. eapply emits_at_bind; [exact Hm| |]; cbn; [intros out t r' [? ?]; by apply Hquiet|].
  intros a t w1 [_ Hr]. by apply Hk.
Qed.

Lemma automate_at fuel a w : Cmd_Kind cmd = CommandKindPlayback -> Cmd_Automation cmd = Some a ->
  begins (W_run w) -> emits_at w (automate env p json_size time_text fuel a).
Proof.
  intros Hk Ha Hw. unfold automate. apply emits_at_calm; [by apply calm_own|]. intros began w1 Hr.
  eapply emits_at_bind; [by apply (critical_spec env R)| |]; cbn.
  { intros out t r' (-> & r1 & Hr1 & _ & ->). apply Hquiet; [done|]. eapply rely_trans; [exact Hr1|]. by apply rely_frame. }
  intros volume t w2 (_ & r1 & Hr1 & [= ->] & Hw2).
  destruct (Snap_Volume (X_expected r1)) as [i|] eqn:Hv; [|eapply emits_here; by eapply (emits_fail R Q Hquiet any_value)].
  assert (J a i i (-1)) as HJ. { apply (Hbegin a r1); [done| |done]. eapply Hbegins, Hw. by eapply rely_trans. }
  eapply emits_here. emits_solve.
  eapply emits_automate_loop with (J := J a i); try done.
  - intros m Hm. by apply permit_upkeep.
  - apply permit_stop. by left.
  - cbv zeta. intros last from elapsed HJ1 He. destruct (Hstep a i last from elapsed Ha HJ1 He) as (H1 & H2 & H3).
    split; [|done]. intros Hne. by apply (permit_level _ _ _ a), H1.
Qed.

Lemma emits_fade_loop (fuel : nat) start seconds began : fades cmd -> forall last,
  emits any_value (fade_loop env p json_size time_text fuel start seconds began last).
Proof.
  intros Hf. induction fuel as [|fuel IH]; intros last; cbn [fade_loop]; emits_solve; try apply IH.
  apply Hwrite, permit_fade; [done|]. unfold fade_level. lia.
Qed.
Lemma emits_stop_fading fuel : fades cmd -> emits any_value (stop_fading env p json_size time_text fuel cmd).
Proof.
  intros Hf. unfold stop_fading. emits_solve; [by apply emits_fade_loop|]. apply Hwrite, permit_stop. by right.
Qed.

Lemma run_command_at fuel w : emits_at w (run_command env p json_size time_text fuel cmd item).
Proof.
  unfold run_command. assert (forall m, m ∈ direct_commands cmd -> emits_at w (write fuel m)) as Hd.
  { intros m Hm. eapply emits_here, Hwrite. by apply permit_direct. }
  pose proof (automate_at fuel) as Hauto. pose proof (emits_stop_fading fuel) as Hstop. specialize (Hstart fuel).
  unfold direct_commands in Hd. unfold fades in Hstop. destruct (Cmd_Kind cmd) eqn:Hk; try (apply Hd; by left).
  - eapply emits_here. by eapply (emits_fail R Q Hquiet any_value).
  - eapply emits_at_bind; [by apply Hstart|by intros out t r' [H _]|]. cbn. intros [] t w1 [_ Hb].
    specialize (Hb eq_refl). destruct (Cmd_Automation cmd) as [a|] eqn:Ha; [by apply Hauto|].
    eapply emits_here, emits_loadRemaining; try done. intros m Hm. by apply permit_upkeep.
  - eapply emits_here, Hstop. by left.
  - case_if; [eapply emits_here; by eapply (emits_ret R Q Hquiet any_value)|].
    breflect. eapply emits_here, Hstop. by right.
Qed.

Lemma execute_at fuel w : emits_at w (execute env p json_size time_text fuel cmd item).
Proof.
  unfold execute. eapply (emits_at_bind (fun r _ t r' => Q r t r')); [|done|].
  2: { cbn. intros out t w1 _. eapply emits_here. emits_solve. }
  eapply spec_attempt with (Q := fun r _ t r' => Q r t r'); [|done]. intros w0. unfold execute_body.
  apply emits_at_calm; [by apply calm_own|]. intros r w1 _. apply emits_at_calm; [by apply calm_now|]. intros t w2 _.
  apply emits_at_calm; [by apply calm_ask|]. intros _ w3 _.
  eapply (emits_at_bind (fun r _ t r' => Q r t r')); [|done|].
  { eapply spec_attempt with (Q := fun r _ t r' => Q r t r'); [|done]. intros w4. apply run_command_at. }
  cbn. intros out t1 w4 _. eapply emits_here. emits_solve.
Qed.
End Operation.

(** ** Guards *)

Lemma emits_of_spec {E A} (m : Worker E A) Q S :
  spec m S -> (forall r out t r', S r out t r' -> Q r t r') -> emits Q any_value m.
Proof. intros Hm HS. eapply spec_weaken; [exact Hm|]. cbn. intros r out t r' H. split; [by eapply HS|done]. Qed.

Lemma calm_checkOwnership {E} (env : Environment E) (R : execution -> execution -> Prop) `{HF : !Framed R}
    `{HR : !Rely env R} `{HS : !Settles R} p fuel : calm R (checkOwnership env p fuel).
Proof. unfold checkOwnership. calm_solve. Qed.

(** The start of a playback, when nothing is asked of the state it reaches. *)
Lemma start_anywhere {E} (env : Environment E) p json_size time_text (R : execution -> execution -> Prop)
    `{HF : !Framed R} `{HR : !Rely env R} (Q : execution -> list io -> execution -> Prop) cmd item level_ok fuel :
  (forall r t r', Forall not_write t -> R r r' -> Q r t r') ->
  (forall r1 t1 r2 t2 r3, Q r1 t1 r2 -> Q r2 t2 r3 -> Q r1 (t1 ++ t2) r3) ->
  (forall fuel m, permitted cmd item level_ok m -> emits Q any_value (write env p json_size time_text fuel m)) ->
  (forall fuel, emits Q any_value (checkOwnership env p fuel)) ->
  Cmd_Kind cmd = CommandKindPlayback ->
  spec (startPlayback env p json_size time_text fuel cmd item)
    (fun r out t r' => Q r t r' /\ (is_ok out = true -> True)).
Proof.
  intros Hquiet Happ Hwrite Hcheck Hk. eapply spec_weaken.
  - eapply (emits_startPlayback env p json_size time_text R Q Hquiet Happ (permitted cmd item level_ok)); try done.
    + intros m Hm. by apply permit_upkeep.
    + apply permit_stop. by left.
    + apply Forall_forall. intros m Hm. by apply permit_start.
  - cbn. intros r out t r' [H _]. done.
Qed.


(** C4. However event callbacks and cancellations interleave with an operation,
    no command of it that may have reached the device is forgotten: afterwards
    the run is marked uncertain or unconfirmed, or has confirmed more commands
    than before. *)
Theorem operation_accounts {E} (env : Environment E) p json_size time_text fuel cmd item (w : world E) :
  fair_interference env ->
  let done := execute env p json_size time_text fuel cmd item w in
  exists t, W_trace done.2 = W_trace w ++ t /\ keeps_doubt (W_run w) (W_run done.2)
    /\ forall m g reply, IoWrite m g reply ∈ t -> may_have_applied reply = true -> in_doubt (W_run w) (W_run done.2).
Proof.
  intros Henv. cbv zeta. pose proof (honest_rely env Henv) as Hr.
  set (Q := fun (r : execution) (t : list io) (r' : execution) => keeps_doubt r r' /\ forall m g reply, IoWrite m g reply ∈ t ->
    may_have_applied reply = true -> in_doubt r r').
  assert (forall r t r', Forall not_write t -> honest r r' -> Q r t r') as Hquiet.
  { intros r t r' Ht Hh. split; [by apply honest_keeps|]. intros m g reply Hin. by apply no_write_in in Hin. }
  assert (forall r1 t1 r2 t2 r3, Q r1 t1 r2 -> Q r2 t2 r3 -> Q r1 (t1 ++ t2) r3) as Happ.
  { intros r1 t1 r2 t2 r3 [Hk1 H1] [Hk2 H2]. split; [by eapply keeps_trans|].
    intros m g reply [Hin|Hin]%elem_of_app Hm; [by eapply doubt_keeps, Hk2; eauto|by eapply doubt_from; eauto]. }
  assert (forall fuel m, emits Q any_value (write env p json_size time_text fuel m)) as Hwrite.
  { intros fuel' m. eapply emits_of_spec; [by apply write_accounts|]. cbn. intros r out t r' (H1 & H2 & _). by split. }
  assert (forall fuel, emits Q any_value (checkOwnership env p fuel)) as Hcheck.
  { intros fuel'. apply (emits_quiet honest); [done|]. apply calm_checkOwnership; exact _. }
  refine (execute_at env p json_size time_text honest Q Hquiet Happ cmd item (fun _ => True) _ Hcheck
            (fun _ => True) _ _ (fun _ _ _ _ => True) _ _ fuel w); try done.
  intros fuel' Hk. by eapply (start_anywhere env p json_size time_text honest _ cmd item (fun _ => True)).
Qed.

Lemma operation_accounts_witness :
  let done := execute bench_env sample_config (fun _ => 0) itoa 20 (Command_zero <| Cmd_Kind := CommandKindStop |>)
                Item_zero (bench_world [1%nat]) in
  (exists t, W_trace done.2 = [] ++ t /\ keeps_doubt (W_run (bench_world [1%nat])) (W_run done.2)
    /\ forall m g reply, IoWrite m g reply ∈ t -> may_have_applied reply = true ->
         in_doubt (W_run (bench_world [1%nat])) (W_run done.2))
  /\ X_uncertain (W_run done.2) = true.
Proof.
  split; [|vm_compute; reflexivity].
  apply (operation_accounts bench_env sample_config (fun _ => 0) itoa 20 (Command_zero <| Cmd_Kind := CommandKindStop |>)
    Item_zero (bench_world [1%nat])). intros r b. apply rtc_refl.
Defined.
