(* ===== verification/VolumeSafety.v ===== *)
(** * The volume that a playback may reach

    The level that the run expects is moved by confirmed volume commands alone.
    So an automated playback begins its envelope at the level that was asked
    for, and no command of it is louder than the admitted target, which is
    below the ceiling of the device. *)

From S2P Require Import Prelude GoStd Values Model Diagnostics Errors Events State QueuePolicy.
From S2P Require Import QueueStart QueueOps Evidence Command Json JournalModel Execution ExecutionSafety World Worker.
From S2P Require Import WriteOnce Envelope Persist Playback Automate Bench WriteSafety WriteProps PlaybackSafety PlaybackProps.

Definition vol (r : execution) : option Z := Snap_Volume (X_expected r).
Definition steady (r r' : execution) : Prop := vol r' = vol r.

#[export] Instance steady_framed : Framed steady.
Proof.
  split; unfold steady; [congruence| |done]. intros r r' H. exact (f_equal snd H).
Qed.
Lemma steady_rely {E} (env : Environment E) : fair_interference env -> Rely env steady.
Proof.
  intros Henv r e. specialize (Henv r e). induction Henv as [|r1 r2 r3 [r e' now at_|r cause] _ IH]; [done| |].
  - unfold steady in *. rewrite IH. rewrite event_unfold. case_if; [done|]. cbv zeta.
    assert (vol (attribute r e' now).2 = vol r) as Ha by exact (f_equal snd (attribute_flags r e' now)).
    destruct (attribute r e' now).1; cbn.
    + exact Ha.
    + rewrite <-Ha. etrans; [exact (f_equal snd (cancel_flags _ _))|]. by case_match.
  - unfold steady in *. rewrite IH. exact (f_equal snd (cancel_flags cause r)).
Qed.

#[export] Hint Resolve steady_framed : heos.

(** The level that a confirmed command leaves. *)
Definition leaves (m : Mutation) (v : option Z) : option Z :=
  if Mut_Kind m == MutationKindVolume then Some (Mut_Level m) else v.

Lemma ownedChanges_volume (owned : bool) (a b : Snapshot) :
  len (ownedChanges owned a b) = 0 -> Snap_Volume a = Snap_Volume b.
Proof.
  unfold ownedChanges. case_if; [done|]. intros H.
  assert (stateChanges (if owned && (Snap_State a == Snap_State b) &&
      ((Snap_State b == PlayStatePlay) && queuedMedia (Snap_Queue a) (Snap_Media b)
       || (Snap_State b == PlayStateStop) && (emptyMedia (Snap_Media b) || queuedMedia (Snap_Queue a) (Snap_Media b)))
    then a <| Snap_Media := Snap_Media b |> else a) b = []) as Hs.
  { revert H. unfold len. destruct (stateChanges _ b); cbn; [done|lia]. }
  apply stateChanges_nil in Hs as []. revert same_volume. by case_if.
Qed.

Lemma confirmed_volume (m : Mutation) (fresh after : Snapshot) :
  Snap_Volume (confirmed_controls m fresh after) = leaves m (Snap_Volume fresh).
Proof.
  unfold confirmed_controls, leaves, transportMediaReadback, stoppedReadback.
  destruct (Mut_Kind m) eqn:Hk; cbn; try done; repeat case_match; done.
Qed.

Lemma close_volume (m : Mutation) (fresh after0 after : Snapshot) (r r' : execution) :
  close_confirmation m (confirmed_controls m fresh after0) after r = Ok r' -> vol r' = leaves m (Snap_Volume fresh).
Proof.
  unfold close_confirmation, execution_ownedChanges. case_if; [done|]. intros [= <-]. breflect.
  match goal with H : len _ = 0 |- _ => apply ownedChanges_volume in H; rewrite confirmed_volume in H; rewrite H end.
  unfold vol. cbn. by repeat case_match.
Qed.

(** ** Triples over the expected level *)

Section AtVolume.
Context {E : Type} (env : Environment E) `{HR : !Rely env steady} (p : PlayerConfig).
Context (json_size : json -> Z) (time_text : Time -> string).
Local Abbreviation W := (Worker E).
#[local] Set Default Proof Using "Type".

Definition at_vol {A} (v : option Z) (m : W A) (Q : Result A -> option Z -> Prop) : Prop :=
  forall w, vol (W_run w) = v -> Q (m w).1 (vol (W_run (m w).2)).
(** The level stays, and [P] holds of the value. *)
Definition keeps {A} (v : option Z) (m : W A) (P : A -> Prop) : Prop :=
  at_vol v m (fun out v' => v' = v /\ forall a, out = Ok a -> P a).

Lemma at_bind {A B} v (m : W A) (k : A -> W B) Q Q' :
  at_vol v m Q -> (forall a v1, Q (Ok a) v1 -> at_vol v1 (k a) Q') -> (forall e v1, Q (Err e) v1 -> Q' (Err e) v1) ->
  at_vol v (bind m k) Q'.
Proof.
  intros Hm Hk He w Hw. unfold bind. specialize (Hm w Hw). destruct (m w) as [[a|e] w1]; cbn in *; [|by apply He].
  by apply (Hk a _ Hm).
Qed.
Lemma at_weaken {A} v (m : W A) (Q Q' : Result A -> option Z -> Prop) :
  at_vol v m Q -> (forall out v', Q out v' -> Q' out v') -> at_vol v m Q'.
Proof. intros Hm HQ w Hw. by apply HQ, Hm. Qed.
Lemma keeps_bind {A B} v (m : W A) (k : A -> W B) P P' :
  keeps v m P -> (forall a, P a -> keeps v (k a) P') -> keeps v (bind m k) P'.
Proof.
  intros Hm Hk. eapply at_bind; [exact Hm| |].
  - cbn. intros a v1 [-> HP]. by apply Hk, HP.
  - cbn. by intros e v1 [-> _].
Qed.
Lemma keeps_ret {A} v (P : A -> Prop) (a : A) : P a -> keeps v (ret a) P.
Proof. intros HP w Hw. split; [done|]. by intros a' [= <-]. Qed.
Lemma keeps_fail {A} v (P : A -> Prop) (e : error) : keeps v (fail e) P.
Proof. intros w Hw. by split. Qed.
Lemma keeps_attempt {A} v (m : W A) P :
  keeps v m P -> keeps v (attempt m) (fun out => forall a, out = Ok a -> P a).
Proof.
  intros Hm w Hw. specialize (Hm w Hw). unfold attempt. destruct (m w) as [out w1]. cbn in *. split; [apply Hm|].
  intros o [= <-]. apply Hm.
Qed.
Lemma keeps_when_error {A} v (o : option error) (k : W A) P : (o = None -> keeps v k P) -> keeps v (when_error o ;;; k) P.
Proof. intros Hk. destruct o; [apply keeps_fail|by apply Hk]. Qed.
Lemma keeps_calm {A} v (m : W A) (P : A -> Prop) : calm steady m -> returns P m -> keeps v m P.
Proof.
  intros Hm HP w Hw. destruct (Hm w) as (t & _ & _ & Hs). split; [by rewrite Hs|]. intros a Ha. by apply (HP w).
Qed.
Lemma keeps_quiet {A B} v (m : W A) (k : A -> W B) P : calm steady m -> (forall a, keeps v (k a) P) -> keeps v (bind m k) P.
Proof.
  intros Hm Hk. apply (keeps_bind _ _ _ (fun _ => True)); [by apply keeps_calm|]. intros a _. apply Hk.
Qed.
Lemma keeps_expected v : keeps v (locked env X_expected) (fun s => Snap_Volume s = v).
Proof using HR.
  intros w Hw. unfold locked, critical. pose proof (rely_env (env := env) (R := steady) (W_run w) (W_env w)) as Hr.
  destruct (env_interfere env (W_run w) (W_env w)) as [r e]. cbn in *. unfold steady in Hr.
  split; [by rewrite Hr|]. intros a [= <-]. unfold vol in *. congruence.
Qed.
(** The section that adopts an observation of an unchanged owned state. *)
Lemma keeps_adopt v before fresh : Snap_Volume before = v ->
  keeps v (critical env (adopt before fresh)) (fun changes => len changes = 0 -> Snap_Volume fresh = v).
Proof using HR.
  intros Hb w Hw. unfold critical. pose proof (rely_env (env := env) (R := steady) (W_run w) (W_env w)) as Hr.
  destruct (env_interfere env (W_run w) (W_env w)) as [r e]. cbn in *. unfold steady, execution_ownedChanges in *.
  split.
  - case_if; [|congruence]. breflect. unfold vol. cbn. rewrite <-Hb. symmetry. by eapply ownedChanges_volume.
  - intros a [= <-] H. rewrite <-Hb. symmetry. by eapply ownedChanges_volume.
Qed.

(** ** One command *)

Ltac keeps_walk := apply keeps_quiet; [solve [calm_solve]|].

Lemma prepareSkip_before (direction : string) (before fresh : Snapshot) :
  returns (fun both => Snap_Volume both.1 = Snap_Volume before) (prepareSkip env p direction before fresh : W _).
Proof. unfold prepareSkip. returns_solve. cbn. by case_if. Qed.

Lemma keeps_refused v before fresh e P : Snap_Volume before = v -> keeps v (skip_refused env before fresh e) P.
Proof using HR.
  intros Hb. unfold skip_refused. keeps_walk. intros buffered. case_if; [|apply keeps_fail].
  eapply keeps_bind; [by apply keeps_adopt|]. intros changes _. case_if; apply keeps_fail.
Qed.

Lemma keeps_prepare v fuel m :
  keeps v (prepare_write env p json_size time_text fuel m) (fun out => Snap_Volume out.1 = v).
Proof using HR.
  unfold prepare_write. cbv zeta. keeps_walk. intros cause. keeps_walk. intros _. keeps_walk. intros fresh0.
  eapply keeps_bind; [apply keeps_expected|]. intros before Hbefore.
  keeps_walk. intros [fresh waited]. case_if; [apply keeps_fail|].
  keeps_walk. intros limit. keeps_walk. intros t. case_if; [apply keeps_fail|].
  keeps_walk. intros r. keeps_walk. intros t0. case_if; [apply keeps_fail|]. apply keeps_when_error. intros _.
  apply (keeps_bind _ _ _ (fun both => Snap_Volume both.1 = v)).
  { case_if; [|by apply keeps_ret].
    eapply keeps_bind; [eapply keeps_attempt, keeps_calm; [calm_solve|apply prepareSkip_before]|].
    intros [both|e] Hboth; [|by apply keeps_refused]. apply keeps_ret. rewrite (Hboth both eq_refl). exact Hbefore. }
  intros [before1 fresh1] Hv. cbn in Hv. keeps_walk. intros r1. case_if; [apply keeps_fail|].
  eapply keeps_bind; [by apply keeps_adopt|]. intros changes Hc. case_if; [apply keeps_fail|]. breflect.
  specialize (Hc ltac:(done)). case_if; [apply keeps_fail|]. keeps_walk. intros sent. destruct sent as [[]|e].
  - keeps_walk. intros r2. keeps_walk. intros t1. keeps_walk. intros t2. keeps_walk. intros d. by apply keeps_ret.
  - keeps_walk. intros _. apply keeps_fail.
Qed.

(** What a command does to the level: nothing, or what it leaves. *)
Definition moved (m : Mutation) (v : option Z) (out : Result unit) (v' : option Z) : Prop :=
  (v' = v \/ v' = leaves m v) /\ (is_ok out = true -> v' = leaves m v).

Lemma end_send_volume (reply : Result Token) (r : execution) : vol (end_send reply r) = vol r.
Proof. unfold end_send, vol. destruct reply; cbn; repeat case_match; done. Qed.

Lemma at_settled v m fresh (prog : W unit) : spec prog (settled steady m fresh) -> Snap_Volume fresh = v ->
  at_vol v prog (moved m v).
Proof.
  intros Hp Hf w Hw. destruct (Hp w) as (t & _ & _ & [[Ho Hs]|(after0 & after & r1 & r2 & H1 & Hc & H2)]).
  - unfold steady in Hs. split; [left; congruence|by rewrite Ho].
  - apply close_volume in Hc. unfold steady in *. unfold moved. split; [right|intros _]; congruence.
Qed.

Lemma at_writeOnce v fuel m : at_vol v (writeOnce env p json_size time_text fuel m) (moved m v).
Proof using HR.
  unfold writeOnce. eapply at_bind; [apply keeps_prepare| |].
  2: { cbn. intros e v1 [-> _]. split; [by left|done]. }
  cbn. intros [fresh d] v1 [-> Hf]. specialize (Hf _ eq_refl). cbn in Hf.
  apply (at_bind _ _ _ (fun _ v' => v' = v)).
  { intros w Hw. destruct (send_spec env steady m fresh d w) as (t & _ & [(_ & _ & Hr)|(wall & reply & r1 & Hr & -> & _)]).
    - unfold steady in Hr. congruence.
    - rewrite end_send_volume. unfold steady in Hr. congruence. }
  2: { intros e v1 ->. split; [by left|done]. }
  intros reply v1 ->. destruct reply as [token|e].
  - by eapply at_settled; [apply (confirm_spec env p steady)|].
  - intros w Hw. split; [by left|done].
Qed.

Lemma moved_again m v out v1 out' v2 : moved m v out v1 -> moved m v1 out' v2 -> moved m v out' v2.
Proof.
  unfold moved, leaves. intros [[->| ->] _] [H1 H2]; [by split|]. revert H1 H2. case_if; naive_solver.
Qed.

Lemma at_write_tries (n fuel : nat) m last v : is_ok last = false \/ n <> O ->
  at_vol v (write_tries env p json_size time_text n fuel m last) (moved m v).
Proof using HR.
  revert last v. induction n as [|n IH]; intros last v Hn; cbn [write_tries].
  { destruct last as [[]|e]; [by destruct Hn|]. intros w Hw. split; [by left|done]. }
  apply (at_bind _ _ _ (fun out v' => exists o, out = Ok o /\ moved m v o v')).
  { intros w Hw. pose proof (at_writeOnce v fuel m w Hw) as H. unfold attempt.
    destruct (writeOnce env p json_size time_text fuel m w) as [o w1]. by exists o. }
  2: { by intros e v1 (o & [=] & _). }
  intros out v1 (o & [= <-] & Hm). destruct out as [[]|e]; [by intros w Hw; cbn; rewrite Hw|].
  assert (forall (A : Type) (prog : W A) (k : A -> W unit), calm steady prog ->
    (forall a, at_vol v1 (k a) (moved m v)) -> at_vol v1 (bind prog k) (moved m v)) as Hquiet.
  { intros A prog k Hp Hk. eapply at_bind; [exact (keeps_calm v1 prog (fun _ => True) Hp (fun _ _ _ => I))| |].
    - cbn. intros a v2 [-> _]. apply Hk.
    - cbn. intros e' v2 [-> _]. by split; [apply Hm|]. }
  apply Hquiet; [calm_solve|]. intros bounded. apply Hquiet; [calm_solve|]. intros cause.
  case_if; [|intros w Hw; cbn; rewrite Hw; by split; [apply Hm|]].
  apply Hquiet; [calm_solve|]. intros _. eapply at_weaken; [apply IH; by left|].
  intros out v2 H. by eapply moved_again.
Qed.
Lemma at_write fuel m v : at_vol v (write env p json_size time_text fuel m) (moved m v).
Proof using HR. apply at_write_tries. by right. Qed.
End AtVolume.

(** ** A whole playback *)

Section StartLevel.
Context {E : Type} (env : Environment E) `{HR : !Rely env steady} (p : PlayerConfig).
Context (json_size : json -> Z) (time_text : Time -> string).
Local Abbreviation W := (Worker E).
#[local] Set Default Proof Using "HR".

(** When the program ends well, the level is [v]. *)
Definition reaches {A} (v : option Z) (m : W A) : Prop :=
  forall w, is_ok (m w).1 = true -> vol (W_run (m w).2) = v.
Definition from_to {A} (v v' : option Z) (m : W A) : Prop :=
  at_vol v m (fun out v1 => is_ok out = true -> v1 = v').

Lemma from_to_bind {A B} v1 v2 v3 (m : W A) (k : A -> W B) :
  from_to v1 v2 m -> (forall a, from_to v2 v3 (k a)) -> from_to v1 v3 (bind m k).
Proof using Type.
  intros Hm Hk. eapply at_bind; [exact Hm| |done]. cbn. intros a v H. rewrite (H eq_refl). apply Hk.
Qed.
Lemma from_to_calm {A} v (m : W A) : calm steady m -> from_to v v m.
Proof using Type. intros Hm w Hw _. destruct (Hm w) as (t & _ & _ & Hs). by rewrite Hs. Qed.
Lemma from_to_write fuel m v : from_to v (leaves m v) (write env p json_size time_text fuel m).
Proof. eapply at_weaken; [by apply at_write|]. intros out v' [_ H]. exact H. Qed.
Lemma reaches_bind {A B} v (m : W A) (k : A -> W B) : (forall a, reaches v (k a)) -> reaches v (bind m k).
Proof using Type. intros Hk w. unfold bind. destruct (m w) as [[a|e] w1]; [apply Hk|done]. Qed.

Lemma startPlayback_level fuel cmd item :
  reaches (Some (Cmd_Level cmd)) (startPlayback env p json_size time_text fuel cmd item).
Proof.
  unfold startPlayback. apply reaches_bind. intros playing. apply reaches_bind. intros _ w. revert w.
  cut (forall v, from_to v (Some (Cmd_Level cmd)) (write_steps env p json_size time_text fuel (start_steps cmd item) ;;;
    let! t := now env in set_own (fun r => r <| X_playbackStarted := t |>) ;;; confirmPart env json_size time_text)).
  { intros H w Ho. by eapply H. }
  intros v. cbn [start_steps write_steps].
  eapply from_to_bind with (v2 := Some (Cmd_Level cmd)); [|intros _; apply from_to_calm; calm_solve].
  eapply from_to_bind; [apply from_to_write|]. intros _. eapply from_to_bind; [apply from_to_write|]. intros _.
  eapply from_to_bind; [apply from_to_write|]. intros _. eapply from_to_bind; [apply from_to_write|]. intros _.
  apply (from_to_calm (Some (Cmd_Level cmd))). apply calm_ret; exact _.
Qed.
End StartLevel.

(** The envelope stays in its range whatever the elapsed time of a tick. *)
Definition level_inv (cmd : Command) (a : Automation) (initial last from : Z) : Prop :=
  initial = Cmd_Level cmd /\ 0 <= last <= Auto_TargetLevel a /\ (from < 0 \/ from <= Auto_TargetLevel a).

Lemma level_step (cmd : Command) (a : Automation) (initial last from elapsed : Z) :
  envelope_ok a (Cmd_Level cmd) -> level_inv cmd a initial last from -> 0 <= elapsed ->
  let s := envelope a initial last from elapsed in
  (ES_Level s <> last -> 0 <= ES_Level s <= Auto_TargetLevel a)
  /\ level_inv cmd a initial last (ES_FadeFrom s) /\ level_inv cmd a initial (ES_Level s) (ES_FadeFrom s).
Proof.
  intros Hok (-> & Hlast & Hfrom) He. cbv zeta. unfold level_inv.
  set (s := envelope a (Cmd_Level cmd) last from elapsed).
  enough (0 <= ES_Level s <= Auto_TargetLevel a /\ (ES_FadeFrom s < 0 \/ ES_FadeFrom s <= Auto_TargetLevel a)) by (split_and!; tauto).
  subst s. pose proof (rising_bounds a _ elapsed Hok He) as Hrise. pose proof (eo_levels _ _ Hok) as Hinit.
  pose proof (eo_target _ _ Hok) as Htarget.
  destruct (envelope_cases a (Cmd_Level cmd) last from elapsed Hok He)
    as [(_ & _ & -> & ->)|[(_ & _ & -> & -> & _)|[(Hf & _ & -> & ->)|(_ & _ & -> & -> & _)]]]; try (split; [lia|done]).
  assert (0 <= (if from <? 0 then last else from) <= Auto_TargetLevel a) as Hb by (case_if; breflect; lia).
  pose proof (falling_bounds a (Cmd_Level cmd) _ elapsed Hok Hf (conj (proj1 Hb) (Z.le_trans _ _ _ (proj2 Hb) Htarget))).
  lia.
Qed.

(** The levels an admitted automation may ask for. *)
Definition in_range (a : Automation) (level : Z) : Prop := 0 <= level <= Auto_TargetLevel a.

Lemma automation_guarded {E} (env : Environment E) p json_size time_text fuel cmd item a (w : world E) :
  fair_interference env -> Cmd_Kind cmd = CommandKindPlayback -> Cmd_Automation cmd = Some a ->
  envelope_ok a (Cmd_Level cmd) ->
  exists t, W_trace (execute env p json_size time_text fuel cmd item w).2 = W_trace w ++ t
    /\ guarded_by p (permitted cmd item (in_range a)) t.
Proof.
  intros Henv Hk Ha Hok. pose proof (steady_rely env Henv) as HR.
  set (Q := fun (_ : execution) t (_ : execution) => guarded_by p (permitted cmd item (in_range a)) t).
  assert (forall r t r', Forall not_write t -> steady r r' -> Q r t r') as Hquiet by (intros; by apply guarded_none).
  assert (forall r1 t1 r2 t2 r3, Q r1 t1 r2 -> Q r2 t2 r3 -> Q r1 (t1 ++ t2) r3) as Happ
    by (intros; by apply guarded_app).
  assert (forall fuel m, permitted cmd item (in_range a) m ->
    emits Q any_value (write env p json_size time_text fuel m)) as Hwrite.
  { intros fuel' m Hm. eapply emits_of_spec; [apply write_guarded|]. cbn. intros r out t r'.
    apply guarded_weaken. intros m' Heq. by rewrite <-Heq. }
  assert (forall fuel, emits Q any_value (checkOwnership env p fuel)) as Hcheck.
  { intros fuel'. apply (emits_quiet anything); [intros; by apply guarded_none|]. by apply calm_checkOwnership. }
  apply (execute_at env p json_size time_text steady Q Hquiet Happ cmd item (in_range a) Hwrite Hcheck
    (fun r => vol r = Some (Cmd_Level cmd)) (fun r r' Hs H => eq_trans Hs H)) with (J := level_inv cmd).
  - intros fuel' _ w'. destruct (start_anywhere env p json_size time_text steady Q cmd item (in_range a) fuel'
      Hquiet Happ Hwrite Hcheck Hk w') as (t & Ht & HQ & _).
    exists t. split_and!; [exact Ht|exact HQ|by apply startPlayback_level].
  - intros a' r i Ha' Hr Hi. rewrite Ha in Ha'. injection Ha' as <-. unfold vol in Hr.
    pose proof (eo_levels _ _ Hok). assert (i = Cmd_Level cmd) as -> by congruence. split_and!; (done || lia).
  - intros a' i last from elapsed Ha' HJ He. rewrite Ha in Ha'. injection Ha' as <-. by apply level_step.
Qed.

Lemma permitted_volume cmd item a m : Cmd_Kind cmd = CommandKindPlayback -> 0 <= Cmd_Level cmd <= Auto_TargetLevel a ->
  permitted cmd item (in_range a) m -> Mut_Kind m = MutationKindVolume -> in_range a (Mut_Level m).
Proof.
  intros Hk Hl [m' Hm|m' _ Hm|m' _ Hm|_|a' level _ _ Hm|level Hm _]; cbn; try done.
  - unfold direct_commands in Hm. rewrite Hk in Hm. by apply elem_of_nil in Hm.
  - unfold start_steps in Hm. rewrite !elem_of_cons, elem_of_nil in Hm. by destruct Hm as [->|[->|[->|[->|[]]]]].
  - by destruct Hm.
  - destruct Hm as [Hm|[Hm _]]; congruence.
Qed.

(** C3. An automated playback that was admitted under a ceiling never turns the
    volume above its target, and so never above the ceiling: not at its start,
    not by its envelope, however late its ticks and whatever is retried. *)
Theorem automation_respects_ceiling {E} (env : Environment E) p json_size time_text fuel cmd item ceiling a (w : world E) :
  fair_interference env -> submit_bounds cmd ceiling = None -> Cmd_Automation cmd = Some a ->
  exists t c, W_trace (execute env p json_size time_text fuel cmd item w).2 = W_trace w ++ t
    /\ ceiling = Some c /\ Auto_TargetLevel a <= c
    /\ forall m g reply, IoWrite m g reply ∈ t -> Mut_Kind m = MutationKindVolume ->
         0 <= Mut_Level m <= Auto_TargetLevel a.
Proof.
  intros Henv Hsub Ha. assert (Automation_validate a cmd ceiling = None) as Hv.
  { revert Hsub. unfold submit_bounds. rewrite Ha. by case_if. }
  pose proof (validated_envelope a cmd ceiling Hv Hsub) as Hok. pose proof (eo_levels _ _ Hok) as Hl.
  destruct (Automation_validate_none a cmd ceiling Hv) as (Hk & _ & (c & -> & Hc) & _).
  destruct (automation_guarded env p json_size time_text fuel cmd item a w Henv Hk Ha Hok) as (t & Ht & HQ).
  exists t, c. split_and!; [exact Ht|done|lia|]. intros m g reply (pre & post & ->)%list_elem_of_split Hkind.
  destruct (HQ pre m g reply post eq_refl) as (m0 & pre0 & wall & fresh & d & HP & _ & -> & _).
  by apply (permitted_volume cmd item a m0).
Qed.

Definition bench_alarm (lost : list nat) : Result unit * world bench :=
  execute bench_env sample_config (fun _ => 0) itoa 20 sample_alarm Item_zero (bench_world lost).

Lemma automation_respects_ceiling_witness :
  exists t c, W_trace (bench_alarm []).2 = [] ++ t /\ Some 40 = Some c /\ 30 <= c
    /\ forall m g reply, IoWrite m g reply ∈ t -> Mut_Kind m = MutationKindVolume -> 0 <= Mut_Level m <= 30.
Proof.
  refine (automation_respects_ceiling bench_env sample_config (fun _ => 0) itoa 20 sample_alarm Item_zero (Some 40)
    sample_automation (bench_world []) _ _ _); [intros r b; apply rtc_refl|reflexivity|reflexivity].
Defined.
