(* ===== verification/Broker.v ===== *)
(** * The events of the API ([internal/api/events.go])

    The broker numbers what the server publishes, keeps the last of it, and
    hands it to bounded subscriptions; a stream writes one subscription to one
    HTTP client.  A subscription is a shared object of a heap, named by its
    address: the broker and the stream's goroutine both hold it, and the reader
    may still drain one that has left the broker.  The order in which Go ranges
    over a map is an argument.  Every operation but the reader's receive runs
    under the broker's mutex. *)

From S2P Require Import Prelude GoStd Errors Json JournalModel.
From Stdlib Require Import Ascii.

(** ** State *)

Record Event := {
  Evt_ID : string;
  Evt_Kind : string;
  Evt_Player : string;
  Evt_Operation : string;
  Evt_Principal : string
}.
#[export] Instance Event_eta : Eta Event := fun e =>
  {| Evt_ID := Evt_ID e; Evt_Kind := Evt_Kind e; Evt_Player := Evt_Player e; Evt_Operation := Evt_Operation e;
     Evt_Principal := Evt_Principal e |}.
#[export] Instance Event_eq_dec : EqDecision Event.
Proof. solve_decision. Defined.

(** Address of a subscription. *)
Definition address := nat.

(** [Sub_done] tells whether the channel [done] is closed. *)
Record subscription := {
  Sub_events : list Event;
  Sub_done : bool;
  Sub_allow : Event -> bool
}.
#[export] Instance subscription_eta : Eta subscription := fun s =>
  {| Sub_events := Sub_events s; Sub_done := Sub_done s; Sub_allow := Sub_allow s |}.

Record Events := {
  Bro_epoch : string;
  Bro_seq : Z;
  Bro_history : list Event;
  Bro_capacity : Z;
  Bro_buffer : Z;
  Bro_max : Z;
  Bro_subs : gset address;
  Bro_heap : gmap address subscription;
  Bro_closed : bool
}.
#[export] Instance Events_eta : Eta Events := fun b =>
  {| Bro_epoch := Bro_epoch b; Bro_seq := Bro_seq b; Bro_history := Bro_history b; Bro_capacity := Bro_capacity b;
     Bro_buffer := Bro_buffer b; Bro_max := Bro_max b; Bro_subs := Bro_subs b; Bro_heap := Bro_heap b;
     Bro_closed := Bro_closed b |}.

(** ** Operations *)

(** [None]: the constructor panics. *)
Definition NewEvents (epoch : string) (capacity buffer max : Z) : option Events :=
  if (epoch == "") || (capacity <? 1) || (1024 <? capacity) || (buffer <? 1) || (256 <? buffer) || (max <? 1) || (128 <? max)
  then None
  else Some {| Bro_epoch := epoch; Bro_seq := 0; Bro_history := []; Bro_capacity := capacity; Bro_buffer := buffer;
               Bro_max := max; Bro_subs := ∅; Bro_heap := ∅; Bro_closed := false |}.

Definition close_done (s : subscription) : subscription := s <| Sub_done := true |>.

Definition remove (id : address) (b : Events) : Events :=
  if id in? Bro_subs b
  then b <| Bro_subs := Bro_subs b ∖ {[id]} |> <| Bro_heap := alter close_done id (Bro_heap b) |>
  else b.

(** [Close] of the broker, which ranges over the subscriptions in some order. *)
Definition Close (order : list address) (b : Events) : Events :=
  foldl (fun b id => remove id b) (b <| Bro_closed := true |>) order.

Definition event_id (epoch : string) (n : Z) : string := epoch +:+ ":" +:+ itoa n.

(** The body of the loop over the subscriptions: a full one is closed. *)
Definition offer (e : Event) (b : Events) (id : address) : Events :=
  match Bro_heap b !! id with
  | None => b
  | Some s =>
      if negb (Sub_allow s e) then b
      else if len (Sub_events s) <? Bro_buffer b
      then b <| Bro_heap := <[id := s <| Sub_events := Sub_events s ++ [e] |>]> (Bro_heap b) |>
      else remove id b
  end.

Definition numbered (b : Events) (e : Event) : Event :=
  e <| Evt_ID := event_id (Bro_epoch b) (u64 (Bro_seq b + 1)) |>.

Definition Publish (order : list address) (e : Event) (b : Events) : Events :=
  if Bro_closed b then b
  else
    let e := numbered b e in
    let kept := if len (Bro_history b) =? Bro_capacity b then drop 1 (Bro_history b) else Bro_history b in
    foldl (offer e) (b <| Bro_seq := u64 (Bro_seq b + 1) |> <| Bro_history := kept ++ [e] |>) order.

(** The sequence number in an event's own ID. *)
Definition id_seq (id : string) : Z := default 0 (parseUint (cut ":" id).1.2).

Definition snapshot_required (b : Events) : Event :=
  {| Evt_ID := event_id (Bro_epoch b) (Bro_seq b); Evt_Kind := "snapshot_required"; Evt_Player := "";
     Evt_Operation := ""; Evt_Principal := "" |}.

(** Whether events may be missing after the client's [last] one. *)
Definition gap (last : string) (b : Events) : bool :=
  let '(epoch, n, ok) := cut ":" last in
  negb ok || negb (is_some (parseUint n)) || (epoch != Bro_epoch b) || (Bro_seq b <? default 0 (parseUint n))
  || ((0 <? len (Bro_history b)) && (default 0 (parseUint n) <? u64 (Bro_seq b - len (Bro_history b)))).

Definition replay_after (last : string) (allow : Event -> bool) (b : Events) : list Event :=
  if gap last b then [snapshot_required b]
  else filter (fun e => (id_seq last <? id_seq (Evt_ID e)) && allow e = true) (Bro_history b).

Definition Subscribe (id : address) (last : string) (allow : Event -> bool) (b : Events) : Result (list Event) * Events :=
  if Bro_closed b || (Bro_max b <=? Z.of_nat (size (Bro_subs b))) then (Err (ESentinel errEventCapacity), b)
  else (Ok (replay_after last allow b),
        b <| Bro_subs := {[id]} ∪ Bro_subs b |>
          <| Bro_heap := <[id := {| Sub_events := []; Sub_done := false; Sub_allow := allow |}]> (Bro_heap b) |>).

(** The reader's [<-s.events], when there is an event. *)
Definition receive (id : address) (b : Events) : option (Event * Events) :=
  match Bro_heap b !! id with
  | Some s => match Sub_events s with
              | e :: rest => Some (e, b <| Bro_heap := <[id := s <| Sub_events := rest |>]> (Bro_heap b) |>)
              | [] => None
              end
  | None => None
  end.

(** ** The stream of one client *)

(** What a write meets: the request's context, the subscription, the deadline,
    the socket; and what a select of the loop wakes up for. *)
Record trial := {
  Try_cancelled : bool;
  Try_done : bool;
  Try_deadline : bool;
  Try_sent : bool;
  Try_flushed : bool
}.
Inductive wake := Gone | Dropped | Got (e : Event) | Tick.

Section stream.
Context (json_text : json -> string).

Definition event_json (e : Event) : json := JObject (
  (if Evt_Player e == "" then [] else [("player", JString (Evt_Player e))])
  ++ (if Evt_Operation e == "" then [] else [("operation", JString (Evt_Operation e))])).
Definition newline : string := str1 (of_byte 10).
Definition keepalive : string := ": keepalive" +:+ newline +:+ newline.
Definition frame (e : Event) : string :=
  "id: " +:+ Evt_ID e +:+ newline +:+ "event: " +:+ Evt_Kind e +:+ newline
  +:+ "data: " +:+ json_text (event_json e) +:+ newline +:+ newline.
Definition text (e : option Event) : string := match e with Some e => frame e | None => keepalive end.
End stream.

(** What [write] attempts, an event or a keepalive, and whether it succeeds. *)
Definition write (t : trial) (e : option Event) : list (option Event) * bool :=
  if Try_cancelled t || Try_done t || negb (Try_deadline t) then ([], false)
  else ([e], Try_sent t && Try_flushed t).

Fixpoint write_replay (replay : list Event) (trials : list trial) : list (option Event) * bool :=
  match replay, trials with
  | [], _ => ([], true)
  | _ :: _, [] => ([], false)
  | e :: replay, t :: trials =>
      let '(w, ok) := write t (Some e) in
      if negb ok then (w, false) else let '(more, ok) := write_replay replay trials in (w ++ more, ok)
  end.
Fixpoint write_loop (turns : list (wake * trial)) : list (option Event) :=
  match turns with
  | [] => []
  | (Gone, _) :: _ | (Dropped, _) :: _ => []
  | (Got e, t) :: turns => let '(w, ok) := write t (Some e) in if negb ok then w else w ++ write_loop turns
  | (Tick, t) :: turns => let '(w, ok) := write t None in if negb ok then w else w ++ write_loop turns
  end.

(** [VisitGetEventsResponse]: all that it attempts to write. *)
Definition stream (replay : list Event) (trials : list trial) (first : trial) (turns : list (wake * trial)) : list (option Event) :=
  let '(w, ok) := write_replay replay trials in
  if negb ok then w
  else
    let '(k, ok) := if len replay =? 0 then write first None else ([], true) in
    if negb ok then w ++ k else w ++ k ++ write_loop turns.

(** What the loop takes from its subscription. *)
Definition got (t : wake * trial) : option Event := match t.1 with Got e => Some e | _ => None end.
