(* ===== verification/BrokerProps.v ===== *)
(** * Events are neither lost nor repeated

    Every execution of the broker, as a step relation over its operations with
    the log of all that was published, the position each subscription started
    from and what its reader took. *)

From S2P Require Import Prelude GoStd Errors Json JournalModel Broker.
From Stdlib Require Import Ascii.

(** ** Identifiers *)

Definition plain (epoch : string) : Prop := contains_byte 58 epoch = false.

Lemma cut_plain (epoch rest : string) : plain epoch -> cut ":" (epoch +:+ ":" +:+ rest) = (epoch, rest, true).
Proof.
  unfold plain, contains_byte, any_byte. rewrite negb_false_iff.
  induction epoch as [|c epoch IH]; [done|]. cbn -[byte_of Z.eqb]. rewrite andb_true_iff. intros [Hc He].
  change (cut ":" (String c (epoch +:+ ":" +:+ rest)) = (String c epoch, rest, true)). cbn [cut].
  case_if; [|by rewrite IH]. breflect. by subst c.
Qed.

(** ** Executions *)

(** What happened so far: all published events, and for each subscription what
    it asked for and was given at once, the number of events published before
    it, and those its reader took. *)
Record past := {
  Log : list Event;
  Asked : gmap address (string * list Event);
  Since : gmap address nat;
  Heard : gmap address (list Event)
}.
#[export] Instance past_eta : Eta past := fun h =>
  {| Log := Log h; Asked := Asked h; Since := Since h; Heard := Heard h |}.

Definition published (b : Events) (e : Event) (h : past) : past :=
  if Bro_closed b then h else h <| Log := Log h ++ [numbered b e] |>.
Definition subscribed (id : address) (last : string) (replay : list Event) (h : past) : past :=
  h <| Asked := <[id := (last, replay)]> (Asked h) |> <| Since := <[id := length (Log h)]> (Since h) |> <| Heard := <[id := []]> (Heard h) |>.
Definition heard (id : address) (h : past) : list Event := default [] (Heard h !! id).
Definition took (id : address) (e : Event) (h : past) : past := h <| Heard := <[id := heard id h ++ [e]]> (Heard h) |>.

Inductive reachable (start : Events) : Events -> past -> Prop :=
  | at_start : reachable start start {| Log := []; Asked := ∅; Since := ∅; Heard := ∅ |}
  | by_publish b h order e : reachable start b h -> order ≡ₚ elements (Bro_subs b) ->
      reachable start (Publish order e b) (published b e h)
  | by_subscribe b h id last allow replay b' : reachable start b h -> Bro_heap b !! id = None ->
      Subscribe id last allow b = (Ok replay, b') -> reachable start b' (subscribed id last replay h)
  | by_receive b h id e b' : reachable start b h -> receive id b = Some (e, b') -> reachable start b' (took id e h)
  | by_leave b h id : reachable start b h -> reachable start (remove id b) h
  | by_close b h order : reachable start b h -> order ≡ₚ elements (Bro_subs b) -> reachable start (Close order b) h.

(** ** The loops over the subscriptions *)

Definition overflows (b : Events) (e : Event) (s : subscription) : bool :=
  Sub_allow s e && negb (len (Sub_events s) <? Bro_buffer b).
Definition offered (b : Events) (e : Event) (s : subscription) : subscription :=
  if negb (Sub_allow s e) then s
  else if len (Sub_events s) <? Bro_buffer b then s <| Sub_events := Sub_events s ++ [e] |> else close_done s.

(** Two brokers that differ in their subscriptions alone. *)
Definition alike (b b' : Events) : Prop := exists subs heap, b' = b <| Bro_subs := subs |> <| Bro_heap := heap |>.
#[export] Instance alike_preorder : PreOrder alike.
Proof.
  split.
  - intros b. exists (Bro_subs b), (Bro_heap b). by destruct b.
  - intros b b1 b2 (s1 & h1 & ->) (s2 & h2 & ->). by exists s2, h2.
Qed.

Lemma remove_alike id b : alike b (remove id b).
Proof. unfold remove. case_if; [by repeat eexists|reflexivity]. Qed.

Lemma remove_subs id b : Bro_subs (remove id b) = Bro_subs b ∖ {[id]}.
Proof. unfold remove. case_if; [done|]. breflect. set_solver. Qed.

Lemma remove_heap id b x :
  Bro_heap (remove id b) !! x = if bool_decide (x = id /\ id ∈ Bro_subs b) then close_done <$> Bro_heap b !! x else Bro_heap b !! x.
Proof.
  unfold remove. case_bool_decide as Hin; case_bool_decide as Hx; cbn.
  - destruct Hx as [-> _]. by rewrite lookup_alter_eq.
  - rewrite lookup_alter_ne; naive_solver.
  - naive_solver.
  - done.
Qed.

Lemma offer_alike e b id : alike b (offer e b id).
Proof.
  unfold offer. destruct (Bro_heap b !! id); [|reflexivity]. repeat case_if; [reflexivity|by repeat eexists|].
  apply remove_alike.
Qed.

Lemma offer_heap e b id x : id ∈ Bro_subs b ->
  Bro_heap (offer e b id) !! x = if bool_decide (x = id) then offered b e <$> Bro_heap b !! x else Bro_heap b !! x.
Proof.
  intros Hin. unfold offer, offered. case_bool_decide as Hx.
  - subst x. destruct (Bro_heap b !! id) as [s|] eqn:Hs; cbn; [|by rewrite Hs].
    repeat case_if; cbn; [done|by rewrite lookup_insert_eq|]. rewrite remove_heap, Hs. by case_bool_decide; [|naive_solver].
  - destruct (Bro_heap b !! id) as [s|] eqn:Hs; [|done].
    repeat case_if; cbn; [done|by rewrite lookup_insert_ne|]. rewrite remove_heap. by case_bool_decide; [naive_solver|].
Qed.

Lemma offer_subs e b id x :
  x ∈ Bro_subs (offer e b id) <->
  x ∈ Bro_subs b /\ ~ (x = id /\ exists s, Bro_heap b !! id = Some s /\ overflows b e s = true).
Proof.
  unfold offer. destruct (Bro_heap b !! id) as [s|]; [|naive_solver].
  assert (Hs : (exists s0, Some s = Some s0 /\ overflows b e s0 = true) <-> overflows b e s = true) by naive_solver.
  rewrite Hs. unfold overflows. destruct (Sub_allow s e); cbn; [|naive_solver].
  destruct (len (Sub_events s) <? Bro_buffer b); cbn; [naive_solver|]. rewrite remove_subs. set_solver.
Qed.

(** The whole loop of [Publish]: each open subscription once. *)
Lemma offers e order : forall b, NoDup order -> (forall id, id ∈ order -> id ∈ Bro_subs b) ->
  let b' := foldl (offer e) b order in
  alike b b'
  /\ (forall id, Bro_heap b' !! id = if bool_decide (id ∈ order) then offered b e <$> Bro_heap b !! id else Bro_heap b !! id)
  /\ (forall id, id ∈ Bro_subs b' <->
        id ∈ Bro_subs b /\ ~ (id ∈ order /\ exists s, Bro_heap b !! id = Some s /\ overflows b e s = true)).
Proof.
  induction order as [|id order IH]; intros b Hnd Hin; cbn zeta.
  - split_and!; [reflexivity|done|]. intros id. cbn. set_solver.
  - apply NoDup_cons in Hnd as [Hnin Hnd]. cbn [foldl].
    assert (Hid : id ∈ Bro_subs b) by (apply Hin; set_solver).
    destruct (IH (offer e b id) Hnd) as (Ha & Hh & Hs).
    { intros x Hx. apply offer_subs. split; [apply Hin; set_solver|]. intros [-> _]. done. }
    pose proof (offer_alike e b id) as Halike.
    assert (Hbuf : Bro_buffer (offer e b id) = Bro_buffer b) by (destruct Halike as (? & ? & ->); done).
    unfold offered, overflows in Hh, Hs |- *. rewrite Hbuf in Hh, Hs. fold (offered b e) in Hh |- *.
    split_and!; [by etransitivity| |]; intros x; rewrite ?Hh, ?Hs, ?offer_heap, ?offer_subs by done; unfold overflows.
    + repeat case_bool_decide; set_solver.
    + case_bool_decide; [subst; naive_solver set_solver|set_solver].
Qed.

Lemma removes_subs order : forall b, Bro_subs (foldl (fun b id => remove id b) b order) = Bro_subs b ∖ list_to_set order.
Proof.
  induction order as [|id order IH]; intros b; cbn [foldl list_to_set]; [set_solver|].
  rewrite IH, remove_subs. set_solver.
Qed.

(** ** The invariant *)

Local Abbreviation allowed allow := (filter (fun e : Event => (allow e : bool) = true)).

(** What a subscription delivers: all that it may see since it was made, in
    order; once it is closed, some of the end may be missing. *)
Definition served (h : past) (id : address) (s : subscription) : Prop :=
  exists k missed, Since h !! id = Some k /\ (k <= length (Log h))%nat
    /\ heard id h ++ Sub_events s ++ missed = allowed (Sub_allow s) (drop k (Log h))
    /\ (Sub_done s = false -> missed = []).

(** The part of a subscription that its broker guards. *)
Definition fits (b : Events) (s : subscription) : Prop := len (Sub_events s) <= Bro_buffer b.

Record sound (b : Events) (h : past) : Prop := {
  sound_seq : len (Log h) < 2 ^ 64 -> Bro_seq b = len (Log h);
  sound_history : Bro_history b = drop (length (Log h) - Z.to_nat (Bro_capacity b)) (Log h);
  sound_ids : len (Log h) < 2 ^ 64 -> forall i e, Log h !! i = Some e -> Evt_ID e = event_id (Bro_epoch b) (Z.of_nat i + 1);
  sound_served : forall id s, Bro_heap b !! id = Some s -> served h id s /\ fits b s;
  sound_open : forall id, id ∈ Bro_subs b <-> exists s, Bro_heap b !! id = Some s /\ Sub_done s = false;
  sound_size : Z.of_nat (size (Bro_subs b)) <= Bro_max b;
  sound_capacity : 1 <= Bro_capacity b;
  sound_buffer : 0 <= Bro_buffer b
}.

(** A subscription that the broker closes misses the rest. *)
Lemma served_closed h id s : served h id s -> served h id (close_done s).
Proof. intros (k & missed & Hk & Hle & Hs & _). by exists k, missed. Qed.

(** A subscription after one more publication. *)
Lemma served_more b h h' id s e :
  Log h' = Log h ++ [e] -> Since h' = Since h -> Heard h' = Heard h -> served h id s ->
  served h' id (if Sub_done s then s else offered b e s).
Proof.
  intros Hl Hsi Hhe (k & missed & Hk & Hle & Hs & Hm). unfold served. rewrite Hl, Hsi, length_app.
  assert (Hh : heard id h' = heard id h) by (unfold heard; by rewrite Hhe). rewrite Hh.
  exists k, (if Sub_done s then missed ++ (if Sub_allow s e then [e] else [])
             else if Sub_allow s e && negb (len (Sub_events s) <? Bro_buffer b) then [e] else []).
  assert (Ha : Sub_allow (if Sub_done s then s else offered b e s) = Sub_allow s).
  { unfold offered. by repeat case_if. }
  rewrite Ha, drop_snoc, filter_snoc, <- Hs by done. unfold offered.
  destruct (Sub_done s) eqn:Hd; [|specialize (Hm eq_refl) as ->]; destruct (Sub_allow s e) eqn:He; cbn;
    repeat case_bool_decide; try congruence; repeat case_if; cbn; rewrite ?app_nil_r, <- ?app_assoc;
    split_and!; try done; try lia; congruence.
Qed.

Lemma offered_fits b e s : fits b s -> fits b (offered b e s).
Proof. unfold fits, offered. repeat case_if; cbn; [done| |done]. breflect. rewrite len_snoc. lia. Qed.

Lemma offered_done b e s : Sub_done s = false -> Sub_done (offered b e s) = overflows b e s.
Proof. unfold offered, overflows. by destruct (Sub_allow s e), (len (Sub_events s) <? Bro_buffer b). Qed.

(** ** Every step keeps it *)

Lemma sound_publish b h order e : sound b h -> order ≡ₚ elements (Bro_subs b) -> sound (Publish order e b) (published b e h).
Proof.
  intros H Ho. unfold Publish, published. destruct (Bro_closed b); [done|].
  set (n := numbered b e). set (kept := if _ =? _ then _ else _).
  set (b1 := b <| Bro_seq := _ |> <| Bro_history := _ |>).
  assert (Hsubs : forall id, id ∈ order <-> id ∈ Bro_subs b) by (intros id; by rewrite Ho, elem_of_elements).
  destruct (offers n order b1) as (Ha & Hh & Hs); [rewrite Ho; apply NoDup_elements|apply Hsubs|].
  destruct Ha as (subs' & heap' & Hb'). rewrite Hb' in *. cbn in Hh, Hs. clear Hb'.
  set (h' := h <| Log := Log h ++ [n] |>).
  assert (Hlen : len (Log h') = len (Log h) + 1) by apply len_snoc.
  split; cbn.
  - rewrite len_snoc. intros Hl. rewrite (sound_seq _ _ H) by lia. unfold u64. rewrite Z.mod_small; [done|].
    pose proof (len_nonneg (Log h)). unfold len in *. lia.
  - unfold kept. rewrite (sound_history _ _ H), length_app. pose proof (sound_capacity _ _ H). cbn. unfold len.
    rewrite length_drop. case_if; breflect.
    + rewrite drop_drop, <- drop_snoc by lia. f_equal. lia.
    + rewrite <- drop_snoc by lia. f_equal. lia.
  - rewrite len_snoc. intros Hl i x [[_ Hi]|[-> <-]]%lookup_snoc_Some; [by eapply (sound_ids _ _ H); [lia|]|].
    + cbn. rewrite (sound_seq _ _ H) by lia. unfold u64. rewrite Z.mod_small; [done|]. unfold len in *. lia.
  - intros id s. rewrite Hh. destruct (Bro_heap b !! id) as [s0|] eqn:Hs0; [|by case_bool_decide].
    destruct (sound_served _ _ H _ _ Hs0) as [Hserved Hfits].
    pose proof (served_more b1 h h' id s0 n eq_refl eq_refl eq_refl Hserved) as Hm.
    assert (Hin : id ∈ order <-> Sub_done s0 = false) by (rewrite Hsubs, (sound_open _ _ H); naive_solver).
    case_bool_decide as Hid; intros [= <-].
    + apply Hin in Hid. rewrite Hid in Hm. split; [done|]. by apply (offered_fits b1).
    + destruct (Sub_done s0); [|naive_solver]. by split.
  - assert (Hopen : forall id, id ∈ order <-> exists s, Bro_heap b !! id = Some s /\ Sub_done s = false)
      by (intros id; by rewrite Hsubs, (sound_open _ _ H)).
    intros id. rewrite Hs, Hh, Hsubs, (sound_open _ _ H). case_bool_decide as Hc; rewrite Hopen in Hc; [|naive_solver].
    destruct Hc as (s & Hs1 & Hd). rewrite Hs1. split.
    + intros [_ Hno]. eexists. split; [done|]. rewrite offered_done by done. apply not_true_iff. naive_solver.
    + intros (s' & [= <-] & Hd'). rewrite offered_done in Hd' by done. split; [by exists s|].
      intros [_ (s2 & [= <-] & Hov)]. by rewrite Hd' in Hov.
  - etransitivity; [|exact (sound_size _ _ H)]. apply inj_le, subseteq_size. intros id Hid. by apply Hs in Hid as [? _].
  - apply (sound_capacity _ _ H).
  - apply (sound_buffer _ _ H).
Qed.

Lemma sound_subscribe b h id last allow replay b' : sound b h -> Bro_heap b !! id = None ->
  Subscribe id last allow b = (Ok replay, b') -> sound b' (subscribed id last replay h).
Proof.
  intros H Hnew. unfold Subscribe. case_if; [done|]. intros [= <- <-]. breflect. unfold subscribed.
  destruct H as [Hseq Hhist Hids Hserved Hopen Hsize Hcap Hbuf]. split; cbn; try done.
  - intros x s. rewrite lookup_insert_Some. intros [[<- <-]|[Hne Hx]].
    + split; [|done]. exists (length (Log h)), []. cbn. unfold heard. cbn. by rewrite !lookup_insert_eq, drop_all.
    + destruct (Hserved _ _ Hx) as [(k & missed & Hk & Hle & Hs & Hm) Hf]. split; [|done].
      exists k, missed. unfold heard. cbn. by rewrite !lookup_insert_ne by done.
  - intros x. rewrite elem_of_union, elem_of_singleton, Hopen. destruct (decide (x = id)) as [->|Hne].
    + rewrite lookup_insert_eq. naive_solver.
    + rewrite lookup_insert_ne by done. naive_solver.
  - rewrite size_union, size_singleton; [lia|]. apply disjoint_singleton_l. rewrite Hopen. naive_solver.
Qed.

Lemma heard_took id e h x : heard x (took id e h) = if bool_decide (x = id) then heard id h ++ [e] else heard x h.
Proof.
  unfold took, heard at 1. cbn. case_bool_decide; [subst; by rewrite lookup_insert_eq|by rewrite lookup_insert_ne].
Qed.

Lemma sound_receive b h id e b' : sound b h -> receive id b = Some (e, b') -> sound b' (took id e h).
Proof.
  intros H. unfold receive. destruct (Bro_heap b !! id) as [s|] eqn:Hs; [|done].
  destruct (Sub_events s) as [|x rest] eqn:Hq; [done|]. intros [= -> <-].
  destruct H as [Hseq Hhist Hids Hserved Hopen Hsize Hcap Hbuf]. split; cbn; try done.
  - intros y t. rewrite lookup_insert_Some. intros [[<- <-]|[Hne Hy]].
    + destruct (Hserved _ _ Hs) as [(k & missed & Hk & Hle & Hl & Hm) Hf]. split.
      * exists k, missed. rewrite heard_took, bool_decide_true by done. rewrite Hq in Hl. by rewrite <- app_assoc.
      * unfold fits in *. rewrite Hq in Hf. cbn in *. rewrite len_cons in Hf. lia.
    + destruct (Hserved _ _ Hy) as [(k & missed & Hk & Hle & Hl & Hm) Hf]. split; [|done].
      exists k, missed. by rewrite heard_took, bool_decide_false by done.
  - intros y. rewrite Hopen. destruct (decide (y = id)) as [->|Hne].
    + rewrite lookup_insert_eq, Hs. naive_solver.
    + by rewrite lookup_insert_ne by done.
Qed.

Lemma sound_remove b h id : sound b h -> sound (remove id b) h.
Proof.
  intros H. destruct (remove_alike id b) as (subs & heap & Hb).
  pose proof (remove_subs id b) as Hsubs. pose proof (remove_heap id b) as Hheap. rewrite Hb in *. cbn in *.
  destruct H as [Hseq Hhist Hids Hserved Hopen Hsize Hcap Hbuf]. split; cbn; try done.
  - intros x t. rewrite Hheap. case_bool_decide; [|apply Hserved].
    intros (s & Hs & ->)%fmap_Some. destruct (Hserved _ _ Hs) as [Hk Hf]. split; [by apply served_closed|done].
  - intros x. rewrite Hsubs, elem_of_difference, elem_of_singleton, Hopen, Hheap. case_bool_decide as Hc.
    + destruct Hc as [-> Hin]. split; [naive_solver|]. intros (t & (s & _ & ->)%fmap_Some & Hd). done.
    + rewrite Hopen in Hc. naive_solver.
  - assert (Hle : (size subs <= size (Bro_subs b))%nat) by (apply subseteq_size; set_solver). lia.
Qed.

Lemma sound_closing order : forall b h, sound b h -> sound (Close order b) h.
Proof.
  intros b h H. unfold Close.
  assert (H1 : sound (b <| Bro_closed := true |>) h) by (destruct H; by split).
  revert H1. generalize (b <| Bro_closed := true |>). clear. induction order as [|id order IH]; intros b Hb; [done|].
  cbn [foldl]. apply IH. by apply sound_remove.
Qed.

Lemma offer_folds e order : forall b, alike b (foldl (offer e) b order).
Proof.
  induction order as [|id order IH]; intros b; cbn; [reflexivity|]. etransitivity; [apply offer_alike|apply IH].
Qed.
Lemma remove_folds order : forall b, alike b (foldl (fun b id => remove id b) b order).
Proof.
  induction order as [|id order IH]; intros b; cbn; [reflexivity|]. etransitivity; [apply remove_alike|apply IH].
Qed.

(** What the constructor fixes. *)
Definition fixed (b : Events) : string * Z * Z * Z := (Bro_epoch b, Bro_capacity b, Bro_buffer b, Bro_max b).

Lemma alike_fixed b b' : alike b b' -> fixed b' = fixed b.
Proof. by intros (subs & heap & ->). Qed.

Lemma reachable_fixed start b h : reachable start b h -> fixed b = fixed start.
Proof.
  induction 1 as [|b h order e _ IH _|b h id last allow replay b' _ IH _ Hs|b h id e b' _ IH Hr|b h id _ IH|b h order _ IH _].
  - done.
  - rewrite <- IH. unfold Publish. case_if; [done|]. by rewrite (alike_fixed _ _ (offer_folds _ _ _)).
  - rewrite <- IH. unfold Subscribe in Hs. case_if; [done|]. by injection Hs as _ <-.
  - rewrite <- IH. unfold receive in Hr. repeat case_match; simplify_eq. done.
  - rewrite <- IH. apply alike_fixed, remove_alike.
  - rewrite <- IH. unfold Close. by rewrite (alike_fixed _ _ (remove_folds _ _)).
Qed.

Lemma reachable_static epoch capacity buffer max start b h :
  NewEvents epoch capacity buffer max = Some start -> reachable start b h -> Bro_epoch b = epoch /\ Bro_capacity b = capacity.
Proof.
  intros Hnew Hr%reachable_fixed. unfold NewEvents in Hnew. case_if; [done|]. injection Hnew as <-. by injection Hr.
Qed.

Lemma closed_empty start b h :
  Bro_closed start = false -> reachable start b h -> Bro_closed b = true -> Bro_subs b = ∅.
Proof.
  intros Hstart. induction 1 as [|b h order e _ IH _|b h id last allow replay b' _ IH _ Hs|b h id e b' _ IH Hr|b h id _ IH|b h order _ IH Ho]; intros Hc.
  - congruence.
  - unfold Publish in *. destruct (Bro_closed b) eqn:Hb; [by apply IH|]. exfalso. revert Hc.
    by destruct (offer_folds (numbered b e) order (b <| Bro_seq := u64 (Bro_seq b + 1) |>
      <| Bro_history := (if len (Bro_history b) =? Bro_capacity b then drop 1 (Bro_history b) else Bro_history b) ++ [numbered b e] |>))
      as (? & ? & ->); cbn; rewrite Hb.
  - unfold Subscribe in Hs. case_if; [done|]. injection Hs as _ <-. cbn in Hc. breflect. congruence.
  - unfold receive in Hr. repeat case_match; simplify_eq. by apply IH.
  - destruct (remove_alike id b) as (? & ? & Hb). rewrite remove_subs, IH; [set_solver|]. rewrite Hb in Hc. exact Hc.
  - unfold Close. rewrite removes_subs. cbn. rewrite Ho, list_to_set_elements_L. set_solver.
Qed.

Lemma reachable_sound epoch capacity buffer max start b h :
  NewEvents epoch capacity buffer max = Some start -> reachable start b h -> sound b h.
Proof.
  intros Hnew Hr. induction Hr.
  - unfold NewEvents in Hnew. case_if; [done|]. injection Hnew as <-. breflect.
    split; cbn; rewrite ?size_empty; try done; try lia.
    intros id. split; [set_solver|]. intros (s & Hs & _). by rewrite lookup_empty in Hs.
  - by apply sound_publish.
  - by eapply sound_subscribe.
  - by eapply sound_receive.
  - by apply sound_remove.
  - by apply sound_closing.
Qed.

(** ** What a subscriber gets *)

Lemma id_seq_event epoch n : plain epoch -> 0 <= n < 2 ^ 64 -> id_seq (event_id epoch n) = n.
Proof. intros. unfold id_seq, event_id. rewrite cut_plain by done. cbn. by rewrite parse_itoa. Qed.

Lemma published_seq (b : Events) (h : past) i e : sound b h -> len (Log h) < 2 ^ 64 -> plain (Bro_epoch b) ->
  Log h !! i = Some e -> id_seq (Evt_ID e) = Z.of_nat i + 1.
Proof.
  intros H Hl Hp Hi. rewrite (sound_ids _ _ H Hl _ _ Hi). apply lookup_lt_Some in Hi. unfold len in Hl.
  apply id_seq_event; [done|lia].
Qed.

(** Numbered events after position [n]. *)
Lemma filter_after (allow : Event -> bool) (f : Event -> Z) (l : list Event) : forall start n,
  (forall i e, l !! i = Some e -> f e = Z.of_nat (start + i) + 1) ->
  filter (fun e => (Z.of_nat n <? f e) && allow e = true) l = allowed allow (drop (n - start) l).
Proof.
  induction l as [|e l IH]; intros start n Hf; [by rewrite drop_nil|].
  pose proof (Hf 0%nat e eq_refl) as He. assert (Hl : forall i x, l !! i = Some x -> f x = Z.of_nat (S start + i) + 1).
  { intros i x Hi. rewrite (Hf (S i) x Hi). lia. }
  specialize (IH (S start) n Hl). destruct (decide (n <= start)%nat) as [Hle|Hgt].
  - replace (n - start)%nat with 0%nat by lia. replace (n - S start)%nat with 0%nat in IH by lia.
    rewrite !drop_0 in *. rewrite !filter_cons, IH. assert (Hlt : (Z.of_nat n <? f e) = true) by (apply Z.ltb_lt; lia).
    rewrite Hlt. by destruct (allow e).
  - replace (n - start)%nat with (S (n - S start)) by lia. cbn [drop]. rewrite filter_cons_False; [exact IH|].
    rewrite andb_true_iff, Z.ltb_lt. lia.
Qed.

(** The events of a client that resumes after [n] of the events of an epoch. *)
Definition resumed (epoch : string) (capacity : Z) (log : list Event) (epoch' : string) (n : nat) (allow : Event -> bool) : list Event :=
  if bool_decide (epoch' = epoch /\ len log - capacity <= Z.of_nat n <= len log) then allowed allow (drop n log)
  else [{| Evt_ID := event_id epoch (len log); Evt_Kind := "snapshot_required"; Evt_Player := ""; Evt_Operation := ""; Evt_Principal := "" |}].

Lemma replay_exact epoch capacity buffer max start b h last allow epoch' (n : nat) :
  NewEvents epoch capacity buffer max = Some start -> reachable start b h ->
  len (Log h) < 2 ^ 64 -> plain epoch -> plain epoch' -> Z.of_nat n < 2 ^ 64 -> last = event_id epoch' (Z.of_nat n) ->
  replay_after last allow b = resumed epoch capacity (Log h) epoch' n allow.
Proof.
  intros Hnew Hr Hl Hp Hp' Hn ->. pose proof (reachable_sound _ _ _ _ _ _ _ Hnew Hr) as H.
  destruct (reachable_static _ _ _ _ _ _ _ Hnew Hr) as [He Hc].
  pose proof (sound_seq _ _ H Hl) as Hseq. pose proof (sound_history _ _ H) as Hhist. pose proof (sound_capacity _ _ H) as Hcap.
  assert (Hlen : len (Bro_history b) = len (Log h) `min` capacity).
  { rewrite Hhist, len_drop, <- Hc. unfold len. lia. }
  assert (Hgap : gap (event_id epoch' (Z.of_nat n)) b = negb (bool_decide (epoch' = epoch /\ len (Log h) - capacity <= Z.of_nat n <= len (Log h)))).
  { unfold gap, event_id. rewrite cut_plain, parse_itoa, He, Hseq, Hlen by (done || lia). cbn [negb is_some default]. cbn.
    unfold u64. rewrite Z.mod_small by (pose proof (len_nonneg (Log h)); lia).
    apply eq_true_iff_eq. bgoal. pose proof (len_nonneg (Log h)).
    destruct (decide (epoch' = epoch)) as [->|Hne]; [|naive_solver].
    split; [intros [[?|?]|?] [_ ?]; [done|lia..]|]. intros Hno.
    destruct (decide (len (Log h) < Z.of_nat n)); [by left; right|]. right. destruct (decide (len (Log h) - capacity <= Z.of_nat n)); [naive_solver lia|lia]. }
  unfold replay_after, resumed, snapshot_required. rewrite Hgap. case_bool_decide as Hwin; cbn [negb]; [|by rewrite He, Hseq].
  rewrite id_seq_event by (done || lia).
  rewrite Hhist, Hc. set (skip := (length (Log h) - Z.to_nat capacity)%nat).
  rewrite (filter_after allow (fun e => id_seq (Evt_ID e)) _ skip).
  - rewrite drop_drop. f_equal. f_equal. unfold len, skip in *. lia.
  - intros i e. rewrite lookup_drop. intros Hi. rewrite (published_seq b h _ e H Hl) by (by rewrite ?He). lia.
Qed.

(** Every subscription was given what its request asked for. *)
Definition answered (epoch : string) (capacity : Z) (h : past) (id : address) (allow : Event -> bool) : Prop :=
  exists k last replay, Since h !! id = Some k /\ (k <= length (Log h))%nat /\ Asked h !! id = Some (last, replay)
    /\ forall epoch' n, plain epoch' -> Z.of_nat n < 2 ^ 64 -> last = event_id epoch' (Z.of_nat n) ->
         replay = resumed epoch capacity (take k (Log h)) epoch' n allow.

Lemma answered_more epoch capacity h h' log id allow :
  Log h' = Log h ++ log -> Since h' !! id = Since h !! id -> Asked h' !! id = Asked h !! id ->
  answered epoch capacity h id allow -> answered epoch capacity h' id allow.
Proof.
  intros Hl Hs Ha (k & last & replay & Hk & Hle & Hask & Hr). exists k, last, replay.
  rewrite Hl, Hs, Ha, length_app, take_app_le by done. split_and!; try done. lia.
Qed.

Lemma offered_allow b e s : Sub_allow (offered b e s) = Sub_allow s.
Proof. unfold offered. by repeat case_if. Qed.

Lemma remove_allow id b x s : Bro_heap (remove id b) !! x = Some s -> exists s0, Bro_heap b !! x = Some s0 /\ Sub_allow s = Sub_allow s0.
Proof. rewrite remove_heap. case_bool_decide; [|naive_solver]. intros (s0 & ? & ->)%fmap_Some. by exists s0. Qed.

Lemma close_allow order : forall b x s, Bro_heap (Close order b) !! x = Some s ->
  exists s0, Bro_heap b !! x = Some s0 /\ Sub_allow s = Sub_allow s0.
Proof.
  intros b x s. unfold Close. change (Bro_heap b) with (Bro_heap (b <| Bro_closed := true |>)).
  generalize (b <| Bro_closed := true |>). clear b.
  induction order as [|id order IH]; intros b; cbn; [naive_solver|].
  intros (s1 & (s0 & Hs & Ha)%remove_allow & Hb)%IH. exists s0. by rewrite Hb.
Qed.

Lemma publish_allow order e b x s : order ≡ₚ elements (Bro_subs b) -> Bro_heap (Publish order e b) !! x = Some s ->
  exists s0, Bro_heap b !! x = Some s0 /\ Sub_allow s = Sub_allow s0.
Proof.
  intros Ho. unfold Publish. case_if; [naive_solver|]. set (b1 := b <| Bro_seq := _ |> <| Bro_history := _ |>).
  destruct (offers (numbered b e) order b1) as (_ & -> & _); [rewrite Ho; apply NoDup_elements| |].
  { intros id. by rewrite Ho, elem_of_elements. }
  case_bool_decide; [|naive_solver]. intros (s0 & ? & ->)%fmap_Some. exists s0. by rewrite offered_allow.
Qed.

Lemma reachable_answered epoch capacity buffer max start b h :
  NewEvents epoch capacity buffer max = Some start -> plain epoch -> reachable start b h -> len (Log h) < 2 ^ 64 ->
  forall id s, Bro_heap b !! id = Some s -> answered epoch capacity h id (Sub_allow s).
Proof.
  intros Hnew Hp. induction 1 as [|b h order e Hr IH Ho|b h id last allow replay b' Hr IH Hfresh Hs|b h id e b' Hr IH Hrec|b h id Hr IH|b h order Hr IH Ho];
    intros Hl x s Hx.
  - unfold NewEvents in Hnew. case_if; [done|]. by injection Hnew as <-.
  - destruct (publish_allow _ _ _ _ _ Ho Hx) as (s0 & Hs0 & ->). unfold published in *. case_if.
    + by apply IH.
    + cbn in Hl. rewrite len_snoc in Hl. eapply answered_more, IH; try done. lia.
  - destruct (decide (x = id)) as [->|Hne].
    + unfold Subscribe in Hs. case_if; [done|]. injection Hs as <- <-. cbn in Hx. rewrite lookup_insert_eq in Hx. injection Hx as <-.
      exists (length (Log h)), last, (replay_after last allow b). cbn. rewrite !lookup_insert_eq, firstn_all. split_and!; try done.
      intros epoch' n Hp' Hn Hlast. by eapply replay_exact.
    + eapply (answered_more _ _ h _ []); cbn; rewrite ?app_nil_r, ?lookup_insert_ne by done; try done.
      apply IH; [done|]. unfold Subscribe in Hs. case_if; [done|]. injection Hs as <- <-. cbn in Hx.
      by rewrite lookup_insert_ne in Hx.
  - assert (Hs0 : exists s0, Bro_heap b !! x = Some s0 /\ Sub_allow s = Sub_allow s0).
    { unfold receive in Hrec. repeat case_match; simplify_eq. cbn in Hx.
      apply lookup_insert_Some in Hx as [[<- <-]|[_ Hx]]; [by eexists|by exists s]. }
    destruct Hs0 as (s0 & Hs0 & ->). by apply IH.
  - apply remove_allow in Hx as (s0 & Hs0 & ->). by apply IH.
  - apply close_allow in Hx as (s0 & Hs0 & ->). by apply IH.
Qed.

(** ** What the client reads *)

Definition events_of (w : list (option Event)) : list Event := omap id w.

Lemma events_of_app w v : events_of (w ++ v) = events_of w ++ events_of v.
Proof. apply omap_app. Qed.

(** A first part that is complete when the rest follows. *)
Lemma prefix_then (w v a b : list Event) : w = a -> v `prefix_of` b -> w ++ v `prefix_of` a ++ b.
Proof. intros ->. apply prefix_app. Qed.

Lemma write_prefix t e w ok : write t e = (w, ok) ->
  events_of w `prefix_of` events_of [e] /\ (ok = true -> events_of w = events_of [e]).
Proof. unfold write. case_if; intros [= <- <-]; [split; [apply prefix_nil|done]|done]. Qed.

Lemma replay_prefix replay : forall trials w ok, write_replay replay trials = (w, ok) ->
  events_of w `prefix_of` replay /\ (ok = true -> events_of w = replay).
Proof.
  induction replay as [|e replay IH]; intros trials w ok; cbn; [by intros [= <- <-]|].
  destruct trials as [|t trials]; [intros [= <- <-]; split; [apply prefix_nil|done]|].
  destruct (write t (Some e)) as [w0 ok0] eqn:Hw. apply write_prefix in Hw as [Hpre Hok]. destruct ok0; cbn.
  - destruct (write_replay replay trials) as [more ok1] eqn:Hr. intros [= <- <-].
    destruct (IH _ _ _ Hr) as [H1 H2]. rewrite events_of_app, (Hok eq_refl). split; [by apply prefix_cons|].
    intros H. by rewrite (H2 H).
  - intros [= <- <-]. split; [|done]. etransitivity; [exact Hpre|]. by exists replay.
Qed.

Lemma loop_prefix turns : events_of (write_loop turns) `prefix_of` omap got turns.
Proof.
  induction turns as [|[w t] turns IH]; [done|]. destruct w as [| |e|]; cbn; try apply prefix_nil.
  - destruct (write t (Some e)) as [w0 ok0] eqn:Hw. apply write_prefix in Hw as [Hpre Hok]. destruct ok0; cbn.
    + rewrite events_of_app, (Hok eq_refl). by apply prefix_cons.
    + etransitivity; [exact Hpre|]. by exists (omap got turns).
  - destruct (write t None) as [w0 ok0] eqn:Hw. apply write_prefix in Hw as [Hpre Hok]. destruct ok0; cbn.
    + by rewrite events_of_app, (Hok eq_refl).
    + etransitivity; [exact Hpre|]. apply prefix_nil.
Qed.

Lemma stream_prefix replay trials first turns : events_of (stream replay trials first turns) `prefix_of` replay ++ omap got turns.
Proof.
  unfold stream. destruct (write_replay replay trials) as [w ok] eqn:Hr. apply replay_prefix in Hr as [Hpre Hok].
  destruct ok; cbn; [|by apply prefix_app_r]. specialize (Hok eq_refl).
  destruct (if len replay =? 0 then write first None else ([], true)) as [k ok] eqn:Hk.
  assert (Hkeep : events_of k = []).
  { destruct (len replay =? 0); [|by injection Hk as <- _]. apply write_prefix in Hk as [Hp _]. by apply prefix_nil_inv in Hp. }
  destruct ok; cbn; rewrite !events_of_app, Hkeep, Hok; apply prefix_app; [apply loop_prefix|apply prefix_nil].
Qed.

(** C28. Clients see the events without a gap.  Take any execution of the broker
    and a client that subscribed with the ID of the [n]-th event, whose stream
    took from its subscription what it heard.  The events that the stream sends
    are then, in order, a prefix of all events published after the [n]-th that
    the client may see, if the history still held them when it subscribed, and
    otherwise of the marker that asks for a snapshot followed by all events it
    may see published after the marker's position. *)
Theorem events_are_gapless epoch capacity buffer max start b h id s epoch' (n : nat) replay trials first turns :
  NewEvents epoch capacity buffer max = Some start -> plain epoch -> reachable start b h -> len (Log h) < 2 ^ 64 ->
  Bro_heap b !! id = Some s -> Asked h !! id = Some (event_id epoch' (Z.of_nat n), replay) ->
  plain epoch' -> Z.of_nat n < 2 ^ 64 -> omap got turns = heard id h ->
  exists k, Since h !! id = Some k /\ (k <= length (Log h))%nat /\
    events_of (stream replay trials first turns) `prefix_of`
      if bool_decide (epoch' = epoch /\ Z.of_nat k - capacity <= Z.of_nat n <= Z.of_nat k)
      then filter (fun e => Sub_allow s e = true) (drop n (Log h))
      else {| Evt_ID := event_id epoch (Z.of_nat k); Evt_Kind := "snapshot_required"; Evt_Player := "";
              Evt_Operation := ""; Evt_Principal := "" |}
           :: filter (fun e => Sub_allow s e = true) (drop k (Log h)).
Proof.
  intros Hnew Hp Hr Hl Hs Hask Hp' Hn Hgot.
  destruct (reachable_answered _ _ _ _ _ _ _ Hnew Hp Hr Hl _ _ Hs) as (k & last & replay' & Hk & Hle & Hask' & Hreplay).
  rewrite Hask in Hask'. injection Hask' as <- <-. specialize (Hreplay _ _ Hp' Hn eq_refl).
  destruct (sound_served _ _ (reachable_sound _ _ _ _ _ _ _ Hnew Hr) _ _ Hs) as [(k' & missed & Hk' & _ & Hserved & _) _].
  rewrite Hk in Hk'. injection Hk' as <-. exists k. split_and!; [done..|].
  assert (Hlen : len (take k (Log h)) = Z.of_nat k) by (unfold len; rewrite length_take; lia).
  etransitivity; [apply stream_prefix|]. rewrite Hgot, Hreplay. unfold resumed. rewrite Hlen.
  case_bool_decide as Hwin; [|cbn; apply prefix_cons; rewrite <- Hserved, app_assoc; apply prefix_app_r; by eexists].
  rewrite <- (take_drop k (Log h)) at 2. rewrite drop_app_le by (rewrite length_take; lia).
  rewrite filter_app, <- Hserved. apply prefix_app. by eexists.
Qed.

(** An open subscription misses nothing.  Whatever happened, what its reader
    took and what waits in its buffer is all that was published since and that
    it may see; the buffer, the history and the number of subscriptions stay
    within their bounds, a closed broker has none, and a subscription is open
    exactly while the broker knows it, so its channel is never closed twice. *)
Theorem open_subscriptions_complete epoch capacity buffer max start b h :
  NewEvents epoch capacity buffer max = Some start -> reachable start b h ->
  len (Bro_history b) <= capacity /\ Z.of_nat (size (Bro_subs b)) <= max /\ (Bro_closed b = true -> Bro_subs b = ∅)
  /\ (forall id, id ∈ Bro_subs b <-> exists s, Bro_heap b !! id = Some s /\ Sub_done s = false)
  /\ forall id s, Bro_heap b !! id = Some s ->
       len (Sub_events s) <= buffer
       /\ (Sub_done s = false -> exists k, Since h !! id = Some k
             /\ heard id h ++ Sub_events s = filter (fun e => Sub_allow s e = true) (drop k (Log h))).
Proof.
  intros Hnew Hr. pose proof (reachable_sound _ _ _ _ _ _ _ Hnew Hr) as H.
  pose proof (reachable_fixed _ _ _ Hr) as Hfix. unfold NewEvents in Hnew. case_if; [done|].
  assert (Hfixed : Bro_capacity b = capacity /\ Bro_buffer b = buffer /\ Bro_max b = max).
  { injection Hnew as <-. by injection Hfix. }
  destruct Hfixed as (Hc & Hb & Hm). split_and!.
  - rewrite (sound_history _ _ H), len_drop, Hc. breflect. unfold len. lia.
  - rewrite <- Hm. apply (sound_size _ _ H).
  - eapply (closed_empty start); [|done]. by injection Hnew as <-.
  - apply (sound_open _ _ H).
  - intros id s Hs. destruct (sound_served _ _ H _ _ Hs) as [(k & missed & Hk & _ & Hserved & Hmiss) Hfits].
    split; [by rewrite <- Hb|]. intros Hd. exists k. specialize (Hmiss Hd) as ->. by rewrite app_nil_r in Hserved.
Qed.

(** ** A client that reconnects *)

Definition notice (player : string) : Event :=
  {| Evt_ID := ""; Evt_Kind := "player_changed"; Evt_Player := player; Evt_Operation := ""; Evt_Principal := "" |}.
Definition in_kitchen (e : Event) : bool := Evt_Player e == "kitchen".
Definition sample_broker : Events := default (Build_Events "" 0 [] 0 0 0 ∅ ∅ true) (NewEvents "e" 2 1 4).
Definition published_three : Events :=
  Publish [] (notice "kitchen") (Publish [] (notice "bath") (Publish [] (notice "kitchen") sample_broker)).
Definition resumed_stream : Result (list Event) * Events := Subscribe 0%nat "e:1" in_kitchen published_three.
Definition sample_replay : list Event := match resumed_stream.1 with Ok replay => replay | Err _ => [] end.
Definition sample_later : Events := Publish [0%nat] (notice "kitchen") resumed_stream.2.
Definition sample_received : Event * Events := default (notice "", sample_later) (receive 0%nat sample_later).
Definition sample_past : past :=
  took 0%nat sample_received.1 (published resumed_stream.2 (notice "kitchen") (subscribed 0%nat "e:1" sample_replay
    (published (Publish [] (notice "bath") (Publish [] (notice "kitchen") sample_broker)) (notice "kitchen")
      (published (Publish [] (notice "kitchen") sample_broker) (notice "bath")
        (published sample_broker (notice "kitchen") {| Log := []; Asked := ∅; Since := ∅; Heard := ∅ |}))))).

Lemma sample_reachable : reachable sample_broker sample_received.2 sample_past.
Proof.
  eapply by_receive with (b := sample_later); [|vm_compute; reflexivity].
  apply by_publish; [|by vm_compute]. eapply by_subscribe with (b := published_three) (last := "e:1") (allow := in_kitchen);
    [|reflexivity|vm_compute; reflexivity].
  do 3 (apply by_publish; [|by vm_compute]). apply at_start.
Qed.

Definition good_trial : trial :=
  {| Try_cancelled := false; Try_done := false; Try_deadline := true; Try_sent := true; Try_flushed := true |}.
Definition sample_stream : list (option Event) :=
  stream sample_replay [good_trial] good_trial [(Got sample_received.1, good_trial)].

Lemma events_are_gapless_witness :
  map Evt_ID (events_of sample_stream) = ["e:3"; "e:4"]
  /\ events_of sample_stream `prefix_of` filter (fun e => in_kitchen e = true) (drop 1 (Log sample_past)).
Proof.
  split; [by vm_compute|].
  destruct (events_are_gapless "e" 2 1 4 sample_broker sample_received.2 sample_past 0%nat
              {| Sub_events := []; Sub_done := false; Sub_allow := in_kitchen |} "e" 1 sample_replay [good_trial] good_trial
              [(Got sample_received.1, good_trial)] ltac:(by vm_compute) ltac:(by vm_compute) sample_reachable
              ltac:(by vm_compute) ltac:(by vm_compute) ltac:(by vm_compute) ltac:(by vm_compute) ltac:(by vm_compute)
              ltac:(by vm_compute)) as (k & Hk & _ & Hpre).
  vm_compute in Hk. injection Hk as <-. exact Hpre.
Defined.

Lemma open_subscriptions_complete_witness : Z.of_nat (size (Bro_subs sample_received.2)) <= 4.
Proof.
  destruct (open_subscriptions_complete "e" 2 1 4 sample_broker sample_received.2 sample_past ltac:(by vm_compute) sample_reachable)
    as (_ & H & _). exact H.
Defined.
