(* ===== verification/History.v ===== *)
(** * The history of operations ([internal/journal/history.go],
    [queries/history.sql])

    One page of the operations that a credential may see, newest first, and the
    position from which the next page continues.  [collate] is the collation of
    the database, which orders IDs; times are instants in UTC. *)

From S2P Require Import Prelude GoStd Values Model Diagnostics Errors Json JournalModel Journal.

Record HistoryPosition := { HP_CreatedAt : Time; HP_ID : string }.

Record HistoryQuery := {
  HQ_Principal : string;
  HQ_Operator : bool;
  HQ_Players : list string;
  HQ_Player : string;
  HQ_State : string;
  HQ_Kind : string;
  HQ_Delivery : string;
  HQ_CreatedFrom : option Time;
  HQ_CreatedBefore : option Time;
  HQ_Before : option HistoryPosition;
  HQ_Limit : Z
}.
#[export] Instance HistoryQuery_eta : Eta HistoryQuery := fun q =>
  {| HQ_Principal := HQ_Principal q; HQ_Operator := HQ_Operator q; HQ_Players := HQ_Players q; HQ_Player := HQ_Player q;
     HQ_State := HQ_State q; HQ_Kind := HQ_Kind q; HQ_Delivery := HQ_Delivery q; HQ_CreatedFrom := HQ_CreatedFrom q;
     HQ_CreatedBefore := HQ_CreatedBefore q; HQ_Before := HQ_Before q; HQ_Limit := HQ_Limit q |}.

Record HistoryPage := { HPage_Items : list Operation; HPage_Next : option HistoryPosition }.

(** ** Validation *)

(** The first instant of the year 10000, whose year has five digits. *)
Definition year10000 : Time := 3652059 * 24 * 60 * Minute.
Definition historyTimeValid (t : Time) : bool := negb (isZero t) && (0 <=? t) && (t <? year10000).
Definition Microsecond : Duration := 1000.

Definition history_states : list string :=
  "" :: map State_string [Accepted; Running; Succeeded; Failed; Cancelled; Released; Interrupted; Uncertain].
Definition history_kinds : list string := ["alarm"; "playback"; "volume"; "mute"; "transport"; "skip"; "stop"; "cancel"].
Definition history_deliveries : list string := [""; "confirmed"; "rejected"; "not_sent"; "unknown"].

Definition time_bad (t : option Time) : bool := match t with Some t => negb (historyTimeValid t) | None => false end.
Definition position_bad (p : option HistoryPosition) : bool :=
  match p with
  | Some p => negb (textWithin (HP_ID p) 256) || negb (historyTimeValid (HP_CreatedAt p))
              || negb (HP_CreatedAt p mod Microsecond =? 0)
  | None => false
  end.

Definition HistoryQuery_validate (q : HistoryQuery) : option error :=
  first_match [
    (negb (textWithin (HQ_Principal q) 256) || (16 <? len (HQ_Players q)) || (HQ_Limit q <? 1) || (100 <? HQ_Limit q),
       Some (ESentinel JErrInvalid));
    (existsb (fun player => negb (textWithin player 256)) (HQ_Players q), Some (ESentinel JErrInvalid));
    ((HQ_Player q != "") && negb (textWithin (HQ_Player q) 256), Some (ESentinel JErrInvalid));
    (negb (HQ_State q in? history_states), Some (ESentinel JErrInvalid));
    (negb (HQ_Kind q in? ("" :: history_kinds)), Some (ESentinel JErrInvalid));
    (negb (HQ_Delivery q in? history_deliveries), Some (ESentinel JErrInvalid));
    (time_bad (HQ_CreatedFrom q) || time_bad (HQ_CreatedBefore q), Some (ESentinel JErrInvalid));
    (match HQ_CreatedFrom q, HQ_CreatedBefore q with Some from, Some before => before <=? from | _, _ => false end,
       Some (ESentinel JErrInvalid));
    (position_bad (HQ_Before q), Some (ESentinel JErrInvalid))] None.

(** The ceiling of a bound on the grid of microseconds that the database stores. *)
Definition historyTimestamp (t : Time) : Time :=
  let bound := t - t mod Microsecond in
  if negb (bound =? t) then bound + Microsecond else bound.

(** ** The query *)

(** [outcome->>'delivery' = $7] for one of the names that [validate] lets through. *)
Definition delivery_is (name : string) (outcome : json) : bool :=
  match outcome with
  | JObject fields => match get_field "delivery" fields with Some (JString s) => s == name | _ => false end
  | _ => false
  end.

Section history.
Context (collate : relation string) {collate_dec : RelDecision collate}.

(** [ORDER BY created_at DESC, id DESC]. *)
Definition newest (a b : Operation) : Prop :=
  Op_CreatedAt b < Op_CreatedAt a \/ (Op_CreatedAt b = Op_CreatedAt a /\ collate (Op_ID b) (Op_ID a)).
#[export] Instance newest_dec : RelDecision newest.
Proof using collate_dec. intros a b. unfold newest. apply _. Defined.

(** [(created_at, id) < (before_time, before_id)]. *)
Definition before (p : HistoryPosition) (o : Operation) : Prop :=
  Op_CreatedAt o < HP_CreatedAt p
  \/ (Op_CreatedAt o = HP_CreatedAt p /\ collate (Op_ID o) (HP_ID p) /\ Op_ID o <> HP_ID p).
#[export] Instance before_dec p o : Decision (before p o).
Proof using collate_dec. unfold before. apply _. Defined.

Definition selected (q : HistoryQuery) (o : Operation) : bool :=
  (Op_Player o in? HQ_Players q)
  && (HQ_Operator q || (Op_Principal o == HQ_Principal q))
  && ((HQ_Player q == "") || (Op_Player o == HQ_Player q))
  && ((HQ_State q == "") || (State_string (Op_State o) == HQ_State q))
  && ((HQ_Kind q == "") || (Op_Kind o == HQ_Kind q))
  && ((HQ_Delivery q == "") || delivery_is (HQ_Delivery q) (Op_Outcome o))
  && match HQ_CreatedFrom q with Some from => historyTimestamp from <=? Op_CreatedAt o | None => true end
  && match HQ_CreatedBefore q with Some until => Op_CreatedAt o <? historyTimestamp until | None => true end
  && match HQ_Before q with Some p => bool_decide (before p o) | None => true end.

Definition ListOperationHistory (d : database) (q : HistoryQuery) (limit : Z) : list Operation :=
  take (Z.to_nat limit)
    (merge_sort newest (filter (fun o => selected q o = true) (map snd (map_to_list (DB_operations d))))).

(** The columns that the projection needs; the others keep their zero values. *)
Definition listed (o : Operation) : Operation := {|
  Op_ID := Op_ID o; Op_Kind := Op_Kind o; Op_Player := Op_Player o; Op_DeviceKey := ""; Op_Principal := ""; Op_Epoch := "";
  Op_State := Op_State o; Op_Revision := Op_Revision o; Op_Phase := Op_Phase o; Op_ConfigRevision := Op_ConfigRevision o;
  Op_EffectiveArguments := JNull; Op_SelectedAlbum := Op_SelectedAlbum o; Op_Progress := Op_Progress o;
  Op_Outcome := Op_Outcome o; Op_ErrorCode := Op_ErrorCode o; Op_ScheduledFor := 0; Op_NotAfter := 0;
  Op_CreatedAt := Op_CreatedAt o; Op_UpdatedAt := Op_UpdatedAt o; Op_StartedAt := Op_StartedAt o; Op_FinishedAt := Op_FinishedAt o |}.

Definition position_of (o : Operation) : HistoryPosition := {| HP_CreatedAt := Op_CreatedAt o; HP_ID := Op_ID o |}.

(** [Store.List]; the read itself may fail. *)
Definition List (d : database) (failure : option error) (q : HistoryQuery) : Result HistoryPage :=
  match HistoryQuery_validate q with
  | Some e => Err e
  | None =>
      if len (HQ_Players q) =? 0 then Ok {| HPage_Items := []; HPage_Next := None |}
      else match failure with
           | Some e => Err (EWrap [e])
           | None =>
               let rows := ListOperationHistory d q (HQ_Limit q + 1) in
               let more := HQ_Limit q <? len rows in
               let rows := if more then take (Z.to_nat (HQ_Limit q)) rows else rows in
               Ok {| HPage_Items := map listed rows;
                     HPage_Next := if more then position_of <$> last rows else None |}
           end
  end.
End history.
