(* ===== verification/HistoryProps.v ===== *)
(** * Traversing the history

    The pages of a query, read one after the other while operations are
    admitted, change and are pruned.  [collate] is any total order. *)

From S2P Require Import Prelude GoStd Values Model Diagnostics Errors Json JournalModel Journal JournalSafety History.

Lemma mapped_sublist {A B} (f : A -> B) (l k : list A) : l `sublist_of` k -> map f l `sublist_of` map f k.
Proof. induction 1; cbn; by constructor. Qed.

Section traversal.
Context (collate : relation string) {collate_dec : RelDecision collate}.
Context {collate_po : PartialOrder collate} {collate_total : Total collate}.
#[local] Set Default Proof Using "All".

Local Abbreviation newest := (newest collate).
Local Abbreviation before := (before collate).

(** ** The order *)

#[local] Instance newest_total : Total newest.
Proof.
  intros a b. unfold History.newest. destruct (Z.lt_trichotomy (Op_CreatedAt a) (Op_CreatedAt b)) as [?|[He|?]]; [auto..|auto].
  destruct (collate_total (Op_ID a) (Op_ID b)); rewrite He; auto.
Qed.

#[local] Instance newest_transitive : Transitive newest.
Proof.
  intros a b c [Hab|[Hab Hi]] [Hbc|[Hbc Hj]]; [left; lia..|]. right. split; [lia|]. by etransitivity.
Qed.

(** [b] comes strictly after [a] in a listing. *)
Definition follows (a b : Operation) : Prop := before (position_of a) b.

Lemma before_trans p a b : before p a -> follows a b -> before p b.
Proof.
  intros [Hab|(Hab & Hi & Hn)] [Hbc|(Hbc & Hj & Hm)]; cbn in *; [left; lia..|].
  right. split_and!; [lia|by etransitivity|]. intros He. apply Hm.
  apply (anti_symm collate); [done|]. by rewrite He.
Qed.

Lemma follows_irreflexive a : ~ follows a a.
Proof. intros [?|(_ & _ & ?)]; [cbn in *; lia|done]. Qed.

Lemma newest_follows a b : newest a b -> Op_ID a <> Op_ID b -> follows a b.
Proof. intros [?|[? ?]] Hne; [by left|right]. by split_and!. Qed.

(** ** Rows *)

Definition rows (d : database) : list Operation := map snd (map_to_list (DB_operations d)).

Lemma rows_spec d o : journal_ok d -> o ∈ rows d <-> DB_operations d !! Op_ID o = Some o.
Proof.
  intros Hok. unfold rows. rewrite list_elem_of_fmap. split.
  - intros ([id x] & -> & Hin%elem_of_map_to_list). cbn. by rewrite (row_id _ _ (inv_rows _ _ Hok _ _ Hin)).
  - intros Ho. exists (Op_ID o, o). split; [done|]. by apply elem_of_map_to_list.
Qed.

Lemma rows_distinct d : journal_ok d -> NoDup (map Op_ID (rows d)).
Proof.
  intros Hok. unfold rows. rewrite map_map.
  assert (Heq : map (fun x => Op_ID x.2) (map_to_list (DB_operations d)) = map fst (map_to_list (DB_operations d))).
  { apply map_ext_in. intros [id x] Hin%list_elem_of_In%elem_of_map_to_list. cbn.
    by rewrite (row_id _ _ (inv_rows _ _ Hok _ _ Hin)). }
  rewrite Heq. apply NoDup_fst_map_to_list.
Qed.

(** The whole listing of a query. *)
Definition listing (d : database) (q : HistoryQuery) : list Operation :=
  merge_sort newest (filter (fun o => selected collate q o = true) (rows d)).

Lemma listing_in d q o : journal_ok d ->
  o ∈ listing d q <-> selected collate q o = true /\ DB_operations d !! Op_ID o = Some o.
Proof. intros Hok. unfold listing. by rewrite merge_sort_Permutation, list_elem_of_filter, rows_spec. Qed.

Lemma sorted_follows (l : list Operation) : StronglySorted newest l -> NoDup (map Op_ID l) -> StronglySorted follows l.
Proof.
  induction 1 as [|o l Hs IH Hall]; cbn; [constructor|]. intros [Hnin Hnd]%NoDup_cons. constructor; [by apply IH|].
  rewrite Forall_forall in *. intros x Hx. apply newest_follows; [by apply Hall|]. intros He. apply Hnin.
  rewrite He. by apply list_elem_of_fmap_2.
Qed.

Lemma listing_sorted d q : journal_ok d -> StronglySorted follows (listing d q).
Proof.
  intros Hok. apply sorted_follows; [apply StronglySorted_merge_sort; apply _|].
  unfold listing. rewrite merge_sort_Permutation. eapply sublist_NoDup; [exact (rows_distinct d Hok)|].
  apply mapped_sublist, sublist_filter.
Qed.

(** ** One page *)

(** A page holds the newest of the listing; the rest comes after its last row. *)
Lemma page_split d q : journal_ok d -> 1 <= HQ_Limit q -> HistoryQuery_validate q = None ->
  exists page rest, listing d q = page ++ rest /\ len page <= HQ_Limit q
    /\ List collate d None q = Ok {| HPage_Items := map listed page;
                                     HPage_Next := if len (HQ_Players q) =? 0 then None
                                                   else match rest with [] => None | _ => position_of <$> last page end |}
    /\ (len (HQ_Players q) = 0 -> listing d q = []) /\ (rest <> [] -> exists pre o, page = pre ++ [o]).
Proof.
  intros Hok Hlim Hv. unfold List. rewrite Hv. destruct (len (HQ_Players q) =? 0) eqn:Hp; breflect.
  - assert (Hnone : listing d q = []).
    { apply elem_of_nil_inv. intros o. rewrite listing_in by done. unfold selected.
      destruct (HQ_Players q); [|cbn in Hp; unfold len in Hp; cbn in Hp; lia]. rewrite bool_decide_false by set_solver. naive_solver. }
    exists [], []. rewrite Hnone. split_and!; try done. unfold len. cbn. lia.
  - unfold ListOperationHistory. fold (rows d). fold (listing d q).
    set (n := Z.to_nat (HQ_Limit q)). replace (Z.to_nat (HQ_Limit q + 1)) with (S n) by lia.
    exists (take n (listing d q)), (drop n (listing d q)). rewrite take_drop.
    assert (Hlen : (HQ_Limit q <? len (take (S n) (listing d q))) = match drop n (listing d q) with [] => false | _ => true end).
    { apply eq_true_iff_eq. bgoal. unfold len. rewrite length_take. pose proof (length_drop (listing d q) n) as Hd.
      destruct (drop n (listing d q)); cbn in Hd; split; try done; lia. }
    rewrite Hlen. split_and!; [done| | |lia|].
    + unfold len. rewrite length_take. lia.
    + do 2 f_equal; [f_equal|]; pose proof (length_drop (listing d q) n) as Hd; destruct (drop n (listing d q)) as [|o rest];
        rewrite ?take_take; cbn in Hd; try done.
      * by rewrite !take_ge by lia.
      * f_equal. lia.
      * by replace (n `min` S n)%nat with n by lia.
    + intros Hd. destruct (take n (listing d q)) as [|o l _] eqn:Ht using rev_ind; [|by eexists _, _].
      exfalso. apply (f_equal length) in Ht. rewrite length_take in Ht. cbn in Ht. apply Hd, nil_length_inv. rewrite length_drop. lia.
Qed.

(** ** Many pages *)

(** What PostgreSQL stores: rows of the journal, at microseconds of the calendar. *)
Definition stored (d : database) : Prop :=
  journal_ok d /\ forall id o, DB_operations d !! id = Some o -> position_bad (Some (position_of o)) = false.

Definition from (p : option HistoryPosition) (q : HistoryQuery) : HistoryQuery := q <| HQ_Before := p |>.

(** The pages of a query, the first from [q], each from the database as it is then;
    the flag tells whether the last page was reached. *)
Fixpoint traverse (ds : list database) (q : HistoryQuery) : Result (list Operation * bool) :=
  match ds with
  | [] => Ok ([], false)
  | d :: ds =>
      let? page := List collate d None q in
      match HPage_Next page with
      | None => Ok (HPage_Items page, true)
      | Some p => let? rest := traverse ds (from (Some p) q) in Ok (HPage_Items page ++ rest.1, rest.2)
      end
  end.

Lemma validate_from q p : HistoryQuery_validate q = None -> position_bad p = false -> HistoryQuery_validate (from p q) = None.
Proof using Type.
  unfold HistoryQuery_validate. intros Hq Hp. cbn [from HQ_Before HQ_Principal HQ_Operator HQ_Players HQ_Player HQ_State HQ_Kind
    HQ_Delivery HQ_CreatedFrom HQ_CreatedBefore HQ_Limit update]. rewrite Hp. revert Hq. by rule_cases.
Qed.

Lemma selected_from q p o :
  selected collate (from p q) o = selected collate (from None q) o && match p with Some p => bool_decide (before p o) | None => true end.
Proof using Type. unfold selected. cbn. by rewrite andb_true_r. Qed.

Lemma selected_split q o :
  selected collate q o = selected collate (from None q) o && match HQ_Before q with Some p => bool_decide (before p o) | None => true end.
Proof using Type. unfold selected. cbn. by rewrite andb_true_r. Qed.

Lemma validate_limit q : HistoryQuery_validate q = None -> 1 <= HQ_Limit q.
Proof using Type. unfold HistoryQuery_validate. rule_cases; try done. intros _. breflect. lia. Qed.

Lemma selected_before q o p : selected collate q o = true -> follows o p ->
  match HQ_Before q with Some b => bool_decide (before b p) = true | None => True end.
Proof.
  intros Hs Hf. unfold selected in Hs. destruct (HQ_Before q) as [b|]; [|done]. breflect. by eapply before_trans.
Qed.

(** What follows a selected row is selected exactly when its page continues there. *)
Lemma selected_next q o x : selected collate q o = true ->
  selected collate (from (Some (position_of o)) q) x = true <-> follows o x /\ selected collate q x = true.
Proof.
  intros Ho. pose proof (selected_before q o x Ho) as Hb. rewrite selected_from, (selected_split q x). bgoal.
  fold (follows o x). destruct (HQ_Before q); bgoal; [|naive_solver]. rewrite bool_decide_eq_true in Hb. naive_solver.
Qed.

Lemma sorted_listed l : StronglySorted follows l -> StronglySorted follows (map listed l).
Proof using Type.
  induction 1 as [|x l _ IH Hall]; cbn; constructor; [done|]. rewrite Forall_forall in *.
  intros y (z & -> & Hz)%list_elem_of_fmap. exact (Hall z Hz).
Qed.

Lemma follows_nodup l : StronglySorted follows l -> NoDup (map position_of l).
Proof.
  induction 1 as [|x l _ IH Hall]; cbn; constructor; [|done]. rewrite Forall_forall in Hall.
  intros (y & He & Hy)%list_elem_of_fmap. apply (follows_irreflexive y). unfold follows. rewrite <- He. exact (Hall y Hy).
Qed.

(** One page, and what its continuation still has to list. *)
Record page_good (d : database) (q : HistoryQuery) (page : HistoryPage) : Prop := {
  page_sorted : StronglySorted follows (HPage_Items page);
  page_visible : forall o, o ∈ HPage_Items page ->
    exists x, DB_operations d !! Op_ID o = Some x /\ o = listed x /\ selected collate q x = true;
  page_whole : HPage_Next page = None -> forall x,
    DB_operations d !! Op_ID x = Some x -> selected collate q x = true -> listed x ∈ HPage_Items page;
  page_next : forall p, HPage_Next page = Some p ->
    exists o, p = position_of o /\ DB_operations d !! Op_ID o = Some o /\ selected collate q o = true
      /\ (forall a x, a ∈ HPage_Items page -> follows o x -> follows a x)
      /\ forall x, DB_operations d !! Op_ID x = Some x -> selected collate q x = true ->
           listed x ∈ HPage_Items page \/ follows o x
}.

Lemma List_page d q : journal_ok d -> HistoryQuery_validate q = None ->
  exists page, List collate d None q = Ok page /\ page_good d q page.
Proof.
  intros Hok Hv. destruct (page_split d q Hok (validate_limit _ Hv) Hv) as (page & rest & Hlist & _ & -> & Hnone & Hlast).
  eexists. split; [reflexivity|]. pose proof (listing_sorted d q Hok) as Hsort. rewrite Hlist in Hsort.
  assert (Hin : forall o, o ∈ page ++ rest <-> selected collate q o = true /\ DB_operations d !! Op_ID o = Some o)
    by (intros o; rewrite <- Hlist; by apply listing_in).
  apply StronglySorted_app in Hsort as (Hbetween & Hfirst & _). split; cbn [HPage_Items HPage_Next].
  - by apply sorted_listed.
  - intros o (x & -> & Hx)%list_elem_of_fmap. exists x. assert (x ∈ page ++ rest) as [? ?]%Hin by set_solver. done.
  - intros Hend x Hx Hs. apply list_elem_of_fmap_2. assert (Hx' : x ∈ page ++ rest) by (by apply Hin).
    revert Hend. case_if; breflect.
    + rewrite Hnone in Hlist by done. rewrite <- Hlist in Hx'. by apply not_elem_of_nil in Hx'.
    + destruct rest as [|r rest]; [by rewrite app_nil_r in Hx'|]. destruct Hlast as (pre & o & ->); [done|]. by rewrite last_snoc.
  - intros p. case_if; [done|]. destruct rest as [|r rest]; [done|]. destruct Hlast as (pre & o & ->); [done|].
    rewrite last_snoc. intros [= <-]. exists o. destruct (proj1 (Hin o)) as [Hs Ho]; [set_solver|]. split_and!; [done..| |].
    + intros a x (y & -> & Hy)%list_elem_of_fmap Hf. apply elem_of_app in Hy as [Hy| ->%list_elem_of_singleton]; [|done].
      apply StronglySorted_app in Hfirst as (Hpre & _ & _). eapply before_trans; [|exact Hf]. apply (Hpre y o); set_solver.
    + intros x Hx Hsx. assert (Hx' : x ∈ (pre ++ [o]) ++ r :: rest) by (by apply Hin).
      apply elem_of_app in Hx' as [Hx'|Hx']; [left; by apply list_elem_of_fmap_2|right]. apply Hbetween; set_solver.
Qed.

(** An operation that every one of the databases has and the query selects. *)
Definition throughout (ds : list database) (q : HistoryQuery) (id : string) (t : Time) : Prop :=
  forall d, d ∈ ds -> exists o, DB_operations d !! id = Some o /\ Op_CreatedAt o = t /\ selected collate q o = true.

Lemma throughout_next d ds q o x : Forall stored ds -> selected collate q o = true -> follows o x ->
  throughout (d :: ds) q (Op_ID x) (Op_CreatedAt x) -> throughout ds (from (Some (position_of o)) q) (Op_ID x) (Op_CreatedAt x).
Proof.
  intros Hds Ho Hf Hid d' Hd'. destruct (Hid d' ltac:(set_solver)) as (z & Hz & Hzt & Hzs). exists z. split_and!; [done..|].
  apply selected_next; [done|]. split; [|done]. rewrite Forall_forall in Hds. destruct (Hds d' Hd') as [Hok _].
  pose proof (row_id _ _ (inv_rows _ _ Hok _ _ Hz)) as Hzid. unfold follows, History.before in *. by rewrite Hzid, Hzt.
Qed.

(** Pages of changing databases: ordered, visible, and complete at the end. *)
Lemma traverse_spec ds : forall q items fin,
  Forall stored ds -> HistoryQuery_validate q = None -> traverse ds q = Ok (items, fin) ->
  StronglySorted follows items
  /\ (forall o, o ∈ items -> exists d x, d ∈ ds /\ DB_operations d !! Op_ID o = Some x /\ o = listed x /\ selected collate q x = true)
  /\ (fin = true -> forall id t, throughout ds q id t -> exists o, o ∈ items /\ Op_ID o = id).
Proof.
  induction ds as [|d ds IH]; intros q items fin Hds Hv; cbn [traverse].
  { intros [= <- <-]. split_and!; [constructor|set_solver|done]. }
  apply Forall_cons in Hds as [[Hok Htimes] Hds]. destruct (List_page d q Hok Hv) as (page & -> & [Hs Hvis Hwhole Hnext]).
  cbn [Result_bind]. assert (Hhere : forall id t, throughout (d :: ds) q id t ->
    exists x, Op_ID x = id /\ Op_CreatedAt x = t /\ DB_operations d !! Op_ID x = Some x /\ selected collate q x = true).
  { intros id t Hid. destruct (Hid d ltac:(set_solver)) as (x & Hx & Hxt & Hxs). exists x.
    pose proof (row_id _ _ (inv_rows _ _ Hok _ _ Hx)) as Hxid. by rewrite Hxid. }
  destruct (HPage_Next page) as [p|].
  - destruct (Hnext p eq_refl) as (o & -> & Hrow & Hsel & Hafter & Hrest).
    destruct (traverse ds _) as [[items' fin']|e] eqn:Ht; cbn; [|done]. intros [= <- <-].
    destruct (IH _ _ _ Hds (validate_from _ _ Hv (Htimes _ _ Hrow)) Ht) as (Hs' & Hvis' & Hall'). split_and!.
    + apply StronglySorted_app. split_and!; [|done..]. intros a b Ha Hb.
      destruct (Hvis' b Hb) as (d' & y & _ & _ & -> & Hy). apply selected_next in Hy as [Hy _]; [|done]. by apply (Hafter a y).
    + intros x [(y & Hy)%Hvis|(d' & y & Hd' & Hy & -> & Hsy)%Hvis']%elem_of_app; [exists d, y; set_solver|].
      apply selected_next in Hsy as [_ Hsy]; [|done]. exists d', y. set_solver.
    + intros -> id t Hid. destruct (Hhere id t Hid) as (x & <- & <- & Hx & Hxs).
      destruct (Hrest x Hx Hxs) as [Hin|Hf]; [exists (listed x); set_solver|].
      destruct (Hall' eq_refl _ _ (throughout_next d ds q o x Hds Hsel Hf Hid)) as (y & Hy & Hyid). exists y. set_solver.
  - intros [= <- <-]. split_and!; [done| |].
    + intros x (y & Hy)%Hvis. exists d, y. set_solver.
    + intros _ id t Hid. destruct (Hhere id t Hid) as (x & <- & _ & Hx & Hxs). exists (listed x). split; [|done]. by apply Hwhole.
Qed.

Lemma traverse_total ds : forall q, Forall stored ds -> HistoryQuery_validate q = None -> exists items fin, traverse ds q = Ok (items, fin).
Proof.
  induction ds as [|d ds IH]; intros q Hds Hv; cbn [traverse]; [by eexists _, _|].
  apply Forall_cons in Hds as [[Hok Htimes] Hds]. destruct (List_page d q Hok Hv) as (page & -> & [_ _ _ Hnext]). cbn [Result_bind].
  destruct (HPage_Next page) as [p|]; [|by eexists _, _]. destruct (Hnext p eq_refl) as (o & -> & Ho & _).
  destruct (IH (from (Some (position_of o)) q) Hds) as (items & fin & ->); [|by eexists _, _].
  apply validate_from; [done|]. by eapply Htimes.
Qed.

(** ** What a query asks for *)

(** The rows a credential may see, and the filters that narrow them. *)
Definition wanted (q : HistoryQuery) (o : Operation) : Prop :=
  Op_Player o ∈ HQ_Players q /\ (HQ_Operator q = true \/ Op_Principal o = HQ_Principal q)
  /\ (HQ_Player q = "" \/ Op_Player o = HQ_Player q) /\ (HQ_State q = "" \/ State_string (Op_State o) = HQ_State q)
  /\ (HQ_Kind q = "" \/ Op_Kind o = HQ_Kind q) /\ (HQ_Delivery q = "" \/ delivery_is (HQ_Delivery q) (Op_Outcome o) = true)
  /\ (forall t, HQ_CreatedFrom q = Some t -> t <= Op_CreatedAt o) /\ (forall t, HQ_CreatedBefore q = Some t -> Op_CreatedAt o < t).

(** Rounding a bound up does not change which microseconds it admits. *)
Lemma historyTimestamp_exact t u : u mod Microsecond = 0 ->
  (historyTimestamp t <=? u) = (t <=? u) /\ (u <? historyTimestamp t) = (u <? t).
Proof using Type.
  unfold historyTimestamp, Microsecond. intros Hu. pose proof (Z.mod_pos_bound t 1000 ltac:(lia)).
  pose proof (Z.div_mod t 1000 ltac:(lia)). pose proof (Z.div_mod u 1000 ltac:(lia)).
  assert (t - t mod 1000 = 1000 * (t / 1000)) by lia.
  split; apply eq_true_iff_eq; case_if; bgoal; breflect; nia.
Qed.

Lemma selected_wanted q o : position_bad (Some (position_of o)) = false ->
  selected collate (from None q) o = true <-> wanted q o.
Proof using Type.
  unfold position_bad. cbn. intros Hp. breflect. unfold selected, wanted. cbn.
  destruct (historyTimestamp_exact (default 0 (HQ_CreatedFrom q)) (Op_CreatedAt o)) as [Hf _]; [done|].
  destruct (historyTimestamp_exact (default 0 (HQ_CreatedBefore q)) (Op_CreatedAt o)) as [_ Hb]; [done|].
  destruct (HQ_CreatedFrom q) as [t1|], (HQ_CreatedBefore q) as [t2|]; cbn in *; rewrite ?Hf, ?Hb; bgoal; naive_solver lia.
Qed.

(** C29. The pages of the history miss nothing.  Follow the cursors of a query
    while operations are admitted, change, finish and are pruned between the
    pages.  Nothing is listed twice and the order is newest first; every row
    listed was there, belongs to a player and (for anyone but an operator) to
    the principal of the credential, and passes the filters exactly; and once
    the last page is reached, every operation that was there and wanted all the
    while has been listed. *)
Theorem history_misses_nothing ds q items fin :
  Forall stored ds -> HistoryQuery_validate q = None -> HQ_Before q = None -> traverse ds q = Ok (items, fin) ->
  NoDup (map position_of items) /\ StronglySorted follows items
  /\ (forall o, o ∈ items -> exists d x, d ∈ ds /\ DB_operations d !! Op_ID o = Some x /\ o = listed x /\ wanted q x)
  /\ (fin = true -> forall id t, (forall d, d ∈ ds -> exists o, DB_operations d !! id = Some o /\ Op_CreatedAt o = t /\ wanted q o) ->
        exists o, o ∈ items /\ Op_ID o = id).
Proof.
  intros Hds Hv Hb Ht. destruct (traverse_spec ds q items fin Hds Hv Ht) as (Hs & Hvis & Hall).
  replace q with (from None q) in Hvis, Hall by (destruct q; cbn in *; by subst).
  assert (Hrow : forall d id o, d ∈ ds -> DB_operations d !! id = Some o -> position_bad (Some (position_of o)) = false).
  { rewrite Forall_forall in Hds. intros d id o Hd. by apply (Hds d Hd). }
  split_and!; [by apply follows_nodup|done| |].
  - intros o Ho. destruct (Hvis o Ho) as (d & x & Hd & Hx & -> & Hsel). exists d, x. split_and!; [done..|].
    apply selected_wanted; [by eapply Hrow|done].
  - intros Hfin id t Hid. apply (Hall Hfin id t). intros d Hd. destruct (Hid d Hd) as (o & Ho & Hot & Hw).
    exists o. split_and!; [done..|]. apply selected_wanted; [by eapply Hrow|done].
Qed.

(** ** An unchanged journal *)

Lemma listing_next d q page rest o : journal_ok d -> listing d q = (page ++ [o]) ++ rest ->
  listing d (from (Some (position_of o)) q) = rest.
Proof.
  intros Hok Hl. pose proof (listing_sorted d q Hok) as Hs. rewrite Hl in Hs.
  apply StronglySorted_app in Hs as (Hbetween & Hpage & Hrest). apply StronglySorted_app in Hpage as (Hpage & _).
  assert (Hin : forall x, x ∈ (page ++ [o]) ++ rest <-> selected collate q x = true /\ DB_operations d !! Op_ID x = Some x)
    by (intros x; rewrite <- Hl; by apply listing_in).
  assert (Ho : selected collate q o = true) by (apply (Hin o); set_solver).
  apply (StronglySorted_unique_strong follows).
  - intros a b _ _ Hab Hba. exfalso. eapply follows_irreflexive, before_trans; [exact Hab|exact Hba].
  - by apply listing_sorted.
  - done.
  - apply NoDup_Permutation; [eapply NoDup_fmap_1, follows_nodup; by apply listing_sorted|
      eapply NoDup_fmap_1, follows_nodup, Hrest|].
    intros x. rewrite listing_in, selected_next by done. split.
    + intros [[Hf Hsel] Hx]. assert (Hx' : x ∈ (page ++ [o]) ++ rest) by (by apply Hin).
      apply elem_of_app in Hx' as [Hx'|]; [exfalso|done]. apply elem_of_app in Hx' as [Hx'| ->%list_elem_of_singleton].
      * eapply follows_irreflexive, before_trans; [exact Hf|]. apply Hpage; set_solver.
      * by eapply follows_irreflexive.
    + intros Hx. destruct (proj1 (Hin x)) as [Hsel Hrow]; [set_solver|]. split_and!; [|done..]. apply Hbetween; set_solver.
Qed.

Lemma traverse_exact d n : stored d -> forall q,
  HistoryQuery_validate q = None -> (length (listing d q) < n)%nat ->
  traverse (replicate n d) q = Ok (map listed (listing d q), true).
Proof.
  intros [Hok Htimes]. induction n as [|n IH]; intros q Hv Hn; [lia|]. cbn [traverse replicate].
  pose proof (validate_limit _ Hv) as Hlim.
  destruct (page_split d q Hok Hlim Hv) as (page & rest & Hl & Hlen & -> & Hnone & Hlast). cbn [Result_bind HPage_Next HPage_Items].
  destruct (len (HQ_Players q) =? 0) eqn:Hp; [breflect; rewrite Hnone in Hl by done; rewrite Hnone by done; by destruct page|].
  destruct rest as [|r rest]; [by rewrite Hl, app_nil_r|]. destruct Hlast as (pre & o & ->); [done|]. rewrite last_snoc. cbn [fmap option_fmap option_map].
  assert (Ho : o ∈ listing d q) by (rewrite Hl; set_solver). apply listing_in in Ho as [_ Ho]; [|done].
  pose proof (listing_next d q pre (r :: rest) o Hok Hl) as Hnext.
  rewrite IH; [|apply validate_from; [done|by eapply Htimes]|].
  - cbn [Result_bind fst snd]. by rewrite Hnext, Hl, !map_app.
  - rewrite Hnext. rewrite Hl, !length_app in Hn. cbn in *. lia.
Qed.

(** An unchanged journal is listed exactly.  Following the cursors of a query
    ends, and the pages together are the wanted rows, sorted newest first: the
    same as one unlimited query. *)
Theorem history_pages_are_exact d q : stored d -> HistoryQuery_validate q = None -> HQ_Before q = None ->
  traverse (replicate (S (size (DB_operations d))) d) q
  = Ok (map listed (merge_sort newest (filter (fun o => selected collate q o = true) (map snd (map_to_list (DB_operations d))))), true).
Proof.
  intros Hd Hv _. apply traverse_exact; [done..|]. unfold listing. rewrite merge_sort_Permutation.
  pose proof (sublist_length _ _ (sublist_filter (fun o => selected collate q o = true) (rows d))) as Hle.
  unfold rows in Hle at 2. rewrite length_map, length_map_to_list in Hle. lia.
Qed.
End traversal.

(** ** At a small journal *)

Definition past_operation (id : string) (created : Time) : Operation :=
  Operation_zero <| Op_ID := id |> <| Op_Kind := "volume" |> <| Op_Player := "kitchen" |> <| Op_Principal := "alice" |>
    <| Op_State := Succeeded |> <| Op_Revision := 1 |> <| Op_CreatedAt := created |> <| Op_FinishedAt := Some created |>.
Definition journal_of (l : list Operation) : database :=
  {| DB_epoch := "e"; DB_ready := true; DB_operations := list_to_map (map (fun o => (Op_ID o, o)) l);
     DB_requests := ∅; DB_reservations := ∅ |}.
Definition sample_query : HistoryQuery := {|
  HQ_Principal := "alice"; HQ_Operator := false; HQ_Players := ["kitchen"]; HQ_Player := ""; HQ_State := ""; HQ_Kind := "";
  HQ_Delivery := ""; HQ_CreatedFrom := None; HQ_CreatedBefore := None; HQ_Before := None; HQ_Limit := 1 |}.
Definition first_journal : database := journal_of [past_operation "a" 1000; past_operation "b" 1000; past_operation "c" 3000].
(** Before the second page the newest one is pruned and another is admitted. *)
Definition next_journal : database := journal_of [past_operation "a" 1000; past_operation "b" 1000; past_operation "d" 4000].
Definition sample_traversal : Result (list Operation * bool) :=
  traverse String.le [first_journal; next_journal; next_journal] sample_query.
Definition sample_items : list Operation := match sample_traversal with Ok r => r.1 | Err _ => [] end.

Lemma stored_of (l : list Operation) :
  Forall (fun o => State_terminal (Op_State o) = is_some (Op_FinishedAt o) /\ 1 <= Op_Revision o
                   /\ position_bad (Some (position_of o)) = false) l -> stored (journal_of l).
Proof.
  intros Hl. rewrite Forall_forall in Hl. unfold journal_of.
  assert (Hrow : forall id o, list_to_map (M := gmap string Operation) (map (fun o => (Op_ID o, o)) l) !! id = Some o -> o ∈ l /\ Op_ID o = id).
  { intros id o Ho%elem_of_list_to_map_2. apply list_elem_of_fmap in Ho as (x & [= -> ->] & Hx). done. }
  split; [constructor; cbn|cbn]; try (intros; by simplify_map_eq).
  - intros id o [Hin Hid]%Hrow. destruct (Hl o Hin) as (? & ? & ?). by split.
  - intros id o [Hin _]%Hrow. by apply Hl.
Qed.

Local Ltac sample_rows := repeat (apply Forall_cons_2; [vm_compute; intuition congruence|]); apply Forall_nil_2.

Lemma history_misses_nothing_witness :
  map Op_ID sample_items = ["c"; "b"; "a"] /\ NoDup (map position_of sample_items).
Proof.
  assert (Ht : exists items, sample_traversal = Ok (items, true) /\ sample_items = items) by (vm_compute; by eexists).
  destruct Ht as (items & Ht & Hi). split; [by vm_compute|]. rewrite Hi.
  destruct (history_misses_nothing String.le [first_journal; next_journal; next_journal] sample_query items true) as (Hnd & _).
  - repeat apply Forall_cons_2; [apply stored_of; sample_rows..|apply Forall_nil_2].
  - by vm_compute.
  - reflexivity.
  - exact Ht.
  - exact Hnd.
Defined.

Lemma history_pages_are_exact_witness : exists items,
  traverse String.le (replicate 4 first_journal) sample_query = Ok (map listed items, true).
Proof.
  eexists. exact (history_pages_are_exact String.le first_journal sample_query
    ltac:(apply stored_of; sample_rows) ltac:(by vm_compute) eq_refl).
Defined.
