(* ===== verification/Config.v ===== *)
(** * Configuration ([internal/config/config.go], [readonly.go])

    The checks that a configuration and its credential file pass before the
    process starts.  Both arrive decoded; reading files is left out.  A failed
    check names its field.  [parse_addr] tells whether [netip.ParseAddr] accepts
    a text. *)

From S2P Require Import Prelude GoStd Values Model Json Views.
From Stdlib Require Import Ascii.

Record FieldError := { FE_field : string; FE_code : string; FE_message : string }.
Definition invalidField (field code message : string) : FieldError :=
  {| FE_field := field; FE_code := code; FE_message := message |}.

Record Database := {
  DBC_Host : string;
  DBC_Port : Z;
  DBC_Name : string;
  DBC_User : string;
  DBC_PasswordFile : string;
  DBC_CAFile : string;
  DBC_MaxConnections : Z;
  DBC_TimeoutSeconds : Z;
  DBC_LockTimeoutSeconds : Z
}.

Record Config := {
  Conf_LogLevel : string;
  Conf_Listen : string;
  Conf_CertFile : string;
  Conf_KeyFile : string;
  Conf_ShutdownSeconds : Z;
  Conf_Database : Database;
  Conf_CredentialsFile : string;
  Conf_Players : list PlayerConfig;
  Conf_Sources : list SourceConfig
}.

Record Credential := {
  Cred_Principal : string;
  Cred_TokenSHA256 : string;
  Cred_Scopes : list string;
  Cred_Players : list string
}.
(** A nil slice of credentials is [None]. *)
Record CredentialFile := { CF_Version : Z; CF_Credentials : option (list Credential) }.

(** ** The standard library *)

(** What precedes and follows the last [sep]. *)
Fixpoint cut_last (sep : ascii) (s : string) : option (string * string) :=
  match s with
  | EmptyString => None
  | String c rest =>
      match cut_last sep rest with
      | Some (a, b) => Some (String c a, b)
      | None => if c == sep then Some ("", rest) else None
      end
  end.

(** [net.SplitHostPort]. *)
Definition splitHostPort (s : string) : option (string * string) :=
  match cut_last ":" s with
  | None => None
  | Some (host, port) =>
      match s with
      | String "[" rest =>
          let '(inside, after, ok) := cut "]" rest in
          if negb ok || (after != String ":" port) || contains_byte 91 rest || contains_byte 93 after then None
          else Some (inside, port)
      | _ => if contains_byte 58 host || contains_byte 91 s || contains_byte 93 s then None else Some (host, port)
      end
  end.

(** A regular expression of one class and a bounded length, and lower-case hex. *)
Definition is_lower (b : Z) : bool := (97 <=? b) && (b <=? 122).
Definition KeyValid (s : string) : bool :=
  match s with
  | EmptyString => false
  | String c rest => (is_lower (byte_of c) || is_digit (byte_of c))
                     && all_bytes (fun b => is_lower b || is_digit b || (b =? 45)) rest && (slen rest <=? 63)
  end.
Definition is_hex (b : Z) : bool := is_digit b || ((97 <=? b) && (b <=? 102)) || ((65 <=? b) && (b <=? 70)).
Definition is_upper (b : Z) : bool := (65 <=? b) && (b <=? 90).
(** [hex.DecodeString] of 32 bytes, and [s == strings.ToLower(s)]. *)
Definition validDigest (s : string) : bool := all_bytes is_hex s && (slen s =? 64) && all_bytes (fun b => negb (is_upper b)) s.

(** [unicode.IsSpace]. *)
Definition is_space (r : Z) : bool :=
  r in? [9; 10; 11; 12; 13; 32; 133; 160; 5760; 8192; 8193; 8194; 8195; 8196; 8197; 8198; 8199; 8200; 8201; 8202; 8232; 8233; 8239; 8287; 12288].

(** ** The read-only part *)

Section identities.

(** The fields of a player that must be valid and new. *)
Definition player_checks (keys serials addresses : gset string) (p : PlayerConfig) : list (string * bool) :=
  let address := splitHostPort (Cfg_Address p) in
  [("key", negb (KeyValid (Cfg_Key p)) || (Cfg_Key p in? keys));
   ("serial", (Cfg_Serial p == "") || (256 <? slen (Cfg_Serial p)) || (Cfg_Serial p in? serials));
   ("address", (Cfg_Address p in? addresses)
               || match address with Some (host, port) => (host == "") || (port != "1265") | None => true end);
   ("fingerprint_sha256", negb (validDigest (Cfg_FingerprintSHA256 p)))].

Definition first_bad (field message : string) (checks : list (string * bool)) : option FieldError :=
  first_match (map (fun c => (c.2 : bool, Some (invalidField (field +:+ c.1) "invalid_value" message))) checks) None.

Definition check_player (i : nat) (keys serials addresses : gset string) (p : PlayerConfig) : option FieldError :=
  let field := "players[" +:+ itoa (Z.of_nat i) +:+ "]." in
  if Cfg_WritesEnabled p && negb (is_some (Cfg_VolumeCeiling p))
  then Some (invalidField (field +:+ "volume_ceiling") "required" "writes_enabled requires a verified volume_ceiling")
  else match first_bad field "invalid or duplicate player identity/address/pin; pinned TLS port 1265 required"
               (player_checks keys serials addresses p) with
       | Some e => Some e
       | None =>
           match Cfg_VolumeCeiling p with
           | Some c => if (c <? 0) || (100 <? c)
                       then Some (invalidField (field +:+ "volume_ceiling") "invalid_value" "volume_ceiling must be 0..100")
                       else None
           | None => None
           end
       end.

(** The loop over the players; it returns their keys. *)
Fixpoint check_players (i : nat) (keys serials addresses : gset string) (players : list PlayerConfig) : FieldError + gset string :=
  match players with
  | [] => inr keys
  | p :: rest =>
      match check_player i keys serials addresses p with
      | Some e => inl e
      | None => check_players (S i) ({[Cfg_Key p]} ∪ keys) ({[Cfg_Serial p]} ∪ serials) ({[Cfg_Address p]} ∪ addresses) rest
      end
  end.

Fixpoint check_sources (i : nat) (keys seen : gset string) (routes : gset (string * string)) (sources : list SourceConfig) : option FieldError :=
  match sources with
  | [] => None
  | s :: rest =>
      let field := "sources[" +:+ itoa (Z.of_nat i) +:+ "]." in
      let route := (SrcCfg_Player s, SrcCfg_Name s) in
      if negb (KeyValid (SrcCfg_Key s)) || (SrcCfg_Key s in? seen)
      then Some (invalidField (field +:+ "key") "invalid_value" "invalid source configuration")
      else if negb (SrcCfg_Player s in? keys)
      then Some (invalidField (field +:+ "player") "unknown_player" "invalid source configuration")
      else if (route in? routes) || (SrcCfg_Name s == "") || (256 <? slen (SrcCfg_Name s))
      then Some (invalidField (field +:+ "name") "invalid_value" "invalid source configuration")
      else check_sources (S i) keys ({[SrcCfg_Key s]} ∪ seen) ({[route]} ∪ routes) rest
  end.
End identities.

Definition validateReadOnly (c : Config) : option FieldError :=
  if 16 <? len (Conf_Players c)
  then Some (invalidField "players" "capacity_exceeded" "read-only configuration exceeds capacity")
  else if 16 <? len (Conf_Sources c)
  then Some (invalidField "sources" "capacity_exceeded" "read-only configuration exceeds capacity")
  else if (0 <? len (Conf_Players c)) && (Conf_CredentialsFile c == "")
  then Some (invalidField "credentials_file" "required" "configured players require credentials_file")
  else match check_players 0 ∅ ∅ ∅ (Conf_Players c) with
       | inl e => Some e
       | inr keys => check_sources 0 keys ∅ ∅ (Conf_Sources c)
       end.

(** ** The process *)

Section process.
Context (parse_addr : string -> bool).

Definition databaseTCPHost (host : string) : bool :=
  if (host == "") || any_byte (fun b => b in? map byte_of (String.list_ascii_of_string "/\@?#,[]")) host
     || existsb (fun r => match r with Some r => is_space r || isControl r | None => false end) (runes host)
  then false
  else if contains_byte 58 host then parse_addr host else true.

Definition missing_fields (d : Database) : list (string * bool) :=
  [("host", DBC_Host d == ""); ("port", DBC_Port d =? 0); ("name", DBC_Name d == ""); ("user", DBC_User d == "");
   ("password_file", DBC_PasswordFile d == ""); ("ca_file", DBC_CAFile d == "")].

Definition timeouts_message : string := "database timeout_seconds must be 1..30 and lock_timeout_seconds 1..timeout_seconds".

Definition Config_Validate (c : Config) : option FieldError :=
  let d := Conf_Database c in
  first_match
    ([(negb (Conf_LogLevel c in? [""; "debug"; "info"; "warn"; "error"]),
        Some (invalidField "log_level" "invalid_value" "log_level must be debug, info, warn or error"));
      (match splitHostPort (Conf_Listen c) with
       | Some (_, port) => match atoi port with Some p => (p <? 1024) || (65535 <? p) | None => true end
       | None => true
       end, Some (invalidField "listen" "invalid_value" "listen must use a numeric unprivileged TCP port"));
      (Conf_CertFile c == "", Some (invalidField "cert_file" "required" "API certificate and key files are required"));
      (Conf_KeyFile c == "", Some (invalidField "key_file" "required" "API certificate and key files are required"));
      ((Conf_ShutdownSeconds c <? 1) || (25 <? Conf_ShutdownSeconds c),
        Some (invalidField "shutdown_seconds" "invalid_value" "shutdown_seconds must be between 1 and 25"))]
     ++ map (fun f => (f.2 : bool, Some (invalidField ("database." +:+ f.1) "required"
               "database host, port, name, user, password_file and ca_file are required"))) (missing_fields d)
     ++ [(negb (databaseTCPHost (DBC_Host d)), Some (invalidField "database.host" "invalid_value"
            "database host must be one TCP hostname or IP address without a scheme, path or port"));
         ((DBC_MaxConnections d <? 1) || (16 <? DBC_MaxConnections d),
            Some (invalidField "database.max_connections" "invalid_value" "database max_connections must be between 1 and 16"));
         ((DBC_TimeoutSeconds d <? 1) || (30 <? DBC_TimeoutSeconds d),
            Some (invalidField "database.timeout_seconds" "invalid_value" timeouts_message));
         ((DBC_LockTimeoutSeconds d <? 1) || (DBC_TimeoutSeconds d <? DBC_LockTimeoutSeconds d),
            Some (invalidField "database.lock_timeout_seconds" "invalid_value" timeouts_message))])
    (validateReadOnly c).
End process.

(** ** Credentials *)

Definition known_scopes : list string := ["read"; "control"; "alarm"; "operator"].

(** The loops over the scopes and the players of one credential. *)
Fixpoint check_scopes (field : string) (seen : gset string) (scopes : list string) : option FieldError :=
  match scopes with
  | [] => None
  | s :: rest => if (s in? seen) || negb (s in? known_scopes)
                 then Some (invalidField (field +:+ "scopes") "invalid_scope" "invalid credential scope")
                 else check_scopes field ({[s]} ∪ seen) rest
  end.
Fixpoint check_allowed (field : string) (allowed seen : gset string) (players : list string) : option FieldError :=
  match players with
  | [] => None
  | p :: rest => if negb (p in? allowed) || (p in? seen)
                 then Some (invalidField (field +:+ "players") "unknown_player" "invalid credential player")
                 else check_allowed field allowed ({[p]} ∪ seen) rest
  end.

Definition check_credential (i : nat) (allowed principals tokens : gset string) (c : Credential) : option FieldError :=
  let field := "credentials[" +:+ itoa (Z.of_nat i) +:+ "]." in
  match first_bad field "invalid or duplicate credential"
          [("principal", negb (KeyValid (Cred_Principal c)) || (Cred_Principal c in? principals));
           ("token_sha256", negb (validDigest (Cred_TokenSHA256 c)) || (Cred_TokenSHA256 c in? tokens));
           ("scopes", (len (Cred_Scopes c) =? 0) || (4 <? len (Cred_Scopes c)));
           ("players", (len (Cred_Players c) =? 0) || (16 <? len (Cred_Players c)))] with
  | Some e => Some e
  | None => match check_scopes field ∅ (Cred_Scopes c) with
            | Some e => Some e
            | None => check_allowed field allowed ∅ (Cred_Players c)
            end
  end.

Fixpoint check_credentials (i : nat) (allowed principals tokens : gset string) (l : list Credential) : option FieldError :=
  match l with
  | [] => None
  | c :: rest =>
      match check_credential i allowed principals tokens c with
      | Some e => Some e
      | None => check_credentials (S i) allowed ({[Cred_Principal c]} ∪ principals) ({[Cred_TokenSHA256 c]} ∪ tokens) rest
      end
  end.

(** The file at [path], decoded or refused. *)
Definition LoadCredentials (path : string) (file : FieldError + CredentialFile) (players : list PlayerConfig) :
    FieldError + list Credential :=
  if path == "" then inr []
  else match file with
       | inl e => inl e
       | inr f =>
           if CF_Version f != 1
           then inl (invalidField "version" "unsupported_version" "invalid credential file version/capacity")
           else match CF_Credentials f with
                | None => inl (invalidField "credentials" "capacity_exceeded" "invalid credential file version/capacity")
                | Some l =>
                    if 64 <? len l
                    then inl (invalidField "credentials" "capacity_exceeded" "invalid credential file version/capacity")
                    else match check_credentials 0 (list_to_set (map Cfg_Key players)) ∅ ∅ l with
                         | Some e => inl e
                         | None => inr l
                         end
                end
       end.

(** ** Unambiguous JSON: the walk over the tokens of a text *)

Fixpoint walk (fuel : nat) (depth : Z) (tokens : list token) : option (list token) :=
  match fuel with
  | O => None
  | S fuel =>
      if 32 <? depth then None
      else match tokens with
           | [] => None
           | TOpenObject :: rest =>
               match walk_fields fuel depth [] rest with Some (TCloseObject :: rest) => Some rest | _ => None end
           | TOpenArray :: rest =>
               match walk_values fuel depth rest with Some (TCloseArray :: rest) => Some rest | _ => None end
           | TCloseObject :: _ | TCloseArray :: _ => None
           | _ :: rest => Some rest
           end
  end
with walk_fields (fuel : nat) (depth : Z) (seen : list string) (tokens : list token) : option (list token) :=
  match fuel with
  | O => None
  | S fuel =>
      if negb (more tokens) then Some tokens
      else match tokens with
           | TString name :: rest =>
               if name in? seen then None
               else match walk fuel (depth + 1) rest with
                    | Some rest => walk_fields fuel depth (name :: seen) rest
                    | None => None
                    end
           | _ => None
           end
  end
with walk_values (fuel : nat) (depth : Z) (tokens : list token) : option (list token) :=
  match fuel with
  | O => None
  | S fuel =>
      if negb (more tokens) then Some tokens
      else match walk fuel (depth + 1) tokens with
           | Some rest => walk_values fuel depth rest
           | None => None
           end
  end.

(** Whether a valid UTF-8 text of these tokens is accepted. *)
Definition UniqueJSON (utf8 : bool) (tokens : list token) : bool :=
  utf8 && match walk (S (2 * length tokens)) 0 tokens with Some [] => true | _ => false end.
