(* ===== verification/ConfigProps.v ===== *)
(** * What an accepted configuration guarantees *)

From S2P Require Import Prelude GoStd Values Model Json Views Config.

(** ** Loops that remember what they have seen *)

Lemma first_bad_none field message checks : first_bad field message checks = None <-> Forall (fun c => c.2 = false) checks.
Proof.
  unfold first_bad. induction checks as [|[name bad] checks IH]; cbn [map]; [done|].
  rewrite first_match_cons, Forall_cons. cbn. destruct bad; [|rewrite IH; naive_solver]. naive_solver.
Qed.

(** The keys of a list are new and distinct. *)
Definition fresh_keys {A B} `{Countable B} (key : A -> B) (seen : gset B) (l : list A) : Prop :=
  NoDup (map key l) /\ forall x, x ∈ l -> key x ∉ seen.

Lemma fresh_keys_cons {A B} `{Countable B} (key : A -> B) (seen : gset B) x l :
  fresh_keys key seen (x :: l) <-> (key x ∉ seen) /\ fresh_keys key ({[key x]} ∪ seen) l.
Proof.
  unfold fresh_keys. cbn. rewrite NoDup_cons. split.
  - intros [[Hnin Hnd] Hseen]. split_and!; [apply Hseen; set_solver|done|]. intros y Hy.
    rewrite not_elem_of_union, not_elem_of_singleton. split; [|apply Hseen; set_solver].
    intros He. apply Hnin. rewrite <- He. by apply list_elem_of_fmap_2.
  - intros (Hx & Hnd & Hseen). split_and!; [|done|].
    + intros (y & He & Hy)%list_elem_of_fmap. apply (Hseen y Hy). rewrite <- He. set_solver.
    + intros y [-> |Hy]%elem_of_cons; [done|]. specialize (Hseen y Hy). set_solver.
Qed.

Lemma fresh_keys_nil {A B} `{Countable B} (key : A -> B) (seen : gset B) : fresh_keys key seen [].
Proof. split; [constructor|set_solver]. Qed.

Lemma fresh_keys_empty {A B} `{Countable B} (key : A -> B) (l : list A) : fresh_keys key (∅ : gset B) l <-> NoDup (map key l).
Proof. unfold fresh_keys. set_solver. Qed.

(** ** Players and sources *)

(** A player that can be addressed, pinned and told from the others. *)
Record player_valid (p : PlayerConfig) : Prop := {
  pv_key : KeyValid (Cfg_Key p) = true;
  pv_serial : Cfg_Serial p <> "" /\ slen (Cfg_Serial p) <= 256;
  pv_address : exists host, splitHostPort (Cfg_Address p) = Some (host, "1265") /\ host <> "";
  pv_pin : validDigest (Cfg_FingerprintSHA256 p) = true;
  pv_ceiling : forall c, Cfg_VolumeCeiling p = Some c -> 0 <= c <= 100;
  pv_writes : Cfg_WritesEnabled p = true -> Cfg_VolumeCeiling p <> None
}.

Lemma address_valid a : match splitHostPort a with Some (host, port) => (host == "") || (port != "1265") | None => true end = false
  <-> exists host, splitHostPort a = Some (host, "1265") /\ host <> "".
Proof.
  destruct (splitHostPort a) as [[host port]|]; [|naive_solver]. bgoal. split; [intros [? ->]; by exists host|].
  intros (h & [= -> ->] & ?). done.
Qed.

Lemma check_player_none i keys serials addresses p : check_player i keys serials addresses p = None <->
  player_valid p /\ (Cfg_Key p ∉ keys) /\ (Cfg_Serial p ∉ serials) /\ (Cfg_Address p ∉ addresses).
Proof.
  unfold check_player. cbv zeta. destruct (Cfg_WritesEnabled p && negb (is_some (Cfg_VolumeCeiling p))) eqn:Hw.
  { breflect. split; [done|]. intros ([? ? ? ? ? Hwrites] & _). by destruct (Hwrites ltac:(done)). }
  match goal with |- context [first_bad ?f ?m ?l] => pose proof (first_bad_none f m l) as Hfirst; destruct (first_bad f m l) end.
  - split; [done|]. intros ([Hk [Hs1 Hs2] Ha Hp _ _] & H1 & H2 & H3). apply Hfirst. unfold player_checks.
    apply address_valid in Ha. repeat constructor; cbn; bgoal; auto.
  - destruct Hfirst as [Hall _]. specialize (Hall eq_refl). unfold player_checks in Hall. rewrite !Forall_cons in Hall.
    cbn in Hall. destruct Hall as (Hk & Hs & Ha & Hp & _). apply orb_false_iff in Ha as [Hnew Ha]. apply address_valid in Ha. breflect.
    split.
    + intros Hc. split_and!; try done. constructor; try done; [|intros Hwe; destruct Hw; [congruence|done]].
      intros c Hc'. rewrite Hc' in Hc. case_if; [done|]. breflect. lia.
    + intros ([? ? ? ? Hc ?] & _). destruct (Cfg_VolumeCeiling p) as [c|]; [|done]. specialize (Hc c eq_refl).
      case_if; [|done]. bsolve.
Qed.

Lemma check_players_spec players : forall i keys serials addresses result,
  check_players i keys serials addresses players = inr result <->
  Forall player_valid players /\ fresh_keys Cfg_Key keys players /\ fresh_keys Cfg_Serial serials players
  /\ fresh_keys Cfg_Address addresses players /\ result = list_to_set (map Cfg_Key players) ∪ keys.
Proof.
  induction players as [|p players IH]; intros i keys serials addresses result; cbn [check_players map list_to_set].
  { pose proof (fresh_keys_nil Cfg_Key keys). pose proof (fresh_keys_nil Cfg_Serial serials). pose proof (fresh_keys_nil Cfg_Address addresses).
    rewrite (left_id_L ∅ _). split; [intros [= ->]; by split_and!|]. by intros (_ & _ & _ & _ & ->). }
  pose proof (check_player_none i keys serials addresses p) as Hp. rewrite Forall_cons, !fresh_keys_cons.
  destruct (check_player i keys serials addresses p) as [e|]; [split; [done|]; intros H; assert (Some e = None) by (apply Hp; naive_solver); done|].
  destruct Hp as [Hp _]. specialize (Hp eq_refl). rewrite IH.
  assert (Hset : list_to_set (map Cfg_Key players) ∪ ({[Cfg_Key p]} ∪ keys) = {[Cfg_Key p]} ∪ list_to_set (map Cfg_Key players) ∪ keys) by set_solver.
  rewrite Hset. naive_solver.
Qed.

Record source_valid (keys : gset string) (s : SourceConfig) : Prop := {
  sv_key : KeyValid (SrcCfg_Key s) = true;
  sv_player : SrcCfg_Player s ∈ keys;
  sv_name : SrcCfg_Name s <> "" /\ slen (SrcCfg_Name s) <= 256
}.
Definition route (s : SourceConfig) : string * string := (SrcCfg_Player s, SrcCfg_Name s).

Lemma check_sources_spec sources : forall i keys seen routes,
  check_sources i keys seen routes sources = None <->
  Forall (source_valid keys) sources /\ fresh_keys SrcCfg_Key seen sources /\ fresh_keys route routes sources.
Proof.
  induction sources as [|s sources IH]; intros i keys seen routes; cbn [check_sources].
  { split; [|done]. intros _. split_and!; [done|apply fresh_keys_nil..]. }
  rewrite Forall_cons, !fresh_keys_cons. fold (route s). repeat case_if; breflect.
  - split; [done|]. intros ([[Hk _ _] _] & [Hnew _] & _). destruct_or?; [congruence|done].
  - split; [done|]. intros ([[_ Hp _] _] & _). done.
  - split; [done|]. intros ([[_ _ [Hn Hl]] _] & _ & [Hr _]). destruct_or?; [done|done|lia].
  - rewrite IH. split; [intros (? & ? & ?); by split_and!|]. by intros ((? & ?) & (? & ?) & (? & ?)).
Qed.

(** What the process relies on: players and sources that are few, valid and
    told apart by every name they go by. *)
Record coherent (c : Config) : Prop := {
  co_capacity : len (Conf_Players c) <= 16 /\ len (Conf_Sources c) <= 16;
  co_credentials : Conf_Players c <> [] -> Conf_CredentialsFile c <> "";
  co_players : Forall player_valid (Conf_Players c);
  co_distinct : NoDup (map Cfg_Key (Conf_Players c)) /\ NoDup (map Cfg_Serial (Conf_Players c))
                /\ NoDup (map Cfg_Address (Conf_Players c));
  co_sources : Forall (source_valid (list_to_set (map Cfg_Key (Conf_Players c)))) (Conf_Sources c);
  co_routes : NoDup (map SrcCfg_Key (Conf_Sources c)) /\ NoDup (map route (Conf_Sources c))
}.

Lemma len_not_positive {A} (l : list A) : (0 <? len l) = false <-> l = [].
Proof. bgoal. unfold len. destruct l; cbn; split; try done; lia. Qed.

Lemma validateReadOnly_spec c : validateReadOnly c = None <-> coherent c.
Proof.
  unfold validateReadOnly. case_if; breflect.
  { split; [done|]. intros [[? _] _ _ _ _ _]. lia. }
  case_if; breflect. { split; [done|]. intros [[_ ?] _ _ _ _ _]. lia. }
  destruct ((0 <? len (Conf_Players c)) && (Conf_CredentialsFile c == "")) eqn:Hcred.
  { breflect. split; [done|]. intros [_ Hc _ _ _ _]. exfalso. apply Hc; [|done]. intros He. rewrite He in *. by cbn in *. }
  assert (Hcred' : Conf_Players c <> [] -> Conf_CredentialsFile c <> "").
  { intros Hne Hf. rewrite Hf in Hcred. rewrite andb_false_iff, len_not_positive in Hcred. naive_solver. }
  destruct (check_players 0 ∅ ∅ ∅ (Conf_Players c)) as [e|keys] eqn:Hp.
  - split; [done|]. intros [_ _ Hv (Hk & Hs & Ha) _ _]. exfalso.
    assert (Hok : check_players 0 ∅ ∅ ∅ (Conf_Players c) = inr (list_to_set (map Cfg_Key (Conf_Players c)) ∪ ∅)).
    { apply check_players_spec. by rewrite !fresh_keys_empty. }
    congruence.
  - apply check_players_spec in Hp as (Hv & Hk & Hs & Ha & ->). rewrite fresh_keys_empty in *. rewrite (right_id_L ∅ _).
    rewrite check_sources_spec, !fresh_keys_empty. split; [intros (? & ? & ?); by split|by intros []].
Qed.

(** ** Credentials *)

Record credential_valid (players : list PlayerConfig) (c : Credential) : Prop := {
  cv_principal : KeyValid (Cred_Principal c) = true;
  cv_token : validDigest (Cred_TokenSHA256 c) = true;
  cv_scopes : Cred_Scopes c <> [] /\ len (Cred_Scopes c) <= 4 /\ NoDup (Cred_Scopes c) /\ Forall (.∈ known_scopes) (Cred_Scopes c);
  cv_players : Cred_Players c <> [] /\ len (Cred_Players c) <= 16 /\ NoDup (Cred_Players c)
               /\ Forall (fun k => k ∈ map Cfg_Key players) (Cred_Players c)
}.

Lemma check_scopes_spec field scopes : forall seen,
  check_scopes field seen scopes = None <-> fresh_keys id seen scopes /\ Forall (.∈ known_scopes) scopes.
Proof.
  induction scopes as [|s scopes IH]; intros seen; cbn [check_scopes].
  { split; [|done]. intros _. split; [apply fresh_keys_nil|done]. }
  rewrite Forall_cons, fresh_keys_cons. case_if; breflect; [|rewrite IH; unfold id in *; naive_solver].
  split; [done|]. intros [[? _] [? _]]. by destruct_or?.
Qed.

Lemma check_allowed_spec field allowed players : forall seen,
  check_allowed field allowed seen players = None <-> fresh_keys id seen players /\ Forall (.∈ allowed) players.
Proof.
  induction players as [|p players IH]; intros seen; cbn [check_allowed].
  { split; [|done]. intros _. split; [apply fresh_keys_nil|done]. }
  rewrite Forall_cons, fresh_keys_cons. case_if; breflect; [|rewrite IH; unfold id in *; naive_solver].
  split; [done|]. intros [[? _] [? _]]. by destruct_or?.
Qed.

Lemma check_credential_none i players principals tokens c :
  check_credential i (list_to_set (map Cfg_Key players)) principals tokens c = None <->
  credential_valid players c /\ (Cred_Principal c ∉ principals) /\ (Cred_TokenSHA256 c ∉ tokens).
Proof.
  unfold check_credential. cbv zeta.
  match goal with |- context [first_bad ?f ?m ?l] => pose proof (first_bad_none f m l) as Hfirst; destruct (first_bad f m l) end.
  - split; [done|]. intros ([Hp Ht (Hs & Hsl & _) (Hpl & Hpll & _)] & H1 & H2). apply Hfirst.
    assert (Hlen : forall l : list string, l <> [] -> (len l =? 0) = false) by (intros [|x l]; [done|]; intros _; apply Z.eqb_neq; unfold len; cbn; lia).
    repeat constructor; cbn; rewrite ?Hlen by done; bgoal; auto.
  - destruct Hfirst as [Hall _]. specialize (Hall eq_refl). rewrite !Forall_cons in Hall. cbn in Hall.
    destruct Hall as (Hp & Ht & Hs & Hpl & _). breflect.
    assert (Hne : forall l : list string, len l <> 0 -> l <> []) by (intros [|x l]; done).
    assert (Hid : forall l : list string, fresh_keys id ∅ l <-> NoDup l) by (intros l; by rewrite fresh_keys_empty, map_id).
    assert (Hin : Forall (.∈ (list_to_set (map Cfg_Key players) : gset string)) (Cred_Players c)
                  <-> Forall (fun k => k ∈ map Cfg_Key players) (Cred_Players c)).
    { apply Forall_proper; [|done]. intros k. by rewrite elem_of_list_to_set. }
    match goal with |- context [check_scopes ?f ∅ ?l] => pose proof (check_scopes_spec f l ∅) as Hsc; destruct (check_scopes f ∅ l) end.
    { split; [done|]. intros ([_ _ (_ & _ & ? & ?) _] & _). assert (Some f = None) by (apply Hsc; by rewrite Hid). done. }
    rewrite check_allowed_spec, Hid, Hin. destruct Hsc as [Hsc _]. specialize (Hsc eq_refl). rewrite Hid in Hsc. destruct Hsc.
    split; [|by intros ([_ _ _ (_ & _ & ? & ?)] & _)]. intros [? ?]. split_and!; try done. constructor; try done; split_and!; auto; lia.
Qed.

Lemma check_credentials_spec players l : forall i principals tokens,
  check_credentials i (list_to_set (map Cfg_Key players)) principals tokens l = None <->
  Forall (credential_valid players) l /\ fresh_keys Cred_Principal principals l /\ fresh_keys Cred_TokenSHA256 tokens l.
Proof.
  induction l as [|c l IH]; intros i principals tokens; cbn [check_credentials].
  { split; [|done]. intros _. split_and!; [done|apply fresh_keys_nil..]. }
  pose proof (check_credential_none i players principals tokens c) as Hc. rewrite Forall_cons, !fresh_keys_cons.
  destruct (check_credential i _ principals tokens c) as [e|].
  - split; [done|]. intros H. assert (Some e = None) by (apply Hc; naive_solver). done.
  - destruct Hc as [Hc _]. specialize (Hc eq_refl). rewrite IH. naive_solver.
Qed.

(** Loaded credentials are few, valid for the configured players and told apart
    by principal and by token. *)
Record credentials_ok (players : list PlayerConfig) (l : list Credential) : Prop := {
  ck_capacity : len l <= 64;
  ck_valid : Forall (credential_valid players) l;
  ck_principals : NoDup (map Cred_Principal l);
  ck_tokens : NoDup (map Cred_TokenSHA256 l)
}.

Lemma LoadCredentials_ok path file players l : LoadCredentials path file players = inr l -> credentials_ok players l.
Proof.
  unfold LoadCredentials. case_if; [intros [= <-]; split; [done..|constructor|constructor]|].
  destruct file as [|f]; [done|]. case_if; [done|]. destruct (CF_Credentials f) as [creds|]; [|done]. case_if; [done|].
  destruct (check_credentials 0 _ ∅ ∅ creds) eqn:Hc; [done|]. intros [= <-].
  apply check_credentials_spec in Hc as (Hv & Hp & Ht). rewrite fresh_keys_empty in Hp, Ht. breflect. by split.
Qed.

(** ** The process *)

Lemma first_match_none {A} (rules : list (bool * option A)) (d : option A) :
  Forall (fun r => r.2 <> None) rules -> first_match rules d = None <-> Forall (fun r => r.1 = false) rules /\ d = None.
Proof.
  induction 1 as [|[b r] rules Hr _ IH]; [rewrite first_match_nil; naive_solver|].
  rewrite first_match_cons, Forall_cons. cbn in *. destruct b; [|rewrite IH; naive_solver]. naive_solver.
Qed.

(** The process settings within their bounds. *)
Record process_ok (parse_addr : string -> bool) (c : Config) : Prop := {
  po_level : Conf_LogLevel c ∈ [""; "debug"; "info"; "warn"; "error"];
  po_listen : exists host port p, splitHostPort (Conf_Listen c) = Some (host, port) /\ atoi port = Some p /\ 1024 <= p <= 65535;
  po_files : Conf_CertFile c <> "" /\ Conf_KeyFile c <> "";
  po_shutdown : 1 <= Conf_ShutdownSeconds c <= 25;
  po_database : let d := Conf_Database c in
    DBC_Host d <> "" /\ DBC_Port d <> 0 /\ DBC_Name d <> "" /\ DBC_User d <> "" /\ DBC_PasswordFile d <> "" /\ DBC_CAFile d <> "";
  po_host : databaseTCPHost parse_addr (DBC_Host (Conf_Database c)) = true;
  po_connections : 1 <= DBC_MaxConnections (Conf_Database c) <= 16;
  po_timeouts : 1 <= DBC_LockTimeoutSeconds (Conf_Database c) <= DBC_TimeoutSeconds (Conf_Database c)
                /\ DBC_TimeoutSeconds (Conf_Database c) <= 30
}.

Lemma listen_valid listen : match splitHostPort listen with
    | Some (_, port) => match atoi port with Some p => (p <? 1024) || (65535 <? p) | None => true end
    | None => true
    end = false <-> exists host port p, splitHostPort listen = Some (host, port) /\ atoi port = Some p /\ 1024 <= p <= 65535.
Proof.
  destruct (splitHostPort listen) as [[host port]|]; [|split; [done|naive_solver]].
  destruct (atoi port) as [p|] eqn:Hp; [|split; [done|]].
  - bgoal. split; [intros [? ?]; exists host, port, p; split_and!; done || lia|]. intros (h & t & q & [= <- <-] & Hq & ?).
    assert (q = p) by congruence. lia.
  - intros (h & t & q & [= <- <-] & Hq & _). congruence.
Qed.

Lemma Config_Validate_ok parse_addr c :
  Config_Validate parse_addr c = None <-> process_ok parse_addr c /\ coherent c.
Proof.
  unfold Config_Validate. cbv zeta. rewrite first_match_none by (repeat constructor; done). rewrite validateReadOnly_spec.
  cbn [map missing_fields app fst snd]. rewrite !Forall_cons. cbn [fst snd]. rewrite listen_valid. bgoal.
  split; [intros [H Hc]|intros [[Hl Hp Hf Hs Hd Hh Hn Ht] Hc]]; (split; [|done]).
  - destruct_and!. constructor; cbn zeta; try done; split_and!; done || lia.
  - cbn in Hd. destruct_and!. split_and!; done || lia || constructor.
Qed.

(** Exactly the coherent configurations are accepted.  Validation passes if
    and only if the process settings are within their bounds, there are at most
    sixteen players and sources, players come with a credential file, every
    player has a valid key, serial, pin, ceiling and address at the pinned TLS
    port, no two share a key, serial or address, a writable player has a
    ceiling, and every source has a valid key, a configured player and a name,
    all distinct. *)
Theorem configuration_is_coherent parse_addr c :
  Config_Validate parse_addr c = None <-> process_ok parse_addr c /\ coherent c.
Proof. exact (Config_Validate_ok parse_addr c). Qed.
