(* ===== verification/Unmarshal.v ===== *)
(** * Decoding a JSON value into a Go value

    [encoding/json.Unmarshal] of a parsed value: a decoder updates the value it
    decodes into; [null] leaves a scalar as it is; a member of an object goes to
    the field whose name it equals up to letter case, in the order of the
    members, and unknown members are ignored.  A mismatch of types leaves its
    field alone and is reported at the end; an error of a field's own
    [UnmarshalJSON] stops the decoding.  [parse_time] parses an RFC 3339 text. *)

From S2P Require Import Prelude GoStd Json.
From Stdlib Require Import Ascii.

Inductive outcome := Good | Mistyped | Stopped.
#[export] Instance outcome_eq_dec : EqDecision outcome.
Proof. solve_decision. Defined.
Definition worse (a b : outcome) : outcome :=
  match a, b with Stopped, _ | _, Stopped => Stopped | Mistyped, _ | _, Mistyped => Mistyped | Good, Good => Good end.

Definition Dec (A : Type) : Type := A -> json -> A * outcome.
(** The value of an [Unmarshal] without an error. *)
Definition decoded {A} (r : A * outcome) : option A := if r.2 == Good then Some r.1 else None.

(** The folded name of a field: Unicode's only foreign letters that fold to
    ASCII are the long s and the Kelvin sign. *)
Definition upper (c : ascii) : ascii :=
  let b := byte_of c in if (97 <=? b) && (b <=? 122) then of_byte (b - 32) else c.
Definition long_s : string := bytes_string [197; 191].
Definition kelvin : string := bytes_string [226; 132; 170].
Fixpoint fold_name (s : string) : string :=
  match s with
  | EmptyString => ""
  | String a (String b rest as tail) =>
      if hasPrefix s long_s then String "S" (fold_name rest)
      else match rest with
           | String c more => if hasPrefix s kelvin then String "K" (fold_name more) else String (upper a) (fold_name tail)
           | EmptyString => String (upper a) (fold_name tail)
           end
  | String a rest => String (upper a) (fold_name rest)
  end.

Definition dec_string : Dec string := fun cur v =>
  match v with JString s => (s, Good) | JNull => (cur, Good) | _ => (cur, Mistyped) end.
Definition dec_int : Dec Z := fun cur v =>
  match v with
  | JNumber n => match atoi n with Some z => (z, Good) | None => (cur, Mistyped) end
  | JNull => (cur, Good)
  | _ => (cur, Mistyped)
  end.
Definition dec_bool : Dec bool := fun cur v =>
  match v with JBool b => (b, Good) | JNull => (cur, Good) | _ => (cur, Mistyped) end.
Definition dec_pointer {A} (zero : A) (d : Dec A) : Dec (option A) := fun cur v =>
  match v with
  | JNull => (None, Good)
  | _ => let '(a, out) := d (default zero cur) v in (Some a, out)
  end.
(** A nil slice is [None]. *)
Definition dec_list {A} (zero : A) (d : Dec A) : Dec (option (list A)) := fun cur v =>
  match v with
  | JNull => (None, Good)
  | JArray items =>
      let '(l, out) := foldl (fun acc item =>
        match acc with
        | (l, Stopped) => (l, Stopped)
        | (l, out) => let '(a, out') := d zero item in (l ++ [a], worse out out')
        end) ([], Good) items in (Some l, out)
  | _ => (cur, Mistyped)
  end.

(** A struct by its fields: the names and how a member updates the struct. *)
Definition member_of {A} (fields : list (string * Dec A)) (name : string) : option (Dec A) :=
  snd <$> find (fun f => fold_name f.1 == fold_name name) fields.
Definition dec_member {A} (fields : list (string * Dec A)) (acc : A * outcome) (kv : string * json) : A * outcome :=
  match acc with
  | (a, Stopped) => (a, Stopped)
  | (a, out) => match member_of fields kv.1 with
                | Some d => let '(a, out') := d a kv.2 in (a, worse out out')
                | None => (a, out)
                end
  end.
Definition dec_struct {A} (fields : list (string * Dec A)) : Dec A := fun cur v =>
  match v with
  | JObject members => foldl (dec_member fields) (cur, Good) members
  | JNull => (cur, Good)
  | _ => (cur, Mistyped)
  end.
(** [DisallowUnknownFields]: an unknown member is an error, and decoding goes on. *)
Definition dec_strict {A} (fields : list (string * Dec A)) : Dec A := fun cur v =>
  let '(a, out) := dec_struct fields cur v in
  match v with
  | JObject members => if forallb (fun m => is_some (member_of fields m.1)) members then (a, out) else (a, worse out Mistyped)
  | _ => (a, out)
  end.
(** A field of the struct by its getter and setter. *)
Definition into {A B} (d : Dec B) (get : A -> B) (put : B -> A -> A) : Dec A := fun a v =>
  let '(b, out) := d (get a) v in (put b a, out).

Section time.
Context (parse_time : string -> option Z).
Definition dec_time : Dec Z := fun cur v =>
  match v with
  | JString s => match parse_time s with Some t => (t, Good) | None => (cur, Stopped) end
  | JNull => (cur, Good)
  | _ => (cur, Stopped)
  end.
End time.

(** ** Facts *)

Lemma dec_member_good {A} (fields : list (string * Dec A)) cur name v d a :
  member_of fields name = Some d -> d cur v = (a, Good) -> dec_member fields (cur, Good) (name, v) = (a, Good).
Proof. intros Hm Hd. unfold dec_member. cbn [fst snd]. by rewrite Hm, Hd. Qed.

Lemma dec_int_itoa cur n : - 2 ^ 63 <= n < 2 ^ 63 -> dec_int cur (JNumber (itoa n)) = (n, Good).
Proof. intros Hn. cbn [dec_int]. by rewrite atoi_itoa. Qed.

Lemma fold_one {A B} (fields : list (string * Dec A)) name (d : Dec B) get put v (x : B) cur :
  member_of fields name = Some (into d get put) -> (forall c, d c v = (x, Good)) ->
  dec_member fields (cur, Good) (name, v) = (put x cur, Good).
Proof. intros Hm Hd. apply (dec_member_good _ _ _ _ _ _ Hm). unfold into. by rewrite Hd. Qed.

(** Every member of the document is a field. *)
Lemma dec_strict_known {A} (fields : list (string * Dec A)) cur members :
  forallb (fun m => is_some (member_of fields m.1)) members = true ->
  dec_strict fields cur (JObject members) = dec_struct fields cur (JObject members).
Proof. intros H. unfold dec_strict. rewrite H. by destruct (dec_struct _ _ _). Qed.
