(* ===== verification/Project.v ===== *)
(** * The public view of an operation ([internal/control/operation.go])

    What the API shows of a journal operation: its identity, state and outcome,
    and the progress that its worker journalled.  Before the first transition
    of the worker, the loading of a queue is derived from the frozen plan. *)

From S2P Require Import Prelude GoStd Values Model Diagnostics Errors Events State QueuePolicy QueueStart QueueOps Evidence Command Json.
From S2P Require Import JournalModel Views Execution Lane Select Submit World Worker History Unmarshal.

#[export] Instance Automation_eta : Eta Automation := fun a =>
  {| Auto_TargetLevel := Auto_TargetLevel a; Auto_RampSeconds := Auto_RampSeconds a;
     Auto_DurationSeconds := Auto_DurationSeconds a; Auto_FadeSeconds := Auto_FadeSeconds a |}.
#[export] Instance BufferedPlayback_eta : Eta BufferedPlayback := fun b =>
  {| Buf_PartTracks := Buf_PartTracks b; Buf_RefillThreshold := Buf_RefillThreshold b; Buf_MaxQueueTracks := Buf_MaxQueueTracks b;
     Buf_RetainPrevious := Buf_RetainPrevious b; Buf_MaxSessionSeconds := Buf_MaxSessionSeconds b |}.
#[export] Instance playbackPlanIdentity_eta : Eta playbackPlanIdentity := fun p =>
  {| Plan_SHA256 := Plan_SHA256 p; Plan_PartTracks := Plan_PartTracks p |}.

(** [control.Operation]. *)
Record PublicOperation := {
  PO_QueueLoading : option QueueLoadingProgress;
  PO_Playback : option PlaybackProgress;
  PO_Outcome : json;
  PO_ID : string;
  PO_Kind : string;
  PO_Player : string;
  PO_State : State;
  PO_Phase : string;
  PO_Revision : Z;
  PO_ConfigRevision : string;
  PO_SelectedAlbum : option string;
  PO_CreatedAt : Time;
  PO_UpdatedAt : Time;
  PO_StartedAt : option Time;
  PO_FinishedAt : option Time;
  PO_ErrorCode : option string
}.

(** [operationProgress]: the embedded playback and the loading. *)
Record progress_document := { PD_Playback : option PlaybackProgress; PD_Loading : option QueueLoadingProgress }.
#[export] Instance progress_document_eta : Eta progress_document := fun p =>
  {| PD_Playback := PD_Playback p; PD_Loading := PD_Loading p |}.
(** The admitted arguments, as far as they are read here. *)
Record arguments_document := { AD_Plan : option playbackPlanIdentity; AD_Buffered : option BufferedPlayback }.
#[export] Instance arguments_document_eta : Eta arguments_document := fun a =>
  {| AD_Plan := AD_Plan a; AD_Buffered := AD_Buffered a |}.

Definition PlaybackProgress_zero : PlaybackProgress := Build_PlaybackProgress 0 0 0 0.
Definition plan_zero : playbackPlanIdentity := Build_playbackPlanIdentity "" [].
Definition Automation_zero : Automation := Build_Automation 0 0 0 0.
Definition BufferedPlayback_zero : BufferedPlayback := Build_BufferedPlayback [] 0 0 0 0.

Section documents.
Context (parse_time : string -> option Time).
Local Abbreviation time := (dec_time parse_time).

Definition loading_fields : list (string * Dec QueueLoadingProgress) := [
  ("mode", into dec_string QL_Mode (fun x q => q <| QL_Mode := x |>));
  ("buffered_tracks", into (dec_pointer 0 dec_int) QL_BufferedTracks (fun x q => q <| QL_BufferedTracks := x |>));
  ("remaining_tracks", into (dec_pointer 0 dec_int) QL_RemainingTracks (fun x q => q <| QL_RemainingTracks := x |>));
  ("current_index", into (dec_pointer 0 dec_int) QL_CurrentIndex (fun x q => q <| QL_CurrentIndex := x |>));
  ("pruned_tracks", into (dec_pointer 0 dec_int) QL_PrunedTracks (fun x q => q <| QL_PrunedTracks := x |>));
  ("session_expires_at", into (dec_pointer 0 time) QL_SessionExpiresAt (fun x q => q <| QL_SessionExpiresAt := x |>));
  ("total_parts", into dec_int QL_TotalParts (fun x q => q <| QL_TotalParts := x |>));
  ("confirmed_parts", into dec_int QL_ConfirmedParts (fun x q => q <| QL_ConfirmedParts := x |>));
  ("total_tracks", into dec_int QL_TotalTracks (fun x q => q <| QL_TotalTracks := x |>));
  ("confirmed_tracks", into dec_int QL_ConfirmedTracks (fun x q => q <| QL_ConfirmedTracks := x |>))].

(** A field of the embedded pointer allocates it. *)
Definition embedded {B} (d : Dec B) (get : PlaybackProgress -> B) (put : B -> PlaybackProgress -> PlaybackProgress) : Dec progress_document :=
  into (into d get put) (fun p => default PlaybackProgress_zero (PD_Playback p)) (fun x p => p <| PD_Playback := Some x |>).
Definition progress_fields : list (string * Dec progress_document) := [
  ("playback_started_at", embedded time PP_PlaybackStartedAt (fun x p => p <| PP_PlaybackStartedAt := x |>));
  ("stop_at", embedded time PP_StopAt (fun x p => p <| PP_StopAt := x |>));
  ("elapsed_seconds", embedded dec_int PP_ElapsedSeconds (fun x p => p <| PP_ElapsedSeconds := x |>));
  ("level", embedded dec_int PP_Level (fun x p => p <| PP_Level := x |>));
  ("queue_loading", into (dec_pointer QueueLoadingProgress_zero (dec_struct loading_fields)) PD_Loading
                         (fun x p => p <| PD_Loading := x |>))].

Definition decode_progress (v : json) : progress_document * outcome :=
  dec_struct progress_fields {| PD_Playback := None; PD_Loading := None |} v.
End documents.

(** A field whose value is checked but not read. *)
Definition checked {A B} (zero : B) (d : Dec B) : Dec A := fun a v => (a, (d zero v).2).

Definition plan_fields : list (string * Dec playbackPlanIdentity) := [
  ("sha256", into dec_string Plan_SHA256 (fun x p => p <| Plan_SHA256 := x |>));
  ("part_tracks", into (dec_list 0 dec_int) (fun p => Some (Plan_PartTracks p)) (fun x p => p <| Plan_PartTracks := default [] x |>))].
Definition automation_fields : list (string * Dec Automation) := [
  ("target_level", into dec_int Auto_TargetLevel (fun x a => a <| Auto_TargetLevel := x |>));
  ("ramp_seconds", into dec_int Auto_RampSeconds (fun x a => a <| Auto_RampSeconds := x |>));
  ("duration_seconds", into dec_int Auto_DurationSeconds (fun x a => a <| Auto_DurationSeconds := x |>));
  ("fade_seconds", into dec_int Auto_FadeSeconds (fun x a => a <| Auto_FadeSeconds := x |>))].
Definition buffered_fields : list (string * Dec BufferedPlayback) := [
  ("part_tracks", into (dec_list 0 dec_int) (fun b => Some (Buf_PartTracks b)) (fun x b => b <| Buf_PartTracks := default [] x |>));
  ("refill_threshold", into dec_int Buf_RefillThreshold (fun x b => b <| Buf_RefillThreshold := x |>));
  ("max_queue_tracks", into dec_int Buf_MaxQueueTracks (fun x b => b <| Buf_MaxQueueTracks := x |>));
  ("retain_previous", into dec_int Buf_RetainPrevious (fun x b => b <| Buf_RetainPrevious := x |>));
  ("max_session_seconds", into dec_int Buf_MaxSessionSeconds (fun x b => b <| Buf_MaxSessionSeconds := x |>))].

(** [Command] as a JSON document; its buffered policy is what is read. *)
Definition command_fields : list (string * Dec (option BufferedPlayback)) := [
  ("kind", checked "" dec_string); ("level", checked 0 dec_int); ("muted", checked false dec_bool); ("state", checked "" dec_string);
  ("direction", checked "" dec_string); ("takeover", checked false dec_bool); ("expected_owner", checked "" dec_string);
  ("item_ref", checked "" dec_string); ("item_refs", checked None (dec_list "" dec_string)); ("shuffle", checked false dec_bool);
  ("repeat", checked "" dec_string); ("mode", checked "" dec_string); ("fade_seconds", checked 0 dec_int); ("target", checked "" dec_string);
  ("automation", checked None (dec_pointer Automation_zero (dec_struct automation_fields)));
  ("buffered", dec_pointer BufferedPlayback_zero (dec_struct buffered_fields))].

Definition arguments_fields : list (string * Dec arguments_document) := [
  ("ordered_plan", into (dec_pointer plan_zero (dec_struct plan_fields)) AD_Plan (fun x a => a <| AD_Plan := x |>));
  ("command", into (dec_struct command_fields) AD_Buffered (fun x a => a <| AD_Buffered := x |>))].
Definition decode_arguments (v : json) : arguments_document * outcome :=
  dec_struct arguments_fields {| AD_Plan := None; AD_Buffered := None |} v.

(** The loading of a frozen plan of which nothing is confirmed. *)
Definition planned_loading (v : json) : option QueueLoadingProgress :=
  match decoded (decode_arguments v) with
  | Some a =>
      match AD_Plan a with
      | Some plan =>
          if len (Plan_PartTracks plan) =? 0 then None
          else Some (QueueLoadingProgress_zero <| QL_TotalParts := len (Plan_PartTracks plan) |>
                       <| QL_Mode := if is_some (AD_Buffered a) then "buffered" else "" |>
                       <| QL_TotalTracks := foldl (fun n count => i64 (n + count)) 0 (Plan_PartTracks plan) |>)
      | None => None
      end
  | None => None
  end.

Definition playback_of (d : progress_document) : option PlaybackProgress :=
  match PD_Playback d with
  | Some p => if isZero (PP_PlaybackStartedAt p) then None else Some p
  | None => None
  end.

Definition ProjectOperation (parse_time : string -> option Time) (op : Operation) : PublicOperation :=
  let progress := decode_progress parse_time (Op_Progress op) in
  {| PO_QueueLoading := match PD_Loading progress.1 with Some q => Some q | None => planned_loading (Op_EffectiveArguments op) end;
     PO_Playback := match decoded progress with Some d => playback_of d | None => None end;
     PO_Outcome := Op_Outcome op; PO_ID := Op_ID op; PO_Kind := Op_Kind op; PO_Player := Op_Player op; PO_State := Op_State op;
     PO_Phase := Op_Phase op; PO_Revision := Op_Revision op; PO_ConfigRevision := Op_ConfigRevision op;
     PO_SelectedAlbum := Op_SelectedAlbum op; PO_CreatedAt := Op_CreatedAt op; PO_UpdatedAt := Op_UpdatedAt op;
     PO_StartedAt := Op_StartedAt op; PO_FinishedAt := Op_FinishedAt op;
     PO_ErrorCode := if Op_ErrorCode op == "" then None else Some (Op_ErrorCode op) |}.

(** ** What the API shows is what the worker journalled *)

Definition int64 (n : Z) : Prop := - 2 ^ 63 <= n < 2 ^ 63.
Definition each {A} (P : A -> Prop) (o : option A) : Prop := forall x, o = Some x -> P x.

Section documents.
Context (time_text : Time -> string) (parse_time : string -> option Time).
(** RFC 3339 texts have nanoseconds and years of four digits. *)
Context (Htime : forall t, 0 <= t < year10000 -> parse_time (time_text t) = Some t).
#[local] Set Default Proof Using "All".

Definition on_calendar (t : Time) : Prop := 0 <= t < year10000.

(** What the program keeps in its progress. *)
Record loading_storable (q : QueueLoadingProgress) : Prop := {
  ls_counts : each int64 (QL_BufferedTracks q) /\ each int64 (QL_RemainingTracks q)
              /\ each int64 (QL_CurrentIndex q) /\ each int64 (QL_PrunedTracks q);
  ls_expires : each on_calendar (QL_SessionExpiresAt q);
  ls_totals : int64 (QL_TotalParts q) /\ int64 (QL_ConfirmedParts q) /\ int64 (QL_TotalTracks q) /\ int64 (QL_ConfirmedTracks q)
}.
Definition playback_storable (p : PlaybackProgress) : Prop :=
  on_calendar (PP_PlaybackStartedAt p) /\ on_calendar (PP_StopAt p) /\ int64 (PP_ElapsedSeconds p) /\ int64 (PP_Level p).

Lemma dec_time_text cur t : on_calendar t -> dec_time parse_time cur (JString (time_text t)) = (t, Good).
Proof. intros Ht. cbn [dec_time]. by rewrite Htime. Qed.

Lemma dec_pointer_value {A} (zero : A) d cur v : v <> JNull ->
  dec_pointer zero d cur v = let '(a, out) := d (default zero cur) v in (Some a, out).
Proof using Type. by destruct v. Qed.

Lemma fold_optional {A B} (fields : list (string * Dec A)) name (d : Dec B) zero get put (f : B -> json) (o : option B) cur :
  member_of fields name = Some (into (dec_pointer zero d) get put) ->
  each (fun x => f x <> JNull /\ forall c, d c (f x) = (x, Good)) o ->
  foldl (dec_member fields) (cur, Good) (optional name (f <$> o)) = (match o with Some x => put (Some x) cur | None => cur end, Good).
Proof using Type.
  intros Hm Hd. destruct o as [x|]; [|done]. destruct (Hd x eq_refl) as [Hn Hx]. cbn [fmap option_fmap option_map optional foldl].
  apply (dec_member_good _ _ _ _ _ _ Hm). unfold into, dec_pointer. destruct (f x) eqn:Hf; try done; by rewrite Hx.
Qed.

Lemma fold_embedded {B} (fields : list (string * Dec progress_document)) name (d : Dec B) get put v (x : B) p l :
  member_of fields name = Some (embedded d get put) -> (forall c, d c v = (x, Good)) ->
  dec_member fields ({| PD_Playback := p; PD_Loading := l |}, Good) (name, v)
  = ({| PD_Playback := Some (put x (default PlaybackProgress_zero p)); PD_Loading := l |}, Good).
Proof using Type. intros Hm Hd. apply (dec_member_good _ _ _ _ _ _ Hm). unfold embedded, into. by rewrite Hd. Qed.

Lemma each_int o : each int64 o -> each (fun x => int_json x <> JNull /\ forall c, dec_int c (int_json x) = (x, Good)) o.
Proof using Type. intros H x Hx. split; [done|]. intros c. apply dec_int_itoa, H, Hx. Qed.

Lemma loading_decoded q : loading_storable q ->
  dec_struct (loading_fields parse_time) QueueLoadingProgress_zero (queue_loading_json time_text q) = (q, Good).
Proof.
  intros [(Hb & Hr & Hc & Hp) He (H1 & H2 & H3 & H4)]. unfold queue_loading_json, dec_struct. rewrite !foldl_app.
  assert (Hmode : foldl (dec_member (loading_fields parse_time)) (QueueLoadingProgress_zero, Good)
    (if QL_Mode q == "" then [] else [("mode", JString (QL_Mode q))]) = (QueueLoadingProgress_zero <| QL_Mode := QL_Mode q |>, Good)).
  { case_if; [breflect; by rewrite Heqb|]. cbn [foldl]. by erewrite fold_one; [|reflexivity|]. }
  rewrite Hmode.
  erewrite (fold_optional _ "buffered_tracks"), (fold_optional _ "remaining_tracks"), (fold_optional _ "current_index"),
    (fold_optional _ "pruned_tracks"); try reflexivity; try (by apply each_int).
  erewrite (fold_optional _ "session_expires_at"); [|reflexivity|intros t Ht; split; [done|intros c; apply dec_time_text, He, Ht]].
  cbn [foldl]. do 4 (erewrite fold_one; [|reflexivity|intros c; by apply dec_int_itoa]).
  destruct q as [m b r c p e t1 t2 t3 t4]. by destruct b, r, c, p, e.
Qed.

Lemma progress_decoded p q : each playback_storable p -> each loading_storable q ->
  decode_progress parse_time (operationProgress time_text p q) = ({| PD_Playback := p; PD_Loading := q |}, Good).
Proof.
  intros Hp Hq. unfold decode_progress, operationProgress, dec_struct. rewrite foldl_app.
  assert (Hplay : foldl (dec_member (progress_fields parse_time)) ({| PD_Playback := None; PD_Loading := None |}, Good)
      match p with Some p => playback_fields time_text p | None => [] end = ({| PD_Playback := p; PD_Loading := None |}, Good)).
  { destruct p as [p|]; [|done]. destruct (Hp p eq_refl) as (H1 & H2 & H3 & H4). unfold playback_fields. cbn [foldl].
    do 2 (erewrite fold_embedded; [|reflexivity|intros c; by apply dec_time_text]).
    do 2 (erewrite fold_embedded; [|reflexivity|intros c; by apply dec_int_itoa]). by destruct p. }
  rewrite Hplay. destruct q as [q|]; [|done]. cbn [fmap option_fmap option_map optional foldl].
  erewrite (dec_member_good _ _ _ _ (into (dec_pointer QueueLoadingProgress_zero (dec_struct (loading_fields parse_time))) PD_Loading
    (fun x p => p <| PD_Loading := x |>))); [reflexivity|reflexivity|]. unfold into. rewrite dec_pointer_value by done. cbn [PD_Loading].
  change (default QueueLoadingProgress_zero None) with QueueLoadingProgress_zero. by rewrite loading_decoded by (by apply Hq).
Qed.

End documents.

(** ** A journalled playback *)

Definition decimal_time (s : string) : option Time := digits_value 0 s.

Lemma decimal_time_itoa t : 0 <= t < year10000 -> decimal_time (itoa t) = Some t.
Proof.
  intros Ht. unfold decimal_time, itoa, pretty, pretty_Z. destruct t as [|n|n]; [done| |lia].
  unfold pretty, pretty_positive, pretty, pretty_N. case_decide; [done|]. by rewrite digits_of_pretty.
Qed.

Definition sample_progress : PlaybackProgress := Build_PlaybackProgress Second (61 * Second) 60 12.
Definition sample_loading : QueueLoadingProgress :=
  QueueLoadingProgress_zero <| QL_Mode := "buffered" |> <| QL_BufferedTracks := Some 20 |> <| QL_TotalParts := 3 |> <| QL_ConfirmedParts := 1 |>.
Definition running_operation : Operation :=
  Operation_zero <| Op_Progress := operationProgress itoa (Some sample_progress) (Some sample_loading) |>.

