(* ===== verification/ReadApi.v ===== *)
(** * The reads of the API ([internal/control/reads.go], [preflight.go])

    Sources, catalogue items, pages of a queue and the preflight of a playback:
    read-only, over the same hosts as the admission.  [catalogs] is the
    [Browse] of the catalogue of a source, when it has one. *)

From S2P Require Import Prelude GoStd Values Model Diagnostics Errors Events State QueuePolicy QueueStart QueueOps Evidence Command Json.
From S2P Require Import JournalModel Views Catalog Execution Lane Select Submit Hosts SubmitSafety.

#[export] Instance Host_eta {E} : Eta (Host E) := fun h => {|
  host_others := host_others h; host_ended := host_ended h; host_gate := host_gate h; host_done := host_done h;
  host_fired := host_fired h; host_now := host_now h; host_wait := host_wait h; host_stopped := host_stopped h;
  host_closing := host_closing h; host_snapshot := host_snapshot h; host_refresh := host_refresh h; host_view := host_view h;
  host_player_view := host_player_view h; host_page := host_page h; host_browse := host_browse h; host_resolve := host_resolve h;
  host_lookup := host_lookup h; host_active := host_active h; host_get := host_get h; host_admit := host_admit h |}.

(** The same host under a context with a deadline of its own. *)
Definition under_deadline {E} (deadline : Time) (host : Host E) : Host E :=
  host <| host_ended := fun e =>
    match host_ended host e with
    | (Some err, e) => (Some err, e)
    | (None, e) => let '(fired, e) := host_fired host deadline e in
                   (if fired then Some (ESentinel DeadlineExceeded) else None, e)
    end |>.

(** ** Views *)

Record SourceView := { SV_Key : string; SV_Player : string; SV_Name : string; SV_Availability : string }.
Record ItemView := { IV_Name : string; IV_Ref : string; IV_Kind : string; IV_Browsable : bool; IV_Playable : bool }.
Record Items := { IS_Items : list ItemView; IS_Total : option Z; IS_Next : option string }.
Record Track := { TR_QueueID : string; TR_Song : string; TR_Album : string; TR_Artist : string }.
Record Queue := {
  QV_Revision : string;
  QV_Stale : bool;
  QV_Items : list Track;
  QV_Total : option Z;
  QV_Next : option Z
}.
Record Preflight := { PF_Ready : bool; PF_Player : Player; PF_Warnings : list string }.

Section reads.
Context {E : Type} (host : Host E) (devices : list PlayerConfig) (sources : list SourceConfig).
Context (catalogs : string -> option (ID -> string -> string -> Z -> E -> Result CatalogPage * E)).
Context (digest : json -> string) (time_text : Time -> string) (epoch : string).
Local Abbreviation H := (Handler E).

(** [Reads.Player]. *)
Definition player_now (key : string) : H Player :=
  let! d := of_result (find_device devices key) in
  let! v := observe host (Cfg_Key d) in
  ret (project_player digest time_text epoch d v).

Fixpoint sources_loop (allowed : string -> bool) (rest : list SourceConfig) (out : list SourceView) : H (list SourceView) :=
  match rest with
  | [] => ret out
  | c :: rest =>
      if negb (allowed (SrcCfg_Player c)) then sources_loop allowed rest out
      else
        let! resolved := attempt (resolveSource host devices sources (SrcCfg_Key c)) in
        let availability := match resolved with
                            | Ok _ => "available"
                            | Err e => if errors_is ErrAmbiguous e then "ambiguous" else "unavailable"
                            end in
        sources_loop allowed rest (out ++ [{| SV_Key := SrcCfg_Key c; SV_Player := SrcCfg_Player c; SV_Name := SrcCfg_Name c;
                                              SV_Availability := availability |}])
  end.
Definition Sources (allowed : string -> bool) : H (list SourceView) := sources_loop allowed sources [].

Definition item_view (i : CatalogItem) : ItemView :=
  {| IV_Name := CI_Name i; IV_Ref := CI_Ref i; IV_Kind := CI_Kind i; IV_Browsable := CI_Browsable i; IV_Playable := CI_Playable i |}.

Definition items_of (key parent cursor : string) (limit : Z) : H Items :=
  let! resolved := resolveSource host devices sources key in
  match catalogs key with
  | None => fail (ESentinel ErrUnavailable)
  | Some browse =>
      let! page := ask (browse resolved.2 parent cursor limit) in
      let! page := of_result page in
      ret {| IS_Items := map item_view (CP_Items page); IS_Total := CP_Total page;
             IS_Next := if CP_Next page == "" then None else Some (CP_Next page) |}
  end.

(** [Reads.Queue]: a live page at an unchanged revision, or the cached first one. *)
Definition track (m : Media) : Track :=
  {| TR_QueueID := Media_QueueID m; TR_Song := Media_Song m; TR_Album := Media_Album m; TR_Artist := Media_Artist m |}.
Definition first_items (limit : Z) (q : QueuePage) : QueuePage :=
  if limit <? len (Queue_Items q)
  then q <| Queue_Items := take (Z.to_nat limit) (Queue_Items q) |> <| Queue_Next := Some limit |>
  else q.

Definition live_page (key : string) (p : Player) (v : Snapshot) (start limit : Z) : H QueuePage :=
  let! q := queue_page host key (Player_ID (Snap_Player v)) start limit in
  let! view := ask (host_player_view host key (Player_ID (Snap_Player v))) in
  refuse_if ((Queue_Token q != Snap_Token v) || (View_Token view != Snap_Token v)) ErrStale ;;;
  let! current := player_now key in
  refuse_if (CP_Revision current != CP_Revision p) ErrStale ;;; ret q.

Definition queue_of (key revision : string) (start limit : Z) : H Queue :=
  let! d := of_result (find_device devices key) in
  let! p := player_now key in
  let! v := observe host (Cfg_Key d) in
  refuse_if ((revision != "") && (CP_Revision p != revision)) ErrStaleReference ;;;
  refuse_if ((0 <? start) && (revision == "")) ErrStaleReference ;;;
  let! q := if negb (Snap_Stale v) then live_page key p v start limit
            else refuse_if ((start != 0) || (revision != "")) ErrStaleReference ;;; ret (first_items limit (Snap_Queue v)) in
  ret {| QV_Revision := CP_Revision p; QV_Stale := Snap_Stale v; QV_Items := map track (Queue_Items q);
         QV_Total := Queue_Total q; QV_Next := Queue_Next q |}.

(** ** Preflight *)

(** The input errors of a preflight. *)
Definition preflight_bounds (cmd : Command) : option error :=
  if (Cmd_Kind cmd != CommandKindPlayback) || is_some (validatePlaybackSelection cmd) || is_some (validateExpectedOwner cmd)
     || (Cmd_Level cmd <? 0) || (100 <? Cmd_Level cmd)
  then Some (ESentinel ErrBounds)
  else match Cmd_Automation cmd with Some a => Automation_validate a cmd (Some 100) | None => None end.

Definition safety_warnings (d : PlayerConfig) (refreshed : option error) (v : Snapshot) : list string :=
  match deviceSafety d v with
  | None => []
  | Some e =>
      if errors_is ErrReadOnly e
      then (if negb (Cfg_WritesEnabled d) then ["writes_disabled"] else [])
           ++ (if negb (is_some (Cfg_VolumeCeiling d)) then ["volume_policy_unverified"] else [])
      else if errors_is ErrGrouped e then ["grouped_target"]
      else if negb (is_some refreshed) then ["state_unavailable"]
      else []
  end.
Definition ceiling_exceeded (d : PlayerConfig) (cmd : Command) : bool :=
  match Cfg_VolumeCeiling d with
  | Some c => (c <? Cmd_Level cmd) || match Cmd_Automation cmd with Some a => c <? Auto_TargetLevel a | None => false end
  | None => false
  end.
Definition preflight_warnings (d : PlayerConfig) (cmd : Command) (refreshed : option error) (v : Snapshot) : list string :=
  (if is_some refreshed then ["state_unavailable"] else [])
  ++ safety_warnings d refreshed v
  ++ (if ceiling_exceeded d cmd then ["volume_policy_exceeded"] else [])
  ++ (if is_some (Cmd_Automation cmd) && negb (Cmd_Takeover cmd) && (Snap_State v == PlayStatePlay) then ["player_busy"] else []).
End reads.

Section preflight.
Context {E : Type} (host : Host E) (devices : list PlayerConfig) (sources : list SourceConfig).
Context (digest : json -> string) (time_text : Time -> string) (epoch : string).
Local Abbreviation H := (Handler E).
Local Abbreviation player_now := (player_now host devices digest time_text epoch).

(** Whether the state that was judged is gone when the media is resolved. *)
Definition state_changed (me : Z) (d : PlayerConfig) (player : Player) (before : Snapshot) : H bool :=
  let! current := player_now (Cfg_Key d) in
  if CP_Revision current != CP_Revision player then ret true
  else
    let! now := observe host (Cfg_Key d) in
    if negb (sameState before now) then ret true
    else let! ended := ctx_err host me in ret (is_some ended).

Definition preflight_checked (me : Z) (d : PlayerConfig) (cmd : Command) : H Preflight :=
  let! refreshed := refresh host (Cfg_Key d) "preflight" in
  let! before := observe host (Cfg_Key d) in
  let! player := player_now (Cfg_Key d) in
  let warnings := preflight_warnings d cmd refreshed before in
  if 0 <? len warnings then ret {| PF_Ready := false; PF_Player := player; PF_Warnings := warnings |}
  else
    let! _selection := resolvePlayback host devices sources me d cmd in
    let! changed := state_changed me d player before in
    let warnings := if changed then ["state_changed"] else [] in
    ret {| PF_Ready := len warnings =? 0; PF_Player := player; PF_Warnings := warnings |}.
End preflight.

(** [Reads.Preflight]; everything after the input checks runs under twenty seconds. *)
Definition preflight_of {E} (host : Host E) devices sources digest time_text epoch (me : Z) (key : string) (cmd : Command) : Handler E Preflight :=
  let! d := of_result (find_device devices key) in
  when_error (preflight_bounds cmd) ;;;
  let! t := ask (host_now host) in
  preflight_checked (under_deadline (t + 20 * Second) host) devices sources digest time_text epoch me d cmd.

(** ** The reads of the API are consistent and only read *)

Section reads.
Context {E : Type} (host : Host E) (devices : list PlayerConfig) (sources : list SourceConfig).
Context (digest : json -> string) (time_text : Time -> string) (epoch : string).
Local Abbreviation rev := (revision_of digest time_text epoch).
Local Abbreviation player_now := (player_now host devices digest time_text epoch).

Lemma gives_ask {A} (f : E -> A * E) : yields (ask f) (fun steps _ => steps = []).
Proof. apply req_ask. by split. Qed.
Lemma gives_critical {A} (f : lane -> A * lane) : yields (critical host f) (fun steps _ => steps = []).
Proof. apply req_critical. intros l. by split. Qed.
Lemma gives_refresh k t : yields (refresh host k t) (fun steps e => steps = [Refreshed e]).
Proof. apply req_call. intros e. split; [|done]. by constructor. Qed.
Lemma gives_queue_page k i s l : yields (queue_page host k i s l) (fun steps page => steps = [Paged s l (Ok page)]).
Proof.
  unfold queue_page. eapply gives_bind; [|intros [page|e] steps Hs; cbn].
  - apply (req_call _ _ (fun steps out => Forall reading steps /\ match out with Ok a => steps = [Paged s l a] | Err _ => True end)).
    intros a. split; [|done]. by constructor.
  - apply gives_ret. by rewrite Hs.
  - apply gives_fail.
Qed.

Lemma ctx_err_silent me : yields (ctx_err host me) (fun steps _ => steps = []).
Proof.
  unfold ctx_err. eapply gives_bind; [apply gives_critical|]. intros stopped ? ->. destruct stopped; [by apply gives_ret|apply gives_ask].
Qed.

Lemma player_now_spec key :
  yields (player_now key) (fun steps p => exists d v, find_device devices key = Ok d /\ steps = [Saw v] /\ p = project_player digest time_text epoch d v).
Proof.
  unfold ReadApi.player_now. eapply gives_bind; [apply gives_of_result|]. intros d ? [-> Hd].
  eapply gives_bind; [apply gives_observe|]. intros v ? ->. apply gives_ret. by exists d, v.
Qed.

(** ** Pages of a queue *)

(** What a page of the queue claims, by the reads behind it. *)
Definition page_claims (d : PlayerConfig) (start limit : Z) (revision : string) (steps : list step) (out : Queue) : Prop :=
  (revision <> "" -> QV_Revision out = revision) /\ (0 < start -> revision <> "")
  /\ exists s0 v, rev d s0 = QV_Revision out
     /\ if QV_Stale out
        then steps = [Saw s0; Saw v] /\ start = 0 /\ revision = "" /\ len (QV_Items out) <= Z.max 0 limit
             /\ exists rest, map track (Queue_Items (Snap_Queue v)) = QV_Items out ++ rest
        else exists page s1, steps = [Saw s0; Saw v; Paged start limit (Ok page); Saw s1]
             /\ rev d s1 = rev d s0 /\ Queue_Token page = Snap_Token v
             /\ QV_Items out = map track (Queue_Items page) /\ QV_Total out = Queue_Total page /\ QV_Next out = Queue_Next page.

Lemma first_items_prefix limit (q : QueuePage) :
  len (Queue_Items (first_items limit q)) <= Z.max 0 limit /\ exists rest, Queue_Items q = Queue_Items (first_items limit q) ++ rest.
Proof.
  unfold first_items. case_if; cbn; breflect.
  - split; [|exists (drop (Z.to_nat limit) (Queue_Items q)); by rewrite take_drop]. unfold len. rewrite length_take. lia.
  - split; [lia|]. exists []. by rewrite app_nil_r.
Qed.

Lemma live_page_spec d key p v start limit : find_device devices key = Ok d ->
  yields (live_page host devices digest time_text epoch key p v start limit) (fun steps page => exists s1,
    steps = [Paged start limit (Ok page); Saw s1] /\ rev d s1 = CP_Revision p /\ Queue_Token page = Snap_Token v).
Proof.
  intros Hd. unfold live_page. eapply gives_bind; [apply gives_queue_page|]. intros page ? ->.
  eapply gives_bind; [apply gives_ask|]. intros view ? ->. eapply gives_bind; [apply gives_refuse_if|]. intros _ ? [-> Htok].
  eapply gives_bind; [apply player_now_spec|]. intros current ? (d' & s1 & Hd' & -> & ->).
  eapply gives_bind; [apply gives_refuse_if|]. intros _ ? [-> Hrev]. apply gives_ret. breflect. exists s1.
  assert (d' = d) as -> by congruence. split_and!; [done|done|]. done.
Qed.

Lemma queue_of_spec key revision start limit :
  yields (queue_of host devices digest time_text epoch key revision start limit)
    (fun steps out => exists d, find_device devices key = Ok d /\ page_claims d start limit revision steps out).
Proof.
  unfold queue_of. eapply gives_bind; [apply gives_of_result|]. intros d ? [-> Hd].
  eapply gives_bind; [apply player_now_spec|]. intros p ? (d' & s0 & Hd' & -> & ->). assert (d' = d) as -> by congruence.
  eapply gives_bind; [apply gives_observe|]. intros v ? ->.
  eapply gives_bind; [apply gives_refuse_if|]. intros _ ? [-> Hrev]. eapply gives_bind; [apply gives_refuse_if|]. intros _ ? [-> Hstart].
  destruct (Snap_Stale v) eqn:Hst; cbn [negb].
  - eapply gives_bind; [eapply gives_bind; [apply gives_refuse_if|]; intros _ ? [-> Hs]; apply gives_ret;
      instantiate (1 := fun steps q => steps = [] /\ q = first_items limit (Snap_Queue v) /\ (start != 0) || (revision != "") = false); by split_and!|].
    intros q ? (-> & -> & Hs). apply gives_ret. exists d. split; [done|]. breflect. split_and!; cbn; [naive_solver|naive_solver lia|].
    exists s0, v. split; [done|]. destruct (first_items_prefix limit (Snap_Queue v)) as [Hl [rest Hr]].
    split_and!; try done; [by rewrite len_map|]. exists (map track rest). by rewrite Hr at 1; rewrite map_app.
  - eapply gives_bind; [by apply live_page_spec|]. intros q ? (s1 & -> & Hs1 & Htok). apply gives_ret.
    exists d. split; [done|]. breflect. split_and!; cbn; [naive_solver|naive_solver lia|].
    exists s0, v. split; [done|]. by exists q, s1.
Qed.

(** C32. A page of a queue belongs to the revision it names.  A live page is read
    between two observations of the player at that very revision, and comes from
    the connection that the observation in between describes; a stale answer is
    the beginning of the cached queue and only for the first page.  A client
    that names a revision gets that revision or an error, and a later page is
    never served without one. *)
Theorem queue_page_is_current key revision start limit q out q' :
  queue_of host devices digest time_text epoch key revision start limit q = (Ok out, q') ->
  exists d steps, find_device devices key = Ok d /\ R_log q' = R_log q ++ steps /\ page_claims d start limit revision steps out.
Proof.
  intros Hq. destruct (queue_of_spec key revision start limit q) as (steps & Hl & _ & Hout). rewrite Hq in Hl, Hout.
  destruct Hout as (d & Hd & Hp). by exists d, steps.
Qed.

(** ** Preflight *)

Lemma preflight_warnings_nil d cmd refreshed v : preflight_warnings d cmd refreshed v = [] ->
  refreshed = None /\ deviceSafety d v = None
  /\ (exists c, Cfg_VolumeCeiling d = Some c /\ Cmd_Level cmd <= c
        /\ forall a, Cmd_Automation cmd = Some a -> Auto_TargetLevel a <= c)
  /\ (Cmd_Automation cmd <> None -> Cmd_Takeover cmd = false -> Snap_State v <> PlayStatePlay).
Proof.
  unfold preflight_warnings. intros (Hr & (Hs & (Hc & Hb)%app_eq_nil)%app_eq_nil)%app_eq_nil.
  destruct refreshed; [done|]. assert (Hsafe : deviceSafety d v = None).
  { unfold safety_warnings in Hs. destruct (deviceSafety d v) as [e|] eqn:He; [exfalso|done]. cbn in Hs.
    unfold deviceSafety, deviceObservationSafety in He. destruct (Cfg_WritesEnabled d), (Cfg_VolumeCeiling d);
      repeat case_if; simplify_eq; cbn in *; try done; breflect; done. }
  split_and!; [done|done| |].
  - apply deviceSafety_none in Hsafe as [Hsafe _]. apply deviceObservationSafety_none in Hsafe as (_ & _ & _ & _ & _ & _ & _ & _ & _ & [c Hceil]).
    clear Hb. exists c. unfold ceiling_exceeded in Hc. rewrite Hceil in Hc.
    destruct (Cmd_Automation cmd) as [a|]; case_if; try done; breflect; (split_and!; [done|lia|]); intros x [= <-]; lia.
  - intros Ha Ht. case_if; [done|]. breflect. destruct Heqb as [[?|?]|?]; congruence.
Qed.

(** What a ready preflight has checked, by its reads. *)
Definition preflight_claims (me : Z) (d : PlayerConfig) (cmd : Command) (steps : list step) (out : Preflight) : Prop :=
  PF_Ready out = true -> exists before s0 between s1 now,
    steps = [Refreshed None; Saw before; Saw s0] ++ between ++ [Saw s1; Saw now]
    /\ PF_Warnings out = [] /\ PF_Player out = project_player digest time_text epoch d s0
    /\ deviceSafety d before = None
    /\ (exists c, Cfg_VolumeCeiling d = Some c /\ Cmd_Level cmd <= c /\ forall a, Cmd_Automation cmd = Some a -> Auto_TargetLevel a <= c)
    /\ (Cmd_Automation cmd <> None -> Cmd_Takeover cmd = false -> Snap_State before <> PlayStatePlay)
    /\ rev d s1 = rev d s0 /\ sameState before now = true
    /\ exists sel qa qb, resolvePlayback host devices sources me d cmd qa = (Ok sel, qb)
         /\ R_log qb = R_log qa ++ between.

(** The reads of a program, and a run that had them. *)
Lemma gives_run {A} (m : Handler E A) : emits reading m ->
  yields m (fun steps a => exists qa qb, m qa = (Ok a, qb) /\ R_log qb = R_log qa ++ steps).
Proof.
  intros Hm q. destruct (Hm q) as (steps & Hl & Hs). exists steps. split; [done|]. split; [done|].
  destruct (m q) as [[a|e] q'] eqn:Hq; [|done]. by exists q, q'.
Qed.

Lemma state_changed_spec me d player before : find_device devices (Cfg_Key d) = Ok d ->
  yields (state_changed host devices digest time_text epoch me d player before) (fun steps changed => changed = false ->
    exists s1 now, steps = [Saw s1; Saw now] /\ rev d s1 = CP_Revision player /\ sameState before now = true).
Proof.
  intros Hd. unfold state_changed. eapply gives_bind; [apply player_now_spec|]. intros current ? (d' & s1 & Hd' & -> & ->).
  assert (d' = d) as -> by congruence. case_if; [by apply gives_ret|]. breflect.
  eapply gives_bind; [apply gives_observe|]. intros now ? ->. case_if; [by apply gives_ret|]. breflect.
  eapply gives_bind; [apply (ctx_err_silent me)|]. intros ended ? ->. apply gives_ret. intros _. by exists s1, now.
Qed.

Lemma preflight_checked_spec me d cmd : find_device devices (Cfg_Key d) = Ok d ->
  yields (preflight_checked host devices sources digest time_text epoch me d cmd) (preflight_claims me d cmd).
Proof.
  intros Hd. unfold preflight_checked. eapply gives_bind; [apply gives_refresh|]. intros refreshed ? ->.
  eapply gives_bind; [apply gives_observe|]. intros before ? ->.
  eapply gives_bind; [apply player_now_spec|]. intros player ? (d' & s0 & Hd' & -> & ->). assert (d' = d) as -> by congruence.
  case_if; [by apply gives_ret|]. assert (Hw : preflight_warnings d cmd refreshed before = []).
  { breflect. destruct (preflight_warnings d cmd refreshed before); [done|]. unfold len in *. cbn in *. lia. }
  destruct (preflight_warnings_nil _ _ _ _ Hw) as (-> & Hsafe & Hceil & Hbusy).
  eapply gives_bind; [apply gives_run; auto with requests|]. intros sel between (qa & qb & Hrun & Hlog).
  eapply gives_bind; [by apply state_changed_spec|]. intros changed ? Hchanged. apply gives_ret. intros Hready.
  destruct changed; [done|]. destruct (Hchanged eq_refl) as (s1 & now & -> & Hrev & Hsame).
  exists before, s0, between, s1, now. split_and!; try done. by exists sel, qa, qb.
Qed.
End reads.

Lemma find_device_key devices key d : find_device devices key = Ok d -> Cfg_Key d = key.
Proof.
  unfold find_device. destruct (list_find _ devices) as [[i x]|] eqn:Hf; [|done]. intros [= <-].
  by apply list_find_Some in Hf as (_ & ? & _).
Qed.

Lemma find_device_in devices key d : find_device devices key = Ok d -> d ∈ devices.
Proof.
  unfold find_device. destruct (list_find _ devices) as [[i x]|] eqn:Hf; [|done]. intros [= <-].
  apply list_find_Some in Hf as (Hi & _). by eapply list_elem_of_lookup_2.
Qed.

(** C31. A ready preflight has checked everything, and a preflight only reads.
    Whatever the outcome, no step changes the lane, the journal or the device.
    When it says ready, the device was refreshed, the state it then showed was
    safe for a mutation, the start and target volumes are within the configured
    ceiling, an automation would not cut into other playback, the selection was
    resolved, and afterwards the player was still at the reported revision and
    in the judged state. *)
Theorem preflight_ready_is_safe {E} (host : Host E) devices sources digest time_text epoch me key cmd q out q' :
  preflight_of host devices sources digest time_text epoch me key cmd q = (Ok out, q') ->
  exists d steps deadline, find_device devices key = Ok d /\ R_log q' = R_log q ++ steps /\ Forall reading steps
    /\ preflight_bounds cmd = None
    /\ preflight_claims (under_deadline deadline host) devices sources digest time_text epoch me d cmd steps out.
Proof.
  intros Hq. assert (H : yields (preflight_of host devices sources digest time_text epoch me key cmd) (fun steps out =>
    exists d deadline, find_device devices key = Ok d /\ preflight_bounds cmd = None
      /\ preflight_claims (under_deadline deadline host) devices sources digest time_text epoch me d cmd steps out)).
  { unfold preflight_of. eapply gives_bind; [apply gives_of_result|]. intros d ? [-> Hd].
    eapply gives_bind; [apply gives_when_error|]. intros _ ? [-> Hb]. eapply gives_bind; [apply gives_ask|]. intros t ? ->.
    eapply gives_weaken; [apply preflight_checked_spec; by rewrite (find_device_key _ _ _ Hd)|].
    intros steps out' Hc. by exists d, (t + 20 * Second). }
  destruct (H q) as (steps & Hl & Hreads & Hout). rewrite Hq in Hl, Hout. destruct Hout as (d & deadline & Hd & Hb & Hc).
  by exists d, steps, deadline.
Qed.

(** ** At a concrete player *)

Definition page_host : Host unit := sample_host
  <| host_page := fun _ _ _ _ e => (Ok {| Queue_Items := option_list sample_first; Queue_Total := Some 1; Queue_Next := None;
                                          Queue_Token := sample_token |}, e) |>
  <| host_player_view := fun _ _ e => ({| View_Token := sample_token; View_Connected := true |}, e) |>.
Definition idle_request : request unit := {| R_lane := sample_lane; R_host := tt; R_log := [] |}.
Definition sample_queue_read : Result Queue * request unit :=
  queue_of page_host [sample_config] (fun _ => "d") itoa "e" (Cfg_Key sample_config) "" 0 50 idle_request.

Lemma queue_page_is_current_witness : exists out, sample_queue_read.1 = Ok out /\ QV_Revision out = "e-d" /\ len (QV_Items out) = 1.
Proof.
  assert (Hq : exists out q', sample_queue_read = (Ok out, q')) by (vm_compute; by eexists _, _).
  destruct Hq as (out & q' & Hq). exists out. split; [by rewrite Hq|].
  destruct (queue_page_is_current page_host [sample_config] (fun _ => "d") itoa "e" (Cfg_Key sample_config) "" 0 50 idle_request out q' Hq)
    as (d & steps & Hd & Hl & (_ & _ & s0 & v & Hrev & _)).
  split; [exact (eq_sym Hrev)|]. vm_compute in Hq. injection Hq as <- _. reflexivity.
Defined.

(** A paused player and a single track that it can play. *)
Definition single_track : Item := sample_song "m1" <| Item_ContainerID := "c1" |>.
Definition paused_host : Host unit :=
  host_with unknown unknown (fun _ => unknown) None sample_library (Some (fun _ => Ok single_track)).
Definition sample_playback_command : Command :=
  Command_zero <| Cmd_Kind := CommandKindPlayback |> <| Cmd_Level := 10 |> <| Cmd_ItemRef := "a" |> <| Cmd_Repeat := RepeatOff |>.
Definition sample_preflight : Result Preflight * request unit :=
  preflight_of paused_host [sample_config] [sample_source] (fun _ => "d") itoa "e" 1 (Cfg_Key sample_config) sample_playback_command idle_request.

Lemma preflight_ready_is_safe_witness : exists out d before,
  sample_preflight.1 = Ok out /\ PF_Ready out = true /\ deviceSafety d before = None.
Proof.
  assert (Hq : exists out q', sample_preflight = (Ok out, q') /\ PF_Ready out = true) by (vm_compute; by eexists _, _).
  destruct Hq as (out & q' & Hq & Hready).
  destruct (preflight_ready_is_safe paused_host [sample_config] [sample_source] (fun _ => "d") itoa "e" 1 (Cfg_Key sample_config)
    sample_playback_command idle_request out q' Hq) as (d & steps & deadline & _ & _ & _ & _ & Hc).
  destruct (Hc Hready) as (before & s0 & between & s1 & now & _ & _ & _ & Hsafe & _). exists out, d, before.
  split; [by rewrite Hq|]. split; [exact Hready|exact Hsafe].
Defined.
