(* ===== verification/Access.v ===== *)
(** * The HTTP boundary ([internal/api/readonly.go], [mutations.go])

    Who may do what, and how errors are reported: the authentication and the
    scopes of a request, the checks before a handler, the mapping of errors to
    responses, and the handlers of reads and mutations over the same hosts as
    the coordinator.  The router, the contract validator and the encoding of
    responses are third-party or generated code: a request arrives with the
    outcome of the validator and with its body decoded.  [sha256_hex] is the
    lower-case digest of a text. *)

From S2P Require Import Prelude GoStd Values Model Diagnostics Errors Events State QueuePolicy.
From S2P Require Import QueueStart QueueOps Evidence Command Json JournalModel Execution Views Catalog Lane Select Submit Unmarshal Project ReadApi Config Broker.
From Stdlib Require Import Ascii.

(** ** Responses to errors *)

Definition apiFailure (status : Z) (code : string) (retry : bool) : ApiFailure :=
  {| Api_status := status; Api_code := code; Api_retry := retry |}.

(** The switch of [writeError], in its order. *)
Definition classify (err : error) : ApiFailure :=
  match as_api err with
  | Some typed => typed
  | None =>
      let has s := errors_is s err in
      first_match [
        (has ErrNotFound || has JErrNotFound, apiFailure 404 "not_found" false);
        (has ErrPreconditionRequired, apiFailure 428 "precondition_required" false);
        (has ErrPrecondition, apiFailure 412 "revision_changed" false);
        (has ErrGrouped, apiFailure 409 "grouped_target" false);
        (has ErrOwnership, apiFailure 409 "ownership_lost" false);
        (has JErrConflict, apiFailure 409 "idempotency_conflict" false);
        (has JErrBusy || has JErrRevision, apiFailure 409 "device_reserved" false);
        (has JErrInvalid, apiFailure 400 "invalid_request" false);
        (has ErrReadOnly, apiFailure 422 "writes_disabled" false);
        (has ErrAmbiguous, apiFailure 409 "ambiguous_catalog" false);
        (has ErrStaleReference || has ErrStale, apiFailure 409 "stale_reference" false);
        (has ErrBounds, apiFailure 422 "out_of_bounds" false);
        (has ErrNotSkippable, apiFailure 422 "not_skippable" false);
        (has ErrQueueFull || has ErrCatalogFull || has errEventCapacity || has JErrCapacity, apiFailure 429 "capacity_exceeded" true)]
        (apiFailure 503 "unavailable" true)
  end.

Record ErrorReply := {
  ER_Status : Z;
  ER_Code : string;
  ER_Outcome : string;
  ER_Retryable : bool;
  ER_Authenticate : bool;    (* WWW-Authenticate *)
  ER_RetryAfter : bool
}.
#[export] Instance ErrorReply_eta : Eta ErrorReply := fun r =>
  {| ER_Status := ER_Status r; ER_Code := ER_Code r; ER_Outcome := ER_Outcome r; ER_Retryable := ER_Retryable r;
     ER_Authenticate := ER_Authenticate r; ER_RetryAfter := ER_RetryAfter r |}.

Definition writeError (err : error) : ErrorReply :=
  let f := classify err in
  let body := {| ER_Status := Api_status f; ER_Code := Api_code f; ER_Outcome := "not_sent"; ER_Retryable := false;
                 ER_Authenticate := Api_status f =? 401; ER_RetryAfter := Api_status f =? 429 |} in
  let body := if errors_is JErrCommitUncertain err
              then body <| ER_Outcome := "unknown" |> <| ER_Retryable := false |> else body in
  body <| ER_Retryable := Api_retry f |>.

(** ** Identity *)

Definition allows (who : Credential) (player : string) : bool := player in? Cred_Players who.
Definition operator (who : Credential) : bool := "operator" in? Cred_Scopes who.

(** The events that [GetEvents] lets through. *)
Definition event_visible (who : Credential) (e : Event) : bool :=
  ((Evt_Player e == "") || allows who (Evt_Player e))
  && ((Evt_Operation e == "") || (Evt_Principal e == Cred_Principal who) || operator who).

Record HttpRequest := {
  HR_Method : string;
  HR_Path : string;
  HR_RawPath : string;
  HR_Authorization : list string
}.

Definition hasSuffix (s suffix : string) : bool := String.prefix (srev suffix) (srev s).
Fixpoint contains (needle s : string) : bool :=
  hasPrefix s needle || match s with EmptyString => false | String _ rest => contains needle rest end.

Definition bearer_token (r : HttpRequest) : option string :=
  match HR_Authorization r with
  | [value] =>
      let '(scheme, token, ok) := cut " " value in
      if negb ok || (fold_name scheme != "BEARER") || (slen token <? 32) || (256 <? slen token)
         || any_byte (fun b => b in? [32; 9; 13; 10]) token
      then None else Some token
  | _ => None
  end.

Definition lower (c : ascii) : ascii := if is_upper (byte_of c) then of_byte (byte_of c + 32) else c.
Definition lower_hex (s : string) : string := concat_map (fun c => str1 (lower c)) s.

Section access.
Context (sha256_hex : string -> string).

(** The stored digest decodes to the digest of the token. *)
Definition token_matches (token : string) (c : Credential) : bool :=
  all_bytes is_hex (Cred_TokenSHA256 c) && (slen (Cred_TokenSHA256 c) mod 2 =? 0)
  && (lower_hex (Cred_TokenSHA256 c) == sha256_hex token).

(** The loop never stops early; the last credential that matches is taken. *)
Definition authenticate (credentials : list Credential) (r : HttpRequest) : option Credential :=
  match bearer_token r with
  | None => None
  | Some token => foldl (fun found c => if token_matches token c then Some c else found) None credentials
  end.

Definition required_scope (r : HttpRequest) : string :=
  if ((HR_Method r == "POST") && negb (hasSuffix (HR_Path r) "/preflight")) || (HR_Method r == "PUT")
  then if hasSuffix (HR_Path r) "/playback" || hasSuffix (HR_Path r) "/stop" then "operator" else "control"
  else "read".

(** Before the router: who it is (nobody for the health checks), and a plain path. *)
Definition gate (credentials : list Credential) (r : HttpRequest) : Result (option Credential) :=
  let? who :=
    if (HR_Path r == "/livez") || (HR_Path r == "/readyz") then Ok None
    else match authenticate credentials r with
         | None => Err (EApi (apiFailure 401 "unauthorized" false))
         | Some c => if required_scope r in? Cred_Scopes c then Ok (Some c) else Err (EApi (apiFailure 403 "forbidden" false))
         end in
  if contains "//" (HR_Path r) || contains "/../" (HR_Path r) || contains "/./" (HR_Path r) || (HR_RawPath r != "")
  then Err (EApi (apiFailure 400 "invalid_request" false)) else Ok who.
End access.

(** ** The checks of a route *)

(** Numeric policy violations of a body that the validator refused; [members]
    are those of the JSON object. *)
Definition raw_int (v : option json) : option Z :=
  match v with Some v => decoded (dec_int 0 v) | None => None end.
Definition raw_object (v : option json) : option (list (string * json)) :=
  match v with Some (JObject fields) => Some fields | Some JNull => Some [] | _ => None end.
Definition outside (v : option json) (min max : Z) : bool :=
  match raw_int v with Some n => (n <? min) || (max <? n) | None => false end.

Definition level_of (v : option json) : option (option Z) :=
  match v with
  | Some v => decoded (dec_struct [("level", dec_pointer 0 dec_int)] None v)
  | None => None
  end.

Definition automation_outside (a : list (string * json)) : bool :=
  outside (get_field "ramp_seconds" a) 0 7200 || outside (get_field "duration_seconds" a) 1 7200
  || outside (get_field "fade_seconds" a) 0 60
  || match level_of (get_field "target_volume" a) with Some (Some n) => (n <? 0) || (100 <? n) | _ => false end.

Definition mutationOutOfBounds (path : string) (body : json) : bool :=
  match raw_object (Some body) with
  | None => false
  | Some object =>
      if path == "/v1/players/{player}/volume" then outside (get_field "level" object) 0 100
      else if (path == "/v1/players/{player}/playback") || (path == "/v1/players/{player}/preflight") then
        if match raw_object (get_field "automation" object) with Some a => automation_outside a | None => false end then true
        else match raw_object (get_field "initial_volume" object) with
             | Some volume => outside (get_field "level" volume) 0 100
             | None => false
             end
      else if (path == "/v1/players/{player}/stop") || (path == "/v1/operations/{operation}/cancel")
      then outside (get_field "fade_seconds" object) 0 60
      else false
  end.

(** What a handler's route meets: the server, the query, the headers, the body
    (unreadable, or its length, tokens and value) and the validator. *)
Record Incoming := {
  In_Method : string;
  In_Pattern : string;
  In_Stopping : bool;
  In_Busy : bool;                          (* no permit is free *)
  In_Query : option (list (string * list string)); (* None: not a query *)
  In_Allowed : list string;
  In_Headers : list (string * Z);          (* how often each single header occurs *)
  In_Body : option (Z * bool * list token * json);
  In_Valid : bool
}.
Definition single_headers : list string := ["Last-Event-ID"; "Content-Type"; "Idempotency-Key"; "If-Match"].
Definition invalid : error := EApi (apiFailure 400 "invalid_request" false).

(** The router serves HEAD with the handler of GET. *)
Definition route_checks (method : string) (r : Incoming) : option error :=
  if In_Method r != method then Some (EApi (apiFailure 404 "not_found" false))
  else if (In_Pattern r == "/livez") || (In_Pattern r == "/readyz") then None
  else if In_Stopping r then Some (EApi (apiFailure 503 "shutting_down" true))
  else if In_Busy r then Some (EApi (apiFailure 429 "request_capacity" true))
  else match In_Query r with
       | None => Some invalid
       | Some q =>
           if existsb (fun kv => negb (kv.1 in? In_Allowed r) || negb (len kv.2 =? 1)) q then Some invalid
           else if existsb (fun h => (h.1 in? single_headers) && (1 <? h.2)) (In_Headers r) then Some invalid
           else match In_Body r with
                | None => Some invalid
                | Some (size, utf8, tokens, value) =>
                    if (0 <? size) && (((In_Method r != "POST") && (In_Method r != "PUT")) || negb (UniqueJSON utf8 tokens)) then Some invalid
                    else if negb (In_Valid r)
                    then Some (if mutationOutOfBounds (In_Pattern r) value then ESentinel ErrBounds else invalid)
                    else None
                end
       end.

(** The pool that a route takes its permit from. *)
Definition priority_pool (pattern : string) : bool :=
  (pattern == "/v1/players/{player}/stop") || (pattern == "/v1/operations/{operation}/cancel").
