(* ===== verification/Handlers.v ===== *)
(** * The handlers of the API ([internal/api/readonly.go], [mutations.go],
    [history.go])

    Each handler as a program over a host, for an authenticated credential.
    [submitter] is the coordinator, when the process has one; the body of a
    mutation is the JSON value that the journal remembers. *)

From S2P Require Import Prelude GoStd Values Model Diagnostics Errors Events State QueuePolicy.
From S2P Require Import QueueStart QueueOps Evidence Command Json JournalModel Execution Views Catalog Lane Select Submit Unmarshal Project ReadApi Config Broker Access.

(** [value(p, fallback)] of an optional parameter. *)
Definition value {A} (p : option A) (fallback : A) : A := default fallback p.

Definition forbidden : error := EApi (apiFailure 403 "forbidden" false).
Definition operator_required : error := EApi (apiFailure 403 "operator_required" false).

(** A player with the operation that reserves it, when the credential may know. *)
Record PlayerView := { PV_Player : Player; PV_ActiveOperation : option string }.
Record PreflightView := { PFV_Ready : bool; PFV_Warnings : list string; PFV_Player : PlayerView }.

(** The inputs of the mutations, as the generated code decodes them. *)
Record PlaybackInput := {
  PI_ItemRef : option string;
  PI_ItemRefs : option (list string);
  PI_Level : Z;
  PI_Shuffle : bool;
  PI_Repeat : Repeat;
  PI_Takeover : bool;
  PI_ExpectedOwner : option string;
  PI_Buffered : option BufferedPlayback;
  PI_Automation : option Automation
}.
Inductive mutation :=
  | Playback (player : string) (body : PlaybackInput)
  | SetVolume (player : string) (level : Z) (takeover : bool) (owner : option string)
  | SetMute (player : string) (muted takeover : bool) (owner : option string)
  | SetTransport (player : string) (state : PlayState) (takeover : bool) (owner : option string)
  | SkipPlayer (player : string) (direction : string) (takeover : bool)
  | StopPlayer (player : string) (fade : Z)
  | CancelOperation (operation : string) (mode : string) (fade : option Z).

Definition playbackCommand (body : PlaybackInput) : Command :=
  Command_zero <| Cmd_Kind := CommandKindPlayback |> <| Cmd_ItemRef := value (PI_ItemRef body) "" |>
    <| Cmd_ItemRefs := PI_ItemRefs body |> <| Cmd_Level := PI_Level body |> <| Cmd_Shuffle := PI_Shuffle body |>
    <| Cmd_Repeat := PI_Repeat body |> <| Cmd_Takeover := PI_Takeover body |>
    <| Cmd_ExpectedOwner := value (PI_ExpectedOwner body) "" |>
    <| Cmd_Buffered := PI_Buffered body |> <| Cmd_Automation := PI_Automation body |>.

Section handlers.
Context {E : Type} (host : Host E) (devices : list PlayerConfig) (sources : list SourceConfig).
Context (catalogs : string -> option (ID -> string -> string -> Z -> E -> Result CatalogPage * E)).
Context (digest : json -> string) (json_size : json -> Z) (time_text : Time -> string) (parse_time : string -> option Time) (epoch : string).
Context (submitter : option (Z -> Request -> Command -> Handler E Operation)).
Local Abbreviation H := (Handler E).

Definition authorize (who : Credential) (player : string) : H unit :=
  if allows who player then ret tt else fail forbidden.

(** An operation is shown to its principal and to operators of its player. *)
Definition may_see (who : Credential) (op : Operation) : bool :=
  allows who (Op_Player op) && ((Cred_Principal who == Op_Principal op) || operator who).

(** ** Reads *)

(** The reserved operation of a player; none is not an error. *)
Definition active_operation (player : string) : H (option Operation) :=
  let! reply := call (host_active host player) Owner in
  match reply with
  | Ok op => ret (Some op)
  | Err e => if errors_is JErrNotFound e then ret None else fail e
  end.
Definition shown_operation (who : Credential) (op : option Operation) : option string :=
  match op with
  | Some op => if (Op_Principal op == Cred_Principal who) || operator who then Some (Op_ID op) else None
  | None => None
  end.

Definition player_view (who : Credential) (player : string) : H PlayerView :=
  authorize who player ;;;
  let! p := player_now host devices digest time_text epoch player in
  let! op := active_operation player in
  ret {| PV_Player := p; PV_ActiveOperation := shown_operation who op |}.

Fixpoint players_loop (who : Credential) (rest : list PlayerConfig) (out : list PlayerView) : H (list PlayerView) :=
  match rest with
  | [] => ret out
  | d :: rest =>
      if negb (allows who (Cfg_Key d)) then players_loop who rest out
      else let! p := player_view who (Cfg_Key d) in players_loop who rest (out ++ [p])
  end.
Definition GetPlayers (who : Credential) : H (list PlayerView) := players_loop who devices [].
(** The body and its ETag. *)
Definition GetPlayer (who : Credential) (player : string) : H (PlayerView * string) :=
  let! p := player_view who player in ret (p, quoted (CP_Revision (PV_Player p))).

Fixpoint groups_loop (who : Credential) (rest : list PlayerConfig) (out : list PlayerGroup) : H (list PlayerGroup) :=
  match rest with
  | [] => ret out
  | d :: rest =>
      if negb (allows who (Cfg_Key d)) then groups_loop who rest out
      else let! v := observe host (Cfg_Key d) in groups_loop who rest (foldl (group_step (Cfg_Key d) v) out (Snap_Groups v))
  end.
Definition GetGroups (who : Credential) : H (list PlayerGroup) := groups_loop who devices [].
Definition GetSources (who : Credential) : H (list SourceView) := Sources host devices sources (allows who).

Definition GetItems (who : Credential) (source : string) (parent cursor : option string) (limit : option Z) : H Items :=
  let! player := of_result (SourcePlayer sources source) in
  authorize who player ;;;
  items_of host devices sources catalogs source (value parent "") (value cursor "") (value limit 50).

Definition GetQueue (who : Credential) (player : string) (revision : option string) (offset limit : option Z) : H Queue :=
  authorize who player ;;;
  queue_of host devices digest time_text epoch player (value revision "") (value offset 0) (value limit 50).

Definition PreflightPlayer (me : Z) (who : Credential) (player : string) (body : PlaybackInput) : H PreflightView :=
  authorize who player ;;;
  if PI_Takeover body && negb (operator who) then fail operator_required
  else
    let! v := preflight_of host devices sources digest time_text epoch me player (playbackCommand body) in
    let! op := active_operation player in
    let reserved := is_some op && negb (PI_Takeover body) in
    ret {| PFV_Ready := if reserved then false else PF_Ready v;
           PFV_Warnings := if reserved then PF_Warnings v ++ ["device_reserved"] else PF_Warnings v;
           PFV_Player := {| PV_Player := PF_Player v; PV_ActiveOperation := shown_operation who op |} |}.

Definition fetch (id : string) : H Operation :=
  let! reply := call (host_get host id) (Fetched id) in of_result reply.

Definition GetOperation (who : Credential) (id : string) : H PublicOperation :=
  let! op := fetch id in
  if may_see who op then ret (ProjectOperation parse_time op) else fail forbidden.

(** The subscription of a stream; a new address holds it. *)
Definition GetEvents (who : Credential) (last : option string) (id : address) (b : Events) : Result (list Event) * Events :=
  Subscribe id (value last "") (event_visible who) b.

(** ** Mutations *)

(** [Server.submit]; [body] is the marshalled input. *)
Definition submit_as (me : Z) (who : Credential) (player key match_ method path : string) (body : json) (cmd : Command) : H PublicOperation :=
  authorize who player ;;;
  if Cmd_Takeover cmd && negb (operator who) then fail operator_required
  else match submitter with
       | None => fail (EApi (apiFailure 503 "control_unavailable" true))
       | Some submit =>
           let! op := submit me {| Req_Principal := Cred_Principal who; Req_Method := method; Req_Endpoint := path; Req_Key := key;
                                   Req_Player := player; Req_IfMatch := match_; Req_Body := marshal json_size body |} cmd in
           ret (ProjectOperation parse_time op)
       end.

(** The handlers of mutations: [key] is the Idempotency-Key, [match_] the If-Match. *)
Definition mutate (me : Z) (who : Credential) (key : string) (match_ : option string) (method path : string) (body : json) (m : mutation) : H PublicOperation :=
  let submit player match_ cmd := submit_as me who player key match_ method path body cmd in
  match m with
  | Playback player input => submit player (value match_ "") (playbackCommand input)
  | SetVolume player level takeover owner =>
      submit player (value match_ "") (Command_zero <| Cmd_Kind := CommandKindVolume |> <| Cmd_Level := level |>
                                         <| Cmd_Takeover := takeover |> <| Cmd_ExpectedOwner := value owner "" |>)
  | SetMute player muted takeover owner =>
      submit player (value match_ "") (Command_zero <| Cmd_Kind := CommandKindMute |> <| Cmd_Muted := muted |>
                                         <| Cmd_Takeover := takeover |> <| Cmd_ExpectedOwner := value owner "" |>)
  | SetTransport player state takeover owner =>
      submit player (value match_ "") (Command_zero <| Cmd_Kind := CommandKindTransport |> <| Cmd_State := state |>
                                         <| Cmd_Takeover := takeover |> <| Cmd_ExpectedOwner := value owner "" |>)
  | SkipPlayer player direction takeover =>
      submit player (value match_ "") (Command_zero <| Cmd_Kind := CommandKindSkip |> <| Cmd_Direction := direction |>
                                         <| Cmd_Takeover := takeover |>)
  | StopPlayer player fade => submit player "" (Command_zero <| Cmd_Kind := CommandKindStop |> <| Cmd_FadeSeconds := fade |>)
  | CancelOperation id mode fade =>
      let! target := fetch id in
      if negb (may_see who target) then fail forbidden
      else if (mode == "release") && (value fade 0 != 0) then fail (EApi (apiFailure 422 "release_cannot_fade" false))
      else submit (Op_Player target) "" (Command_zero <| Cmd_Kind := CommandKindCancel |> <| Cmd_Target := Op_ID target |>
                                           <| Cmd_Mode := mode |> <| Cmd_FadeSeconds := value fade 0 |>)
  end.

(** The route of a mutation and the path of a request for it. *)
Definition mutation_route (m : mutation) : string * string :=
  match m with
  | Playback p _ => ("POST", "/v1/players/" +:+ p +:+ "/playback")
  | SetVolume p _ _ _ => ("PUT", "/v1/players/" +:+ p +:+ "/volume")
  | SetMute p _ _ _ => ("PUT", "/v1/players/" +:+ p +:+ "/mute")
  | SetTransport p _ _ _ => ("PUT", "/v1/players/" +:+ p +:+ "/transport")
  | SkipPlayer p _ _ => ("POST", "/v1/players/" +:+ p +:+ "/skip")
  | StopPlayer p _ => ("POST", "/v1/players/" +:+ p +:+ "/stop")
  | CancelOperation id _ _ => ("POST", "/v1/operations/" +:+ id +:+ "/cancel")
  end.
End handlers.

(** A mutation from the socket to its handler: the gate, the checks of its route
    and the handler, for the credential that the gate found. *)
Definition serve_mutation {E} (host : Host E) json_size parse_time submitter sha256_hex
    (credentials : list Credential) (me : Z) (r : HttpRequest) (incoming : Incoming) (key : string) (match_ : option string)
    (body : json) (m : mutation) : Handler E PublicOperation :=
  let! who := of_result (gate sha256_hex credentials r) in
  when_error (route_checks (mutation_route m).1 incoming) ;;;
  match who with
  | None => fail panic
  | Some who => mutate host json_size parse_time submitter me who key match_ (HR_Method r) (HR_Path r) body m
  end.
