(* ===== verification/AccessProps.v ===== *)
(** * Who may do what

    The error responses, the identity behind a request, and the whole way of a
    mutation from the socket to the journal: the coordinator enters through the
    interface [Submitter], which [Submit] implements. *)

From S2P Require Import Prelude GoStd Values Model Diagnostics Errors Events State QueuePolicy.
From S2P Require Import QueueStart QueueOps Evidence Command Json JournalModel Execution Views Catalog Lane Select Submit Hosts.
From S2P Require Import SubmitSafety SubmitProps Unmarshal Project ReadApi Config ConfigProps Broker Access Handlers.
From Stdlib Require Import Ascii.

(** ** Responses to errors *)

(** The rules of [classify] only give these. *)
Definition known_failure (f : ApiFailure) : Prop :=
  Api_status f ∈ [400; 404; 409; 412; 422; 428; 429; 503]
  /\ (Api_retry f = true <-> Api_status f = 429 \/ Api_status f = 503).

Lemma classify_known err : as_api err = None -> known_failure (classify err).
Proof.
  intros Ha. unfold classify. rewrite Ha. cbv zeta. apply first_match_all.
  - repeat constructor; cbn; try done; try set_solver; try lia; intros; try (by left); intuition discriminate.
  - split; [set_solver|]. cbn. split; [by right|done].
Qed.

(** C33. Error responses are consistent.  Whatever the error, the challenge comes
    with 401 and the delay with 429, and the outcome is reported as unknown
    exactly when the commit of the journal was uncertain, so an operation that
    may exist is never reported as not sent; a failure of no API kind gets one
    of eight statuses and is retryable exactly when capacity or availability is
    missing.  That leaves the uncertain commit retryable, whose flag the
    function clears and then sets again. *)
Theorem error_replies_are_consistent err :
  let reply := writeError err in
  (ER_Authenticate reply = true <-> ER_Status reply = 401)
  /\ (ER_RetryAfter reply = true <-> ER_Status reply = 429)
  /\ ER_Outcome reply = (if errors_is JErrCommitUncertain err then "unknown" else "not_sent")
  /\ (as_api err = None ->
        ER_Status reply ∈ [400; 404; 409; 412; 422; 428; 429; 503]
        /\ (ER_Retryable reply = true <-> ER_Status reply = 429 \/ ER_Status reply = 503))
  /\ ER_Retryable (writeError (ESentinel JErrCommitUncertain)) = true.
Proof.
  cbv zeta. unfold writeError. cbv zeta.
  split_and!; [case_if; cbn; by rewrite Z.eqb_eq..|by case_if| |reflexivity].
  intros Ha. destruct (classify_known err Ha) as [Hs Hr]. case_if; cbn; by split.
Qed.

(** ** Identity *)

(** Loaded credentials are told apart by their digests. *)
Lemma same_token players l c c' : credentials_ok players l -> c ∈ l -> c' ∈ l ->
  Cred_TokenSHA256 c = Cred_TokenSHA256 c' -> c = c'.
Proof.
  intros [_ _ _ Hn] Hin Hin' Heq.
  apply list_elem_of_lookup in Hin as [i Hi]. apply list_elem_of_lookup in Hin' as [j Hj].
  assert (i = j) as ->; [|congruence].
  apply (NoDup_lookup _ _ _ (Cred_TokenSHA256 c) Hn); rewrite list_lookup_fmap; [rewrite Hi|rewrite Hj]; cbn; congruence.
Qed.

Section identity.
Context (sha256_hex : string -> string).

(** The loop of [authenticate], from what it has found so far. *)
Lemma last_match token l : forall found c,
  foldl (fun found c => if token_matches sha256_hex token c then Some c else found) found l = Some c ->
  found = Some c \/ (c ∈ l /\ token_matches sha256_hex token c = true).
Proof.
  induction l as [|x l IH]; intros found c; cbn; [by left|].
  intros H. apply IH in H as [H|[H1 H2]]; [|right; split; [by right|done]].
  case_if; [|by left]. injection H as ->. right. split; [by left|done].
Qed.

Lemma authenticate_some l r c : authenticate sha256_hex l r = Some c ->
  exists token, bearer_token r = Some token /\ c ∈ l /\ token_matches sha256_hex token c = true.
Proof.
  unfold authenticate. destruct (bearer_token r) as [token|]; [|done]. intros H.
  apply last_match in H as [[=]|H]. by exists token.
Qed.

(** A lower-case digest is its own lower case. *)
Lemma lower_hex_plain s : all_bytes (fun b => negb (is_upper b)) s = true -> lower_hex s = s.
Proof.
  unfold lower_hex. induction s as [|c s IH]; [done|]. cbn -[byte_of is_upper]. rewrite andb_true_iff. intros [Hc Hs].
  unfold lower. apply negb_true_iff in Hc. rewrite Hc. f_equal. by apply IH.
Qed.

Lemma matching_digest players token c : credential_valid players c ->
  token_matches sha256_hex token c = true -> Cred_TokenSHA256 c = sha256_hex token.
Proof.
  intros [_ Ht _ _]. unfold validDigest in Ht. unfold token_matches. rewrite !andb_true_iff in *.
  intros [_ H]. breflect. by rewrite <- H, lower_hex_plain.
Qed.

(** Who passes the gate, on any path but the health checks. *)
Lemma gate_ok credentials r who : gate sha256_hex credentials r = Ok (Some who) ->
  authenticate sha256_hex credentials r = Some who /\ required_scope r ∈ Cred_Scopes who.
Proof.
  unfold gate. case_if; cbn.
  - case_if; done.
  - destruct (authenticate sha256_hex credentials r) as [c|]; [|done]. destruct (required_scope r in? Cred_Scopes c) eqn:Hs; [|done].
    cbn. case_if; [done|]. intros [= ->]. split; [done|]. by breflect.
Qed.
End identity.

(** ** The scope of a mutation *)

Definition routed (r : HttpRequest) (m : mutation) : Prop := (HR_Method r, HR_Path r) = mutation_route m.
Definition mutation_scope (m : mutation) : string :=
  match m with Playback _ _ | StopPlayer _ _ => "operator" | _ => "control" end.

Lemma list_ascii_app (a b : string) :
  String.list_ascii_of_string (a +:+ b) = String.list_ascii_of_string a ++ String.list_ascii_of_string b.
Proof. induction a as [|c a IH]; [done|]. cbn. by rewrite <- IH. Qed.
Lemma string_of_app (l1 l2 : list ascii) :
  String.string_of_list_ascii (l1 ++ l2) = String.string_of_list_ascii l1 +:+ String.string_of_list_ascii l2.
Proof. induction l1 as [|c l IH]; [done|]. cbn. by rewrite IH. Qed.
Lemma srev_app (a b : string) : srev (a +:+ b) = srev b +:+ srev a.
Proof. unfold srev. by rewrite list_ascii_app, rev_app_distr, string_of_app. Qed.

Lemma app_assoc_string (a b c : string) : a +:+ b +:+ c = (a +:+ b) +:+ c.
Proof. induction a as [|x a IH]; [done|]. exact (f_equal (String x) IH). Qed.
Lemma prefix_app_string (a b : string) : String.prefix a (a +:+ b) = true.
Proof. induction a as [|c a IH]; [by destruct b|]. change ((if Ascii.ascii_dec c c then String.prefix a (a +:+ b) else false) = true). by destruct (Ascii.ascii_dec c c) as [_|[]]. Qed.
Lemma hasSuffix_app (a b : string) : hasSuffix (a +:+ b) b = true.
Proof. unfold hasSuffix. by rewrite srev_app, prefix_app_string. Qed.

Lemma required_scope_of_mutation r m : routed r m -> required_scope r = mutation_scope m.
Proof.
  intros H. unfold required_scope. destruct m; injection H as -> ->; rewrite ?(app_assoc_string "/v1/players/"), ?hasSuffix_app, ?orb_true_r;
    unfold hasSuffix; rewrite !srev_app; vm_compute; reflexivity.
Qed.

(** ** The interface of the coordinator *)

(** A submitter asks the journal for nothing but the request it was given, and
    for an operation of the command's kind. *)
Definition submits {E A} (r : Request) (cmd : Command) (m : Handler E A) : Prop :=
  spec m (fun steps _ => forall r' pr reply, Asked r' pr reply ∈ steps ->
                           r' = r /\ Prop_Kind pr = CommandKind_string (Cmd_Kind cmd)).
Class Submitter {E} (submit : Z -> Request -> Command -> Handler E Operation) : Prop :=
  submitter_asks : forall me r cmd, submits r cmd (submit me r cmd).

#[export] Instance Submit_submitter {E} (host : Host E) devices sources p digest json_size time_text epoch fuel :
  Submitter (Submit host devices sources p digest json_size time_text epoch fuel).
Proof.
  intros me r cmd. eapply req_weaken; [apply submit_log|]. intros steps out [b Hlog] r' pr reply Hin.
  destruct (log_admission _ _ _ _ _ _ _ _ Hlog Hin) as (-> & pre & post & _ & _ & _ & Hcase). split; [done|].
  destruct Hcase as [(s & _ & (Hk & _) & _)|(Hk & -> & _)]; [done|].
  unfold is_skip in Hk. breflect. by rewrite Hk.
Qed.

(** ** The handlers of mutations *)

Definition takes_over (m : mutation) : bool :=
  match m with
  | Playback _ input => PI_Takeover input
  | SetVolume _ _ t _ | SetMute _ _ t _ | SetTransport _ _ t _ | SkipPlayer _ _ t => t
  | StopPlayer _ _ | CancelOperation _ _ _ => false
  end.
Definition kind_of (m : mutation) : CommandKind :=
  match m with
  | Playback _ _ => CommandKindPlayback
  | SetVolume _ _ _ _ => CommandKindVolume
  | SetMute _ _ _ _ => CommandKindMute
  | SetTransport _ _ _ _ => CommandKindTransport
  | SkipPlayer _ _ _ => CommandKindSkip
  | StopPlayer _ _ => CommandKindStop
  | CancelOperation _ _ _ => CommandKindCancel
  end.

(** The player of a mutation: that of its path, or of the operation it cancels,
    which the credential may see. *)
Definition aims (who : Credential) (m : mutation) (steps : list step) (player : string) : Prop :=
  match m with
  | Playback p _ | SetVolume p _ _ _ | SetMute p _ _ _ | SetTransport p _ _ _ | SkipPlayer p _ _ | StopPlayer p _ => player = p
  | CancelOperation id _ _ => exists op, Fetched id (Ok op) ∈ steps /\ player = Op_Player op
                                /\ (Op_Principal op = Cred_Principal who \/ operator who = true)
  end.

Record authorized (who : Credential) (key : string) (m : mutation) (steps : list step) (r : Request) (pr : Proposal) : Prop := {
  au_principal : Req_Principal r = Cred_Principal who;
  au_player : Req_Player r ∈ Cred_Players who;
  au_aims : aims who m steps (Req_Player r);
  au_key : Req_Key r = key;
  au_takeover : takes_over m = true -> operator who = true;
  au_kind : Prop_Kind pr = CommandKind_string (kind_of m)
}.

Section mutations.
Context {E : Type} (host : Host E) (json_size : json -> Z) (parse_time : string -> option Time).
Context (submit : Z -> Request -> Command -> Handler E Operation) `{!Submitter submit}.
#[local] Set Default Proof Using "All".

(** [submit_as] asks for its caller and its player only. *)
Lemma submit_as_spec me who player key match_ method path body cmd :
  spec (submit_as json_size parse_time (Some submit) me who player key match_ method path body cmd)
    (fun steps _ => forall r pr reply, Asked r pr reply ∈ steps ->
       Req_Principal r = Cred_Principal who /\ Req_Player r = player /\ player ∈ Cred_Players who /\ Req_Key r = key
       /\ (Cmd_Takeover cmd = true -> operator who = true) /\ Prop_Kind pr = CommandKind_string (Cmd_Kind cmd)).
Proof.
  unfold submit_as, authorize, allows.
  eapply (req_bind _ _ (fun steps out => steps = [] /\ (forall u, out = Ok u -> player ∈ Cred_Players who))).
  { case_if; [apply req_ret|apply req_fail]; (split; [done|]); [intros _ _; by breflect|done]. }
  { intros ? ? [-> _] ? ? ? Hin. by apply not_elem_of_nil in Hin. }
  intros u ? [-> Hp]. specialize (Hp _ eq_refl).
  destruct (Cmd_Takeover cmd && negb (operator who)) eqn:Ht; [apply req_fail; intros ? ? ? Hin; by apply not_elem_of_nil in Hin|].
  assert (Ho : Cmd_Takeover cmd = true -> operator who = true) by (destruct (Cmd_Takeover cmd), (operator who); done).
  eapply (req_bind _ _ _).
  - apply (Submitter0 me _ cmd).
  - intros steps e H r pr reply Hin. apply H in Hin as [-> Hk]. by split_and!.
  - intros op steps H. apply req_ret. rewrite app_nil_r. intros r pr reply Hin. apply H in Hin as [-> Hk]. by split_and!.
Qed.

Lemma fetch_spec id : spec (fetch host id) (fun steps out => steps = [Fetched id out]).
Proof using Type.
  unfold fetch. eapply (req_bind _ _ (fun steps out => exists reply, steps = [Fetched id reply] /\ out = Ok reply)).
  - apply req_call. intros reply. by exists reply.
  - by intros ? ? (? & _ & [=]).
  - intros reply steps (? & -> & [= <-]). by apply req_of_result.
Qed.

Lemma may_see_spec who op : may_see who op = true <->
  Op_Player op ∈ Cred_Players who /\ (Op_Principal op = Cred_Principal who \/ operator who = true).
Proof using Type. unfold may_see, allows. rewrite andb_true_iff, orb_true_iff. breflect. naive_solver. Qed.

Definition asks_only (P : list step -> Request -> Proposal -> Prop) (steps : list step) : Prop :=
  forall r pr reply, Asked r pr reply ∈ steps -> P steps r pr.

Lemma mutate_spec me who key match_ method path body m :
  spec (mutate host json_size parse_time (Some submit) me who key match_ method path body m)
    (fun steps _ => asks_only (authorized who key m) steps).
Proof.
  destruct m as [p input|p l t o|p b t o|p st t o|p d t|p f|id mode f].
  1-6: eapply req_weaken; [apply submit_as_spec|]; intros steps out H r pr reply Hin;
    destruct (H _ _ _ Hin) as (? & <- & ? & ? & ? & ?); by constructor.
  unfold mutate. eapply (req_bind _ _ _ _ (fetch_spec id)).
  { intros ? e -> r pr reply Hin. by apply list_elem_of_singleton in Hin. }
  intros op ? ->.
  assert (Hnone : forall e, spec (@fail E PublicOperation e) (fun more _ => asks_only (authorized who key (CancelOperation id mode f)) ([Fetched id (Ok op)] ++ more))).
  { intros e. apply req_fail. intros r pr reply Hin. by apply list_elem_of_singleton in Hin. }
  destruct (may_see who op) eqn:Hsee; [|by apply Hnone]. cbn [negb]. case_if; [by apply Hnone|]. apply may_see_spec in Hsee as [_ Hwho].
  eapply req_weaken; [apply submit_as_spec|]. intros steps out H r pr reply Hin.
  apply elem_of_cons in Hin as [[=]|Hin]. destruct (H _ _ _ Hin) as (? & Hp & ? & ? & ? & ?).
  constructor; try done; [by rewrite Hp|]. exists op. split; [by left|by split].
Qed.
End mutations.

(** A proposal of a served mutation was made for the credential of the gate. *)
Lemma serve_spec {E} (host : Host E) json_size parse_time submit `{!Submitter submit} sha256_hex credentials me r incoming key match_ body m :
  spec (serve_mutation host json_size parse_time (Some submit) sha256_hex credentials me r incoming key match_ body m)
    (fun steps _ => asks_only (fun steps r' pr => exists who, gate sha256_hex credentials r = Ok (Some who)
                                                    /\ authorized who key m steps r' pr) steps).
Proof.
  unfold serve_mutation. eapply req_bind.
  - apply (req_of_result _ (fun steps out => steps = [] /\ out = gate sha256_hex credentials r)). done.
  - intros ? e [-> _] ? ? ? Hin. by apply not_elem_of_nil in Hin.
  - intros who ? [-> Hg]. eapply (req_bind _ _ (fun steps _ => steps = [])).
    + by apply req_when_error; intros.
    + intros ? e -> ? ? ? Hin. by apply not_elem_of_nil in Hin.
    + intros _ ? ->. destruct who as [who|]; [|apply req_fail; intros ? ? ? Hin; by apply not_elem_of_nil in Hin].
      eapply req_weaken; [by apply mutate_spec|]. intros steps out H ? ? ? Hin. exists who. split; [done|]. by eapply H.
Qed.

(** C27. The journal only admits what its credential may do.  Of loaded
    credentials, a mutation that reaches the journal through the gate, the
    checks of its route, its handler and the coordinator belongs to the one
    credential whose digest is that of the bearer token: it is asked in that
    principal's name and with the client's key, for a configured player of that
    credential, the one of the path or of the operation to cancel, which the
    principal owns or as an operator may cancel; it is of the kind of the route,
    the credential has the route's scope, and only an operator takes over. *)
Theorem admissions_are_authorized {E} (host : Host E) devices sources p digest json_size time_text epoch fuel parse_time sha256_hex
    path file credentials me r incoming key match_ body m q steps r' pr reply :
  LoadCredentials path file devices = inr credentials -> routed r m ->
  R_log (serve_mutation host json_size parse_time (Some (Submit host devices sources p digest json_size time_text epoch fuel))
           sha256_hex credentials me r incoming key match_ body m q).2 = R_log q ++ steps ->
  Asked r' pr reply ∈ steps ->
  exists token who, bearer_token r = Some token /\ who ∈ credentials /\ Cred_TokenSHA256 who = sha256_hex token
    /\ (forall c, c ∈ credentials -> Cred_TokenSHA256 c = sha256_hex token -> c = who)
    /\ mutation_scope m ∈ Cred_Scopes who /\ Req_Player r' ∈ map Cfg_Key devices
    /\ authorized who key m steps r' pr.
Proof.
  intros Hload Hroute Hl Hin. apply LoadCredentials_ok in Hload.
  destruct (serve_spec host json_size parse_time (Submit host devices sources p digest json_size time_text epoch fuel) sha256_hex credentials me r incoming key match_ body m q) as (steps' & Hl' & Hasks).
  rewrite Hl in Hl'. apply app_inv_head in Hl' as <-. destruct (Hasks _ _ _ Hin) as (who & Hgate & Hauth).
  apply gate_ok in Hgate as [Hwho Hscope]. apply authenticate_some in Hwho as (token & Htoken & Hc & Hmatch).
  rewrite (required_scope_of_mutation _ _ Hroute) in Hscope.
  pose proof (ck_valid _ _ Hload) as Hvalid. rewrite Forall_forall in Hvalid.
  pose proof (matching_digest _ _ _ _ (Hvalid _ Hc) Hmatch) as Hdigest.
  exists token, who. split_and!; try done.
  - intros c Hcin Heq. apply (same_token devices credentials); congruence || done.
  - destruct (cv_players _ _ (Hvalid _ Hc)) as (_ & _ & _ & Hall). rewrite Forall_forall in Hall. apply Hall, Hauth.
Qed.

(** ** What the reads show *)

Section views.
Context {E : Type} (host : Host E) (devices : list PlayerConfig).
Context (digest : json -> string) (time_text : Time -> string) (epoch : string).

(** A view of a player, as its own credential may have it. *)
Definition view_claims (who : Credential) (steps : list step) (p : PlayerView) : Prop :=
  CP_Key (PV_Player p) ∈ Cred_Players who
  /\ (exists d v, d ∈ devices /\ Saw v ∈ steps /\ PV_Player p = project_player digest time_text epoch d v)
  /\ exists reply, Owner reply ∈ steps
       /\ forall id, PV_ActiveOperation p = Some id <->
            exists op, reply = Ok op /\ id = Op_ID op /\ (Op_Principal op = Cred_Principal who \/ operator who = true).

Lemma active_operation_spec player :
  yields (active_operation host player)
    (fun steps op => exists reply, steps = [Owner reply] /\ forall o, op = Some o <-> reply = Ok o).
Proof.
  unfold active_operation. eapply gives_bind.
  - apply (req_call _ _ (fun steps out => Forall reading steps /\ match out with Ok a => steps = [Owner a] | Err _ => True end)).
    intros a. split; [by repeat constructor|done].
  - intros [op|e] ? ->; [apply gives_ret|case_if; [apply gives_ret|apply gives_fail]];
      eexists; (split; [reflexivity|]); naive_solver.
Qed.

Lemma shown_operation_spec who op id : shown_operation who op = Some id <->
  exists o, op = Some o /\ id = Op_ID o /\ (Op_Principal o = Cred_Principal who \/ operator who = true).
Proof.
  destruct op as [o|]; cbn; [|split; [done|by intros (? & [=] & _)]].
  destruct (Op_Principal o == Cred_Principal who) eqn:Hp, (operator who) eqn:Ho; cbn; breflect;
    (split; [intros [=]; subst; exists o; auto|intros (? & [= <-] & -> & [?|?]); congruence]).
Qed.

Lemma view_claims_more who steps more before p :
  view_claims who steps p -> view_claims who (before ++ steps ++ more) p.
Proof.
  intros (Hk & (d & v & Hd & Hv & Hp) & reply & Hr & Hop). split; [done|]. split.
  - exists d, v. split_and!; try done. rewrite !elem_of_app. by right; left.
  - exists reply. split; [|done]. rewrite !elem_of_app. by right; left.
Qed.

Lemma player_view_spec who key :
  yields (player_view host devices digest time_text epoch who key)
    (fun steps p => view_claims who steps p /\ CP_Key (PV_Player p) = key).
Proof.
  unfold player_view, authorize, allows.
  eapply (gives_bind _ _ (fun steps _ => steps = [] /\ key ∈ Cred_Players who)).
  { case_if; [apply gives_ret; breflect; by split|apply gives_fail]. }
  intros _ ? [-> Hwho]. eapply gives_bind; [apply player_now_spec|]. intros p ? (d & v & Hd & -> & ->).
  eapply gives_bind; [apply active_operation_spec|]. intros op ? (reply & -> & Hreply). apply gives_ret.
  pose proof (find_device_key _ _ _ Hd) as Hkey. split; [|done]. split; [by rewrite <- Hkey in Hwho|]. split.
  - exists d, v. split_and!; [by eapply find_device_in|by left|done].
  - exists reply. split; [by right; left|]. intros id. cbn. rewrite shown_operation_spec. setoid_rewrite Hreply. done.
Qed.

Definition shown_keys (who : Credential) (l : list PlayerConfig) : list string :=
  filter (fun k => k ∈ Cred_Players who) (map Cfg_Key l).

Lemma players_loop_spec who rest : forall out,
  yields (players_loop host devices digest time_text epoch who rest out)
    (fun steps l => exists views, l = out ++ views /\ map (fun p => CP_Key (PV_Player p)) views = shown_keys who rest
                      /\ Forall (view_claims who steps) views).
Proof.
  induction rest as [|d rest IH]; intros out; cbn [players_loop].
  { apply gives_ret. exists []. by rewrite app_nil_r. }
  unfold allows. unfold shown_keys. cbn [map]. rewrite filter_cons. case_if; breflect.
  - rewrite decide_False by done. apply IH.
  - rewrite decide_True by done. eapply gives_bind; [apply player_view_spec|]. intros p steps [Hp Hk].
    eapply gives_weaken; [apply IH|]. intros more l (views & -> & Hmap & Hall). exists (p :: views).
    rewrite <- app_assoc. split_and!; [done|cbn; by rewrite Hk, Hmap|]. constructor.
    + by apply (view_claims_more _ _ more []).
    + eapply Forall_impl; [exact Hall|]. intros x Hx. rewrite <- (app_nil_r more). by apply view_claims_more.
Qed.
End views.

(** A list of players shows what the credential may see.  It holds the
    credential's configured players, all of them and in their order, each from
    one observed state of its device; the operation that reserves a player is
    shown exactly when the journal knows one that is the principal's own, or
    the credential is an operator's. *)
Theorem players_shown_as_allowed {E} (host : Host E) devices digest time_text epoch who q views q' :
  GetPlayers host devices digest time_text epoch who q = (Ok views, q') ->
  exists steps, R_log q' = R_log q ++ steps /\ Forall reading steps
    /\ map (fun p => CP_Key (PV_Player p)) views = filter (fun k => k ∈ Cred_Players who) (map Cfg_Key devices)
    /\ Forall (fun p => (exists d v, d ∈ devices /\ Saw v ∈ steps /\ PV_Player p = project_player digest time_text epoch d v)
         /\ exists reply, Owner reply ∈ steps
              /\ forall id, PV_ActiveOperation p = Some id <->
                   exists op, reply = Ok op /\ id = Op_ID op /\ (Op_Principal op = Cred_Principal who \/ operator who = true)) views.
Proof.
  intros Hq. destruct (players_loop_spec host devices digest time_text epoch who devices [] q) as (steps & Hl & Hr & Hout).
  unfold GetPlayers in Hq. rewrite Hq in Hl, Hout. destruct Hout as (views' & -> & Hkeys & Hall). exists steps.
  split_and!; try done. cbn [app]. eapply Forall_impl; [exact Hall|]. by intros p (_ & ? & ?).
Qed.

(** An operation is shown to its principal and to operators of its player
    only, as the journal had it. *)
Theorem operation_shown_as_allowed {E} (host : Host E) parse_time who id q v q' :
  GetOperation host parse_time who id q = (Ok v, q') ->
  exists op, R_log q' = R_log q ++ [Fetched id (Ok op)] /\ v = ProjectOperation parse_time op
    /\ Op_Player op ∈ Cred_Players who /\ (Op_Principal op = Cred_Principal who \/ operator who = true).
Proof.
  intros Hq. assert (H : spec (GetOperation host parse_time who id)
    (fun steps out => forall v, out = Ok v -> exists op, steps = [Fetched id (Ok op)] /\ v = ProjectOperation parse_time op /\ may_see who op = true)).
  { unfold GetOperation. eapply req_bind; [apply fetch_spec|done|]. intros op ? ->. case_if; [apply req_ret|by apply req_fail].
    intros ? [= <-]. by exists op. }
  destruct (H q) as (steps & Hl & Hout). rewrite Hq in Hl, Hout. destruct (Hout v eq_refl) as (op & -> & -> & Hsee).
  exists op. apply may_see_spec in Hsee as [? ?]. done.
Qed.

(** ** At a concrete client *)

Definition sample_digest : string := "0123456789abcdef0123456789abcdef0123456789abcdef0123456789abcdef".
Definition sample_credential : Credential := {|
  Cred_Principal := "alice"; Cred_TokenSHA256 := sample_digest; Cred_Scopes := ["read"; "control"]; Cred_Players := ["kitchen"] |}.
Definition sample_http : HttpRequest := {|
  HR_Method := "PUT"; HR_Path := "/v1/players/kitchen/volume"; HR_RawPath := ""; HR_Authorization := ["Bearer " +:+ sample_digest] |}.
Definition sample_incoming : Incoming := {|
  In_Method := "PUT"; In_Pattern := "/v1/players/{player}/volume"; In_Stopping := false; In_Busy := false; In_Query := Some [];
  In_Allowed := []; In_Headers := []; In_Body := Some (0, true, [], JNull); In_Valid := true |}.
Definition sample_mutation : mutation := SetVolume "kitchen" 10 false None.
(** The token is its own digest. *)
Definition sample_served : Result PublicOperation * request unit :=
  serve_mutation sample_host (fun _ => 0) (fun _ => None)
    (Some (Submit sample_host [sample_config] [] sample_config (fun _ => "d") (fun _ => 0) itoa "e" 5))
    id [sample_credential] 1 sample_http sample_incoming "k" (Some (quoted "e-d")) JNull sample_mutation idle_request.

Lemma admissions_are_authorized_witness : exists r pr reply,
  Asked r pr reply ∈ R_log sample_served.2 /\ Req_Principal r = "alice" /\ Req_Player r ∈ ["kitchen"].
Proof.
  assert (H : exists r pr reply, Asked r pr reply ∈ R_log sample_served.2).
  { vm_compute. repeat eexists. repeat first [apply list_elem_of_here | apply list_elem_of_further]. }
  destruct H as (r & pr & reply & Hin).
  assert (Hload : LoadCredentials "file" (inr {| CF_Version := 1; CF_Credentials := Some [sample_credential] |}) [sample_config]
                  = inr [sample_credential]) by (vm_compute; reflexivity).
  assert (Hroute : routed sample_http sample_mutation) by (vm_compute; reflexivity).
  destruct (admissions_are_authorized sample_host [sample_config] [] sample_config (fun _ => "d") (fun _ => 0) itoa "e" 5 (fun _ => None) id
    "file" _ _ 1 sample_http sample_incoming "k" (Some (quoted "e-d")) JNull sample_mutation idle_request (R_log sample_served.2)
    r pr reply Hload Hroute eq_refl Hin) as (token & who & _ & Hwho & _ & _ & _ & _ & [Hp Hpl _ _ _ _]).
  apply list_elem_of_singleton in Hwho. rewrite Hwho in Hp, Hpl. exists r, pr, reply. split; [exact Hin|]. split; [exact Hp|exact Hpl].
Defined.

Definition reserving : Host unit := host_with unknown (Ok (sample_owner "op-0")) (fun _ => unknown) None unbrowsable None.
Definition sample_players : Result (list PlayerView) * request unit :=
  GetPlayers reserving [sample_config] (fun _ => "d") itoa "e" sample_credential idle_request.
Lemma players_shown_as_allowed_witness : exists views,
  sample_players.1 = Ok views /\ map (fun p => CP_Key (PV_Player p)) views = ["kitchen"]
  /\ map PV_ActiveOperation views = [Some "op-0"].
Proof.
  assert (Hq : exists views q', sample_players = (Ok views, q')) by (vm_compute; by eexists _, _).
  destruct Hq as (views & q' & Hq). exists views. split; [by rewrite Hq|].
  destruct (players_shown_as_allowed reserving [sample_config] (fun _ => "d") itoa "e" sample_credential idle_request views q' Hq)
    as (steps & _ & _ & Hkeys & _).
  split; [rewrite Hkeys; vm_compute; reflexivity|]. vm_compute in Hq. injection Hq as <- _. reflexivity.
Defined.

Definition known_operation : Operation := sample_operation <| Op_Player := "kitchen" |> <| Op_Principal := "alice" |>.
Definition fetching : Host unit := host_with unknown unknown (fun _ => Ok known_operation) None unbrowsable None.
Lemma operation_shown_as_allowed_witness : exists op v,
  (GetOperation fetching (fun _ => None) sample_credential "op-1" idle_request).1 = Ok v
  /\ v = ProjectOperation (fun _ => None) op /\ Op_Player op ∈ ["kitchen"].
Proof.
  assert (Hq : exists v q', GetOperation fetching (fun _ => None) sample_credential "op-1" idle_request = (Ok v, q')) by (vm_compute; by eexists _, _).
  destruct Hq as (v & q' & Hq).
  destruct (operation_shown_as_allowed fetching (fun _ => None) sample_credential "op-1" idle_request v q' Hq) as (op & _ & Hv & Hp & _).
  exists op, v. split; [by rewrite Hq|]. split; [exact Hv|exact Hp].
Defined.
