(* ===== verification/Cursor.v ===== *)
(** * The history endpoint and its cursor ([internal/api/history.go])

    A page of operations with an opaque cursor for the next one: a traversal
    only, never an authorization.  [json_text] writes a JSON value and [parse]
    reads one, [scan] gives the tokens of a text; [time_text] and [parse_time]
    are the RFC 3339 texts of an instant.

    First [base64.RawURLEncoding]: the URL alphabet without padding; [Strict]
    refuses bits that are left over, and a decoder skips line ends. *)

From S2P Require Import Prelude GoStd Values Model Diagnostics Errors Events State QueuePolicy QueueStart QueueOps Evidence Command Json.
From S2P Require Import JournalModel Views Catalog Execution Lane Select Submit Broker History Config Unmarshal Project ReadApi Access.
From S2P Require Import Handlers.
From Stdlib Require Import Ascii.

(** The letter of a sextet, and back. *)
Definition b64_letter (n : Z) : ascii :=
  of_byte (if n <? 26 then 65 + n else if n <? 52 then 71 + n else if n <? 62 then n - 4 else if n =? 62 then 45 else 95).
Definition b64_sextet (b : Z) : option Z :=
  if (65 <=? b) && (b <=? 90) then Some (b - 65)
  else if (97 <=? b) && (b <=? 122) then Some (b - 71)
  else if (48 <=? b) && (b <=? 57) then Some (b + 4)
  else if b =? 45 then Some 62 else if b =? 95 then Some 63 else None.

Fixpoint b64_sextets (s : string) : list Z :=
  match s with
  | EmptyString => []
  | String a EmptyString => let a := byte_of a in [a / 4; a mod 4 * 16]
  | String a (String b EmptyString) => let '(a, b) := (byte_of a, byte_of b) in [a / 4; a mod 4 * 16 + b / 16; b mod 16 * 4]
  | String a (String b (String c rest)) =>
      let '(a, b, c) := (byte_of a, byte_of b, byte_of c) in
      [a / 4; a mod 4 * 16 + b / 16; b mod 16 * 4 + c / 64; c mod 64] ++ b64_sextets rest
  end.
Definition b64_encode (s : string) : string := String.string_of_list_ascii (map b64_letter (b64_sextets s)).

Fixpoint b64_bytes (l : list Z) : option (list Z) :=
  match l with
  | [] => Some []
  | [_] => None
  | [w; x] => if x mod 16 =? 0 then Some [w * 4 + x / 16] else None
  | [w; x; y] => if y mod 4 =? 0 then Some [w * 4 + x / 16; x mod 16 * 16 + y / 4] else None
  | w :: x :: y :: z :: rest =>
      (fun l => [w * 4 + x / 16; x mod 16 * 16 + y / 4; y mod 4 * 64 + z] ++ l) <$> b64_bytes rest
  end.
Definition line_end (b : Z) : bool := (b =? 10) || (b =? 13).
Definition b64_decode (s : string) : option string :=
  let bytes := filter (fun b => line_end b = false) (map byte_of (String.list_ascii_of_string s)) in
  sextets ← mapM b64_sextet bytes; bytes_string <$> b64_bytes sextets.

(** ** Decoding inverts encoding *)

(** Three bytes at a time. *)
Lemma triples_ind (P : string -> Prop) :
  P "" -> (forall a, P (String a "")) -> (forall a b, P (String a (String b ""))) ->
  (forall a b c s, P s -> P (String a (String b (String c s)))) -> forall s, P s.
Proof.
  intros H0 H1 H2 H3. fix IH 1. intros [|a [|b [|c s]]]; [exact H0|apply H1|apply H2|apply H3, IH].
Qed.

Lemma bytes_of_string (s : string) : bytes_string (map byte_of (String.list_ascii_of_string s)) = s.
Proof.
  unfold bytes_string. rewrite map_map. rewrite <- (String.string_of_list_ascii_of_string s) at 2. f_equal.
  rewrite <- map_id. apply map_ext. intros c. unfold of_byte, byte_of. by rewrite Nat2Z.id, ascii_nat_embedding.
Qed.

Lemma letter_reads n : 0 <= n < 64 ->
  b64_sextet (byte_of (b64_letter n)) = Some n /\ line_end (byte_of (b64_letter n)) = false.
Proof.
  intros Hn. assert (H : forallb (fun n => bool_decide (b64_sextet (byte_of (b64_letter n)) = Some n)
                                    && negb (line_end (byte_of (b64_letter n)))) (seqZ 0 64) = true) by reflexivity.
  rewrite forallb_forall in H. specialize (H n). rewrite <- list_elem_of_In, elem_of_seqZ in H. specialize (H Hn).
  apply andb_true_iff in H as [H1 H2]. apply bool_decide_eq_true in H1. by apply negb_true_iff in H2.
Qed.

Lemma sextets_range s : Forall (fun n => 0 <= n < 64) (b64_sextets s).
Proof.
  induction s as [|a|a b|a b c s IH] using triples_ind; cbn [b64_sextets app]; repeat apply Forall_cons_2; try done; try apply Forall_nil_2;
    pose proof (byte_of_range a); try pose proof (byte_of_range b); try pose proof (byte_of_range c); Z.to_euclidean_division_equations; lia.
Qed.

Lemma sextets_bytes s : b64_bytes (b64_sextets s) = Some (map byte_of (String.list_ascii_of_string s)).
Proof.
  induction s as [|a|a b|a b c s IH] using triples_ind; cbn [b64_sextets app b64_bytes]; [done|..].
  - pose proof (byte_of_range a). replace (_ =? 0) with true by (symmetry; apply Z.eqb_eq; Z.to_euclidean_division_equations; lia).
    cbn. do 2 f_equal. Z.to_euclidean_division_equations; lia.
  - pose proof (byte_of_range a). pose proof (byte_of_range b).
    replace (_ =? 0) with true by (symmetry; apply Z.eqb_eq; Z.to_euclidean_division_equations; lia).
    cbn. repeat (f_equal; try (Z.to_euclidean_division_equations; lia)).
  - pose proof (byte_of_range a). pose proof (byte_of_range b). pose proof (byte_of_range c). rewrite IH.
    cbn. repeat (f_equal; try (Z.to_euclidean_division_equations; lia)).
Qed.

Lemma b64_roundtrip s : b64_decode (b64_encode s) = Some s.
Proof.
  unfold b64_decode, b64_encode. rewrite String.list_ascii_of_string_of_list_ascii, map_map.
  assert (H : forall l, Forall (fun n => 0 <= n < 64) l ->
    mapM b64_sextet (filter (fun b => line_end b = false) (map (fun n => byte_of (b64_letter n)) l)) = Some l).
  { induction 1 as [|n l Hn _ IH]; [done|]. destruct (letter_reads n Hn) as [Hv He]. cbn [map]. rewrite filter_cons_True by done.
    cbn [mapM]. rewrite Hv. cbn. by rewrite IH. }
  rewrite H by apply sextets_range. cbn. rewrite sextets_bytes. cbn. by rewrite bytes_of_string.
Qed.

Lemma b64_encode_nonempty s : s <> "" -> b64_encode s <> "".
Proof. destruct s as [|a [|b [|c s]]]; done. Qed.

(** ** Texts of the endpoint *)

Definition historyCursorMax : Z := 2048.

(** ** The pattern of a timestamp *)

(** Each reads a piece of the text and leaves the rest. *)
Definition reads (pieces : list (string -> option string)) (s : string) : option string :=
  foldl (fun r piece => r ≫= piece) (Some s) pieces.
Definition read_byte (ok : Z -> bool) (s : string) : option string :=
  match s with String c rest => if ok (byte_of c) then Some rest else None | EmptyString => None end.
Definition within (low high b : Z) : bool := (low <=? b) && (b <=? high).
Definition read_digits (n : nat) : string -> option string := reads (replicate n (read_byte is_digit)).
Definition read_hour (s : string) : option string :=
  match s with
  | String c rest => if within 48 49 (byte_of c) then read_byte is_digit rest
                     else if byte_of c =? 50 then read_byte (within 48 51) rest else None
  | EmptyString => None
  end.
Definition read_sixty : string -> option string := reads [read_byte (within 48 53); read_byte is_digit].
(** At most [n] digits, as many as there are. *)
Fixpoint skip_digits (n : nat) (s : string) : string :=
  match n, s with
  | S n, String c rest => if is_digit (byte_of c) then skip_digits n rest else s
  | _, _ => s
  end.
Definition read_fraction (s : string) : option string :=
  match s with
  | String "." rest => skip_digits 8 <$> read_byte is_digit rest
  | _ => Some s
  end.
Definition read_zone (s : string) : option string :=
  match s with
  | String c rest => if byte_of c =? 90 then Some rest
                     else if (byte_of c =? 43) || (byte_of c =? 45) then reads [read_hour; read_byte (Z.eqb 58); read_sixty] rest
                     else None
  | EmptyString => None
  end.
Definition historyTimestampPattern (s : string) : bool :=
  match reads [read_digits 4; read_byte (Z.eqb 45); read_digits 2; read_byte (Z.eqb 45); read_digits 2; read_byte (Z.eqb 84);
               read_hour; read_byte (Z.eqb 58); read_sixty; read_byte (Z.eqb 58); read_sixty; read_fraction; read_zone] s with
  | Some "" => true
  | _ => false
  end.

Example pattern_instant : historyTimestampPattern "2024-02-29T23:59:59.123456789+01:00" = true.
Proof. reflexivity. Qed.
Example pattern_date : historyTimestampPattern "2024-02-29" = false.
Proof. reflexivity. Qed.
Example pattern_long_fraction : historyTimestampPattern "2024-02-29T23:59:59.1234567890Z" = false.
Proof. reflexivity. Qed.

(** ** The cursor *)

Record historyFilters := {
  HF_Player : string;
  HF_State : string;
  HF_Kind : string;
  HF_Delivery : string;
  HF_CreatedFrom : string;
  HF_CreatedBefore : string;
  HF_Limit : Z
}.
#[export] Instance historyFilters_eq_dec : EqDecision historyFilters.
Proof. solve_decision. Defined.
#[export] Instance historyFilters_eta : Eta historyFilters := fun f =>
  {| HF_Player := HF_Player f; HF_State := HF_State f; HF_Kind := HF_Kind f; HF_Delivery := HF_Delivery f;
     HF_CreatedFrom := HF_CreatedFrom f; HF_CreatedBefore := HF_CreatedBefore f; HF_Limit := HF_Limit f |}.
#[export] Instance HistoryPosition_eta : Eta HistoryPosition := fun p => {| HP_CreatedAt := HP_CreatedAt p; HP_ID := HP_ID p |}.

Record historyCursor := { HC_Version : Z; HC_Filters : historyFilters; HC_Position : HistoryPosition }.
#[export] Instance historyCursor_eta : Eta historyCursor := fun c =>
  {| HC_Version := HC_Version c; HC_Filters := HC_Filters c; HC_Position := HC_Position c |}.
Definition filters_zero : historyFilters := Build_historyFilters "" "" "" "" "" "" 0.
Definition cursor_zero : historyCursor := {| HC_Version := 0; HC_Filters := filters_zero; HC_Position := {| HP_CreatedAt := 0; HP_ID := "" |} |}.

Definition historyIDValid (id : string) : bool :=
  (0 <? slen id) && (slen id <=? 128)
  && all_bytes (fun b => is_lower b || is_upper b || is_digit b || (b =? 95) || (b =? 45)) id.

(** [time.Time.MarshalJSON] takes the years 0 to 9999; year 0 has 366 days. *)
Definition marshals (t : Time) : bool := (- (366 * 24 * 60) * Minute <=? t) && (t <? year10000).

Section cursor.
Context (json_text : json -> string) (parse : string -> option json) (scan : string -> list token).
Context (time_text : Time -> string) (parse_time : string -> option Time).

Definition filter_fields : list (string * Dec historyFilters) := [
  ("player", into dec_string HF_Player (fun x f => f <| HF_Player := x |>));
  ("state", into dec_string HF_State (fun x f => f <| HF_State := x |>));
  ("kind", into dec_string HF_Kind (fun x f => f <| HF_Kind := x |>));
  ("delivery", into dec_string HF_Delivery (fun x f => f <| HF_Delivery := x |>));
  ("created_from", into dec_string HF_CreatedFrom (fun x f => f <| HF_CreatedFrom := x |>));
  ("created_before", into dec_string HF_CreatedBefore (fun x f => f <| HF_CreatedBefore := x |>));
  ("limit", into dec_int HF_Limit (fun x f => f <| HF_Limit := x |>))].
Definition position_fields : list (string * Dec HistoryPosition) := [
  ("created_at", into (dec_time parse_time) HP_CreatedAt (fun x p => p <| HP_CreatedAt := x |>));
  ("id", into dec_string HP_ID (fun x p => p <| HP_ID := x |>))].
Definition cursor_fields : list (string * Dec historyCursor) := [
  ("version", into dec_int HC_Version (fun x c => c <| HC_Version := x |>));
  ("filters", into (dec_strict filter_fields) HC_Filters (fun x c => c <| HC_Filters := x |>));
  ("position", into (dec_strict position_fields) HC_Position (fun x c => c <| HC_Position := x |>))].

Definition filters_json (f : historyFilters) : json := JObject [
  ("player", JString (HF_Player f)); ("state", JString (HF_State f)); ("kind", JString (HF_Kind f));
  ("delivery", JString (HF_Delivery f)); ("created_from", JString (HF_CreatedFrom f));
  ("created_before", JString (HF_CreatedBefore f)); ("limit", number (HF_Limit f))].
Definition cursor_json (position : HistoryPosition) (filters : historyFilters) : json := JObject [
  ("version", number 1); ("filters", filters_json filters);
  ("position", JObject [("created_at", JString (time_text (HP_CreatedAt position))); ("id", JString (HP_ID position))])].

Definition encodeHistoryCursor (position : HistoryPosition) (filters : historyFilters) : Result string :=
  if negb (marshals (HP_CreatedAt position)) then Err (EText "year outside of range [0,9999]")
  else
    let encoded := b64_encode (json_text (cursor_json position filters)) in
    if historyCursorMax <? slen encoded then Err (EText "history cursor exceeds bound") else Ok encoded.

Definition cursor_bad (c : historyCursor) (filters : historyFilters) : bool :=
  (HC_Version c != 1) || (HC_Filters c != filters) || isZero (HP_CreatedAt (HC_Position c))
  || negb (HP_CreatedAt (HC_Position c) mod Microsecond =? 0) || negb (historyIDValid (HP_ID (HC_Position c))).

Definition decodeHistoryCursor (encoded : string) (filters : historyFilters) : option HistoryPosition :=
  if (slen encoded =? 0) || (historyCursorMax <? slen encoded) then None
  else match b64_decode encoded with
       | None => None
       | Some b =>
           if negb (UniqueJSON (validUTF8 b) (scan b)) then None
           else match parse b ≫= (fun v => decoded (dec_strict cursor_fields cursor_zero v)) with
                | Some c => if cursor_bad c filters then None else Some (HC_Position c)
                | None => None
                end
       end.

(** ** The endpoint *)

(** The parameters as the generated code binds them. *)
Record ListParams := {
  LP_Player : option string;
  LP_State : option string;
  LP_Kind : option string;
  LP_Delivery : option string;
  LP_CreatedFrom : option Time;
  LP_CreatedBefore : option Time;
  LP_Cursor : option string;
  LP_Limit : option Z
}.

Definition historyTime (t : option Time) : string := match t with Some t => time_text t | None => "" end.

(** The query of a request, without a position. *)
Definition history_query (who : Credential) (params : ListParams) : HistoryQuery := {|
  HQ_Principal := Cred_Principal who; HQ_Operator := operator who; HQ_Players := Cred_Players who;
  HQ_Player := value (LP_Player params) ""; HQ_State := value (LP_State params) ""; HQ_Kind := value (LP_Kind params) "";
  HQ_Delivery := value (LP_Delivery params) ""; HQ_CreatedFrom := LP_CreatedFrom params;
  HQ_CreatedBefore := LP_CreatedBefore params; HQ_Before := None; HQ_Limit := value (LP_Limit params) 50 |}.
Definition history_filters (q : HistoryQuery) : historyFilters := {|
  HF_Player := HQ_Player q; HF_State := HQ_State q; HF_Kind := HQ_Kind q; HF_Delivery := HQ_Delivery q;
  HF_CreatedFrom := historyTime (HQ_CreatedFrom q); HF_CreatedBefore := historyTime (HQ_CreatedBefore q); HF_Limit := HQ_Limit q |}.

(** The first values of the parameters of a query string. *)
Definition first_value (name : string) (raw : list (string * list string)) : option string :=
  match find (fun kv => kv.1 == name) raw with Some (_, v :: _) => Some v | Some (_, []) => Some "" | None => None end.
Definition bad_timestamp (name : string) (raw : list (string * list string)) : bool :=
  match first_value name raw with Some v => negb (historyTimestampPattern v) | None => false end.

(** The checks before the cursor. *)
Definition request_refused (who : Credential) (raw : list (string * list string)) (params : ListParams) : option error :=
  let player := value (LP_Player params) "" in
  if (player != "") && negb (allows who player) then Some forbidden
  else if existsb (fun kv => match kv.2 with v :: _ => v == "" | [] => false end) raw then Some invalid
  else if bad_timestamp "created_from" raw || bad_timestamp "created_before" raw then Some invalid
  else match LP_CreatedFrom params, LP_CreatedBefore params with
       | Some from, Some until => if negb (from <? until) then Some invalid else None
       | _, _ => None
       end.

(** [journal] is [Store.List]. *)
Definition ListOperations (journal : HistoryQuery -> Result HistoryPage) (who : Credential) (raw : list (string * list string))
    (params : ListParams) : Result (list PublicOperation * option string) :=
  match request_refused who raw params with
  | Some e => Err e
  | None =>
      let q := history_query who params in
      let filters := history_filters q in
      let? q := match LP_Cursor params with
                | None => Ok q
                | Some cursor => match decodeHistoryCursor cursor filters with
                                 | Some position => Ok (q <| HQ_Before := Some position |>)
                                 | None => Err invalid
                                 end
                end in
      let? page := journal q in
      let items := map (ProjectOperation parse_time) (HPage_Items page) in
      match HPage_Next page with
      | None => Ok (items, None)
      | Some next => let? cursor := encodeHistoryCursor next filters in Ok (items, Some cursor)
      end
  end.
End cursor.
