(* ===== verification/CursorProps.v ===== *)
(** * Cursors resume the history where they say

    What a cursor decodes to, and the traversal of the endpoint page by page
    against the one of the journal. *)

From S2P Require Import Prelude GoStd Values Model Diagnostics Errors Events State QueuePolicy Json JournalModel Journal.
From S2P Require Import QueueStart QueueOps Evidence Command Execution Views Catalog Lane Select Submit Unmarshal Project ReadApi Config Broker Access Handlers History Cursor.
From S2P Require Import HistoryProps ProtocolProps ConfigProps Project BrokerProps.
From Stdlib Require Import Ascii.

(** A document whose strings are texts. *)
Definition clean (v : json) : bool := forallb (fun t => match t with TString s => validUTF8 s | _ => true end) (tokens_of v).

(** The strings of a filter are texts and its limit is a machine integer. *)
Definition filters_ok (f : historyFilters) : Prop :=
  Forall (fun s => validUTF8 s = true) [HF_Player f; HF_State f; HF_Kind f; HF_Delivery f; HF_CreatedFrom f; HF_CreatedBefore f]
  /\ - 2 ^ 63 <= HF_Limit f < 2 ^ 63.
(** What a row of the journal gives for a cursor. *)
Definition position_ok (p : HistoryPosition) : Prop :=
  0 < HP_CreatedAt p < year10000 /\ HP_CreatedAt p mod Microsecond = 0 /\ historyIDValid (HP_ID p) = true.

(** Its bytes are letters, digits, dashes and underscores. *)
Lemma id_bytes id : historyIDValid id = true -> all_bytes (fun b => (45 <=? b) && (b <? 128)) id = true.
Proof.
  unfold historyIDValid. rewrite !andb_true_iff. intros [_ H]. revert H. apply all_bytes_impl. intros b.
  unfold is_lower, is_upper, is_digit. bgoal. lia.
Qed.
Lemma id_text id : historyIDValid id = true -> validUTF8 id = true.
Proof. intros H%id_bytes. apply ascii_valid. revert H. apply all_bytes_impl. intros b. bgoal. lia. Qed.

Section cursors.
Context (json_text : json -> string) (parse : string -> option json) (scan : string -> list token).
Context (time_text : Time -> string) (parse_time : string -> option Time).
(** [encoding/json] reads what it wrote; RFC 3339 texts have nanoseconds and
    years of four digits. *)
Context (Hjson : forall p f, clean (cursor_json time_text p f) = true ->
  let b := json_text (cursor_json time_text p f) in
  b <> "" /\ validUTF8 b = true /\ scan b = tokens_of (cursor_json time_text p f) /\ parse b = Some (cursor_json time_text p f)).
Context (Htime : forall t, 0 <= t < year10000 -> parse_time (time_text t) = Some t /\ validUTF8 (time_text t) = true).
#[local] Set Default Proof Using "All".
Local Abbreviation encode := (encodeHistoryCursor json_text time_text).
Local Abbreviation decode := (decodeHistoryCursor parse scan parse_time).

Lemma filters_decoded f : filters_ok f -> forall cur, dec_strict filter_fields cur (filters_json f) = (f, Good).
Proof using Type.
  intros [_ Hl] cur. unfold filters_json. rewrite dec_strict_known by reflexivity. cbn [dec_struct foldl].
  do 6 (erewrite fold_one; [|reflexivity|by intros c]). erewrite fold_one; [|reflexivity|intros c; by apply dec_int_itoa].
  by destruct f, cur.
Qed.

Lemma position_decoded p : position_ok p -> forall cur, dec_strict (position_fields parse_time) cur
  (JObject [("created_at", JString (time_text (HP_CreatedAt p))); ("id", JString (HP_ID p))]) = (p, Good).
Proof.
  intros (Ht & _) cur. rewrite dec_strict_known by reflexivity. cbn [dec_struct foldl].
  assert (Hd : forall c, dec_time parse_time c (JString (time_text (HP_CreatedAt p))) = (HP_CreatedAt p, Good)).
  { intros c. cbn [dec_time]. destruct (Htime (HP_CreatedAt p)) as [-> _]; [lia|done]. }
  erewrite fold_one; [|reflexivity|exact Hd]. erewrite fold_one; [|reflexivity|by intros c]. by destruct p, cur.
Qed.

Lemma cursor_decoded p f : position_ok p -> filters_ok f ->
  dec_strict (cursor_fields parse_time) cursor_zero (cursor_json time_text p f)
  = ({| HC_Version := 1; HC_Filters := f; HC_Position := p |}, Good).
Proof.
  intros Hp Hf. unfold cursor_json. rewrite dec_strict_known by reflexivity. cbn [dec_struct foldl].
  erewrite fold_one; [|reflexivity|intros c; by apply dec_int_itoa].
  erewrite fold_one; [|reflexivity|by apply filters_decoded].
  erewrite fold_one; [|reflexivity|by apply position_decoded]. reflexivity.
Qed.

Lemma cursor_clean p f : position_ok p -> filters_ok f -> clean (cursor_json time_text p f) = true.
Proof.
  intros (Ht & _ & Hid) [Hs _]. rewrite !Forall_cons in Hs. destruct Hs as (H1 & H2 & H3 & H4 & H5 & H6 & _).
  destruct (Htime (HP_CreatedAt p)) as [_ Htt]; [lia|]. pose proof (id_text _ Hid) as Hi.
  unfold clean, cursor_json, filters_json. cbn [tokens_of map concat app forallb fst snd number].
  by rewrite H1, H2, H3, H4, H5, H6, Htt, Hi.
Qed.

(** The walk over the document of a cursor finds no duplicate. *)
Lemma cursor_unique p f : UniqueJSON true (tokens_of (cursor_json time_text p f)) = true.
Proof using Type. reflexivity. Qed.

(** A cursor leads back to its position under its own filters, and nowhere else. *)
Lemma decode_encode p f c f' : position_ok p -> filters_ok f -> encode p f = Ok c ->
  c <> "" /\ decode c f' = if decide (f' = f) then Some p else None.
Proof.
  intros Hp Hf. unfold encodeHistoryCursor, decodeHistoryCursor. case_if; [done|]. case_if; [done|]. intros [= <-].
  destruct (Hjson p f) as (Hne & Hu & Hs & Hpa); [by apply cursor_clean|]. cbv zeta in *.
  pose proof (b64_encode_nonempty _ Hne) as Hce. split; [done|].
  assert (Hlen : (slen (b64_encode (json_text (cursor_json time_text p f))) =? 0) = false).
  { apply Z.eqb_neq. by destruct (b64_encode _). }
  rewrite Hlen, Heqb0. cbn [orb]. rewrite b64_roundtrip, Hu, Hs, cursor_unique. cbn [negb]. rewrite Hpa. cbn [mbind option_bind].
  rewrite cursor_decoded by done. 
  assert (Hbad : cursor_bad {| HC_Version := 1; HC_Filters := f; HC_Position := p |} f' = (f != f')).
  { destruct Hp as (Ht & Hm & Hid). unfold cursor_bad. cbn [HC_Version HC_Filters HC_Position]. rewrite Hid, Hm.
    rewrite (proj2 (isZero_false (HP_CreatedAt p))) by lia. cbn. by rewrite !orb_false_r. }
  unfold decoded. rewrite bool_decide_true by done. cbn [fst snd]. rewrite Hbad. destruct (decide (f' = f)) as [Hd|Hd].
  - subst f'. rewrite bool_decide_true by done. reflexivity.
  - rewrite bool_decide_false by congruence. reflexivity.
Qed.
(** *** A client that follows the cursors *)

Context (collate : relation string) {collate_dec : RelDecision collate}.
Context {collate_po : PartialOrder collate} {collate_total : Total collate}.
Local Abbreviation endpoint := (ListOperations json_text parse scan time_text parse_time).

(** The request for the next page: the same parameters and the cursor. *)
Definition next_request (cursor : string) (params : ListParams) : ListParams := {|
  LP_Player := LP_Player params; LP_State := LP_State params; LP_Kind := LP_Kind params; LP_Delivery := LP_Delivery params;
  LP_CreatedFrom := LP_CreatedFrom params; LP_CreatedBefore := LP_CreatedBefore params; LP_Cursor := Some cursor; LP_Limit := LP_Limit params |}.
Definition next_raw (cursor : string) (raw : list (string * list string)) : list (string * list string) :=
  filter (fun kv => kv.1 <> "cursor") raw ++ [("cursor", [cursor])].

(** Each page from the journal as it is then; the flag tells whether the last
    one was reached. *)
Fixpoint follow (ds : list database) (who : Credential) (raw : list (string * list string)) (params : ListParams) :
    Result (list PublicOperation * bool) :=
  match ds with
  | [] => Ok ([], false)
  | d :: ds =>
      let? page := endpoint (List collate d None) who raw params in
      match page.2 with
      | None => Ok (page.1, true)
      | Some cursor => let? rest := follow ds who (next_raw cursor raw) (next_request cursor params) in Ok (page.1 ++ rest.1, rest.2)
      end
  end.

Lemma first_value_next name cursor raw : name <> "cursor" -> first_value name (next_raw cursor raw) = first_value name raw.
Proof using Type.
  intros Hn. unfold first_value, next_raw. induction raw as [|[k v] raw IH]; cbn [app].
  - cbn. by rewrite bool_decide_false by congruence.
  - rewrite filter_cons. case_decide as Hk; cbn [app find fst] in *; [by case_if|].
    rewrite IH. rewrite (bool_decide_false (k = name)); [done|]. intros ->. by destruct Hk.
Qed.

Lemma nonempty_next cursor raw : cursor <> "" ->
  existsb (fun kv : string * list string => match kv.2 with v :: _ => v == "" | [] => false end) raw = false ->
  existsb (fun kv : string * list string => match kv.2 with v :: _ => v == "" | [] => false end) (next_raw cursor raw) = false.
Proof using Type.
  intros Hc Hraw. unfold next_raw. rewrite existsb_app. cbn. rewrite (bool_decide_false (cursor = "")), !orb_false_r by done.
  induction raw as [|kv raw IH]; [done|]. cbn [existsb] in Hraw. apply orb_false_iff in Hraw as [H1 H2].
  rewrite filter_cons. case_decide; [cbn [existsb]; by rewrite H1, IH|by apply IH].
Qed.

Lemma refused_next who cursor raw params : cursor <> "" -> request_refused who raw params = None ->
  request_refused who (next_raw cursor raw) (next_request cursor params) = None.
Proof using Type.
  intros Hc. unfold request_refused. cbn [LP_Player LP_CreatedFrom LP_CreatedBefore next_request]. case_if; [done|].
  destruct (existsb _ raw) eqn:He; [done|]. rewrite nonempty_next by done. unfold bad_timestamp. by rewrite !first_value_next by done.
Qed.
(** *** Each page of the endpoint is a page of the journal *)

(** What a request asks the journal for, given a cursor that decodes. *)
Definition asks (who : Credential) (params : ListParams) (before : option HistoryPosition) : Prop :=
  match before with
  | None => LP_Cursor params = None
  | Some p => exists c, LP_Cursor params = Some c /\ decode c (history_filters time_text (history_query who params)) = Some p
  end.

Lemma endpoint_page who raw params before journal : request_refused who raw params = None -> asks who params before ->
  endpoint journal who raw params =
    let? page := journal (from before (history_query who params)) in
    match HPage_Next page with
    | None => Ok (map (ProjectOperation parse_time) (HPage_Items page), None)
    | Some next => let? cursor := encode next (history_filters time_text (history_query who params)) in
                   Ok (map (ProjectOperation parse_time) (HPage_Items page), Some cursor)
    end.
Proof using Type.
  intros Hr Ha. unfold ListOperations. rewrite Hr. destruct before as [p|]; cbn in Ha; [destruct Ha as (c & -> & ->)|rewrite Ha]; reflexivity.
Qed.

(** The strings of a valid query are texts. *)
Lemma query_filters_ok who params : HistoryQuery_validate (history_query who params) = None ->
  validUTF8 (value (LP_Player params) "") = true -> filters_ok (history_filters time_text (history_query who params)).
Proof.
  intros Hv Hplayer. unfold HistoryQuery_validate in Hv. rewrite first_match_none in Hv by (repeat constructor; done).
  destruct Hv as [Hv _]. rewrite !Forall_cons in Hv. cbn [fst snd] in Hv. destruct Hv as (H1 & _ & _ & Hs & Hk & Hd & Ht & _). breflect.
  assert (Hlist : forall s l, s ∈ l -> forallb validUTF8 l = true -> validUTF8 s = true).
  { intros s l Hin Hl. rewrite forallb_forall in Hl. apply Hl. by apply list_elem_of_In. }
  assert (Htext : forall t, time_bad t = false -> validUTF8 (historyTime time_text t) = true).
  { intros [t|] Hb; [|done]. cbn in Hb. apply negb_false_iff in Hb. unfold historyTimeValid in Hb. breflect. by apply Htime. }
  split; [|cbn in *; lia]. repeat apply Forall_cons_2; try apply Forall_nil_2; cbn [history_filters HF_Player HF_State HF_Kind HF_Delivery
    HF_CreatedFrom HF_CreatedBefore]; try (by apply Htext).
  - exact Hplayer.
  - exact (Hlist _ _ Hs eq_refl).
  - exact (Hlist _ _ Hk eq_refl).
  - exact (Hlist _ _ Hd eq_refl).
Qed.

(** A row of the journal whose ID is as the journal makes them. *)
Definition listable (d : database) : Prop :=
  stored d /\ forall id o, DB_operations d !! id = Some o -> historyIDValid (Op_ID o) = true.

Lemma row_position d id o : listable d -> DB_operations d !! id = Some o -> position_ok (position_of o).
Proof using Type.
  intros [[_ Hp] Hid] Ho. specialize (Hp _ _ Ho). unfold position_bad in Hp. bgoal. unfold historyTimeValid in Hp. breflect.
  split; [lia|]. split; [done|by eapply Hid].
Qed.

Lemma position_stored p : position_ok p -> position_bad (Some p) = false.
Proof using Type.
  intros (Ht & Hm & Hid). unfold position_bad, historyTimeValid, textWithin. bgoal.
  assert (Hnul : has_nul (HP_ID p) = false).
  { unfold has_nul, contains_byte, any_byte. apply negb_false_iff. generalize (id_bytes _ Hid). apply all_bytes_impl. intros b. bgoal. lia. }
  unfold historyIDValid in Hid. breflect. split_and!; try done; try lia. intros He. by rewrite He in *.
Qed.

Lemma encode_fits p f : position_ok p -> slen (b64_encode (json_text (cursor_json time_text p f))) <= historyCursorMax ->
  exists c, encode p f = Ok c.
Proof using Type.
  intros (Ht & _) Hl. unfold encodeHistoryCursor. assert (marshals (HP_CreatedAt p) = true) as ->.
  { unfold marshals. bgoal. unfold year10000, Minute in *. lia. }
  cbn [negb]. rewrite (proj2 (Z.ltb_ge _ _) Hl). by eexists.
Qed.

(** The cursors of this request that lead to rows of the journal fit. *)
Definition cursors_fit (ds : list database) (f : historyFilters) : Prop :=
  Forall (fun d => forall id o, DB_operations d !! id = Some o ->
            slen (b64_encode (json_text (cursor_json time_text (position_of o) f))) <= historyCursorMax) ds.

Lemma follow_traverse who ds : forall raw params before,
  request_refused who raw params = None -> asks who params before -> each position_ok before ->
  HistoryQuery_validate (history_query who params) = None -> validUTF8 (value (LP_Player params) "") = true ->
  Forall listable ds -> cursors_fit ds (history_filters time_text (history_query who params)) ->
  follow ds who raw params =
    let? r := traverse collate ds (from before (history_query who params)) in Ok (map (ProjectOperation parse_time) r.1, r.2).
Proof.
  induction ds as [|d ds IH]; intros raw params before Hr Ha Hb Hv Hu Hds Hfit; [done|]. cbn [follow traverse].
  rewrite (endpoint_page _ _ _ before) by done. apply Forall_cons in Hds as [Hd Hds]. pose proof Hd as [[Hok _] _].
  apply Forall_cons in Hfit as [Hfit Hfits].
  assert (Hvb : HistoryQuery_validate (from before (history_query who params)) = None).
  { apply validate_from; [done|]. destruct before as [p|]; [|done]. by apply position_stored, Hb. }
  destruct (List_page collate d _ Hok Hvb) as (page & -> & [_ _ _ Hnext]). cbn [Result_bind].
  destruct (HPage_Next page) as [p|]; [|done]. destruct (Hnext p eq_refl) as (o & -> & Ho & _).
  pose proof (row_position _ _ _ Hd Ho) as Hp. destruct (encode_fits _ _ Hp (Hfit _ _ Ho)) as [c Hc]. rewrite Hc. cbn [Result_bind snd fst].
  destruct (decode_encode _ _ c (history_filters time_text (history_query who params)) Hp (query_filters_ok _ _ Hv Hu) Hc) as [Hne Hdec].
  rewrite decide_True in Hdec by done.
  rewrite (IH _ (next_request c params) (Some (position_of o))); try done.
  - change (from (Some (position_of o)) (history_query who (next_request c params)))
      with (from (Some (position_of o)) (from before (history_query who params))).
    destruct (traverse collate ds _) as [[items fin]|e]; cbn; [by rewrite map_app|done].
  - by apply refused_next.
  - by exists c.
  - by intros ? [= <-].
Qed.
(** A cursor leads back to where it was made, for the same request only.
    Decoded with the filters of its own request it gives the position exactly,
    and with any other filters it is refused. *)
Theorem cursor_roundtrip p f c f' : position_ok p -> filters_ok f -> encode p f = Ok c ->
  decode c f' = if decide (f' = f) then Some p else None.
Proof using Hjson Htime. intros Hp Hf Hc. by destruct (decode_encode p f c f' Hp Hf Hc). Qed.

(** C35. Following the cursors of the endpoint is a traversal of the journal.
    A client repeats an accepted request with the cursor of each page, while
    the journal changes between the pages: no page is refused, and together
    they are, projected, the pages that the journal gives when it is asked
    directly from each last position, until the same end. *)
Theorem cursors_traverse_history who ds raw params :
  LP_Cursor params = None -> request_refused who raw params = None ->
  HistoryQuery_validate (history_query who params) = None -> validUTF8 (value (LP_Player params) "") = true ->
  Forall listable ds -> cursors_fit ds (history_filters time_text (history_query who params)) ->
  exists items fin, traverse collate ds (history_query who params) = Ok (items, fin)
    /\ follow ds who raw params = Ok (map (ProjectOperation parse_time) items, fin).
Proof.
  intros Hc Hr Hv Hu Hds Hfit.
  destruct (traverse_total collate ds (history_query who params)) as (items & fin & Ht); [|done|].
  { eapply Forall_impl; [exact Hds|]. by intros d []. }
  exists items, fin. split; [done|].
  rewrite (follow_traverse who ds raw params None) by done. unfold from. 
  change (history_query who params <| HQ_Before := None |>) with (history_query who params). by rewrite Ht.
Qed.
End cursors.

(** ** At a concrete client *)

(** A simple encoding of cursor documents, for the examples: their nine texts. *)
Fixpoint write_texts (l : list string) : string :=
  match l with [] => "" | s :: l => b64_encode s +:+ ":" +:+ write_texts l end.
Fixpoint read_texts (fuel : nat) (s : string) : option (list string) :=
  match fuel with
  | O => None
  | S fuel => if s == "" then Some []
              else let '(a, rest, ok) := cut ":" s in
                   if ok then x ← b64_decode a; l ← read_texts fuel rest; Some (x :: l) else None
  end.

Lemma b64_alphabet s : all_bytes (fun b => (b <? 128) && negb (b =? 58)) (b64_encode s) = true.
Proof.
  unfold b64_encode. generalize (sextets_range s). induction 1 as [|n l Hn _ IH]; [done|]. cbn [map String.string_of_list_ascii all_bytes].
  rewrite IH, andb_true_r.
  assert (H : forallb (fun n => (byte_of (b64_letter n) <? 128) && negb (byte_of (b64_letter n) =? 58)) (seqZ 0 64) = true) by reflexivity.
  rewrite forallb_forall in H. apply H. by apply list_elem_of_In, elem_of_seqZ.
Qed.

Lemma read_write_texts l : read_texts (S (length l)) (write_texts l) = Some l.
Proof.
  induction l as [|s l IH]; [done|]. cbn [length write_texts]. remember (S (length l)) as fuel eqn:Hfuel. clear Hfuel. cbn [read_texts].
  assert (Hp : BrokerProps.plain (b64_encode s)).
  { unfold BrokerProps.plain, contains_byte, any_byte. apply negb_false_iff. generalize (b64_alphabet s). apply all_bytes_impl. intros b. bgoal. lia. }
  rewrite bool_decide_false by (by destruct (b64_encode s)). rewrite BrokerProps.cut_plain by done. rewrite b64_roundtrip. cbn [mbind option_bind].
  by rewrite IH.
Qed.

Lemma texts_ascii l : all_bytes (fun b => b <? 128) (write_texts l) = true.
Proof.
  induction l as [|s l IH]; [done|]. cbn [write_texts]. rewrite all_bytes_app. apply andb_true_iff. split; [|done].
  generalize (b64_alphabet s). apply all_bytes_impl. intros b. bgoal. lia.
Qed.

Definition sample_json_text (v : json) : string :=
  match v with
  | JObject [("version", _); ("filters", JObject [(_, JString a); (_, JString b); (_, JString c); (_, JString d); (_, JString e); (_, JString f);
      (_, JNumber n)]); (_, JObject [(_, JString t); (_, JString i)])] => write_texts [a; b; c; d; e; f; n; t; i]
  | _ => ""
  end.
Definition sample_parse (s : string) : option json :=
  match read_texts 10 s with
  | Some [a; b; c; d; e; f; n; t; i] => Some (JObject [("version", number 1); ("filters", JObject [("player", JString a); ("state", JString b);
      ("kind", JString c); ("delivery", JString d); ("created_from", JString e); ("created_before", JString f); ("limit", JNumber n)]);
      ("position", JObject [("created_at", JString t); ("id", JString i)])])
  | _ => None
  end.
Definition sample_scan (s : string) : list token := default [] (tokens_of <$> sample_parse s).

Lemma sample_json p f : clean (cursor_json itoa p f) = true -> let b := sample_json_text (cursor_json itoa p f) in
  b <> "" /\ validUTF8 b = true /\ sample_scan b = tokens_of (cursor_json itoa p f) /\ sample_parse b = Some (cursor_json itoa p f).
Proof.
  intros _. cbv zeta. unfold sample_scan, sample_parse. change (sample_json_text (cursor_json itoa p f)) with
    (write_texts [HF_Player f; HF_State f; HF_Kind f; HF_Delivery f; HF_CreatedFrom f; HF_CreatedBefore f; itoa (HF_Limit f);
                  itoa (HP_CreatedAt p); HP_ID p]).
  rewrite (read_write_texts [_; _; _; _; _; _; _; _; _]). split_and!; try reflexivity.
  - cbn [write_texts]. by destruct (b64_encode _).
  - apply ascii_valid, texts_ascii.
Qed.
Lemma sample_times t : 0 <= t < year10000 -> decimal_time (itoa t) = Some t /\ validUTF8 (itoa t) = true.
Proof.
  intros Ht. split; [by apply decimal_time_itoa|]. apply ascii_valid. generalize (itoa_digits t ltac:(lia)). apply all_bytes_impl.
  intros b. unfold is_digit. bgoal. lia.
Qed.

Definition sample_position : HistoryPosition := {| HP_CreatedAt := 3000; HP_ID := "op_1-x" |}.
Definition sample_filters : historyFilters := Build_historyFilters "kitchen" "" "volume" "" "" "" 2.
Definition sample_encoded : Result string := encodeHistoryCursor sample_json_text itoa sample_position sample_filters.
Lemma cursor_roundtrip_witness : exists c, sample_encoded = Ok c
  /\ decodeHistoryCursor sample_parse sample_scan decimal_time c sample_filters = Some sample_position.
Proof.
  assert (H : exists c, sample_encoded = Ok c) by (vm_compute; by eexists). destruct H as [c Hc]. exists c. split; [exact Hc|].
  refine (eq_trans (cursor_roundtrip _ _ _ _ _ sample_json sample_times sample_position sample_filters c sample_filters _ _ Hc) _).
  - split_and!; vm_compute; congruence.
  - split; [repeat constructor|vm_compute; split; congruence].
  - vm_compute; reflexivity.
Defined.

Definition sample_params : ListParams := {|
  LP_Player := None; LP_State := None; LP_Kind := None; LP_Delivery := None; LP_CreatedFrom := None; LP_CreatedBefore := None;
  LP_Cursor := None; LP_Limit := Some 1 |}.
Definition sample_raw : list (string * list string) := [("limit", ["1"])].
Definition sample_reader : Credential := {|
  Cred_Principal := "alice"; Cred_TokenSHA256 := ""; Cred_Scopes := ["read"]; Cred_Players := ["kitchen"] |}.

(** A fact about every row of a small journal. *)
Lemma rows_of (l : list Operation) (P : Operation -> Prop) id o :
  Forall P l -> DB_operations (journal_of l) !! id = Some o -> P o.
Proof.
  intros Hl Ho%elem_of_list_to_map_2. apply list_elem_of_fmap in Ho as (x & [= -> ->] & Hx). rewrite Forall_forall in Hl. by apply Hl.
Qed.
Local Ltac small_rows := repeat (apply Forall_cons_2; [vm_compute; intuition congruence|]); apply Forall_nil_2.

Lemma cursors_traverse_history_witness : exists items,
  follow sample_json_text sample_parse sample_scan itoa decimal_time String.le [first_journal; next_journal; next_journal]
    sample_reader sample_raw sample_params = Ok (map (ProjectOperation decimal_time) items, true)
  /\ map Op_ID items = ["c"; "b"; "a"].
Proof.
  destruct (cursors_traverse_history _ _ _ _ _ sample_json sample_times String.le sample_reader [first_journal; next_journal; next_journal]
    sample_raw sample_params) as (items & fin & Ht & Hf).
  - reflexivity.
  - by vm_compute.
  - by vm_compute.
  - by vm_compute.
  - repeat apply Forall_cons_2; try apply Forall_nil_2; (split; [apply stored_of; small_rows|]);
      intros id o Ho; refine (rows_of _ (fun o => historyIDValid (Op_ID o) = true) _ _ _ Ho); small_rows.
  - repeat apply Forall_cons_2; try apply Forall_nil_2; intros id o Ho;
      refine (rows_of _ (fun o => slen (b64_encode (sample_json_text (cursor_json itoa (position_of o) _))) <= historyCursorMax) _ _ _ Ho); small_rows.
  - exists items. vm_compute in Ht. injection Ht as <- <-. split; [exact Hf|reflexivity].
Defined.
