(* ===== verification/Watch.v ===== *)
(** * What the service announces ([internal/app/devices.go], [app.go])

    The goroutines that turn changes of players and of journal operations into
    events of the API: a turn of each loop over what it finds, with the memory
    it keeps between turns.  Each gives the events that it publishes. *)

From S2P Require Import Prelude GoStd Values Model Diagnostics Errors Events State QueuePolicy Json JournalModel Views Broker.

Definition event_of (kind player operation principal : string) : Event :=
  {| Evt_ID := ""; Evt_Kind := kind; Evt_Player := player; Evt_Operation := operation; Evt_Principal := principal |}.

(** The coordinator's callback. *)
Definition emitted (o : Operation) : Event := event_of "operation_changed" (Op_Player o) (Op_ID o) (Op_Principal o).

(** ** Operations *)

(** What a turn of [watchOperations] reads of the journal. *)
Record glance := { GL_active : string -> Result Operation; GL_get : string -> Result Operation }.

(** The operation that the turn finds for a player it knows or has just met. *)
Definition sighted (g : glance) (key : string) (old : option Operation) : Result Operation :=
  match GL_active g key, old with
  | Err e, Some o => if errors_is JErrNotFound e then GL_get g (Op_ID o) else Err e
  | reply, _ => reply
  end.

Definition unannounced (old : option Operation) (op : Operation) : bool :=
  match old with Some o => (Op_ID o != Op_ID op) || (Op_Revision o != Op_Revision op) | None => true end.

(** The body of the loop over the players. *)
Definition watch_player (g : glance) (st : gmap string Operation * list Event) (key : string) : gmap string Operation * list Event :=
  let '(last, out) := st in
  let old := last !! key in
  match sighted g key old with
  | Err _ => (last, out)
  | Ok op =>
      let '(last, out) := if unannounced old op
                          then (<[key := op]> last, out ++ [event_of "operation_changed" key (Op_ID op) (Op_Principal op)])
                          else (last, out) in
      (if is_some (Op_FinishedAt op) then delete key last else last, out)
  end.
Definition watch_turn (keys : list string) (last : gmap string Operation) (g : glance) : gmap string Operation * list Event :=
  foldl (watch_player g) (last, []) keys.

(** [watchOperations], turn by turn. *)
Fixpoint watchOperations (keys : list string) (last : gmap string Operation) (turns : list glance) : gmap string Operation * list Event :=
  match turns with
  | [] => (last, [])
  | g :: turns =>
      let '(last, out) := watch_turn keys last g in
      let '(last, more) := watchOperations keys last turns in (last, out ++ more)
  end.

(** ** Players *)

(** [p, _ := Player(key)]: every key is a configured player. *)
Definition announce_player (st : gmap string string * list Event) (p : Player) : gmap string string * list Event :=
  let '(last, out) := st in
  if bool_decide (default "" (last !! CP_Key p) = CP_Revision p) then st
  else (<[CP_Key p := CP_Revision p]> last, out ++ [event_of "player_changed" (CP_Key p) "" ""]).
Definition players_turn (last : gmap string string) (players : list Player) : gmap string string * list Event :=
  foldl announce_player (last, []) players.
Fixpoint watchPlayers (last : gmap string string) (turns : list (list Player)) : gmap string string * list Event :=
  match turns with
  | [] => (last, [])
  | players :: turns =>
      let '(last, out) := players_turn last players in
      let '(last, more) := watchPlayers last turns in (last, out ++ more)
  end.

(** A client's event that tells of a gap. *)
Definition forward (key : string) (gap : bool) : list Event :=
  if gap then [event_of "snapshot_required" key "" ""] else [].

(** The slots of each catalogue of a player. *)
Definition catalog_slots (sources : list SourceConfig) (key : string) : Z :=
  4096 `quot` Z.max 1 (len (filter (fun s => SrcCfg_Player s = key) sources)).

(** ** The reporter of the observation loop *)

Inductive report := Recovered | Failed (e : error).
Record reporter := { RP_failed : bool; RP_lastLog : Time }.
Definition observationReporter (err : option error) (now : Time) (r : reporter) : option report * reporter :=
  match err with
  | None => (if RP_failed r then Some Recovered else None, {| RP_failed := false; RP_lastLog := RP_lastLog r |})
  | Some e =>
      if errors_is Canceled e then (None, r)
      else if negb (RP_failed r) || (Minute <=? now - RP_lastLog r)
      then (Some (Failed e), {| RP_failed := true; RP_lastLog := now |})
      else (None, {| RP_failed := true; RP_lastLog := RP_lastLog r |})
  end.

(** ** Changes are announced once, and who is left out *)

(** ** One player at a time *)

(** What a turn does for one player, given what it remembers of it. *)
Definition watch_one (g : glance) (key : string) (old : option Operation) : option Operation * list Event :=
  match sighted g key old with
  | Err _ => (old, [])
  | Ok op => (if is_some (Op_FinishedAt op) then None
              else if unannounced old op then Some op else old,
              if unannounced old op then [event_of "operation_changed" key (Op_ID op) (Op_Principal op)] else [])
  end.
Fixpoint watch_all (key : string) (old : option Operation) (turns : list glance) : option Operation * list Event :=
  match turns with
  | [] => (old, [])
  | g :: turns => let '(old, out) := watch_one g key old in let '(old, more) := watch_all key old turns in (old, out ++ more)
  end.

Definition about (key : string) (out : list Event) : list Event := filter (fun e => Evt_Player e = key) out.

Lemma watch_player_own g last out key :
  let '(last', out') := watch_player g (last, out) key in
  last' !! key = (watch_one g key (last !! key)).1 /\ about key out' = about key out ++ (watch_one g key (last !! key)).2.
Proof.
  unfold watch_player, watch_one. destruct (sighted g key (last !! key)) as [op|e]; [|by rewrite app_nil_r].
  destruct (unannounced (last !! key) op) eqn:Hu.
  - destruct (is_some (Op_FinishedAt op)); cbn [fst snd]; (split; [by simplify_map_eq|]);
      unfold about; rewrite filter_app; f_equal; by rewrite filter_cons_True.
  - destruct (is_some (Op_FinishedAt op)); cbn [fst snd]; (split; [by simplify_map_eq|by rewrite app_nil_r]).
Qed.

Lemma watch_player_other g last out k key : k <> key ->
  let '(last', out') := watch_player g (last, out) k in last' !! key = last !! key /\ about key out' = about key out.
Proof.
  intros Hk. unfold watch_player. destruct (sighted g k (last !! k)) as [op|e]; [|done].
  destruct (unannounced (last !! k) op); destruct (is_some (Op_FinishedAt op)); (split; [by simplify_map_eq|]); try done;
    unfold about; rewrite filter_app; rewrite (filter_cons_False _ (event_of _ _ _ _)) by done; by rewrite app_nil_r.
Qed.

Lemma watch_keys g key keys : NoDup keys -> forall last out,
  let '(last', out') := foldl (watch_player g) (last, out) keys in
  if decide (key ∈ keys)
  then last' !! key = (watch_one g key (last !! key)).1 /\ about key out' = about key out ++ (watch_one g key (last !! key)).2
  else last' !! key = last !! key /\ about key out' = about key out.
Proof.
  induction 1 as [|k keys Hk _ IH]; intros last out; [cbn [foldl]; by rewrite decide_False by apply not_elem_of_nil|]. cbn [foldl].
  pose proof (watch_player_own g last out k) as Hown. pose proof (watch_player_other g last out k key) as Hother.
  destruct (watch_player g (last, out) k) as [last1 out1]. specialize (IH last1 out1).
  destruct (foldl (watch_player g) (last1, out1) keys) as [last2 out2]. destruct (decide (k = key)) as [->|Hne].
  - rewrite decide_False in IH by done. rewrite decide_True by (by left). destruct IH as [-> ->]. exact Hown.
  - destruct (Hother Hne) as [Hl Ho]. rewrite Hl, Ho in IH.
    destruct (decide (key ∈ keys)) as [Hin|Hin]; [rewrite decide_True by (by right)|rewrite decide_False by set_solver]; exact IH.
Qed.

(** The loop over all players is the loop over each of them. *)
Lemma watch_splits key keys : NoDup keys -> key ∈ keys -> forall turns last,
  let '(last', out) := watchOperations keys last turns in
  last' !! key = (watch_all key (last !! key) turns).1 /\ about key out = (watch_all key (last !! key) turns).2.
Proof.
  intros Hnd Hin. induction turns as [|g turns IH]; intros last; [done|]. cbn [watchOperations watch_all].
  pose proof (watch_keys g key keys Hnd last []) as Hturn. unfold watch_turn.
  destruct (foldl (watch_player g) (last, []) keys) as [last1 out1]. rewrite decide_True in Hturn by done. destruct Hturn as [Hl Ho].
  specialize (IH last1). destruct (watchOperations keys last1 turns) as [last2 out2]. rewrite Hl in IH.
  destruct (watch_one g key (last !! key)) as [old out]. cbn [fst snd] in *.
  destruct (watch_all key old turns) as [old' more]. destruct IH as [-> Hmore]. split; [done|]. cbn [snd] in *.
  unfold about in *. by rewrite filter_app, Ho, Hmore.
Qed.

(** ** An operation that is followed to its end *)

(** The turn finds the operation reserved, or gone from the player and looks it up. *)
Definition finds (key : string) (g : glance) (o : Operation) : Prop :=
  GL_active g key = Ok o \/ exists e, GL_active g key = Err e /\ errors_is JErrNotFound e = true /\ GL_get g (Op_ID o) = Ok o.

(** The operations whose revision differs from the one before. *)
Fixpoint changes (before : Operation) (l : list Operation) : list Operation :=
  match l with
  | [] => []
  | o :: l => (if Op_Revision before =? Op_Revision o then [] else [o]) ++ changes o l
  end.

Lemma sighted_finds key g x o : finds key g o -> Op_ID x = Op_ID o -> sighted g key (Some x) = Ok o.
Proof. intros [Ha|(e & Ha & He & Hg)] Hid; unfold sighted; rewrite Ha; [done|]. by rewrite He, Hid. Qed.

Lemma watch_follows key l : forall x b turns, Forall2 (finds key) turns l -> Forall (fun o => Op_ID o = Op_ID x) l ->
  Op_ID b = Op_ID x -> Op_Revision b = Op_Revision x ->
  (forall o pre post, l = pre ++ o :: post -> post <> [] -> Op_FinishedAt o = None) ->
  (watch_all key (Some b) turns).2 = map (fun o => event_of "operation_changed" key (Op_ID o) (Op_Principal o)) (changes x l)
  /\ (forall o, last l = Some o -> Op_FinishedAt o <> None -> (watch_all key (Some b) turns).1 = None).
Proof.
  induction l as [|o l IH]; intros x b turns Ht Hid Hb Hr Hopen.
  - apply Forall2_nil_inv_r in Ht as ->. done.
  - apply Forall2_cons_inv_r in Ht as (g & turns' & Hf & Ht & ->). apply Forall_cons in Hid as [Ho Hid]. cbn [watch_all changes].
    unfold watch_one. rewrite (sighted_finds key g b o) by congruence. cbn [unannounced].
    rewrite (bool_decide_true (Op_ID b = Op_ID o)) by congruence. cbn [negb orb].
    assert (Hun : (Op_Revision b != Op_Revision o) = negb (Op_Revision x =? Op_Revision o)).
    { rewrite Hr. by destruct (Z.eqb_spec (Op_Revision x) (Op_Revision o)) as [He|He]; [rewrite He, bool_decide_true|rewrite bool_decide_false]. }
    rewrite Hun. destruct l as [|o' l].
    + apply Forall2_nil_inv_r in Ht as ->. cbn. destruct (Op_Revision x =? Op_Revision o); cbn; (split; [done|]);
        intros ? [= <-] Hfin; rewrite (proj2 (is_some_true _)) by done; done.
    + rewrite (Hopen o [] (o' :: l)) by done. cbn [is_some].
      assert (Hid' : Forall (fun y => Op_ID y = Op_ID o) (o' :: l)) by (eapply Forall_impl; [exact Hid|]; cbn; congruence).
      assert (Hopen' : forall y pre post, o' :: l = pre ++ y :: post -> post <> [] -> Op_FinishedAt y = None).
      { intros y pre post Hl. apply (Hopen y (o :: pre) post). by rewrite Hl. }
      destruct (Op_Revision x =? Op_Revision o) eqn:He; cbn [negb].
      * apply Z.eqb_eq in He. destruct (IH o b turns' Ht Hid' ltac:(congruence) ltac:(congruence) Hopen') as [IH1 IH2].
        destruct (watch_all key (Some b) turns') as [s out]. cbn [fst snd app] in *. by split.
      * destruct (IH o o turns' Ht Hid' eq_refl eq_refl Hopen') as [IH1 IH2].
        destruct (watch_all key (Some o) turns') as [s out]. cbn [fst snd app map] in *. split; [by rewrite IH1|done].
Qed.

Lemma last_change x l : Op_Revision (default x (last (changes x l))) = Op_Revision (default x (last l)).
Proof.
  revert x. induction l as [|o l IH]; intros x; [done|]. cbn [changes]. specialize (IH o).
  assert (Hl : default x (last (o :: l)) = default o (last l)) by (destruct l; [done|]; by rewrite last_cons_cons; destruct (last (o0 :: l)) eqn:?; [|by apply last_None in Heqo1]).
  rewrite Hl, <- IH. destruct (Op_Revision x =? Op_Revision o) eqn:He; cbn [app].
  - apply Z.eqb_eq in He. by destruct (last (changes o l)).
  - rewrite last_cons. by destruct (last (changes o l)).
Qed.

(** An operation that keeps its player is announced to its end.  Watch a
    player from the turn that first finds an operation, while every later turn
    finds the same operation reserved or, gone from the player, looks it up.
    Each of its revisions that a turn saw is announced exactly once and in
    order, the last of all included, in the principal's name; and once it was
    seen finished nothing is remembered of it. *)
Theorem followed_operation_is_announced keys key last g turns o l :
  NoDup keys -> key ∈ keys -> last !! key = None -> GL_active g key = Ok o -> Forall2 (finds key) turns l ->
  Forall (fun x => Op_ID x = Op_ID o) l ->
  (forall x pre post, o :: l = pre ++ x :: post -> post <> [] -> Op_FinishedAt x = None) ->
  let '(last', out) := watchOperations keys last (g :: turns) in
  about key out = map (fun x => event_of "operation_changed" key (Op_ID x) (Op_Principal x)) (o :: changes o l)
  /\ Op_Revision (default o (list.last (changes o l))) = Op_Revision (default o (list.last l))
  /\ (Op_FinishedAt (default o (list.last l)) <> None -> last' !! key = None).
Proof.
  intros Hnd Hin Hnone Ha Hf Hid Hopen. pose proof (watch_splits key keys Hnd Hin (g :: turns) last) as Hsplit.
  destruct (watchOperations keys last (g :: turns)) as [last' out]. rewrite Hnone in Hsplit. cbn [watch_all] in Hsplit.
  assert (Hone : watch_one g key None = (if is_some (Op_FinishedAt o) then None else Some o,
                                         [event_of "operation_changed" key (Op_ID o) (Op_Principal o)])).
  { unfold watch_one, sighted. by rewrite Ha. }
  rewrite Hone in Hsplit. pose proof (last_change o l) as Hlast.
  destruct l as [|o' l].
  - apply Forall2_nil_inv_r in Hf as ->. cbn in Hsplit. destruct Hsplit as [-> ->]. split_and!; try done.
    cbn. intros Hfin. by rewrite (proj2 (is_some_true _)).
  - rewrite (Hopen o [] (o' :: l)) in Hsplit by done. cbn [is_some] in Hsplit.
    destruct (watch_follows key (o' :: l) o o turns Hf Hid eq_refl eq_refl) as [Hout Hend].
    { intros x pre post Hl. apply (Hopen x (o :: pre) post). by rewrite Hl. }
    destruct (watch_all key (Some o) turns) as [s more]. cbn [fst snd] in *. destruct Hsplit as [-> ->]. rewrite Hout. split_and!; try done.
    destruct (list.last (o' :: l)) as [z|] eqn:Hz; [|by apply last_None in Hz]. intros Hfin. by apply (Hend z).
Qed.

(** ** An operation that is replaced *)

Lemma watch_forgets key id turns : forall old,
  (forall x, old = Some x -> Op_ID x <> id) ->
  Forall (fun g => (forall o, GL_active g key = Ok o -> Op_ID o <> id) /\ (forall i o, GL_get g i = Ok o -> Op_ID o = i)) turns ->
  Forall (fun e => Evt_Operation e <> id) (watch_all key old turns).2.
Proof.
  induction turns as [|g turns IH]; intros old Hold Hall; [constructor|]. apply Forall_cons in Hall as [[Hact Hget] Hall]. cbn [watch_all].
  assert (Hsight : forall op, sighted g key old = Ok op -> Op_ID op <> id).
  { unfold sighted. destruct (GL_active g key) as [op|e] eqn:Ha; [intros ? [= <-]; by apply Hact|].
    destruct old as [x|]; [|done]. case_if; [|done]. intros op Hop. rewrite (Hget _ _ Hop). by apply Hold. }
  unfold watch_one. destruct (sighted g key old) as [op|e] eqn:Hs.
  - specialize (Hsight op eq_refl).
    assert (Hnew : forall x, (if is_some (Op_FinishedAt op) then None else if unannounced old op then Some op else old) = Some x -> Op_ID x <> id).
    { intros x. destruct (is_some (Op_FinishedAt op)); [done|]. destruct (unannounced old op); [by intros [= <-]|apply Hold]. }
    specialize (IH _ Hnew Hall). destruct (watch_all key _ turns) as [s more]. cbn [snd] in *.
    apply Forall_app. split; [|exact IH]. destruct (unannounced old op); by repeat constructor.
  - specialize (IH old Hold Hall). by destruct (watch_all key old turns) as [s more].
Qed.


(** ** At a concrete player *)

Definition seen_operation (id : string) (revision : Z) (finished : option Time) : Operation :=
  Operation_zero <| Op_ID := id |> <| Op_Principal := "alice" |> <| Op_Revision := revision |> <| Op_FinishedAt := finished |>.
Definition reserved (o : Operation) : glance := {| GL_active := fun _ => Ok o; GL_get := fun _ => Err (ESentinel JErrNotFound) |}.
Definition gone (o : Operation) : glance := {| GL_active := fun _ => Err (ESentinel JErrNotFound); GL_get := fun _ => Ok o |}.

Lemma followed_operation_is_announced_witness :
  map Evt_Operation (about "kitchen" (watchOperations ["kitchen"] ∅
    [reserved (seen_operation "a" 1 None); reserved (seen_operation "a" 1 None); gone (seen_operation "a" 2 (Some 5))]).2) = ["a"; "a"].
Proof.
  pose proof (followed_operation_is_announced ["kitchen"] "kitchen" ∅ (reserved (seen_operation "a" 1 None))
    [reserved (seen_operation "a" 1 None); gone (seen_operation "a" 2 (Some 5))] (seen_operation "a" 1 None)
    [seen_operation "a" 1 None; seen_operation "a" 2 (Some 5)]) as H.
  destruct (watchOperations _ _ _) as [last' out]. destruct H as (H & _ & _).
  - apply NoDup_singleton.
  - by left.
  - reflexivity.
  - reflexivity.
  - apply Forall2_cons; split; [by left|]. apply Forall2_cons; split; [|constructor]. right. exists (ESentinel JErrNotFound). split_and!; reflexivity.
  - repeat constructor.
  - intros x [|z1 [|z2 [|z3 pre]]] post Hl Hne; simplify_eq/=; try done; by destruct pre.
  - cbn [snd]. rewrite H. reflexivity.
Defined.

