(* ===== verification/Migrations.v ===== *)
(** * Migrations of the journal's schema ([internal/journal/migrations.go],
    [migration_store.go])

    The deployment contract of the numbered SQL files, the ledger that records
    each applied file with its checksum and compatibility floor, and the checks
    of a runtime and of a migrator against it.  The migration tool that parses
    and executes the files is a third party's: what it does to its own version
    table is an argument.  [sha256_hex] is the lower-case digest of a text. *)

From S2P Require Import Prelude GoStd Errors Config Access Journal.
From Stdlib Require Import Ascii.

Record migrationStep := { MS_checksum : string; MS_minRuntime : Z }.
(** A row of [heos.schema_migrations]. *)
Record migrationRow := { MR_Version : Z; MR_Checksum : string; MR_MinRuntime : Z }.

(** ** Texts *)

(** [strings.Fields]: the runs between the spaces of Unicode. *)
Definition flush (field : string) (rest : list string) : list string := if field == "" then rest else field :: rest.
Fixpoint fields_from (fuel : nat) (field s : string) : list string :=
  match fuel, s with
  | S fuel, String c rest =>
      match strip_any space_encodings s with
      | Some r => flush field (fields_from fuel "" r)
      | None => fields_from fuel (field +:+ str1 c) rest
      end
  | _, _ => flush field []
  end.
Definition fields (s : string) : list string := fields_from (String.length s) "" s.

(** [strings.ToUpper], as far as its result is ASCII: besides the ASCII letters,
    only the dotless i and the long s have an upper case there. *)
Definition upper_ascii (c : ascii) : ascii :=
  let b := byte_of c in if (97 <=? b) && (b <=? 122) then of_byte (b - 32) else c.
Fixpoint to_upper (s : string) : string :=
  match s with
  | String a (String b rest as tail) =>
      if hasPrefix s (bytes_string [196; 177]) then String "I" (to_upper rest)
      else if hasPrefix s (bytes_string [197; 191]) then String "S" (to_upper rest)
      else String (upper_ascii a) (to_upper tail)
  | String a EmptyString => String (upper_ascii a) ""
  | EmptyString => ""
  end.

(** [fmt.Sprintf("%05d_", n)]. *)
Definition version_prefix (n : Z) : string :=
  let digits := itoa n in
  String.string_of_list_ascii (replicate (5 - String.length digits) (of_byte 48)) +:+ digits +:+ "_".

(** ** The files *)

Record policy := { POL_floor : Z; POL_declarations : Z; POL_up : Z }.
#[export] Instance policy_eta : Eta policy := fun p =>
  {| POL_floor := POL_floor p; POL_declarations := POL_declarations p; POL_up := POL_up p |}.
Definition min_runtime_prefix : string := "-- heos:min-runtime=".

(** The declaration of a floor; [None] when its number is none. *)
Definition read_floor (line : string) (p : policy) : option policy :=
  match strip_prefix min_runtime_prefix line with
  | Some number => match parseInt 32 number with
                   | Some floor => Some (p <| POL_floor := floor |> <| POL_declarations := POL_declarations p + 1 |>)
                   | None => None
                   end
  | None => Some p
  end.
(** An annotation of the migration tool. *)
Definition read_annotation (line : string) (p : policy) : option policy :=
  if hasPrefix line "--" && contains "+goose" line then
    let directive := to_upper (join " " (fields line)) in
    if directive == "-- +GOOSE UP" then Some (p <| POL_up := POL_up p + 1 |>)
    else if (directive == "-- +GOOSE STATEMENTBEGIN") || (directive == "-- +GOOSE STATEMENTEND") then Some p
    else None
  else Some p.
Fixpoint read_lines (lines : list string) (p : policy) : option policy :=
  match lines with
  | [] => Some p
  | line :: rest =>
      let line := trimSpace line in
      match read_floor line p with
      | Some p => match read_annotation line p with Some p => read_lines rest p | None => None end
      | None => None
      end
  end.
Definition migrationPolicy (body : string) : option Z :=
  match read_lines (split (of_byte 10) body) {| POL_floor := 0; POL_declarations := 0; POL_up := 0 |} with
  | Some p => if (POL_floor p <? 1) || (POL_declarations p != 1) || (POL_up p != 1) then None else Some (POL_floor p)
  | None => None
  end.

Section catalog.
Context (sha256_hex : string -> string).

(** The loop over the sorted names and their bodies; [None] fails to read. *)
Fixpoint load_from (i : Z) (previousFloor : Z) (files : list (string * option string)) : option (list migrationStep) :=
  match files with
  | [] => Some []
  | (name, body) :: rest =>
      if negb (hasPrefix name (version_prefix (i + 1))) then None
      else match body with
           | None => None
           | Some body =>
               match migrationPolicy body with
               | None => None
               | Some floor =>
                   if (floor <? previousFloor) || (i + 1 <? floor) then None
                   else (fun steps => {| MS_checksum := sha256_hex body; MS_minRuntime := floor |} :: steps)
                        <$> load_from (i + 1) floor rest
               end
           end
  end.
Definition loadMigrations (files : list (string * option string)) : option (list migrationStep) :=
  if len files =? 0 then None else load_from 0 0 files.
End catalog.

(** ** The ledger *)

(** [hex.DecodeString] of a digest of 32 bytes. *)
Definition is_digest (s : string) : bool := all_bytes is_hex s && (slen s =? 64).

Fixpoint validate_from (steps : list migrationStep) (i : Z) (previousFloor : Z) (rows : list migrationRow) : bool :=
  match rows with
  | [] => true
  | row :: rest =>
      if (MR_Version row != i + 1) || negb (is_digest (MR_Checksum row)) || (MR_MinRuntime row <? 1)
         || (MR_MinRuntime row <? previousFloor) || (MR_Version row <? MR_MinRuntime row) || (len steps <? MR_MinRuntime row)
      then false
      else if match steps !! Z.to_nat i with
              | Some step => (MR_Checksum row != MS_checksum step) || (MR_MinRuntime row != MS_minRuntime step)
              | None => false
              end
      then false
      else validate_from steps (i + 1) (MR_MinRuntime row) rest
  end.
(** Whether [validate] accepts. *)
Definition validate (steps : list migrationStep) (rows : list migrationRow) (complete allowFuture : bool) : bool :=
  if (complete && (len rows <? len steps)) || (negb allowFuture && (len steps <? len rows)) then false
  else validate_from steps 0 0 rows.

(** The tables: the tool's versions, in the order of their insertion, and the
    application's rows once the first migration has made their table. *)
Record ledger := { LG_versions : list Z; LG_rows : option (list migrationRow) }.
#[export] Instance ledger_eta : Eta ledger := fun l => {| LG_versions := LG_versions l; LG_rows := LG_rows l |}.

Definition step_row (version : Z) (step : migrationStep) : migrationRow :=
  {| MR_Version := version; MR_Checksum := MS_checksum step; MR_MinRuntime := MS_minRuntime step |}.

(** The constraints of [heos.schema_migrations]. *)
Definition row_allowed (rows : list migrationRow) (row : migrationRow) : bool :=
  negb (existsb (fun r => MR_Version r =? MR_Version row) rows)
  && (0 <? MR_Version row) && (slen (MR_Checksum row) =? 64) && (0 <? MR_MinRuntime row) && (MR_MinRuntime row <=? MR_Version row).

(** [Insert], within the transaction of its file; [base] is the tool's own insertion. *)
Definition Insert (steps : list migrationStep) (base : Z -> list Z -> option (list Z)) (version : Z) (l : ledger) : option ledger :=
  if (version <? 0) || (len steps <? version) then None
  else match base version (LG_versions l) with
       | None => None
       | Some versions =>
           if version =? 0 then Some (l <| LG_versions := versions |>)
           else match steps !! Z.to_nat (version - 1), LG_rows l with
                | Some step, Some rows =>
                    if row_allowed rows (step_row version step)
                    then Some {| LG_versions := versions; LG_rows := Some (rows ++ [step_row version step]) |} else None
                | _, _ => None
                end
       end.

(** A row of the full join of both tables by version: the tool's version and
    whether it is applied, and the application's row. *)
Definition joined := ((option Z * option bool) * option migrationRow)%type.

(** The loop over the joined rows: the versions and the rows of the evidence. *)
Fixpoint check_joined (steps : list migrationStep) (rows : list joined) (versions : list Z) (applied : list migrationRow) :
    option (list Z * list migrationRow) :=
  match rows with
  | [] => Some (versions, applied)
  | ((Some version, Some true), recorded) :: rest =>
      if version != len versions then None
      else if 0 <? version then
        match recorded with
        | Some row =>
            if (MR_MinRuntime row <? 1) || (version <? MR_MinRuntime row) || (len steps <? version) then None
            else check_joined steps rest (versions ++ [version])
                   (applied ++ [{| MR_Version := version; MR_Checksum := MR_Checksum row; MR_MinRuntime := MR_MinRuntime row |}])
        | None => None
        end
      else check_joined steps rest (versions ++ [version]) applied
  | _ :: _ => None
  end.

(** [ListMigrations]: whether the application's table exists, the tool's own
    list and the joined rows; newest first. *)
Definition ListMigrations (steps : list migrationStep) (exists_ : bool) (base : option (list (Z * bool))) (rows : list joined) : option (list Z) :=
  match exists_, base with
  | false, None => None
  | false, Some [(0, true)] => Some [0]
  | _, _ =>
      match check_joined steps rows [] [] with
      | None => None
      | Some (versions, applied) =>
          if (len versions =? 0) || negb (validate steps applied false false) then None else Some (rev versions)
      end
  end.

(** The join of both tables in the order of their versions. *)
Definition coalesced (j : joined) : Z := match j with ((Some v, _), _) => v | (_, Some r) => MR_Version r | _ => 0 end.
Definition joined_le (a b : joined) : Prop := coalesced a <= coalesced b.
#[export] Instance joined_le_dec : RelDecision joined_le.
Proof. intros a b. unfold joined_le. apply _. Defined.
Definition row_for (rows : list migrationRow) (version : Z) : option migrationRow := find (fun r => MR_Version r =? version) rows.
Definition full_join (l : ledger) : list joined :=
  let rows := default [] (LG_rows l) in
  merge_sort joined_le
    (map (fun v => ((Some v, Some true), row_for rows v)) (LG_versions l)
     ++ map (fun r => ((None, None), Some r)) (filter (fun r => (MR_Version r in? LG_versions l) = false) rows)).

(** One file in its transaction: the first one creates the application's table. *)
Definition apply_file (steps : list migrationStep) (base : Z -> list Z -> option (list Z)) (version : Z) (l : ledger) : option ledger :=
  Insert steps base version (if version =? 1 then l <| LG_rows := Some [] |> else l).
Definition apply_files (steps : list migrationStep) (base : Z -> list Z -> option (list Z)) (versions : list Z) (l : ledger) : option ledger :=
  foldl (fun l v => l ≫= apply_file steps base v) (Some l) versions.

(** ** Readiness ([journal.go], [internal/api/health.go]) *)

(** The rows by version, when they can be read, and the embedded catalogue. *)
Definition checkSchema (rows : option (list migrationRow)) (catalog : option (list migrationStep)) : option error :=
  match rows, catalog with
  | None, _ => Some (EText "database unavailable or schema not initialized")
  | _, None => Some (EText "no SQL migrations")
  | Some rows, Some steps => if validate steps rows true true then None else Some (EText "incompatible schema version")
  end.
(** The control row, when it can be read. *)
Definition Ready (rows : option (list migrationRow)) (catalog : option (list migrationStep)) (s : Store) (control : option database) : option error :=
  match checkSchema rows catalog with
  | Some e => Some e
  | None =>
      if negb (Store_initialized s) then Some (ESentinel JErrNotInitialized)
      else match control with
           | None => Some (EText "read journal readiness")
           | Some d => if (DB_epoch d != Store_epoch s) || negb (DB_ready d) then Some (ESentinel JErrStaleEpoch) else None
           end
  end.
(** [stopping] is loaded before and after. *)
Definition GetReadiness (stopping : bool) (ready : option error) (stopping' : bool) : bool :=
  negb (stopping || is_some ready || stopping').
