(* ===== verification/MigrationsProps.v ===== *)
(** * The schema that a release finds is one it can use *)

From S2P Require Import Prelude GoStd Errors Config Access Journal Migrations.
From Stdlib Require Import Ascii.

(** ** A catalogue *)

(** What [loadMigrations] promises of its steps. *)
Record catalog_ok (steps : list migrationStep) : Prop := {
  co_floors : forall i step, steps !! i = Some step -> 1 <= MS_minRuntime step <= Z.of_nat i + 1;
  co_sorted : forall i j a b, (i <= j)%nat -> steps !! i = Some a -> steps !! j = Some b -> MS_minRuntime a <= MS_minRuntime b;
  co_digests : forall i step, steps !! i = Some step -> is_digest (MS_checksum step) = true
}.

Lemma policy_positive body floor : migrationPolicy body = Some floor -> 1 <= floor.
Proof. unfold migrationPolicy. destruct (read_lines _ _); [|done]. case_if; [done|]. intros [= <-]. breflect. lia. Qed.

Section load.
Context (sha256_hex : string -> string) (Hsha : forall s, is_digest (sha256_hex s) = true).
#[local] Set Default Proof Using "All".

Lemma load_from_spec files : forall i prev steps, 0 <= i -> load_from sha256_hex i prev files = Some steps ->
  length steps = length files
  /\ (forall k step, steps !! k = Some step -> prev <= MS_minRuntime step /\ 1 <= MS_minRuntime step <= i + Z.of_nat k + 1
        /\ is_digest (MS_checksum step) = true)
  /\ (forall j k a b, (j <= k)%nat -> steps !! j = Some a -> steps !! k = Some b -> MS_minRuntime a <= MS_minRuntime b)
  /\ (forall k name body, files !! k = Some (name, body) -> hasPrefix name (version_prefix (i + Z.of_nat k + 1)) = true
        /\ exists text, body = Some text /\ MS_checksum <$> steps !! k = Some (sha256_hex text)
             /\ MS_minRuntime <$> steps !! k = migrationPolicy text).
Proof.
  induction files as [|[name body] files IH]; intros i prev steps Hi; cbn [load_from].
  { intros [= <-]. split_and!; done. }
  case_if; [done|]. destruct body as [body|]; [|done]. destruct (migrationPolicy body) as [floor|] eqn:Hp; [|done]. case_if; [done|].
  destruct (load_from sha256_hex (i + 1) floor files) as [rest|] eqn:Hl; [|done]. intros [= <-].
  destruct (IH (i + 1) floor rest ltac:(lia) Hl) as (Hlen & Hrest & Hsort & Hfiles). pose proof (policy_positive _ _ Hp). breflect.
  split_and!.
  - cbn. by rewrite Hlen.
  - intros [|k] step; cbn; [intros [= <-]; cbn; split_and!; lia || done|]. intros Hk. destruct (Hrest k step Hk) as (? & ? & ?).
    split_and!; lia || done.
  - intros [|j] [|k] a b Hjk; cbn; [by intros [= <-] [= <-]|intros [= <-] Hb; cbn; by destruct (Hrest k b Hb)|lia|apply Hsort; lia].
  - intros [|k] n b; cbn; [intros [= <- <-]|intros Hk].
    + split; [by rewrite Z.add_0_r|]. by exists body.
    + destruct (Hfiles k n b Hk) as [Hn Ht]. split; [|done]. by replace (i + Z.of_nat (S k) + 1) with (i + 1 + Z.of_nat k + 1) by lia.
Qed.

Lemma loadMigrations_ok files steps : loadMigrations sha256_hex files = Some steps -> catalog_ok steps.
Proof.
  unfold loadMigrations. case_if; [done|]. intros H. destruct (load_from_spec files 0 0 steps ltac:(lia) H) as (_ & Hs & Hsort & _).
  split; [|done|]; intros i step Hi; by destruct (Hs i step Hi) as (_ & ? & ?).
Qed.
End load.

(** ** The ledger of a catalogue *)

Definition recorded (steps : list migrationStep) (k : nat) : list migrationRow :=
  imap (fun i step => step_row (Z.of_nat i + 1) step) (take k steps).

(** Validation from position [i] of rows that a catalogue recorded. *)
Lemma validate_recorded steps applied : forall i prev,
  (forall k a, applied !! k = Some a -> prev <= MS_minRuntime a /\ 1 <= MS_minRuntime a <= Z.of_nat (i + k) + 1 /\ is_digest (MS_checksum a) = true) ->
  (forall j k a b, (j <= k)%nat -> applied !! j = Some a -> applied !! k = Some b -> MS_minRuntime a <= MS_minRuntime b) ->
  validate_from steps (Z.of_nat i) prev (imap (fun j step => step_row (Z.of_nat (i + j) + 1) step) applied) = true <->
  Forall (fun a => MS_minRuntime a <= len steps) applied
  /\ (forall k a b, applied !! k = Some a -> steps !! (i + k)%nat = Some b -> a = b).
Proof.
  induction applied as [|a applied IH]; intros i prev Hok Hsort; [cbn; split; [|done]; intros _; split; [constructor|done]|].
  rewrite imap_cons. cbn [validate_from step_row MR_Version MR_Checksum MR_MinRuntime]. rewrite Nat.add_0_r.
  destruct (Hok 0%nat a eq_refl) as (Hprev & Hrange & Hdig). rewrite Nat.add_0_r in Hrange. rewrite Hdig. cbn [negb].
  rewrite (bool_decide_true (Z.of_nat i + 1 = Z.of_nat i + 1)) by done. cbn [negb orb].
  rewrite (proj2 (Z.ltb_ge (MS_minRuntime a) 1)), (proj2 (Z.ltb_ge (MS_minRuntime a) prev)), (proj2 (Z.ltb_ge (Z.of_nat i + 1) _)) by lia.
  cbn [orb]. rewrite Nat2Z.id. rewrite Forall_cons.
  destruct (len steps <? MS_minRuntime a) eqn:Hfloor; breflect; [split; [done|intros [[? _] _]; lia]|].
  assert (Hhead : match steps !! i with Some step => (MS_checksum a != MS_checksum step) || (MS_minRuntime a != MS_minRuntime step) | None => false end = false
                  <-> forall b, steps !! i = Some b -> a = b).
  { destruct (steps !! i) as [b|]; [|split; [by intros|done]]. bgoal. split; [|intros Hab; by rewrite (Hab b eq_refl)].
    intros [H1 H2] ? [= <-]. destruct a, b. cbn in *. by subst. }
  case_if.
  - split; [done|]. intros [_ Hx]. exfalso. assert (true = false); [|done]. apply Hhead. intros b Hb. apply (Hx 0%nat); [done|]. by rewrite Nat.add_0_r.
  - destruct Hhead as [Hhead _]. specialize (Hhead eq_refl). replace (Z.of_nat i + 1) with (Z.of_nat (S i)) by lia.
    assert (Himap : imap ((fun j step => step_row (Z.of_nat (i + j) + 1) step) ∘ S) applied
                    = imap (fun j step => step_row (Z.of_nat (S i + j) + 1) step) applied).
    { apply imap_ext. intros j x _. cbn. f_equal. lia. }
    rewrite Himap, (IH (S i) (MS_minRuntime a)).
    + split.
      * intros [H1 H2]. split; [split; [lia|done]|]. intros [|k] x b; cbn; [rewrite Nat.add_0_r; intros [= <-]; apply Hhead|].
        intros Hx Hb. apply (H2 k); [done|]. by replace (S i + k)%nat with (i + S k)%nat by lia.
      * intros [[_ H1] H2]. split; [done|]. intros k x b Hx Hb. apply (H2 (S k)); [done|]. by replace (i + S k)%nat with (S i + k)%nat by lia.
    + intros k x Hx. destruct (Hok (S k) x Hx) as (_ & Hr & Hd). split_and!; [|lia|lia|done]. by apply (Hsort 0%nat (S k)); [lia| |].
    + intros j k x y Hjk Hx Hy. by apply (Hsort (S j) (S k)); [lia| |].
Qed.

(** Lists that agree where both are defined agree on the shorter length. *)
Lemma agree_take {A} (l1 l2 : list A) n : (n <= length l1)%nat -> (n <= length l2)%nat ->
  (forall k a b, (k < n)%nat -> l1 !! k = Some a -> l2 !! k = Some b -> a = b) -> take n l1 = take n l2.
Proof.
  intros H1 H2 Hab. apply list_eq. intros k. destruct (decide (k < n)%nat) as [Hk|Hk].
  - rewrite !lookup_take_lt by done. destruct (l1 !! k) as [a|] eqn:Ha; [|apply lookup_ge_None in Ha; lia].
    destruct (l2 !! k) as [b|] eqn:Hb; [|apply lookup_ge_None in Hb; lia]. by rewrite (Hab k a b).
  - by rewrite !lookup_take_ge by lia.
Qed.

Lemma recorded_length steps k : (k <= length steps)%nat -> len (recorded steps k) = Z.of_nat k.
Proof. intros Hk. unfold recorded, len. rewrite length_imap, length_take. lia. Qed.

Lemma recorded_valid old new k : catalog_ok new ->
  validate_from old 0 0 (recorded new k) = true <->
  Forall (fun a => MS_minRuntime a <= len old) (take k new) /\ (forall j a b, take k new !! j = Some a -> old !! j = Some b -> a = b).
Proof.
  intros [Hf Hs Hd]. unfold recorded.
  assert (Hin : forall j a, take k new !! j = Some a -> new !! j = Some a) by (intros j a [? _]%lookup_take_Some; done).
  apply (validate_recorded old (take k new) 0 0).
  - intros j a Ha%Hin. specialize (Hf _ _ Ha). specialize (Hd _ _ Ha). split_and!; lia || done.
  - intros j l a b Hjl Ha%Hin Hb%Hin. by apply (Hs j l).
Qed.

(** C24. Releases and schemas that fit together are exactly those accepted.  Take
    the ledger that the first [k] files of a release have left.  Another
    release runs on it if and only if its own files are all among those, the
    same and in the same place, and none of the applied files needs a newer
    runtime; and it migrates it further if and only if it knows every applied
    file.  So an upgrade can be rolled back exactly to releases that the new
    schema still supports, and an old image never migrates a newer database. *)
Theorem schema_compatibility sha256_hex files new old k :
  (forall s, is_digest (sha256_hex s) = true) -> loadMigrations sha256_hex files = Some new -> (k <= length new)%nat ->
  (validate old (recorded new k) true true = true <->
     (length old <= k)%nat /\ take (length old) new = old /\ Forall (fun a => MS_minRuntime a <= len old) (take k new))
  /\ (validate old (recorded new k) false false = true <-> (k <= length old)%nat /\ take k new = take k old).
Proof.
  intros Hsha Hload Hk. pose proof (loadMigrations_ok _ Hsha _ _ Hload) as Hok. pose proof (recorded_valid old new k Hok) as Hvalid.
  unfold validate. rewrite (recorded_length new k Hk). cbn [andb negb]. rewrite ?orb_false_r. cbn [orb]. unfold len in *. split.
  - case_if; breflect; [split; [done|lia]|]. rewrite Hvalid. split.
    + intros [Hf Hagree]. split; [lia|]. split; [|done]. rewrite <- (take_ge old (length old)) at 2 by lia. apply agree_take; [lia..|].
      intros j a b Hj Ha. apply Hagree. rewrite lookup_take_lt by lia. done.
    + intros (Hl & Htake & Hf). split; [done|]. intros j a b [Ha Hj]%lookup_take_Some Hb. pose proof (lookup_lt_Some _ _ _ Hb) as Hjb.
      rewrite <- Htake, lookup_take_lt in Hb by done. congruence.
  - case_if; breflect; [split; [done|lia]|]. rewrite Hvalid. split.
    + intros [_ Hagree]. split; [lia|]. apply agree_take; [lia..|]. intros j a b Hj Ha. apply Hagree. by rewrite lookup_take_lt.
    + intros (Hl & Htake). split.
      * apply Forall_lookup. intros j a [Ha Hj]%lookup_take_Some. pose proof (co_floors _ Hok _ _ Ha). lia.
      * intros j a b [Ha Hj]%lookup_take_Some Hb. assert (Hj' : take k old !! j = Some a) by (by rewrite <- Htake, lookup_take_lt).
        rewrite lookup_take_lt in Hj' by done. congruence.
Qed.

(** ** A migration run *)

(** The tool appends the version of each file it has executed. *)
Definition record_version (version : Z) (versions : list Z) : option (list Z) := Some (versions ++ [version]).
Definition fresh_ledger : ledger := {| LG_versions := []; LG_rows := None |}.
Definition migrated (steps : list migrationStep) (k : nat) : ledger :=
  {| LG_versions := seqZ 0 (Z.of_nat k + 1); LG_rows := if decide (k = 0)%nat then None else Some (recorded steps k) |}.

Lemma seqZ_snoc k : seqZ 0 (Z.of_nat (S k) + 1) = seqZ 0 (Z.of_nat k + 1) ++ [Z.of_nat k + 1].
Proof. replace (Z.of_nat (S k) + 1) with ((Z.of_nat k + 1) + 1) by lia. rewrite seqZ_app by lia. f_equal. Qed.

Lemma recorded_snoc steps k step : steps !! k = Some step -> recorded steps (S k) = recorded steps k ++ [step_row (Z.of_nat k + 1) step].
Proof.
  intros Hk. unfold recorded. rewrite (take_S_r _ _ step) by done. rewrite imap_app. cbn. rewrite length_take, Nat.add_0_r.
  pose proof (lookup_lt_Some _ _ _ Hk). by rewrite Nat.min_l by lia.
Qed.

Lemma recorded_version steps k r : r ∈ recorded steps k -> 0 < MR_Version r <= Z.of_nat k.
Proof.
  intros (j & x & -> & Hx)%elem_of_lookup_imap. apply lookup_take_Some in Hx as [_ Hj]. cbn. lia.
Qed.

Lemma row_allowed_next steps k step : catalog_ok steps -> steps !! k = Some step ->
  row_allowed (recorded steps k) (step_row (Z.of_nat k + 1) step) = true.
Proof.
  intros Hok Hk. pose proof (co_floors _ Hok _ _ Hk) as Hf. pose proof (co_digests _ Hok _ _ Hk) as Hd. unfold is_digest in Hd.
  unfold row_allowed. cbn [step_row MR_Version MR_Checksum MR_MinRuntime]. breflect. bgoal. split_and!; try lia.
  destruct (existsb _ _) eqn:He; [|done]. apply existsb_exists in He as (r & Hr%list_elem_of_In & Hv). apply recorded_version in Hr. breflect. lia.
Qed.

Lemma migration_run steps k : catalog_ok steps -> (k <= length steps)%nat ->
  apply_files steps record_version (seqZ 0 (Z.of_nat k + 1)) fresh_ledger = Some (migrated steps k).
Proof.
  intros Hok. induction k as [|k IH]; intros Hk.
  { assert (Hl : (len steps <? 0) = false) by (apply Z.ltb_ge; unfold len; lia).
    change (apply_file steps record_version 0 fresh_ledger = Some (migrated steps 0)). unfold apply_file, Insert. by rewrite Hl. }
  rewrite seqZ_snoc. unfold apply_files. rewrite foldl_app. fold (apply_files steps record_version (seqZ 0 (Z.of_nat k + 1)) fresh_ledger).
  rewrite IH by lia. cbn [foldl mbind option_bind]. unfold apply_file, Insert.
  destruct (lookup_lt_is_Some_2 steps k ltac:(lia)) as [step Hstep].
  rewrite (proj2 (Z.ltb_ge (Z.of_nat k + 1) 0)), (proj2 (Z.ltb_ge (len steps) _)) by (unfold len; lia). cbn [orb].
  unfold record_version. rewrite (proj2 (Z.eqb_neq (Z.of_nat k + 1) 0)) by lia.
  replace (Z.to_nat (Z.of_nat k + 1 - 1)) with k by lia. rewrite Hstep. pose proof (row_allowed_next _ _ _ Hok Hstep) as Hrow.
  unfold migrated. rewrite seqZ_snoc, (recorded_snoc _ _ _ Hstep). destruct k as [|k].
  - change (row_allowed [] (step_row 1 step) = true) in Hrow.
    change (Z.of_nat 0 + 1) with 1. cbn -[row_allowed step_row]. by rewrite Hrow.
  - rewrite (proj2 (Z.eqb_neq (Z.of_nat (S k) + 1) 1)) by lia. cbn [LG_rows LG_versions]. rewrite decide_False by done. by rewrite Hrow.
Qed.

(** What the migrator reads back of such a ledger. *)
Definition evidence (steps : list migrationStep) (v : Z) : joined :=
  ((Some v, Some true), if 0 <? v then step_row v <$> steps !! Z.to_nat (v - 1) else None).

Lemma row_for_recorded steps k v : (k <= length steps)%nat -> 0 < v <= Z.of_nat k ->
  row_for (recorded steps k) v = step_row v <$> steps !! Z.to_nat (v - 1).
Proof.
  induction k as [|k IH]; intros Hk Hv; [lia|]. destruct (lookup_lt_is_Some_2 steps k ltac:(lia)) as [step Hstep].
  rewrite (recorded_snoc _ _ _ Hstep). unfold row_for in *.
  assert (Happ : forall l1 l2, find (fun r => MR_Version r =? v) (l1 ++ l2)
    = match find (fun r => MR_Version r =? v) l1 with Some r => Some r | None => find (fun r => MR_Version r =? v) l2 end).
  { induction l1 as [|x l1 IHl]; intros l2; [done|]. cbn. case_if; [done|apply IHl]. }
  rewrite Happ. destruct (decide (v = Z.of_nat k + 1)) as [->|Hne].
  - assert (find (fun r => MR_Version r =? Z.of_nat k + 1) (recorded steps k) = None) as ->.
    { destruct (find _ _) as [r|] eqn:Hf; [|done]. apply find_some in Hf as [Hr%list_elem_of_In%recorded_version Hv']. breflect. lia. }
    cbn. rewrite Z.eqb_refl. replace (Z.to_nat (Z.of_nat k + 1 - 1)) with k by lia. by rewrite Hstep.
  - rewrite IH by lia. destruct (lookup_lt_is_Some_2 steps (Z.to_nat (v - 1)) ltac:(lia)) as [s Hs]. by rewrite Hs.
Qed.

Lemma join_migrated steps k : (k <= length steps)%nat -> full_join (migrated steps k) = map (evidence steps) (seqZ 0 (Z.of_nat k + 1)).
Proof.
  intros Hk. unfold full_join.
  assert (Hrows : default [] (LG_rows (migrated steps k)) = recorded steps k) by (cbn; by destruct (decide (k = 0%nat)) as [->|]).
  rewrite Hrows. cbn [migrated LG_versions].
  assert (Hnone : filter (fun r => (MR_Version r in? seqZ 0 (Z.of_nat k + 1)) = false) (recorded steps k) = []).
  { destruct (filter _ _) as [|r l] eqn:Hf; [done|]. assert (Hr : r ∈ r :: l) by (by left). rewrite <- Hf in Hr.
    apply list_elem_of_filter in Hr as [Hv Hr%recorded_version]. breflect. exfalso. apply Hv. apply elem_of_seqZ. lia. }
  rewrite Hnone. cbn [map]. rewrite app_nil_r.
  assert (Hmap : map (fun v => ((Some v, Some true), row_for (recorded steps k) v)) (seqZ 0 (Z.of_nat k + 1))
                 = map (evidence steps) (seqZ 0 (Z.of_nat k + 1))).
  { apply map_ext_in. intros v Hv%list_elem_of_In%elem_of_seqZ. unfold evidence. f_equal. case_if; breflect; [apply row_for_recorded; lia|].
    unfold row_for. destruct (find _ _) as [r|] eqn:Hf; [|done]. apply find_some in Hf as [Hr%list_elem_of_In%recorded_version Hv']. breflect. lia. }
  rewrite Hmap. apply (StronglySorted_unique_strong joined_le).
  - intros a b Ha Hb Hab Hba. rewrite merge_sort_Permutation in Ha. apply list_elem_of_fmap in Ha as (v & -> & _), Hb as (w & -> & _).
    unfold joined_le, coalesced, evidence in *.
    by replace w with v by lia.
  - apply StronglySorted_merge_sort; intros a b; unfold joined_le; lia.
  - assert (Hs : forall n m, StronglySorted joined_le (map (evidence steps) (seqZ m (Z.of_nat n)))).
    { induction n as [|n IH]; intros m; [constructor|]. rewrite seqZ_cons by lia. cbn [map]. constructor.
      - replace (Z.pred (Z.of_nat (S n))) with (Z.of_nat n) by lia. apply IH.
      - apply Forall_forall. intros x (v & -> & Hv%elem_of_seqZ)%list_elem_of_fmap. unfold joined_le, coalesced, evidence. lia. }
    specialize (Hs (S k) 0). by replace (Z.of_nat (S k)) with (Z.of_nat k + 1) in Hs by lia.
  - apply merge_sort_Permutation.
Qed.

Lemma check_evidence steps k : catalog_ok steps -> (k <= length steps)%nat -> forall n j, (n + j = k)%nat ->
  check_joined steps (map (evidence steps) (seqZ (Z.of_nat j + 1) (Z.of_nat n))) (seqZ 0 (Z.of_nat j + 1)) (recorded steps j)
  = Some (seqZ 0 (Z.of_nat k + 1), recorded steps k).
Proof.
  intros Hok Hk. induction n as [|n IH]; intros j Hj; [by replace j with k by lia|].
  rewrite seqZ_cons by lia. cbn [map evidence check_joined]. unfold evidence at 1.
  destruct (lookup_lt_is_Some_2 steps j ltac:(lia)) as [step Hstep]. pose proof (co_floors _ Hok _ _ Hstep) as Hf.
  rewrite (proj2 (Z.ltb_lt 0 (Z.of_nat j + 1))) by lia. replace (Z.to_nat (Z.of_nat j + 1 - 1)) with j by lia. rewrite Hstep. cbn [fmap option_fmap option_map].
  assert (Hlen : len (seqZ 0 (Z.of_nat j + 1)) = Z.of_nat j + 1) by (unfold len; rewrite length_seqZ; lia).
  rewrite Hlen, bool_decide_true by done. cbn [negb step_row MR_MinRuntime MR_Checksum].
  rewrite (proj2 (Z.ltb_ge (MS_minRuntime step) 1)), (proj2 (Z.ltb_ge (Z.of_nat j + 1) (MS_minRuntime step))),
    (proj2 (Z.ltb_ge (len steps) (Z.of_nat j + 1))) by (unfold len; lia).
  cbn [orb]. rewrite <- seqZ_snoc. change {| MR_Version := Z.of_nat j + 1; MR_Checksum := MS_checksum step; MR_MinRuntime := MS_minRuntime step |}
    with (step_row (Z.of_nat j + 1) step). rewrite <- (recorded_snoc _ _ _ Hstep).
  replace (Z.succ (Z.of_nat j + 1)) with (Z.of_nat (S j) + 1) by lia. replace (Z.pred (Z.of_nat (S n))) with (Z.of_nat n) by lia.
  apply IH. lia.
Qed.

(** C25. What a migrator has applied, it finds again.  Applying the first [k]
    files of a release to an empty database, each with both its records in one
    transaction, leaves the versions 0 to [k] and one row of evidence for each
    file; the migrator accepts that ledger as its own and reads the versions
    back newest first, and a runtime of that release starts on it exactly when
    all of its files have been applied. *)
Theorem migration_is_recorded sha256_hex files steps k :
  (forall s, is_digest (sha256_hex s) = true) -> loadMigrations sha256_hex files = Some steps -> (k <= length steps)%nat ->
  exists l, apply_files steps record_version (seqZ 0 (Z.of_nat k + 1)) fresh_ledger = Some l
    /\ default [] (LG_rows l) = recorded steps k
    /\ (forall base, (0 < k)%nat -> ListMigrations steps true base (full_join l) = Some (rev (seqZ 0 (Z.of_nat k + 1))))
    /\ (checkSchema (Some (default [] (LG_rows l))) (Some steps) = None <-> k = length steps).
Proof.
  intros Hsha Hload Hk. pose proof (loadMigrations_ok _ Hsha _ _ Hload) as Hok. exists (migrated steps k). split; [by apply migration_run|].
  assert (Hrows : default [] (LG_rows (migrated steps k)) = recorded steps k) by (cbn; by destruct (decide (k = 0%nat)) as [->|]).
  pose proof (recorded_valid steps steps k Hok) as Hvalid.
  assert (Hv : validate_from steps 0 0 (recorded steps k) = true).
  { apply Hvalid. split; [|intros j a b [Ha _]%lookup_take_Some Hb; congruence]. apply Forall_lookup. intros j a [Ha Hj]%lookup_take_Some.
    pose proof (co_floors _ Hok _ _ Ha). unfold len. lia. }
  pose proof (recorded_length steps k Hk) as Hlen. split; [done|]. split.
  - intros base Hpos. unfold ListMigrations. rewrite join_migrated by done.
    assert (Hseq : seqZ 0 (Z.of_nat k + 1) = 0 :: seqZ (Z.of_nat 0 + 1) (Z.of_nat k)).
    { rewrite seqZ_cons by lia. f_equal. f_equal; lia. }
    rewrite Hseq at 1. cbn [map].
    change (check_joined steps (evidence steps 0 :: map (evidence steps) (seqZ (Z.of_nat 0 + 1) (Z.of_nat k))) [] [])
      with (check_joined steps (map (evidence steps) (seqZ (Z.of_nat 0 + 1) (Z.of_nat k))) (seqZ 0 (Z.of_nat 0 + 1)) (recorded steps 0)).
    rewrite (check_evidence steps k Hok Hk k 0%nat) by lia. unfold validate. rewrite Hlen, Hv. cbn [andb negb orb].
    assert (Hsteps : (len steps <? Z.of_nat k) = false) by (apply Z.ltb_ge; unfold len; lia).
    assert (Hsome : (len (seqZ 0 (Z.of_nat k + 1)) =? 0) = false) by (apply Z.eqb_neq; unfold len; rewrite length_seqZ; lia).
    by rewrite Hsteps, Hsome.
  - rewrite Hrows. unfold checkSchema, validate. rewrite Hlen, Hv. cbn [andb negb orb]. unfold len. rewrite ?orb_false_r.
    destruct (Z.ltb_spec (Z.of_nat k) (Z.of_nat (length steps))); split; try done; lia.
Qed.

(** A ready service can serve.  Readiness is reported only when the service
    is not stopping, the schema has all of its migrations unchanged and none
    that needs a newer runtime, and the journal has been recovered by this very
    process, which still owns it. *)
Theorem readiness_is_truthful stopping stopping' rows catalog s control :
  GetReadiness stopping (Ready rows catalog s control) stopping' = true ->
  stopping = false /\ stopping' = false
  /\ (exists rs steps, rows = Some rs /\ catalog = Some steps /\ validate steps rs true true = true)
  /\ Store_initialized s = true
  /\ exists d, control = Some d /\ DB_ready d = true /\ DB_epoch d = Store_epoch s.
Proof.
  unfold GetReadiness, Ready, checkSchema. rewrite negb_true_iff, !orb_false_iff. intros [[-> Hr] ->].
  destruct rows as [rs|]; [|done]. destruct catalog as [steps|]; [|done]. destruct (validate steps rs true true) eqn:Hv; [|done].
  destruct (Store_initialized s); [|done]. destruct control as [d|]; [|done]. cbn [negb] in Hr. case_if; [done|]. breflect.
  split_and!; try done; [by exists rs, steps|by exists d].
Qed.

(** ** At a small release *)

Definition line_feed : string := str1 (of_byte 10).
Definition sample_file (floor : string) : string :=
  "-- heos:min-runtime=" +:+ floor +:+ line_feed +:+ "-- +goose Up" +:+ line_feed +:+ "CREATE TABLE t ();" +:+ line_feed.
Definition sample_files : list (string * option string) :=
  [("00001_initial.sql", Some (sample_file "1")); ("00002_more.sql", Some (sample_file "1")); ("00003_break.sql", Some (sample_file "3"))].
(** A digest of the examples: all the same. *)
Definition sample_sha (s : string) : string := "0123456789abcdef0123456789abcdef0123456789abcdef0123456789abcdef".
Definition sample_steps : list migrationStep := default [] (loadMigrations sample_sha sample_files).
Lemma sample_sha_digest s : is_digest (sample_sha s) = true.
Proof. by vm_compute. Qed.

(** The first release of the three still runs after the second file, not after the third. *)
Lemma schema_compatibility_witness :
  validate (take 1 sample_steps) (recorded sample_steps 2) true true = true
  /\ validate (take 1 sample_steps) (recorded sample_steps 3) true true = false.
Proof.
  assert (Hload : loadMigrations sample_sha sample_files = Some sample_steps) by (vm_compute; reflexivity).
  split; [|by vm_compute]. apply (schema_compatibility sample_sha sample_files sample_steps (take 1 sample_steps) 2 sample_sha_digest Hload).
  - vm_compute. lia.
  - split; [vm_compute; lia|]. split; [by vm_compute|]. vm_compute. repeat constructor; discriminate.
Defined.

Lemma migration_is_recorded_witness : exists l,
  apply_files sample_steps record_version (seqZ 0 4) fresh_ledger = Some l
  /\ ListMigrations sample_steps true None (full_join l) = Some [3; 2; 1; 0].
Proof.
  assert (Hload : loadMigrations sample_sha sample_files = Some sample_steps) by (vm_compute; reflexivity).
  destruct (migration_is_recorded sample_sha sample_files sample_steps 3 sample_sha_digest Hload) as (l & Hl & _ & Hlist & _); [vm_compute; lia|].
  exists l. split; [exact Hl|]. apply (Hlist None). lia.
Defined.

Lemma readiness_is_truthful_witness :
  let s := {| Store_epoch := "e"; Store_maxOperations := 0; Store_initialized := true; Store_previousEpoch := None |} in
  let d := {| DB_epoch := "e"; DB_ready := true; DB_operations := ∅; DB_requests := ∅; DB_reservations := ∅ |} in
  GetReadiness false (Ready (Some (recorded sample_steps 3)) (Some sample_steps) s (Some d)) false = true
  /\ Store_initialized s = true.
Proof.
  intros s d. assert (H : GetReadiness false (Ready (Some (recorded sample_steps 3)) (Some sample_steps) s (Some d)) false = true) by (vm_compute; reflexivity).
  split; [exact H|]. by destruct (readiness_is_truthful _ _ _ _ _ _ H) as (_ & _ & _ & Hi & _).
Defined.
