(* ===== verification/Checks.v ===== *)
(** * Files of the configuration and their offline check
    ([internal/config/files.go], [readonly.go], [check.go])

    What reading a file meets, the strict decoding of a configuration and of a
    credential file, and the report of [CheckFile].  [parse] and [scan] read a
    JSON text, [pem_decode], [parse_certificate], [key_pair] and [append_certs]
    are those of the standard library's cryptography. *)

From S2P Require Import Prelude GoStd Values Model QueueStart QueueOps Evidence Command Json JournalModel Views Execution Lane Select.
From S2P Require Import Submit Config ConfigProps Unmarshal Project.
From Stdlib Require Import Ascii.

(** ** Reading *)

Definition maxFileBytes : Z := 2 ^ 20.

(** What the system reports of a path: whether it opens and can be inspected,
    whether it is a regular file, its size, and what reading gives. *)
Record os_file := {
  OF_opens : bool;
  OF_stats : bool;
  OF_regular : bool;
  OF_size : Z;
  OF_contents : option string
}.

(** The reader stops one byte after the limit. *)
Definition limited (contents : string) : string := String.substring 0 (Z.to_nat (maxFileBytes + 1)) contents.

Definition ReadReferencedFile (f : os_file) : FieldError + string :=
  if negb (OF_opens f) then inl (invalidField "" "file_unreadable" "cannot open configuration file")
  else if negb (OF_stats f) then inl (invalidField "" "file_unreadable" "cannot inspect configuration file")
  else if negb (OF_regular f) then inl (invalidField "" "file_not_regular" "configuration file must resolve to a regular file")
  else if maxFileBytes <? OF_size f then inl (invalidField "" "file_too_large" "configuration file exceeds 1 MiB bound")
  else match OF_contents f with
       | None => inl (invalidField "" "file_unreadable" "cannot read configuration file")
       | Some contents =>
           let b := limited contents in
           if maxFileBytes <? slen b then inl (invalidField "" "file_too_large" "configuration file exceeds 1 MiB bound") else inr b
       end.

(** ** Decoding *)

#[export] Instance Database_eta : Eta Database := fun d =>
  {| DBC_Host := DBC_Host d; DBC_Port := DBC_Port d; DBC_Name := DBC_Name d; DBC_User := DBC_User d;
     DBC_PasswordFile := DBC_PasswordFile d; DBC_CAFile := DBC_CAFile d; DBC_MaxConnections := DBC_MaxConnections d;
     DBC_TimeoutSeconds := DBC_TimeoutSeconds d; DBC_LockTimeoutSeconds := DBC_LockTimeoutSeconds d |}.
#[export] Instance Config_eta : Eta Config := fun c =>
  {| Conf_LogLevel := Conf_LogLevel c; Conf_Listen := Conf_Listen c; Conf_CertFile := Conf_CertFile c; Conf_KeyFile := Conf_KeyFile c;
     Conf_ShutdownSeconds := Conf_ShutdownSeconds c; Conf_Database := Conf_Database c; Conf_CredentialsFile := Conf_CredentialsFile c;
     Conf_Players := Conf_Players c; Conf_Sources := Conf_Sources c |}.
#[export] Instance PlayerConfig_eta : Eta PlayerConfig := fun p =>
  {| Cfg_WritesEnabled := Cfg_WritesEnabled p; Cfg_Key := Cfg_Key p; Cfg_Address := Cfg_Address p;
     Cfg_FingerprintSHA256 := Cfg_FingerprintSHA256 p; Cfg_Serial := Cfg_Serial p; Cfg_Model := Cfg_Model p;
     Cfg_VolumeCeiling := Cfg_VolumeCeiling p |}.
#[export] Instance SourceConfig_eta : Eta SourceConfig := fun s =>
  {| SrcCfg_Key := SrcCfg_Key s; SrcCfg_Player := SrcCfg_Player s; SrcCfg_Name := SrcCfg_Name s |}.
#[export] Instance Credential_eta : Eta Credential := fun c =>
  {| Cred_Principal := Cred_Principal c; Cred_TokenSHA256 := Cred_TokenSHA256 c; Cred_Scopes := Cred_Scopes c; Cred_Players := Cred_Players c |}.
#[export] Instance CredentialFile_eta : Eta CredentialFile := fun f =>
  {| CF_Version := CF_Version f; CF_Credentials := CF_Credentials f |}.

(** An integer of a narrower type: a number out of its range is a mismatch. *)
Definition dec_uint16 : Dec Z := fun cur v =>
  match v with
  | JNumber n => match parseUint n with Some z => if z <? 2 ^ 16 then (z, Good) else (cur, Mistyped) | None => (cur, Mistyped) end
  | JNull => (cur, Good)
  | _ => (cur, Mistyped)
  end.
Definition dec_int32 : Dec Z := fun cur v =>
  match dec_int cur v with
  | (z, Good) => if (- 2 ^ 31 <=? z) && (z <? 2 ^ 31) then (z, Good) else (cur, Mistyped)
  | r => r
  end.

(** The items of an array: each is decoded into the element that was there. *)
Fixpoint dec_items {A} (zero : A) (d : Dec A) (old : list A) (items : list json) : list A * outcome :=
  match items with
  | [] => ([], Good)
  | v :: rest =>
      let '(a, out) := d (nth 0 old zero) v in
      if out == Stopped then ([a], Stopped)
      else let '(l, out') := dec_items zero d (tail old) rest in (a :: l, worse out out')
  end.
Definition dec_slice {A} (zero : A) (d : Dec A) : Dec (list A) := fun cur v =>
  match v with JNull => ([], Good) | JArray items => dec_items zero d cur items | _ => (cur, Mistyped) end.
(** A field whose type alone matters. *)
Definition unread {A B} (zero : B) (d : Dec B) : Dec A := into d (fun _ => zero) (fun _ a => a).

Definition database_fields : list (string * Dec Database) := [
  ("host", into dec_string DBC_Host (fun x d => d <| DBC_Host := x |>));
  ("port", into dec_uint16 DBC_Port (fun x d => d <| DBC_Port := x |>));
  ("name", into dec_string DBC_Name (fun x d => d <| DBC_Name := x |>));
  ("user", into dec_string DBC_User (fun x d => d <| DBC_User := x |>));
  ("password_file", into dec_string DBC_PasswordFile (fun x d => d <| DBC_PasswordFile := x |>));
  ("ca_file", into dec_string DBC_CAFile (fun x d => d <| DBC_CAFile := x |>));
  ("max_connections", into dec_int32 DBC_MaxConnections (fun x d => d <| DBC_MaxConnections := x |>));
  ("timeout_seconds", into dec_int DBC_TimeoutSeconds (fun x d => d <| DBC_TimeoutSeconds := x |>));
  ("lock_timeout_seconds", into dec_int DBC_LockTimeoutSeconds (fun x d => d <| DBC_LockTimeoutSeconds := x |>))].
Definition player_fields : list (string * Dec PlayerConfig) := [
  ("writes_enabled", into dec_bool Cfg_WritesEnabled (fun x p => p <| Cfg_WritesEnabled := x |>));
  ("key", into dec_string Cfg_Key (fun x p => p <| Cfg_Key := x |>));
  ("address", into dec_string Cfg_Address (fun x p => p <| Cfg_Address := x |>));
  ("fingerprint_sha256", into dec_string Cfg_FingerprintSHA256 (fun x p => p <| Cfg_FingerprintSHA256 := x |>));
  ("serial", into dec_string Cfg_Serial (fun x p => p <| Cfg_Serial := x |>));
  ("model", into dec_string Cfg_Model (fun x p => p <| Cfg_Model := x |>));
  ("volume_ceiling", into (dec_pointer 0 dec_int) Cfg_VolumeCeiling (fun x p => p <| Cfg_VolumeCeiling := x |>))].
Definition source_fields : list (string * Dec SourceConfig) := [
  ("key", into dec_string SrcCfg_Key (fun x s => s <| SrcCfg_Key := x |>));
  ("player", into dec_string SrcCfg_Player (fun x s => s <| SrcCfg_Player := x |>));
  ("name", into dec_string SrcCfg_Name (fun x s => s <| SrcCfg_Name := x |>));
  ("udn", unread "" dec_string)].
Definition credential_fields : list (string * Dec Credential) := [
  ("principal", into dec_string Cred_Principal (fun x c => c <| Cred_Principal := x |>));
  ("token_sha256", into dec_string Cred_TokenSHA256 (fun x c => c <| Cred_TokenSHA256 := x |>));
  ("scopes", into (dec_slice "" dec_string) Cred_Scopes (fun x c => c <| Cred_Scopes := x |>));
  ("players", into (dec_slice "" dec_string) Cred_Players (fun x c => c <| Cred_Players := x |>))].

Definition player_zero : PlayerConfig := Build_PlayerConfig false "" "" "" "" "" None.
Definition source_zero : SourceConfig := Build_SourceConfig "" "" "".
Definition credential_zero : Credential := Build_Credential "" "" [] [].
Definition file_zero : CredentialFile := Build_CredentialFile 0 None.

Definition config_fields : list (string * Dec Config) := [
  ("log_level", into dec_string Conf_LogLevel (fun x c => c <| Conf_LogLevel := x |>));
  ("listen", into dec_string Conf_Listen (fun x c => c <| Conf_Listen := x |>));
  ("cert_file", into dec_string Conf_CertFile (fun x c => c <| Conf_CertFile := x |>));
  ("key_file", into dec_string Conf_KeyFile (fun x c => c <| Conf_KeyFile := x |>));
  ("shutdown_seconds", into dec_int Conf_ShutdownSeconds (fun x c => c <| Conf_ShutdownSeconds := x |>));
  ("database", into (dec_strict database_fields) Conf_Database (fun x c => c <| Conf_Database := x |>));
  ("credentials_file", into dec_string Conf_CredentialsFile (fun x c => c <| Conf_CredentialsFile := x |>));
  ("docs_enabled", unread false dec_bool);
  ("players", into (dec_slice player_zero (dec_strict player_fields)) Conf_Players (fun x c => c <| Conf_Players := x |>));
  ("sources", into (dec_slice source_zero (dec_strict source_fields)) Conf_Sources (fun x c => c <| Conf_Sources := x |>))].
Definition dec_credentials : Dec (option (list Credential)) := fun cur v =>
  match v with
  | JNull => (None, Good)
  | _ => match dec_slice credential_zero (dec_strict credential_fields) (default [] cur) v with
         | (l, out) => (match v with JArray _ => Some l | _ => cur end, out)
         end
  end.
Definition file_fields : list (string * Dec CredentialFile) := [
  ("version", into dec_int CF_Version (fun x f => f <| CF_Version := x |>));
  ("credentials", into dec_credentials CF_Credentials (fun x f => f <| CF_Credentials := x |>))].

Definition default_config : Config := {|
  Conf_LogLevel := "info"; Conf_Listen := ":8443"; Conf_CertFile := ""; Conf_KeyFile := ""; Conf_ShutdownSeconds := 25;
  Conf_Database := {| DBC_Host := ""; DBC_Port := 5432; DBC_Name := ""; DBC_User := ""; DBC_PasswordFile := ""; DBC_CAFile := "";
                      DBC_MaxConnections := 4; DBC_TimeoutSeconds := 5; DBC_LockTimeoutSeconds := 2 |};
  Conf_CredentialsFile := ""; Conf_Players := []; Conf_Sources := [] |}.

Section files.
Context (parse : string -> option json) (scan : string -> list token).
(** The files by their paths. *)
Context (fs : string -> os_file).

(** The value is filled as far as the decoding got. *)
Definition DecodeFile {A} (d : Dec A) (path : string) (out : A) : A * option FieldError :=
  let invalid := Some (invalidField "" "invalid_json" "invalid configuration JSON") in
  match ReadReferencedFile (fs path) with
  | inl e => (out, Some e)
  | inr b =>
      if negb (UniqueJSON (validUTF8 b) (scan b)) then (out, invalid)
      else match parse b with
           | None => (out, invalid)
           | Some v => let '(a, result) := d out v in (a, if result == Good then None else invalid)
           end
  end.

Definition Load (parse_addr : string -> bool) (path : string) : Config * option FieldError :=
  match DecodeFile (dec_strict config_fields) path default_config with
  | (c, Some e) => (c, Some e)
  | (c, None) => (c, Config_Validate parse_addr c)
  end.

(** The credential file as [LoadCredentials] meets it. *)
Definition credential_file (path : string) : FieldError + CredentialFile :=
  match DecodeFile (dec_strict file_fields) path file_zero with (_, Some e) => inl e | (f, None) => inr f end.
End files.

(** ** The report *)

Record Check := { Ck_Field : string; Ck_Code : string; Ck_Message : string; Ck_OK : bool }.
#[export] Instance Check_eq_dec : EqDecision Check.
Proof. solve_decision. Defined.

Definition checkSuccess (field message : string) : Check :=
  {| Ck_Field := field; Ck_Code := "ok"; Ck_Message := message; Ck_OK := true |}.
Definition checkBad (field code message : string) : Check :=
  {| Ck_Field := field; Ck_Code := code; Ck_Message := message; Ck_OK := false |}.
(** Every error of this package names its check. *)
Definition checkFailure (field : string) (err : FieldError) : Check :=
  let named := if FE_field err == "" then field
               else if (field == "credentials_file") && (FE_field err == "version") then "credentials_file.version"
               else FE_field err in
  checkBad named (FE_code err) (FE_message err).

(** ** The certificate of the API *)

Record Certificate := {
  X_NotBefore : Time;
  X_NotAfter : Time;
  X_ExtKeyUsage : list Z;
  X_UnknownExtKeyUsage : list (list Z)
}.
Definition ExtKeyUsageAny : Z := 0.
Definition ExtKeyUsageServerAuth : Z := 1.
Record pem_block := { Pem_Type : string; Pem_Bytes : string }.

Definition allowsServerAuth (cert : Certificate) : bool :=
  ((len (X_ExtKeyUsage cert) =? 0) && (len (X_UnknownExtKeyUsage cert) =? 0))
  || existsb (fun usage => (usage =? ExtKeyUsageAny) || (usage =? ExtKeyUsageServerAuth)) (X_ExtKeyUsage cert).

(** The first certificate outside of its validity. *)
Fixpoint validity (now : Time) (chain : list Certificate) : list Check :=
  match chain with
  | [] => []
  | cert :: rest =>
      if now <? X_NotBefore cert
      then [checkBad "cert_file" "certificate_not_yet_valid" "API certificate chain contains a certificate that is not yet valid."]
      else if X_NotAfter cert <? now
      then [checkBad "cert_file" "certificate_expired" "API certificate chain contains an expired certificate."]
      else validity now rest
  end.

Section check.
Context (parse : string -> option json) (scan : string -> list token) (parse_addr : string -> bool) (fs : string -> os_file).
Context (pem_decode : string -> option (pem_block * string)) (parse_certificate : string -> option Certificate).
Context (key_pair : string -> string -> bool) (append_certs : string -> bool).

(** The loop over the blocks, one per step of fuel; without fuel the outer
    result is [None], an unreadable certificate is the inner one. *)
Fixpoint certificate_blocks (fuel : nat) (data : string) : option (option (list Certificate)) :=
  match fuel with
  | O => None
  | S fuel =>
      match pem_decode data with
      | None => Some (Some [])
      | Some (block, rest) =>
          if Pem_Type block != "CERTIFICATE" then certificate_blocks fuel rest
          else match parse_certificate (Pem_Bytes block) with
               | None => Some None
               | Some cert => option_map (option_map (cons cert)) (certificate_blocks fuel rest)
               end
      end
  end.
Definition parseCertificateChain (data : string) : option (Certificate * list Certificate) :=
  match certificate_blocks (S (String.length data)) data with
  | Some (Some (leaf :: rest)) => Some (leaf, rest)
  | _ => None
  end.

Definition read_failure (field : string) (b : FieldError + string) : list Check :=
  match b with inl e => [checkFailure field e] | inr _ => [] end.

Definition checkAPITLS (certFile keyFile : string) (now : Time) : list Check :=
  match ReadReferencedFile (fs certFile), ReadReferencedFile (fs keyFile) with
  | inr certPEM, inr keyPEM =>
      match parseCertificateChain certPEM with
      | None => [checkBad "cert_file" "certificate_invalid" "API certificate file must contain a parseable PEM certificate chain."]
      | Some (leaf, rest) =>
          let failures :=
            (if key_pair certPEM keyPEM then []
             else [checkBad "key_file" "key_pair_invalid" "API private key must be readable PEM and match the leaf certificate."])
            ++ validity now (leaf :: rest)
            ++ (if allowsServerAuth leaf then []
                else [checkBad "cert_file" "certificate_usage" "API leaf certificate must permit TLS server authentication."]) in
          if 0 <? len failures then failures
          else [checkSuccess "api.tls" "API certificate and key match, validity and server-auth usage pass; hostname and trust are not checked offline."]
      end
  | certErr, keyErr => read_failure "cert_file" certErr ++ read_failure "key_file" keyErr
  end.

Definition check_credentials_file (c : Config) : Check :=
  let path := Conf_CredentialsFile c in
  match LoadCredentials path (credential_file parse scan fs path) (Conf_Players c) with
  | inl e => checkFailure "credentials_file" e
  | inr _ => if path == ""
             then checkSuccess "credentials_file" "No credential file is configured; authenticated API access is disabled."
             else checkSuccess "credentials_file" "Credential schema, scopes and player references are valid."
  end.
Definition check_password (c : Config) : Check :=
  match ReadReferencedFile (fs (DBC_PasswordFile (Conf_Database c))) with
  | inl e => checkFailure "database.password_file" e
  | inr password =>
      if trimSpace password == ""
      then checkBad "database.password_file" "password_empty" "Database password file is empty after trimming whitespace."
      else checkSuccess "database.password_file" "Database password file contains a non-empty value."
  end.
Definition check_ca (c : Config) : Check :=
  match ReadReferencedFile (fs (DBC_CAFile (Conf_Database c))) with
  | inl e => checkFailure "database.ca_file" e
  | inr ca =>
      if negb (append_certs ca)
      then checkBad "database.ca_file" "ca_invalid" "Database CA file must contain at least one parseable PEM certificate."
      else checkSuccess "database.ca_file" "Database CA certificates can be loaded; remote identity and trust are not checked offline."
  end.

Definition CheckFile (path : string) (now : Time) : Config * list Check :=
  match Load parse scan fs parse_addr path with
  | (c, Some e) => (c, [checkFailure "config" e])
  | (c, None) =>
      (c, [checkSuccess "config" "Configuration schema and local safety policies are valid."; check_credentials_file c]
          ++ checkAPITLS (Conf_CertFile c) (Conf_KeyFile c) now ++ [check_password c; check_ca c])
  end.
End check.

(** ** What a clean report of the offline check means *)

(** ** Reading *)

(** A regular file of at most 1 MiB, and all of it. *)
Record readable (f : os_file) (b : string) : Prop := {
  rd_opens : OF_opens f = true /\ OF_stats f = true;
  rd_regular : OF_regular f = true;
  rd_size : OF_size f <= maxFileBytes;
  rd_whole : OF_contents f = Some b /\ slen b <= maxFileBytes
}.

Lemma substring_short n s : String.length (String.substring 0 n s) = Nat.min n (String.length s).
Proof. revert n. induction s as [|c s IH]; intros [|n]; cbn; try done. by rewrite IH. Qed.
Lemma substring_whole n s : (String.length s <= n)%nat -> String.substring 0 n s = s.
Proof. revert n. induction s as [|c s IH]; intros [|n]; cbn; try done; [lia|]. intros H. rewrite IH; [done|lia]. Qed.

Lemma limited_fits s : slen (limited s) <= maxFileBytes <-> slen s <= maxFileBytes.
Proof. unfold slen, limited. rewrite substring_short. lia. Qed.
Lemma limited_whole s : slen s <= maxFileBytes -> limited s = s.
Proof. intros H. apply substring_whole. unfold slen in H. lia. Qed.

Lemma read_referenced f b : ReadReferencedFile f = inr b <-> readable f b.
Proof.
  unfold ReadReferencedFile.
  destruct (OF_opens f) eqn:Ho; cbn; [|split; [done|intros [[]]; congruence]].
  destruct (OF_stats f) eqn:Hs; cbn; [|split; [done|intros [[]]; congruence]].
  destruct (OF_regular f) eqn:Hr; cbn; [|split; [done|intros []; congruence]].
  destruct (Z.ltb_spec maxFileBytes (OF_size f)); [split; [done|intros []; lia]|].
  destruct (OF_contents f) as [s|] eqn:Hc; [|split; [done|intros [? ? ? []]; congruence]].
  destruct (Z.ltb_spec maxFileBytes (slen (limited s))) as [Hl|Hl].
  - split; [done|]. intros [? ? ? [Hb Hlen]]. assert (s = b) as -> by congruence. pose proof (proj2 (limited_fits b) Hlen). lia.
  - apply (proj1 (limited_fits s)) in Hl. rewrite limited_whole by done. split; [intros [= <-]; by constructor|].
    intros [? ? ? [Hb ?]]. congruence.
Qed.

(** ** The certificate chain *)

Section checks.
Context (parse : string -> option json) (scan : string -> list token) (parse_addr : string -> bool) (fs : string -> os_file).
Context (pem_decode : string -> option (pem_block * string)) (parse_certificate : string -> option Certificate).
Context (key_pair : string -> string -> bool) (append_certs : string -> bool).
(** The rest that [pem.Decode] returns with a block is shorter than its input. *)
Hypothesis pem_shrinks : forall data block rest, pem_decode data = Some (block, rest) -> (String.length rest < String.length data)%nat.

(** The certificates of a PEM text, in order; other blocks are skipped. *)
Inductive pem_chain : string -> list Certificate -> Prop :=
| chain_end data : pem_decode data = None -> pem_chain data []
| chain_other data block rest l : pem_decode data = Some (block, rest) -> Pem_Type block <> "CERTIFICATE" ->
    pem_chain rest l -> pem_chain data l
| chain_certificate data block rest cert l : pem_decode data = Some (block, rest) -> Pem_Type block = "CERTIFICATE" ->
    parse_certificate (Pem_Bytes block) = Some cert -> pem_chain rest l -> pem_chain data (cert :: l).

Lemma blocks_sound fuel data l : certificate_blocks pem_decode parse_certificate fuel data = Some (Some l) -> pem_chain data l.
Proof using Type.
  revert data l. induction fuel as [|fuel IH]; intros data l; cbn; [done|].
  destruct (pem_decode data) as [[block rest]|] eqn:Hd; [|intros [= <-]; by constructor].
  case_bool_decide as Ht; cbn; [|intros H; eapply chain_other; eauto].
  destruct (parse_certificate _) as [cert|] eqn:Hc; [|done].
  destruct (certificate_blocks _ _ fuel rest) as [[l'|]|] eqn:Hb; cbn; [|done..].
  intros [= <-]. eapply chain_certificate; eauto.
Qed.

Lemma blocks_complete data l : pem_chain data l -> forall fuel, (String.length data < fuel)%nat ->
  certificate_blocks pem_decode parse_certificate fuel data = Some (Some l).
Proof using pem_shrinks.
  induction 1 as [data Hd|data block rest l Hd Ht _ IH|data block rest cert l Hd Ht Hc _ IH]; intros [|fuel] Hf; [lia| |lia| |lia|]; cbn;
    rewrite Hd; [done| |]; apply pem_shrinks in Hd.
  - rewrite bool_decide_eq_false_2 by done. cbn. apply IH. lia.
  - rewrite bool_decide_eq_true_2 by done. cbn. rewrite Hc, IH by lia. done.
Qed.

(** The fuel is enough. *)
Lemma blocks_terminate fuel data : (String.length data < fuel)%nat ->
  certificate_blocks pem_decode parse_certificate fuel data <> None.
Proof using pem_shrinks.
  revert data. induction fuel as [|fuel IH]; intros data Hf; [lia|]. cbn.
  destruct (pem_decode data) as [[block rest]|] eqn:Hd; [|done]. apply pem_shrinks in Hd.
  case_if; [apply IH; lia|]. destruct (parse_certificate _); [|done].
  specialize (IH rest ltac:(lia)). by destruct (certificate_blocks _ _ fuel rest).
Qed.

Lemma parsed_chain data leaf rest :
  parseCertificateChain pem_decode parse_certificate data = Some (leaf, rest) <-> pem_chain data (leaf :: rest).
Proof using pem_shrinks.
  unfold parseCertificateChain. split.
  - destruct (certificate_blocks _ _ _ _) as [[[|c l]|]|] eqn:Hb; try done. intros [= <- <-]. by apply blocks_sound in Hb.
  - intros H. by rewrite (blocks_complete _ _ H) by lia.
Qed.

Definition valid_at (now : Time) (cert : Certificate) : Prop := X_NotBefore cert <= now <= X_NotAfter cert.
Lemma validity_nil now chain : validity now chain = [] <-> Forall (valid_at now) chain.
Proof using Type.
  induction chain as [|cert chain IH]; cbn; [split; [constructor|done]|]. rewrite Forall_cons. unfold valid_at at 1.
  destruct (Z.ltb_spec now (X_NotBefore cert)); [split; [done|lia]|].
  destruct (Z.ltb_spec (X_NotAfter cert) now); [split; [done|lia]|]. rewrite IH. split; [split; [lia|done]|tauto].
Qed.
Lemma validity_bad now chain : forallb Ck_OK (validity now chain) = true -> validity now chain = [].
Proof using Type. induction chain as [|cert chain IH]; cbn; [done|]. by repeat case_if. Qed.

(** For TLS servers: no extended usage, or the usage named. *)
Definition for_servers (cert : Certificate) : Prop :=
  (X_ExtKeyUsage cert = [] /\ X_UnknownExtKeyUsage cert = [])
  \/ exists usage, usage ∈ X_ExtKeyUsage cert /\ (usage = ExtKeyUsageAny \/ usage = ExtKeyUsageServerAuth).
Lemma allowsServerAuth_spec cert : allowsServerAuth cert = true <-> for_servers cert.
Proof using Type.
  unfold allowsServerAuth, for_servers. rewrite orb_true_iff, existsb_exists, andb_true_iff, !Z.eqb_eq.
  assert (Hlen : forall {A} (l : list A), len l = 0 <-> l = []) by (intros A [|]; unfold len; cbn; split; done || lia).
  rewrite !Hlen. setoid_rewrite list_elem_of_In. setoid_rewrite orb_true_iff. by setoid_rewrite Z.eqb_eq.
Qed.

(** A key pair that a client accepts at that time. *)
Definition serves_tls (now : Time) (certFile keyFile : string) : Prop := exists certPEM keyPEM leaf rest,
  readable (fs certFile) certPEM /\ readable (fs keyFile) keyPEM /\ pem_chain certPEM (leaf :: rest)
  /\ key_pair certPEM keyPEM = true /\ Forall (valid_at now) (leaf :: rest) /\ for_servers leaf.

(** Failures, or else the one success. *)
Lemma failures_or (failures : list Check) field message : (forallb Ck_OK failures = true -> failures = []) ->
  forallb Ck_OK (if 0 <? len failures then failures else [checkSuccess field message]) = true <-> failures = [].
Proof using Type.
  intros H. destruct failures as [|f l]; [done|]. replace (0 <? len (f :: l)) with true; [split; done || apply H|].
  symmetry. apply Z.ltb_lt. unfold len. cbn [length]. lia.
Qed.

Lemma checkAPITLS_ok now certFile keyFile :
  forallb Ck_OK (checkAPITLS fs pem_decode parse_certificate key_pair certFile keyFile now) = true <-> serves_tls now certFile keyFile.
Proof using All.
  unfold checkAPITLS, serves_tls. setoid_rewrite <- read_referenced.
  destruct (ReadReferencedFile (fs certFile)) as [e|certPEM]; [split; [done|naive_solver]|].
  destruct (ReadReferencedFile (fs keyFile)) as [e|keyPEM]; [split; [done|naive_solver]|].
  setoid_rewrite <- parsed_chain.
  destruct (parseCertificateChain _ _ certPEM) as [[leaf rest]|] eqn:Hp; [|split; [done|intros (? & ? & ? & ? & [= <-] & ? & ? & ?); congruence]].
  cbv zeta. transitivity ((if key_pair certPEM keyPEM then [] else [tt]) = [] /\ validity now (leaf :: rest) = [] /\ allowsServerAuth leaf = true).
  2: { rewrite validity_nil, allowsServerAuth_spec. split.
       - intros (Hk & Hv & Ha). exists certPEM, keyPEM, leaf, rest. destruct (key_pair _ _); done.
       - intros (? & ? & ? & ? & [= <-] & [= <-] & Hc & -> & Hv & Ha). rewrite Hp in Hc. by simplify_eq. }
  pose proof (validity_bad now (leaf :: rest)) as Hbad. destruct (validity now (leaf :: rest)) as [|bad bads].
  - rewrite failures_or by (by destruct (key_pair _ _), (allowsServerAuth leaf)).
    destruct (key_pair _ _), (allowsServerAuth leaf); cbn; naive_solver.
  - rewrite failures_or; [split; [|intros (? & ? & ?)]; by destruct (key_pair _ _)|].
    rewrite !forallb_app, !andb_true_iff. intros (_ & H & _). by specialize (Hbad H).
Qed.

(** ** The whole report *)

Definition decodes (path : string) (c : Config) : Prop := exists text v,
  readable (fs path) text /\ UniqueJSON (validUTF8 text) (scan text) = true /\ parse text = Some v
  /\ dec_strict config_fields default_config v = (c, Good).

Lemma Load_ok path c : Load parse scan fs parse_addr path = (c, None) <->
  decodes path c /\ process_ok parse_addr c /\ coherent c.
Proof using All.
  unfold Load, DecodeFile, decodes. cbv zeta. setoid_rewrite <- read_referenced. rewrite <- Config_Validate_ok.
  destruct (ReadReferencedFile (fs path)) as [e|text]; [split; [done|naive_solver]|].
  destruct (UniqueJSON _ _) eqn:Hu; cbn [negb]; [|split; [done|naive_solver congruence]].
  destruct (parse text) as [v|] eqn:Hp; [|split; [done|naive_solver congruence]].
  destruct (dec_strict config_fields default_config v) as [c' result] eqn:Hd. case_bool_decide as Hr.
  - subst. split.
    + intros [= -> Hv]. split; [|done]. by exists text, v.
    + intros [(? & ? & [= <-] & _ & ? & ?) Hv]. simplify_eq. congruence.
  - split; [done|]. intros [(? & ? & [= <-] & _ & ? & ?) Hv]. simplify_eq. congruence.
Qed.

(** Everything the process needs at its start is there and usable. *)
Record startable (path : string) (now : Time) (c : Config) : Prop := {
  st_decodes : decodes path c;
  st_policy : process_ok parse_addr c /\ coherent c;
  st_credentials : exists credentials, LoadCredentials (Conf_CredentialsFile c)
    (credential_file parse scan fs (Conf_CredentialsFile c)) (Conf_Players c) = inr credentials;
  st_tls : serves_tls now (Conf_CertFile c) (Conf_KeyFile c);
  st_password : exists password, readable (fs (DBC_PasswordFile (Conf_Database c))) password /\ trimSpace password <> "";
  st_ca : exists ca, readable (fs (DBC_CAFile (Conf_Database c))) ca /\ append_certs ca = true
}.

Lemma check_credentials_ok c : Ck_OK (check_credentials_file parse scan fs c) = true <->
  exists credentials, LoadCredentials (Conf_CredentialsFile c) (credential_file parse scan fs (Conf_CredentialsFile c)) (Conf_Players c) = inr credentials.
Proof using All.
  unfold check_credentials_file. destruct (LoadCredentials _ _ _) as [e|l]; cbn; [split; [done|naive_solver]|].
  split; [by exists l|]. by case_bool_decide.
Qed.
Lemma check_password_ok c : Ck_OK (check_password fs c) = true <->
  exists password, readable (fs (DBC_PasswordFile (Conf_Database c))) password /\ trimSpace password <> "".
Proof using All.
  unfold check_password. setoid_rewrite <- read_referenced. destruct (ReadReferencedFile _) as [e|p]; [split; [done|naive_solver]|].
  case_bool_decide as Ht; split; try done; [naive_solver|]. intros _. by exists p.
Qed.
Lemma check_ca_ok c : Ck_OK (check_ca fs append_certs c) = true <->
  exists ca, readable (fs (DBC_CAFile (Conf_Database c))) ca /\ append_certs ca = true.
Proof using All.
  unfold check_ca. setoid_rewrite <- read_referenced. destruct (ReadReferencedFile _) as [e|p]; [split; [done|naive_solver]|].
  destruct (append_certs p) eqn:Ha; cbn; split; try done; [by exists p|naive_solver congruence].
Qed.

End checks.

(** ** A file that passes *)

Definition sample_document : json := JObject [
  ("listen", JString ":9443"); ("cert_file", JString "cert"); ("key_file", JString "key");
  ("database", JObject [("host", JString "db"); ("name", JString "heos"); ("user", JString "heos");
                        ("password_file", JString "password"); ("ca_file", JString "ca")]);
  ("credentials_file", JString "credentials");
  ("players", JArray [JObject [("key", JString "den"); ("address", JString "192.0.2.7:1265"); ("serial", JString "A1");
    ("fingerprint_sha256", JString "0123456789abcdef0123456789abcdef0123456789abcdef0123456789abcdef")]])].
Definition sample_credentials : json := JObject [("version", JNumber "1"); ("credentials", JArray [JObject [
  ("principal", JString "ann"); ("scopes", JArray [JString "read"]); ("players", JArray [JString "den"]);
  ("token_sha256", JString "0123456789abcdef0123456789abcdef0123456789abcdef0123456789abcdef")]])].
Definition sample_parse (s : string) : option json :=
  if s == "d" then Some sample_document else if s == "c" then Some sample_credentials else None.
Definition sample_scan (s : string) : list token := match sample_parse s with Some v => tokens_of v | None => [] end.
Definition sample_files (path : string) : os_file :=
  {| OF_opens := true; OF_stats := true; OF_regular := true; OF_size := 1;
     OF_contents := Some (if path == "config" then "d" else if path == "credentials" then "c" else "XX") |}.
Definition sample_decode (s : string) : option (pem_block * string) :=
  match s with String "X" rest => Some ({| Pem_Type := "CERTIFICATE"; Pem_Bytes := "" |}, rest) | _ => None end.
Definition sample_certificate (s : string) : option Certificate :=
  Some {| X_NotBefore := 0; X_NotAfter := 100; X_ExtKeyUsage := [2; 1]; X_UnknownExtKeyUsage := [] |}.
Definition sample_check := CheckFile sample_parse sample_scan (fun _ => true) sample_files sample_decode sample_certificate
  (fun _ _ => true) (fun _ => true) "config".

Lemma sample_decode_shrinks data block rest : sample_decode data = Some (block, rest) -> (String.length rest < String.length data)%nat.
Proof.
  destruct data as [|[[] [] [] [] [] [] [] []] data]; cbn; try done. intros [= _ <-]. lia.
Qed.


(** Two members whose names differ only in letter case are the same field:
    the text passes as unambiguous and the later one is taken. *)
Lemma folded_members_pass :
  let v := JObject [("listen", JString ":9443"); ("LISTEN", JString ":8000")] in
  UniqueJSON true (tokens_of v) = true
  /\ dec_strict config_fields default_config v = (default_config <| Conf_Listen := ":8000" |>, Good).
Proof. split; vm_compute; reflexivity. Qed.
