(* ===== verification/Doctor.v ===== *)
(** * The offline and online diagnostics ([internal/heos/probe.go],
    [internal/app/diagnostics.go], [internal/journal/doctor.go], [journal.go],
    [cmd/heos-control/diagnostics.go])

    First the probe of one device: a short-lived client without writes that
    registers, resolves the configured identity and reads the play state of the
    player, and reports a closed code.  What the client and the clock answer is
    an argument; [network_error] tells an error of [net].

    Then the database settings with their verified routes, the checks of the
    database, the probes that run under four permits, the report of [doctor] and
    the exit code of the command.  The driver's parsing of the settings, its
    errors and the flag library's parsing are arguments. *)

From S2P Require Import Prelude GoStd Values Model Errors Json Protocol Reads Config.
From Stdlib Require Import Ascii.

Record ProbeResult := { PR_OK : bool; PR_Code : string; PR_Message : string }.
#[export] Instance ProbeResult_eq_dec : EqDecision ProbeResult.
Proof. solve_decision. Defined.

Definition probeResult (code : string) : ProbeResult :=
  let message :=
    if code == "ok" then "Pinned TLS, configured identity and HEOS state read succeeded."
    else if code == "configuration" then "HEOS probe configuration is invalid."
    else if code == "unreachable" then "The configured HEOS device could not be reached."
    else if code == "tls" then "The HEOS TLS handshake failed."
    else if code == "pin_mismatch" then "The HEOS certificate does not match the configured pin."
    else if code == "identity" then "The configured HEOS identity is missing, ambiguous or mismatched."
    else if code == "timeout" then "The HEOS diagnostic check timed out."
    else if code == "cancelled" then "The HEOS diagnostic check was cancelled."
    else if code == "changed" then "The HEOS identity, connection or event history changed during the check."
    else "HEOS returned an invalid or rejected diagnostic response." in
  {| PR_OK := code == "ok"; PR_Code := code; PR_Message := message |}.

(** What [New] asks of an address and of a pin; the other settings of a probe
    are the defaults, which are in bounds. *)
Definition pin_text (fingerprint : string) : string :=
  String.string_of_list_ascii (filter (fun c => negb ((byte_of c =? 58) || (byte_of c =? 32)) = true)
    (String.list_ascii_of_string (trimSpace fingerprint))).
Definition New_accepts (address fingerprint : string) : bool :=
  match splitHostPort address with
  | Some (_, port) => (port != "") && all_bytes is_hex (pin_text fingerprint) && (slen (pin_text fingerprint) =? 64)
  | None => false
  end.

Section probe.
Context (network_error : error -> bool).

(** [cause] is the cause of the probe's context. *)
Definition probe_code (cause : option error) (err : error) : string :=
  let err := match cause with Some e => if errors_is ErrClosed err then e else err | None => err end in
  if errors_is Canceled err then "cancelled"
  else if errors_is ErrPinMismatch err then "pin_mismatch"
  else if errors_is ErrTLS err then "tls"
  else if errors_is ErrConnect err then "unreachable"
  else if errors_is DeadlineExceeded err then "timeout"
  else if errors_is ErrIdentity err then "identity"
  else if errors_is ErrStale err then "changed"
  else if errors_is ErrProtocol err || errors_is ErrRejected err then "protocol"
  else if errors_is EOF err || errors_is ErrUnexpectedEOF err || errors_is ErrClosed err || errors_is ErrOffline err || network_error err
  then "unreachable"
  else "protocol".
Definition probeError (cause : option error) (err : error) : ProbeResult := probeResult (probe_code cause err).

(** What the probe meets: the cause of its context at its start, at an error and
    at its end, the replies to its reads, and after the discovery and at the end
    the view of the player and whether a gap was announced. *)
Record contact := {
  CT_start : option error;
  CT_cause : option error;
  CT_discovery : Result Response;
  CT_discovered : ID -> View;
  CT_gap : bool;
  CT_state : Result Response;
  CT_end : option error;
  CT_last : ID -> View;
  CT_last_gap : bool
}.

(** The commands that were sent come with the result. *)
Definition probeClient (ct : contact) (identity : Identity) : ProbeResult * list (string * Values) :=
  let first := ("player/get_players", ∅) in
  let failed sent err := (probeError (CT_cause ct) err, sent) in
  match CT_discovery ct with
  | Err e => failed [first] e
  | Ok discovery =>
      match payload (decode_list player_of_json) discovery with
      | Err e => failed [first] e
      | Ok players =>
          match ResolveIdentity players identity with
          | Err e => failed [first] e
          | Ok player =>
              let view := CT_discovered ct (Player_ID player) in
              if CT_gap ct || negb (View_Connected view) || negb (sameGlobal (View_Token view) (Resp_Token discovery))
              then (probeResult "changed", [first])
              else
                let sent := [first; ("player/get_play_state", {["pid" := [Player_ID player]]})] in
                match CT_state ct with
                | Err e => failed sent e
                | Ok state =>
                    if negb (len (Values_values (Resp_Params state) "pid") =? 1)
                       || (Values_Get (Resp_Params state) "pid" != Player_ID player)
                       || negb (len (Values_values (Resp_Params state) "state") =? 1)
                    then (probeResult "protocol", sent)
                    else if negb (PlayState_Known (PlayState_of_string (Values_Get (Resp_Params state) "state")))
                    then (probeResult "protocol", sent)
                    else match CT_end ct with
                         | Some e => failed sent e
                         | None =>
                             let view := CT_last ct (Player_ID player) in
                             if CT_last_gap ct || negb (View_Connected view)
                                || negb (sameGlobal (Resp_Token discovery) (Resp_Token state))
                                || negb (sameGlobal (Resp_Token state) (View_Token view))
                             then (probeResult "changed", sent)
                             else (probeResult "ok", sent)
                         end
                end
          end
      end
  end.

Definition Probe (ct : contact) (address fingerprint : string) (identity : Identity) : ProbeResult * list (string * Values) :=
  match CT_start ct with
  | Some e => (probeError (CT_start ct) e, [])
  | None =>
      if (Identity_Key identity == "") || (Identity_Serial identity == "") then (probeResult "configuration", [])
      else if negb (New_accepts address fingerprint) then (probeResult "configuration", [])
      else probeClient ct identity
  end.

(** ** Facts *)

(** The conditions of a probe that passes. *)
Record identified (ct : contact) (identity : Identity) (discovery state : Response) (player : Player) : Prop := {
  id_players : exists players, payload (decode_list player_of_json) discovery = Ok players /\ ResolveIdentity players identity = Ok player;
  id_replies : CT_discovery ct = Ok discovery /\ CT_state ct = Ok state;
  id_state : exists s, Resp_Params state !! "pid" = Some [Player_ID player] /\ Resp_Params state !! "state" = Some [s]
    /\ s ∈ ["play"; "pause"; "stop"; "unknown"];
  id_history : CT_gap ct = false /\ CT_last_gap ct = false /\ CT_start ct = None /\ CT_end ct = None;
  id_connection : View_Connected (CT_discovered ct (Player_ID player)) = true /\ View_Connected (CT_last ct (Player_ID player)) = true;
  id_tokens : Forall (fun t => sameGlobal t (Resp_Token discovery) = true)
    [View_Token (CT_discovered ct (Player_ID player)); Resp_Token state; View_Token (CT_last ct (Player_ID player))]
}.

Lemma probe_codes cause err : probe_code cause err <> "ok".
Proof. unfold probe_code. cbv zeta. generalize (match cause with Some e => if errors_is ErrClosed err then e else err | None => err end). intros e. by repeat case_match. Qed.
End probe.

(** ** The diagnostics of the service *)

From S2P Require Import Views Unmarshal Checks Journal Migrations.

(** ** Settings of the database pool *)

Record connection := {
  CN_Host : string; CN_Port : Z; CN_Name : string; CN_User : string; CN_Password : string;
  CN_Query : list (string * string)
}.
(** A route's TLS settings, when it has any. *)
Record tls_route := { RT_InsecureSkipVerify : bool; RT_ServerName : string }.
Record PoolConfig := {
  PC_Routes : list (tls_route * string);      (* with the text of their trusted roots *)
  PC_MaxConns : Z;
  PC_MinConns : Z;
  PC_Params : gmap string string
}.
#[export] Instance PoolConfig_eta : Eta PoolConfig := fun c =>
  {| PC_Routes := PC_Routes c; PC_MaxConns := PC_MaxConns c; PC_MinConns := PC_MinConns c; PC_Params := PC_Params c |}.

(** A route without verified TLS refuses the whole configuration. *)
Fixpoint verified_routes (roots : string) (routes : list (option tls_route)) : option (list (tls_route * string)) :=
  match routes with
  | [] => Some []
  | r :: rest =>
      match r with
      | Some r => if RT_InsecureSkipVerify r || (RT_ServerName r == "") then None
                  else option_map (cons (r, roots)) (verified_routes roots rest)
      | None => None
      end
  end.

Section pool.
Context (fs : string -> os_file) (append_certs : string -> bool).
(** [pgxpool.ParseConfig] of the URL: its runtime parameters and the TLS settings
    of its first route and of the fallback routes. *)
Context (parse_url : connection -> option (gmap string string * list (option tls_route))).

Definition url_of (d : Database) (password : string) : connection := {|
  CN_Host := DBC_Host d; CN_Port := DBC_Port d; CN_Name := DBC_Name d; CN_User := DBC_User d; CN_Password := trimSpace password;
  CN_Query := [("sslmode", "verify-full"); ("sslrootcert", ""); ("sslcert", ""); ("sslkey", ""); ("servicefile", ""); ("passfile", "");
               ("connect_timeout", itoa (DBC_TimeoutSeconds d))] |}.
Definition runtime_params (d : Database) (params : gmap string string) : gmap string string :=
  <["idle_in_transaction_session_timeout" := itoa (i64 (DBC_TimeoutSeconds d * 1000))]>
  (<["lock_timeout" := itoa (i64 (DBC_LockTimeoutSeconds d * 1000))]>
  (<["statement_timeout" := itoa (i64 (DBC_TimeoutSeconds d * 1000))]>
  (<["search_path" := "pg_catalog"]> (<["application_name" := "heos-control"]> params)))).

Definition poolConfig (d : Database) : Result PoolConfig :=
  match ReadReferencedFile (fs (DBC_PasswordFile d)) with
  | inl _ => Err (EText "cannot read database password file")
  | inr password =>
      if slen (trimSpace password) =? 0 then Err (EText "database password file is empty")
      else match ReadReferencedFile (fs (DBC_CAFile d)) with
           | inl _ => Err (EText "cannot read database CA file")
           | inr ca =>
               if negb (append_certs ca) then Err (EText "invalid database CA certificates")
               else match parse_url (url_of d password) with
                    | None => Err (EText "invalid database TLS configuration")
                    | Some (params, routes) =>
                        match verified_routes ca routes with
                        | None => Err (EText "database connection requires verified TLS")
                        | Some routes => Ok {| PC_Routes := routes; PC_MaxConns := DBC_MaxConnections d; PC_MinConns := 0;
                                               PC_Params := runtime_params d params |}
                        end
                    end
           end
  end.

Definition diagnosticPoolConfig (d : Database) : Result PoolConfig :=
  if (DBC_TimeoutSeconds d <? 1) || (30 <? DBC_TimeoutSeconds d) then Err (EText "invalid diagnostic timeout")
  else let? c := poolConfig d in
       Ok (c <| PC_MaxConns := 1 |> <| PC_Params := <["default_transaction_read_only" := "on"]> (PC_Params c) |>).
End pool.

(** ** The database *)

Record DiagnosticCheck := { DC_Name : string; DC_Code : string; DC_Message : string; DC_OK : bool }.
Definition failed_check (name code message : string) : DiagnosticCheck :=
  {| DC_Name := name; DC_Code := code; DC_Message := message; DC_OK := false |}.
Definition passed_check (name message : string) : DiagnosticCheck :=
  {| DC_Name := name; DC_Code := "ok"; DC_Message := message; DC_OK := true |}.

(** What [errors.As] finds in an error of the driver: the code of the server, and
    whether a certificate was refused. *)
Record db_failure := { DF_server : option string; DF_certificate : bool }.

Definition diagnosticConnectionFailure (f : db_failure) : DiagnosticCheck :=
  if (DF_server f == Some "28P01") || (DF_server f == Some "28000")
  then failed_check "connection" "database_authentication_failed" "Database authentication or connection authorization failed."
  else if DF_certificate f
  then failed_check "connection" "database_tls_failed" "Database TLS certificate verification failed."
  else failed_check "connection" "database_connection_failed" "Database connection failed or its deadline expired.".

(** The server's catalogue, as far as the inspection reads it. *)
Record granted := { GR_schema : bool; GR_usage : bool; GR_tables : gset string; GR_privileges : gset (string * string) }.
Definition required_privileges : list (string * string) :=
  map (pair "operations") ["SELECT"; "INSERT"; "UPDATE"; "DELETE"]
  ++ map (pair "idempotency_records") ["SELECT"; "INSERT"; "UPDATE"; "DELETE"]
  ++ map (pair "device_reservations") ["SELECT"; "INSERT"; "UPDATE"; "DELETE"]
  ++ [("journal_control", "SELECT"); ("journal_control", "UPDATE"); ("schema_migrations", "SELECT")].
Record privileges := { PV_SchemaPresent : bool; PV_TablesPresent : bool; PV_Permissions : bool }.
Definition InspectRuntimePrivileges (g : granted) : privileges :=
  let present r := GR_schema g && (r.1 in? GR_tables g) in
  {| PV_SchemaPresent := forallb (fun _ => GR_schema g) required_privileges;
     PV_TablesPresent := forallb present required_privileges;
     PV_Permissions := forallb (fun r => GR_schema g && present r && GR_usage g && (r in? GR_privileges g)) required_privileges |}.

Definition schema_missing : DiagnosticCheck :=
  failed_check "schema" "schema_missing" "Required database schema or tables are missing; apply migrations separately.".
(** An error of reading the migrations. *)
Definition schema_unreadable (f : db_failure) : DiagnosticCheck :=
  if DF_server f == Some "42501" then failed_check "schema" "schema_permission_denied" "Database runtime role cannot read migration metadata."
  else if (DF_server f == Some "42P01") || (DF_server f == Some "3F000") then schema_missing
  else failed_check "schema" "schema_check_failed" "Database migration metadata could not be read.".

(** The steps over what the server answers to each. *)
Record server := {
  SV_pool : Result PoolConfig;
  SV_opened : option db_failure;
  SV_ping : option db_failure;
  SV_privileges : option granted;
  SV_migrations : db_failure + list migrationRow;
  SV_catalog : option (list migrationStep)
}.

Definition diagnose_schema (s : server) (p : privileges) : DiagnosticCheck :=
  if negb (PV_SchemaPresent p) || negb (PV_TablesPresent p) then schema_missing
  else match SV_migrations s with
       | inl f => schema_unreadable f
       | inr rows =>
           if match SV_catalog s with Some steps => validate steps rows true true | None => false end
           then passed_check "schema" "Database schema and migration checksums are compatible."
           else failed_check "schema" "schema_incompatible" "Database migration versions, checksums or compatibility floor do not match this application."
       end.

Definition Diagnose (s : server) : list DiagnosticCheck :=
  let unchecked_schema := failed_check "schema" "not_checked" "Database schema requires a working connection." in
  let unchecked_permissions := failed_check "permissions" "not_checked" "Database permissions require a working connection." in
  match SV_pool s, SV_opened s, SV_ping s with
  | Err _, _, _ => [failed_check "connection" "database_configuration_invalid" "Database connection files or settings are invalid.";
                    unchecked_schema; unchecked_permissions]
  | Ok _, Some f, _ | Ok _, None, Some f => [diagnosticConnectionFailure f; unchecked_schema; unchecked_permissions]
  | Ok _, None, None =>
      let connected := passed_check "connection" "Database connection and verified TLS succeeded." in
      match SV_privileges s with
      | None => [connected; failed_check "schema" "schema_check_failed" "Database schema objects could not be inspected.";
                 failed_check "permissions" "permissions_check_failed" "Database runtime privileges could not be inspected."]
      | Some g =>
          let p := InspectRuntimePrivileges g in
          [connected; diagnose_schema s p;
           if PV_Permissions p then passed_check "permissions" "Database runtime role has all required schema and table privileges."
           else failed_check "permissions" "runtime_permissions_missing" "Database runtime role lacks required schema or table privileges."]
      end
  end.

(** ** Probes under permits *)

(** A goroutine of [runDiagnosticProbes]: before its select, after it with or
    without a permit, in its probe, and returned. *)
Inductive probe_task := Waiting | Permitted | Unpermitted | Running | Finished (checks : list Check).
#[export] Instance task_eq_dec : EqDecision probe_task.
Proof. solve_decision. Defined.

Record probes := {
  PB_ended : option Sentinel;     (* [ctx.Err()] *)
  PB_tasks : list probe_task;
  PB_started : list nat           (* the probes that ran or run *)
}.
#[export] Instance probes_eta : Eta probes := fun s =>
  {| PB_ended := PB_ended s; PB_tasks := PB_tasks s; PB_started := PB_started s |}.

Definition max_permits : Z := 4.
Definition holds_permit (t : probe_task) : bool := match t with Permitted | Running => true | _ => false end.
Definition permits (s : probes) : Z := len (filter (fun t => holds_permit t = true) (PB_tasks s)).

(** The check of a probe that did not start. *)
Definition not_started (field : string) (e : Sentinel) : Check :=
  if e == DeadlineExceeded then checkBad field "timeout" "Diagnostic deadline expired before this check started."
  else checkBad field "cancelled" "Diagnostic cancelled before this check started.".

Definition set_task (i : nat) (t : probe_task) (s : probes) : probes := s <| PB_tasks := <[i := t]> (PB_tasks s) |>.

Section probes.
(** The field of each probe and what its run may return. *)
Context (field : nat -> string) (returns : nat -> list Check -> Prop).

Inductive probe_step : probes -> probes -> Prop :=
| step_end s e : PB_ended s = None -> e = Canceled \/ e = DeadlineExceeded -> probe_step s (s <| PB_ended := Some e |>)
| step_permit s i : PB_tasks s !! i = Some Waiting -> permits s < max_permits -> probe_step s (set_task i Permitted s)
| step_done s i : PB_tasks s !! i = Some Waiting -> PB_ended s <> None -> probe_step s (set_task i Unpermitted s)
| step_refuse s i t e : PB_tasks s !! i = Some t -> t = Permitted \/ t = Unpermitted -> PB_ended s = Some e ->
    probe_step s (set_task i (Finished [not_started (field i) e]) s)
| step_run s i t : PB_tasks s !! i = Some t -> t = Permitted \/ t = Unpermitted -> PB_ended s = None ->
    probe_step s (set_task i Running s <| PB_started := PB_started s ++ [i] |>)
| step_return s i checks : PB_tasks s !! i = Some Running -> returns i checks -> probe_step s (set_task i (Finished checks) s).

Definition launched (n : nat) (ended : option Sentinel) : probes :=
  {| PB_ended := ended; PB_tasks := replicate n Waiting; PB_started := [] |}.
Inductive probes_reach (n : nat) (ended : option Sentinel) : probes -> Prop :=
| reach_launch : probes_reach n ended (launched n ended)
| reach_step s s' : probes_reach n ended s -> probe_step s s' -> probes_reach n ended s'.
End probes.

(** [wg.Wait()] returns when every goroutine has. *)
Definition finished (t : probe_task) : option (list Check) := match t with Finished checks => Some checks | _ => None end.
Definition all_results (s : probes) : option (list (list Check)) := mapM finished (PB_tasks s).
Definition collected (s : probes) : option (list Check) := option_map (@concat Check) (all_results s).

(** ** Reports *)

(** A report, of version 1. *)
Record DiagnosticReport := { RE_Command : string; RE_OK : bool; RE_Checks : list Check }.
Definition diagnosticReport (command : string) (checks : list Check) : DiagnosticReport :=
  {| RE_Command := command; RE_OK := negb (len checks =? 0) && forallb Ck_OK checks; RE_Checks := checks |}.
Definition CheckConfiguration (checked : Config * list Check) : DiagnosticReport := diagnosticReport "config check" checked.2.

Definition database_checks (l : list DiagnosticCheck) : list Check :=
  map (fun c => {| Ck_Field := "database." +:+ DC_Name c; Ck_Code := DC_Code c; Ck_Message := DC_Message c; Ck_OK := DC_OK c |}) l.
Definition player_field (i : nat) : string := "players[" +:+ itoa (Z.of_nat i) +:+ "]".
Definition player_check (i : nat) (result : ProbeResult) : list Check :=
  [{| Ck_Field := player_field i; Ck_Code := PR_Code result; Ck_Message := PR_Message result; Ck_OK := PR_OK result |}].

(** The probes of [Doctor]: the database first, then each player in its order. *)
Definition probe_field (i : nat) : string := match i with O => "database" | S i => player_field i end.
Section doctor.
Context (network_error : error -> bool).
(** What the database and each device may answer. *)
Context (servers : Database -> server -> Prop) (contacts : PlayerConfig -> contact -> Prop).

Definition identity_of (p : PlayerConfig) : Identity :=
  {| Identity_Key := Cfg_Key p; Identity_Serial := Cfg_Serial p; Identity_Model := Cfg_Model p |}.
Definition probe_returns (c : Config) (i : nat) (checks : list Check) : Prop :=
  match i with
  | O => exists s, servers (Conf_Database c) s /\ checks = database_checks (Diagnose s)
  | S i => exists p ct, Conf_Players c !! i = Some p /\ contacts p ct
      /\ checks = player_check i (Probe network_error ct (Cfg_Address p) (Cfg_FingerprintSHA256 p) (identity_of p)).1
  end.

(** A run of [Doctor], with the probes that it started. *)
Inductive Doctor (checked : Config * list Check) : DiagnosticReport -> list nat -> Prop :=
| doctor_unchecked : RE_OK (diagnosticReport "doctor" checked.2) = false ->
    Doctor checked (diagnosticReport "doctor" checked.2) []
| doctor_probed ended s checks : RE_OK (diagnosticReport "doctor" checked.2) = true ->
    probes_reach probe_field (probe_returns checked.1) (S (length (Conf_Players checked.1))) ended s ->
    collected s = Some checks -> Doctor checked (diagnosticReport "doctor" (checked.2 ++ checks)) (PB_started s).
End doctor.

(** ** The command *)

Definition report_line (c : Check) : string :=
  (if Ck_OK c then "PASS" else "FAIL") +:+ " " +:+ Ck_Field c +:+ " [" +:+ Ck_Code c +:+ "]: " +:+ Ck_Message c +:+ str1 (of_byte 10).
Definition text_report (r : DiagnosticReport) : string := join "" (map report_line (RE_Checks r)).

Record diagnostic_flags := { FL_config : string; FL_format : string; FL_timeout : Duration; FL_narg : Z }.
Inductive parsed_flags := FlagHelp | FlagError | FlagsParsed (f : diagnostic_flags).
Definition MaxDiagnosticDuration : Duration := 2 * Minute.

(** The command and the flags of a run; a number is the exit code without one. *)
Definition diagnostic_command (parse_flags : string -> list string -> parsed_flags) (args : list string) : Z + (string * diagnostic_flags) :=
  let checked command args :=
    match parse_flags command args with
    | FlagHelp => inl 0
    | FlagError => inl 2
    | FlagsParsed f =>
        if (FL_narg f != 0) || ((FL_format f != "text") && (FL_format f != "json"))
           || ((command == "doctor") && ((FL_timeout f <? Second) || (MaxDiagnosticDuration <? FL_timeout f)))
        then inl 2 else inr (command, f)
    end in
  match args with
  | "config" :: rest => match rest with "check" :: rest => checked "config check" rest | _ => inl 2 end
  | command :: rest => checked command rest
  | [] => inl 2
  end.
Definition diagnostic_exit (written : bool) (r : DiagnosticReport) : Z := if negb written || negb (RE_OK r) then 1 else 0.
