(* ===== verification/DoctorProps.v ===== *)
(** * What the diagnostics report

    A probe that passes has met the configured device over one unchanged
    connection; the probes run at most four at a time, always end, and start
    none once the deadline has passed; a clean report means that the
    configuration, the database and every device were checked. *)

From S2P Require Import Prelude GoStd Values Model Errors Json Protocol ProtocolProps Reads Views Unmarshal Config ConfigProps Checks Journal Migrations Doctor.
From Stdlib Require Import Ascii.

(** ** The probe of one device *)

Lemma probeError_bad network_error cause e : PR_OK (probeError network_error cause e) = false.
Proof. unfold probeError, probeResult. cbn [PR_OK]. apply bool_decide_eq_false_2, probe_codes. Qed.

Lemma one_value (v : Values) key x : len (Values_values v key) = 1 -> Values_Get v key = x -> v !! key = Some [x].
Proof.
  unfold Values_Get, Values_values, len. destruct (v !! key) as [[|y [|z l]]|]; cbn; intros Hl; try lia.
  by intros ->.
Qed.
Lemma value_one (v : Values) key x : v !! key = Some [x] -> (len (Values_values v key) =? 1) = true /\ Values_Get v key = x.
Proof. unfold Values_Get, Values_values. by intros ->. Qed.

Lemma known_states s : PlayState_Known (PlayState_of_string s) = true <-> s ∈ ["play"; "pause"; "stop"; "unknown"].
Proof.
  rewrite !elem_of_cons, elem_of_nil. unfold PlayState_of_string. repeat case_bool_decide; subst; cbn; naive_solver.
Qed.

Lemma probeClient_ok network_error ct identity : CT_start ct = None ->
  PR_OK (probeClient network_error ct identity).1 = true <->
  exists discovery state player, identified ct identity discovery state player.
Proof.
  intros Hstart. unfold probeClient. cbv zeta. pose proof (probeError_bad network_error) as Hbad.
  assert (Hchanged : PR_OK (probeResult "changed") = false) by done. assert (Hprotocol : PR_OK (probeResult "protocol") = false) by done.
  split.
  - destruct (CT_discovery ct) as [discovery|] eqn:Hd; [|cbn [fst]; by rewrite Hbad].
    destruct (payload _ discovery) as [players|] eqn:Hp; [|cbn [fst]; by rewrite Hbad].
    destruct (ResolveIdentity players identity) as [player|] eqn:Hr; [|cbn [fst]; by rewrite Hbad].
    destruct (CT_gap ct || _ || _) eqn:H1; [cbn [fst]; by rewrite ?Hbad|].
    destruct (CT_state ct) as [state|] eqn:Hs; [|cbn [fst]; by rewrite Hbad].
    destruct (negb _ || _ || _) eqn:H2; [cbn [fst]; by rewrite ?Hbad|].
    destruct (PlayState_Known _) eqn:H3; cbn [negb fst]; [|done].
    destruct (CT_end ct) eqn:He; [cbn [fst]; by rewrite ?Hbad|].
    destruct (CT_last_gap ct || _ || _ || _) eqn:H4; [cbn [fst]; by rewrite ?Hbad|]. intros _.
    breflect. exists discovery, state, player. constructor.
    + by exists players.
    + done.
    + exists (Values_Get (Resp_Params state) "state"). split_and!; [by apply one_value..|by apply known_states].
    + done.
    + done.
    + repeat constructor; rewrite ?sameGlobal_spec; intuition congruence.
  - intros (discovery & state & player & [(players & Hp & Hr) [Hd Hs] (s & Hpid & Hst & Hin) (Hg & Hg' & _ & He) (Hc & Hc') Ht]).
    rewrite Hd, Hp, Hr, Hg, Hc, Hs, He, Hg', Hc'. rewrite !Forall_cons in Ht. destruct Ht as (Ht1 & Ht2 & Ht3 & _).
    apply value_one in Hpid as [Hl1 Hv1]. apply value_one in Hst as [Hl2 Hv2].
    rewrite Hl1, Hl2, Hv1, Hv2, Ht1. rewrite bool_decide_eq_true_2 by done. apply known_states in Hin. rewrite Hin. cbn [negb orb].
    assert (sameGlobal (Resp_Token discovery) (Resp_Token state) = true) as -> by (rewrite sameGlobal_spec in *; intuition congruence).
    assert (sameGlobal (Resp_Token state) (View_Token (CT_last ct (Player_ID player))) = true) as -> by (rewrite sameGlobal_spec in *; intuition congruence).
    done.
Qed.

(** Without a colon or a space, the pin is its own text. *)
Lemma pin_plain s : all_bytes (fun b => negb ((b =? 58) || (b =? 32))) (trimSpace s) = true -> pin_text s = trimSpace s.
Proof.
  unfold pin_text. generalize (trimSpace s) as t. intros t Ht. rewrite <- (String.string_of_list_ascii_of_string t) at 2. f_equal.
  induction t as [|c t IH]; [done|]. cbn in Ht. apply andb_true_iff in Ht as [Hc Ht]. cbn [String.list_ascii_of_string].
  rewrite filter_cons_True by done. by rewrite IH.
Qed.

(** A text of hexadecimal digits has no spaces to trim. *)
Definition starts_otherwise (c : ascii) (e : string) : bool := match e with String c' _ => negb (Ascii.eqb c' c) | EmptyString => false end.
Lemma strip_any_none encodings c s : forallb (starts_otherwise c) encodings = true -> strip_any encodings (String c s) = None.
Proof.
  intros H. induction encodings as [|e encodings IH]; [done|]. cbn [forallb] in H. apply andb_true_iff in H as [He H]. unfold strip_any. cbn [foldr].
  destruct e as [|c' e]; [done|]. cbn in He. destruct (Ascii.eqb_spec c' c); [done|].
  assert (strip_prefix (String c' e) (String c s) = None) as -> by (unfold strip_prefix; cbn; by destruct (ascii_dec c' c)).
  by apply IH.
Qed.
Lemma trim_left_hex encodings fuel s : all_bytes is_hex s = true ->
  (forall c, is_hex (byte_of c) = true -> forallb (starts_otherwise c) encodings = true) -> trim_left encodings fuel s = s.
Proof.
  intros Hs Henc. destruct fuel as [|fuel]; [done|]. cbn [trim_left]. destruct s as [|c s].
  - assert (strip_any encodings "" = None) as ->; [|done]. specialize (Henc "0"%char eq_refl). unfold strip_any.
    induction encodings as [|e encodings IH]; [done|]. cbn [forallb] in Henc. apply andb_true_iff in Henc as [He H]. cbn [foldr].
    destruct e as [|c' e]; [done|]. by apply IH.
  - cbn [all_bytes] in Hs. apply andb_true_iff in Hs as [Hc _]. by rewrite strip_any_none by auto.
Qed.
Lemma all_bytes_rev ok s : all_bytes ok (srev s) = all_bytes ok s.
Proof.
  assert (H : forall t, all_bytes ok t = forallb (fun c => ok (byte_of c)) (String.list_ascii_of_string t)).
  { induction t as [|c t IH]; [done|]. cbn. by rewrite IH. }
  rewrite !H. unfold srev. rewrite String.list_ascii_of_string_of_list_ascii. generalize (String.list_ascii_of_string s) as l. intros l.
  induction l as [|c l IH]; [done|]. cbn. rewrite forallb_app, IH. cbn. rewrite andb_true_r. apply andb_comm.
Qed.
Lemma srev_srev s : srev (srev s) = s.
Proof. unfold srev. by rewrite String.list_ascii_of_string_of_list_ascii, rev_involutive, String.string_of_list_ascii_of_string. Qed.
Lemma trim_hex s : all_bytes is_hex s = true -> trimSpace s = s.
Proof.
  intros Hs. unfold trimSpace. cbv zeta. rewrite (trim_left_hex space_encodings) by (done || (intros [[] [] [] [] [] [] [] []]; vm_compute; done)).
  rewrite trim_left_hex; [apply srev_srev|by rewrite all_bytes_rev|]. intros [[] [] [] [] [] [] [] []]; vm_compute; done.
Qed.

(** The settings of an accepted player are settings of a client. *)
Lemma accepted_settings p : player_valid p -> New_accepts (Cfg_Address p) (Cfg_FingerprintSHA256 p) = true.
Proof.
  intros [_ _ (host & Ha & _) Hpin _ _]. unfold New_accepts. rewrite Ha. unfold validDigest in Hpin. rewrite !andb_true_iff in Hpin.
  destruct Hpin as [[Hhex Hl] _]. rewrite pin_plain; rewrite trim_hex by done; [by rewrite Hhex, Hl|].
  revert Hhex. apply all_bytes_impl. intros b. unfold is_hex, is_digit. bgoal. lia.
Qed.

(** ** Probes under permits *)

Lemma permits_insert i t t' (l : list probe_task) : l !! i = Some t ->
  len (filter (fun t => holds_permit t = true) (<[i := t']> l)) + Z.b2z (holds_permit t) = len (filter (fun t => holds_permit t = true) l) + Z.b2z (holds_permit t').
Proof.
  revert i. induction l as [|x l IH]; intros [|i] Hi; try done; cbn in Hi.
  - change (<[0%nat:=t']> (x :: l)) with (t' :: l). simplify_eq. rewrite !filter_cons. unfold len. destruct (holds_permit t), (holds_permit t'); cbn [decide]; repeat case_decide; cbn [length Z.b2z]; try done; lia.
  - change (<[S i:=t']> (x :: l)) with (x :: <[i:=t']> l). specialize (IH i Hi). rewrite !filter_cons. unfold len in *. case_decide; cbn [length]; lia.
Qed.

Section probes.
Context (field : nat -> string) (returns : nat -> list Check -> Prop).

(** Each goroutine with what it has done so far. *)
Definition task_ok (s : probes) (i : nat) (t : probe_task) : Prop :=
  match t with
  | Waiting | Permitted => i ∉ PB_started s
  | Unpermitted => (i ∉ PB_started s) /\ PB_ended s <> None
  | Running => i ∈ PB_started s
  | Finished out => (i ∈ PB_started s /\ returns i out)
                    \/ ((i ∉ PB_started s) /\ exists e, PB_ended s = Some e /\ out = [not_started (field i) e])
  end.
Record probes_ok (n : nat) (s : probes) : Prop := {
  po_length : length (PB_tasks s) = n;
  po_permits : permits s <= max_permits;
  po_once : NoDup (PB_started s);
  po_tasks : forall i t, PB_tasks s !! i = Some t -> task_ok s i t
}.

Lemma task_ok_other (s s' : probes) i j t : PB_ended s' = PB_ended s -> PB_started s' = PB_started s \/ PB_started s' = PB_started s ++ [j] ->
  i <> j -> task_ok s i t -> task_ok s' i t.
Proof using Type.
  intros He Hs Hij. assert (Hin : i ∈ PB_started s' <-> i ∈ PB_started s).
  { destruct Hs as [-> | ->]; [done|]. rewrite elem_of_app, elem_of_cons. pose proof (not_elem_of_nil i). naive_solver. }
  destruct t; cbn; by rewrite ?He, Hin.
Qed.

(** A step of one goroutine keeps the accounts when its own is right and its
    permits are. *)
Lemma set_task_ok n s s' i t t' : probes_ok n s -> PB_tasks s !! i = Some t ->
  PB_tasks s' = <[i := t']> (PB_tasks s) -> PB_ended s' = PB_ended s ->
  (PB_started s' = PB_started s \/ (PB_started s' = PB_started s ++ [i] /\ (i ∉ PB_started s))) ->
  (holds_permit t' = true -> holds_permit t = true \/ permits s < max_permits) -> task_ok s' i t' -> probes_ok n s'.
Proof using Type.
  intros [Hl Hp Ho Ht] Hi Htasks He Hs Hh Hok. constructor.
  - by rewrite Htasks, length_insert.
  - unfold permits in *. rewrite Htasks. pose proof (permits_insert i t t' _ Hi). destruct (holds_permit t), (holds_permit t'); cbn [Z.b2z] in *; try lia.
  - destruct Hs as [-> | [-> Hn]]; [done|]. apply NoDup_app. split_and!; [done| |repeat constructor; apply not_elem_of_nil].
    intros x Hx [-> |Hn']%elem_of_cons; [done|]. by apply not_elem_of_nil in Hn'.
  - intros j u Hj. rewrite Htasks in Hj. destruct (decide (i = j)) as [->|Hij].
    + rewrite list_lookup_insert_eq in Hj by (by eapply lookup_lt_Some). by simplify_eq.
    + rewrite list_lookup_insert_ne in Hj by done. eapply task_ok_other; [done| |done|by apply Ht].
      destruct Hs as [|[]]; auto.
Qed.

Lemma probe_step_ok n s s' : probes_ok n s -> probe_step field returns s s' -> probes_ok n s'.
Proof using Type.
  intros Hok Hstep. destruct Hstep as [s e He _|s i Hi Hp|s i Hi He|s i t e Hi Ht He|s i t Hi Ht He|s i out Hi Hr].
  - destruct Hok as [Hl Hp Ho Ht]. constructor; [done..|]. cbn. intros i t Hi. specialize (Ht i t Hi).
    destruct t; cbn in *; try done; [by destruct Ht|]. destruct Ht as [|(? & e' & ? & ?)]; [by left|congruence].
  - eapply set_task_ok; [done|exact Hi|done..|by left|by right|]. by apply (po_tasks _ _ Hok i Waiting).
  - eapply set_task_ok; [done|exact Hi|done..|by left|done|]. split; [by apply (po_tasks _ _ Hok i Waiting)|done].
  - eapply set_task_ok; [done|exact Hi|done..|by left|done|]. right. split; [|by exists e].
    pose proof (po_tasks _ _ Hok i t Hi) as Hn. destruct Ht as [-> | ->]; [done|apply Hn].
  - pose proof (po_tasks _ _ Hok i t Hi) as Hn. destruct Ht as [-> | ->]; [|by destruct Hn].
    eapply set_task_ok; [done|exact Hi|done..|by right|by left|]. cbn. rewrite elem_of_app, elem_of_cons. auto.
  - eapply set_task_ok; [done|exact Hi|done..|by left|done|]. left. split; [by apply (po_tasks _ _ Hok i Running)|done].
Qed.

Lemma reach_ok n ended s : probes_reach field returns n ended s -> probes_ok n s.
Proof using Type.
  induction 1 as [|s s' _ IH Hstep]; [|by eapply probe_step_ok]. constructor.
  - apply length_replicate.
  - unfold permits. cbn. replace (filter _ _) with (@nil probe_task); [done|]. symmetry. induction n as [|n IH]; [done|]. cbn [replicate]. by rewrite filter_cons_False.
  - constructor.
  - intros i t Hi. apply lookup_replicate in Hi as [-> _]. apply not_elem_of_nil.
Qed.

(** What was collected is, in order, the result of each probe. *)
Lemma collected_tasks s checks : collected s = Some checks ->
  exists outs, checks = concat outs /\ PB_tasks s = map Finished outs.
Proof using Type.
  unfold collected, all_results. destruct (mapM _ _) as [outs|] eqn:Hm; [|done]. cbn. intros [= <-]. exists outs. split; [done|].
  apply mapM_Some in Hm. induction Hm as [|t out tasks outs Ht _ IH]; [done|]. cbn. rewrite <- IH. destruct t; cbn in Ht; by simplify_eq.
Qed.

(** C38. At most four probes run at a time; each starts at most once, none after the
    deadline or a cancellation; and what is collected at the end is, in the
    order of the probes, what each of them returned, or for one that did not
    start the one check that says why. *)
Theorem probes_are_bounded n ended s : probes_reach field returns n ended s ->
  permits s <= 4 /\ NoDup (PB_started s)
  /\ (forall s', probe_step field returns s s' -> PB_ended s <> None -> PB_started s' = PB_started s)
  /\ (forall checks, collected s = Some checks -> exists outs, checks = concat outs /\ length outs = n
      /\ forall i out, outs !! i = Some out ->
           ((i ∈ PB_started s) /\ returns i out)
           \/ ((i ∉ PB_started s) /\ exists e, PB_ended s = Some e /\ out = [not_started (field i) e])).
Proof using Type.
  intros [Hl Hp Ho Ht]%reach_ok. split_and!; [exact Hp|done| |].
  - intros s' Hstep He. by destruct Hstep.
  - intros checks (outs & -> & Htasks)%collected_tasks. exists outs. split_and!; [done|by rewrite <- Hl, Htasks, length_map|].
    intros i out Hi. apply (Ht i (Finished out)). rewrite Htasks. change (map Finished outs) with (Finished <$> outs). by rewrite list_lookup_fmap, Hi.
Qed.

(** ** The probes end *)

Definition remaining (t : probe_task) : nat := match t with Waiting => 3 | Permitted | Unpermitted => 2 | Running => 1 | Finished _ => 0 end.
(** The steps of the goroutines that are left, and the end of the context. *)
Definition potential (s : probes) : nat := sum_list_with remaining (PB_tasks s) + (match PB_ended s with None => 1 | Some _ => 0 end).

Lemma remaining_insert i t t' (l : list probe_task) : l !! i = Some t ->
  (sum_list_with remaining (<[i := t']> l) + remaining t = sum_list_with remaining l + remaining t')%nat.
Proof using Type.
  revert i. induction l as [|x l IH]; intros [|i] Hi; try done; cbn in Hi.
  - change (<[0%nat:=t']> (x :: l)) with (t' :: l). simplify_eq. cbn. lia.
  - change (<[S i:=t']> (x :: l)) with (x :: <[i:=t']> l). specialize (IH i Hi). cbn [sum_list_with]. lia.
Qed.

Lemma step_remaining s s' : probe_step field returns s s' -> (potential s' < potential s)%nat.
Proof using Type.
  unfold potential.
  destruct 1 as [s e He _|s i Hi _|s i Hi _|s i t e Hi Ht _|s i t Hi Ht _|s i out Hi _]; cbn; [rewrite He; lia|..];
    match goal with |- context [<[i := ?t']> _] => pose proof (remaining_insert i _ t' _ Hi) as Hr end; cbn in Hr;
    try (destruct Ht as [-> | ->]); cbn in Hr; lia.
Qed.

Lemma no_permits (l : list probe_task) : (forall i t, l !! i = Some t -> holds_permit t = false) -> len (filter (fun t => holds_permit t = true) l) = 0.
Proof using Type.
  induction l as [|t l IH]; intros H; [done|]. rewrite filter_cons_False by (by rewrite (H 0%nat t)). apply IH. intros i u Hi. by apply (H (S i)).
Qed.

Definition busy (t : probe_task) : bool := match t with Permitted | Unpermitted | Running => true | _ => false end.
Lemma step_possible s : (forall i, (i < length (PB_tasks s))%nat -> exists out, returns i out) ->
  collected s = None -> exists s', probe_step field returns s s'.
Proof using Type.
  intros Hret Hnone.
  destruct (decide (Exists (fun t => busy t = true) (PB_tasks s))) as [Hb|Hb].
  - apply Exists_exists in Hb as (t & [i Hi]%list_elem_of_lookup & Hbusy). destruct t; try done.
    1,2: destruct (PB_ended s) as [e|] eqn:He; eexists; [eapply step_refuse|eapply step_run]; eauto.
    destruct (Hret i) as [out Hout]; [by eapply lookup_lt_Some|]. eexists. by eapply step_return.
  - assert (Hcalm : forall i t, PB_tasks s !! i = Some t -> t = Waiting \/ exists out, t = Finished out).
    { intros i t Hi. destruct t; try (by eauto); exfalso; apply Hb, Exists_exists; eexists; (split; [by eapply list_elem_of_lookup_2|done]). }
    destruct (decide (Waiting ∈ PB_tasks s)) as [[i Hi]%list_elem_of_lookup|Hw].
    + eexists. eapply step_permit; [done|]. unfold permits. rewrite no_permits; [done|]. intros j t Hj. by destruct (Hcalm j t Hj) as [-> |[? ->]].
    + exfalso. unfold collected, all_results in Hnone. destruct (mapM finished (PB_tasks s)) eqn:Hm; [done|].
      apply mapM_None, Exists_exists in Hm as (t & [i Hi]%list_elem_of_lookup & Hf).
      destruct (Hcalm i t Hi) as [-> |[? ->]]; [|done]. by apply Hw; eapply list_elem_of_lookup_2.
Qed.

(** While probes return, their pool always ends with every result: a reachable
    state without all of them has a next step, and no run from it has more than
    three steps for each probe and one for the end of the context. *)
Theorem probes_always_join n ended s : probes_reach field returns n ended s ->
  (forall i, (i < n)%nat -> exists out, returns i out) ->
  (collected s = None -> exists s', probe_step field returns s s')
  /\ (forall k s', nsteps (probe_step field returns) k s s' -> (k <= 3 * n + 1)%nat).
Proof using Type.
  intros Hreach Hret. pose proof (reach_ok _ _ _ Hreach) as [Hl _ _ _]. split.
  - apply step_possible. by rewrite Hl.
  - intros k s' Hrun. transitivity (potential s).
    + induction Hrun as [s|k s s1 s2 Hstep _ IH] in Hreach, Hl |- *; [lia|].
      pose proof (step_remaining _ _ Hstep). assert (probes_reach field returns n ended s1) as H1 by (by eapply reach_step).
      specialize (IH H1 (po_length _ _ (reach_ok _ _ _ H1))). lia.
    + unfold potential. rewrite <- Hl. assert (sum_list_with remaining (PB_tasks s) <= 3 * length (PB_tasks s))%nat.
      { generalize (PB_tasks s) as l. intros l. induction l as [|t l IH]; [done|]. cbn. destruct t; cbn; lia. }
      destruct (PB_ended s); lia.
Qed.
End probes.

(** ** The whole report *)

(** A database that the service can serve from: reachable over verified TLS, with
    every privilege of the runtime role, and of a schema that the startup accepts. *)
Record database_usable (s : server) : Prop := {
  du_reached : is_ok (SV_pool s) = true /\ SV_opened s = None /\ SV_ping s = None;
  du_granted : exists g, SV_privileges s = Some g /\ GR_schema g = true /\ GR_usage g = true
    /\ Forall (fun r => r.1 ∈ GR_tables g /\ r ∈ GR_privileges g) required_privileges;
  du_schema : exists rows, SV_migrations s = inr rows /\ checkSchema (Some rows) (SV_catalog s) = None
}.

Lemma privileges_granted g : PV_Permissions (InspectRuntimePrivileges g) = true ->
  GR_schema g = true /\ GR_usage g = true /\ Forall (fun r => r.1 ∈ GR_tables g /\ r ∈ GR_privileges g) required_privileges.
Proof.
  unfold InspectRuntimePrivileges. cbn [PV_Permissions]. intros H. rewrite forallb_forall in H.
  assert (Hin : In ("journal_control", "SELECT") required_privileges) by (cbn; tauto).
  apply H in Hin. rewrite !andb_true_iff in Hin. destruct_and!. split_and!; [done..|]. apply Forall_forall. intros r Hr%list_elem_of_In.
  apply H in Hr. rewrite !andb_true_iff in Hr. destruct_and!. by rewrite bool_decide_eq_true in *.
Qed.

Lemma connection_failed f : DC_OK (diagnosticConnectionFailure f) = false.
Proof. unfold diagnosticConnectionFailure. by repeat case_match. Qed.
Lemma schema_unread f : DC_OK (schema_unreadable f) = false.
Proof. unfold schema_unreadable. by repeat case_match. Qed.

Lemma Diagnose_ok s : forallb DC_OK (Diagnose s) = true -> database_usable s.
Proof.
  unfold Diagnose. cbv zeta. destruct (SV_pool s) as [c|] eqn:Hp; [|done].
  destruct (SV_opened s) eqn:Ho; [cbn [forallb]; by rewrite connection_failed|].
  destruct (SV_ping s) eqn:Hping; [cbn [forallb]; by rewrite connection_failed|].
  destruct (SV_privileges s) as [g|] eqn:Hg; [|done]. cbn [forallb passed_check DC_OK andb]. rewrite !andb_true_iff. intros (Hs & Hperm & _).
  assert (PV_Permissions (InspectRuntimePrivileges g) = true) as Hok by (by destruct (PV_Permissions _)).
  apply privileges_granted in Hok as (H1 & H2 & H3). constructor; [by rewrite Hp|by exists g|].
  unfold diagnose_schema in Hs. destruct (_ || _); [done|]. destruct (SV_migrations s) as [f|rows]; [by rewrite schema_unread in Hs|].
  exists rows. split; [done|]. unfold checkSchema. destruct (SV_catalog s) as [steps|]; [|done]. by destruct (validate _ _ _ _).
Qed.

Section doctor.
Context (network_error : error -> bool) (servers : Database -> server -> Prop) (contacts : PlayerConfig -> contact -> Prop).

Lemma concat_ok (outs : list (list Check)) i out : forallb Ck_OK (concat outs) = true -> outs !! i = Some out -> forallb Ck_OK out = true.
Proof using Type.
  revert i. induction outs as [|o outs IH]; intros [|i] H Hi; try done; cbn in *; rewrite forallb_app, andb_true_iff in H; simplify_eq; [tauto|].
  by eapply IH; [apply H|].
Qed.

(** C37. A clean report of [doctor] is one of a clean configuration, of a database
    that the service can serve from, and of every configured device, each met
    over one unchanged connection under its configured identity and in a known
    state; and without a clean configuration nothing is contacted at all. *)
Theorem doctor_report_is_truthful checked r started : Doctor network_error servers contacts checked r started ->
  (RE_OK r = true ->
    forallb Ck_OK checked.2 = true
    /\ (exists sv, servers (Conf_Database checked.1) sv /\ database_usable sv)
    /\ (forall i p, Conf_Players checked.1 !! i = Some p ->
        exists ct discovery state player, contacts p ct /\ identified ct (identity_of p) discovery state player))
  /\ (forallb Ck_OK checked.2 = false -> started = [] /\ RE_Checks r = checked.2)
  /\ NoDup started.
Proof using Type.
  intros [Hbad|ended s checks Hok Hreach Hcol].
  - split_and!; [intros H; congruence|done|constructor].
  - pose proof (probes_are_bounded _ _ _ _ _ Hreach) as (_ & Hnd & _ & Hall). destruct (Hall _ Hcol) as (outs & -> & Hlen & Hres).
    unfold diagnosticReport in Hok |- *. cbn [RE_OK RE_Checks] in *. apply andb_true_iff in Hok as [_ Hok].
    split_and!; [|intros H; congruence|done]. rewrite andb_true_iff, forallb_app, andb_true_iff. intros (_ & _ & Hgood). split; [done|].
    assert (Hran : forall i, (i <= length (Conf_Players checked.1))%nat -> exists out, forallb Ck_OK out = true /\ probe_returns network_error servers contacts checked.1 i out).
    { intros i Hi. destruct (outs !! i) as [out|] eqn:Ho; [|apply lookup_ge_None in Ho; lia].
      pose proof (concat_ok _ _ _ Hgood Ho) as Hg. exists out. split; [done|].
      destruct (Hres i out Ho) as [[_ ?]|(_ & e & _ & ->)]; [done|]. exfalso. revert Hg. unfold not_started. by case_match. }
    split.
    + destruct (Hran 0%nat) as (out & Hg & sv & Hsv & ->); [lia|]. exists sv. split; [done|]. apply Diagnose_ok.
      rewrite <- Hg. unfold database_checks. generalize (Diagnose sv) as l. intros l. induction l as [|x l IH]; [done|]. cbn. by rewrite IH.
    + intros i p Hp. destruct (Hran (S i)) as (out & Hg & p' & ct & Hp' & Hct & ->); [apply lookup_lt_Some in Hp; lia|]. simplify_eq.
      cbn [player_check forallb Ck_OK] in Hg. rewrite andb_true_r in Hg. unfold Probe in Hg.
      destruct (CT_start ct) as [e|] eqn:Hs; [cbn [fst] in Hg; by rewrite probeError_bad in Hg|].
      destruct (_ || _); [done|]. destruct (negb _); [done|].
      apply probeClient_ok in Hg as (discovery & state & player & ?); [|done]. by exists ct, discovery, state, player.
Qed.
End doctor.

(** For a player of an accepted configuration the probe passes exactly when the
    identity of the configuration resolves to one player, that player reports a
    known state, and the connection, the identity and the event history did not
    change in between; and it sends no command but its two reads. *)
Theorem probe_is_exact network_error ct p : player_valid p ->
  let '(result, sent) := Probe network_error ct (Cfg_Address p) (Cfg_FingerprintSHA256 p) (identity_of p) in
  (PR_OK result = true <-> exists discovery state player, identified ct (identity_of p) discovery state player)
  /\ map fst sent `prefix_of` ["player/get_players"; "player/get_play_state"].
Proof.
  intros Hp. pose proof (accepted_settings p Hp) as Hset. destruct Hp as [Hk [Hs _] _ _ _ _]. unfold Probe.
  destruct (CT_start ct) as [e|] eqn:Hstart.
  { rewrite probeError_bad. split; [|apply prefix_nil]. split; [done|]. intros (? & ? & ? & [_ _ _ (_ & _ & H & _) _ _]). congruence. }
  cbn [identity_of Identity_Key Identity_Serial]. rewrite !bool_decide_eq_false_2 by (done || (by intros He; rewrite He in Hk)).
  rewrite Hset. cbn [orb negb]. pose proof (probeClient_ok network_error ct (identity_of p) Hstart) as Hok.
  destruct (probeClient network_error ct (identity_of p)) as [result sent] eqn:Hr. cbn [fst] in Hok. split; [done|].
 revert Hr. unfold probeClient. cbv zeta.
  repeat case_match; intros [= _ <-]; cbn [map fst]; (eexists; reflexivity).
Qed.

(** ** Runs *)

Definition sample_player : PlayerConfig := Build_PlayerConfig false "den" "192.0.2.7:1265"
  "0123456789abcdef0123456789abcdef0123456789abcdef0123456789abcdef" "A1" "" None.
Definition sample_response (params : Values) (payload : option json) : Response :=
  Response_zero <| Resp_Params := params |> <| Resp_Payload := payload |>.
Definition sample_contact : contact := {|
  CT_start := None; CT_cause := None;
  CT_discovery := Ok (sample_response ∅ (Some (JArray [JObject [("pid", JNumber "7"); ("serial", JString "A1")]])));
  CT_discovered := fun _ => {| View_Token := Token_zero; View_Connected := true |}; CT_gap := false;
  CT_state := Ok (sample_response (<["pid" := ["7"]]> {["state" := ["play"]]}) None); CT_end := None;
  CT_last := fun _ => {| View_Token := Token_zero <| Token_Player := 3 |>; View_Connected := true |}; CT_last_gap := false |}.
Definition sample_probe := Probe (fun _ => false) sample_contact (Cfg_Address sample_player) (Cfg_FingerprintSHA256 sample_player) (identity_of sample_player).

Lemma sample_player_valid : player_valid sample_player.
Proof.
  constructor; try (vm_compute; done).
  exists "192.0.2.7". split; [vm_compute; reflexivity|done].
Qed.

Lemma probe_is_exact_witness : player_valid sample_player /\ PR_Code sample_probe.1 = "ok"
  /\ exists discovery state player, identified sample_contact (identity_of sample_player) discovery state player.
Proof.
  split; [exact sample_player_valid|]. split; [vm_compute; reflexivity|].
  pose proof (probe_is_exact (fun _ => false) sample_contact sample_player sample_player_valid) as H.
  destruct (Probe _ _ _ _ _) as [result sent] eqn:Hr. apply (proj1 H).
  change result with (result, sent).1. rewrite <- Hr. vm_compute. reflexivity.
Defined.

Definition sample_server : server := {|
  SV_pool := Ok {| PC_Routes := []; PC_MaxConns := 1; PC_MinConns := 0; PC_Params := ∅ |};
  SV_opened := None; SV_ping := None;
  SV_privileges := Some {| GR_schema := true; GR_usage := true; GR_tables := list_to_set (map fst required_privileges);
                           GR_privileges := list_to_set required_privileges |};
  SV_migrations := inr [{| MR_Version := 1; MR_Checksum := Cfg_FingerprintSHA256 sample_player; MR_MinRuntime := 1 |}];
  SV_catalog := Some [{| MS_checksum := Cfg_FingerprintSHA256 sample_player; MS_minRuntime := 1 |}] |}.
Definition sample_checked : Config * list Check := (default_config <| Conf_Players := [sample_player] |>, [checkSuccess "config" "valid"]).
Definition sample_returns := probe_returns (fun _ => false) (fun _ s => s = sample_server) (fun _ ct => ct = sample_contact) sample_checked.1.

(** The two probes under two permits, the device's first to return. *)
Definition sample_outs : list (list Check) :=
  [database_checks (Diagnose sample_server); player_check 0 sample_probe.1].
Definition sample_states : list probes :=
  let st tasks started := {| PB_ended := None; PB_tasks := tasks; PB_started := started |} in
  [launched 2 None; st [Permitted; Waiting] []; st [Permitted; Permitted] []; st [Permitted; Running] [1%nat]; st [Running; Running] [1%nat; 0%nat];
   st [Running; Finished (nth 1 sample_outs [])] [1%nat; 0%nat];
   st [Finished (nth 0 sample_outs []); Finished (nth 1 sample_outs [])] [1%nat; 0%nat]].
Definition state_at (k : nat) : probes := nth k sample_states (launched 2 None).
Definition sample_end : probes := state_at 6.

Lemma sample_server_returns : sample_returns 0 (nth 0 sample_outs []).
Proof. by exists sample_server. Qed.
Lemma sample_player_returns : sample_returns 1 (nth 1 sample_outs []).
Proof. by exists sample_player, sample_contact. Qed.
Lemma sample_reach : probes_reach probe_field sample_returns 2 None sample_end.
Proof.
  apply (reach_step _ _ _ _ (state_at 5)); [|exact (step_return _ _ (state_at 5) 0 (nth 0 sample_outs []) eq_refl sample_server_returns)].
  apply (reach_step _ _ _ _ (state_at 4)); [|exact (step_return _ _ (state_at 4) 1 (nth 1 sample_outs []) eq_refl sample_player_returns)].
  apply (reach_step _ _ _ _ (state_at 3)); [|exact (step_run _ _ (state_at 3) 0 Permitted eq_refl (or_introl eq_refl) eq_refl)].
  apply (reach_step _ _ _ _ (state_at 2)); [|exact (step_run _ _ (state_at 2) 1 Permitted eq_refl (or_introl eq_refl) eq_refl)].
  apply (reach_step _ _ _ _ (state_at 1)); [|exact (step_permit _ _ (state_at 1) 1 eq_refl eq_refl)].
  apply (reach_step _ _ _ _ (state_at 0)); [|exact (step_permit _ _ (state_at 0) 0 eq_refl eq_refl)].
  constructor.
Qed.

Lemma probes_are_bounded_witness : probes_reach probe_field sample_returns 2 None sample_end
  /\ permits sample_end <= 4 /\ NoDup (PB_started sample_end).
Proof.
  split; [exact sample_reach|].
  destruct (probes_are_bounded probe_field sample_returns 2 None sample_end sample_reach) as (H1 & H2 & _). by split.
Defined.

Lemma sample_returns_total i : (i < 2)%nat -> exists out, sample_returns i out.
Proof.
  intros Hi. destruct i as [|[|i]]; [eexists; exact sample_server_returns|eexists; exact sample_player_returns|lia].
Qed.
Lemma probes_always_join_witness : probes_reach probe_field sample_returns 2 None (launched 2 None)
  /\ collected (launched 2 None) = None /\ exists s, probe_step probe_field sample_returns (launched 2 None) s.
Proof.
  split; [constructor|]. split; [reflexivity|].
  apply (probes_always_join probe_field sample_returns 2 None (launched 2 None)); [constructor|exact sample_returns_total|reflexivity].
Defined.

Lemma doctor_report_is_truthful_witness : exists r,
  Doctor (fun _ => false) (fun _ s => s = sample_server) (fun _ ct => ct = sample_contact) sample_checked r [1%nat; 0%nat]
  /\ RE_OK r = true /\ database_usable sample_server.
Proof.
  assert (Hrun : Doctor (fun _ => false) (fun _ s => s = sample_server) (fun _ ct => ct = sample_contact) sample_checked
    (diagnosticReport "doctor" (sample_checked.2 ++ concat sample_outs)) (PB_started sample_end)).
  { apply (doctor_probed _ _ _ _ None sample_end); [reflexivity|exact sample_reach|vm_compute; reflexivity]. }
  assert (Hok : RE_OK (diagnosticReport "doctor" (sample_checked.2 ++ concat sample_outs)) = true) by (vm_compute; reflexivity).
  eexists. split; [exact Hrun|]. split; [exact Hok|].
  destruct (doctor_report_is_truthful _ _ _ _ _ _ Hrun) as [H _]. destruct (H Hok) as (_ & (sv & -> & Husable) & _). exact Husable.
Defined.
