(* ===== verification/Telemetry.v ===== *)
(** * Telemetry ([internal/telemetry/player.go], [heos/metrics.go],
    [control/metrics.go])

    The collector of one player: what is counted and observed under which
    labels, and the phase of its gauge.  The exposition format is Prometheus's;
    a sample of a counter or of a histogram is an entry of a log here. *)

From S2P Require Import Prelude GoStd Values Model Diagnostics Errors Events State QueuePolicy Evidence Command Json JournalModel Protocol.
From S2P Require Import Client Envelope Unmarshal.

(** ** Labels *)

Definition bounded (value : string) (allowed : list string) : string := if value in? allowed then value else "unknown".

Definition commands : list string := [
  "system/heart_beat"; "system/register_for_change_events";
  "player/get_players"; "player/get_player_info"; "player/get_play_state"; "player/get_volume"; "player/get_mute";
  "player/get_play_mode"; "player/get_now_playing_media"; "player/get_queue"; "group/get_groups"; "group/get_group_info";
  "browse/get_music_sources"; "browse/get_source_info"; "browse/browse"; "browse/add_to_queue";
  "player/set_volume"; "player/set_mute"; "player/set_play_state"; "player/play_next"; "player/play_previous";
  "player/set_play_mode"; "player/remove_from_queue"].
Definition wireResults := ["reply_success"; "reply_rejected"; "uncertain"].
Definition confirmationResults := ["confirmed"; "timeout"; "released"; "rejected"; "uncertain"; "cancelled"].
Definition gapReasons := ["connection_closed"; "event_buffer_overflow"].
Definition scopes := ["full"; "media"; "scalars"; "playback"].
Definition triggers := ["startup"; "event"; "audit"; "recovery"; "admission"; "preflight"; "prewrite"; "confirmation"; "fallback"; "manual"].
Definition mutationKinds := ["volume"; "mute"; "mode"; "transport"; "skip"; "queue"; "remove"].
Definition scalarKinds := ["volume"; "mute"; "mode"].
Definition operationKinds := ["volume"; "mute"; "transport"; "skip"; "playback"; "stop"; "cancel"].
Definition terminalStates := ["succeeded"; "failed"; "cancelled"; "released"; "interrupted"; "uncertain"].
Definition phases := ["accepted"; "preparing"; "sending_volume"; "sending_mute"; "sending_mode"; "sending_queue"; "sending_remove";
  "queue_loading"; "sending_transport"; "sending_skip"; "ramping"; "playing"; "fading"; "stopping"; "cancelling"; "persisting"; "unknown"].
Definition operationReasons := [
  "completed"; "command_timeout"; "confirmation_timeout"; "device_unavailable"; "device_rejected"; "not_skippable";
  "journal_unavailable"; "queue_loading_incomplete"; "session_expired"; "buffer_capacity";
  "service_stopping"; "ownership_lost"; "ownership_revoked"; "unexpected_event"; "event_gap"; "queue_transition_timeout"; "grouped_target";
  "before_write_changed"; "readback_changed"; "active_state_changed"; "pending_readback_changed"; "queue_transition_changed";
  "queue_media_not_selected"; "queue_contains_unselected_media"; "queue_incomplete_or_invalid"; "queue_media_not_found";
  "superseded"; "cancelled"; "cancellation_failed"; "handoff_failed"; "process_interrupted";
  "unrecognized_command"; "invalid_id"; "invalid_arguments"; "data_unavailable"; "resource_unavailable"; "invalid_credentials";
  "command_not_executed"; "user_not_logged_in"; "parameter_out_of_range"; "user_not_found"; "internal_error"; "system_error";
  "device_busy"; "cannot_play"; "option_not_supported"; "device_queue_full"; "skip_limit_reached"].

(** ** The collector *)

Inductive metric := WireCommands | WireDuration | Confirmations | Fallbacks | Observations | Reconnects | Gaps | FinishedOperations.
#[export] Instance metric_eq_dec : EqDecision metric.
Proof. solve_decision. Defined.

(** A counter is incremented, or a histogram observes a duration. *)
Record sample := { SA_metric : metric; SA_labels : list string; SA_value : option Duration }.
#[export] Instance sample_eq_dec : EqDecision sample.
Proof. solve_decision. Defined.
Record Collector := { TP_samples : list sample; TP_activePhase : string }.
#[export] Instance Collector_eta : Eta Collector := fun p => {| TP_samples := TP_samples p; TP_activePhase := TP_activePhase p |}.
Definition NewPlayer : Collector := {| TP_samples := []; TP_activePhase := "" |}.

Definition inc (m : metric) (labels : list string) : sample := {| SA_metric := m; SA_labels := labels; SA_value := None |}.
Definition sampled (m : metric) (labels : list string) (elapsed : Duration) : sample :=
  {| SA_metric := m; SA_labels := labels; SA_value := Some (Z.max 0 elapsed) |}.

(** The methods of a collector. *)
Inductive measurement :=
  | WireCommand (command result : string) (elapsed : Duration)
  | Reconnected
  | EventGap (reason : string)
  | Observation (scope trigger : string)
  | Confirmation (kind result : string) (elapsed : Duration)
  | Fallback (kind : string)
  | OperationFinished (kind state reason : string)
  | Active (phase : string).

Definition measured (m : measurement) : list sample :=
  match m with
  | WireCommand command result elapsed =>
      let command := bounded command commands in
      [inc WireCommands [command; bounded result wireResults]; sampled WireDuration [command] elapsed]
  | Reconnected => [inc Reconnects []]
  | EventGap reason => [inc Gaps [bounded reason gapReasons]]
  | Observation scope trigger => [inc Observations [bounded scope scopes; bounded trigger triggers]]
  | Confirmation kind result elapsed => [sampled Confirmations [bounded kind mutationKinds; bounded result confirmationResults] elapsed]
  | Fallback kind => [inc Fallbacks [bounded kind scalarKinds]]
  | OperationFinished kind state reason =>
      [inc FinishedOperations [bounded kind operationKinds; bounded state terminalStates; bounded reason operationReasons]]
  | Active _ => []
  end.
(** A collector is absent where metrics are off. *)
Definition measure (m : measurement) (p : option Collector) : option Collector :=
  match p with
  | None => None
  | Some p =>
      let p := p <| TP_samples := TP_samples p ++ measured m |> in
      Some match m with Active phase => p <| TP_activePhase := if phase != "" then bounded phase phases else phase |> | _ => p end
  end.
(** The gauge of each phase in one scrape. *)
Definition Collect (p : Collector) : list (string * Z) :=
  map (fun phase => (phase, if phase == TP_activePhase p then 1 else 0)) phases.

(** ** The client and its observer *)

(** [defaultObservationTrigger], over the trigger that a context carries. *)
Definition defaultObservationTrigger (carried : option string) (trigger : string) : option string :=
  match carried with Some t => Some t | None => Some trigger end.
Definition recordObservation (carried : option string) (scope : string) : measurement := Observation scope (default "manual" carried).

Definition recordWire (command : string) (sent : Z) (err : option error) (elapsed : Duration) : list measurement :=
  if sent =? 0 then []
  else
    let result := match err with
                  | None => "reply_success"
                  | Some e => if as_command e == Some Rejected then "reply_rejected" else "uncertain"
                  end in
    [WireCommand command result elapsed].
Definition recordGap (reason : string) : measurement := EventGap reason.

(** ** The coordinator *)

(** The receipt of one execution: whether [completed] has run, and its kind. *)
Record operationMetrics := { OM_kind : string; OM_completed : bool }.
#[export] Instance operationMetrics_eta : Eta operationMetrics := fun m => {| OM_kind := OM_kind m; OM_completed := OM_completed m |}.

Definition finishAs (state reason : string) (m : operationMetrics) : list measurement * operationMetrics :=
  if OM_completed m then ([], m) else ([OperationFinished (OM_kind m) state reason], m <| OM_completed := true |>).
(** The reason in the diagnostics of an outcome; errors of decoding are ignored. *)
Definition outcome_reason (outcome : json) : string :=
  (dec_struct [("diagnostics", dec_struct [("Reason", dec_string)])] "" outcome).1.
Definition finish_reason (o : Operation) : string :=
  let reason := outcome_reason (Op_Outcome o) in
  if reason == "" then
    if (Op_ErrorCode o == "") && (Op_State o == Succeeded) then "completed" else Op_ErrorCode o
  else reason.
Definition finish (o : Operation) (m : operationMetrics) : list measurement * operationMetrics :=
  if is_some (Op_FinishedAt o) then finishAs (State_string (Op_State o)) (finish_reason o) m else ([], m).

Definition recordConfirmation (cause : option error) (kind : string) (writeErr err : option error) (elapsed : Duration) : list measurement :=
  if match writeErr with Some e => as_command e == Some NotSent | None => false end then []
  else
    let result := match err, completionCause cause err with
                  | None, _ => "confirmed"
                  | Some _, Some e =>
                      if errors_is ErrOwnership e then "released"
                      else if errors_is DeadlineExceeded e then "timeout"
                      else if errors_is ErrRejected e then "rejected"
                      else if errors_is Canceled e || errors_is errSuperseded e then "cancelled"
                      else "uncertain"
                  | Some _, None => "uncertain"
                  end in
    [Confirmation kind result elapsed].

(** ** What the telemetry counts *)

(** A closed decidable goal by evaluation. *)
Ltac by_deciding := match goal with |- ?P => apply (bool_decide_unpack P) end; vm_compute; done.

Lemma bounded_in value allowed : bounded value allowed ∈ "unknown" :: allowed.
Proof. unfold bounded. case_bool_decide; set_solver. Qed.
Lemma bounded_own value allowed : value ∈ allowed -> bounded value allowed = value.
Proof. intros H. unfold bounded. by rewrite bool_decide_eq_true_2. Qed.

(** ** Bounded series *)

(** The vocabularies of the labels of a metric. *)
Definition vocabulary (m : metric) : list (list string) :=
  match m with
  | WireCommands => [commands; wireResults]
  | WireDuration => [commands]
  | Confirmations => [mutationKinds; confirmationResults]
  | Fallbacks => [scalarKinds]
  | Observations => [scopes; triggers]
  | Reconnects => []
  | Gaps => [gapReasons]
  | FinishedOperations => [operationKinds; terminalStates; operationReasons]
  end.
Definition in_vocabulary (s : sample) : Prop :=
  Forall2 (fun label allowed => label ∈ "unknown" :: allowed) (SA_labels s) (vocabulary (SA_metric s))
  /\ (forall d, SA_value s = Some d -> 0 <= d).

Lemma measured_in_vocabulary m : Forall in_vocabulary (measured m).
Proof.
  assert (Hl : forall x allowed, bounded x allowed ∈ "unknown" :: allowed) by apply bounded_in.
  destruct m; cbn [measured]; rewrite ?Forall_cons, Forall_nil; unfold in_vocabulary; cbn [inc sampled SA_labels SA_metric SA_value vocabulary];
    rewrite ?Forall2_cons, ?Forall2_nil_l; split_and?; try done; try apply Hl; intros d [= <-]; lia.
Qed.

Definition record_all (ms : list measurement) (p : option Collector) : option Collector := foldl (fun p m => measure m p) p ms.

Lemma run_samples ms p : exists p', record_all ms (Some p) = Some p' /\ TP_samples p' = TP_samples p ++ concat (map measured ms)
  /\ (TP_activePhase p ∈ "" :: phases -> TP_activePhase p' ∈ "" :: phases).
Proof.
  induction ms as [|m ms IH] using rev_ind; [exists p; by rewrite app_nil_r|]. destruct IH as (p1 & Hr & Hs & Hp).
  unfold record_all in *. rewrite foldl_app, Hr. cbn [foldl measure]. eexists. split; [reflexivity|]. rewrite map_app, concat_app. cbn [map concat].
  rewrite app_nil_r, app_assoc, <- Hs. split; [by destruct m|]. intros H. specialize (Hp H). destruct m as [| | | | | | |phase]; try exact Hp. cbn.
  case_bool_decide as He; cbn; [subst; by left|]. right. destruct (proj1 (elem_of_cons _ _ _) (bounded_in phase phases)) as [-> |Hin]; [|exact Hin].
  by_deciding.
Qed.

Lemma sum_once (l : list string) x : NoDup l ->
  sum_list_with (fun g : string * Z => Z.to_nat g.2) (map (fun y => (y, if y == x then 1 else 0)) l) = (if x in? l then 1%nat else 0%nat).
Proof.
  induction 1 as [|y l Hn _ IH]; [done|]. cbn. rewrite IH. destruct (decide (y = x)) as [->|Hne].
  - rewrite (bool_decide_eq_true_2 (x = x)) by done. rewrite bool_decide_eq_false_2 by done. by rewrite bool_decide_eq_true_2 by (by left).
  - rewrite (bool_decide_eq_false_2 (y = x)) by done. cbn. repeat case_bool_decide; try done; set_solver.
Qed.

(** Whatever is measured, every series of a collector has its labels from a
    closed vocabulary and no negative duration, so that a player has a bounded
    number of series; and of the gauge of phases at most one is set in a scrape,
    exactly one while a phase is active. *)
Theorem series_are_bounded ms : exists p, record_all ms (Some NewPlayer) = Some p
  /\ Forall in_vocabulary (TP_samples p)
  /\ map fst (Collect p) = phases
  /\ sum_list_with (fun g => Z.to_nat g.2) (Collect p) = (if TP_activePhase p == "" then 0 else 1)%nat.
Proof.
  destruct (run_samples ms NewPlayer) as (p & Hr & Hs & Hp). exists p. split; [done|]. split_and!.
  - rewrite Hs. cbn [NewPlayer TP_samples app]. clear. induction ms as [|m ms IH]; [constructor|]. cbn. apply Forall_app. split; [apply measured_in_vocabulary|done].
  - unfold Collect. rewrite map_map. apply map_id.
  - unfold Collect. rewrite sum_once by (by_deciding).
    specialize (Hp ltac:(by left)). apply elem_of_cons in Hp as [-> |Hin]; [reflexivity|].
    rewrite bool_decide_eq_true_2 by done. rewrite bool_decide_eq_false_2; [done|]. intros He. rewrite He in Hin. revert Hin.
    by_deciding.
Qed.

(** ** The reasons of a completion *)

(** The reasons that an error carries are of the vocabulary. *)
Fixpoint reasons_known (e : error) : bool :=
  match e with
  | EWrap causes => forallb reasons_known causes
  | ECommand _ cause | EConnection _ cause => reasons_known cause
  | EOwnership o => Own_reason o in? operationReasons
  | EDiagnostic cause d => ((Diag_Reason d == "") || (Diag_Reason d in? operationReasons)) && reasons_known cause
  | _ => true
  end.

(** What a traversal picks is at a node of the same error. *)
Lemma errors_as_node {A} (pick : error -> option A) e a : errors_as pick e = Some a -> reasons_known e = true ->
  exists e', pick e' = Some a /\ reasons_known e' = true.
Proof.
  revert e. fix IH 1. intros e. cbn [errors_as]. destruct (pick e) as [b|] eqn:Hp.
  { intros H Hk. exists e. split; [|exact Hk]. rewrite Hp. clear IH. destruct e; cbn [errors_as] in H; rewrite Hp in H; exact H. }
  destruct e as [s|msg|causes|d c|dev|p c|o| |c d|f]; cbn [errors_as]; rewrite Hp; try done; cbn [reasons_known]; try apply IH.
  - clear Hp. induction causes as [|x xs IHx]; cbn; [done|]. intros H [Hx Hxs]%andb_true_iff.
    destruct (errors_as pick x) as [b|] eqn:Hx'; [simplify_eq; by apply (IH x)|by apply IHx].
  - intros H [_ Hk]%andb_true_iff. by apply (IH c).
Qed.

Definition known_reason (d : Diagnostics) : bool := (Diag_Reason d == "") || (Diag_Reason d in? operationReasons).

Lemma evidence_known o : (forall e, o = Some e -> reasons_known e = true) -> known_reason (evidenceFor o) = true.
Proof.
  intros Hk. destruct o as [e|]; [|done]. specialize (Hk e eq_refl). unfold evidenceFor. cbv zeta.
  destruct (as_diagnostic e) as [d|] eqn:Hd.
  { destruct (errors_as_node _ _ _ Hd Hk) as (e' & Hp & Hk'). destruct e'; simplify_eq. cbn in Hk'. by apply andb_true_iff in Hk' as [? _]. }
  destruct (as_ownership e) as [o|] eqn:Ho; [|done].
  destruct (errors_as_node _ _ _ Ho Hk) as (e' & Hp & Hk').
  assert (Hin : Own_reason o ∈ operationReasons).
  { destruct e'; simplify_eq; [by apply bool_decide_eq_true in Hk'|]. by_deciding. }
  unfold known_reason. apply orb_true_iff. right. apply bool_decide_eq_true_2. by case_bool_decide.
Qed.

(** The codes of the Denon vocabulary are reasons of their own. *)
Lemma device_reasons dev : DeviceError_Reason dev ∈ operationReasons \/ (DeviceError_Reason dev = "unknown" /\ ~ 1 <= Dev_Code dev <= 17).
Proof.
  destruct (decide (1 <= Dev_Code dev <= 17)) as [H|H].
  - left. unfold DeviceError_Reason.
    assert (Hc : Dev_Code dev ∈ seqZ 1 17) by (apply elem_of_seqZ; lia). revert Hc. generalize (Dev_Code dev) as c. intros c Hc.
    cbn in Hc. repeat (apply elem_of_cons in Hc as [-> |Hc]; [by_deciding|]). by apply not_elem_of_nil in Hc.
  - right. split; [|done]. unfold DeviceError_Reason. repeat case_match; lia || done.
Qed.

Lemma complete_code facts : CO_Code (complete facts) ∈ "" :: operationReasons.
Proof.
  destruct facts as [[e|] stopping stopped cause uncertain]; [|by left]. unfold complete, when. cbn [CF_Err CF_Stopping CF_Stopped CF_Cause CF_Uncertain].
  repeat match goal with |- context [if ?b then _ else _] => destruct b end; cbn; by_deciding.
Qed.
Lemma skip_code err stopping count uncertain : CO_Code (skip_result err stopping count uncertain) ∈ "" :: operationReasons.
Proof.
  destruct err as [e|]; [|by left]. unfold skip_result.
  repeat match goal with |- context [if ?b then _ else _] => destruct b end; cbn; by_deciding.
Qed.

(** The reason of an error that names none of its own. *)
Lemma code_reason code late unconfirmed : code ∈ "" :: operationReasons ->
  (if (code == "device_unavailable") && late then if (unconfirmed : bool) then "confirmation_timeout" else "command_timeout"
   else if code != "" then code else "device_unavailable") ∈ operationReasons.
Proof.
  intros Hcode. destruct ((code == "device_unavailable") && late); [destruct unconfirmed; by_deciding|].
  destruct (decide (code = "")) as [He|He]; [rewrite (bool_decide_eq_true_2 _ He)|rewrite (bool_decide_eq_false_2 _ He)]; cbn [negb].
  - by_deciding.
  - by apply elem_of_cons in Hcode as [|].
Qed.


(** ** What one execution counts *)

(** The calls on a receipt: with an operation of the journal, or with a result. *)
Definition receipt_call (acc : list measurement * operationMetrics) (call : Operation + (State * string)) : list measurement * operationMetrics :=
  let '(out, m) := acc in
  let '(more, m) := match call with inl o => finish o m | inr (state, reason) => finishAs (State_string state) reason m end in
  (out ++ more, m).
Definition receipt (kind : string) (calls : list (Operation + (State * string))) : list measurement :=
  (foldl receipt_call ([], {| OM_kind := kind; OM_completed := false |}) calls).1.

(** What a call would count. *)
Definition counted (kind : string) (call : Operation + (State * string)) : option measurement :=
  match call with
  | inl o => if is_some (Op_FinishedAt o) then Some (OperationFinished kind (State_string (Op_State o)) (finish_reason o)) else None
  | inr (state, reason) => Some (OperationFinished kind (State_string state) reason)
  end.

Lemma receipt_call_open kind out call : receipt_call (out, {| OM_kind := kind; OM_completed := false |}) call =
  match counted kind call with
  | Some m => (out ++ [m], {| OM_kind := kind; OM_completed := true |})
  | None => (out, {| OM_kind := kind; OM_completed := false |})
  end.
Proof.
  destruct call as [o|[state reason]]; [|done]. unfold receipt_call, counted, finish, finishAs. cbn [OM_completed OM_kind].
  destruct (is_some _); [done|]. by rewrite app_nil_r.
Qed.
Lemma receipt_closed kind out calls : (foldl receipt_call (out, {| OM_kind := kind; OM_completed := true |}) calls).1 = out.
Proof.
  induction calls as [|call calls IH]; [done|]. cbn [foldl].
  assert (receipt_call (out, {| OM_kind := kind; OM_completed := true |}) call = (out, {| OM_kind := kind; OM_completed := true |})) as ->; [|done].
  unfold receipt_call, finish, finishAs. cbn [OM_completed]. destruct call as [o|[]]; [destruct (is_some _)|]; by rewrite app_nil_r.
Qed.

(** However often its worker, its cancellation and a lost acknowledgement report
    the end of an execution, it is counted once: with the first terminal result
    that was reported. *)
Theorem operation_is_counted_once kind calls : receipt kind calls = take 1 (omap (counted kind) calls).
Proof.
  unfold receipt. induction calls as [|call calls IH]; [done|]. cbn [foldl]. rewrite receipt_call_open. cbn [omap list_omap].
  destruct (counted kind call) as [m|]; [|exact IH]. cbn [app]. by rewrite receipt_closed.
Qed.

(** No label that the controller gives is folded into unknown: every command that
    its client sends, every kind of an operation and of a write, every terminal
    state and every result of a wire exchange or of a confirmation is of the
    vocabulary of its label. *)
Theorem labels_are_their_own :
  (forall name, readCommand name = true \/ name = register_name \/ (exists m args, Mutation_command m = Ok (name, args)) ->
    bounded name commands = name)
  /\ (forall k, k <> CommandKindAbsent -> bounded (CommandKind_string k) operationKinds = CommandKind_string k)
  /\ (forall k, k <> MutationKindAbsent -> bounded (MutationKind_string k) mutationKinds = MutationKind_string k
        /\ bounded ("sending_" +:+ MutationKind_string k) phases = "sending_" +:+ MutationKind_string k)
  /\ (forall s, State_terminal s = true -> bounded (State_string s) terminalStates = State_string s)
  /\ (forall command sent err elapsed, Forall (fun m => exists result, m = WireCommand command result elapsed /\ result ∈ wireResults)
        (recordWire command sent err elapsed))
  /\ (forall cause kind writeErr err elapsed, Forall (fun m => exists result, m = Confirmation kind result elapsed /\ result ∈ confirmationResults)
        (recordConfirmation cause kind writeErr err elapsed)).
Proof.
  split_and!.
  - intros name Hname. apply bounded_own. destruct Hname as [H|[->|(m & args & H)]]; [|by_deciding|].
    + unfold readCommand in H. apply bool_decide_eq_true in H. revert name H. apply Forall_forall. by_deciding.
    + unfold Mutation_command in H. cbv zeta in H. repeat case_match; simplify_eq; by_deciding.
  - intros k Hk. apply bounded_own. destruct k; try done; by_deciding.
  - intros k Hk. split; apply bounded_own; destruct k; try done; by_deciding.
  - intros s Hs. apply bounded_own. destruct s; try done; by_deciding.
  - intros. unfold recordWire. cbv zeta. repeat case_match; repeat constructor; (eexists; split; [reflexivity|by_deciding]).
  - intros. unfold recordConfirmation. cbv zeta. repeat case_match; repeat constructor; (eexists; split; [reflexivity|by_deciding]).
Qed.

(** ** Concrete completions *)

Definition rejected_facts : completionFacts := {|
  CF_Err := Some (ECommand Rejected (EDevice {| Dev_Command := "player/play_next"; Dev_Code := 14; Dev_Text := ""; Dev_SystemCode := None |}));
  CF_Stopping := false; CF_Stopped := false; CF_Cause := Some (EOwnership {| Own_reason := "unexpected_event"; Own_evidence := Diagnostics_zero |});
  CF_Uncertain := false |}.

Lemma labels_are_their_own_witness : readCommand "player/get_queue" = true /\ bounded "player/get_queue" commands = "player/get_queue"
  /\ bounded "player/reboot" commands = "unknown".
Proof.
  split; [vm_compute; reflexivity|]. split; [|vm_compute; reflexivity].
  apply (proj1 labels_are_their_own). left. vm_compute. reflexivity.
Defined.

Example counted_once : receipt "skip" [inr (Released, "superseded"); inr (Uncertain, "handoff_failed")]
  = [OperationFinished "skip" "released" "superseded"].
Proof. vm_compute. reflexivity. Qed.
