(* ===== verification/Lifecycle.v ===== *)
(** * The life of the service ([internal/app/app.go],
    [internal/control/coordinator.go])

    The coordinator's goroutines and its close, as a step relation whose steps
    are the critical sections of [lifecycle]; the maintenance of the journal over
    what its turns meet; and [Run] with its deferred calls over what each of its
    calls answers. *)

From S2P Require Import Prelude GoStd Errors.

(** ** The coordinator *)

(** What the coordinator's wait group counts: a worker on its lane, a child Skip
    in its request, and the journal-only finalizers. *)
Inductive job := WorkerJob (player id : string) | ChildJob (id : string) | OrphanJob (id : string) | SkipJob (id : string).
#[export] Instance job_eq_dec : EqDecision job.
Proof. solve_decision. Defined.

Record coordinator := {
  CL_handlers : gset string;             (* the lanes whose writer tells its events *)
  CL_runs : gmap string string;          (* [l.run], by the player of the lane *)
  CL_closing : bool;
  CL_ended : bool;                       (* [c.ctx.Err() != nil] *)
  CL_jobs : list job;
  CL_closed : bool                       (* [Close] has returned *)
}.
#[export] Instance coordinator_eta : Eta coordinator := fun c =>
  {| CL_handlers := CL_handlers c; CL_runs := CL_runs c; CL_closing := CL_closing c; CL_ended := CL_ended c;
     CL_jobs := CL_jobs c; CL_closed := CL_closed c |}.

(** A device has a lane when its client can write. *)
Definition NewCoordinator (devices : list (string * bool)) : coordinator := {|
  CL_handlers := list_to_set (map fst (filter (fun d => d.2 = true) devices)); CL_runs := ∅;
  CL_closing := false; CL_ended := false; CL_jobs := []; CL_closed := false |}.

(** The execution that an event of a player reaches. *)
Definition receives (c : coordinator) (player : string) : option string :=
  if player in? CL_handlers c then CL_runs c !! player else None.

(** The job is counted before [lifecycle] is released. *)
Definition count (j : job) (c : coordinator) : coordinator := c <| CL_jobs := CL_jobs c ++ [j] |>.
Definition start_run (player id : string) (c : coordinator) : coordinator :=
  count (WorkerJob player id) (c <| CL_runs := <[player := id]> (CL_runs c) |>).
(** A worker leaves its lane unless another has taken it. *)
Definition leave (j : job) (c : coordinator) : coordinator :=
  match j with
  | WorkerJob player id => if CL_runs c !! player == Some id then c <| CL_runs := delete player (CL_runs c) |> else c
  | _ => c
  end.

Inductive lifecycle_step : coordinator -> coordinator -> Prop :=
| life_parent c : lifecycle_step c (c <| CL_ended := true |>)
| life_submit c player id : CL_closing c = false -> player ∈ CL_handlers c -> lifecycle_step c (start_run player id c)
| life_child c id : CL_closing c = false -> lifecycle_step c (count (ChildJob id) c)
| life_orphan c id : CL_closing c = false -> lifecycle_step c (count (OrphanJob id) c)
| life_skip c id : CL_closing c = false -> lifecycle_step c (count (SkipJob id) c)
| life_leave c j before after : CL_jobs c = before ++ j :: after ->
    lifecycle_step c (leave j c <| CL_jobs := before ++ after |>)
| life_close c : lifecycle_step c (c <| CL_closing := true |> <| CL_ended := true |>)
| life_closed c : CL_closing c = true -> CL_jobs c = [] ->
    lifecycle_step c (c <| CL_handlers := ∅ |> <| CL_closed := true |>).

(** ** The maintenance of the journal *)

Inductive upkeep := TryRecover (ok : bool) | TryPrune.
#[export] Instance upkeep_eq_dec : EqDecision upkeep.
Proof. solve_decision. Defined.

(** A turn of either loop: whether the recovery succeeds, and whether the context
    has ended when it is looked at and in the wait. *)
Record upkeep_turn := { UT_recovers : bool; UT_ended : bool; UT_wait_ended : bool }.

Fixpoint prune_turns (turns : list upkeep_turn) : list upkeep :=
  match turns with
  | [] => []
  | t :: turns => TryPrune :: (if UT_wait_ended t then [] else prune_turns turns)
  end.
(** The turn that recovers goes on to the second loop. *)
Fixpoint maintainJournal (turns : list upkeep_turn) : list upkeep :=
  match turns with
  | [] => []
  | t :: turns =>
      if UT_recovers t then TryRecover true :: prune_turns turns
      else TryRecover false :: (if UT_ended t || UT_wait_ended t then [] else maintainJournal turns)
  end.

(** ** The process *)

Inductive action :=
  | JournalOpened | MaintenanceStarted | MaintenanceStopped | JournalClosed
  | DevicesStopped | DevicesOpened | OperationsWatched | DevicesClosed
  | ServerMade | ServerClosed | CoordinatorMade | CoordinatorClosed
  | Listening | StoppingSet | EventsClosed | ServerShutDown | ServerForced | ServerJoined.
#[export] Instance action_eq_dec : EqDecision action.
Proof. solve_decision. Defined.

(** How serving ends: the server stops by itself, closed or failed, or the
    context ends. *)
Inductive serving := ServerStopped (closed : bool) | ContextEnded (shutdown : bool).

Record startup := {
  SU_credentials : option error;
  SU_certificate : bool;
  SU_journal : option error;
  SU_devices : option error;
  SU_server : option error;
  SU_listen : bool;
  SU_serving : serving
}.

Definition ran : Type := list action * option error.
(** [defer]: the cleanup runs after the body, whatever the body returns. *)
Definition deferred (cleanup : list action) (body : ran) : ran := (body.1 ++ cleanup, body.2).
Definition before (acts : list action) (body : ran) : ran := (acts ++ body.1, body.2).

Definition serve (s : serving) : ran :=
  match s with
  | ServerStopped closed => ([], if closed then None else Some (EText "HTTP server failed"))
  | ContextEnded shutdown =>
      before [StoppingSet; DevicesStopped; EventsClosed]
        (if shutdown then ([ServerShutDown; ServerJoined], None)
         else ([ServerForced; ServerJoined], Some (EText "HTTP shutdown deadline exceeded")))
  end.

Definition Run (s : startup) : ran :=
  match SU_credentials s with
  | Some e => ([], Some e)
  | None =>
      if negb (SU_certificate s) then ([], Some (EText "cannot load API TLS certificate/key"))
      else match SU_journal s with
      | Some e => ([], Some e)
      | None => before [JournalOpened; MaintenanceStarted] (deferred [MaintenanceStopped; JournalClosed] (deferred [DevicesStopped]
          match SU_devices s with
          | Some e => ([], Some e)
          | None => before [DevicesOpened] (deferred [DevicesClosed] (before [OperationsWatched]
              match SU_server s with
              | Some e => ([], Some e)
              | None => before [ServerMade] (deferred [ServerClosed] (before [CoordinatorMade] (deferred [CoordinatorClosed]
                  (if negb (SU_listen s) then ([], Some (EText "cannot bind API listener"))
                   else before [Listening] (serve (SU_serving s))))))
              end))
          end))
      end
  end.

(** ** The coordinator closes for good *)

(** The jobs cover the lanes, and a closed coordinator has none. *)
Record life_ok (c : coordinator) : Prop := {
  lo_runs : forall player id, CL_runs c !! player = Some id -> WorkerJob player id ∈ CL_jobs c;
  lo_closed : CL_closed c = true -> CL_closing c = true /\ CL_jobs c = [] /\ CL_handlers c = ∅
}.

Lemma life_ok_new devices : life_ok (NewCoordinator devices).
Proof. constructor; [|done]. intros player id. cbn. by rewrite lookup_empty. Qed.

Lemma count_ok j c : life_ok c -> CL_closing c = false -> life_ok (count j c).
Proof.
  intros [Hr Hc] Hopen. constructor; cbn.
  - intros player id Hid. apply elem_of_app. left. by apply Hr.
  - intros Hclosed. destruct (Hc Hclosed). congruence.
Qed.

Lemma start_run_ok player id c : life_ok c -> CL_closing c = false -> life_ok (start_run player id c).
Proof.
  intros [Hr Hc] Hopen. constructor; cbn.
  - intros p i. rewrite elem_of_app, list_elem_of_singleton. destruct (decide (player = p)) as [->|Hne].
    + rewrite lookup_insert_eq. intros [= ->]. by right.
    + rewrite lookup_insert_ne by done. intros Hi. left. by apply Hr.
  - intros Hclosed. destruct (Hc Hclosed). congruence.
Qed.

Lemma leave_ok c j early late : life_ok c -> CL_jobs c = early ++ j :: late -> life_ok (leave j c <| CL_jobs := early ++ late |>).
Proof.
  intros [Hr Hc] Hj. constructor; cbn.
  - intros player id Hid.
    assert (Hrun : CL_runs c !! player = Some id /\ WorkerJob player id <> j).
    { destruct j as [p i|i|i|i]; cbn in Hid; try done. case_bool_decide as Hp; cbn in Hid.
      - apply lookup_delete_Some in Hid as [Hne Hid]. split; [done|congruence].
      - split; [done|]. intros [= <- <-]. done. }
    destruct Hrun as [Hrun Hne]. apply Hr in Hrun. rewrite Hj, elem_of_app, elem_of_cons in Hrun. rewrite elem_of_app. naive_solver.
  - intros Hclosed. assert (H : CL_closed c = true) by (destruct j; cbn in Hclosed; try done; by case_bool_decide).
    destruct (Hc H) as (_ & Hnil & _). rewrite Hnil in Hj. by destruct early.
Qed.

Lemma life_step_ok c c' : life_ok c -> lifecycle_step c c' -> life_ok c'.
Proof.
  intros Hok Hstep. destruct Hstep; auto using count_ok, start_run_ok, leave_ok.
  - by destruct Hok.
  - destruct Hok as [Hr Hc]. constructor; cbn; [done|]. intros H. by destruct (Hc H) as (_ & ? & ?).
  - destruct Hok as [Hr Hc]. by constructor; cbn.
Qed.

Lemma life_run_ok c c' : life_ok c -> rtc lifecycle_step c c' -> life_ok c'.
Proof. intros Hok Hrun. induction Hrun as [|? ? ? Hstep _ IH]; [done|]. apply IH. by eapply life_step_ok. Qed.

(** Nothing is counted once the coordinator closes, and closing is for good. *)
Lemma closing_step c c' : CL_closing c = true -> lifecycle_step c c' -> CL_closing c' = true /\ CL_jobs c' `sublist_of` CL_jobs c
  /\ (CL_closed c = true -> CL_closed c' = true).
Proof.
  intros Hc Hstep. destruct Hstep as [c|c player id|c id|c id|c id|c j early late Hj|c|c]; try congruence; cbn; try done.
  split_and!.
  - by destruct j; cbn; try done; case_bool_decide.
  - rewrite Hj. apply sublist_app; [done|]. by apply sublist_cons.
  - by destruct j; cbn; try done; case_bool_decide.
Qed.
Lemma closing_run c c' : CL_closing c = true -> rtc lifecycle_step c c' -> CL_closing c' = true /\ CL_jobs c' `sublist_of` CL_jobs c
  /\ (CL_closed c = true -> CL_closed c' = true).
Proof.
  intros Hc Hrun. induction Hrun as [|c c1 c2 Hstep _ IH]; [done|]. destruct (closing_step _ _ Hc Hstep) as (H1 & H2 & H3).
  destruct (IH H1) as (H4 & H5 & H6). split_and!; [done|by etrans|auto].
Qed.

(** C30. Closing the coordinator is final.  From the moment that [Close] marks it,
    no goroutine is added to those it waits for, so what it waits for only
    shrinks and it can return as soon as they have; and when it has returned,
    then and ever after no worker, child or finalizer is left, no lane has a
    run, and no event of a device reaches one. *)
Theorem closed_coordinator_is_quiet devices c : rtc lifecycle_step (NewCoordinator devices) c ->
  (forall c', CL_closing c = true -> rtc lifecycle_step c c' -> CL_jobs c' `sublist_of` CL_jobs c)
  /\ (CL_closing c = true -> exists c', rtc lifecycle_step c c' /\ CL_closed c' = true)
  /\ (forall c' player, CL_closed c = true -> rtc lifecycle_step c c' ->
        CL_jobs c' = [] /\ CL_runs c' = ∅ /\ receives c' player = None).
Proof.
  intros Hreach. pose proof (life_run_ok _ _ (life_ok_new devices) Hreach) as Hok. split_and!.
  - intros c' Hc Hrun. by apply (closing_run c c').
  - intros Hc. clear Hreach Hok. remember (length (CL_jobs c)) as n eqn:Hn. revert c Hc Hn. induction n as [|n IH]; intros c Hc Hn.
    + eexists. split; [by apply rtc_once, life_closed; [|apply nil_length_inv]|done].
    + destruct (CL_jobs c) as [|j jobs] eqn:Hj; [done|]. pose proof (life_leave c j [] jobs Hj) as Hstep.
      destruct (closing_step _ _ Hc Hstep) as (Hc' & _ & _). destruct (IH _ Hc') as (c' & Hrun & Hclosed); [cbn in *; lia|].
      exists c'. split; [|done]. by eapply rtc_l.
  - intros c' player Hclosed Hrun. pose proof (lo_closed _ Hok Hclosed) as (Hclosing & _ & _).
    destruct (closing_run c c' Hclosing Hrun) as (_ & _ & Hstays). specialize (Hstays Hclosed).
    destruct (life_run_ok _ _ Hok Hrun) as [Hr Hc']. destruct (Hc' Hstays) as (_ & Hjobs & Hhandlers).
    assert (Hruns : CL_runs c' = ∅).
    { apply map_empty. intros p. destruct (CL_runs c' !! p) as [id|] eqn:Hid; [|done]. apply Hr in Hid. rewrite Hjobs in Hid. by apply not_elem_of_nil in Hid. }
    split_and!; [done..|]. unfold receives. by rewrite Hhandlers, bool_decide_eq_false_2 by set_solver.
Qed.

Lemma closed_coordinator_is_quiet_witness :
  let c0 := NewCoordinator [("den", true); ("hall", false)] in
  let c1 := start_run "den" "op-1" c0 in
  let c2 := c1 <| CL_closing := true |> <| CL_ended := true |> in
  let c3 := leave (WorkerJob "den" "op-1") c2 <| CL_jobs := [] |> in
  let c4 := c3 <| CL_handlers := ∅ |> <| CL_closed := true |> in
  receives c1 "den" = Some "op-1" /\ receives c1 "hall" = None /\ rtc lifecycle_step c0 c4 /\ CL_closed c4 = true
  /\ CL_jobs c4 = [] /\ CL_runs c4 = ∅ /\ receives c4 "den" = None.
Proof.
  intros c0 c1 c2 c3 c4. assert (Hreach : rtc lifecycle_step c0 c4).
  { eapply rtc_l; [apply (life_submit c0 "den" "op-1"); [done|apply (bool_decide_unpack _); by vm_compute]|].
    eapply rtc_l; [apply (life_close c1)|].
    eapply rtc_l; [apply (life_leave c2 (WorkerJob "den" "op-1") [] []); reflexivity|].
    apply rtc_once. apply (life_closed c3); reflexivity. }
  split_and!; [by vm_compute|by vm_compute|exact Hreach|done|..];
    apply (proj2 (proj2 (closed_coordinator_is_quiet [("den", true); ("hall", false)] c4 Hreach)) c4 "den"); (done || apply rtc_refl).
Defined.

(** ** The journal is recovered before it is pruned *)

Lemma prune_turns_prune turns : Forall (fun u => u = TryPrune) (prune_turns turns).
Proof. induction turns as [|t turns IH]; [constructor|]. cbn. constructor; [done|]. destruct (UT_wait_ended t); [constructor|done]. Qed.

(** Every attempt before the last recovery failed, and nothing but retention
    follows a success: a record is pruned only after the journal has been
    recovered, and never recovered again while the workers of this process run. *)
Theorem maintenance_recovers_first turns :
  exists failures prunes, Forall (fun u => u = TryPrune) prunes
    /\ (maintainJournal turns = replicate failures (TryRecover false)
        \/ maintainJournal turns = replicate failures (TryRecover false) ++ TryRecover true :: prunes).
Proof.
  induction turns as [|t turns (n & prunes & Hp & IH)]; [exists 0%nat, []; split; [constructor|by left]|]. cbn.
  destruct (UT_recovers t).
  - exists 0%nat, (prune_turns turns). split; [apply prune_turns_prune|by right].
  - destruct (_ || _); [exists 1%nat, []; split; [constructor|by left]|].
    exists (S n), prunes. split; [done|]. destruct IH as [-> | ->]; [by left|by right].
Qed.

(** A context that does not end lets the maintenance go on: each turn that it is
    given does its work. *)
Theorem maintenance_goes_on turns : Forall (fun t => UT_ended t = false /\ UT_wait_ended t = false) turns ->
  length (maintainJournal turns) = length turns
  /\ (Exists (fun t => UT_recovers t = true) turns -> TryRecover true ∈ maintainJournal turns).
Proof.
  assert (Hprune : forall turns, Forall (fun t => UT_ended t = false /\ UT_wait_ended t = false) turns -> length (prune_turns turns) = length turns).
  { induction 1 as [|t l [_ Hw] _ IH]; [done|]. cbn. by rewrite Hw, IH. }
  induction 1 as [|t l [He Hw] Hl [IH1 IH2]]; [split; [done|intros H; inversion H]|]. cbn. destruct (UT_recovers t) eqn:Hr; cbn.
  - split; [by rewrite Hprune|]. intros _. by left.
  - rewrite He, Hw. cbn. split; [by rewrite IH1|]. intros H. apply Exists_cons in H as [H|H]; [congruence|]. right. by apply IH2.
Qed.
Lemma maintenance_goes_on_witness :
  let turns := [{| UT_recovers := false; UT_ended := false; UT_wait_ended := false |};
                {| UT_recovers := true; UT_ended := false; UT_wait_ended := false |};
                {| UT_recovers := false; UT_ended := false; UT_wait_ended := false |}] in
  maintainJournal turns = [TryRecover false; TryRecover true; TryPrune] /\ length (maintainJournal turns) = length turns.
Proof. intros turns. split; [reflexivity|]. apply (proj1 (maintenance_goes_on turns ltac:(repeat constructor))). Defined.

(** ** The process releases what it has opened *)

(** What has to be undone, and how. *)
Definition undone_by (a : action) : option action :=
  match a with
  | JournalOpened => Some JournalClosed
  | MaintenanceStarted => Some MaintenanceStopped
  | DevicesOpened => Some DevicesClosed
  | ServerMade => Some ServerClosed
  | CoordinatorMade => Some CoordinatorClosed
  | _ => None
  end.
Definition undoes : list action := [JournalClosed; MaintenanceStopped; DevicesClosed; ServerClosed; CoordinatorClosed].

(** On every way out of [Run], what was opened has been closed exactly once and
    in the reverse order, after everything else; the devices are stopped before
    they are closed; and it answers no error exactly when every step of the start
    succeeded and serving ended as asked. *)
Theorem run_releases_everything s :
  let '(acts, e) := Run s in
  filter (.∈ undoes) acts = reverse (omap undone_by acts)
  /\ (DevicesOpened ∈ acts -> DevicesStopped ∈ acts)
  /\ (e = None <-> SU_credentials s = None /\ SU_certificate s = true /\ SU_journal s = None /\ SU_devices s = None
        /\ SU_server s = None /\ SU_listen s = true /\ (SU_serving s = ServerStopped true \/ SU_serving s = ContextEnded true)).
Proof.
  destruct s as [[?|] [] [?|] [?|] [?|] [] [[]|[]]]; cbn -[filter reverse elem_of]; split_and!; try (by vm_compute);
    first [apply (bool_decide_unpack _); by vm_compute | naive_solver].
Qed.

(** When the context ends, a server that serves refuses new operations before the
    devices stop, ends its streams before it waits for its requests, and has
    joined the goroutine that serves before the coordinator closes. *)
Theorem shutdown_is_ordered s shutdown : Listening ∈ (Run s).1 -> SU_serving s = ContextEnded shutdown ->
  (Run s).1 = [JournalOpened; MaintenanceStarted; DevicesOpened; OperationsWatched; ServerMade; CoordinatorMade; Listening;
    StoppingSet; DevicesStopped; EventsClosed; (if shutdown then ServerShutDown else ServerForced); ServerJoined;
    CoordinatorClosed; ServerClosed; DevicesClosed; DevicesStopped; MaintenanceStopped; JournalClosed].
Proof.
  intros Hl Hs. destruct s as [[?|] [] [?|] [?|] [?|] [] serving]; cbn in *; subst; try (by destruct shutdown);
    exfalso; revert Hl; apply (bool_decide_unpack _); by vm_compute.
Qed.
Lemma shutdown_is_ordered_witness :
  let s := {| SU_credentials := None; SU_certificate := true; SU_journal := None; SU_devices := None; SU_server := None;
              SU_listen := true; SU_serving := ContextEnded false |} in
  (Run s).2 = Some (EText "HTTP shutdown deadline exceeded") /\ length (Run s).1 = 18%nat
  /\ (Run s).1 !! 10%nat = Some ServerForced.
Proof.
  intros s. split; [reflexivity|].
  rewrite (shutdown_is_ordered s false ltac:(apply (bool_decide_unpack _); by vm_compute) eq_refl). by split.
Defined.
