(* ===== verification/Metrics.v ===== *)
(** * The scrape of metrics ([internal/api/metrics.go])

    [GetMetrics] over what it reads: the readiness of the journal, the runtime,
    and the configuration, snapshot and collector of each device.  The registry
    of Prometheus and its text encoder are parameters. *)

From S2P Require Import Prelude GoStd Model Errors Views Config Broker Access Telemetry.

(** The number that a gauge starts from: a flag, a count, or nanoseconds that are
    divided into seconds. *)
Inductive gauge_value := Bit (b : bool) | Count (n : Z) | InSeconds (nanos : Z).
#[export] Instance gauge_value_eq_dec : EqDecision gauge_value.
Proof. solve_decision. Defined.
Record gauge := { G_name : string; G_help : string; G_value : gauge_value; G_labels : list (string * string) }.
#[export] Instance gauge_eq_dec : EqDecision gauge.
Proof. solve_decision. Defined.

(** A collector of a player with the label it was made for, or the snapshot. *)
Inductive scrape_item := PlayerMetrics (player : string) (p : Collector) | MetricSnapshot (gauges : list gauge).

Record scraped := {
  SD_Config : PlayerConfig;
  SD_Observed : Snapshot;
  SD_Metrics : option (string * Collector)
}.

(** [UnixNano]: the epoch of Unix in nanoseconds since the zero time. *)
Definition unixEpoch : Time := 62135596800 * Second.
Definition UnixNano (t : Time) : Z := i64 (t - unixEpoch).

Definition process_gauges (ready stopping : bool) (goroutines heap : Z) : list gauge := [
  {| G_name := "heos_journal_ready"; G_help := "Whether the operation journal is currently ready."; G_value := Bit ready; G_labels := [] |};
  {| G_name := "heos_shutting_down"; G_help := "Whether the service is shutting down."; G_value := Bit stopping; G_labels := [] |};
  {| G_name := "heos_go_goroutines"; G_help := "Current Go runtime goroutines."; G_value := Count goroutines; G_labels := [] |};
  {| G_name := "heos_go_heap_objects_bytes"; G_help := "Current Go runtime heap object bytes."; G_value := Count heap; G_labels := [] |}].
Definition player_gauges (d : scraped) : list gauge :=
  let labels := [("player", Cfg_Key (SD_Config d))] in
  let observed := SD_Observed d in
  [ {| G_name := "heos_player_connected"; G_help := "Whether the player's HEOS connection is established.";
       G_value := Bit (Snap_Connected observed); G_labels := labels |};
    {| G_name := "heos_player_stale"; G_help := "Whether the player's observed state is stale.";
       G_value := Bit (Snap_Stale observed); G_labels := labels |};
    {| G_name := "heos_player_writes_enabled"; G_help := "Whether writes are configured for the player.";
       G_value := Bit (Cfg_WritesEnabled (SD_Config d)); G_labels := labels |} ]
  ++ (if isZero (Snap_ObservedAt observed) then []
      else [{| G_name := "heos_player_last_full_observation_timestamp_seconds";
               G_help := "Unix time of the last full observation; event projections do not advance it.";
               G_value := InSeconds (UnixNano (Snap_ObservedAt observed)); G_labels := labels |}]).

Section scrape.
(** The registry: whether it takes one more collector, what it gathers, and the
    text of a family. *)
Context {family : Type} (register : list scrape_item -> scrape_item -> option error)
  (gather : list scrape_item -> Result (list family)) (encode : family -> Result string).

Fixpoint scrape_players (who : Credential) (ds : list scraped) (gauges : list gauge) (registry : list scrape_item)
  : Result (list gauge * list scrape_item) :=
  match ds with
  | [] => Ok (gauges, registry)
  | d :: ds =>
      if negb (allows who (Cfg_Key (SD_Config d))) then scrape_players who ds gauges registry
      else
        let gauges := gauges ++ player_gauges d in
        match SD_Metrics d with
        | None => scrape_players who ds gauges registry
        | Some (player, p) =>
            match register registry (PlayerMetrics player p) with
            | Some e => Err (EWrap [e])
            | None => scrape_players who ds gauges (registry ++ [PlayerMetrics player p])
            end
        end
  end.
Fixpoint encode_all (families : list family) (out : string) : Result string :=
  match families with
  | [] => Ok out
  | f :: families => match encode f with Err e => Err (EWrap [e]) | Ok text => encode_all families (out +:+ text) end
  end.

Definition GetMetrics (who : Credential) (ready : option error) (stopping : bool) (goroutines heap : Z) (ds : list scraped) : Result string :=
  match scrape_players who ds (process_gauges (negb (is_some ready)) stopping goroutines heap) [] with
  | Err e => Err e
  | Ok (gauges, registry) =>
      match register registry (MetricSnapshot gauges) with
      | Some e => Err (EWrap [e])
      | None =>
          match gather (registry ++ [MetricSnapshot gauges]) with
          | Err e => Err (EWrap [e])
          | Ok families => encode_all families ""
          end
      end
  end.

(** ** What a scrape shows *)

Local Abbreviation shown who ds := (filter (fun d => allows who (Cfg_Key (SD_Config d)) = true) ds).

Lemma scrape_players_shown who ds gauges registry : scrape_players who ds gauges registry = scrape_players who (shown who ds) gauges registry.
Proof using Type.
  revert gauges registry. induction ds as [|d ds IH]; intros gauges registry; [done|]. rewrite filter_cons. cbn [scrape_players].
  destruct (decide _) as [Ha|Ha]; [|apply not_true_iff_false in Ha; rewrite Ha; cbn; apply IH].
  cbn [scrape_players]. rewrite Ha. cbn. destruct (SD_Metrics d) as [[player p]|]; [destruct (register _ _); [done|]|]; apply IH.
Qed.

(** A scrape depends on no player that its credential may not see: neither the
    configuration, nor the observation, nor the collector, nor the number of the
    others can be read from the answer or from its failure. *)
Theorem metrics_are_isolated who ready stopping goroutines heap ds ds' : shown who ds = shown who ds' ->
  GetMetrics who ready stopping goroutines heap ds = GetMetrics who ready stopping goroutines heap ds'.
Proof using Type. intros H. unfold GetMetrics. by rewrite scrape_players_shown, H, <- scrape_players_shown. Qed.

(** The registry refuses a collector only when a metric of the same name and
    labels is registered: here, a second collector of a player. *)
Definition collides (registry : list scrape_item) (c : scrape_item) : Prop :=
  match c with
  | PlayerMetrics player _ => Exists (fun c => match c with PlayerMetrics other _ => other = player | MetricSnapshot _ => False end) registry
  | MetricSnapshot _ => Exists (fun c => match c with PlayerMetrics _ _ => False | MetricSnapshot _ => True end) registry
  end.
Definition registry_law : Prop := forall registry c, ~ collides registry c -> register registry c = None.

(** The collector of a device carries the key of its configuration. *)
Definition labelled (d : scraped) : Prop := match SD_Metrics d with Some (player, _) => player = Cfg_Key (SD_Config d) | None => True end.
Definition collector_of (d : scraped) : option scrape_item := (fun m : string * Collector => PlayerMetrics m.1 m.2) <$> SD_Metrics d.

Lemma scrape_players_ok who ds gauges registry : registry_law -> Forall labelled ds -> NoDup (map (fun d => Cfg_Key (SD_Config d)) ds) ->
  Forall (fun c => match c with PlayerMetrics other _ => other ∉ map (fun d => Cfg_Key (SD_Config d)) ds | MetricSnapshot _ => False end) registry ->
  scrape_players who ds gauges registry = Ok (gauges ++ concat (map player_gauges (shown who ds)), registry ++ omap collector_of (shown who ds)).
Proof using Type.
  clear encode gather family. intros Hlaw Hlab. revert gauges registry. induction Hlab as [|d ds Hl _ IH]; intros gauges registry Hnd Hreg.
  { cbn. by rewrite !app_nil_r. }
  cbn [map] in Hnd, Hreg. apply NoDup_cons in Hnd as [Hnew Hnd]. rewrite filter_cons. cbn [scrape_players].
  assert (Hreg' : Forall (fun c => match c with PlayerMetrics other _ => other ∉ map (fun d => Cfg_Key (SD_Config d)) ds | MetricSnapshot _ => False end) registry).
  { eapply Forall_impl; [exact Hreg|]. intros [other p|l]; [|done]. set_solver. }
  destruct (decide _) as [Ha|Ha]; [|apply not_true_iff_false in Ha; rewrite Ha; by apply IH].
  rewrite Ha. cbn. unfold labelled in Hl. unfold collector_of at 1. destruct (SD_Metrics d) as [[player p]|]; cbn.
  - subst player. rewrite Hlaw.
    + rewrite IH; [by rewrite <- !app_assoc|done|]. apply Forall_app. by split; [|constructor].
    + cbn. intros Hc. apply Exists_exists in Hc as (c & Hin & Hc). rewrite Forall_forall in Hreg. specialize (Hreg c Hin).
      destruct c; [subst; set_solver|done].
  - rewrite IH by done. by rewrite <- app_assoc.
Qed.

(** With distinct players a scrape is never refused by the registry: it gathers
    the collectors of the players that the credential may see, and one snapshot
    with the gauges of the process and of those players, whether the journal is
    ready or not. *)
Theorem scrape_is_complete who ready stopping goroutines heap ds :
  registry_law -> Forall labelled ds -> NoDup (map (fun d => Cfg_Key (SD_Config d)) ds) ->
  GetMetrics who ready stopping goroutines heap ds
  = match gather (omap collector_of (shown who ds)
                  ++ [MetricSnapshot (process_gauges (negb (is_some ready)) stopping goroutines heap ++ concat (map player_gauges (shown who ds)))]) with
    | Err e => Err (EWrap [e])
    | Ok families => encode_all families ""
    end.
Proof using Type.
  intros Hlaw Hlab Hnd. unfold GetMetrics. rewrite scrape_players_ok by (done || constructor). cbn [app]. rewrite Hlaw; [done|].
  cbn. intros Hc. apply Exists_exists in Hc as (c & Hin & Hc). apply list_elem_of_omap in Hin as (d & _ & Hd).
  unfold collector_of in Hd. by destruct (SD_Metrics d); inversion Hd; subst.
Qed.
End scrape.

(** Every gauge of a player names a player that the credential may see. *)
Lemma player_gauges_label d g : g ∈ player_gauges d -> G_labels g = [("player", Cfg_Key (SD_Config d))].
Proof.
  unfold player_gauges. intros [H|H]%elem_of_app; [set_solver|]. destruct (isZero _); set_solver.
Qed.

(** ** At a concrete scrape *)

Definition sample_scraped (key : string) (connected : bool) : scraped := {|
  SD_Config := {| Cfg_WritesEnabled := true; Cfg_Key := key; Cfg_Address := ""; Cfg_FingerprintSHA256 := ""; Cfg_Serial := "";
                  Cfg_Model := ""; Cfg_VolumeCeiling := None |};
  SD_Observed := Snapshot_zero <| Snap_Connected := connected |>; SD_Metrics := Some (key, NewPlayer) |}.
(** A registry that knows players by their label, and shows names with labels. *)
Definition sample_register (registry : list scrape_item) (c : scrape_item) : option error :=
  let same other := match c, other with
                    | PlayerMetrics a _, PlayerMetrics b _ => a == b | MetricSnapshot _, MetricSnapshot _ => true | _, _ => false end in
  if existsb same registry then Some (EText "duplicate") else None.
Definition sample_gather (registry : list scrape_item) : Result (list string) :=
  Ok (concat (map (fun c => match c with
                            | PlayerMetrics player _ => ["metrics " +:+ player]
                            | MetricSnapshot gauges => map (fun g => String.concat "," (G_name g :: map snd (G_labels g))) gauges
                            end) registry)).

Lemma sample_registry_law : registry_law sample_register.
Proof.
  intros registry c Hc. unfold sample_register. destruct (existsb _ _) eqn:He; [|done]. exfalso. apply Hc.
  apply existsb_exists in He as (other & Hin & Hs). apply list_elem_of_In in Hin. destruct c as [a p|l]; cbn; apply Exists_exists; exists other;
    (split; [done|]); destruct other; try done. by breflect.
Qed.

Definition sample_scraper : Credential := {|
  Cred_Principal := "alice"; Cred_TokenSHA256 := ""; Cred_Scopes := ["read"]; Cred_Players := ["den"] |}.

Lemma metrics_are_isolated_witness : forall connected,
  GetMetrics sample_register sample_gather Ok sample_scraper None false 9 1000 [sample_scraped "hall" connected; sample_scraped "den" true]
  = GetMetrics sample_register sample_gather Ok sample_scraper None false 9 1000 [sample_scraped "den" true].
Proof. intros connected. apply metrics_are_isolated. reflexivity. Defined.

Lemma scrape_is_complete_witness :
  GetMetrics sample_register sample_gather (fun name => Ok (name +:+ ";")) sample_scraper (Some (EText "offline")) false 9 1000
    [sample_scraped "hall" true; sample_scraped "den" false]
  = Ok "metrics den;heos_journal_ready;heos_shutting_down;heos_go_goroutines;heos_go_heap_objects_bytes;heos_player_connected,den;heos_player_stale,den;heos_player_writes_enabled,den;".
Proof.
  rewrite (scrape_is_complete _ _ _ sample_scraper (Some (EText "offline")) false 9 1000 _ sample_registry_law);
    [reflexivity|repeat constructor|apply (bool_decide_unpack _); by vm_compute].
Defined.
